(* ===== verification/_CoqProject ===== *)
-Q . S2P
Prelude.v
Word.v
Random.v
GateFU.v
EventQueue.v
ThreadContext.v
ChaosReg.v
RegFile.v
Rename.v
AttackLoop.v
ChaosRename.v
ChaosPhysReg.v
Memory.v
ChaosMem.v
HookGate.v
StoreQueue.v
ChaosLsq.v
DepGraph.v
FUPool.v
IssueQueue.v
ChaosIQ.v
ResultPath.v
ExMon.v
AssocCache.v
ArmTLB.v
ChaosTLB.v
PageTable.v
TableWalk.v
WalkSetup.v
ChaosPTW.v
ChaosSysReg.v
ChaosCommit.v
TagStore.v
Cache.v
DeviceSpec.v
CacheStack.v
Hierarchy.v
ChaosCache.v
