(* ===== verification/Prelude.v ===== *)
(** * gem5-fi: a verification library for the CHAOS fault injectors

    gem5-fi is the gem5 simulator with the CHAOS injectors: SimObjects that wake up from
    an event on a CPU's clock, draw a site and a mask from a random engine, and flip or
    force bits of simulated state.  Other injectors are called from hooks in the
    simulator instead.  This library models the injectors together with the parts of the
    simulator they act on, so that "one fault changes exactly this" is a theorem about
    both sides.  Paths below are relative to CHAOS/gem5/src of the repository.

    ** Parts and files

    Shared by all files:
    - [Prelude] (this file): the state monad of the handlers, statistics and log, the
      random engine, shared lemmas, tactics and hint databases.
    - [Word]: fault types, masks and popcount, little-endian byte windows.
    - [Random]: the distributions of the C++ library the code draws from, and the mask
      generators ([generateRandomMask], [CHAOSReg::generateRandomMask64]).
    - [AttackLoop]: the polling loop several injectors share, over an interface
      ([CappedFault]) that an injector's [processFault] discharges.
    - [HookGate]: the gate that the injectors behind hooks share (window, cap, Bernoulli
      trial, count), over the interface [CappedHook].

    Events and architectural registers:
    - [EventQueue]: sim/eventq.cc with its two-level linked list, the cached clock of
      sim/clocked_object.hh, and [evt], an injector's view of one of its own events.
    - [ThreadContext]: the interface of cpu/thread_context.hh as a class with laws.
    - [ChaosReg]: CHAOSReg/CHAOSReg.cc, faults in architectural registers.

    The out-of-order processor (cpu/o3) and its injectors:
    - [RegFile]: regfile.hh with the read trace and the write-path stuck mask.
    - [Rename]: rename_map.*, free_list.hh and rename.cc (rename, commit, squash), with
      the hook [CHAOSROB::maybeDelayFree].
    - [ChaosRename]: CHAOSRenameMap, CHAOSFreeList and CHAOSROB.
    - [ChaosPhysReg]: CHAOSPhysReg, faults in physical registers.
    - [StoreQueue]: store-to-load forwarding of lsq_unit.cc; [ChaosLsq]: CHAOSLSQFwd and
      CHAOSAddrPath on it.
    - [DepGraph], [FUPool], [IssueQueue]: dep_graph.hh with its nodes, fu_pool.cc, and the
      ready queues of inst_queue.cc; [ChaosIQ]: dispatch and wake-up, with CHAOSIQ.
    - [GateFU]: CHAOSGateFU/CHAOSGateFU.cc, netlist synthesis, [evalNet], [evaluate].
    - [ResultPath]: operand accesses and results of dyn_inst.hh, with CHAOSFPU,
      CHAOSFUPerm, CHAOSGateFU, CHAOSExec and CHAOSL1DForward.
    - [ChaosCommit]: CHAOSRAS at the head of the reorder buffer, CHAOSBPU at branch
      prediction.

    Arm system state (arch/arm) and its injectors:
    - [ExMon]: the exclusive monitor of isa.cc, CHAOSExMon, and the data accesses of
      AtomicSimpleCPU.
    - [AssocCache]: base/cache/associative_cache.hh with its indexing and LRU.
    - [ArmTLB]: tlb.cc, tlbi_op.cc and the TLBs of mmu.cc; [ChaosTLB]: CHAOSArmTLB.
    - [PageTable], [TableWalk], [WalkSetup]: granules, descriptors and the AArch64 walk of
      table_walker.cc; [ChaosPTW]: CHAOSPTW.
    - [ChaosSysReg]: reads of system registers with CHAOSArmSysReg.

    Memory and caches (mem):
    - [Memory]: abstract_mem.cc, data and load-locked/store-conditional tracking.
    - [ChaosMem]: CHAOSMem, faults in main memory with a protection model.
    - [TagStore]: cache_blk.hh and the set-associative tag store of cache/tags.
    - [Cache]: packets, and cache/base.cc and cache/cache.cc in atomic mode, over any
      [Device] below.
    - [DeviceSpec]: the promise [DeviceOk] of a device to the cache above it, kept by the
      memory; [CacheStack]: a cache over such a device keeps the promise too.
    - [Hierarchy]: a processor over any stack of caches.
    - [ChaosCache]: CHAOSCache, faults in cache data, tags, state bits, replacement state
      and writebacks.

    Injector state is a record with the members of the C++ class; a handler is a
    computation in [M X], from the injector core (engine, fault count, statistics, log)
    and the state [X] to a result and the new pair.  The structure the injector acts on is
    part of [X], or, where the simulator calls the injector, the hook is a class of the
    structure ([ForwardHooks], [TlbHook], [CacheHooks], ...) with the injector as an
    instance.  Machine integers are [Z] with wrap-around written out; a failing assertion
    is a value ([None], or a constructor of an outcome type).  A small helper translates
    lines of the definition that calls it.

    ** What the theorems show

    - Caches: any number of caches stacked over a memory, with any replacement policy,
      serve loads and stores as a flat memory does, and no assertion fails.  Each level is
      proved against the promise of the level below.
    - Translation (first stage, at most 48 address bits): a walk ends and refines the tables
      in memory, from the base or from the walk cache; [getTE] answers as the tables say in
      any run of requests and flushes; every hit is a translation not invalidated since, for
      all invalidate operations; lookups are exact for entries in the set of their page; and
      a walk from checked registers never panics.
    - Processor structures: the pointer queue of events refines a sorted list; renaming
      conserves physical registers and squash undoes rename; forwarding returns what the
      older stores wrote; instructions issue in age order; operands are accounted for and
      wake-up refines lists of waiting instructions; the lock list refines one reservation
      per context; an undisturbed exclusive pair succeeds, and no pair loses an update.
    - Netlists: the adder and the multiplier compute addition and multiplication at every
      width; a stuck gate gives the solution of the gate equations with that gate forced.
    - Injectors: the exact effect of one attempt on each structure, the enforcement of
      stuck-at faults, fault caps over whole runs, and what the protection models hide.
    - Faults meeting the simulator: a tag fault in a cache is a false hit for loads and
      stores, or fails an assertion, by the permissions of the other block; a
      dirty-bit fault loses the store, a permission fault fails an assertion at the next
      load; a skipped wake-up is served later or never.
    - Divergences from the documented intent, proved as behaviour of the code: periodic
      checks that stop or reach the wrong register file, faults in a result queue nothing
      reads, a walk that forgets the security of the tables it skips, a livelock at
      probability 1, corrected stuck faults that come back, reservations lost to the
      injector's own write.

    ** Bounds and fuel

    The engine is an arbitrary stream of draws, so a theorem over engines covers every
    outcome of the random choices.  Loops over linked nodes (events, dependency lists)
    take fuel; the refinement theorems show that fuel above the number of queued nodes is
    enough.  The rejection loop of [generateRandomMask64] runs for at most 64 periods of
    the Mersenne twister; since each bit position recurs within a period, the loop ends
    before that.  A page walk recurses over the four levels of a table.  Caches need no
    fuel: in atomic mode every handler is a straight line and the stack is finite.
    Probabilities are rationals, distribution weights are [spec_float].

    ** Not modelled

    CHAOSCov only observes the simulation and changes no simulated state.  Of the caches,
    timing mode (MSHRs, write buffers, snoops that transfer data), uncacheable and locked
    accesses, cache maintenance, prefetches, compression and partitions are left out; of
    translation, the second stage, AArch32 tables and checks of permissions; of the
    processor, fetch, decode, the pipeline latches and, but for the calls to it and what they
    mean for the readiness of accesses, the memory dependence unit.  ISA
    decoders, devices, other replacement policies than LRU (the cache theorems hold for
    any), the text of log messages, statistics output, checkpointing, and the Python and
    shell drivers are outside the model: they neither call an injector nor hold state an
    injector changes, or are input and output only. *)

From stdpp Require Import base list numbers strings.
From Stdlib Require Import ZArith Lia QArith.

(** ** Notations

    The handlers of the injectors are written in a state monad over the pair of
    the injector core (random engine, fault counter, statistics, log) and the
    state [X] a particular injector reads and writes. *)

Declare Scope chaos_scope.
Delimit Scope chaos_scope with chaos.
Open Scope Z_scope.

(** ** Statistics (gem5's [statistics::Scalar] counters) *)

Inductive stat :=
  | numFaultsInjected | numBitFlips | numStuckAtZero | numStuckAtOne
  | numPermanentFaults | numPermanentReapplies | numPermanentChecks | numEccCorrected
  | numDetectedContained | numLatent | numEccLogicMissed | numMapBitFlips
  | numF5Substitutes | numF4FieldStuck | numLegalityRejects | numMarkFree
  | numPopWrong | numEntryBitFlips | numExcSuppress | numSpecLeak
  | numEvals | numDiffs
  | numStructuralByteLaneSkew | numStructuralAllZero | numFwdSourceSub | numStaleLineReplay
  | numPhaseOffset | numAddrFaults | numSrcReadyBitFlips | numTagSub
  | numLoadResultCorrupted | numSkippedNonLoad | numIntResultCorrupted | numSkippedNonInt
  | numFpResultCorrupted | numSkippedNonFp | numResultPopped
  | numCorrupted | numMatchedOpClass | numTargetSub | numDirectionFlip
  | numRasRecordMisses | numSkippedNoFault
  | numClearReservations | numStaleReservations | numInWindowChecks | numOutOfWindow
  | numParityDetectedInvalidated | numParitySilentEscape | numSpuriousFaults | numBenignFlips
  | numRawEscaped | numTagFaults | numTagToLegalFaults | numValidFaults
  | numDirtyFaults | numReplFaults | numCohFaults | numVictimFaults.

#[global] Instance stat_eq_dec : EqDecision stat.
Proof. solve_decision. Defined.

Definition stats := stat -> Z.

Definition stats0 : stats := fun _ => 0.

(** [stats->k++] *)
Definition bump_stat (k : stat) (s : stats) : stats :=
  fun j => if decide (j = k) then s j + 1 else s j.
Arguments bump_stat : simpl never.

(** A line of an injection log: the site or mode it names and the values it
    prints.  The textual rendering is not modelled. *)
Record entry := Entry { e_site : string; e_fields : list (string * Z) }.

(** ** The random engine

    A [std::mt19937] is a stream of 32-bit words read at a cursor.  The stream is
    arbitrary: a theorem about a handler holds for every seed and every
    implementation of the distributions that stays inside the documented range. *)
Record engine := Engine { draws : nat -> Z; cursor : nat }.

Definition next_raw (g : engine) : Z * engine :=
  (draws g (cursor g), Engine (draws g) (S (cursor g))).

(** ** The injector core and the state monad *)

Record core := Core {
  rng : engine;
  faults_injected_count : Z;          (* uint64_t *)
  the_stats : stats;
  the_log : list entry                (* newest first *)
}.

Definition M (X A : Type) : Type := core * X -> A * (core * X).

Definition ret {X A} (a : A) : M X A := fun s => (a, s).

Definition bind {X A B} (m : M X A) (k : A -> M X B) : M X B :=
  fun s => let r := m s in k r.1 r.2.

Notation "'let!' x ':=' m 'in' k" := (bind m (fun x => k))
  (at level 10, x name, m at level 100, k at level 200,
   format "'[v' 'let!'  x  ':='  m  'in' '//' k ']'") : chaos_scope.
Notation "'do!' m 'in' k" := (bind m (fun _ => k))
  (at level 10, m at level 100, k at level 200,
   format "'[v' 'do!'  m  'in' '//' k ']'") : chaos_scope.
Open Scope chaos_scope.

Definition skip {X} : M X unit := ret tt.

Definition whenM {X} (b : bool) (m : M X unit) : M X unit := if b then m else skip.

Definition get {X} : M X X := fun s => (s.2, s).

Definition put {X} (x : X) : M X unit := fun s => (tt, (s.1, x)).

Definition modify {X} (f : X -> X) : M X unit := fun s => (tt, (s.1, f s.2)).

(** [++faults_injected_count] on a [uint64_t]. *)
Definition count_succ (c : Z) : Z := (c + 1) mod 2 ^ 64.

Definition get_count {X} : M X Z := fun s => (faults_injected_count s.1, s).

Definition incr_count {X} : M X unit := fun '(c, x) =>
  (tt, (Core (rng c) (count_succ (faults_injected_count c)) (the_stats c) (the_log c), x)).

(** [faults_injected_count += n] *)
Definition add_count {X} (n : Z) : M X unit := fun '(c, x) =>
  (tt, (Core (rng c) ((faults_injected_count c + n) mod 2 ^ 64) (the_stats c) (the_log c), x)).

Definition bump {X} (k : stat) : M X unit := fun '(c, x) =>
  (tt, (Core (rng c) (faults_injected_count c) (bump_stat k (the_stats c)) (the_log c), x)).

Definition write_entry {X} (e : entry) : M X unit := fun '(c, x) =>
  (tt, (Core (rng c) (faults_injected_count c) (the_stats c) (e :: the_log c), x)).

(** [if (write_log) *(log_stream->stream()) << ...] *)
Definition log_if {X} (w : bool) (e : entry) : M X unit := whenM w (write_entry e).

Definition with_rng {X A} (f : engine -> A * engine) : M X A := fun '(c, x) =>
  let r := f (rng c) in
  (r.1, (Core r.2 (faults_injected_count c) (the_stats c) (the_log c), x)).

(** [for (auto x : l) body(x);] *)
Fixpoint for_each {X A} (l : list A) (body : A -> M X unit) : M X unit :=
  match l with
  | [] => skip
  | a :: l' => do! body a in for_each l' body
  end.

(** Function update. *)
Definition fupd {K V} `{EqDecision K} (f : K -> V) (k : K) (v : V) : K -> V :=
  fun k' => if decide (k' = k) then v else f k'.

(** ** Gates shared by the injectors

    [in_window first last now] is the negation of
    [now < first || (last != 0 && now > last)]; [cap_reached mx c] is
    [mx != 0 && c >= mx]. *)
Definition in_window (first last now : Z) : bool :=
  negb (now <? first) && negb (negb (last =? 0) && (last <? now)).

Definition cap_reached (mx c : Z) : bool := negb (mx =? 0) && (mx <=? c).

(** ** [std::map]

    A [std::map<K,V>] is its sequence of pairs in ascending key order, the order in
    which a range-for visits it. *)
Class KeyOrder (K : Type) := kltb : K -> K -> bool.

Class KeyOrderOk (K : Type) {O : KeyOrder K} : Prop := {
  kltb_irrefl : forall k, kltb k k = false;
  kltb_trans : forall a b c, kltb a b = true -> kltb b c = true -> kltb a c = true;
  kltb_total : forall a b, kltb a b = false -> kltb b a = false -> a = b
}.

#[global] Instance Z_order : KeyOrder Z := Z.ltb.

(** [std::pair] compares lexicographically. *)
#[global] Instance pair_order {A B} `{KeyOrder A} `{KeyOrder B} : KeyOrder (A * B) :=
  fun p q => kltb p.1 q.1 || (negb (kltb q.1 p.1) && kltb p.2 q.2).

Section StdMap.
Context {K V : Type} `{KeyOrder K}.

Definition map_empty : list (K * V) := [].

(** [m[k] = v] *)
Fixpoint map_assign (k : K) (v : V) (m : list (K * V)) : list (K * V) :=
  match m with
  | [] => [(k, v)]
  | (k', v') :: m' =>
      if kltb k k' then (k, v) :: m
      else if kltb k' k then (k', v') :: map_assign k v m'
      else (k, v) :: m'
  end.

(** [m.find(k)] *)
Fixpoint map_find (k : K) (m : list (K * V)) : option V :=
  match m with
  | [] => None
  | (k', v') :: m' => if negb (kltb k k') && negb (kltb k' k) then Some v' else map_find k m'
  end.

Fixpoint map_sorted (m : list (K * V)) : Prop :=
  match m with
  | [] => True
  | (k, _) :: m' => Forall (fun p => kltb k p.1 = true) m' /\ map_sorted m'
  end.
End StdMap.

(** * Lemmas *)

(** ** Case analysis and simplification of handlers *)

Create HintDb chaos discriminated.

Ltac mon :=
  cbn [bind ret skip whenM get put modify get_count incr_count add_count bump
       write_entry log_if with_rng for_each fst snd rng faults_injected_count
       the_stats the_log next_raw draws cursor] in *.

(** Splits every [if] and [match] of the goal on a boolean or an option. *)
Ltac split_if :=
  match goal with
  | |- context [if ?b then _ else _] => destruct b eqn:?
  | |- context [match ?o with Some _ => _ | None => _ end] => destruct o eqn:?
  end.

Ltac bools :=
  repeat match goal with
  | H : _ && _ = true |- _ => apply andb_true_iff in H as [? ?]
  | H : _ || _ = false |- _ => apply orb_false_iff in H as [? ?]
  | H : negb _ = true |- _ => apply negb_true_iff in H
  | H : negb _ = false |- _ => apply negb_false_iff in H
  | H : (_ <? _) = true |- _ => apply Z.ltb_lt in H
  | H : (_ <? _) = false |- _ => apply Z.ltb_ge in H
  | H : (_ <=? _) = true |- _ => apply Z.leb_le in H
  | H : (_ <=? _) = false |- _ => apply Z.leb_gt in H
  | H : (_ =? _) = true |- _ => apply Z.eqb_eq in H
  | H : (_ =? _) = false |- _ => apply Z.eqb_neq in H
  end.

(** A decidable closed proposition, by evaluation. *)
Ltac decided := refine (bool_decide_unpack _ _); by vm_compute.

Lemma fupd_eq {K V} `{EqDecision K} (f : K -> V) k v : fupd f k v k = v.
Proof. unfold fupd. by rewrite decide_True. Qed.

Lemma fupd_ne {K V} `{EqDecision K} (f : K -> V) k v k' : k' <> k -> fupd f k v k' = f k'.
Proof. intros. unfold fupd. by rewrite decide_False. Qed.

Lemma bump_stat_eq k s : bump_stat k s k = s k + 1.
Proof. unfold bump_stat. by rewrite decide_True. Qed.

Lemma bump_stat_ne j k s : j <> k -> bump_stat k s j = s j.
Proof. intros. unfold bump_stat. by rewrite decide_False. Qed.

(** A sequence runs its first part and hands the result and state on. *)
Lemma bind_run {X A B} (m : M X A) (k : A -> M X B) s : bind m k s = k (m s).1 (m s).2.
Proof. done. Qed.

(** A log line changes the log only; [logs] applies this to every [log_if] of the goal. *)
Lemma log_if_spec {X} w e (s : core * X) : exists lg,
  log_if w e s = (tt, (Core (rng s.1) (faults_injected_count s.1) (the_stats s.1) lg, s.2)).
Proof.
  destruct s as [[g c st lg] x]. destruct w; [by exists (e :: lg)|by exists lg].
Qed.

Ltac logs :=
  repeat match goal with
  | |- context [log_if ?w ?e ?s] =>
      let lg := fresh "lg" in destruct (log_if_spec w e s) as [lg ->]; mon
  end.

Lemma cap_reached_spec mx c : cap_reached mx c = true <-> mx <> 0 /\ mx <= c.
Proof. unfold cap_reached. rewrite andb_true_iff, negb_true_iff, Z.eqb_neq, Z.leb_le. done. Qed.

Lemma in_window_spec first last now :
  in_window first last now = true <-> first <= now /\ (last = 0 \/ now <= last).
Proof.
  unfold in_window. rewrite andb_true_iff, !negb_true_iff, andb_false_iff, negb_false_iff.
  rewrite Z.ltb_ge, Z.eqb_eq, Z.ltb_ge. done.
Qed.

Lemma count_succ_small c : 0 <= c < 2 ^ 64 - 1 -> count_succ c = c + 1.
Proof. intros. unfold count_succ. apply Z.mod_small. lia. Qed.

(** Below a 64-bit cap the counter does not wrap. *)
Lemma count_succ_below_cap mx c :
  0 <= mx < 2 ^ 64 -> 0 <= c -> c < mx -> count_succ c = c + 1.
Proof. intros. apply count_succ_small. lia. Qed.

(** ** Invariants of handlers *)

Definition preserves {X A} (P : core * X -> Prop) (m : M X A) : Prop :=
  forall s, P s -> P (m s).2.

Section Preserves.
Context {X : Type} (P : core * X -> Prop).

Lemma preserves_ret {A} (a : A) : preserves P (ret a).
Proof. by intros s H. Qed.

Lemma preserves_bind {A B} (m : M X A) (k : A -> M X B) :
  preserves P m -> (forall a, preserves P (k a)) -> preserves P (bind m k).
Proof. intros Hm Hk s H. apply Hk, Hm, H. Qed.

Lemma preserves_if {A} (b : bool) (m n : M X A) :
  preserves P m -> preserves P n -> preserves P (if b then m else n).
Proof. by destruct b. Qed.

Lemma preserves_for_each {A} (l : list A) (body : A -> M X unit) :
  (forall a, preserves P (body a)) -> preserves P (for_each l body).
Proof.
  intros Hb. induction l as [|a l IH]; simpl; [apply preserves_ret|].
  by apply preserves_bind.
Qed.
End Preserves.

#[export] Hint Resolve preserves_ret preserves_bind preserves_if preserves_for_each : chaos.

(** ** Facts about [std::map] *)

#[global] Instance Z_order_ok : KeyOrderOk Z.
Proof.
  split; unfold kltb, Z_order; intros *; rewrite ?Z.ltb_lt, ?Z.ltb_ge; try apply Z.ltb_ge; lia.
Qed.

#[global] Instance pair_order_ok {A B} `{KeyOrderOk A} `{KeyOrderOk B} : KeyOrderOk (A * B).
Proof.
  split.
  - intros [a b]. unfold kltb at 1, pair_order. simpl. by rewrite !kltb_irrefl.
  - intros [a1 b1] [a2 b2] [a3 b3]. unfold kltb at 1 2 3, pair_order. simpl.
    destruct (kltb a1 a2) eqn:E12, (kltb a2 a3) eqn:E23; simpl;
      rewrite ?(kltb_trans _ _ _ E12 E23); try done; intros HB HC.
    + bools. destruct (kltb a1 a3) eqn:E13; [done|]. exfalso.
      destruct (kltb a3 a1) eqn:E31.
      * pose proof (kltb_trans _ _ _ E31 E12). congruence.
      * rewrite (kltb_total _ _ E13 E31) in E12. congruence.
    + bools. destruct (kltb a1 a3) eqn:E13; [done|]. exfalso.
      destruct (kltb a3 a1) eqn:E31.
      * pose proof (kltb_trans _ _ _ E23 E31). congruence.
      * rewrite <- (kltb_total _ _ E13 E31) in E23. congruence.
    + bools. rewrite (kltb_total a1 a2) in * by done.
      rewrite (kltb_total a2 a3) in * by done.
      rewrite kltb_irrefl. simpl. eauto using kltb_trans.
  - intros [a1 b1] [a2 b2]. unfold kltb at 1 2, pair_order. simpl. intros E1 E2. bools.
    assert (a1 = a2) as -> by (by apply kltb_total). rewrite kltb_irrefl in *. simpl in *.
    f_equal. by apply kltb_total.
Qed.

Section StdMapFacts.
Context {K V : Type} `{KeyOrderOk K}.
Implicit Types (m : list (K * V)) (k : K).

Lemma map_find_assign_eq k v m : map_find k (map_assign k v m) = Some v.
Proof.
  induction m as [|[k' v'] m IH]; simpl.
  - by rewrite kltb_irrefl.
  - destruct (kltb k k') eqn:E1; simpl; [by rewrite kltb_irrefl|].
    destruct (kltb k' k) eqn:E2; simpl.
    + by rewrite E1, E2.
    + by rewrite kltb_irrefl.
Qed.

Lemma map_find_assign_ne k k' v m : k <> k' -> map_find k' (map_assign k v m) = map_find k' m.
Proof.
  intros Hne.
  assert (negb (kltb k' k) && negb (kltb k k') = false) as Hk.
  { destruct (kltb k' k) eqn:E1, (kltb k k') eqn:E2; try done.
    exfalso. by apply Hne, kltb_total. }
  induction m as [|[k2 v2] m IH]; simpl; [by rewrite Hk|].
  destruct (kltb k k2) eqn:E1; simpl; [by rewrite Hk|].
  destruct (kltb k2 k) eqn:E2; simpl; [by rewrite IH|].
  rewrite (kltb_total _ _ E1 E2) in *. by rewrite Hk.
Qed.

Lemma map_assign_Forall (Q : K * V -> Prop) k v m :
  Q (k, v) -> Forall Q m -> Forall Q (map_assign k v m).
Proof.
  intros Hk. induction 1 as [|[k' v'] m ? ? IH]; simpl; [by constructor|].
  repeat case_match; by repeat constructor.
Qed.

Lemma map_assign_sorted k v m : map_sorted m -> map_sorted (map_assign k v m).
Proof.
  induction m as [|[k' v'] m IH]; simpl; [by repeat constructor|].
  intros [Hall Hs]. destruct (kltb k k') eqn:E1; simpl.
  - split; [|done]. constructor; [done|].
    eapply Forall_impl; [exact Hall|]. simpl. eauto using kltb_trans.
  - destruct (kltb k' k) eqn:E2; simpl.
    + split; [by apply map_assign_Forall|]. auto.
    + by rewrite (kltb_total _ _ E1 E2).
Qed.

(** In a [std::map] the entry of a key is unique. *)
Lemma map_find_in k v m : map_sorted m -> (k, v) ∈ m -> map_find k m = Some v.
Proof.
  induction m as [|[k' v'] m IH]; simpl; [by intros _ ?%elem_of_nil|].
  intros [Hall Hs] [[= <- <-]|Hin]%elem_of_cons; [by rewrite !kltb_irrefl|].
  rewrite Forall_forall in Hall. specialize (Hall _ Hin). simpl in Hall.
  rewrite Hall. simpl. rewrite andb_false_r. auto.
Qed.

Lemma map_find_Some_in k v m : map_find k m = Some v -> (k, v) ∈ m.
Proof.
  induction m as [|[k' v'] m IH]; simpl; [done|].
  destruct (kltb k k') eqn:E1; simpl; [intros; right; auto|].
  destruct (kltb k' k) eqn:E2; simpl; [intros; right; auto|].
  intros [= ->]. rewrite (kltb_total _ _ E1 E2). left.
Qed.
End StdMapFacts.

#[export] Hint Resolve map_assign_sorted : chaos.
