(* ===== verification/Word.v ===== *)
(** * Machine words, bit faults and byte buffers

    The fault model common to the injectors: the [FaultType] enumeration, the
    AND/OR/XOR of a mask into a word, [__builtin_popcount], and the little-endian
    read-modify-write of a window of a byte buffer.  A w-bit unsigned value is a
    [Z] in [0, 2^w); operations that can leave the range wrap explicitly. *)

From stdpp Require Import base list numbers strings.
From Stdlib Require Import ZArith Lia Btauto.
From S2P Require Import Prelude.

Definition u64 (z : Z) : Z := z mod 2 ^ 64.
Definition u32 (z : Z) : Z := z mod 2 ^ 32.
Definition u8 (z : Z) : Z := z mod 2 ^ 8.

(** A value of an unsigned type of [w] bits. *)
Definition uint (w z : Z) : Prop := 0 <= z < 2 ^ w.

Definition byte_list (l : list Z) : Prop := Forall (uint 8) l.

(** ** The fault types *)

Inductive FaultType := BitFlip | StuckAtZero | StuckAtOne | Random.

#[global] Instance FaultType_eq_dec : EqDecision FaultType.
Proof. solve_decision. Defined.

Definition stringToFaultType (s : string) : FaultType :=
  if String.eqb s "bit_flip" then BitFlip
  else if String.eqb s "stuck_at_zero" then StuckAtZero
  else if String.eqb s "stuck_at_one" then StuckAtOne
  else Random.

Definition faultTypeToString (f : FaultType) : string :=
  match f with
  | BitFlip => "bit_flip"
  | StuckAtZero => "stuck_at_zero"
  | StuckAtOne => "stuck_at_one"
  | Random => "random"
  end.

(** [static_cast<FaultType>(idx)] of an index of the weight vector. *)
Definition FaultType_of_index (idx : Z) : FaultType :=
  if idx =? 0 then BitFlip else if idx =? 1 then StuckAtZero
  else if idx =? 2 then StuckAtOne else Random.

(** The [switch] on the chosen fault type: [v &= ~mask], [v |= mask],
    [v ^= mask], and no change on the default branch. *)
Definition apply_fault (f : FaultType) (mask v : Z) : Z :=
  match f with
  | StuckAtZero => Z.land v (Z.lnot mask)
  | StuckAtOne => Z.lor v mask
  | BitFlip => Z.lxor v mask
  | Random => v
  end.

(** The same switch in [checkPermanent], which handles the two stuck types only. *)
Definition reapply_fault (f : FaultType) (mask v : Z) : Z :=
  match f with
  | StuckAtZero => Z.land v (Z.lnot mask)
  | StuckAtOne => Z.lor v mask
  | _ => v
  end.

Definition is_stuck (f : FaultType) : bool :=
  match f with StuckAtZero | StuckAtOne => true | _ => false end.

(** The statistic the switch bumps. *)
Definition fault_stat (f : FaultType) : option stat :=
  match f with
  | StuckAtZero => Some numStuckAtZero
  | StuckAtOne => Some numStuckAtOne
  | BitFlip => Some numBitFlips
  | Random => None
  end.

(** [struct PermanentFault] *)
Record PermanentFault := mkPF { pf_type : FaultType; pf_mask : Z; pf_update : bool }.

(** ** [__builtin_popcount] *)

Fixpoint pos_popcount (p : positive) : Z :=
  match p with
  | xH => 1
  | xO q => pos_popcount q
  | xI q => 1 + pos_popcount q
  end.

Definition popcount (z : Z) : Z := match z with Zpos p => pos_popcount p | _ => 0 end.

(** ** Little-endian windows of a byte buffer *)

(** [for (b = 0; b < width; ++b) v |= (uint64_t)data[off + b] << (8 * b);] *)
Definition read_window (data : list Z) (off width : nat) : Z :=
  fold_left (fun v b => Z.lor v (Z.shiftl (data !!! (off + b)%nat) (8 * Z.of_nat b)))
            (seq 0 width) 0.

(** [for (b = 0; b < width; ++b) data[off + b] = (v >> (8 * b)) & 0xff;] *)
Definition write_window (data : list Z) (off width : nat) (v : Z) : list Z :=
  fold_left (fun d b => <[(off + b)%nat := Z.land (Z.shiftr v (8 * Z.of_nat b)) 255]> d)
            (seq 0 width) data.

(** * Lemmas *)

(** ** Bit-level reasoning *)

Create Rewrite HintDb zbits.
#[export] Hint Rewrite Z.land_spec Z.lor_spec Z.lxor_spec Z.lnot_spec using lia : zbits.

(** Proves an equality of [Z] terms built from the bitwise operations. *)
Ltac bitwise := apply Z.bits_inj'; intros ?i ?Hi; autorewrite with zbits;
                repeat match goal with |- context [Z.testbit ?a ?b] =>
                  let t := fresh "t" in set (t := Z.testbit a b); clearbody t end; btauto.

Lemma uint_testbit_high w z i : uint w z -> w <= i -> Z.testbit z i = false.
Proof.
  intros Hz Hi. destruct (Z.eq_dec z 0) as [->|Hnz]; [apply Z.testbit_0_l|].
  apply Z.bits_above_log2; [unfold uint in Hz; lia|].
  apply Z.log2_lt_pow2; [unfold uint in Hz; lia|].
  destruct (Z.le_gt_cases 0 w).
  - unfold uint in Hz. pose proof (Z.pow_le_mono_r 2 w i). lia.
  - unfold uint in Hz. rewrite Z.pow_neg_r in Hz by lia. lia.
Qed.

Lemma testbit_high_uint w z :
  0 <= w -> 0 <= z -> (forall i, w <= i -> Z.testbit z i = false) -> uint w z.
Proof.
  intros Hw Hz Hb. split; [done|].
  destruct (Z.eq_dec z 0) as [->|]; [apply Z.pow_pos_nonneg; lia|].
  apply Z.log2_lt_pow2; [lia|].
  destruct (Z.lt_ge_cases (Z.log2 z) w) as [|Hge]; [done|].
  specialize (Hb _ Hge). rewrite Z.bit_log2 in Hb by lia. done.
Qed.

Lemma uint_lor w a b : 0 <= w -> uint w a -> uint w b -> uint w (Z.lor a b).
Proof.
  intros Hw Ha Hb. apply testbit_high_uint; [done| |].
  - apply Z.lor_nonneg. unfold uint in *. lia.
  - intros i Hi. rewrite Z.lor_spec, !(uint_testbit_high w) by done. done.
Qed.

Lemma uint_lxor w a b : 0 <= w -> uint w a -> uint w b -> uint w (Z.lxor a b).
Proof.
  intros Hw Ha Hb. apply testbit_high_uint; [done| |].
  - apply Z.lxor_nonneg. unfold uint in *. lia.
  - intros i Hi. rewrite Z.lxor_spec, !(uint_testbit_high w) by done. done.
Qed.

Lemma uint_land_l w a b : 0 <= w -> uint w a -> uint w (Z.land a b).
Proof.
  intros Hw Ha. apply testbit_high_uint; [done| |].
  - apply Z.land_nonneg. unfold uint in *. lia.
  - intros i Hi. by rewrite Z.land_spec, (uint_testbit_high w a).
Qed.

Lemma uint_bit w b : 0 <= b < w -> uint w (Z.shiftl 1 b).
Proof.
  intros. rewrite Z.shiftl_1_l. split; [apply Z.pow_nonneg; lia|].
  apply Z.pow_lt_mono_r; lia.
Qed.

Lemma uint_0 w : 0 <= w -> uint w 0.
Proof. intros. split; [lia|]. apply Z.pow_pos_nonneg; lia. Qed.

#[export] Hint Resolve uint_lor uint_lxor uint_land_l uint_bit uint_0 : chaos.

Lemma testbit_1_shiftl b i : 0 <= b -> Z.testbit (Z.shiftl 1 b) i = (i =? b).
Proof.
  intros. rewrite Z.shiftl_1_l. destruct (Z.eqb_spec i b) as [->|].
  - by apply Z.pow2_bits_true.
  - by apply Z.pow2_bits_false.
Qed.

(** Concatenation of disjoint words. *)
Lemma lor_shiftl_add w a b : 0 <= w -> uint w a -> Z.lor a (Z.shiftl b w) = a + b * 2 ^ w.
Proof.
  intros Hw Ha. rewrite <- Z.shiftl_mul_pow2 by done. rewrite <- (Z.add_lor_land a (Z.shiftl b w)).
  replace (Z.land a (Z.shiftl b w)) with 0; [lia|]. symmetry. apply Z.bits_inj'. intros i Hi.
  rewrite Z.land_spec, Z.shiftl_spec, Z.testbit_0_l by done.
  destruct (Z.lt_ge_cases i w); [by rewrite (Z.testbit_neg_r b), andb_false_r by lia|].
  by rewrite (uint_testbit_high w a).
Qed.

(** ** The fault operators *)

Lemma apply_fault_uint w f mask v :
  0 <= w -> uint w mask -> uint w v -> uint w (apply_fault f mask v).
Proof. intros. destruct f; simpl; auto with chaos. Qed.

Lemma reapply_fault_uint w f mask v :
  0 <= w -> uint w mask -> uint w v -> uint w (reapply_fault f mask v).
Proof. intros. destruct f; simpl; auto with chaos. Qed.

(** Bits outside the mask are never touched. *)
Lemma apply_fault_outside f mask v i :
  0 <= i -> Z.testbit mask i = false -> Z.testbit (apply_fault f mask v) i = Z.testbit v i.
Proof.
  intros Hi Hm. destruct f; simpl; autorewrite with zbits; rewrite ?Hm; btauto.
Qed.

(** Inside the mask a bit is forced to 0, forced to 1, or inverted. *)
Lemma apply_fault_inside f mask v i :
  0 <= i -> Z.testbit mask i = true ->
  Z.testbit (apply_fault f mask v) i =
    match f with
    | StuckAtZero => false | StuckAtOne => true
    | BitFlip => negb (Z.testbit v i) | Random => Z.testbit v i
    end.
Proof.
  intros Hi Hm. destruct f; simpl; autorewrite with zbits; rewrite ?Hm; btauto.
Qed.

Lemma reapply_idem f mask v : reapply_fault f mask (reapply_fault f mask v) = reapply_fault f mask v.
Proof. destruct f; simpl; try done; bitwise. Qed.

(** A flip applied twice restores the word. *)
Lemma bitflip_involutive mask v : apply_fault BitFlip mask (apply_fault BitFlip mask v) = v.
Proof. simpl. bitwise. Qed.

(** The stuck condition: every bit of the mask carries the stuck value. *)
Definition stuck_holds (f : FaultType) (mask v : Z) : Prop :=
  forall i, 0 <= i -> Z.testbit mask i = true ->
    match f with
    | StuckAtZero => Z.testbit v i = false
    | StuckAtOne => Z.testbit v i = true
    | _ => True
    end.

Lemma reapply_stuck f mask v : stuck_holds f mask (reapply_fault f mask v).
Proof.
  intros i Hi Hm. destruct f; simpl; try done; autorewrite with zbits; rewrite Hm; btauto.
Qed.

Lemma stuck_holds_fix f mask v : stuck_holds f mask v -> reapply_fault f mask v = v.
Proof.
  intros Hs. destruct f; simpl; try done; apply Z.bits_inj'; intros i Hi;
    autorewrite with zbits; destruct (Z.testbit mask i) eqn:Em; try btauto;
    specialize (Hs i Hi Em); simpl in Hs; rewrite Hs; btauto.
Qed.

Lemma fault_round_trip f : stringToFaultType (faultTypeToString f) = f.
Proof. by destruct f. Qed.

(** ** Population count *)

Lemma popcount_half z : 0 <= z -> popcount z = z mod 2 + popcount (z / 2).
Proof.
  intros Hz. destruct z as [|[p|p|]|p]; try done; try lia.
  - rewrite <- Z.div2_div, Zmod_odd. simpl. lia.
  - rewrite <- Z.div2_div, Zmod_odd. simpl. lia.
Qed.

Lemma popcount_nonneg z : 0 <= popcount z.
Proof. destruct z as [|p|p]; simpl; try lia. induction p; simpl; lia. Qed.

Lemma popcount_0_iff z : 0 <= z -> popcount z = 0 <-> z = 0.
Proof.
  intros Hz. split; [|by intros ->]. destruct z as [|p|p]; try done; try lia.
  simpl. intros H. exfalso. assert (1 <= pos_popcount p); [|lia].
  clear. induction p; simpl; lia.
Qed.

(** Setting one more bit adds one exactly when the bit was clear. *)
Lemma popcount_set_bit z b : 0 <= z ->
  popcount (Z.lor z (Z.shiftl 1 (Z.of_nat b))) =
  popcount z + (if Z.testbit z (Z.of_nat b) then 0 else 1).
Proof.
  revert z. induction b as [|b IH]; intros z Hz.
  - rewrite popcount_half by (apply Z.lor_nonneg; split; [lia|apply Z.shiftl_nonneg; lia]).
    rewrite (popcount_half z) by done.
    rewrite <- !Z.div2_div, !Z.div2_spec, Z.shiftr_lor.
    change (Z.shiftr (Z.shiftl 1 (Z.of_nat 0)) 1) with 0. rewrite Z.lor_0_r.
    rewrite !Zmod_odd, <- !Z.bit0_odd, Z.lor_spec, testbit_1_shiftl by lia.
    change (0 =? Z.of_nat 0) with true. change (Z.of_nat 0) with 0.
    rewrite orb_true_r. destruct (Z.testbit z 0); lia.
  - rewrite popcount_half by (apply Z.lor_nonneg; split; [lia|apply Z.shiftl_nonneg; lia]).
    rewrite (popcount_half z) by done.
    rewrite <- !Z.div2_div, !Z.div2_spec, Z.shiftr_lor.
    rewrite Z.shiftr_shiftl_l by lia. replace (Z.of_nat (S b) - 1) with (Z.of_nat b) by lia.
    rewrite IH by (apply Z.shiftr_nonneg; lia). rewrite Z.shiftr_spec by lia.
    replace (Z.of_nat b + 1) with (Z.of_nat (S b)) by lia.
    rewrite !Zmod_odd, <- !Z.bit0_odd, Z.lor_spec, testbit_1_shiftl by lia.
    rewrite (proj2 (Z.eqb_neq 0 (Z.of_nat (S b)))) by lia. rewrite orb_false_r. lia.
Qed.

Lemma popcount_bound w z : uint (Z.of_nat w) z -> popcount z <= Z.of_nat w.
Proof.
  revert z. induction w as [|w IH]; intros z Hz.
  - unfold uint in Hz. assert (z = 0) as -> by lia. done.
  - unfold uint in *. rewrite popcount_half by lia.
    pose proof (Z.mod_pos_bound z 2). rewrite Nat2Z.inj_succ, Z.pow_succ_r in Hz by lia.
    enough (popcount (z / 2) <= Z.of_nat w) by lia.
    apply IH. split; [apply Z.div_pos; lia|]. apply Z.div_lt_upper_bound; lia.
Qed.

Lemma clear_bit_exists w z :
  uint (Z.of_nat w) z -> popcount z < Z.of_nat w ->
  exists b, 0 <= b < Z.of_nat w /\ Z.testbit z b = false.
Proof.
  revert z. induction w as [|w IH]; intros z Hz Hp.
  - pose proof (popcount_nonneg z). simpl in Hp. lia.
  - unfold uint in *. destruct (Z.testbit z 0) eqn:E; [|exists 0; split; [lia|done]].
    rewrite popcount_half, Zmod_odd, <- Z.bit0_odd, E in Hp by lia.
    rewrite Nat2Z.inj_succ, Z.pow_succ_r in Hz by lia.
    destruct (IH (z / 2)) as [b [Hb Hc]]; [|lia|].
    + split; [apply Z.div_pos; lia|]. apply Z.div_lt_upper_bound; lia.
    + exists (b + 1). split; [lia|]. rewrite <- Hc. change (z / 2) with (z / 2 ^ 1).
      rewrite Z.div_pow2_bits by lia. done.
Qed.

(** ** Windows *)

Lemma read_window_S data off w :
  read_window data off (S w) =
  Z.lor (read_window data off w) (Z.shiftl (data !!! (off + w)%nat) (8 * Z.of_nat w)).
Proof. unfold read_window. rewrite seq_S, fold_left_app. done. Qed.

Lemma write_window_S data off w v :
  write_window data off (S w) v =
  <[(off + w)%nat := Z.land (Z.shiftr v (8 * Z.of_nat w)) 255]> (write_window data off w v).
Proof. unfold write_window. rewrite seq_S, fold_left_app. done. Qed.

Lemma byte_list_total data k : byte_list data -> uint 8 (data !!! k).
Proof.
  intros Hd. destruct (data !! k) as [x|] eqn:E.
  - rewrite (list_lookup_total_correct _ _ _ E). eapply Forall_lookup_1; eauto.
  - rewrite list_lookup_total_alt, E. simpl. unfold uint. cbv. done.
Qed.

Lemma byte_list_insert data k x : byte_list data -> uint 8 x -> byte_list (<[k := x]> data).
Proof. intros. by apply Forall_insert. Qed.

Lemma byte_list_replicate n : byte_list (replicate n 0).
Proof. apply Forall_replicate. by apply uint_0. Qed.

#[export] Hint Resolve byte_list_total byte_list_insert byte_list_replicate : chaos.

Lemma uint8_land_255 v : uint 8 (Z.land v 255).
Proof.
  rewrite Z.land_comm. apply uint_land_l; [lia|]. unfold uint. lia.
Qed.

#[export] Hint Resolve uint8_land_255 : chaos.

(** The window read is the concatenation of the bytes, byte 0 lowest. *)
Lemma read_window_testbit data off w i :
  byte_list data -> 0 <= i ->
  Z.testbit (read_window data off w) i =
  (i <? 8 * Z.of_nat w) && Z.testbit (data !!! (off + Z.to_nat (i / 8))%nat) (i mod 8).
Proof.
  intros Hd Hi. induction w as [|w IH].
  - change (Z.testbit 0 i = (i <? 0) && Z.testbit (data !!! (off + Z.to_nat (i / 8))%nat) (i mod 8)).
    rewrite Z.testbit_0_l. by destruct (Z.ltb_spec i 0); [lia|].
  - rewrite read_window_S, Z.lor_spec, IH, Z.shiftl_spec by done. clear IH.
    pose proof (Z.div_mod i 8 ltac:(lia)). pose proof (Z.mod_pos_bound i 8 ltac:(lia)).
    destruct (Z.ltb_spec i (8 * Z.of_nat w)).
    + destruct (Z.ltb_spec i (8 * Z.of_nat (S w))); [|lia].
      rewrite (Z.testbit_neg_r _ (i - _)) by lia. by rewrite orb_false_r.
    + simpl. destruct (Z.ltb_spec i (8 * Z.of_nat (S w))); simpl.
      * replace (Z.to_nat (i / 8)) with w by nia. f_equal. nia.
      * apply (uint_testbit_high 8); [by apply byte_list_total|lia].
Qed.

Lemma length_write_window data off w v : length (write_window data off w v) = length data.
Proof.
  induction w as [|w IH]; [done|]. by rewrite write_window_S, length_insert.
Qed.

Lemma byte_list_write_window data off w v :
  byte_list data -> byte_list (write_window data off w v).
Proof.
  intros. induction w as [|w IH]; [done|]. rewrite write_window_S. auto with chaos.
Qed.

#[export] Hint Resolve byte_list_write_window : chaos.

Lemma write_window_outside data off w v k :
  (k < off \/ off + w <= k)%nat -> write_window data off w v !!! k = data !!! k.
Proof.
  intros Hk. induction w as [|w IH]; [done|].
  rewrite write_window_S, list_lookup_total_insert_ne by lia. apply IH. lia.
Qed.

Lemma write_window_inside data off w v b :
  (b < w)%nat -> (off + w <= length data)%nat ->
  write_window data off w v !!! (off + b)%nat = Z.land (Z.shiftr v (8 * Z.of_nat b)) 255.
Proof.
  intros Hb Hlen. induction w as [|w IH]; [lia|]. rewrite write_window_S.
  destruct (decide (b = w)) as [->|].
  - apply list_lookup_total_insert_eq. rewrite length_write_window. lia.
  - rewrite list_lookup_total_insert_ne by lia. apply IH; lia.
Qed.

(** Byte [b] of a little-endian word. *)
Definition byte_of (mask : Z) (b : nat) : Z := Z.land (Z.shiftr mask (8 * Z.of_nat b)) 255.

Lemma testbit_255 i : 0 <= i -> Z.testbit 255 i = (i <? 8).
Proof. intros. change 255 with (Z.ones 8). apply Z.testbit_ones_nonneg; lia. Qed.

Lemma testbit_byte_of mask b j :
  0 <= j -> Z.testbit (byte_of mask b) j = (j <? 8) && Z.testbit mask (j + 8 * Z.of_nat b).
Proof.
  intros. unfold byte_of. rewrite Z.land_spec, Z.shiftr_spec, testbit_255 by lia. btauto.
Qed.

(** Applying a fault to a window is applying, to each byte of the window, the
    fault with the corresponding byte of the mask. *)
Lemma window_fault_inside data off w f mask b :
  byte_list data -> (b < w)%nat -> (off + w <= length data)%nat ->
  write_window data off w (apply_fault f mask (read_window data off w)) !!! (off + b)%nat =
  apply_fault f (byte_of mask b) (data !!! (off + b)%nat).
Proof.
  intros Hd Hb Hlen. rewrite write_window_inside by done.
  fold (byte_of (apply_fault f mask (read_window data off w)) b).
  assert (Hu : uint 8 (data !!! (off + b)%nat)) by auto with chaos.
  apply Z.bits_inj'. intros j Hj. rewrite testbit_byte_of by done.
  assert (Hr : j < 8 -> Z.testbit (read_window data off w) (j + 8 * Z.of_nat b) =
               Z.testbit (data !!! (off + b)%nat) j).
  { intros. rewrite read_window_testbit by (done || lia).
    replace ((j + 8 * Z.of_nat b) / 8) with (Z.of_nat b) by (Z.div_mod_to_equations; lia).
    replace ((j + 8 * Z.of_nat b) mod 8) with j by (Z.div_mod_to_equations; lia).
    rewrite Nat2Z.id. destruct (Z.ltb_spec (j + 8 * Z.of_nat b) (8 * Z.of_nat w)); [done|lia]. }
  destruct (Z.ltb_spec j 8) as [Hlt|Hge]; simpl.
  - destruct f; simpl; autorewrite with zbits; rewrite ?Hr, ?testbit_byte_of by lia;
      destruct (Z.ltb_spec j 8); try lia; done.
  - symmetry. apply (uint_testbit_high 8); [|lia].
    apply apply_fault_uint; [lia|apply uint8_land_255|done].
Qed.
