(* ===== verification/Random.v ===== *)
(** * The random distributions and the mask generators

    The distributions of [<random>] the injectors draw from, over the engine of the
    prelude, and the functions that build a fault mask out of uniformly drawn bit
    positions: the OR loop ([generateRandomMask] and [genMask] of most injectors)
    and the rejection loop of [CHAOSReg::generateRandomMask64], which samples
    distinct bits.

    A distribution consumes one draw and its result ranges over exactly the values
    the standard documents for it; since the stream of draws is arbitrary, a theorem
    over all engines is a theorem over all sequences of results. *)

From Stdlib Require Import ZArith Lia QArith.
From Stdlib Require Import Floats.SpecFloat.
From stdpp Require Import base list numbers strings.
From S2P Require Import Prelude Word.

Open Scope Z_scope.

(** ** Distributions *)

(** [std::uniform_int_distribution<int>(lo, hi)(rng)] *)
Definition uniform_int (lo hi : Z) (g : engine) : Z * engine :=
  let r := next_raw g in (lo + r.1 mod (hi - lo + 1), r.2).

(** [rng()]: one word of a [std::mt19937]. *)
Definition raw32 (g : engine) : Z * engine :=
  let r := next_raw g in (r.1 mod 2 ^ 32, r.2).

(** [std::uniform_real_distribution<>(0.0, 1.0)(rng)]: a dyadic in [0, 1). *)
Definition uniform_unit (g : engine) : Q * engine :=
  let r := next_raw g in ((r.1 mod 2 ^ 53) # 2 ^ 53, r.2).

(** [std::geometric_distribution<unsigned>(p)(rng)]: 0 when [p] is 1, any
    [unsigned] otherwise. *)
Definition geometric (p : Q) (g : engine) : Z * engine :=
  let r := next_raw g in ((if Qle_bool 1 p then 0 else r.1 mod 2 ^ 32), r.2).

(** Rejection tests compare such a real with the [probability] parameter:
    [if (u > probability) return;] passes when [u <= probability]. *)
Definition Qgt_bool (a b : Q) : bool := negb (Qle_bool a b).

(** The indices [std::discrete_distribution<int>] can return: those of a positive
    weight; a distribution without weights always returns 0. *)
Fixpoint positive_indices (i : Z) (ws : list spec_float) : list Z :=
  match ws with
  | [] => []
  | w :: ws' => if SFltb (S754_zero false) w then i :: positive_indices (i + 1) ws'
                else positive_indices (i + 1) ws'
  end.

Definition support (weights : list spec_float) : list Z :=
  match positive_indices 0 weights with [] => [0] | l => l end.

Definition discrete (weights : list spec_float) (g : engine) : Z * engine :=
  let r := next_raw g in
  let l := support weights in
  (l !!! Z.to_nat (r.1 mod Z.of_nat (length l)), r.2).

(** ** The OR loop

    [while (bits_to_change-- > 0) mask |= (1ULL << bitDist(gen));] *)
Fixpoint or_random_bits (n : nat) (lo hi mask : Z) (g : engine) : Z * engine :=
  match n with
  | O => (mask, g)
  | S n' => let r := uniform_int lo hi g in
            or_random_bits n' lo hi (Z.lor mask (Z.shiftl 1 r.1)) r.2
  end.

Definition random_mask (bits_to_change lo hi : Z) (g : engine) : Z * engine :=
  or_random_bits (Z.to_nat bits_to_change) lo hi 0 g.

(** The generators that keep the mask in an 8-bit variable. *)
Definition random_mask8 (bits_to_change lo hi : Z) (g : engine) : Z * engine :=
  let r := random_mask bits_to_change lo hi g in (u8 r.1, r.2).

(** ** Loops with an early exit

    [until stop step n s] is [while (!stop(s)) s = step(s)], abandoned after [n]
    iterations.  The bound is binary, so that it can be astronomically large and
    the loop still executable. *)
Section Until.
Context {A : Type} (stop : A -> bool) (step : A -> A).

Definition guarded (s : A) : A := if stop s then s else step s.

Fixpoint until (n : positive) (s : A) : A :=
  match n with
  | xH => guarded s
  | xO m => let s1 := until m s in if stop s1 then s1 else until m s1
  | xI m => let s1 := until m s in
            if stop s1 then s1 else
            let s2 := until m s1 in if stop s2 then s2 else guarded s2
  end.
End Until.

(** ** The rejection loop of [CHAOSReg::generateRandomMask64] *)

Record mask64_state := Mask64 { m64_mask : Z; m64_placed : Z; m64_rng : engine }.

Definition mask64_stop (want : Z) (s : mask64_state) : bool := negb (m64_placed s <? want).

Definition mask64_step (len : Z) (s : mask64_state) : mask64_state :=
  let r := uniform_int 0 (len - 1) (m64_rng s) in
  let b := r.1 in
  let bit := if 64 <=? b then 0 else Z.shiftl 1 b in
  if Z.land (m64_mask s) bit =? 0
  then Mask64 (Z.lor (m64_mask s) bit) (m64_placed s + 1) r.2
  else Mask64 (m64_mask s) (m64_placed s) r.2.

(** The period of the engine is 2^19937 - 1, so 64 distinct positions are met
    within 64 periods. *)
Definition mt_period : positive := 2 ^ 19937.
Definition mask64_fuel : positive := 64 * mt_period.

Definition generateRandomMask64 (bits_to_change len : Z) (g : engine) : Z * engine :=
  if (len <=? 0) || (bits_to_change <=? 0) then (0, g)
  else
    let want := if len <? bits_to_change then len else bits_to_change in
    let s := until (mask64_stop want) (mask64_step len) mask64_fuel (Mask64 0 0 g) in
    (m64_mask s, m64_rng s).

(** [fault_mask ? fault_mask : generate(...)], the way every injector selects
    its mask. *)
Definition mask_or (fault_mask : Z) (gen : engine -> Z * engine) (g : engine) : Z * engine :=
  if negb (fault_mask =? 0) then (fault_mask, g) else gen g.

(** [if (fault_type_enum == FaultType::Random)
       chosen = static_cast<FaultType>(random_fault_distribution(rng));] *)
Definition choose_fault (f : FaultType) (weights : list spec_float) (g : engine) : FaultType * engine :=
  match f with
  | Random => let r := discrete weights g in (FaultType_of_index r.1, r.2)
  | _ => (f, g)
  end.

(** The [float] sum test of the constructors and the weights they end up with. *)
Definition f32_add : spec_float -> spec_float -> spec_float := SFadd 24 128.
Definition f32 (m : positive) (e : Z) : spec_float := S754_finite false m e.
Definition f32_one : spec_float := f32 8388608 (-23).
Definition f32_0_9 : spec_float := f32 15099494 (-24).
Definition f32_0_05 : spec_float := f32 13421773 (-28).

Definition fault_weights (flip zero one : spec_float) : list spec_float :=
  if SFeqb (f32_add (f32_add flip zero) one) f32_one then [flip; zero; one]
  else [f32_0_9; f32_0_05; f32_0_05].

(** * Lemmas *)

(** ** Ranges of the distributions *)

Lemma uniform_int_range lo hi g : lo <= hi -> lo <= (uniform_int lo hi g).1 <= hi.
Proof. intros. simpl. pose proof (Z.mod_pos_bound (draws g (cursor g)) (hi - lo + 1)). lia. Qed.

(** Every value of the range is reached by some engine. *)
Lemma uniform_int_onto lo hi v : lo <= v <= hi -> (uniform_int lo hi (Engine (fun _ => v - lo) 0)).1 = v.
Proof. intros. simpl. rewrite Z.mod_small; lia. Qed.

Lemma geometric_range p g : 0 <= (geometric p g).1 < 2 ^ 32.
Proof. simpl. destruct (Qle_bool 1 p); [lia|]. apply Z.mod_pos_bound. lia. Qed.

Lemma raw32_range g : 0 <= (raw32 g).1 < 2 ^ 32.
Proof. simpl. apply Z.mod_pos_bound. lia. Qed.

Lemma positive_indices_range ws i :
  Forall (fun j => i <= j < i + Z.of_nat (length ws)) (positive_indices i ws).
Proof.
  revert i. induction ws as [|w ws IH]; intros i; simpl; [constructor|].
  destruct (SFltb _ w); [constructor; [lia|]|];
    (eapply Forall_impl; [exact (IH (i + 1))|]; simpl; lia).
Qed.

Lemma support_range weights :
  Forall (fun i => 0 <= i < Z.max 1 (Z.of_nat (length weights))) (support weights).
Proof.
  unfold support. pose proof (positive_indices_range weights 0) as H.
  destruct (positive_indices 0 weights) as [|j l]; [repeat constructor; lia|].
  eapply Forall_impl; [exact H|]. simpl. lia.
Qed.

Lemma discrete_in_support weights g : (discrete weights g).1 ∈ support weights.
Proof.
  unfold discrete. simpl.
  assert (Hl : 0 < Z.of_nat (length (support weights))).
  { unfold support. destruct (positive_indices 0 weights); simpl; lia. }
  apply list_elem_of_lookup_total_2.
  pose proof (Z.mod_pos_bound (draws g (cursor g)) _ Hl). lia.
Qed.

(** A three-weight distribution never selects the default branch of the switch. *)
Lemma choose_fault_not_random f flip zero one g :
  (choose_fault f (fault_weights flip zero one) g).1 <> Random.
Proof.
  unfold choose_fault. destruct f; try done. simpl.
  pose proof (discrete_in_support (fault_weights flip zero one) g) as Hin. simpl in Hin.
  pose proof (support_range (fault_weights flip zero one)) as Hr. rewrite Forall_forall in Hr.
  specialize (Hr _ Hin). unfold FaultType_of_index.
  assert (length (fault_weights flip zero one) = 3%nat) as Hl by (unfold fault_weights; by case_match).
  rewrite Hl in Hr. simpl in Hr. repeat case_match; bools; try done. lia.
Qed.

(** ** The OR loop *)

Lemma or_random_bits_uint w n lo hi mask g :
  0 <= lo -> lo <= hi -> hi < w -> uint w mask -> uint w (or_random_bits n lo hi mask g).1.
Proof.
  intros Hlo Hhi Hw. revert mask g. induction n as [|n IH]; intros mask g Hm; [done|].
  apply IH. pose proof (uniform_int_range lo hi g Hhi).
  apply uint_lor; [lia|done|]. apply uint_bit. lia.
Qed.

(** Bits below [lo] keep their initial value. *)
Lemma or_random_bits_low n lo hi mask g i :
  0 <= lo -> lo <= hi -> i < lo ->
  Z.testbit (or_random_bits n lo hi mask g).1 i = Z.testbit mask i.
Proof.
  intros Hlo Hhi Hi. revert mask g. induction n as [|n IH]; intros mask g; [done|].
  cbn [or_random_bits]. rewrite IH, Z.lor_spec. pose proof (uniform_int_range lo hi g Hhi).
  rewrite testbit_1_shiftl by lia. destruct (Z.eqb_spec i (uniform_int lo hi g).1); [lia|].
  apply orb_false_r.
Qed.

Lemma or_random_bits_popcount n lo hi mask g :
  0 <= lo -> lo <= hi -> 0 <= mask ->
  popcount mask <= popcount (or_random_bits n lo hi mask g).1 <= popcount mask + Z.of_nat n.
Proof.
  intros Hlo Hhi. revert mask g. induction n as [|n IH]; intros mask g Hm; [simpl; lia|].
  cbn [or_random_bits]. pose proof (uniform_int_range lo hi g Hhi) as Hr.
  set (b := (uniform_int lo hi g).1) in *.
  assert (Hb : 0 <= Z.lor mask (Z.shiftl 1 b)).
  { apply Z.lor_nonneg. split; [done|]. apply Z.shiftl_nonneg. lia. }
  specialize (IH (Z.lor mask (Z.shiftl 1 b)) (uniform_int lo hi g).2 Hb).
  pose proof (popcount_set_bit mask (Z.to_nat b) Hm) as Hp. rewrite Z2Nat.id in Hp by lia.
  destruct (Z.testbit mask b); lia.
Qed.

Lemma or_random_bits_nonzero n lo hi mask g :
  0 <= lo -> lo <= hi -> 0 <= mask -> (0 < n)%nat -> (or_random_bits n lo hi mask g).1 <> 0.
Proof.
  intros Hlo Hhi Hm Hn. destruct n as [|n]; [lia|]. cbn [or_random_bits].
  pose proof (uniform_int_range lo hi g Hhi) as Hr. set (b := (uniform_int lo hi g).1) in *.
  assert (Hb : 0 <= Z.lor mask (Z.shiftl 1 b)).
  { apply Z.lor_nonneg. split; [done|]. apply Z.shiftl_nonneg. lia. }
  pose proof (or_random_bits_popcount n lo hi _ (uniform_int lo hi g).2 Hlo Hhi Hb) as [Hp _].
  intros E. rewrite E in Hp. change (popcount 0) with 0 in Hp.
  assert (Hz : popcount (Z.lor mask (Z.shiftl 1 b)) = 0) by (pose proof (popcount_nonneg (Z.lor mask (Z.shiftl 1 b))); lia).
  apply (proj1 (popcount_0_iff _ Hb)), Z.lor_eq_0_iff in Hz as [_ Hz].
  rewrite Z.shiftl_1_l in Hz. pose proof (Z.pow_pos_nonneg 2 b). lia.
Qed.

(** ** Loops with an early exit *)

Section UntilFacts.
Context {A : Type} (stop : A -> bool) (step : A -> A).

Lemma guarded_stopped n s : stop s = true -> Nat.iter n (guarded stop step) s = s.
Proof.
  intros Hs. induction n as [|n IH]; simpl; [done|]. rewrite IH. unfold guarded. by rewrite Hs.
Qed.

Lemma iter_add {B} (f : B -> B) n m s : Nat.iter (n + m) f s = Nat.iter m f (Nat.iter n f s).
Proof. induction m as [|m IH]; [by rewrite Nat.add_0_r|]. rewrite Nat.add_succ_r. simpl. by rewrite IH. Qed.

(** The loop is the [n]-fold iteration of the guarded step. *)
Lemma until_iter n s : until stop step n s = Nat.iter (Pos.to_nat n) (guarded stop step) s.
Proof.
  revert s. induction n as [n IH|n IH|]; intros s; cbn [until]; [| |done].
  - rewrite !IH, Pos2Nat.inj_xI. replace (S (2 * Pos.to_nat n))%nat with (Pos.to_nat n + (Pos.to_nat n + 1))%nat by lia.
    rewrite !iter_add. set (s1 := Nat.iter (Pos.to_nat n) _ s). destruct (stop s1) eqn:E.
    + by rewrite !guarded_stopped by (rewrite ?guarded_stopped; done).
    + set (s2 := Nat.iter (Pos.to_nat n) _ s1). destruct (stop s2) eqn:E2; [|done].
      by rewrite guarded_stopped.
  - rewrite !IH, Pos2Nat.inj_xO. replace (2 * Pos.to_nat n)%nat with (Pos.to_nat n + Pos.to_nat n)%nat by lia.
    rewrite iter_add. set (s1 := Nat.iter (Pos.to_nat n) _ s). destruct (stop s1) eqn:E; [|done].
    by rewrite guarded_stopped.
Qed.
End UntilFacts.

(** ** The rejection loop *)

(** From any position of the stream, each bit position of a [len]-bit register comes
    up within a period of the engine. *)
Definition covers (len : Z) (d : nat -> Z) : Prop :=
  forall n b, 0 <= b < len ->
  exists k, Z.of_nat k < Zpos mt_period /\ d (n + k)%nat mod len = b.

Section Mask64.
Context (len want : Z) (d : nat -> Z).
Context (Hlen : 0 < len <= 64) (Hwant : want <= len) (Hcov : covers len d).

Record m64_inv (s : mask64_state) : Prop := {
  m64_draws : draws (m64_rng s) = d;
  m64_count : popcount (m64_mask s) = m64_placed s;
  m64_uint : uint len (m64_mask s);
  m64_le : m64_placed s <= want
}.

Abbreviation step := (guarded (mask64_stop want) (mask64_step len)).

(** One draw, seen from the bit [b] it produces. *)
Lemma mask64_step_cases s b :
  m64_inv s -> m64_placed s < want -> d (cursor (m64_rng s)) mod len = b ->
  step s = if Z.testbit (m64_mask s) b
           then Mask64 (m64_mask s) (m64_placed s) (Engine d (S (cursor (m64_rng s))))
           else Mask64 (Z.lor (m64_mask s) (Z.shiftl 1 b)) (m64_placed s + 1)
                       (Engine d (S (cursor (m64_rng s)))).
Proof.
  intros Hi Hp Hb. pose proof (Z.mod_pos_bound (d (cursor (m64_rng s))) len ltac:(lia)).
  unfold guarded, mask64_stop. destruct (Z.ltb_spec (m64_placed s) want); [|lia]. simpl negb. cbv iota.
  unfold mask64_step, uniform_int, next_raw. cbn [fst snd]. rewrite (m64_draws _ Hi).
  replace (len - 1 - 0 + 1) with len by lia. rewrite Z.add_0_l, Hb.
  destruct (Z.leb_spec 64 b); [lia|].
  assert (Hz : (Z.land (m64_mask s) (Z.shiftl 1 b) =? 0) = negb (Z.testbit (m64_mask s) b)).
  { destruct (Z.testbit (m64_mask s) b) eqn:E; simpl.
    - apply Z.eqb_neq. intros E0. apply (f_equal (fun z => Z.testbit z b)) in E0.
      rewrite Z.land_spec, E, testbit_1_shiftl, Z.eqb_refl, Z.testbit_0_l in E0 by lia. done.
    - apply Z.eqb_eq, Z.bits_inj'. intros i Hi'.
      rewrite Z.land_spec, testbit_1_shiftl, Z.testbit_0_l by lia.
      destruct (Z.eqb_spec i b) as [->|]; [by rewrite E|apply andb_false_r]. }
  rewrite Hz. by destruct (Z.testbit (m64_mask s) b).
Qed.

Lemma mask64_step_inv s : m64_inv s -> m64_inv (step s) /\ m64_placed s <= m64_placed (step s).
Proof.
  intros Hi. destruct (Z.lt_ge_cases (m64_placed s) want) as [Hp|Hp].
  - pose proof (Z.mod_pos_bound (d (cursor (m64_rng s))) len ltac:(lia)) as Hb.
    rewrite (mask64_step_cases s _ Hi Hp eq_refl). set (b := _ mod _) in *.
    destruct Hi as [Hd Hc Hu Hl]. destruct (Z.testbit (m64_mask s) b) eqn:E.
    + split; [split; simpl; done|simpl; lia].
    + split; [|simpl; lia]. split; simpl; [done| |auto with chaos lia|lia].
      pose proof (popcount_set_bit (m64_mask s) (Z.to_nat b)) as Hp'.
      rewrite Z2Nat.id, E in Hp' by lia. rewrite Hp' by (unfold uint in Hu; lia). lia.
  - assert (step s = s) as ->; [|split; [done|lia]].
    unfold guarded, mask64_stop. destruct (Z.ltb_spec (m64_placed s) want); [lia|done].
Qed.

Lemma mask64_iter_inv n s :
  m64_inv s -> m64_inv (Nat.iter n step s) /\ m64_placed s <= m64_placed (Nat.iter n step s).
Proof.
  intros Hi. induction n as [|n [IH Hle]]; simpl; [split; [done|lia]|].
  destruct (mask64_step_inv _ IH). split; [done|lia].
Qed.

(** A clear bit that comes up [k] draws ahead lets the loop place at least one bit
    in [k + 1] draws. *)
Lemma mask64_progress k s b :
  m64_inv s -> m64_placed s < want -> d (cursor (m64_rng s) + k)%nat mod len = b ->
  Z.testbit (m64_mask s) b = false -> m64_placed s + 1 <= m64_placed (Nat.iter (S k) step s).
Proof.
  revert s. induction k as [|k IH]; intros s Hi Hp Hd Hb.
  - rewrite Nat.add_0_r in Hd. simpl. rewrite (mask64_step_cases s b), Hb by done. simpl. lia.
  - replace (S (S k)) with (1 + S k)%nat by lia. rewrite iter_add.
    change (Nat.iter 1 step s) with (step s). destruct (mask64_step_inv s Hi) as [Hi1 Hle].
    set (c := d (cursor (m64_rng s)) mod len).
    pose proof (mask64_step_cases s c Hi Hp eq_refl) as Hs. destruct (Z.testbit (m64_mask s) c) eqn:Ec.
    + assert (Hpl : m64_placed (step s) = m64_placed s) by (rewrite Hs; done).
      rewrite <- Hpl. apply IH; [done|lia| |]; rewrite Hs; simpl; [|done].
      by rewrite <- Nat.add_succ_r.
    + destruct (mask64_iter_inv (S k) _ Hi1) as [_ Hm]. rewrite Hs in Hm at 1. simpl in Hm. simpl. lia.
Qed.

(** A period of draws places a bit, so [n] periods place [n] bits. *)
Lemma mask64_periods n s :
  m64_inv s -> Z.min want (m64_placed s + Z.of_nat n) <=
               m64_placed (Nat.iter (n * Pos.to_nat mt_period) step s).
Proof.
  revert s. induction n as [|n IH]; intros s Hi; [simpl; lia|].
  change (S n * Pos.to_nat mt_period)%nat with (Pos.to_nat mt_period + n * Pos.to_nat mt_period)%nat.
  rewrite iter_add. destruct (mask64_iter_inv (Pos.to_nat mt_period) s Hi) as [Hi1 Hle].
  specialize (IH _ Hi1). destruct (Z.lt_ge_cases (m64_placed s) want) as [Hp|]; [|lia].
  enough (m64_placed s + 1 <= m64_placed (Nat.iter (Pos.to_nat mt_period) step s)) by lia.
  destruct (clear_bit_exists (Z.to_nat len) (m64_mask s)) as [b [Hb Hc]].
  { rewrite Z2Nat.id by lia. apply Hi. }
  { rewrite Z2Nat.id, (m64_count _ Hi) by lia. lia. }
  destruct (Hcov (cursor (m64_rng s)) b ltac:(lia)) as [k [Hk Hd]].
  replace (Pos.to_nat mt_period) with (S k + (Pos.to_nat mt_period - S k))%nat by lia.
  rewrite iter_add. destruct (mask64_iter_inv (S k) s Hi) as [Hi2 _].
  pose proof (mask64_progress k s b Hi Hp Hd Hc).
  destruct (mask64_iter_inv (Pos.to_nat mt_period - S k) _ Hi2) as [_ Hm]. lia.
Qed.

Lemma mask64_done g :
  draws g = d -> 0 <= want ->
  let s := until (mask64_stop want) (mask64_step len) mask64_fuel (Mask64 0 0 g) in
  m64_placed s = want /\ popcount (m64_mask s) = want /\ uint len (m64_mask s).
Proof.
  intros Hg Hw s. assert (Hi : m64_inv (Mask64 0 0 g)).
  { split; simpl; auto with chaos lia. }
  unfold s. rewrite until_iter. unfold mask64_fuel. rewrite Pos2Nat.inj_mul.
  destruct (mask64_iter_inv (Pos.to_nat 64 * Pos.to_nat mt_period) _ Hi) as [Hi1 _].
  pose proof (mask64_periods (Pos.to_nat 64) _ Hi) as Hp.
  change (m64_placed (Mask64 0 0 g)) with 0 in Hp. rewrite positive_nat_Z in Hp.
  pose proof (m64_le _ Hi1). rewrite (m64_count _ Hi1).
  split; [lia|]. split; [lia|]. apply Hi1.
Qed.
End Mask64.

(** The counting stream covers every register width. *)
Lemma covers_counter len : 0 < len <= 64 -> covers len Z.of_nat.
Proof.
  intros Hl n b Hb. exists (Z.to_nat ((b - Z.of_nat n) mod len)).
  pose proof (Z.mod_pos_bound (b - Z.of_nat n) len ltac:(lia)).
  rewrite Nat2Z.inj_add, Z2Nat.id by lia. split.
  - apply Z.lt_le_trans with 64; [lia|]. change 64 with (2 ^ 6). unfold mt_period.
    rewrite Pos2Z.inj_pow. apply Z.pow_le_mono_r; lia.
  - rewrite Zplus_mod_idemp_r. replace (Z.of_nat n + (b - Z.of_nat n)) with b by lia.
    apply Z.mod_small. lia.
Qed.

Lemma generateRandomMask64_popcount bits_to_change len g :
  0 < len <= 64 -> covers len (draws g) ->
  let m := (generateRandomMask64 bits_to_change len g).1 in
  popcount m = Z.max 0 (Z.min bits_to_change len) /\ uint len m.
Proof.
  intros Hlen Hcov. unfold generateRandomMask64.
  destruct (Z.leb_spec len 0); [lia|]. destruct (Z.leb_spec bits_to_change 0); cbv iota zeta beta delta [orb].
  - split; [simpl; lia|]. simpl. apply uint_0. lia.
  - set (want := if len <? bits_to_change then len else bits_to_change).
    assert (Hw : want = Z.min bits_to_change len) by (unfold want; destruct (Z.ltb_spec len bits_to_change); lia).
    destruct (mask64_done len want (draws g) Hlen ltac:(lia) Hcov g eq_refl ltac:(lia)) as (_ & Hp & Hu).
    cbn [fst]. split; [lia|done].
Qed.

(** Drawing moves the cursor of the engine and keeps its stream; every mask of the
    rejection loop is a 64-bit word. *)
Lemma generateRandomMask64_uint bits_to_change len g :
  let r := generateRandomMask64 bits_to_change len g in uint 64 r.1 /\ draws r.2 = draws g.
Proof.
  unfold generateRandomMask64. destruct (_ || _); [split; [by apply uint_0|done]|].
  set (want := if len <? bits_to_change then len else bits_to_change). rewrite until_iter.
  generalize (Pos.to_nat mask64_fuel) as n. cbv zeta.
  assert (Hstep : forall s, uint 64 (m64_mask s) /\ draws (m64_rng s) = draws g ->
    uint 64 (m64_mask (guarded (mask64_stop want) (mask64_step len) s)) /\
    draws (m64_rng (guarded (mask64_stop want) (mask64_step len) s)) = draws g).
  { intros s [Hu Hd]. unfold guarded. destruct (mask64_stop want s); [done|]. unfold mask64_step.
    set (b := (uniform_int 0 (len - 1) (m64_rng s)).1). case_match; [|done].
    split; [|done]. apply uint_lor; [lia|done|]. cbn [fst]. destruct (Z.leb_spec 64 b); [by apply uint_0|].
    destruct (Z.lt_ge_cases b 0); [|apply uint_bit; lia].
    rewrite Z.shiftl_1_l, Z.pow_neg_r by done. by apply uint_0. }
  assert (Hall : forall n, uint 64 (m64_mask (Nat.iter n (guarded (mask64_stop want) (mask64_step len)) (Mask64 0 0 g))) /\
    draws (m64_rng (Nat.iter n (guarded (mask64_stop want) (mask64_step len)) (Mask64 0 0 g))) = draws g).
  { induction n as [|n IH]; [split; [by apply uint_0|done]|]. simpl. by apply Hstep. }
  intros n. exact (Hall n).
Qed.

(** C22 The rejection loop of [CHAOSReg::generateRandomMask64] terminates, and
    returns a mask inside the register with exactly [bits_to_change] distinct bits
    set, capped at the width and 0 for a non-positive request; all it needs of the
    engine is that every bit position recurs within a period. *)
Theorem generateRandomMask64_exact bits_to_change len g :
  0 < len <= 64 -> covers len (draws g) ->
  let m := (generateRandomMask64 bits_to_change len g).1 in
  popcount m = Z.max 0 (Z.min bits_to_change len) /\ uint len m.
Proof. apply generateRandomMask64_popcount. Qed.

Lemma generateRandomMask64_exact_witness :
  popcount (generateRandomMask64 3 64 (Engine Z.of_nat 0)).1 = Z.max 0 (Z.min 3 64) /\
  uint 64 (generateRandomMask64 3 64 (Engine Z.of_nat 0)).1.
Proof.
  apply (generateRandomMask64_exact 3 64 (Engine Z.of_nat 0)); [lia|].
  apply covers_counter. lia.
Defined.

Lemma random_mask_range bits_to_change lo hi g :
  0 <= lo <= hi ->
  let m := (random_mask bits_to_change lo hi g).1 in
  uint (hi + 1) m /\ (forall i, i < lo -> Z.testbit m i = false) /\ popcount m <= Z.max 0 bits_to_change.
Proof.
  intros Hr m. unfold m, random_mask. split_and!.
  - apply or_random_bits_uint; auto with chaos lia.
  - intros i Hi. rewrite or_random_bits_low by lia. apply Z.testbit_0_l.
  - pose proof (or_random_bits_popcount (Z.to_nat bits_to_change) lo hi 0 g) as Hp.
    change (popcount 0) with 0 in Hp. lia.
Qed.

(** A mask built by the OR loop stays inside the bit range it is drawn from, has
    at most [bits_to_change] bits, and is never empty when at least one bit is
    requested (positions may repeat, so the count is an upper bound only). *)
Theorem random_mask_bounds bits_to_change lo hi g :
  0 <= lo <= hi ->
  let m := (random_mask bits_to_change lo hi g).1 in
  uint (hi + 1) m /\ (forall i, i < lo -> Z.testbit m i = false) /\
  popcount m <= Z.max 0 bits_to_change /\ (0 < bits_to_change -> m <> 0).
Proof.
  intros Hr m. destruct (random_mask_range bits_to_change lo hi g Hr) as (H1 & H2 & H3). split_and!; try done.
  intros. apply or_random_bits_nonzero; lia.
Qed.

Lemma random_mask8_bounds bits_to_change lo hi g :
  0 <= lo <= hi -> hi < 8 ->
  let m := (random_mask8 bits_to_change lo hi g).1 in
  0 <= m < 2 ^ 8 /\ popcount m <= Z.max 0 bits_to_change /\ (0 < bits_to_change -> m <> 0).
Proof.
  intros Hr H8 m. unfold m, random_mask8, random_mask. cbn [fst].
  assert (uint 8 (or_random_bits (Z.to_nat bits_to_change) lo hi 0 g).1) as Hu by (apply or_random_bits_uint; auto with chaos lia).
  unfold u8. rewrite Z.mod_small by exact Hu. split; [exact Hu|]. split.
  - pose proof (or_random_bits_popcount (Z.to_nat bits_to_change) lo hi 0 g) as Hp. change (popcount 0) with 0 in Hp. lia.
  - intros. apply or_random_bits_nonzero; lia.
Qed.

Lemma random_mask_bounds_witness :
  uint 48 (random_mask 2 12 47 (Engine Z.of_nat 5)).1 /\
  (forall i, i < 12 -> Z.testbit (random_mask 2 12 47 (Engine Z.of_nat 5)).1 i = false) /\
  popcount (random_mask 2 12 47 (Engine Z.of_nat 5)).1 <= Z.max 0 2 /\
  (0 < 2 -> (random_mask 2 12 47 (Engine Z.of_nat 5)).1 <> 0).
Proof. apply (random_mask_bounds 2 12 47 (Engine Z.of_nat 5)). lia. Defined.
