(* ===== verification/GateFU.v ===== *)
(** * CHAOSGateFU: synthesised netlists and structural stuck-at faults

    [CHAOSGateFU] builds a gate-level adder or multiplier, evaluates it with and
    without one gate output stuck, and XORs the difference of the two results into
    the value an instruction writes back.  The file models the netlist and its
    synthesis (Kogge-Stone adder, shift-add multiplier), [evalNet] and [evaluate],
    and proves the two netlists compute addition and multiplication at every width. *)

From stdpp Require Import base list numbers strings.
From Stdlib Require Import ZArith Lia.
From S2P Require Import Prelude Word.

(** ** Netlists *)

Inductive GateType := AND | OR | XOR | NOT.

(** A fan-in is a gate index, or [-(pi_index + 1)] for a primary input. *)
Record Gate := mkGate { g_type : GateType; in0 : Z; in1 : Z }.

Record netlist := Netlist { gates : list Gate; po_gates : list Z; pi_width : Z }.

(** ** Synthesis

    The synthesis functions push gates on [gates]; they are written in the state
    monad of that vector. *)
Definition B (A : Type) : Type := list Gate -> A * list Gate.

Definition retB {A} (a : A) : B A := fun gs => (a, gs).
Definition bindB {A C} (m : B A) (k : A -> B C) : B C := fun gs => let r := m gs in k r.1 r.2.

Declare Scope net_scope.
Open Scope net_scope.
Notation "x '<~' m ';;' k" := (bindB m (fun x => k))
  (at level 100, m at next level, right associativity) : net_scope.

Definition synthGate (t : GateType) (a b : Z) : B Z :=
  fun gs => (Z.of_nat (length gs), gs ++ [mkGate t a b]).

(** A loop that fills a vector, one element per iteration. *)
Fixpoint mapB {I A} (f : I -> B A) (l : list I) : B (list A) :=
  match l with
  | [] => retB []
  | i :: l' => a <~ f i ;; rest <~ mapB f l' ;; retB (a :: rest)
  end.

(** Primary inputs: [a] is [PI 0 .. PI (w-1)], [b] is [PI w .. PI (2w-1)]. *)
Definition PI (idx : nat) : Z := - (Z.of_nat idx + 1).

(** *** The Kogge-Stone adder

    The code keeps, per bit, the vector of all levels and reads its first and its
    last element only: [p0] is the first level and [pg] the last one. *)
Definition preprocess (width i : nat) : B (Z * Z) :=
  p <~ synthGate XOR (PI i) (PI (width + i)) ;;
  g <~ synthGate AND (PI i) (PI (width + i)) ;;
  retB (p, g).

Definition prefix_cell (pg : list (Z * Z)) (d i : nat) : B (Z * Z) :=
  let pv := (pg !!! i).1 in let gv := (pg !!! i).2 in
  if decide (d <= i)%nat then
    let pp := (pg !!! (i - d)%nat).1 in let gg := (pg !!! (i - d)%nat).2 in
    pand <~ synthGate AND pv gg ;;
    gor <~ synthGate OR gv pand ;;
    pandp <~ synthGate AND pv pp ;;
    retB (pandp, gor)
  else retB (pv, gv).

(** [for (d = 1; d < width; d <<= 1)]; [width] iterations are enough. *)
Fixpoint prefix_levels (fuel width d : nat) (pg : list (Z * Z)) : B (list (Z * Z)) :=
  match fuel with
  | O => retB pg
  | S fuel' =>
      if decide (d < width)%nat then
        pg' <~ mapB (prefix_cell pg d) (seq 0 width) ;;
        prefix_levels fuel' width (2 * d) pg'
      else retB pg
  end.

Definition sum_cell (p0 pg : list (Z * Z)) (i : nat) : B Z :=
  match i with
  | O => retB (p0 !!! O).1
  | S i' => synthGate XOR (p0 !!! i).1 (pg !!! i').2
  end.

Definition adder (width : nat) : B (list Z) :=
  p0 <~ mapB (preprocess width) (seq 0 width) ;;
  pg <~ prefix_levels width width 1 p0 ;;
  sums <~ mapB (sum_cell p0 pg) (seq 0 width) ;;
  retB (sums ++ [(pg !!! (width - 1)%nat).2]).

Definition synthesizeAdder (width : nat) : netlist :=
  let r := adder width [] in Netlist r.2 r.1 (2 * Z.of_nat width).

(** *** The shift-add multiplier *)

(** One full adder: the sum gate and the carry gate. *)
Definition full_adder (x y carry : Z) : B (Z * Z) :=
  xyc <~ synthGate XOR x y ;;
  xy <~ synthGate AND x y ;;
  s <~ synthGate XOR xyc carry ;;
  xc <~ synthGate AND xyc carry ;;
  c <~ synthGate OR xy xc ;;
  retB (s, c).

(** Row [i] contributes [pp[i][k - i]] at bit [k], the zero gate elsewhere. *)
Definition row_bit (width i : nat) (row : list Z) (const0 : Z) (k : nat) : Z :=
  if decide (i <= k /\ k - i < width)%nat then row !!! (k - i)%nat else const0.

Fixpoint ripple (ks : list nat) (acc : list Z) (y : nat -> Z) (carry : Z) : B (list Z) :=
  match ks with
  | [] => retB []
  | k :: ks' =>
      sc <~ full_adder (acc !!! k) (y k) carry ;;
      rest <~ ripple ks' acc y sc.2 ;;
      retB (sc.1 :: rest)
  end.

Fixpoint rows (width : nat) (ix : list nat) (pp : list (list Z)) (const0 : Z) (acc : list Z)
    : B (list Z) :=
  match ix with
  | [] => retB acc
  | i :: ix' =>
      sum <~ ripple (seq 0 (2 * width)) acc (row_bit width i (pp !!! i) const0) const0 ;;
      rows width ix' pp const0 sum
  end.

Definition multiplier (width : nat) : B (list Z) :=
  pp <~ mapB (fun i => mapB (fun j => synthGate AND (PI j) (PI (width + i))) (seq 0 width))
             (seq 0 width) ;;
  not_a0 <~ synthGate NOT (PI 0) (PI 0) ;;
  const0 <~ synthGate AND (PI 0) not_a0 ;;
  rows width (seq 1 (width - 1)) pp const0
       ((pp !!! O) ++ replicate width const0).

Definition synthesizeMultiplier (width : nat) : netlist :=
  let r := multiplier width [] in Netlist r.2 r.1 (2 * Z.of_nat width).

(** ** Evaluation *)

Definition vbit (l : list bool) (i : nat) : bool := default false (l !! i).

(** The lambda [read] of [evalNet]. *)
Definition read_net (pis val : list bool) (i : Z) : bool :=
  if i <? 0 then vbit pis (Z.to_nat (- i - 1)) else vbit val (Z.to_nat i).

Definition gate_op (t : GateType) (x y : bool) : bool :=
  match t with
  | AND => x && y
  | OR => x || y
  | XOR => negb (Bool.eqb x y)
  | NOT => negb x
  end.

Definition eval_gate (pis : list bool) (stuck_gate stuck_val : Z) (val : list bool) (g : Gate)
    : list bool :=
  let v := gate_op (g_type g) (read_net pis val (in0 g)) (read_net pis val (in1 g)) in
  val ++ [if Z.of_nat (length val) =? stuck_gate then negb (stuck_val =? 0) else v].

Definition eval_gates (pis : list bool) (stuck_gate stuck_val : Z) (gs : list Gate) : list bool :=
  fold_left (eval_gate pis stuck_gate stuck_val) gs [].

Definition evalNet (net : netlist) (pis : list bool) (stuck_gate stuck_val : Z) : list bool :=
  let val := eval_gates pis stuck_gate stuck_val (gates net) in
  map (fun po => if 0 <=? po then vbit val (Z.to_nat po) else false) (po_gates net).

(** ** The writeback oracle *)

Record gatefu_params := GateFUParams {
  gf_target_opclass : Z; gf_stuck_gate : Z; gf_stuck_val : Z;
  gf_first_clock : Z; gf_write_log : bool; gf_net : netlist
}.

Record gatefu_state := GateFUState { eval_count : Z; diff_count : Z }.

(** The first two integer sources among (is integer, value) pairs. *)
Definition int_operands (srcs : list (bool * Z)) : list Z :=
  take 2 (map snd (filter (fun s => s.1 = true) srcs)).

(** The primary inputs: [pis[i] = a_i] and, if there is room, [pis[64 + i] = b_i]. *)
Definition load_pis (pi_width a b : Z) : list bool :=
  fold_left (fun pis i =>
      let pis := <[i := Z.testbit a (Z.of_nat i)]> pis in
      if 64 + Z.of_nat i <? pi_width then <[(64 + i)%nat := Z.testbit b (Z.of_nat i)]> pis else pis)
    (seq 0 64) (replicate (Z.to_nat pi_width) false).

(** [for (i = 0; i < po.size() && i < 64; i++) if (po[i]) r |= (1ULL << i);] *)
Definition pack_po (po : list bool) : Z :=
  fold_left (fun r i => if vbit po i then Z.lor r (Z.shiftl 1 (Z.of_nat i)) else r)
            (seq 0 (Nat.min (length po) 64)) 0.

Definition evaluate (p : gatefu_params) (now op_class : Z) (srcs : list (bool * Z))
    : M gatefu_state (option Z) :=
  if gf_stuck_gate p <? 0 then ret None
  else if negb (op_class =? gf_target_opclass p) then ret None
  else if now <? gf_first_clock p then ret None
  else if decide (length srcs < 2)%nat then ret None
  else match int_operands srcs with
  | [a; b] =>
      do! modify (fun s => GateFUState (count_succ (eval_count s)) (diff_count s)) in
      do! bump numEvals in
      let pis := load_pis (pi_width (gf_net p)) a b in
      let r_clean := pack_po (evalNet (gf_net p) pis (-1) 0) in
      let r_stuck := pack_po (evalNet (gf_net p) pis (gf_stuck_gate p) (gf_stuck_val p)) in
      if negb (r_stuck =? r_clean) then
        do! modify (fun s => GateFUState (eval_count s) (count_succ (diff_count s))) in
        do! bump numDiffs in
        let! s := get in
        do! log_if (gf_write_log p && (eval_count s <=? 32))
              (Entry "gatefu" [("cycle", now); ("gate", gf_stuck_gate p); ("a", a); ("b", b);
                               ("clean", r_clean); ("stuck", r_stuck)]) in
        ret (Some (Z.lxor r_clean r_stuck))
      else ret None
  | _ => ret None
  end.

(** * Lemmas *)

(** ** Values of nets

    [carries pis gs r v]: in the netlist [gs], fault-free, the fan-in [r] is driven (a
    primary input or an existing gate) and carries [v].  Pushing gates keeps it. *)
Definition sem (pis : list bool) (gs : list Gate) (r : Z) : bool :=
  read_net pis (eval_gates pis (-1) 0 gs) r.

Definition carries (pis : list bool) (gs : list Gate) (r : Z) (v : bool) : Prop :=
  r < Z.of_nat (length gs) /\ sem pis gs r = v.

Lemma eval_gates_snoc pis sg sv gs g :
  eval_gates pis sg sv (gs ++ [g]) = eval_gate pis sg sv (eval_gates pis sg sv gs) g.
Proof. unfold eval_gates. by rewrite fold_left_app. Qed.

Lemma length_eval_gates pis sg sv gs : length (eval_gates pis sg sv gs) = length gs.
Proof.
  induction gs as [|g gs IH] using rev_ind; [done|].
  rewrite eval_gates_snoc. unfold eval_gate. rewrite !length_app, IH. done.
Qed.

(** Values already computed are not changed by later gates. *)
Lemma eval_gates_prefix pis sg sv gs l : eval_gates pis sg sv gs `prefix_of` eval_gates pis sg sv (gs ++ l).
Proof.
  induction l as [|g l IH] using rev_ind; [by rewrite app_nil_r|].
  rewrite app_assoc, eval_gates_snoc. unfold eval_gate. by apply prefix_app_r.
Qed.

Lemma vbit_prefix l k i : l `prefix_of` k -> (i < length l)%nat -> vbit k i = vbit l i.
Proof.
  intros [m ->] Hi. unfold vbit. by rewrite lookup_app_l.
Qed.

Lemma carries_app pis gs l r v : carries pis gs r v -> carries pis (gs ++ l) r v.
Proof.
  intros [Hr Hv]. split; [rewrite length_app; lia|]. rewrite <- Hv.
  unfold sem, read_net. destruct (Z.ltb_spec r 0); [done|].
  apply vbit_prefix; [apply eval_gates_prefix|]. rewrite length_eval_gates. lia.
Qed.

Lemma carries_PI pis gs i : carries pis gs (PI i) (vbit pis i).
Proof.
  unfold carries, sem, read_net, PI. split; [lia|]. destruct (Z.ltb_spec (- (Z.of_nat i + 1)) 0); [|lia].
  f_equal. lia.
Qed.

(** The same of a gate output. *)
Definition drives (pis : list bool) (gs : list Gate) (r : Z) (v : bool) : Prop :=
  0 <= r /\ carries pis gs r v.

Lemma drives_app pis gs l r v : drives pis gs r v -> drives pis (gs ++ l) r v.
Proof. intros [? ?]. split; [done|]. by apply carries_app. Qed.

Lemma drives_carries pis gs r v : drives pis gs r v -> carries pis gs r v.
Proof. by intros [? ?]. Qed.

(** ** Rules for the synthesis monad *)

(** Every fan-in is a primary input or an earlier gate. *)
Definition topo (gs : list Gate) : Prop :=
  forall gi g, gs !! gi = Some g -> in0 g < Z.of_nat gi /\ in1 g < Z.of_nat gi.

Lemma topo_snoc gs t a b :
  topo gs -> a < Z.of_nat (length gs) -> b < Z.of_nat (length gs) -> topo (gs ++ [mkGate t a b]).
Proof.
  intros Ht Ha Hb gi g Hg. apply lookup_app_Some in Hg as [Hg|[Hle Hg]]; [by apply Ht|].
  apply list_lookup_singleton_Some in Hg as [Heq <-]. simpl. lia.
Qed.

(** [builds gs m Q]: run from [gs], [m] only pushes gates, keeps them ordered, and
    establishes [Q]. *)
Definition builds {A} (gs : list Gate) (m : B A) (Q : A -> list Gate -> Prop) : Prop :=
  (exists l, (m gs).2 = gs ++ l) /\ (topo gs -> topo (m gs).2) /\ Q (m gs).1 (m gs).2.

(** Postconditions that survive pushing more gates. *)
Definition stable {A} (Q : A -> list Gate -> Prop) : Prop :=
  forall a gs l, Q a gs -> Q a (gs ++ l).

Lemma builds_ret {A} gs (a : A) (Q : A -> list Gate -> Prop) : Q a gs -> builds gs (retB a) Q.
Proof. intros. split; [exists []; by rewrite app_nil_r|]. by split. Qed.

Lemma builds_bind {A C} gs (m : B A) (k : A -> B C) Q R :
  builds gs m Q -> (forall a l, Q a (gs ++ l) -> builds (gs ++ l) (k a) R) ->
  builds gs (bindB m k) R.
Proof.
  intros [[l Hl] [Ht HQ]] Hk. unfold builds, bindB. simpl. rewrite Hl in *.
  destruct (Hk _ l HQ) as [[l' Hl'] [Ht' HR]]. split; [|split; [auto|done]].
  exists (l ++ l'). by rewrite Hl', app_assoc.
Qed.

Lemma builds_gate pis gs t a b va vb :
  carries pis gs a va -> carries pis gs b vb ->
  builds gs (synthGate t a b) (fun r gs' => drives pis gs' r (gate_op t va vb)).
Proof.
  intros [Hla Ha] [Hlb Hb]. split; [by exists [mkGate t a b]|].
  split; [intros Ht; by apply topo_snoc|]. simpl. split; [lia|]. split.
  - rewrite length_app. simpl. lia.
  - unfold sem. rewrite eval_gates_snoc. unfold read_net at 1.
    destruct (Z.ltb_spec (Z.of_nat (length gs)) 0); [lia|].
    rewrite Nat2Z.id. unfold eval_gate, vbit at 1. fold (sem pis gs).
    rewrite lookup_app_r, length_eval_gates, Nat.sub_diag by (rewrite length_eval_gates; lia).
    simpl. destruct (Z.eqb_spec (Z.of_nat (length gs)) (-1)); [lia|].
    unfold sem in Ha, Hb. by rewrite Ha, Hb.
Qed.

Lemma builds_map {I A} gs (f : I -> B A) l (Q : I -> A -> list Gate -> Prop) :
  (forall i, stable (Q i)) ->
  (forall i l', i ∈ l -> builds (gs ++ l') (f i) (Q i)) ->
  builds gs (mapB f l) (fun out gs' => Forall2 (fun i a => Q i a gs') l out).
Proof.
  intros Hst. revert gs. induction l as [|i l IH]; intros gs Hf; cbn [mapB].
  - apply builds_ret. constructor.
  - eapply builds_bind.
    { specialize (Hf i [] ltac:(left)). rewrite app_nil_r in Hf. exact Hf. }
    intros a l1 Ha. eapply builds_bind.
    { apply IH. intros j l' Hj. rewrite <- app_assoc. apply Hf. by right. }
    intros out l2 Hout. apply builds_ret. constructor; [by apply Hst|done].
Qed.

Lemma Forall2_seq_lookup {A} `{Inhabited A} (P : nat -> A -> Prop) n out i :
  Forall2 P (seq 0 n) out -> (i < n)%nat -> P i (out !!! i).
Proof.
  intros HF Hi. assert (Hl : length out = n) by (by rewrite <- (Forall2_length _ _ _ HF), length_seq).
  destruct (lookup_lt_is_Some_2 out i) as [x Hx]; [lia|].
  rewrite (list_lookup_total_correct _ _ _ Hx).
  exact (Forall2_lookup_lr _ _ _ _ _ _ HF (lookup_seq_lt 0 n i Hi) Hx).
Qed.

(** A wire known to carry a value, before or after more gates were pushed. *)
Ltac wire := solve [ apply carries_PI
                   | repeat first [eassumption | apply drives_carries | apply carries_app | apply drives_app] ].

(** Runs the next [synthGate]. *)
Ltac gate pis := eapply builds_bind; [eapply (builds_gate pis); wire|]; cbv beta.

#[export] Hint Resolve carries_app carries_PI drives_app drives_carries builds_ret builds_gate : chaos.

(** ** Carries *)

Section Carry.
Context (a b : nat -> bool).

(** Propagate and generate of the [n] bits from [lo]. *)
Fixpoint P_range (lo n : nat) : bool :=
  match n with O => true | S m => xorb (a (lo + m)%nat) (b (lo + m)%nat) && P_range lo m end.

Fixpoint G_range (lo n : nat) : bool :=
  match n with
  | O => false
  | S m => (a (lo + m)%nat && b (lo + m)%nat) || (xorb (a (lo + m)%nat) (b (lo + m)%nat) && G_range lo m)
  end.

Lemma P_range_add lo n m : P_range lo (n + m) = P_range (lo + n) m && P_range lo n.
Proof.
  induction m as [|m IH]; [by rewrite Nat.add_0_r|].
  rewrite Nat.add_succ_r. cbn [P_range]. rewrite IH, Nat.add_assoc. by rewrite andb_assoc.
Qed.

Lemma G_range_add lo n m :
  G_range lo (n + m) = G_range (lo + n) m || (P_range (lo + n) m && G_range lo n).
Proof.
  induction m as [|m IH]; [by rewrite Nat.add_0_r|].
  rewrite Nat.add_succ_r. cbn [G_range P_range]. rewrite IH, Nat.add_assoc.
  repeat match goal with |- context [xorb ?x ?y] => destruct (xorb x y) end;
  repeat match goal with |- context [?x && b ?y] => destruct (x && b y) end;
  destruct (G_range (lo + n) m), (P_range (lo + n) m), (G_range lo n); done.
Qed.

(** The number with the bits [f 0 .. f (n-1)]. *)
Fixpoint bits_Z (f : nat -> bool) (n : nat) : Z :=
  match n with O => 0 | S m => bits_Z f m + Z.b2z (f m) * 2 ^ Z.of_nat m end.

Lemma bits_Z_ext f g n : (forall i, (i < n)%nat -> f i = g i) -> bits_Z f n = bits_Z g n.
Proof.
  intros H. induction n as [|n IH]; [done|]. simpl. rewrite IH, H by auto with lia. done.
Qed.

Lemma bits_Z_bound f n : 0 <= bits_Z f n < 2 ^ Z.of_nat n.
Proof.
  induction n as [|n IH]; [done|]. cbn [bits_Z]. rewrite Nat2Z.inj_succ, Z.pow_succ_r by lia.
  destruct (f n); simpl; lia.
Qed.

(** The carry of the low [n] bits is [G_range 0 n]. *)
Lemma carry_sum n :
  bits_Z a n + bits_Z b n =
  bits_Z (fun i => xorb (xorb (a i) (b i)) (G_range 0 i)) n + Z.b2z (G_range 0 n) * 2 ^ Z.of_nat n.
Proof.
  induction n as [|n IH]; [done|]. cbn [bits_Z G_range]. rewrite Nat2Z.inj_succ, Z.pow_succ_r by lia.
  rewrite Nat.add_0_l. destruct (a n), (b n), (G_range 0 n); simpl in *; lia.
Qed.
End Carry.

Lemma bits_Z_testbit z n : bits_Z (fun i => Z.testbit z (Z.of_nat i)) n = z mod 2 ^ Z.of_nat n.
Proof.
  induction n as [|n IH]; [by rewrite Z.mod_1_r|]. cbn [bits_Z]. rewrite IH, Z.testbit_spec' by lia.
  rewrite Nat2Z.inj_succ, Z.pow_succ_r, (Z.mul_comm 2), Z.rem_mul_r by lia. lia.
Qed.

(** ** The adder computes addition *)

Section Adder.
Context (pis : list bool) (w : nat).
Abbreviation av := (fun i => vbit pis i).
Abbreviation bv := (fun i => vbit pis (w + i)).

(** After the levels of distance less than [d], bit [i] holds the propagate and
    generate of the [min d (i+1)] bits ending at [i]. *)
Definition pg_ok (d i : nat) (pg : Z * Z) (gs : list Gate) : Prop :=
  let lo := (S i - d)%nat in
  drives pis gs pg.1 (P_range av bv lo (S i - lo)) /\
  drives pis gs pg.2 (G_range av bv lo (S i - lo)).

Lemma pg_ok_stable d i : stable (pg_ok d i).
Proof. intros pg gs l [H1 H2]. split; auto with chaos. Qed.

Lemma preprocess_ok gs i : builds gs (preprocess w i) (pg_ok 1 i).
Proof.
  gate pis. intros p l1 Hp.
  gate pis. intros g l2 Hg.
  apply builds_ret. unfold pg_ok. replace (S i - (S i - 1))%nat with 1%nat by lia.
  replace (S i - 1)%nat with i by lia. simpl. rewrite Nat.add_0_r. split.
  - apply (drives_app _ _ l2) in Hp. revert Hp. simpl. by destruct (vbit pis i), (vbit pis (w + i)).
  - revert Hg. simpl. by rewrite andb_false_r, orb_false_r.
Qed.

Lemma prefix_cell_ok gs pg d i :
  (0 < d)%nat -> (i < w)%nat -> (forall j, (j < w)%nat -> pg_ok d j (pg !!! j) gs) ->
  builds gs (prefix_cell pg d i) (pg_ok (2 * d) i).
Proof.
  intros Hd Hi Hpg. unfold prefix_cell. destruct (Hpg i Hi) as [Hp Hg].
  destruct (decide (d <= i)%nat) as [Hdi|Hdi].
  - destruct (Hpg (i - d)%nat ltac:(lia)) as [Hp2 Hg2].
    gate pis. intros pand l1 H1.
    gate pis. intros gor l2 H2.
    gate pis.
    intros pandp l3 H3. apply builds_ret. unfold pg_ok.
    set (lo := (S i - 2 * d)%nat) in *.
    assert (E1 : (S (i - d) - d)%nat = lo) by lia.
    rewrite E1 in *.
    assert (E2 : (S i - lo)%nat = ((S (i - d) - lo) + (S i - (S i - d)))%nat) by lia.
    rewrite E2, P_range_add, G_range_add. replace (lo + (S (i - d) - lo))%nat with (S i - d)%nat by lia.
    split; [exact H3|]. apply drives_app. exact H2.
  - apply builds_ret. unfold pg_ok.
    replace (S i - 2 * d)%nat with (S i - d)%nat by lia. split; [exact Hp|exact Hg].
Qed.

Lemma prefix_levels_ok fuel d gs pg :
  (0 < d)%nat -> (w <= d + fuel)%nat -> length pg = w ->
  (forall j, (j < w)%nat -> pg_ok d j (pg !!! j) gs) ->
  builds gs (prefix_levels fuel w d pg)
    (fun out gs' => forall j, (j < w)%nat -> drives pis gs' (out !!! j).2 (G_range av bv 0 (S j))).
Proof.
  assert (Hfin : forall d (pg : list (Z * Z)) gs, (w <= d)%nat -> (forall j, (j < w)%nat -> pg_ok d j (pg !!! j) gs) ->
    forall j, (j < w)%nat -> drives pis gs (pg !!! j).2 (G_range av bv 0 (S j))).
  { intros d' pg' gs' Hw Hpg j Hj. destruct (Hpg j Hj) as [_ Hg].
    replace (S j - d')%nat with 0%nat in Hg by lia. exact Hg. }
  revert d gs pg. induction fuel as [|fuel IH]; intros d gs pg Hd Hf Hl Hpg; cbn [prefix_levels].
  - apply builds_ret. eapply Hfin; [|exact Hpg]. lia.
  - destruct (decide (d < w)%nat); [|apply builds_ret; eapply Hfin; [|exact Hpg]; lia].
    eapply builds_bind.
    { apply (builds_map gs _ _ (pg_ok (2 * d))); [apply pg_ok_stable|].
      intros i l' Hi. apply elem_of_seq in Hi. apply prefix_cell_ok; [done|lia|].
      intros j Hj. apply pg_ok_stable, Hpg, Hj. }
    intros pg1 l1 Hpg1. apply IH; [lia|lia| |].
    + by rewrite <- (Forall2_length _ _ _ Hpg1), length_seq.
    + intros j Hj. exact (Forall2_seq_lookup _ _ _ _ Hpg1 Hj).
Qed.

(** Bit [i] of the fault-free sum output. *)
Definition sum_bit (i : nat) : bool := xorb (xorb (av i) (bv i)) (G_range av bv 0 i).

Lemma adder_ok : (0 < w)%nat ->
  builds [] (adder w) (fun po gs' =>
    Forall2 (drives pis gs') po (map sum_bit (seq 0 w) ++ [G_range av bv 0 w])).
Proof.
  intros Hw. eapply builds_bind.
  { apply (builds_map [] _ _ (pg_ok 1)); [apply pg_ok_stable|]. intros; apply preprocess_ok. }
  intros p0 l0 Hp0. eapply builds_bind.
  { apply prefix_levels_ok; [lia|lia| |].
    - by rewrite <- (Forall2_length _ _ _ Hp0), length_seq.
    - intros j Hj. exact (Forall2_seq_lookup _ _ _ _ Hp0 Hj). }
  intros pg l1 Hpg. eapply builds_bind.
  { apply (builds_map _ _ _ (fun i r gs' => drives pis gs' r (sum_bit i))).
    { intros i r gs l. apply drives_app. }
    intros i l2 Hi. apply elem_of_seq in Hi.
    destruct (Forall2_seq_lookup _ _ _ i Hp0 ltac:(lia)) as [Hp _].
    replace (S i - (S i - 1))%nat with 1%nat in Hp by lia. replace (S i - 1)%nat with i in Hp by lia.
    apply (drives_app _ _ l1), (drives_app _ _ l2) in Hp. destruct i as [|i]; unfold sum_bit; cbn [sum_cell].
    - apply builds_ret. revert Hp. simpl. by rewrite andb_true_r, xorb_false_r.
    - specialize (Hpg i ltac:(lia)). apply (drives_app _ _ l2) in Hpg.
      replace (xorb _ _) with (gate_op XOR (P_range av bv (S i) 1) (G_range av bv 0 (S i))).
      + apply builds_gate; auto with chaos.
      + cbn [P_range gate_op]. rewrite Nat.add_0_r, andb_true_r. by destruct (xorb _ _), (G_range _ _ _ _). }
  intros sums l2 Hs. apply builds_ret. apply Forall2_app.
  - apply Forall2_fmap_r, Forall2_flip. exact Hs.
  - constructor; [|done]. apply drives_app. specialize (Hpg (w - 1)%nat ltac:(lia)).
    by replace (S (w - 1)) with w in Hpg by lia.
Qed.
End Adder.

(** ** The multiplier computes multiplication *)

Section Multiplier.
Context (pis : list bool) (w : nat).
Abbreviation av := (fun i => vbit pis i).
Abbreviation bv := (fun i => vbit pis (w + i)).

Definition sum_of (x y : nat -> bool) (k : nat) : bool := xorb (xorb (x k) (y k)) (G_range x y 0 k).

Lemma full_adder_ok gs x y c vx vy vc :
  carries pis gs x vx -> carries pis gs y vy -> carries pis gs c vc ->
  builds gs (full_adder x y c) (fun sc gs' =>
    drives pis gs' sc.1 (xorb (xorb vx vy) vc) /\
    drives pis gs' sc.2 ((vx && vy) || (xorb vx vy && vc))).
Proof.
  intros Hx Hy Hc. unfold full_adder.
  eapply builds_bind; [exact (builds_gate _ _ XOR _ _ _ _ Hx Hy)|]. cbv beta. intros xyc l1 H1.
  eapply builds_bind; [eapply (builds_gate pis _ AND); apply carries_app; [exact Hx|exact Hy]|].
  cbv beta. intros xy l2 H2.
  eapply builds_bind; [eapply (builds_gate pis _ XOR); [wire|do 2 apply carries_app; exact Hc]|].
  cbv beta. intros s l3 H3.
  eapply builds_bind; [eapply (builds_gate pis _ AND); [wire|do 3 apply carries_app; exact Hc]|].
  cbv beta. intros xc l4 H4. gate pis. intros c' l5 H5. apply builds_ret.
  apply (drives_app _ _ l4), (drives_app _ _ l5) in H3.
  revert H3 H5. simpl. by destruct vx, vy, vc.
Qed.

Lemma ripple_ok n s gs acc y carry x yv :
  (forall k, (k < s + n)%nat -> carries pis gs (acc !!! k) (x k)) ->
  (forall k, (k < s + n)%nat -> carries pis gs (y k) (yv k)) ->
  carries pis gs carry (G_range x yv 0 s) ->
  builds gs (ripple (seq s n) acc y carry)
    (fun out gs' => Forall2 (fun k r => drives pis gs' r (sum_of x yv k)) (seq s n) out).
Proof.
  revert s gs carry. induction n as [|n IH]; intros s gs carry Hx Hy Hc; cbn [seq ripple].
  - apply builds_ret. constructor.
  - eapply builds_bind.
    { apply full_adder_ok; [apply Hx; lia|apply Hy; lia|exact Hc]. }
    cbv beta. intros sc l1 [Hs Hc']. eapply builds_bind.
    { apply (IH (S s)).
      - intros k Hk. apply carries_app, Hx. lia.
      - intros k Hk. apply carries_app, Hy. lia.
      - apply drives_carries. exact Hc'. }
    cbv beta. intros out l2 Hout. apply builds_ret. constructor; [|exact Hout].
    apply drives_app. exact Hs.
Qed.

(** The bits row [i] of the partial products contributes. *)
Definition row_val (i k : nat) : bool :=
  if decide (i <= k /\ k - i < w)%nat then av (k - i)%nat && bv i else false.

Lemma bits_Z_row i n :
  (i + w <= n)%nat -> bits_Z (row_val i) n = bits_Z av w * Z.b2z (bv i) * 2 ^ Z.of_nat i.
Proof.
  assert (Hlow : forall m, (m <= i)%nat -> bits_Z (row_val i) m = 0).
  { induction m as [|m IH]; intros Hm; [done|]. simpl. rewrite IH by lia.
    unfold row_val. rewrite decide_False by lia. done. }
  assert (Hmid : forall m, (m <= w)%nat ->
    bits_Z (row_val i) (i + m) = bits_Z av m * Z.b2z (bv i) * 2 ^ Z.of_nat i).
  { induction m as [|m IH]; intros Hm; [by rewrite Nat.add_0_r, Hlow|].
    rewrite Nat.add_succ_r. cbn [bits_Z]. rewrite IH by lia. unfold row_val.
    rewrite decide_True by lia. replace (i + m - i)%nat with m by lia.
    rewrite Nat2Z.inj_add, Z.pow_add_r by lia. destruct (vbit pis m), (vbit pis (w + i)); simpl; lia. }
  intros Hn. replace n with (i + w + (n - (i + w)))%nat by lia. generalize (n - (i + w))%nat as e.
  induction e as [|e IH]; [rewrite Nat.add_0_r; by apply Hmid|].
  rewrite Nat.add_succ_r. cbn [bits_Z]. rewrite IH. unfold row_val at 1.
  rewrite decide_False by lia. simpl. lia.
Qed.

(** Adding a row: the accumulated value grows by the row, and nothing is lost. *)
Lemma row_step f i :
  (i < w)%nat -> bits_Z f (2 * w) = bits_Z av w * bits_Z bv i ->
  bits_Z (sum_of f (row_val i)) (2 * w) = bits_Z av w * bits_Z bv (S i).
Proof.
  intros Hi Hf. pose proof (carry_sum f (row_val i) (2 * w)) as Hc.
  rewrite Hf, bits_Z_row in Hc by lia. fold (sum_of f (row_val i)) in Hc.
  change (fun i0 => xorb (xorb (f i0) (row_val i i0)) (G_range f (row_val i) 0 i0))
    with (sum_of f (row_val i)) in Hc.
  enough (G_range f (row_val i) 0 (2 * w) = false) as Hg.
  { rewrite Hg in Hc. change (Z.b2z false) with 0 in Hc. rewrite Z.mul_0_l, Z.add_0_r in Hc.
    rewrite <- Hc. cbn [bits_Z]. ring. }
  destruct (G_range f (row_val i) 0 (2 * w)); [|done]. exfalso.
  pose proof (bits_Z_bound av w). pose proof (bits_Z_bound bv (S i)) as Hb. cbn [bits_Z] in Hb.
  pose proof (bits_Z_bound (sum_of f (row_val i)) (2 * w)).
  pose proof (Z.pow_le_mono_r 2 (Z.of_nat (S i)) (Z.of_nat w) ltac:(lia) ltac:(lia)).
  assert (2 ^ Z.of_nat (2 * w) = 2 ^ Z.of_nat w * 2 ^ Z.of_nat w) as E.
  { rewrite <- Z.pow_add_r by lia. f_equal. lia. }
  rewrite E in *. simpl Z.b2z in Hc at 2. nia.
Qed.

Lemma rows_ok n i gs pp const0 acc f :
  (i + n = w)%nat -> length acc = (2 * w)%nat ->
  (forall r c, (r < w)%nat -> (c < w)%nat -> carries pis gs ((pp !!! r) !!! c) (av c && bv r)) ->
  carries pis gs const0 false ->
  (forall k, (k < 2 * w)%nat -> drives pis gs (acc !!! k) (f k)) ->
  bits_Z f (2 * w) = bits_Z av w * bits_Z bv i ->
  builds gs (rows w (seq i n) pp const0 acc) (fun out gs' => exists f',
    Forall2 (fun k r => drives pis gs' r (f' k)) (seq 0 (2 * w)) out /\
    bits_Z f' (2 * w) = bits_Z av w * bits_Z bv w).
Proof.
  revert i gs acc f. induction n as [|n IH]; intros i gs acc f Hw Hl Hpp H0 Hacc Hval; cbn [seq rows].
  - apply builds_ret. exists f. replace w with i at 4 by lia. split; [|done].
    apply Forall2_same_length_lookup. split; [by rewrite length_seq|].
    intros k x r Hx Hr. apply lookup_seq in Hx as [-> Hk].
    rewrite <- (list_lookup_total_correct _ _ _ Hr). by apply Hacc.
  - eapply builds_bind.
    { apply (ripple_ok (2 * w) 0 gs acc _ const0 f (row_val i)); [| |exact H0].
      - intros k Hk. apply drives_carries, Hacc. lia.
      - intros k Hk. unfold row_bit, row_val. destruct (decide _) as [[? ?]|]; [|exact H0].
        apply Hpp; lia. }
    cbv beta. intros sum l Hs.
    apply (IH (S i) _ sum (sum_of f (row_val i))); [lia| | | | |].
    + by rewrite <- (Forall2_length _ _ _ Hs), length_seq.
    + intros r c Hr Hc. by apply carries_app, Hpp.
    + by apply carries_app.
    + intros k Hk. exact (Forall2_seq_lookup _ _ _ _ Hs Hk).
    + apply row_step; [lia|done].
Qed.

Lemma multiplier_ok : (0 < w)%nat ->
  builds [] (multiplier w) (fun po gs' => exists f,
    Forall2 (fun k r => drives pis gs' r (f k)) (seq 0 (2 * w)) po /\
    bits_Z f (2 * w) = bits_Z av w * bits_Z bv w).
Proof.
  intros Hw. eapply builds_bind.
  { apply (builds_map [] _ _ (fun i row gs' => Forall2 (fun j r => drives pis gs' r (av j && bv i)) (seq 0 w) row)).
    - intros i row gs l HF. eapply Forall2_impl; [exact HF|]. intros. by apply drives_app.
    - intros i l' _. apply (builds_map _ _ _ (fun j r gs' => drives pis gs' r (av j && bv i))).
      + intros j r gs l. apply drives_app.
      + intros j l2 _. apply (builds_gate pis _ AND); apply carries_PI. }
  cbv beta. intros pp l1 Hpp.
  gate pis. intros na l2 Hna. gate pis. intros c0 l3 Hc0.
  assert (Hz : carries pis ((([] ++ l1) ++ l2) ++ l3) c0 false).
  { apply drives_carries in Hc0. revert Hc0. simpl. by destruct (vbit pis 0). }
  assert (Hrow : forall r c, (r < w)%nat -> (c < w)%nat ->
    drives pis ((([] ++ l1) ++ l2) ++ l3) ((pp !!! r) !!! c) (av c && bv r)).
  { intros r c Hr Hc. do 2 apply drives_app.
    exact (Forall2_seq_lookup _ _ _ _ (Forall2_seq_lookup _ _ _ _ Hpp Hr) Hc). }
  assert (Hlen : length (pp !!! O) = w).
  { by rewrite <- (Forall2_length _ _ _ (Forall2_seq_lookup _ _ _ _ Hpp Hw)), length_seq. }
  eapply (rows_ok (w - 1) 1 _ _ _ _ (row_val 0)).
  - lia.
  - rewrite length_app, length_replicate. lia.
  - intros r c Hr Hc. by apply drives_carries, Hrow.
  - exact Hz.
  - intros k Hk. unfold row_val. destruct (decide (0 <= k /\ k - 0 < w)%nat) as [[? ?]|Hge].
    + rewrite lookup_total_app_l by lia. replace (k - 0)%nat with k by lia. apply Hrow; lia.
    + rewrite lookup_total_app_r, lookup_total_replicate_2 by lia. split; [|exact Hz].
      apply Hc0.
  - rewrite bits_Z_row by lia. cbn [bits_Z]. rewrite Z.pow_0_r. ring.
Qed.
End Multiplier.

(** ** Outputs as numbers *)

(** The number on the primary outputs. *)
Definition po_value (po : list bool) : Z := bits_Z (vbit po) (length po).

(** The primary inputs for two [w]-bit operands. *)
Definition operand_pis (w : nat) (a b : Z) : list bool :=
  map (fun i => Z.testbit a (Z.of_nat i)) (seq 0 w) ++ map (fun i => Z.testbit b (Z.of_nat i)) (seq 0 w).

Lemma vbit_map_seq (f : nat -> bool) n i : (i < n)%nat -> vbit (map f (seq 0 n)) i = f i.
Proof.
  intros Hi. unfold vbit. change (map f (seq 0 n)) with (f <$> seq 0 n).
  rewrite list_lookup_fmap, lookup_seq_lt by done. done.
Qed.

Lemma vbit_app_r l k i : vbit (l ++ k) (length l + i) = vbit k i.
Proof. unfold vbit. rewrite lookup_app_r by lia. f_equal. f_equal. lia. Qed.

Lemma vbit_app_l l k i : (i < length l)%nat -> vbit (l ++ k) i = vbit l i.
Proof. intros. unfold vbit. by rewrite lookup_app_l. Qed.

Lemma operand_pis_a w a b :
  uint (Z.of_nat w) a -> bits_Z (fun i => vbit (operand_pis w a b) i) w = a.
Proof.
  intros Ha. rewrite (bits_Z_ext _ (fun i => Z.testbit a (Z.of_nat i))).
  - rewrite bits_Z_testbit. apply Z.mod_small, Ha.
  - intros i Hi. unfold operand_pis. rewrite vbit_app_l by (rewrite length_map, length_seq; lia).
    by rewrite vbit_map_seq.
Qed.

Lemma operand_pis_b w a b :
  uint (Z.of_nat w) b -> bits_Z (fun i => vbit (operand_pis w a b) (w + i)) w = b.
Proof.
  intros Hb. rewrite (bits_Z_ext _ (fun i => Z.testbit b (Z.of_nat i))).
  - rewrite bits_Z_testbit. apply Z.mod_small, Hb.
  - intros i Hi. unfold operand_pis.
    pose proof (vbit_app_r (map (fun i => Z.testbit a (Z.of_nat i)) (seq 0 w))
                  (map (fun i => Z.testbit b (Z.of_nat i)) (seq 0 w)) i) as E.
    rewrite length_map, length_seq in E. rewrite E. by rewrite vbit_map_seq.
Qed.

Lemma evalNet_drives net pis vs :
  Forall2 (drives pis (gates net)) (po_gates net) vs -> evalNet net pis (-1) 0 = vs.
Proof.
  unfold evalNet. induction 1 as [|po v pos vs [Hpo [Hlt Hv]] _ IH]; [done|]. simpl. f_equal; [|exact IH].
  destruct (Z.leb_spec 0 po); [|lia]. rewrite <- Hv. unfold sem, read_net.
  destruct (Z.ltb_spec po 0); [lia|done].
Qed.

Lemma po_value_map f n : po_value (map f (seq 0 n)) = bits_Z f n.
Proof.
  unfold po_value. rewrite length_map, length_seq. apply bits_Z_ext.
  intros i Hi. by apply vbit_map_seq.
Qed.

Lemma po_value_snoc l v : po_value (l ++ [v]) = po_value l + Z.b2z v * 2 ^ Z.of_nat (length l).
Proof.
  unfold po_value. rewrite length_app, Nat.add_1_r. cbn [bits_Z].
  rewrite <- (Nat.add_0_r (length l)) at 2. rewrite vbit_app_r. f_equal.
  apply bits_Z_ext. intros i Hi. by apply vbit_app_l.
Qed.

Lemma bits_Z_mod f n m : bits_Z f n mod 2 ^ Z.of_nat m = bits_Z f (Nat.min n m).
Proof.
  destruct (Nat.le_ge_cases n m) as [Hle|Hge].
  - rewrite Nat.min_l by done. apply Z.mod_small. pose proof (bits_Z_bound f n).
    pose proof (Z.pow_le_mono_r 2 (Z.of_nat n) (Z.of_nat m)). lia.
  - rewrite Nat.min_r by done. replace n with (m + (n - m))%nat by lia.
    generalize (n - m)%nat as e. induction e as [|e IH].
    + rewrite Nat.add_0_r. apply Z.mod_small, bits_Z_bound.
    + rewrite Nat.add_succ_r. cbn [bits_Z]. rewrite Nat2Z.inj_add, Z.pow_add_r by lia.
      rewrite (Z.mul_comm (2 ^ Z.of_nat m)), Z.mul_assoc, Z_mod_plus_full. exact IH.
Qed.

(** [evaluate] packs the low 64 outputs. *)
Lemma pack_po_value po : pack_po po = po_value po mod 2 ^ 64.
Proof.
  assert (H : forall n, fold_left (fun r i => if vbit po i then Z.lor r (Z.shiftl 1 (Z.of_nat i)) else r)
                        (seq 0 n) 0 = bits_Z (vbit po) n).
  { induction n as [|n IH]; [done|]. rewrite seq_S, fold_left_app, IH. simpl.
    destruct (vbit po n); simpl Z.b2z; [|lia]. pose proof (bits_Z_bound (vbit po) n).
    rewrite lor_shiftl_add by (unfold uint; lia). lia. }
  unfold pack_po, po_value. rewrite H. change (2 ^ 64) with (2 ^ Z.of_nat 64). by rewrite bits_Z_mod.
Qed.

Lemma adder_value w a b :
  (0 < w)%nat -> uint (Z.of_nat w) a -> uint (Z.of_nat w) b ->
  let po := evalNet (synthesizeAdder w) (operand_pis w a b) (-1) 0 in
  length po = S w /\ po_value po = a + b.
Proof.
  intros Hw Ha Hb. destruct (adder_ok (operand_pis w a b) w Hw) as (_ & _ & Hpo).
  cbv zeta. rewrite (evalNet_drives (synthesizeAdder w) _ _ Hpo).
  rewrite length_app, length_map, length_seq, Nat.add_1_r. split; [done|].
  rewrite po_value_snoc, po_value_map, length_map, length_seq.
  unfold sum_bit. rewrite <- carry_sum. by rewrite operand_pis_a, operand_pis_b.
Qed.

Lemma multiplier_value w a b :
  (0 < w)%nat -> uint (Z.of_nat w) a -> uint (Z.of_nat w) b ->
  let po := evalNet (synthesizeMultiplier w) (operand_pis w a b) (-1) 0 in
  length po = (2 * w)%nat /\ po_value po = a * b.
Proof.
  intros Hw Ha Hb. destruct (multiplier_ok (operand_pis w a b) w Hw) as (_ & _ & f & Hpo & Hf).
  assert (Hd : Forall2 (drives (operand_pis w a b) (gates (synthesizeMultiplier w)))
                 (po_gates (synthesizeMultiplier w)) (map f (seq 0 (2 * w)))).
  { apply Forall2_fmap_r, Forall2_flip. exact Hpo. }
  cbv zeta. rewrite (evalNet_drives _ _ _ Hd), length_map, length_seq, po_value_map, Hf.
  by rewrite operand_pis_a, operand_pis_b.
Qed.

Lemma topo_nil : topo [].
Proof. intros gi g. rewrite lookup_nil. done. Qed.

Lemma adder_topo w : (0 < w)%nat -> topo (gates (synthesizeAdder w)).
Proof. intros Hw. destruct (adder_ok [] w Hw) as (_ & Ht & _). exact (Ht topo_nil). Qed.

Lemma multiplier_topo w : (0 < w)%nat -> topo (gates (synthesizeMultiplier w)).
Proof. intros Hw. destruct (multiplier_ok [] w Hw) as (_ & Ht & _). exact (Ht topo_nil). Qed.

(** A fan-in of an ordered netlist reads the same in the prefix that precedes the
    gate and in the whole vector of values. *)
Lemma read_net_prefix pis l k r :
  l `prefix_of` k -> r < Z.of_nat (length l) -> read_net pis l r = read_net pis k r.
Proof.
  intros Hp Hr. unfold read_net. destruct (Z.ltb_spec r 0); [done|].
  symmetry. apply vbit_prefix; [done|lia].
Qed.

Lemma eval_gates_stuck pis sg sv gs gi g :
  topo gs -> gs !! gi = Some g ->
  let val := eval_gates pis sg sv gs in
  val !! gi = Some (if Z.of_nat gi =? sg then negb (sv =? 0)
                    else gate_op (g_type g) (read_net pis val (in0 g)) (read_net pis val (in1 g))).
Proof.
  intros Ht Hg val. destruct (Ht _ _ Hg) as [H0 H1].
  pose proof (take_drop_middle gs gi g Hg) as Hsplit.
  assert (Hlen : length (take gi gs) = gi).
  { apply length_take_le. apply lookup_lt_Some in Hg. lia. }
  set (l := eval_gates pis sg sv (take gi gs)).
  assert (Hl : length l = gi) by (unfold l; by rewrite length_eval_gates).
  assert (Hp1 : eval_gate pis sg sv l g `prefix_of` val).
  { assert (Hv : val = eval_gates pis sg sv ((take gi gs ++ [g]) ++ drop (S gi) gs)).
    { unfold val. rewrite <- app_assoc. simpl. by rewrite Hsplit. }
    rewrite Hv. unfold l. rewrite <- eval_gates_snoc. apply eval_gates_prefix. }
  assert (Hp0 : l `prefix_of` val) by (etrans; [by apply prefix_app_r|exact Hp1]).
  rewrite <- (read_net_prefix pis l val (in0 g)), <- (read_net_prefix pis l val (in1 g)) by (done || lia).
  eapply prefix_lookup_Some; [|exact Hp1]. unfold eval_gate.
  rewrite lookup_app_r, Hl, Nat.sub_diag by lia. done.
Qed.

(** C3 The synthesised Kogge-Stone netlist is an adder: at every width, evaluated
    without a fault on two [w]-bit operands, its [w + 1] outputs are the sum with its
    carry, and each gate is fed by primary inputs and earlier gates only. *)
Theorem adder_correct w a b :
  (0 < w)%nat -> uint (Z.of_nat w) a -> uint (Z.of_nat w) b ->
  let po := evalNet (synthesizeAdder w) (operand_pis w a b) (-1) 0 in
  length po = S w /\ po_value po = a + b /\ topo (gates (synthesizeAdder w)).
Proof.
  intros Hw Ha Hb. destruct (adder_value w a b Hw Ha Hb). split_and!; auto using adder_topo.
Qed.

Lemma adder_correct_witness :
  let po := evalNet (synthesizeAdder 5) (operand_pis 5 29 21) (-1) 0 in
  length po = 6%nat /\ po_value po = 29 + 21 /\ topo (gates (synthesizeAdder 5)).
Proof. apply (adder_correct 5 29 21); [lia|split; lia|split; lia]. Defined.

(** C4 The synthesised shift-add netlist is a multiplier: at every width its [2 w]
    outputs are the full product of the two [w]-bit operands, and each gate is fed by
    primary inputs and earlier gates only. *)
Theorem multiplier_correct w a b :
  (0 < w)%nat -> uint (Z.of_nat w) a -> uint (Z.of_nat w) b ->
  let po := evalNet (synthesizeMultiplier w) (operand_pis w a b) (-1) 0 in
  length po = (2 * w)%nat /\ po_value po = a * b /\ topo (gates (synthesizeMultiplier w)).
Proof.
  intros Hw Ha Hb. destruct (multiplier_value w a b Hw Ha Hb). split_and!; auto using multiplier_topo.
Qed.

Lemma multiplier_correct_witness :
  let po := evalNet (synthesizeMultiplier 4) (operand_pis 4 13 11) (-1) 0 in
  length po = 8%nat /\ po_value po = 13 * 11 /\ topo (gates (synthesizeMultiplier 4)).
Proof. apply (multiplier_correct 4 13 11); [lia|split; lia|split; lia]. Defined.

(** [evalNet] is a structural stuck-at: on both synthesised netlists the values
    it computes are the solution of the gate equations in which the stuck gate's
    output is the stuck value, every fan-out reading the forced value, and every other
    gate computes its function of its fan-ins. *)
Theorem stuck_at_structural net pis sg sv gi g :
  (exists w, (0 < w)%nat /\ (net = synthesizeAdder w \/ net = synthesizeMultiplier w)) ->
  gates net !! gi = Some g ->
  let val := eval_gates pis sg sv (gates net) in
  val !! gi = Some (if Z.of_nat gi =? sg then negb (sv =? 0)
                    else gate_op (g_type g) (read_net pis val (in0 g)) (read_net pis val (in1 g))).
Proof.
  intros [w [Hw [-> | ->]]]; apply eval_gates_stuck; auto using adder_topo, multiplier_topo.
Qed.

Lemma stuck_at_structural_witness :
  eval_gates (operand_pis 2 3 1) 0 0 (gates (synthesizeAdder 2)) !! O = Some (negb (0 =? 0)).
Proof.
  apply (stuck_at_structural (synthesizeAdder 2) (operand_pis 2 3 1) 0 0 O (mkGate XOR (-1) (-3))).
  - exists 2%nat. split; [lia|by left].
  - reflexivity.
Defined.

(** ** The oracle *)

Lemma load_pis_64 a b : load_pis 128 a b = operand_pis 64 a b.
Proof. reflexivity. Qed.

(** The netlist and the operation of an injector built for 64 bits. *)
Inductive fu_op := FU_add | FU_mul.

Definition fu_net (o : fu_op) : netlist :=
  match o with FU_add => synthesizeAdder 64 | FU_mul => synthesizeMultiplier 64 end.

Definition fu_result (o : fu_op) (a b : Z) : Z :=
  match o with FU_add => u64 (a + b) | FU_mul => u64 (a * b) end.

Lemma fu_clean o a b :
  uint 64 a -> uint 64 b ->
  pack_po (evalNet (fu_net o) (operand_pis 64 a b) (-1) 0) = fu_result o a b.
Proof.
  intros Ha Hb. rewrite pack_po_value. destruct o; simpl fu_net; unfold fu_result, u64.
  - destruct (adder_value 64 a b ltac:(lia) Ha Hb) as [_ ->]. done.
  - destruct (multiplier_value 64 a b ltac:(lia) Ha Hb) as [_ ->]. done.
Qed.

Lemma int_operands_two srcs a b : int_operands srcs = [a; b] -> ~ (length srcs < 2)%nat.
Proof.
  intros H Hl. apply (f_equal length) in H. unfold int_operands in H.
  rewrite length_take, length_map in H. change (length [a; b]) with 2%nat in H.
  set (f := filter _ srcs) in H. assert (length f <= length srcs)%nat by apply length_filter. lia.
Qed.

(** The writeback oracle: for an injector built on either 64-bit netlist and an
    instruction with two integer sources, [evaluate] fires exactly when a gate is
    configured, the op class matches, the start cycle has passed and the stuck net
    disagrees with the machine sum or product; what it returns is then nonzero and
    turns the correct result into the stuck one under XOR. *)
Theorem evaluate_signature p o now op_class srcs a b s :
  gf_net p = fu_net o -> uint 64 a -> uint 64 b -> int_operands srcs = [a; b] ->
  let stuck := pack_po (evalNet (fu_net o) (operand_pis 64 a b) (gf_stuck_gate p) (gf_stuck_val p)) in
  let out := (evaluate p now op_class srcs s).1 in
  out = (if (0 <=? gf_stuck_gate p) && (op_class =? gf_target_opclass p) && (gf_first_clock p <=? now)
            && negb (stuck =? fu_result o a b)
         then Some (Z.lxor (fu_result o a b) stuck) else None) /\
  (forall d, out = Some d -> d <> 0 /\ Z.lxor (fu_result o a b) d = stuck).
Proof.
  intros Hnet Ha Hb Hops stuck out.
  assert (Hout : out = (if (0 <=? gf_stuck_gate p) && (op_class =? gf_target_opclass p) && (gf_first_clock p <=? now)
            && negb (stuck =? fu_result o a b)
         then Some (Z.lxor (fu_result o a b) stuck) else None)).
  { unfold out, evaluate. rewrite !Z.leb_antisym.
    destruct (gf_stuck_gate p <? 0); [done|]. destruct (op_class =? gf_target_opclass p); [|done].
    destruct (now <? gf_first_clock p); [done|]. rewrite decide_False by (by eapply int_operands_two).
    rewrite Hops, Hnet. replace (pi_width (fu_net o)) with 128 by (by destruct o).
    rewrite load_pis_64, fu_clean by done. fold stuck. by destruct (stuck =? fu_result o a b). }
  split; [done|]. intros d Hd. rewrite Hout in Hd. case_match eqn:E; [|done].
  injection Hd as <-. bools. split.
  - rewrite Z.lxor_eq_0_iff. congruence.
  - by rewrite <- Z.lxor_assoc, Z.lxor_nilpotent, Z.lxor_0_l.
Qed.

Definition gatefu_example : gatefu_params := GateFUParams 1 0 0 10 false (synthesizeAdder 64).

Lemma evaluate_signature_witness :
  let stuck := pack_po (evalNet (synthesizeAdder 64) (operand_pis 64 5 2) 0 0) in
  let out := (evaluate gatefu_example 20 1 [(true, 5); (false, 9); (true, 2)]
               (Core (Engine Z.of_nat 0) 0 stats0 [], GateFUState 0 0)).1 in
  out = (if (0 <=? 0) && (1 =? 1) && (10 <=? 20) && negb (stuck =? u64 (5 + 2))
         then Some (Z.lxor (u64 (5 + 2)) stuck) else None) /\
  (forall d, out = Some d -> d <> 0 /\ Z.lxor (u64 (5 + 2)) d = stuck).
Proof.
  apply (evaluate_signature gatefu_example FU_add 20 1 [(true, 5); (false, 9); (true, 2)] 5 2).
  - reflexivity.
  - split; lia.
  - split; lia.
  - reflexivity.
Defined.
