(* ===== verification/EventQueue.v ===== *)
(** * The event queue and the clock of gem5

    The injectors run from events of gem5's [EventQueue] (sim/eventq.cc) at clock
    edges of the CPU (sim/clocked_object.hh).  [EventQueue] is modelled with its
    pointers: events linked by [nextBin] and [nextInBin], where only the top event of
    a bin has an up-to-date [nextBin].  The queue refines a sorted list in which an
    event goes before the events of its own time and priority.  [Clocked] is the
    cached (tick, cycle) pair of a clocked object.  [evt] is the view an injector has
    of one of its own events. *)

From stdpp Require Import base list numbers strings sets.
From Stdlib Require Import ZArith Lia.
From S2P Require Import Prelude.

(** ** Events and the queue *)

Record Event := mkEvent {
  ev_when : Z; ev_priority : Z;
  nextBin : option nat; nextInBin : option nat;
  ev_scheduled : bool; ev_squashed : bool
}.

Definition heap := nat -> Event.

Definition upd (h : heap) (p : nat) (e : Event) : heap :=
  fun q => if decide (q = p) then e else h q.

Definition set_nextBin (h : heap) (p : nat) (n : option nat) : heap :=
  let e := h p in
  upd h p (mkEvent (ev_when e) (ev_priority e) n (nextInBin e) (ev_scheduled e) (ev_squashed e)).

Definition set_nextInBin (h : heap) (p : nat) (n : option nat) : heap :=
  let e := h p in
  upd h p (mkEvent (ev_when e) (ev_priority e) (nextBin e) n (ev_scheduled e) (ev_squashed e)).

Definition set_when (h : heap) (p : nat) (w : Z) : heap :=
  let e := h p in
  upd h p (mkEvent w (ev_priority e) (nextBin e) (nextInBin e) (ev_scheduled e) (ev_squashed e)).

Definition set_flags (h : heap) (p : nat) (sched squash : bool) : heap :=
  let e := h p in
  upd h p (mkEvent (ev_when e) (ev_priority e) (nextBin e) (nextInBin e) sched squash).

(** [operator<], [operator<=] and [operator==] on events. *)
Definition ev_lt (l r : Event) : bool :=
  (ev_when l <? ev_when r) || ((ev_when l =? ev_when r) && (ev_priority l <? ev_priority r)).
Definition ev_le (l r : Event) : bool :=
  (ev_when l <? ev_when r) || ((ev_when l =? ev_when r) && (ev_priority l <=? ev_priority r)).
Definition ev_eq (l r : Event) : bool :=
  (ev_when l =? ev_when r) && (ev_priority l =? ev_priority r).

Record queue := Queue { q_head : option nat; q_heap : heap; q_curTick : Z }.

(** Results of operations that can [panic] or trip an [assert]; the walks carry a
    fuel, which the theorems show sufficient. *)
Inductive result (A : Type) := Done (a : A) | Panic | NoFuel.
Arguments Done {A}. Arguments Panic {A}. Arguments NoFuel {A}.

(** [Event::insertBefore]: the heap with [event] linked in front of [curr]. *)
Definition insertBefore (h : heap) (event : nat) (curr : option nat) : heap :=
  match curr with
  | None => set_nextInBin (set_nextBin h event None) event None
  | Some c =>
      if ev_lt (h event) (h c)
      then set_nextInBin (set_nextBin h event (Some c)) event None
      else set_nextInBin (set_nextBin h event (nextBin (h c))) event (Some c)
  end.

(** [while (curr && *curr < *event) { prev = curr; curr = curr->nextBin; }] *)
Fixpoint find_bin (fuel : nat) (h : heap) (event prev : nat) (curr : option nat)
    : option (nat * option nat) :=
  match curr with
  | None => Some (prev, None)
  | Some c =>
      if ev_lt (h c) (h event) then
        match fuel with
        | O => None
        | S f => find_bin f h event c (nextBin (h c))
        end
      else Some (prev, curr)
  end.

(** [EventQueue::insert] *)
Definition insert (fuel : nat) (q : queue) (event : nat) : result queue :=
  let h := q_heap q in
  match q_head q with
  | None => Done (Queue (Some event) (insertBefore h event None) (q_curTick q))
  | Some hd =>
      if ev_le (h event) (h hd)
      then Done (Queue (Some event) (insertBefore h event (Some hd)) (q_curTick q))
      else match find_bin fuel h event hd (nextBin (h hd)) with
      | None => NoFuel
      | Some (prev, curr) =>
          Done (Queue (Some hd) (set_nextBin (insertBefore h event curr) prev (Some event)) (q_curTick q))
      end
  end.

(** The inner walk of [Event::removeItem]: the event whose [nextInBin] is [event]. *)
Fixpoint find_in_bin (fuel : nat) (h : heap) (event curr : nat) (next : option nat) : result nat :=
  if decide (next = Some event) then Done curr
  else match next with
  | None => Panic
  | Some n => match fuel with O => NoFuel | S f => find_in_bin f h event n (nextInBin (h n)) end
  end.

(** [Event::removeItem]: the new top of the bin and the new heap. *)
Definition removeItem (fuel : nat) (h : heap) (event top : nat) : result (option nat * heap) :=
  if decide (event = top) then
    match nextInBin (h top) with
    | None => Done (nextBin (h top), h)
    | Some n => Done (Some n, set_nextBin h n (nextBin (h top)))
    end
  else match find_in_bin fuel h event top (nextInBin (h top)) with
  | Done curr => Done (Some top, set_nextInBin h curr (nextInBin (h event)))
  | Panic => Panic
  | NoFuel => NoFuel
  end.

(** [EventQueue::remove] *)
Definition remove (fuel : nat) (q : queue) (event : nat) : result queue :=
  let h := q_heap q in
  match q_head q with
  | None => Panic
  | Some hd =>
      if ev_eq (h hd) (h event) then
        match removeItem fuel h event hd with
        | Done (t, h') => Done (Queue t h' (q_curTick q))
        | Panic => Panic
        | NoFuel => NoFuel
        end
      else match find_bin fuel h event hd (nextBin (h hd)) with
      | None => NoFuel
      | Some (_, None) => Panic
      | Some (prev, Some c) =>
          if negb (ev_eq (h c) (h event)) then Panic
          else match removeItem fuel h event c with
          | Done (t, h') => Done (Queue (Some hd) (set_nextBin h' prev t) (q_curTick q))
          | Panic => Panic
          | NoFuel => NoFuel
          end
      end
  end.

(** [EventQueue::schedule], outside parallel mode. *)
Definition schedule (fuel : nat) (q : queue) (event : nat) (when : Z) : result queue :=
  if when <? q_curTick q then Panic
  else if ev_scheduled (q_heap q event) then Panic
  else match insert fuel (Queue (q_head q) (set_when (q_heap q) event when) (q_curTick q)) event with
  | Done q' => Done (Queue (q_head q')
                 (set_flags (q_heap q') event true (ev_squashed (q_heap q' event))) (q_curTick q'))
  | r => r
  end.

(** [EventQueue::deschedule] *)
Definition deschedule (fuel : nat) (q : queue) (event : nat) : result queue :=
  if negb (ev_scheduled (q_heap q event)) then Panic
  else match remove fuel q event with
  | Done q' => Done (Queue (q_head q') (set_flags (q_heap q') event false false) (q_curTick q'))
  | r => r
  end.

(** [Event::squash] *)
Definition squash (q : queue) (event : nat) : queue :=
  Queue (q_head q) (set_flags (q_heap q) event (ev_scheduled (q_heap q event)) true) (q_curTick q).

(** [EventQueue::serviceOne] up to the handler: the queue with the head unlinked, and
    the event whose [process] runs, if it is not squashed. *)
Definition serviceOne (q : queue) : option (nat * bool * queue) :=
  match q_head q with
  | None => None
  | Some e =>
      let h := set_flags (q_heap q) e false (ev_squashed (q_heap q e)) in
      let '(hd, h1) := match nextInBin (h e) with
                       | Some n => (Some n, set_nextBin h n (nextBin (h e)))
                       | None => (nextBin (h e), h)
                       end in
      if negb (ev_squashed (h1 e)) then Some (e, true, Queue hd h1 (ev_when (h1 e)))
      else Some (e, false, Queue hd (set_flags h1 e false false) (q_curTick q))
  end.

(** ** Clocked objects

    [Clocked] caches the next clock edge ([tick], [cycle]); [update] brings the pair up
    to date with the current tick. *)
Record Clocked := mkClocked { ck_tick : Z; ck_cycle : Z }.

Definition divCeil (a b : Z) : Z := (a + b - 1) / b.

Definition clock_update (period curTick : Z) (c : Clocked) : Clocked :=
  if curTick <=? ck_tick c then c
  else
    let c1 := mkClocked (ck_tick c + period) (ck_cycle c + 1) in
    if curTick <=? ck_tick c1 then c1
    else
      let elapsed := divCeil (curTick - ck_tick c1) period in
      mkClocked (ck_tick c1 + elapsed * period) (ck_cycle c1 + elapsed).

Definition clockEdge (period curTick cycles : Z) (c : Clocked) : Z * Clocked :=
  let c' := clock_update period curTick c in (ck_tick c' + period * cycles, c').

Definition curCycle (period curTick : Z) (c : Clocked) : Z * Clocked :=
  let c' := clock_update period curTick c in (ck_cycle c', c').

Definition resetClock (period curTick : Z) : Clocked :=
  let elapsed := divCeil curTick period in mkClocked (elapsed * period) elapsed.

(** ** An injector's view of its own event

    The two flags and the time; [when] is in cycles of the CPU clock, relative delays
    being added to the current cycle. *)
Record evt := Evt { scheduled : bool; squashed : bool; when : Z }.

Definition evt0 : evt := Evt false false 0.

(** [if (!e.scheduled()) schedule(e, clockEdge(delay));] *)
Definition schedule_at (now delay : Z) (e : evt) : evt :=
  if scheduled e then e else Evt true (squashed e) (now + delay).

(** [if (e.scheduled()) e.squash();] *)
Definition squash_evt (e : evt) : evt :=
  if scheduled e then Evt true true (when e) else e.

(** The queue reaches the event: whether its handler runs, and its flags then. *)
Definition service_evt (e : evt) : bool * evt :=
  (negb (squashed e), Evt false false (when e)).

(** ** The abstract queue

    A list of event ids sorted by (time, priority). *)
Definition key (h : heap) (e : nat) : Z * Z := (ev_when (h e), ev_priority (h e)).

Fixpoint flat_insert (k : nat -> Z * Z) (e : nat) (l : list nat) : list nat :=
  match l with
  | [] => [e]
  | x :: l' => if kltb (k x) (k e) then x :: flat_insert k e l' else e :: l
  end.

(** The bins of a queue, and the insertion and removal at their level. *)
Fixpoint bins_insert (k : nat -> Z * Z) (e : nat) (bs : list (list nat)) : list (list nat) :=
  match bs with
  | [] => [[e]]
  | [] :: bs' => bins_insert k e bs'
  | (t :: rest) :: bs' =>
      if kltb (k t) (k e) then (t :: rest) :: bins_insert k e bs'
      else if kltb (k e) (k t) then [e] :: (t :: rest) :: bs'
      else (e :: t :: rest) :: bs'
  end.

Fixpoint bins_remove (e : nat) (bs : list (list nat)) : list (list nat) :=
  match bs with
  | [] => []
  | b :: bs' =>
      if decide (e ∈ b) then
        match filter (fun x => x <> e) b with [] => bs' | b' => b' :: bs' end
      else b :: bins_remove e bs'
  end.

(** [chain h l]: the [nextInBin] links of [l], top first. *)
Fixpoint chain (h : heap) (l : list nat) : Prop :=
  match l with
  | [] => True
  | e :: l' => nextInBin (h e) = head l' /\ chain h l'
  end.

(** [bins_ok h bs p]: from the pointer [p], the heap holds the bins [bs]; only the
    [nextBin] of the top of a bin matters. *)
Fixpoint bins_ok (h : heap) (bs : list (list nat)) (p : option nat) : Prop :=
  match bs with
  | [] => p = None
  | b :: bs' =>
      match b with
      | [] => False
      | t :: _ => p = Some t /\ chain h b /\ bins_ok h bs' (nextBin (h t))
      end
  end.

Fixpoint bins_sorted (k : nat -> Z * Z) (bs : list (list nat)) : Prop :=
  match bs with
  | [] => True
  | b :: bs' =>
      (forall x y, x ∈ b -> y ∈ b -> k x = k y) /\
      (forall x y, x ∈ b -> y ∈ concat bs' -> kltb (k x) (k y) = true) /\
      bins_sorted k bs'
  end.

Record wf (q : queue) (bs : list (list nat)) : Prop := {
  wf_rep : bins_ok (q_heap q) bs (q_head q);
  wf_sorted : bins_sorted (key (q_heap q)) bs;
  wf_nodup : NoDup (concat bs);
  wf_scheduled : forall e, ev_scheduled (q_heap q e) = true <-> e ∈ concat bs;
  wf_future : forall e, e ∈ concat bs -> q_curTick q <= ev_when (q_heap q e)
}.

(** * Lemmas *)

Lemma ev_lt_key h x y : ev_lt (h x) (h y) = kltb (key h x) (key h y).
Proof.
  unfold ev_lt, key, kltb, pair_order, kltb, Z_order. simpl.
  destruct (Z.ltb_spec (ev_when (h x)) (ev_when (h y))); [done|]. simpl.
  destruct (Z.eqb_spec (ev_when (h x)) (ev_when (h y))) as [->|]; [by rewrite Z.ltb_irrefl|].
  destruct (Z.ltb_spec (ev_when (h y)) (ev_when (h x))); [done|lia].
Qed.

Lemma ev_le_key h x y : ev_le (h x) (h y) = negb (kltb (key h y) (key h x)).
Proof.
  unfold ev_le, key, kltb, pair_order, kltb, Z_order. simpl.
  destruct (Z.ltb_spec (ev_when (h x)) (ev_when (h y))), (Z.eqb_spec (ev_when (h x)) (ev_when (h y))),
    (Z.ltb_spec (ev_when (h y)) (ev_when (h x))), (Z.leb_spec (ev_priority (h x)) (ev_priority (h y))),
    (Z.ltb_spec (ev_priority (h y)) (ev_priority (h x))); simpl; lia || done.
Qed.

Lemma ev_eq_key h x y : ev_eq (h x) (h y) = true <-> key h x = key h y.
Proof.
  unfold ev_eq, key. rewrite andb_true_iff, !Z.eqb_eq. split; [by intros [-> ->]|by intros [=]].
Qed.

(** Not less in both directions is equality of keys. *)
Lemma key_antisym (a b : Z * Z) : kltb a b = false -> kltb b a = false -> a = b.
Proof. apply kltb_total. Qed.

Lemma upd_eq h p e : upd h p e p = e.
Proof. unfold upd. by rewrite decide_True. Qed.

Lemma upd_ne h p e q : q <> p -> upd h p e q = h q.
Proof. intros. unfold upd. by rewrite decide_False. Qed.

Lemma chain_ext h h' l :
  (forall e, e ∈ l -> nextInBin (h' e) = nextInBin (h e)) -> chain h l -> chain h' l.
Proof.
  induction l as [|e l IH]; simpl; [done|]. intros Hx [He Hl]. split.
  - rewrite Hx by left. done.
  - apply IH; [|done]. intros. apply Hx. by right.
Qed.

Lemma bins_ok_ext h h' bs p :
  (forall e, e ∈ concat bs -> nextInBin (h' e) = nextInBin (h e) /\ nextBin (h' e) = nextBin (h e)) ->
  bins_ok h bs p -> bins_ok h' bs p.
Proof.
  revert p. induction bs as [|[|t r] bs IH]; simpl; [done|done|]. intros p Hx (-> & Hc & Hb).
  split; [done|]. split.
  - apply (chain_ext h h' (t :: r)); [|done]. intros e He. apply Hx.
    change (e ∈ (t :: r) ++ concat bs). apply elem_of_app. by left.
  - rewrite (proj2 (Hx t ltac:(left))). apply IH; [|done]. intros e He. apply Hx.
    change (e ∈ (t :: r) ++ concat bs). apply elem_of_app. by right.
Qed.

(** The links of two heaps agree on an event. *)
Definition same_links (h h' : heap) (x : nat) : Prop :=
  nextInBin (h' x) = nextInBin (h x) /\ nextBin (h' x) = nextBin (h x).

(** The link updates touch neither keys nor flags. *)
Definition same_data (h h' : heap) : Prop := forall x,
  ev_when (h' x) = ev_when (h x) /\ ev_priority (h' x) = ev_priority (h x) /\
  ev_scheduled (h' x) = ev_scheduled (h x) /\ ev_squashed (h' x) = ev_squashed (h x).

Ltac heap_cases :=
  unfold same_data, same_links, set_nextBin, set_nextInBin, set_when, set_flags, upd in *;
  repeat case_decide; subst; simpl in *.

Lemma same_data_refl h : same_data h h.
Proof. done. Qed.

Lemma same_data_trans h1 h2 h3 : same_data h1 h2 -> same_data h2 h3 -> same_data h1 h3.
Proof.
  intros H1 H2 x. destruct (H1 x) as (A1 & A2 & A3 & A4), (H2 x) as (B1 & B2 & B3 & B4).
  split_and!; congruence.
Qed.

Lemma same_data_nextBin h p n : same_data h (set_nextBin h p n).
Proof. intros x. by heap_cases. Qed.

Lemma same_data_nextInBin h p n : same_data h (set_nextInBin h p n).
Proof. intros x. by heap_cases. Qed.

Lemma same_data_insertBefore h e p : same_data h (insertBefore h e p).
Proof.
  unfold insertBefore. repeat case_match;
    eauto using same_data_trans, same_data_nextBin, same_data_nextInBin.
Qed.

Lemma same_data_key h h' x : same_data h h' -> key h' x = key h x.
Proof. intros H. destruct (H x) as (E1 & E2 & _). unfold key. by rewrite E1, E2. Qed.

#[export] Hint Resolve same_data_refl same_data_trans same_data_nextBin same_data_nextInBin
  same_data_insertBefore : chaos.

Lemma insertBefore_other h e p x : x <> e -> insertBefore h e p x = h x.
Proof. intros. unfold insertBefore. repeat case_match; heap_cases; done. Qed.

Lemma elem_concat_cons e (b : list nat) bs : e ∈ concat (b :: bs) <-> e ∈ b \/ e ∈ concat bs.
Proof. simpl. apply elem_of_app. Qed.

(** What [insertBefore] writes into the links of the event. *)
Lemma insertBefore_self h e p :
  nextInBin (insertBefore h e p e) =
    match p with Some t => if kltb (key h e) (key h t) then None else Some t | None => None end /\
  nextBin (insertBefore h e p e) =
    match p with
    | Some t => if kltb (key h e) (key h t) then Some t else nextBin (h t)
    | None => None
    end.
Proof.
  unfold insertBefore. destruct p as [t|].
  - rewrite ev_lt_key. destruct (kltb _ _); unfold set_nextInBin, set_nextBin; by rewrite !upd_eq.
  - unfold set_nextInBin, set_nextBin. by rewrite !upd_eq.
Qed.

(** Linking [e] in front of bins whose top is not before it. *)
Lemma insertBefore_ok h e bs p :
  bins_ok h bs p -> e ∉ concat bs ->
  match p with Some t => kltb (key h t) (key h e) = false | None => True end ->
  bins_ok (insertBefore h e p) (bins_insert (key h) e bs) (Some e).
Proof.
  intros Hb Hn Hp. destruct (insertBefore_self h e p) as [Hi Hnb].
  destruct bs as [|[|t r] bs]; [simpl in Hb; subst p| done |].
  - cbn [bins_insert bins_ok chain head]. by rewrite Hi, Hnb.
  - destruct Hb as (-> & Hc & Hb).
    assert (Hlinks : forall x, x ∈ concat ((t :: r) :: bs) ->
              same_links h (insertBefore h e (Some t)) x).
    { intros x Hx. unfold same_links. rewrite insertBefore_other; [done|]. by intros ->. }
    assert (Hc' : chain (insertBefore h e (Some t)) (t :: r)).
    { apply (chain_ext h); [|done]. intros x Hx. apply Hlinks, elem_concat_cons. by left. }
    assert (Hb' : bins_ok (insertBefore h e (Some t)) bs (nextBin (h t))).
    { apply (bins_ok_ext h); [|done]. intros x Hx. apply Hlinks, elem_concat_cons. by right. }
    cbn [bins_insert]. rewrite Hp. destruct (kltb (key h e) (key h t)).
    + cbn [bins_ok]. rewrite Hnb. split_and!; [done| |done|done|].
      * cbn [chain head]. by rewrite Hi.
      * destruct (Hlinks t ltac:(left)) as [_ ->]. done.
    + cbn [bins_ok]. rewrite Hnb. split_and!; [done| |done].
      split; [by rewrite Hi|done].
Qed.

Lemma elem_bins_insert k e bs x : x ∈ concat (bins_insert k e bs) <-> x = e \/ x ∈ concat bs.
Proof.
  induction bs as [|[|t r] bs IH]; cbn [bins_insert].
  - simpl. rewrite list_elem_of_singleton, elem_of_nil. tauto.
  - rewrite IH. simpl. done.
  - repeat case_match; rewrite !elem_concat_cons, ?IH, ?elem_of_cons, ?elem_of_nil; tauto.
Qed.

(** Linking [e] between [prev]'s bin and bins that are not before [e]. *)
Lemma link_after h e bs prev r c :
  bins_ok h ((prev :: r) :: bs) (Some prev) -> e ∉ concat ((prev :: r) :: bs) ->
  NoDup (concat ((prev :: r) :: bs)) -> nextBin (h prev) = c ->
  match c with Some t => kltb (key h t) (key h e) = false | None => True end ->
  bins_ok (set_nextBin (insertBefore h e c) prev (Some e))
    ((prev :: r) :: bins_insert (key h) e bs) (Some prev).
Proof.
  intros (_ & Hc & Hb) Hn Hd <- Hlt. set (h' := insertBefore h e (nextBin (h prev))).
  assert (Hin : forall x, x ∈ prev :: r -> h' x = h x).
  { intros x Hx. apply insertBefore_other. intros ->. apply Hn, elem_concat_cons. by left. }
  cbn [bins_ok]. split; [done|]. split.
  - apply (chain_ext h); [|done]. intros x Hx. rewrite <- (Hin x Hx).
    unfold set_nextBin, upd. case_decide; by subst.
  - unfold set_nextBin at 2. rewrite upd_eq. simpl.
    apply (bins_ok_ext h').
    + intros x Hx. unfold set_nextBin. rewrite upd_ne; [done|]. intros ->.
      apply elem_bins_insert in Hx as [->|Hx].
      * apply Hn, elem_concat_cons. left. left.
      * simpl in Hd. apply NoDup_cons in Hd as [Hd _]. apply Hd, elem_of_app. by right.
    + apply insertBefore_ok; [done| |done]. intros Hx. apply Hn, elem_concat_cons. by right.
Qed.

(** The walk past the bins before [e]. *)
Lemma insert_walk fuel h e bs prev r :
  bins_ok h ((prev :: r) :: bs) (Some prev) -> e ∉ concat ((prev :: r) :: bs) ->
  NoDup (concat ((prev :: r) :: bs)) -> (length bs <= fuel)%nat ->
  exists p c, find_bin fuel h e prev (nextBin (h prev)) = Some (p, c) /\
    p ∈ concat ((prev :: r) :: bs) /\
    bins_ok (set_nextBin (insertBefore h e c) p (Some e))
      ((prev :: r) :: bins_insert (key h) e bs) (Some prev).
Proof.
  revert fuel prev r. induction bs as [|b bs IH]; intros fuel prev r Hok Hn Hd Hf.
  - pose proof Hok as (_ & _ & Hb). simpl in Hb. rewrite Hb. exists prev, None.
    split; [by destruct fuel|]. split; [left|]. by apply link_after.
  - pose proof Hok as (_ & Hc & Hb). destruct b as [|t r']; [done|].
    pose proof Hb as (Ht & _ & _). rewrite Ht in *.
    destruct (kltb (key h t) (key h e)) eqn:Elt.
    + destruct fuel as [|fuel]; [simpl in Hf; lia|]. cbn [find_bin]. rewrite ev_lt_key, Elt.
      destruct (IH fuel t r') as (p & c & Hfind & Hp & Hok').
      { done. }
      { intros Hx. apply Hn, elem_concat_cons. by right. }
      { simpl in Hd |- *. apply NoDup_cons in Hd as [_ Hd]. by apply NoDup_app in Hd as (_ & _ & Hd). }
      { simpl in Hf. lia. }
      exists p, c. split; [done|]. split; [apply elem_concat_cons; by right|].
      cbn [bins_insert]. rewrite Elt. cbn [bins_ok].
      assert (Hfr : forall x, x ∈ prev :: r -> set_nextBin (insertBefore h e c) p (Some e) x = h x).
      { intros x Hx. unfold set_nextBin. rewrite upd_ne.
        - apply insertBefore_other. intros ->. apply Hn, elem_concat_cons. by left.
        - intros ->. change (NoDup ((prev :: r) ++ concat ((t :: r') :: bs))) in Hd.
          apply NoDup_app in Hd as (_ & Hd & _). by apply (Hd p). }
      split; [done|]. split.
      * apply (chain_ext h); [|done]. intros x Hx. by rewrite Hfr.
      * rewrite Hfr by left. rewrite Ht. exact Hok'.
    + exists prev, (Some t). split; [destruct fuel; cbn [find_bin]; by rewrite ev_lt_key, Elt|].
      split; [left|]. apply link_after; try done.
Qed.

Lemma insert_ok fuel q bs e :
  bins_ok (q_heap q) bs (q_head q) -> e ∉ concat bs -> NoDup (concat bs) -> (length bs <= fuel)%nat ->
  exists q', insert fuel q e = Done q' /\ same_data (q_heap q) (q_heap q') /\
    q_curTick q' = q_curTick q /\
    bins_ok (q_heap q') (bins_insert (key (q_heap q)) e bs) (q_head q').
Proof.
  intros Hok Hn Hd Hf. unfold insert. destruct (q_head q) as [hd|] eqn:Eh.
  - destruct bs as [|[|t r] bs]; try done. pose proof Hok as ([= <-] & _ & _).
    rewrite ev_le_key. destruct (kltb (key (q_heap q) hd) (key (q_heap q) e)) eqn:Elt; simpl negb; cbv iota.
    + destruct (insert_walk fuel (q_heap q) e bs hd r Hok Hn Hd) as (p & c & -> & _ & Hok');
        [simpl in Hf; lia|].
      eexists. split; [done|]. simpl q_heap. split; [eauto with chaos|]. split; [done|].
      simpl q_head. cbn [bins_insert]. by rewrite Elt.
    + eexists. split; [done|]. cbn [q_heap q_head q_curTick]. split; [eauto with chaos|]. split; [done|].
      by apply insertBefore_ok.
  - destruct bs as [|[|t r] bs]; [|done|by destruct Hok].
    eexists. split; [done|]. simpl q_heap. split; [eauto with chaos|]. split; [done|].
    by apply (insertBefore_ok _ _ [] None).
Qed.

(** ** Sortedness and the flat view *)

Lemma bins_sorted_ext k k' bs :
  (forall x, x ∈ concat bs -> k' x = k x) -> bins_sorted k bs -> bins_sorted k' bs.
Proof.
  induction bs as [|b bs IH]; cbn [bins_sorted]; [done|]. intros Hk (H1 & H2 & H3).
  assert (Hb : forall x, x ∈ b -> k' x = k x) by (intros; apply Hk, elem_concat_cons; by left).
  assert (Hc : forall x, x ∈ concat bs -> k' x = k x) by (intros; apply Hk, elem_concat_cons; by right).
  split_and!.
  - intros x y Hx Hy. rewrite !Hb by done. auto.
  - intros x y Hx Hy. rewrite Hb, Hc by done. auto.
  - auto.
Qed.

Lemma bins_insert_sorted k e bs :
  Forall (fun b => b <> []) bs -> bins_sorted k bs -> bins_sorted k (bins_insert k e bs).
Proof.
  induction bs as [|[|t r] bs IH]; intros Hne Hs.
  - simpl. split_and!; [intros x y ->%list_elem_of_singleton ->%list_elem_of_singleton; done| |done].
    intros x y _ Hy. by apply elem_of_nil in Hy.
  - by apply Forall_cons in Hne as [? _].
  - apply Forall_cons in Hne as [_ Hne]. destruct Hs as (H1 & H2 & H3). cbn [bins_insert].
    assert (Ht : forall x, x ∈ t :: r -> k x = k t) by (intros; apply H1; [done|left]).
    destruct (kltb (k t) (k e)) eqn:E1; [|destruct (kltb (k e) (k t)) eqn:E2].
    + cbn [bins_sorted]. split_and!; [done| |auto].
      intros x y Hx [->|Hy]%elem_bins_insert; [by rewrite (Ht x Hx)|auto].
    + cbn [bins_sorted]. split_and!; try done.
      * intros x y ->%list_elem_of_singleton ->%list_elem_of_singleton. done.
      * intros x y ->%list_elem_of_singleton [Hy|Hy]%elem_concat_cons; [by rewrite (Ht y Hy)|].
        eapply kltb_trans; [exact E2|]. apply H2; [left|done].
    + assert (He : k e = k t) by (by apply kltb_total). cbn [bins_sorted].
      assert (Ht' : forall x, x ∈ e :: t :: r -> k x = k t).
      { intros x [->|Hx]%elem_of_cons; [done|auto]. }
      split_and!; [|intros x y Hx Hy|done].
      * intros x y Hx Hy. by rewrite (Ht' x Hx), (Ht' y Hy).
      * rewrite (Ht' x Hx). apply H2; [left|done].
Qed.

Lemma flat_insert_skip k e b l :
  (forall x, x ∈ b -> kltb (k x) (k e) = true) -> flat_insert k e (b ++ l) = b ++ flat_insert k e l.
Proof.
  induction b as [|t b IH]; intros Hb; [done|]. simpl. rewrite Hb by left. f_equal.
  apply IH. intros x Hx. apply Hb. by right.
Qed.

(** At the flat level an insertion goes in front of the events not before it. *)
Lemma concat_bins_insert k e bs :
  Forall (fun b => b <> []) bs -> bins_sorted k bs ->
  concat (bins_insert k e bs) = flat_insert k e (concat bs).
Proof.
  induction bs as [|[|t r] bs IH]; intros Hne Hs; [done|by apply Forall_cons in Hne as [? _]|].
  apply Forall_cons in Hne as [_ Hne]. destruct Hs as (H1 & H2 & H3). cbn [bins_insert].
  destruct (kltb (k t) (k e)) eqn:E1.
  - change (concat ((t :: r) :: bs)) with ((t :: r) ++ concat bs).
    rewrite flat_insert_skip, <- IH; [done|done|done|].
    intros x Hx. by rewrite (H1 x t Hx ltac:(left)).
  - simpl. rewrite E1. by destruct (kltb (k e) (k t)).
Qed.

Lemma bins_ok_nonempty h bs p : bins_ok h bs p -> Forall (fun b => b <> []) bs.
Proof.
  revert p. induction bs as [|[|t r] bs IH]; intros p; [done|done|].
  intros (_ & _ & H). constructor; [done|eauto].
Qed.

Lemma flat_insert_ext k k' e l :
  (forall x, k x = k' x) -> flat_insert k e l = flat_insert k' e l.
Proof. intros H. induction l as [|x l IH]; [done|]. cbn [flat_insert]. by rewrite !H, IH. Qed.

Lemma flat_insert_perm k e l : flat_insert k e l ≡ₚ e :: l.
Proof.
  induction l as [|x l IH]; [done|]. simpl. case_match; [|done]. rewrite IH. apply Permutation_swap.
Qed.

(** ** Removal *)

Lemma find_in_bin_ok fuel h e curr l :
  chain h (curr :: l) -> e ∈ l -> NoDup (curr :: l) -> (length l <= fuel)%nat ->
  exists p l1 l2, find_in_bin fuel h e curr (head l) = Done p /\ curr :: l = l1 ++ p :: e :: l2.
Proof.
  revert fuel curr. induction l as [|x l IH]; intros fuel curr Hc He Hd Hf; [by apply elem_of_nil in He|].
  destruct Hc as [_ Hc]. destruct (decide (x = e)) as [->|Hne].
  - exists curr, [], l. destruct fuel; simpl; by rewrite decide_True.
  - apply elem_of_cons in He as [->|He]; [done|]. destruct fuel as [|fuel]; [simpl in Hf; lia|].
    cbn [find_in_bin head]. rewrite decide_False by congruence.
    apply NoDup_cons in Hd as [_ Hd].
    destruct (IH fuel x Hc He Hd) as (p & l1 & l2 & Hfind & ->); [simpl in Hf; lia|].
    destruct Hc as [Hx _]. rewrite Hx. exists p, (curr :: l1), l2. done.
Qed.

Lemma chain_unlink h l1 p e l2 :
  chain h (l1 ++ p :: e :: l2) -> NoDup (l1 ++ p :: e :: l2) ->
  chain (set_nextInBin h p (nextInBin (h e))) (l1 ++ p :: l2).
Proof.
  induction l1 as [|x l1 IH]; simpl app; intros Hc Hd.
  - destruct Hc as (_ & He & Hc). apply NoDup_cons in Hd as [Hp _]. split.
    + unfold set_nextInBin. by rewrite upd_eq.
    + apply (chain_ext h); [|done]. intros x Hx. unfold set_nextInBin. rewrite upd_ne; [done|].
      intros ->. apply Hp. by right.
  - destruct Hc as [Hx Hc]. apply NoDup_cons in Hd as [Hn Hd]. split; [|auto].
    unfold set_nextInBin. rewrite upd_ne.
    + rewrite Hx. by destruct l1.
    + intros ->. apply Hn, elem_of_app. right. left.
Qed.

Lemma filter_ne_id (e : nat) (l : list nat) : e ∉ l -> filter (fun x : nat => x <> e) l = l.
Proof.
  induction l as [|x l IH]; intros Hn; [done|]. rewrite filter_cons, decide_True.
  - f_equal. apply IH. intros ?. apply Hn. by right.
  - intros ->. apply Hn. left.
Qed.

Lemma filter_unlink (e p : nat) l1 l2 :
  NoDup (l1 ++ p :: e :: l2) -> filter (fun x => x <> e) (l1 ++ p :: e :: l2) = l1 ++ p :: l2.
Proof.
  intros Hd. apply NoDup_app in Hd as (_ & Hd1 & Hd2). apply NoDup_cons in Hd2 as [Hp Hd2].
  apply NoDup_cons in Hd2 as [He _].
  rewrite filter_app, !filter_cons, decide_True by (intros ->; apply Hp; left).
  rewrite decide_False by (intros H; by apply H).
  rewrite !filter_ne_id; [done|done|]. intros Hx. apply (Hd1 _ Hx). right. left.
Qed.

(** What [removeItem] leaves of a bin. *)
Lemma removeItem_ok fuel h e t r :
  chain h (t :: r) -> e ∈ t :: r -> NoDup (t :: r) -> (length r <= fuel)%nat ->
  exists t' h', removeItem fuel h e t = Done (t', h') /\ same_data h h' /\
    (forall x, x ∉ t :: r -> h' x = h x) /\
    match filter (fun x => x <> e) (t :: r) with
    | [] => t' = nextBin (h t)
    | x :: b' => t' = Some x /\ chain h' (x :: b') /\ nextBin (h' x) = nextBin (h t)
    end.
Proof.
  intros Hc He Hd Hf. unfold removeItem. destruct (decide (e = t)) as [->|Hne].
  - assert (Hfil : filter (fun x => x <> t) (t :: r) = r).
    { rewrite filter_cons, decide_False by (intros H; by apply H).
      apply NoDup_cons in Hd as [Hn _]. by apply filter_ne_id. }
    rewrite Hfil. destruct Hc as [Hh Hc]. rewrite Hh. destruct r as [|n r]; simpl head.
    + do 2 eexists. split; [done|]. split; [apply same_data_refl|]. done.
    + do 2 eexists. split; [done|]. split; [eauto with chaos|]. split.
      * intros x Hx. unfold set_nextBin. apply upd_ne. intros ->. apply Hx. right. left.
      * split; [done|]. split; [|unfold set_nextBin; by rewrite upd_eq].
        apply (chain_ext h); [|done]. intros x _. unfold set_nextBin, upd. by case_decide; subst.
  - apply elem_of_cons in He as [->|He]; [done|].
    destruct (find_in_bin_ok fuel h e t r Hc He Hd Hf) as (p & l1 & l2 & Hfind & Hsplit).
    pose proof Hc as [Hh _]. rewrite Hh, Hfind. do 2 eexists. split; [done|].
    split; [eauto with chaos|]. split.
    + intros x Hx. unfold set_nextInBin. apply upd_ne. intros ->. apply Hx. rewrite Hsplit.
      apply elem_of_app. right. left.
    + rewrite Hsplit in *. rewrite filter_unlink by done.
      assert (Ht : exists b', l1 ++ p :: l2 = t :: b').
      { destruct l1; injection Hsplit as <- _; eauto. }
      destruct Ht as [b' Hb']. rewrite Hb'. split; [done|]. rewrite <- Hb'.
      split; [by apply chain_unlink|]. unfold set_nextInBin, upd. by case_decide; subst.
Qed.

Lemma bins_sorted_before k b bs x e :
  bins_sorted k (b :: bs) -> x ∈ b -> e ∈ concat bs -> kltb (k x) (k e) = true.
Proof. intros (_ & H & _). apply H. Qed.

Lemma NoDup_concat_cons (b : list nat) bs :
  NoDup (concat (b :: bs)) -> NoDup b /\ (forall x, x ∈ b -> x ∉ concat bs) /\ NoDup (concat bs).
Proof. simpl. by intros (? & ? & ?)%NoDup_app. Qed.

(** [bins_remove] at the bin that holds [e], given what [removeItem] did. *)
Lemma remove_here h h' e t r bs t' :
  bins_ok h ((t :: r) :: bs) (Some t) -> e ∈ t :: r -> NoDup (concat ((t :: r) :: bs)) ->
  (forall x, x ∉ t :: r -> h' x = h x) ->
  match filter (fun x => x <> e) (t :: r) with
  | [] => t' = nextBin (h t)
  | x :: b' => t' = Some x /\ chain h' (x :: b') /\ nextBin (h' x) = nextBin (h t)
  end ->
  bins_ok h' (bins_remove e ((t :: r) :: bs)) t'.
Proof.
  intros (_ & _ & Hb) He Hd Hfr Hres. apply NoDup_concat_cons in Hd as (_ & Hdis & _).
  assert (Hb' : bins_ok h' bs (nextBin (h t))).
  { apply (bins_ok_ext h); [|done]. intros x Hx. rewrite Hfr; [done|].
    intros Hin. by apply (Hdis x). }
  cbn [bins_remove]. rewrite decide_True by done.
  destruct (filter _ (t :: r)) as [|x b']; [by subst|].
  destruct Hres as (-> & Hc & Hn). cbn [bins_ok]. by rewrite Hn.
Qed.

Lemma elem_bins_remove e bs x : x ∈ concat (bins_remove e bs) -> x ∈ concat bs.
Proof.
  induction bs as [|b bs IH]; cbn [bins_remove]; [done|]. case_decide.
  - destruct (filter _ b) as [|y b'] eqn:E; rewrite elem_concat_cons; [by right|].
    rewrite elem_concat_cons, <- E. intros [Hx|]; [|by right].
    apply list_elem_of_filter in Hx as [_ Hx]. by left.
  - rewrite !elem_concat_cons. intros [|]; [by left|right; auto].
Qed.

(** Unlinking [e] from the bin that follows [prev]'s. *)
Lemma remove_after fuel h e t r' bs prev r :
  bins_ok h ((prev :: r) :: (t :: r') :: bs) (Some prev) -> e ∈ t :: r' ->
  NoDup (concat ((prev :: r) :: (t :: r') :: bs)) -> (length r' <= fuel)%nat ->
  exists t' h', removeItem fuel h e t = Done (t', h') /\ same_data h h' /\
    (forall x, x ∉ t :: r' -> h' x = h x) /\
    bins_ok (set_nextBin h' prev t') ((prev :: r) :: bins_remove e ((t :: r') :: bs)) (Some prev).
Proof.
  intros (_ & Hc & Hb) Hin Hd Hf. apply NoDup_concat_cons in Hd as (_ & Hdis & Hd').
  pose proof Hb as (Ht & Hc' & _). destruct (NoDup_concat_cons _ _ Hd') as (Hdt & _ & _).
  destruct (removeItem_ok fuel h e t r' Hc' Hin Hdt Hf) as (t' & h' & Hrem & Hsd & Hfr & Hres).
  exists t', h'. split_and!; [done|done|done|]. rewrite Ht in Hb.
  pose proof (remove_here _ _ _ _ _ _ _ Hb Hin Hd' Hfr Hres) as Hr.
  assert (Hfr2 : forall x, x ∈ prev :: r -> h' x = h x).
  { intros x Hx. apply Hfr. intros Hx'. apply (Hdis x Hx), elem_concat_cons. by left. }
  split; [done|]. split.
  - apply (chain_ext h); [|done]. intros x Hx. rewrite <- (Hfr2 x Hx).
    unfold set_nextBin, upd. by case_decide; subst.
  - unfold set_nextBin at 2. rewrite upd_eq. cbn [nextBin]. apply (bins_ok_ext h'); [|done].
    intros x Hx%elem_bins_remove. unfold set_nextBin. rewrite upd_ne; [done|].
    intros ->. by apply (Hdis prev ltac:(left)).
Qed.

Lemma remove_walk f1 fuel h e bs prev r :
  bins_ok h ((prev :: r) :: bs) (Some prev) -> bins_sorted (key h) ((prev :: r) :: bs) ->
  NoDup (concat ((prev :: r) :: bs)) -> e ∈ concat bs ->
  (length bs <= f1)%nat -> (length (concat bs) <= fuel)%nat ->
  exists p c t' h', find_bin f1 h e prev (nextBin (h prev)) = Some (p, Some c) /\
    key h c = key h e /\ removeItem fuel h e c = Done (t', h') /\ same_data h h' /\
    p ∈ concat ((prev :: r) :: bs) /\ (forall x, x ∉ concat bs -> h' x = h x) /\
    bins_ok (set_nextBin h' p t') ((prev :: r) :: bins_remove e bs) (Some prev).
Proof.
  revert f1 prev r. induction bs as [|b bs IH]; intros f1 prev r Hok Hs Hd He Hf1 Hf.
  { by apply elem_of_nil in He. }
  pose proof Hok as (_ & Hc & Hb). destruct b as [|t r']; [done|].
  pose proof Hb as (Ht & _ & _). pose proof Hs as (_ & _ & Hs').
  pose proof (NoDup_concat_cons _ _ Hd) as (_ & Hdis & Hd').
  simpl in Hf. rewrite length_app in Hf. destruct (decide (e ∈ t :: r')) as [Hin|Hout].
  - assert (Hk : key h t = key h e) by (apply (proj1 Hs'); [left|done]).
    destruct (remove_after fuel h e t r' bs prev r Hok Hin Hd) as (t' & h' & Hrem & Hsd & Hfr & Hok');
      [lia|].
    exists prev, t, t', h'. rewrite Ht. split_and!; try done; [|left|].
    + destruct f1; cbn [find_bin]; by rewrite ev_lt_key, Hk, kltb_irrefl.
    + intros x Hx. apply Hfr. intros Hx'. apply Hx, elem_concat_cons. by left.
  - apply elem_concat_cons in He as [He|He]; [done|].
    assert (Hlt : kltb (key h t) (key h e) = true).
    { eapply bins_sorted_before; [exact Hs'|left|done]. }
    destruct f1 as [|f1]; [simpl in Hf1; lia|]. rewrite Ht. cbn [find_bin]. rewrite ev_lt_key, Hlt.
    rewrite Ht in Hb. destruct (IH f1 t r' Hb Hs' Hd' He) as (p & c & t' & h' & -> & Hk & Hrem & Hsd & Hp & Hfr & Hok');
      [simpl in Hf1; lia|lia|].
    exists p, c, t', h'. split_and!; try done.
    + apply elem_concat_cons. by right.
    + intros x Hx. apply Hfr. intros Hx'. apply Hx, elem_concat_cons. by right.
    + cbn [bins_remove]. rewrite decide_False by done. cbn [bins_ok].
      assert (Hfr2 : forall x, x ∈ prev :: r -> set_nextBin h' p t' x = h x).
      { intros x Hx. unfold set_nextBin. rewrite upd_ne.
        - apply Hfr. intros Hx'. apply (Hdis x Hx), elem_concat_cons. by right.
        - intros ->. by apply (Hdis p Hx). }
      split; [done|]. split.
      * apply (chain_ext h); [|done]. intros x Hx. by rewrite Hfr2.
      * rewrite Hfr2, Ht by left. exact Hok'.
Qed.

Lemma remove_ok fuel q bs e :
  bins_ok (q_heap q) bs (q_head q) -> bins_sorted (key (q_heap q)) bs -> NoDup (concat bs) ->
  e ∈ concat bs -> (length (concat bs) <= fuel)%nat -> (length bs <= fuel)%nat ->
  exists q', remove fuel q e = Done q' /\ same_data (q_heap q) (q_heap q') /\
    q_curTick q' = q_curTick q /\ bins_ok (q_heap q') (bins_remove e bs) (q_head q').
Proof.
  intros Hok Hs Hd He Hf1 Hf2. destruct bs as [|[|t r] bs]; [by apply elem_of_nil in He|done|].
  pose proof Hok as (Hh & Hc & Hb). unfold remove. rewrite Hh. rewrite Hh in Hok.
  destruct (NoDup_concat_cons _ _ Hd) as (Hdt & Hdis & _).
  simpl in Hf1, Hf2. rewrite length_app in Hf1.
  destruct (decide (e ∈ t :: r)) as [Hin|Hout].
  - rewrite (proj2 (ev_eq_key _ _ _)) by (apply (proj1 Hs); [left|done]).
    destruct (removeItem_ok fuel (q_heap q) e t r Hc Hin Hdt) as (t' & h' & -> & Hsd & Hfr & Hres); [lia|].
    eexists. split; [done|]. split; [done|]. split; [done|].
    exact (remove_here _ _ _ _ _ _ _ Hok Hin Hd Hfr Hres).
  - apply elem_concat_cons in He as [He|He]; [done|].
    assert (Hlt : kltb (key (q_heap q) t) (key (q_heap q) e) = true).
    { eapply bins_sorted_before; [exact Hs|left|done]. }
    destruct (ev_eq (q_heap q t) (q_heap q e)) eqn:E.
    { apply ev_eq_key in E. rewrite E, kltb_irrefl in Hlt. done. }
    destruct (remove_walk fuel fuel (q_heap q) e bs t r Hok Hs Hd He)
      as (p & c & t' & h' & -> & Hk & Hrem & Hsd & Hp & Hfr & Hok'); [lia|lia|].
    rewrite (proj2 (ev_eq_key _ _ _) Hk). simpl negb. cbv iota. rewrite Hrem.
    eexists. split; [done|]. cbn [q_heap q_head q_curTick]. split; [eauto with chaos|]. split; [done|].
    cbn [bins_remove]. rewrite decide_False by done. exact Hok'.
Qed.

Lemma concat_bins_remove e bs :
  NoDup (concat bs) -> concat (bins_remove e bs) = filter (fun x => x <> e) (concat bs).
Proof.
  induction bs as [|b bs IH]; intros Hd; [done|]. cbn [bins_remove].
  apply NoDup_concat_cons in Hd as (_ & Hdis & Hd).
  simpl concat at 2. rewrite filter_app. case_decide as He.
  - rewrite (filter_ne_id e (concat bs)) by (by apply Hdis). by destruct (filter _ b).
  - rewrite (filter_ne_id e b) by done. simpl. by rewrite IH.
Qed.

Lemma bins_remove_sorted k e bs : bins_sorted k bs -> bins_sorted k (bins_remove e bs).
Proof.
  induction bs as [|b bs IH]; intros Hs; [done|]. destruct Hs as (H1 & H2 & H3). cbn [bins_remove].
  case_decide as He.
  - destruct (filter _ b) as [|x b'] eqn:E; [done|].
    assert (Hb : forall y, y ∈ x :: b' -> y ∈ b).
    { intros y. rewrite <- E, list_elem_of_filter. by intros [_ ?]. }
    cbn [bins_sorted]. split_and!; auto.
  - cbn [bins_sorted]. split_and!; [done| |auto].
    intros x y Hx Hy%elem_bins_remove. auto.
Qed.

(** ** The operations on well-formed queues *)

Lemma set_flags_links h e a b x : same_links h (set_flags h e a b) x.
Proof. unfold same_links, set_flags, upd. by case_decide; subst. Qed.

Lemma set_flags_key h e a b x : key (set_flags h e a b) x = key h x.
Proof. unfold key, set_flags, upd. by case_decide; subst. Qed.

Lemma set_when_links h e w x : same_links h (set_when h e w) x.
Proof. unfold same_links, set_when, upd. by case_decide; subst. Qed.

Lemma bins_length_concat bs h p : bins_ok h bs p -> (length bs <= length (concat bs))%nat.
Proof.
  revert p. induction bs as [|[|t r] bs IH]; intros p; [done|done|]. intros (_ & _ & H).
  specialize (IH _ H). simpl. rewrite length_app. lia.
Qed.

(** C5 [EventQueue::schedule] refines sorted insertion: on a well-formed queue an
    event that is not scheduled and not in the past is linked, in front of the events
    of its own time and priority and behind all earlier ones; no assertion fires, the
    pointer walk ends, and the queue stays well-formed (ordered bins, no event twice,
    the scheduled flag exactly on queued events, nothing in the past). *)
Theorem schedule_refines fuel q bs e when :
  wf q bs -> ev_scheduled (q_heap q e) = false -> q_curTick q <= when -> (length bs <= fuel)%nat ->
  exists q' bs', schedule fuel q e when = Done q' /\ wf q' bs' /\
    key (q_heap q') e = (when, ev_priority (q_heap q e)) /\
    (forall x, x <> e -> key (q_heap q') x = key (q_heap q) x) /\
    concat bs' = flat_insert (key (q_heap q')) e (concat bs).
Proof.
  intros [Hrep Hsort Hnd Hsch Hfut] He Hw Hf. unfold schedule.
  destruct (Z.ltb_spec when (q_curTick q)); [lia|]. rewrite He.
  assert (Hn : e ∉ concat bs) by (rewrite <- Hsch; congruence).
  set (q1 := Queue (q_head q) (set_when (q_heap q) e when) (q_curTick q)).
  assert (Hkx : forall x, x <> e -> key (q_heap q1) x = key (q_heap q) x).
  { intros x Hx. unfold key, q1, set_when. simpl. by rewrite upd_ne. }
  assert (Hsort1 : bins_sorted (key (q_heap q1)) bs).
  { eapply bins_sorted_ext; [|exact Hsort]. intros x Hx. apply Hkx. by intros ->. }
  destruct (insert_ok fuel q1 bs e) as (q2 & -> & Hsd & Htick & Hok); [|done|done|done|].
  { apply (bins_ok_ext (q_heap q)); [|done]. intros x _. apply set_when_links. }
  assert (Hk2 : forall x, key (set_flags (q_heap q2) e true (ev_squashed (q_heap q2 e))) x = key (q_heap q1) x).
  { intros x. by rewrite set_flags_key, (same_data_key _ _ _ Hsd). }
  assert (Hne : Forall (fun b => b <> []) bs) by (eapply bins_ok_nonempty; exact Hrep).
  assert (Hcat : concat (bins_insert (key (q_heap q1)) e bs) = flat_insert (key (q_heap q1)) e (concat bs)).
  { by apply concat_bins_insert. }
  do 2 eexists. split; [done|]. cbn [q_heap q_head q_curTick]. split_and!.
  - split; cbn [q_heap q_head q_curTick].
    + eapply bins_ok_ext; [|exact Hok]. intros x _. apply set_flags_links.
    + eapply bins_sorted_ext; [|apply (bins_insert_sorted _ e _ Hne Hsort1)]. intros x _. apply Hk2.
    + rewrite Hcat, flat_insert_perm. by constructor.
    + intros x. rewrite elem_bins_insert, <- Hsch. unfold set_flags, upd. case_decide as Hxe.
      * subst. split; [by left|done].
      * destruct (Hsd x) as (_ & _ & -> & _). unfold q1. cbn [q_heap]. unfold set_when. rewrite upd_ne by done.
        split; [by right|by intros [|]].
    + intros x Hx. apply elem_bins_insert in Hx. rewrite Htick. cbn [q_curTick q1].
      pose proof (Hk2 x) as Hkx2. apply (f_equal fst) in Hkx2. unfold key in Hkx2. simpl in Hkx2. rewrite Hkx2.
      unfold q1, set_when, upd. cbn [q_heap]. case_decide; [done|]. destruct Hx as [|Hx]; [done|]. by apply Hfut.
  - rewrite Hk2. unfold key, q1, set_when. cbn [q_heap]. by rewrite upd_eq.
  - intros x Hx. rewrite Hk2. by apply Hkx.
  - rewrite Hcat. symmetry. by apply flat_insert_ext.
Qed.

(** C7 [EventQueue::deschedule] removes exactly the descheduled event: on a
    well-formed queue it finds a scheduled event wherever its bin and its place in
    the bin are, keeps the order of the others and clears its flags. *)
Theorem deschedule_refines fuel q bs e :
  wf q bs -> ev_scheduled (q_heap q e) = true -> (length (concat bs) <= fuel)%nat ->
  exists q' bs', deschedule fuel q e = Done q' /\ wf q' bs' /\
    concat bs' = filter (fun x => x <> e) (concat bs) /\
    ev_scheduled (q_heap q' e) = false /\ ev_squashed (q_heap q' e) = false /\
    (forall x, key (q_heap q') x = key (q_heap q) x).
Proof.
  intros [Hrep Hsort Hnd Hsch Hfut] He Hf. unfold deschedule. rewrite He. simpl negb. cbv iota.
  pose proof (bins_length_concat _ _ _ Hrep).
  destruct (remove_ok fuel q bs e) as (q1 & -> & Hsd & Htick & Hok); try done; [by apply Hsch|lia|].
  assert (Hk : forall x, key (set_flags (q_heap q1) e false false) x = key (q_heap q) x).
  { intros x. by rewrite set_flags_key, (same_data_key _ _ _ Hsd). }
  pose proof (concat_bins_remove e bs Hnd) as Hcat.
  do 2 eexists. split; [done|]. cbn [q_heap q_head q_curTick]. split_and!; try done;
    [|by unfold set_flags; rewrite upd_eq..].
  split; cbn [q_heap q_head q_curTick].
  - eapply bins_ok_ext; [|exact Hok]. intros x _. apply set_flags_links.
  - eapply bins_sorted_ext; [|apply (bins_remove_sorted _ e _ Hsort)]. intros x _. apply Hk.
  - rewrite Hcat. by apply NoDup_filter.
  - intros x. rewrite Hcat, list_elem_of_filter, <- Hsch. unfold set_flags, upd. case_decide; [naive_solver|].
    destruct (Hsd x) as (_ & _ & -> & _). naive_solver.
  - intros x Hx%elem_bins_remove. rewrite Htick. specialize (Hfut x Hx).
    pose proof (f_equal fst (Hk x)) as Hkx. unfold key in Hkx. simpl in Hkx. by rewrite Hkx.
Qed.

(** The event at the head is before every other one. *)
Lemma sorted_head_min k bs e l x :
  bins_sorted k bs -> Forall (fun b => b <> []) bs -> concat bs = e :: l -> x ∈ l ->
  kltb (k x) (k e) = false.
Proof.
  intros Hs Hne Hcat Hx. destruct bs as [|[|t r] bs]; [done|by apply Forall_cons in Hne as [? _]|].
  injection Hcat as -> <-. destruct Hs as (H1 & H2 & _). apply elem_of_app in Hx as [Hx|Hx].
  - rewrite (H1 x e); [apply kltb_irrefl|by right|left].
  - destruct (kltb (k x) (k e)) eqn:E; [|done].
    pose proof (kltb_trans _ _ _ E (H2 e x ltac:(left) Hx)) as Ht. by rewrite kltb_irrefl in Ht.
Qed.

(** Unlinking the head [e] of the first bin, whose flags were just changed. *)
Lemma pop_links h0 h e r bs :
  bins_ok h0 ((e :: r) :: bs) (Some e) -> NoDup (concat ((e :: r) :: bs)) ->
  (forall x, same_links h0 h x) ->
  exists hd h1, match nextInBin (h e) with
                | Some n => (Some n, set_nextBin h n (nextBin (h e)))
                | None => (nextBin (h e), h)
                end = (hd, h1) /\ same_data h h1 /\
    bins_ok h1 (match r with [] => bs | _ => r :: bs end) hd.
Proof.
  intros (_ & [Hi Hc] & Hb) Hnd Hl. apply NoDup_concat_cons in Hnd as (_ & Hdis & _).
  destruct (Hl e) as [-> ->]. rewrite Hi. destruct r as [|n r]; simpl head.
  - do 2 eexists. split; [done|]. split; [apply same_data_refl|].
    apply (bins_ok_ext h0); [|done]. intros x _. apply Hl.
  - do 2 eexists. split; [done|]. split; [eauto with chaos|]. cbn [bins_ok]. split; [done|]. split.
    + apply (chain_ext h0); [|done]. intros x _. destruct (Hl x) as [<- _].
      unfold set_nextBin, upd. by case_decide; subst.
    + unfold set_nextBin at 2. rewrite upd_eq. cbn [nextBin].
      apply (bins_ok_ext h0); [|done]. intros x Hx. unfold set_nextBin.
      rewrite upd_ne; [apply Hl|]. intros ->. apply (Hdis n); [right; left|done].
Qed.

(** The heap after the head is unlinked. *)
Lemma pop_ok q bs e l :
  wf q bs -> concat bs = e :: l ->
  exists q' bs', serviceOne q = Some (e, negb (ev_squashed (q_heap q e)), q') /\
    concat bs' = l /\ bins_ok (q_heap q') bs' (q_head q') /\ bins_sorted (key (q_heap q)) bs' /\
    (forall x, key (q_heap q') x = key (q_heap q) x) /\
    (forall x, ev_scheduled (q_heap q' x) = if decide (x = e) then false else ev_scheduled (q_heap q x)) /\
    ev_squashed (q_heap q' e) = false /\
    q_curTick q' = (if ev_squashed (q_heap q e) then q_curTick q else ev_when (q_heap q e)).
Proof.
  intros [Hrep Hsort Hnd Hsch Hfut] Hcat. destruct bs as [|[|t r] bs]; [done|done|].
  injection Hcat as -> Hl. destruct Hsort as (H1 & H2 & H3).
  pose proof Hrep as (Hh & _ & _). rewrite Hh in Hrep. unfold serviceOne. rewrite Hh.
  set (h := set_flags (q_heap q) e false (ev_squashed (q_heap q e))).
  assert (Hsq : ev_squashed (h e) = ev_squashed (q_heap q e)) by (unfold h, set_flags; by rewrite upd_eq).
  assert (Hwh : ev_when (h e) = ev_when (q_heap q e)) by (unfold h, set_flags; by rewrite upd_eq).
  destruct (pop_links (q_heap q) h e r bs Hrep Hnd) as (hd & h1 & -> & Hsd & Hok).
  { intros x. apply set_flags_links. }
  destruct (Hsd e) as (Hw1 & _ & _ & Hq1). rewrite Hq1, Hsq, Hw1, Hwh.
  assert (Hk1 : forall x, key h1 x = key (q_heap q) x).
  { intros x. rewrite (same_data_key _ _ _ Hsd). apply set_flags_key. }
  assert (Hs1 : forall x, ev_scheduled (h1 x) = if decide (x = e) then false else ev_scheduled (q_heap q x)).
  { intros x. destruct (Hsd x) as (_ & _ & -> & _). unfold h, set_flags, upd. by case_decide. }
  assert (Hcat' : concat (match r with [] => bs | _ => r :: bs end) = l) by (by destruct r).
  assert (Hso : bins_sorted (key (q_heap q)) (match r with [] => bs | _ => r :: bs end)).
  { destruct r as [|n r]; [done|]. cbn [bins_sorted]. split_and!; [intros; apply H1; by right| |done].
    intros x y Hx Hy. apply H2; [by right|done]. }
  destruct (ev_squashed (q_heap q e)) eqn:Esq; simpl negb; cbv iota;
    (do 2 eexists; split; [done|]; cbn [q_heap q_head q_curTick]; split_and!; try done).
  - eapply bins_ok_ext; [|exact Hok]. intros x _. apply set_flags_links.
  - intros x. by rewrite set_flags_key.
  - intros x. rewrite <- Hs1. unfold set_flags, upd. case_decide; [subst|done].
    simpl. rewrite Hs1. by rewrite decide_True.
  - unfold set_flags. by rewrite upd_eq.
  - congruence.
Qed.

(** C12 [EventQueue::serviceOne] pops the head of the sorted list: no queued event
    is before the serviced one, time moves to it (unless it was squashed, when it is
    discarded unprocessed and the clock stays), its flags are cleared and the rest of
    the queue is unchanged and well-formed. *)
Theorem serviceOne_refines q bs e l :
  wf q bs -> concat bs = e :: l ->
  exists q' bs', serviceOne q = Some (e, negb (ev_squashed (q_heap q e)), q') /\
    wf q' bs' /\ concat bs' = l /\
    (forall x, x ∈ l -> kltb (key (q_heap q) x) (key (q_heap q) e) = false) /\
    q_curTick q <= q_curTick q' /\
    q_curTick q' = (if ev_squashed (q_heap q e) then q_curTick q else ev_when (q_heap q e)) /\
    ev_scheduled (q_heap q' e) = false /\ ev_squashed (q_heap q' e) = false.
Proof.
  intros Hwf Hcat. destruct (pop_ok q bs e l Hwf Hcat) as (q' & bs' & Hs & Hcat' & Hok & Hso & Hk & Hsch' & Hsq & Ht).
  pose proof Hwf as [Hrep Hsort Hnd Hsch Hfut].
  assert (Hmin : forall x, x ∈ l -> kltb (key (q_heap q) x) (key (q_heap q) e) = false).
  { intros x Hx. eapply sorted_head_min; eauto. eapply bins_ok_nonempty; exact Hrep. }
  assert (He : q_curTick q <= ev_when (q_heap q e)) by (apply Hfut; rewrite Hcat; left).
  exists q', bs'. split_and!; try done.
  - rewrite Hcat in Hnd. apply NoDup_cons in Hnd as [Hel Hnd]. split; try done.
    + eapply bins_sorted_ext; [|exact Hso]. intros x _. apply Hk.
    + by rewrite Hcat'.
    + intros x. rewrite Hsch', Hcat'. specialize (Hsch x). rewrite Hcat, elem_of_cons in Hsch.
      case_decide; naive_solver.
    + intros x. rewrite Hcat'. intros Hx. pose proof (f_equal fst (Hk x)) as Hkx. unfold key in Hkx. simpl in Hkx.
      rewrite Hkx, Ht. destruct (ev_squashed (q_heap q e)); [apply Hfut; rewrite Hcat; by right|].
      specialize (Hmin x Hx). unfold key, kltb, pair_order, kltb, Z_order in Hmin. simpl in Hmin.
      apply orb_false_iff in Hmin as [Hmin _]. by apply Z.ltb_ge in Hmin.
  - rewrite Ht. destruct (ev_squashed (q_heap q e)); lia.
  - rewrite Hsch'. by rewrite decide_True.
Qed.

(** Two events of one bin and a later one. *)
Definition example_heap (e : nat) : Event :=
  match e with
  | 0%nat => mkEvent 10 0 None None true false
  | 1%nat => mkEvent 10 0 (Some 2%nat) (Some 0%nat) true false
  | 2%nat => mkEvent 30 0 None None true true
  | _ => mkEvent 0 0 None None false false
  end.

Definition example_queue : queue := Queue (Some 1%nat) example_heap 5.

Lemma example_wf : wf example_queue [[1; 0]; [2]]%nat.
Proof.
  split.
  - simpl. done.
  - cbn [bins_sorted example_queue q_heap]. split_and!; try done; cbv [key example_heap].
    + intros x y Hx Hy. simpl in *. set_unfold. naive_solver.
    + intros x y Hx Hy. simpl in *. set_unfold. naive_solver.
    + intros x y Hx Hy. simpl in *. set_unfold. naive_solver.
    + intros x y _ Hy. by apply elem_of_nil in Hy.
  - simpl. repeat (constructor; [set_solver|]). constructor.
  - intros e. simpl. rewrite !elem_of_cons, elem_of_nil. destruct e as [|[|[|e]]]; simpl; naive_solver.
  - intros e He. simpl in He. rewrite !elem_of_cons, elem_of_nil in He.
    destruct He as [-> | [-> | [-> | []]]]; simpl; lia.
Qed.

Lemma schedule_refines_witness :
  exists q' bs', schedule 9 example_queue 7 10 = Done q' /\ wf q' bs' /\
    key (q_heap q') 7 = (10, 0) /\
    (forall x, x <> 7%nat -> key (q_heap q') x = key example_heap x) /\
    concat bs' = flat_insert (key (q_heap q')) 7 [1; 0; 2]%nat.
Proof.
  apply (schedule_refines 9 example_queue [[1; 0]; [2]]%nat 7 10).
  - exact example_wf.
  - reflexivity.
  - vm_compute. discriminate.
  - simpl. lia.
Defined.

Lemma deschedule_refines_witness :
  exists q' bs', deschedule 9 example_queue 0 = Done q' /\ wf q' bs' /\
    concat bs' = filter (fun x => x <> 0%nat) [1; 0; 2]%nat /\
    ev_scheduled (q_heap q' 0%nat) = false /\ ev_squashed (q_heap q' 0%nat) = false /\
    (forall x, key (q_heap q') x = key example_heap x).
Proof.
  apply (deschedule_refines 9 example_queue [[1; 0]; [2]]%nat 0).
  - exact example_wf.
  - reflexivity.
  - simpl. lia.
Defined.

Lemma serviceOne_refines_witness :
  exists q' bs', serviceOne example_queue = Some (1%nat, true, q') /\
    wf q' bs' /\ concat bs' = [0; 2]%nat /\
    (forall x, x ∈ [0; 2]%nat -> kltb (key example_heap x) (key example_heap 1) = false) /\
    5 <= q_curTick q' /\ q_curTick q' = 10 /\
    ev_scheduled (q_heap q' 1%nat) = false /\ ev_squashed (q_heap q' 1%nat) = false.
Proof.
  apply (serviceOne_refines example_queue [[1; 0]; [2]]%nat 1 [0; 2]%nat).
  - exact example_wf.
  - reflexivity.
Defined.

(** ** Clocks *)

(** The cached edge of an object with a constant period: it is a multiple of the
    period, and less than a period ahead of some tick already reached. *)
Definition clock_inv (period curTick : Z) (c : Clocked) : Prop :=
  ck_tick c = ck_cycle c * period /\ 0 <= ck_cycle c /\ ck_tick c < curTick + period.

Lemma divCeil_spec a b : 0 < b -> b * divCeil a b - b < a <= b * divCeil a b.
Proof.
  intros. unfold divCeil. pose proof (Z.div_mod (a + b - 1) b ltac:(lia)).
  pose proof (Z.mod_pos_bound (a + b - 1) b ltac:(lia)). lia.
Qed.

Lemma divCeil_unique a b n : 0 < b -> b * n - b < a <= b * n -> divCeil a b = n.
Proof. intros Hb H. pose proof (divCeil_spec a b Hb). nia. Qed.

Lemma clock_update_ok period curTick c :
  0 < period -> clock_inv period curTick c ->
  let c' := clock_update period curTick c in
  ck_cycle c' = divCeil curTick period /\ ck_tick c' = period * divCeil curTick period \/ curTick < 0.
Proof.
  intros Hp (Ht & Hc & Hlt). destruct (Z.lt_ge_cases curTick 0) as [|Hcur]; [by right|left].
  unfold clock_update. destruct (Z.leb_spec curTick (ck_tick c)) as [Hle|Hgt].
  - assert (divCeil curTick period = ck_cycle c) as -> by (apply divCeil_unique; nia). split; [done|nia].
  - simpl. destruct (Z.leb_spec curTick (ck_tick c + period)) as [Hle|Hgt2].
    + assert (divCeil curTick period = ck_cycle c + 1) as -> by (apply divCeil_unique; nia). split; [done|simpl; nia].
    + set (el := divCeil (curTick - (ck_tick c + period)) period).
      pose proof (divCeil_spec (curTick - (ck_tick c + period)) period Hp) as Hel. fold el in Hel.
      assert (divCeil curTick period = ck_cycle c + 1 + el) as -> by (apply divCeil_unique; nia).
      simpl. split; [done|nia].
Qed.

(** The cached clock computes the ceiling: from any cached state that is an edge
    at most one period ahead, [curCycle] is the number of the next edge at or after the
    current tick, [clockEdge] the tick of the edge a number of cycles later (never in
    the past), both leave a state valid at every later tick, and [resetClock] agrees. *)
Theorem clock_exact period curTick cycles c :
  0 < period -> 0 <= curTick -> 0 <= cycles -> clock_inv period curTick c ->
  (curCycle period curTick c).1 = divCeil curTick period /\
  (clockEdge period curTick cycles c).1 = period * (divCeil curTick period + cycles) /\
  curTick <= (clockEdge period curTick cycles c).1 /\
  (forall later, curTick <= later -> clock_inv period later (clockEdge period curTick cycles c).2) /\
  resetClock period curTick = (curCycle period curTick c).2.
Proof.
  intros Hp Hcur Hcy Hinv.
  destruct (clock_update_ok period curTick c Hp Hinv) as [[Hc Ht]|]; [|lia].
  pose proof (divCeil_spec curTick period Hp). unfold curCycle, clockEdge. cbn [fst snd].
  set (c' := clock_update period curTick c) in *. split_and!; try nia; try done.
  - intros later Hl. split_and!; nia.
  - unfold resetClock. rewrite Z.mul_comm, <- Ht, <- Hc. by destruct c'.
Qed.

Lemma clock_exact_witness :
  (curCycle 500 1700 (mkClocked 500 1)).1 = divCeil 1700 500 /\
  (clockEdge 500 1700 3 (mkClocked 500 1)).1 = 500 * (divCeil 1700 500 + 3) /\
  1700 <= (clockEdge 500 1700 3 (mkClocked 500 1)).1 /\
  (forall later, 1700 <= later -> clock_inv 500 later (clockEdge 500 1700 3 (mkClocked 500 1)).2) /\
  resetClock 500 1700 = (curCycle 500 1700 (mkClocked 500 1)).2.
Proof.
  apply (clock_exact 500 1700 3 (mkClocked 500 1)); [lia|lia|lia|].
  split_and!; simpl; lia.
Defined.
