(* ===== verification/ThreadContext.v ===== *)
(** * Thread contexts: the interface between the CPU and an injector

    What [CHAOSReg] uses of [BaseCPU] and [ThreadContext] (cpu/base.hh,
    cpu/thread_context.hh): which contexts exist, their status and PC, the register
    classes of the ISA, and [getReg]/[setReg].  The operations are a class, the laws
    the injector relies on another; [reg_bank] is an implementation. *)

From stdpp Require Import base list numbers strings.
From Stdlib Require Import ZArith Lia.
From S2P Require Import Prelude Word.

(** [RegClassType] values the injectors distinguish. *)
Definition IntRegClass : Z := 0.
Definition FloatRegClass : Z := 1.

(** A [RegId]: register class and index; [std::map] orders them class first. *)
Definition RegId : Type := (Z * Z)%type.

Class ThreadContexts (CPU : Type) := {
  getContext : CPU -> Z -> bool;              (* the context exists *)
  getIsaPtr : CPU -> Z -> bool;               (* its ISA exists *)
  halted : CPU -> Z -> bool;                  (* status() == Halted *)
  instAddr : CPU -> Z -> Z;                   (* pcState().instAddr() *)
  numRegs : CPU -> Z -> Z -> Z;               (* thread, class *)
  writable : RegId -> bool;                   (* not a hard-wired register *)
  getReg : CPU -> Z -> RegId -> Z;
  setReg : CPU -> Z -> RegId -> Z -> CPU
}.

Class ThreadContextsOk (CPU : Type) {T : ThreadContexts CPU} : Prop := {
  getReg_range : forall c t r, uint 64 (getReg c t r);
  getReg_setReg_eq : forall c t r v,
    writable r = true -> uint 64 v -> getReg (setReg c t r v) t r = v;
  getReg_setReg_ne : forall c t r v t' r',
    (t, r) <> (t', r') -> getReg (setReg c t r v) t' r' = getReg c t' r';
  getContext_setReg : forall c t r v t', getContext (setReg c t r v) t' = getContext c t';
  getIsaPtr_setReg : forall c t r v t', getIsaPtr (setReg c t r v) t' = getIsaPtr c t';
  halted_setReg : forall c t r v t', halted (setReg c t r v) t' = halted c t';
  instAddr_setReg : forall c t r v t', instAddr (setReg c t r v) t' = instAddr c t';
  numRegs_setReg : forall c t r v t' k, numRegs (setReg c t r v) t' k = numRegs c t' k
}.

(** ** A register bank with AArch64's hard-wired integer register 31 *)

Record reg_bank := RegBank { bank_threads : Z; bank_regs : Z -> RegId -> Z }.

Definition xzr : RegId := (IntRegClass, 31).

#[global] Instance reg_bank_contexts : ThreadContexts reg_bank := {
  getContext b t := (0 <=? t) && (t <? bank_threads b);
  getIsaPtr _ _ := true;
  halted _ _ := false;
  instAddr _ _ := 0;
  numRegs _ _ k := if k =? IntRegClass then 32 else if k =? FloatRegClass then 32 else 0;
  writable r := negb (bool_decide (r = xzr));
  getReg b t r := if bool_decide (r = xzr) then 0 else u64 (bank_regs b t r);
  setReg b t r v :=
    RegBank (bank_threads b)
      (fun t' r' => if decide ((t, r) = (t', r')) then v else bank_regs b t' r')
}.

#[global] Instance reg_bank_ok : ThreadContextsOk reg_bank.
Proof.
  split; try done.
  - intros c t r. simpl. case_bool_decide; [split; lia|]. apply Z.mod_pos_bound. lia.
  - intros c t r v Hw Hv. simpl in *. case_bool_decide; [done|].
    rewrite decide_True by done. by apply Z.mod_small.
  - intros c t r v t' r' Hne. simpl. case_bool_decide; [done|]. by rewrite decide_False.
Qed.
