(* ===== verification/ChaosReg.v ===== *)
(** * CHAOSReg: faults in the architectural registers

    [CHAOSReg] injects through thread contexts, from an event on the CPU's clock, and
    re-applies stuck-at faults from a periodic event.  [processFault], [attackCheck]
    and [checkPermanent] are the handlers of the source; a run interleaves them with
    the program's own register writes. *)

From Stdlib Require Import ZArith Lia QArith Floats.SpecFloat.
From stdpp Require Import base list numbers strings.
From S2P Require Import Prelude Word Random EventQueue ThreadContext.

Open Scope Z_scope.

Inductive TargetClass := Both | Integer | FloatingPoint.

Definition stringToTargetClass (s : string) : TargetClass :=
  if String.eqb s "integer" then Integer
  else if String.eqb s "floating_point" then FloatingPoint
  else Both.

(** The members that do not change after construction. *)
Record reg_params := RegParams {
  probability : Q;
  num_bits_to_change : Z;
  first_clock : Z; last_clock : Z;
  max_faults : Z;
  max_reg_idx : Z;
  target_reg_idx : Z;
  fault_mask : Z; fault_mask_width : Z;
  fault_type_enum : FaultType;
  reg_weights : list spec_float;
  cycles_permament_fault_check : Z;
  reg_target_class_enum : TargetClass;
  PC_target : Z;
  write_log : bool;
  numThreads : Z
}.

Record reg_state (CPU : Type) := RegState {
  cpu : CPU;
  attackEvent : evt;
  periodicCheck : evt;
  permanent_faults : list ((Z * RegId) * PermanentFault)
}.
Arguments RegState {CPU}. Arguments cpu {CPU}. Arguments attackEvent {CPU}.
Arguments periodicCheck {CPU}. Arguments permanent_faults {CPU}.

Section CHAOSReg.
Context {CPU : Type} `{TC : ThreadContexts CPU} (p : reg_params).
Abbreviation MR := (M (reg_state CPU)).

Definition set_cpu (f : CPU -> CPU) (s : reg_state CPU) : reg_state CPU :=
  RegState (f (cpu s)) (attackEvent s) (periodicCheck s) (permanent_faults s).
Definition set_attack (f : evt -> evt) (s : reg_state CPU) : reg_state CPU :=
  RegState (cpu s) (f (attackEvent s)) (periodicCheck s) (permanent_faults s).
Definition set_periodic (f : evt -> evt) (s : reg_state CPU) : reg_state CPU :=
  RegState (cpu s) (attackEvent s) (f (periodicCheck s)) (permanent_faults s).
Definition set_permanent (k : Z * RegId) (f : PermanentFault) (s : reg_state CPU) : reg_state CPU :=
  RegState (cpu s) (attackEvent s) (periodicCheck s) (map_assign k f (permanent_faults s)).

Definition scheduleAttackEvent (now delay : Z) : MR unit := modify (set_attack (schedule_at now delay)).

Definition scheduleCheckPermanentFault (now delay : Z) : MR unit :=
  modify (set_periodic (schedule_at now delay)).

Definition unscheduleAttackEvent : MR unit :=
  do! modify (set_attack squash_evt) in modify (set_periodic squash_evt).

(** The register class: the first part of [processFault]. *)
Definition pick_class (c : CPU) (tid : Z) (g : engine) : option Z * engine :=
  match reg_target_class_enum p with
  | Both =>
      let intRegs := numRegs c tid IntRegClass in
      let floatRegs := numRegs c tid FloatRegClass in
      if (intRegs =? 0) && (floatRegs =? 0) then (None, g)
      else if (0 <? intRegs) && (floatRegs =? 0) then (Some IntRegClass, g)
      else if (intRegs =? 0) && (0 <? floatRegs) then (Some FloatRegClass, g)
      else let r := raw32 g in
           (Some (if r.1 mod 2 =? 0 then IntRegClass else FloatRegClass), r.2)
  | Integer => (if numRegs c tid IntRegClass =? 0 then None else Some IntRegClass, g)
  | FloatingPoint => (if numRegs c tid FloatRegClass =? 0 then None else Some FloatRegClass, g)
  end.

(** The register index: directed, or uniform below the bound. *)
Definition pick_reg (now tid num_regs : Z) : MR Z :=
  let upper := if (0 <? max_reg_idx p) && (max_reg_idx p <? num_regs)
               then max_reg_idx p - 1 else num_regs - 1 in
  if (0 <=? target_reg_idx p) && (target_reg_idx p <? num_regs) then
    do! log_if (write_log p)
          (Entry "directed" [("cycle", now); ("thread", tid); ("reg", target_reg_idx p)]) in
    ret (target_reg_idx p)
  else with_rng (uniform_int 0 upper).

(** The switch on the fault type and the write-back. *)
Definition inject (now tid : Z) (reg_id : RegId) (f : FaultType) (mask : Z) : MR unit :=
  let! s := get in
  let reg_val := apply_fault f mask (getReg (cpu s) tid reg_id) in
  do! match f with
      | StuckAtZero =>
          do! bump numStuckAtZero in do! bump numPermanentFaults in
          modify (set_permanent (tid, reg_id) (mkPF f mask true))
      | StuckAtOne =>
          do! bump numStuckAtOne in do! bump numPermanentFaults in
          modify (set_permanent (tid, reg_id) (mkPF f mask true))
      | BitFlip => bump numBitFlips
      | Random => skip
      end in
  do! modify (set_cpu (fun c => setReg c tid reg_id reg_val)) in
  do! bump numFaultsInjected in
  do! incr_count in
  log_if (write_log p)
    (Entry "inject" [("cycle", now); ("thread", tid); ("class", reg_id.1); ("reg", reg_id.2);
                     ("mask", mask); ("width", fault_mask_width p)]).

Definition processFault (now tid : Z) : MR unit :=
  let! s := get in
  if negb (getContext (cpu s) tid) then skip
  else if negb (getIsaPtr (cpu s) tid) then skip
  else
    let! k := with_rng (pick_class (cpu s) tid) in
    match k with
    | None => skip
    | Some reg_class =>
        if numRegs (cpu s) tid reg_class =? 0 then skip
        else
          let! random_reg := pick_reg now tid (numRegs (cpu s) tid reg_class) in
          let! mask := with_rng (mask_or (fault_mask p)
                          (generateRandomMask64 (num_bits_to_change p) (fault_mask_width p))) in
          if (reg_class =? IntRegClass) && (random_reg =? 31) then
            write_entry (Entry "xzr" [("cycle", now); ("thread", tid); ("reg", random_reg)])
          else
            let! f := with_rng (choose_fault (fault_type_enum p) (reg_weights p)) in
            inject now tid (reg_class, random_reg) f mask
    end.

Definition threads : list Z := map Z.of_nat (seq 0 (Z.to_nat (numThreads p))).

Definition active (c : CPU) (tid : Z) : bool := getContext c tid && negb (halted c tid).

(** The body of the first loop of [attackCheck]. *)
Definition attack_thread (now tid : Z) : MR unit :=
  let! s := get in
  if negb (active (cpu s) tid) then skip
  else whenM ((PC_target p =? 0) || (PC_target p =? instAddr (cpu s) tid)) (processFault now tid).

Definition attackCheck (now : Z) : MR unit :=
  if Qeq_bool (probability p) 0 then skip
  else
    do! for_each threads (attack_thread now) in
    let! s := get in
    if existsb (active (cpu s)) threads then
      let! c := get_count in
      if cap_reached (max_faults p) c then unscheduleAttackEvent
      else
        let! next_injection := with_rng (geometric (probability p)) in
        whenM ((last_clock p =? 0) || (u64 (next_injection + now) <=? last_clock p))
              (scheduleAttackEvent now next_injection)
    else unscheduleAttackEvent.

(** The body of the loop of [checkPermanent]; the schedule call at its end is inside
    the loop. *)
Definition recheck (now : Z) (e : (Z * RegId) * PermanentFault) : MR unit :=
  let '((tid, reg_id), f) := e in
  if negb (pf_update f) then skip
  else
    let! s := get in
    if negb (getContext (cpu s) tid) then skip
    else
      do! modify (set_cpu (fun c =>
            setReg c tid reg_id (reapply_fault (pf_type f) (pf_mask f) (getReg c tid reg_id)))) in
      scheduleCheckPermanentFault now (cycles_permament_fault_check p).

Definition checkPermanent (now : Z) : MR unit :=
  let! s := get in for_each (permanent_faults s) (recheck now).

(** The constructor: the members it fixes, the first draws and the two events. *)
Definition CHAOSReg_init (flip zero one : spec_float) (now : Z) : MR reg_params :=
  if Qle_bool (probability p) 0 then ret p
  else
    let prob := if PC_target p =? 0 then probability p else 1%Q in
    let! bits := if num_bits_to_change p =? -1 then with_rng (uniform_int 1 32)
                 else ret (num_bits_to_change p) in
    let! d := with_rng (geometric prob) in
    do! scheduleAttackEvent now (first_clock p + d) in
    do! scheduleCheckPermanentFault now (first_clock p + cycles_permament_fault_check p) in
    ret (RegParams prob bits (first_clock p) (last_clock p) (max_faults p) (max_reg_idx p)
           (target_reg_idx p) (fault_mask p) 64 (fault_type_enum p) (fault_weights flip zero one)
           (cycles_permament_fault_check p) (reg_target_class_enum p) (PC_target p) (write_log p)
           (numThreads p)).

(** ** Runs

    Events of the queue and the program's register writes, in any order.  An event of
    the injector runs its handler unless it is squashed. *)
Inductive action := FireAttack | FirePeriodic | Program (tid : Z) (r : RegId) (v : Z).

Definition fire_attack (now : Z) : MR unit :=
  let! s := get in
  if negb (scheduled (attackEvent s)) then skip
  else
    do! modify (set_attack (fun e => (service_evt e).2)) in
    whenM (service_evt (attackEvent s)).1 (attackCheck now).

Definition fire_periodic (now : Z) : MR unit :=
  let! s := get in
  if negb (scheduled (periodicCheck s)) then skip
  else
    do! modify (set_periodic (fun e => (service_evt e).2)) in
    whenM (service_evt (periodicCheck s)).1 (checkPermanent now).

Definition act (now : Z) (a : action) : MR unit :=
  match a with
  | FireAttack => fire_attack now
  | FirePeriodic => fire_periodic now
  | Program tid r v => modify (set_cpu (fun c => setReg c tid r v))
  end.

Definition run (l : list (Z * action)) : MR unit := for_each l (fun na => act na.1 na.2).
End CHAOSReg.

(** * Lemmas *)

Section Effects.
Context {CPU : Type} `{TC : ThreadContexts CPU} (p : reg_params).
Implicit Types s : core * reg_state CPU.

(** One injection: the register, the counter, the permanent fault, the statistics. *)
Record injected (tid : Z) (r : RegId) (f : FaultType) (mask : Z) s s' : Prop := {
  inj_cpu : cpu s'.2 = setReg (cpu s.2) tid r (apply_fault f mask (getReg (cpu s.2) tid r));
  inj_count : faults_injected_count s'.1 = count_succ (faults_injected_count s.1);
  inj_permanent : permanent_faults s'.2 =
    if is_stuck f then map_assign (tid, r) (mkPF f mask true) (permanent_faults s.2)
    else permanent_faults s.2;
  inj_attack : attackEvent s'.2 = attackEvent s.2;
  inj_periodic : periodicCheck s'.2 = periodicCheck s.2;
  inj_stats : the_stats s'.1 numFaultsInjected = the_stats s.1 numFaultsInjected + 1;
  inj_kind : forall k, fault_stat f = Some k -> the_stats s'.1 k = the_stats s.1 k + 1
}.

(** No injection: nothing but the engine and the log moves. *)
Record untouched s s' : Prop := {
  unt_state : s'.2 = s.2;
  unt_count : faults_injected_count s'.1 = faults_injected_count s.1;
  unt_stats : the_stats s'.1 = the_stats s.1
}.

Lemma inject_injected now tid r f mask s : injected tid r f mask s (inject p now tid r f mask s).2.
Proof.
  destruct s as [[g c st lg] x]. unfold inject, log_if, whenM.
  destruct f, (write_log p); split; try reflexivity; intros k [= <-]; reflexivity.
Qed.

Lemma untouched_refl s : untouched s s.
Proof. done. Qed.

Lemma untouched_rng {A} (f : engine -> A * engine) s : untouched s (with_rng f s).2.
Proof. by destruct s as [[g c st lg] x]. Qed.

Lemma untouched_trans s1 s2 s3 : untouched s1 s2 -> untouched s2 s3 -> untouched s1 s3.
Proof. intros [? ? ?] [? ? ?]. split; congruence. Qed.

Lemma untouched_injected tid r f mask s1 s2 s3 :
  untouched s1 s2 -> injected tid r f mask s2 s3 -> injected tid r f mask s1 s3.
Proof.
  intros [E1 E2 E3] []. rewrite E1, E2, E3 in *. by split.
Qed.

Lemma untouched_entry e s : untouched s (write_entry e s).2.
Proof. by destruct s as [[g c st lg] x]. Qed.

Lemma pick_class_spec c tid g cl :
  (pick_class p c tid g).1 = Some cl ->
  match reg_target_class_enum p with
  | Integer => cl = IntRegClass
  | FloatingPoint => cl = FloatRegClass
  | Both => cl = IntRegClass \/ cl = FloatRegClass
  end.
Proof.
  unfold pick_class. destruct (reg_target_class_enum p); simpl; repeat case_match; naive_solver.
Qed.

Lemma pick_class_draws c tid g : draws (pick_class p c tid g).2 = draws g.
Proof. unfold pick_class. repeat case_match; done. Qed.

(** The index drawn for a class of [n] registers. *)
Lemma pick_reg_spec now tid n s :
  0 < n ->
  let r := pick_reg p now tid n s in
  untouched s r.2 /\ draws (rng r.2.1) = draws (rng s.1) /\ 0 <= r.1 < n /\
  (0 <= target_reg_idx p < n -> r.1 = target_reg_idx p) /\
  (~ 0 <= target_reg_idx p < n -> 0 < max_reg_idx p -> r.1 < max_reg_idx p \/ n <= max_reg_idx p).
Proof.
  intros Hn. unfold pick_reg. destruct s as [[g c st lg] x].
  destruct ((0 <=? target_reg_idx p) && (target_reg_idx p <? n)) eqn:Ed.
  - bools. unfold log_if, whenM. destruct (write_log p); simpl; split_and!; try done; lia.
  - assert (Hnd : ~ 0 <= target_reg_idx p < n).
    { intros [? ?]. apply andb_false_iff in Ed as [Ed|Ed]; bools; lia. }
    destruct ((0 <? max_reg_idx p) && (max_reg_idx p <? n)) eqn:Em.
    + bools. pose proof (uniform_int_range 0 (max_reg_idx p - 1) g ltac:(lia)).
      cbn in *. split_and!; try done; lia.
    + pose proof (uniform_int_range 0 (n - 1) g ltac:(lia)). cbn in *.
      apply andb_false_iff in Em as [Em|Em]; bools; split_and!; try done; lia.
Qed.

(** The site and the mask [processFault] may choose. *)
Record site_ok (c : CPU) (tid : Z) (d : nat -> Z) (r : RegId) (f : FaultType) (mask : Z) : Prop := {
  site_class : match reg_target_class_enum p with
               | Integer => r.1 = IntRegClass
               | FloatingPoint => r.1 = FloatRegClass
               | Both => r.1 = IntRegClass \/ r.1 = FloatRegClass
               end;
  site_not_xzr : r <> xzr;
  site_range : 0 <= r.2 < numRegs c tid r.1;
  site_directed : 0 <= target_reg_idx p < numRegs c tid r.1 -> r.2 = target_reg_idx p;
  site_bound : ~ 0 <= target_reg_idx p < numRegs c tid r.1 -> 0 < max_reg_idx p ->
    r.2 < max_reg_idx p \/ numRegs c tid r.1 <= max_reg_idx p;
  site_mask : fault_mask p <> 0 -> mask = fault_mask p;
  site_mask64 : uint 64 (fault_mask p) -> uint 64 mask;
  site_random_mask : fault_mask p = 0 -> 0 < fault_mask_width p <= 64 ->
    covers (fault_mask_width p) d ->
    popcount mask = Z.max 0 (Z.min (num_bits_to_change p) (fault_mask_width p)) /\
    uint (fault_mask_width p) mask;
  site_type : fault_type_enum p <> Random -> f = fault_type_enum p
}.

Lemma mask_or_spec g :
  let m := (mask_or (fault_mask p) (generateRandomMask64 (num_bits_to_change p) (fault_mask_width p)) g).1 in
  (fault_mask p <> 0 -> m = fault_mask p) /\ (uint 64 (fault_mask p) -> uint 64 m) /\
  (fault_mask p = 0 -> 0 < fault_mask_width p <= 64 -> covers (fault_mask_width p) (draws g) ->
   popcount m = Z.max 0 (Z.min (num_bits_to_change p) (fault_mask_width p)) /\ uint (fault_mask_width p) m).
Proof.
  unfold mask_or. destruct (Z.eqb_spec (fault_mask p) 0) as [E|E]; simpl.
  - split_and!; [done| |].
    + intros _. apply generateRandomMask64_uint.
    + intros _ Hw Hc. by apply generateRandomMask64_popcount.
  - split_and!; done.
Qed.

Lemma choose_fault_type f ws g : f <> Random -> (choose_fault f ws g).1 = f.
Proof. by destruct f. Qed.

(** Why a call may inject nothing: no context, no ISA, no register of the class, or
    the zero register was hit. *)
Definition skip_reason (c : CPU) (tid : Z) : Prop :=
  getContext c tid = false \/ getIsaPtr c tid = false \/
  match reg_target_class_enum p with
  | Integer => numRegs c tid IntRegClass = 0
  | FloatingPoint => numRegs c tid FloatRegClass = 0
  | Both => numRegs c tid IntRegClass = 0 /\ numRegs c tid FloatRegClass = 0
  end \/
  (reg_target_class_enum p <> FloatingPoint /\
   (target_reg_idx p = 31 \/
    (~ 0 <= target_reg_idx p < numRegs c tid IntRegClass) /\
    (max_reg_idx p <= 0 \/ 31 < max_reg_idx p \/ numRegs c tid IntRegClass <= max_reg_idx p))).

Lemma pick_class_none c tid g :
  (forall k, 0 <= numRegs c tid k) ->
  match (pick_class p c tid g).1 with None => True | Some cl => numRegs c tid cl = 0 end ->
  match reg_target_class_enum p with
  | Integer => numRegs c tid IntRegClass = 0
  | FloatingPoint => numRegs c tid FloatRegClass = 0
  | Both => numRegs c tid IntRegClass = 0 /\ numRegs c tid FloatRegClass = 0
  end.
Proof.
  intros Hn. pose proof (Hn IntRegClass). pose proof (Hn FloatRegClass).
  unfold pick_class. destruct (reg_target_class_enum p).
  - destruct (Z.eqb_spec (numRegs c tid IntRegClass) 0), (Z.eqb_spec (numRegs c tid FloatRegClass) 0),
      (Z.ltb_spec 0 (numRegs c tid IntRegClass)), (Z.ltb_spec 0 (numRegs c tid FloatRegClass));
      cbn [andb fst]; try (destruct (_ =? 0)); intros; lia.
  - destruct (Z.eqb_spec (numRegs c tid IntRegClass) 0); cbn [fst]; intros; lia.
  - destruct (Z.eqb_spec (numRegs c tid FloatRegClass) 0); cbn [fst]; intros; lia.
Qed.

Lemma processFault_effect now tid s :
  (forall k, 0 <= numRegs (cpu s.2) tid k) ->
  let s' := (processFault p now tid s).2 in
  (untouched s s' /\ skip_reason (cpu s.2) tid) \/
  exists r f mask, site_ok (cpu s.2) tid (draws (rng s.1)) r f mask /\ injected tid r f mask s s'.
Proof.
  intros Hn. unfold processFault, bind, get. cbn [fst snd].
  destruct (getContext (cpu s.2) tid) eqn:Ectx; [|left; split; [done|by left]].
  destruct (getIsaPtr (cpu s.2) tid) eqn:Eisa; [|left; split; [done|right; by left]].
  cbn [negb]. cbv beta iota. set (r1 := with_rng (pick_class p (cpu s.2) tid) s).
  assert (Hu1 : untouched s r1.2) by apply untouched_rng.
  assert (Hd1 : draws (rng r1.2.1) = draws (rng s.1)).
  { unfold r1. destruct s as [[g c st lg] x]. apply pick_class_draws. }
  assert (Hr1 : r1.1 = (pick_class p (cpu s.2) tid (rng s.1)).1) by (unfold r1; by destruct s as [[g c st lg] x]).
  pose proof (pick_class_none (cpu s.2) tid (rng s.1) Hn) as Hnone. rewrite <- Hr1 in Hnone.
  destruct r1.1 as [cl|]; [|left; split; [exact Hu1|right; right; left; by apply Hnone]].
  symmetry in Hr1. apply pick_class_spec in Hr1.
  destruct (Z.eqb_spec (numRegs (cpu s.2) tid cl) 0); cbv beta.
  { left. split; [exact Hu1|]. right. right. left. by apply Hnone. }
  assert (Hpos : 0 < numRegs (cpu s.2) tid cl) by (specialize (Hn cl); lia).
  destruct (pick_reg_spec now tid (numRegs (cpu s.2) tid cl) r1.2 Hpos)
    as (Hu2 & Hd2 & Hrange & Hdir & Hbound).
  set (r2 := pick_reg p now tid (numRegs (cpu s.2) tid cl) r1.2) in *.
  set (r3 := with_rng (mask_or (fault_mask p)
     (generateRandomMask64 (num_bits_to_change p) (fault_mask_width p))) r2.2).
  assert (Hu3 : untouched s r3.2) by eauto using untouched_trans, untouched_rng.
  destruct (mask_or_spec (rng r2.2.1)) as (Hm1 & Hm2 & Hm3).
  assert (Hr3 : r3.1 = (mask_or (fault_mask p)
     (generateRandomMask64 (num_bits_to_change p) (fault_mask_width p)) (rng r2.2.1)).1).
  { unfold r3. by destruct r2.2 as [[g c st lg] x]. }
  rewrite Hd2, Hd1 in Hm3. rewrite <- Hr3 in Hm1, Hm2, Hm3.
  destruct ((cl =? IntRegClass) && (r2.1 =? 31)) eqn:Ex.
  { left. split; [eapply untouched_trans; [exact Hu3|apply untouched_entry]|]. right. right. right. bools. subst cl.
    split; [intros E; rewrite E in Hr1; done|].
    destruct (decide (0 <= target_reg_idx p < numRegs (cpu s.2) tid IntRegClass)) as [Hd|Hd]; [left; lia|].
    right. split; [done|]. specialize (Hbound Hd). lia. }
  right. set (r4 := with_rng (choose_fault (fault_type_enum p) (reg_weights p)) r3.2). exists (cl, r2.1), r4.1, r3.1. split.
  - split; simpl; try done.
    + intros [= -> Hx]. rewrite Hx in Ex. done.
    + intros Ht. unfold r4. destruct r3.2 as [[g c st lg] x]. simpl. by apply choose_fault_type.
  - eapply untouched_injected; [|apply inject_injected].
    eapply untouched_trans; [exact Hu3|apply untouched_rng].
Qed.
End Effects.

(** ** Re-application of the permanent faults *)

Section Enforcement.
Context {CPU : Type} `{TCO : ThreadContextsOk CPU} (p : reg_params).
Implicit Types s : core * reg_state CPU.

(** What a check makes of a register, given its entry of [permanent_faults]. *)
Definition enforce (exists_ : bool) (o : option PermanentFault) (v : Z) : Z :=
  match o with
  | Some f => if pf_update f && exists_ then reapply_fault (pf_type f) (pf_mask f) v else v
  | None => v
  end.

(** What a loop of [recheck] leaves alone. *)
Record recheck_frame s s' : Prop := {
  rf_core : s'.1 = s.1;
  rf_perm : permanent_faults s'.2 = permanent_faults s.2;
  rf_attack : attackEvent s'.2 = attackEvent s.2;
  rf_context : forall t, getContext (cpu s'.2) t = getContext (cpu s.2) t
}.

Lemma recheck_one now t r f s :
  let s' := (recheck p now ((t, r), f) s).2 in
  recheck_frame s s' /\
  (writable r = true -> uint 64 (pf_mask f) ->
   getReg (cpu s'.2) t r = enforce (getContext (cpu s.2) t) (Some f) (getReg (cpu s.2) t r)) /\
  (forall t' r', (t, r) <> (t', r') -> getReg (cpu s'.2) t' r' = getReg (cpu s.2) t' r').
Proof.
  destruct s as [c x]. unfold recheck, enforce. destruct (pf_update f); [|done]. cbn [negb].
  unfold bind, get. cbn [fst snd]. destruct (getContext (cpu x) t); [|done].
  cbn. split_and!.
  - split; cbn; try done. intros. apply getContext_setReg.
  - intros Hw Hm. apply getReg_setReg_eq; [done|].
    apply reapply_fault_uint; [lia|done|apply getReg_range].
  - intros. by apply getReg_setReg_ne.
Qed.

Lemma map_find_cons_ne {V} (k k' : Z * RegId) (v : V) m :
  k <> k' -> map_find k' ((k, v) :: m) = map_find k' m.
Proof.
  intros Hne. cbn [map_find]. destruct (negb _ && negb _) eqn:E; [|done]. bools.
  exfalso. apply Hne. by apply kltb_total.
Qed.

Lemma map_sorted_find_head {V} (k : Z * RegId) (v : V) m :
  map_sorted ((k, v) :: m) -> map_find k m = None.
Proof.
  intros [Hall _]. induction m as [|[k2 v2] m IH]; [done|]. apply Forall_cons in Hall as [Hk Hall].
  cbn [map_find]. simpl in Hk. rewrite Hk. simpl. auto.
Qed.

Lemma recheck_all now l s :
  map_sorted l ->
  let s' := (for_each l (recheck p now) s).2 in
  recheck_frame s s' /\
  forall t r, writable r = true -> (forall f, map_find (t, r) l = Some f -> uint 64 (pf_mask f)) ->
    getReg (cpu s'.2) t r =
    enforce (getContext (cpu s.2) t) (map_find (t, r) l) (getReg (cpu s.2) t r).
Proof.
  revert s. induction l as [|[[t0 r0] f0] l IH]; intros s Hs; [done|].
  cbn [for_each]. unfold bind. set (s1 := (recheck p now (t0, r0, f0) s).2).
  destruct (recheck_one now t0 r0 f0 s) as ([E1 E2 E3 E4] & Heq & Hne).
  fold s1 in E1, E2, E3, E4, Heq, Hne.
  pose proof (map_sorted_find_head _ _ _ Hs) as Hnone. destruct Hs as [_ Hs].
  destruct (IH s1 Hs) as ([F1 F2 F3 F4] & Hrest). split.
  - split; [congruence|congruence|congruence|]. intros t. by rewrite F4, E4.
  - intros t r Hw Hm. destruct (decide ((t0, r0) = (t, r))) as [[= <- <-]|Hneq].
    + rewrite Hrest, Hnone; [|done|intros f; rewrite Hnone; done]. cbn [enforce].
      assert (Hhd : map_find (t0, r0) ((t0, r0, f0) :: l) = Some f0).
      { cbn [map_find]. by rewrite !kltb_irrefl. }
      rewrite Hhd in *. apply Heq; [done|]. by apply Hm.
    + rewrite map_find_cons_ne in Hm |- * by done. rewrite Hrest by done.
      rewrite E4. f_equal. by apply Hne.
Qed.
End Enforcement.

(** ** Invariants of runs *)

Section Runs.
Context {CPU : Type} `{TC : ThreadContexts CPU} (p : reg_params).
Implicit Types s : core * reg_state CPU.

(** A property of an injection or of nothing is a property of [processFault]. *)
Lemma processFault_preserves (P : core * reg_state CPU -> Prop) now tid :
  (forall s, P s -> forall k, 0 <= numRegs (cpu s.2) tid k) ->
  (forall s s', untouched s s' -> P s -> P s') ->
  (forall r f mask s s', r <> xzr -> (uint 64 (fault_mask p) -> uint 64 mask) ->
     injected tid r f mask s s' -> P s -> P s') ->
  preserves P (processFault p now tid).
Proof.
  intros Hn Hu Hi s HP. destruct (processFault_effect p now tid s (Hn s HP)) as [[H _]|(r & f & mask & Hs & H)].
  - by eapply Hu.
  - eapply Hi; [| |exact H|done]; apply Hs.
Qed.

(** The periodic event can no longer run its handler. *)
Definition dead (e : evt) : Prop := scheduled e = false \/ squashed e = true.

Definition periodic_dead s : Prop :=
  dead (periodicCheck s.2) /\ forall tid k, 0 <= numRegs (cpu s.2) tid k.

Lemma dead_squash e : dead e -> dead (squash_evt e).
Proof. unfold dead, squash_evt. destruct (scheduled e) eqn:E; simpl; rewrite ?E; tauto. Qed.

Lemma squash_dead e : dead (squash_evt e).
Proof. unfold dead, squash_evt. destruct (scheduled e) eqn:E; simpl; rewrite ?E; tauto. Qed.

(** Actions that do not touch the periodic event or the CPU. *)
Lemma preserves_modify (P : core * reg_state CPU -> Prop) f :
  (forall c x, P (c, x) -> P (c, f x)) -> preserves P (modify f).
Proof. intros H [c x] HP. by apply H. Qed.

Lemma preserves_with_rng {A} (P : core * reg_state CPU -> Prop) (f : engine -> A * engine) :
  (forall s s', untouched s s' -> P s -> P s') -> preserves P (with_rng f).
Proof. intros H s HP. eapply H; [|exact HP]. apply untouched_rng. Qed.

Lemma attackCheck_preserves (P : core * reg_state CPU -> Prop) now :
  (forall s s', untouched s s' -> P s -> P s') ->
  (forall tid, preserves P (processFault p now tid)) ->
  preserves P unscheduleAttackEvent ->
  (forall c x d, cap_reached (max_faults p) (faults_injected_count c) = false ->
     P (c, x) -> P (c, set_attack (schedule_at now d) x)) ->
  preserves P (attackCheck p now).
Proof.
  intros Hu Hp Hun Hsch. unfold attackCheck. destruct (Qeq_bool _ _); [apply preserves_ret|].
  apply preserves_bind.
  { apply preserves_for_each. intros tid s HP. unfold attack_thread, bind, get. cbn [fst snd].
    destruct (active _ _); [|done]. cbn [negb]. unfold whenM. destruct (_ || _); [|done]. by apply Hp. }
  intros _ s HP. unfold bind at 1, get. cbn [fst snd]. destruct (existsb _ _); [|by apply Hun].
  unfold bind at 1, get_count. cbn [fst snd].
  destruct (cap_reached (max_faults p) (faults_injected_count s.1)) eqn:Ec; [by apply Hun|].
  unfold bind. destruct s as [[g c st lg] x]. cbn [with_rng fst snd rng faults_injected_count the_stats the_log].
  unfold whenM. destruct (_ || _); [apply Hsch; [exact Ec|]|]; eapply Hu; try exact HP; done.
Qed.

Lemma preserves_whenM (P : core * reg_state CPU -> Prop) b m : preserves P m -> preserves P (whenM b m).
Proof. unfold whenM. destruct b; [done|]. intros _. apply preserves_ret. Qed.
End Runs.

Section PeriodicCheck.
Context {CPU : Type} `{TCO : ThreadContextsOk CPU} (p : reg_params).
Implicit Types s : core * reg_state CPU.

Lemma periodic_dead_attack now : preserves periodic_dead (attackCheck p now).
Proof.
  apply attackCheck_preserves.
  - intros s s' [E _ _]. unfold periodic_dead. by rewrite E.
  - intros tid. apply processFault_preserves.
    + intros s [_ H]. apply H.
    + intros s s' [E _ _]. unfold periodic_dead. by rewrite E.
    + intros r f mask s s' _ _ Hi [Hd Hn]. split; [by rewrite (inj_periodic _ _ _ _ _ _ Hi)|].
      intros t k. rewrite (inj_cpu _ _ _ _ _ _ Hi), numRegs_setReg. apply Hn.
  - intros [c x] [Hd Hn]. split; [|exact Hn]. apply dead_squash, Hd.
  - intros c x d _ H. exact H.
Qed.

(** Once dead, the periodic check stays dead whatever happens. *)
Lemma periodic_dead_act now a : preserves periodic_dead (act p now a).
Proof.
  destruct a as [| |tid r v]; simpl.
  - intros s HP. unfold fire_attack, bind, get. cbn [fst snd]. destruct (scheduled _); [|exact HP].
    cbn [negb]. apply preserves_whenM; [apply periodic_dead_attack|]. exact HP.
  - intros s [Hd Hn]. unfold fire_periodic, bind, get. cbn [fst snd].
    destruct (scheduled (periodicCheck s.2)) eqn:Es; [|by split].
    destruct Hd as [Hd|Hd]; [congruence|]. cbn [negb]. unfold service_evt at 1. cbn [fst].
    rewrite Hd. split; [by left|exact Hn].
  - intros [c x] [Hd Hn]. split; [exact Hd|]. intros t k. simpl. rewrite numRegs_setReg. apply Hn.
Qed.

Lemma periodic_dead_run l : preserves periodic_dead (run p l).
Proof. apply preserves_for_each. intros na. apply periodic_dead_act. Qed.

(** A dead periodic event changes no register. *)
Lemma periodic_dead_cpu now s :
  periodic_dead s -> cpu (fire_periodic p now s).2.2 = cpu s.2.
Proof.
  intros [Hd _]. unfold fire_periodic, bind, get. cbn [fst snd].
  destruct (scheduled (periodicCheck s.2)) eqn:Es; [|done].
  destruct Hd as [Hd|Hd]; [congruence|]. unfold service_evt at 1. cbn [fst negb].
  by rewrite Hd.
Qed.
End PeriodicCheck.

Section Cap.
Context {CPU : Type} `{TCO : ThreadContextsOk CPU} (p : reg_params).
Context (Hcap : 0 <= max_faults p /\ 0 <= numThreads p /\ max_faults p + numThreads p < 2 ^ 64).
Context (Hmask : uint 64 (fault_mask p)).
Implicit Types s : core * reg_state CPU.

(** The permanent faults recorded: one per register, all stuck, all enforceable. *)
Record perm_wf (m : list ((Z * RegId) * PermanentFault)) : Prop := {
  pw_sorted : map_sorted m;
  pw_entries : Forall (fun e => pf_update e.2 = true /\ is_stuck (pf_type e.2) = true /\
                                uint 64 (pf_mask e.2) /\ e.1.2 <> xzr) m
}.

Definition reg_inv s : Prop :=
  (forall tid k, 0 <= numRegs (cpu s.2) tid k) /\ perm_wf (permanent_faults s.2) /\
  0 <= faults_injected_count s.1.

Lemma reg_inv_untouched s s' : untouched s s' -> reg_inv s -> reg_inv s'.
Proof. intros [E1 E2 _]. unfold reg_inv. by rewrite E1, E2. Qed.

Lemma reg_inv_injected tid r f mask s s' :
  r <> xzr -> (uint 64 (fault_mask p) -> uint 64 mask) ->
  injected tid r f mask s s' -> reg_inv s -> reg_inv s'.
Proof.
  intros Hr Hm Hi (Hn & [Hso He] & Hc). split_and!.
  - intros t k. rewrite (inj_cpu _ _ _ _ _ _ Hi), numRegs_setReg. apply Hn.
  - rewrite (inj_permanent _ _ _ _ _ _ Hi). destruct (is_stuck f) eqn:Ef; [|done].
    split; [by apply map_assign_sorted|]. apply map_assign_Forall; [|done]. simpl. auto.
  - rewrite (inj_count _ _ _ _ _ _ Hi). unfold count_succ. apply Z.mod_pos_bound. lia.
Qed.

Lemma reg_inv_process now tid : preserves reg_inv (processFault p now tid).
Proof.
  apply processFault_preserves.
  - intros s [H _]. apply H.
  - apply reg_inv_untouched.
  - intros r f mask s s'. apply reg_inv_injected.
Qed.

(** One thread of the loop injects at most one fault. *)
Lemma attack_thread_count now tid s :
  reg_inv s -> faults_injected_count s.1 + 1 < 2 ^ 64 ->
  let s' := (attack_thread p now tid s).2 in
  reg_inv s' /\ faults_injected_count s'.1 <= faults_injected_count s.1 + 1 /\
  attackEvent s'.2 = attackEvent s.2.
Proof.
  intros HI Hlt. unfold attack_thread, bind, get. cbn [fst snd].
  destruct (active _ _); [|cbn; split_and!; [done|lia|done]]. cbn [negb]. unfold whenM.
  destruct (_ || _); [|cbn; split_and!; [done|lia|done]].
  split; [by apply reg_inv_process|]. destruct HI as (Hn & _ & Hc).
  destruct (processFault_effect p now tid s (Hn tid)) as [[[E1 E2 _] _]|(r & f & mask & _ & Hi)].
  - rewrite E1, E2. split; [lia|done].
  - rewrite (inj_count _ _ _ _ _ _ Hi), (inj_attack _ _ _ _ _ _ Hi), count_succ_small by lia. split; [lia|done].
Qed.

Lemma attack_loop_count now l s :
  reg_inv s -> faults_injected_count s.1 + Z.of_nat (length l) < 2 ^ 64 ->
  let s' := (for_each l (attack_thread p now) s).2 in
  reg_inv s' /\ faults_injected_count s'.1 <= faults_injected_count s.1 + Z.of_nat (length l) /\
  attackEvent s'.2 = attackEvent s.2.
Proof.
  revert s. induction l as [|tid l IH]; intros s HI Hlt; [cbn; split_and!; [done|lia|done]|].
  cbn [for_each length] in *. unfold bind.
  destruct (attack_thread_count now tid s HI) as (HI1 & Hc1 & He1); [lia|].
  set (s1 := (attack_thread p now tid s).2) in *.
  destruct (IH s1 HI1) as (HI2 & Hc2 & He2); [lia|]. split_and!; [done|lia|congruence].
Qed.

(** The fault cap: the count is below the cap while the attack event is armed, and
    exceeds the cap by less than the number of threads. *)
Definition cap_inv s : Prop :=
  reg_inv s /\ (max_faults p <> 0 ->
    faults_injected_count s.1 <= max_faults p - 1 + Z.max 1 (numThreads p) /\
    (max_faults p <= faults_injected_count s.1 -> scheduled (attackEvent s.2) = false)).

Lemma length_threads : Z.of_nat (length (threads p)) = numThreads p.
Proof. unfold threads. rewrite length_map, length_seq. lia. Qed.

Lemma reg_inv_attack now : preserves reg_inv (attackCheck p now).
Proof.
  apply attackCheck_preserves.
  - apply reg_inv_untouched.
  - intros tid. apply reg_inv_process.
  - intros [c x] H. exact H.
  - intros c x d _ H. exact H.
Qed.

Lemma squash_unscheduled e : scheduled e = false -> squash_evt e = e.
Proof. intros H. unfold squash_evt. by rewrite H. Qed.

Lemma cap_attack now s :
  reg_inv s -> scheduled (attackEvent s.2) = false ->
  (max_faults p <> 0 -> faults_injected_count s.1 < max_faults p) ->
  cap_inv (attackCheck p now s).2.
Proof.
  intros HI He Hlt. split; [by apply reg_inv_attack|]. intros Hm. specialize (Hlt Hm).
  pose (Q := fun s' : core * reg_state CPU =>
    faults_injected_count s'.1 <= max_faults p - 1 + Z.max 1 (numThreads p) /\
    (max_faults p <= faults_injected_count s'.1 -> scheduled (attackEvent s'.2) = false)).
  change (Q (attackCheck p now s).2).
  unfold attackCheck. destruct (Qeq_bool _ _); [unfold Q; cbn; split; [lia|done]|].
  unfold bind at 1. destruct (attack_loop_count now (threads p) s HI) as (HI1 & Hc1 & He1).
  { rewrite length_threads. lia. }
  rewrite length_threads in Hc1. set (s1 := (for_each (threads p) (attack_thread p now) s).2) in *.
  rewrite <- He1 in He. clearbody s1. unfold bind at 1, get. cbn [fst snd].
  assert (Hun : faults_injected_count (unscheduleAttackEvent s1).2.1 = faults_injected_count s1.1 /\
                scheduled (attackEvent (unscheduleAttackEvent s1).2.2) = false).
  { destruct s1 as [c x]. cbn in *. by rewrite squash_unscheduled. }
  destruct Hun as [Hu1 Hu2]. destruct (existsb _ _); [|split; [lia|by intros _]].
  unfold bind at 1, get_count. cbn [fst snd].
  destruct (cap_reached (max_faults p) (faults_injected_count s1.1)) eqn:Ec.
  { split; [lia|by intros _]. }
  assert (Hno : faults_injected_count s1.1 < max_faults p).
  { destruct (Z.lt_ge_cases (faults_injected_count s1.1) (max_faults p)) as [|Hge]; [done|].
    rewrite (proj2 (cap_reached_spec _ _)) in Ec by lia. done. }
  destruct s1 as [[g c st lg] x]. unfold Q, bind, whenM. cbn in *. destruct (_ || _); cbn; split; lia.
Qed.

Lemma reg_inv_recheck now : preserves reg_inv (checkPermanent p now).
Proof.
  intros s (Hn & Hp & Hc). unfold checkPermanent, bind, get. cbn [fst snd].
  set (l := permanent_faults s.2). assert (Hreg : forall l s, (forall tid k, 0 <= numRegs (cpu s.2) tid k) ->
    forall tid k, 0 <= numRegs (cpu (for_each l (recheck p now) s).2.2) tid k).
  { clear -TCO. induction l as [|[[t r] f] l IH]; intros s Hn; [done|]. cbn [for_each]. unfold bind. apply IH.
    unfold recheck. destruct (pf_update f); [|done]. unfold bind, get. cbn [negb fst snd].
    destruct (getContext _ _); [|done]. destruct s as [c x]. cbn. intros. rewrite numRegs_setReg. apply Hn. }
  destruct (recheck_all p now l s (pw_sorted _ Hp)) as [[E1 E2 _ _] _].
  split; [by apply Hreg|]. by rewrite E1, E2.
Qed.

Lemma cap_act now a : preserves cap_inv (act p now a).
Proof.
  intros s HA. pose proof HA as [HI Hc]. destruct a as [| |tid r v]; simpl.
  - unfold fire_attack, bind, get. cbn [fst snd]. destruct (scheduled (attackEvent s.2)) eqn:Es; [|exact HA].
    cbn [negb]. unfold whenM. assert (HI' : reg_inv (modify (set_attack (fun e => (service_evt e).2)) s).2) by exact HI.
    assert (Hlt : max_faults p <> 0 -> faults_injected_count s.1 < max_faults p).
    { intros Hm. destruct (Hc Hm) as [_ H]. destruct (Z.lt_ge_cases (faults_injected_count s.1) (max_faults p)); [done|].
      pose proof (H ltac:(lia)). congruence. }
    destruct (service_evt _).1; [by apply cap_attack|].
    split; [exact HI'|]. intros Hm. cbn. split; [by apply Hc|done].
  - unfold fire_periodic, bind, get. cbn [fst snd]. destruct (scheduled (periodicCheck s.2)); [|exact HA].
    cbn [negb]. set (s1 := (modify (set_periodic (fun e => (service_evt e).2)) s).2).
    assert (Hs1 : cap_inv s1) by (split; [exact HI|exact Hc]). unfold whenM. destruct (service_evt _).1; [|exact Hs1].
    destruct Hs1 as [HI1 Hc1]. split; [by apply reg_inv_recheck|].
    unfold checkPermanent, bind, get. cbn [fst snd].
    destruct (recheck_all p now (permanent_faults s1.2) s1) as [[E1 _ E3 _] _]; [apply HI1|].
    rewrite E1, E3. exact Hc1.
  - destruct s as [c x]. split; [|exact Hc]. destruct HI as (Hn & Hp & Hc'). split; [|done].
    intros t k. simpl. rewrite numRegs_setReg. apply Hn.
Qed.

Lemma cap_run l : preserves cap_inv (run p l).
Proof. apply preserves_for_each. intros na. apply cap_act. Qed.
End Cap.

(** ** The properties *)

(** C18 One call of [processFault] injects exactly one fault at an admissible site,
    or nothing for a stated reason (no context, no ISA, an empty register class, the
    zero register): the chosen register holds the faulted value, every other register
    is unchanged, the counter and the statistics advance by one, a stuck-at fault is
    recorded as permanent, and directed target, index bound, mask and fault type are
    those configured (a random mask has exactly the configured number of bits). *)
Theorem reg_processFault_effect {CPU} `{ThreadContextsOk CPU} p now tid (s : core * reg_state CPU) :
  (forall k, 0 <= numRegs (cpu s.2) tid k) -> uint 64 (fault_mask p) ->
  let s' := (processFault p now tid s).2 in
  (untouched s s' /\ skip_reason p (cpu s.2) tid) \/
  exists r f mask, site_ok p (cpu s.2) tid (draws (rng s.1)) r f mask /\ injected tid r f mask s s' /\
    (writable r = true -> getReg (cpu s'.2) tid r = apply_fault f mask (getReg (cpu s.2) tid r)) /\
    (forall t' r', (tid, r) <> (t', r') -> getReg (cpu s'.2) t' r' = getReg (cpu s.2) t' r').
Proof.
  intros Hn Hm. cbv zeta. destruct (processFault_effect p now tid s Hn) as [|(r & f & mask & Hs & Hi)]; [by left|].
  right. exists r, f, mask. rewrite (inj_cpu _ _ _ _ _ _ Hi). split_and!; [done|done| |].
  - intros Hw. apply getReg_setReg_eq; [done|]. apply apply_fault_uint; [lia| |apply getReg_range].
    by apply (site_mask64 _ _ _ _ _ _ _ Hs).
  - intros t' r' Hne. by apply getReg_setReg_ne.
Qed.

Definition example_params (ft : FaultType) (mx threads : Z) : reg_params :=
  RegParams 1 2 100 0 mx 31 4 0 64 ft [] 50 Integer 0 false threads.

Definition example_state (e : evt) : core * reg_state reg_bank :=
  (Core (Engine Z.of_nat 0) 0 stats0 [],
   RegState (RegBank 2 (fun _ _ => 255)) e (Evt true false 150) []).

Lemma reg_processFault_effect_witness :
  let s := example_state (Evt true false 100) in
  let p := example_params BitFlip 1 1 in
  let s' := (processFault p 100 0 s).2 in
  (untouched s s' /\ skip_reason p (cpu s.2) 0) \/
  exists r f mask, site_ok p (cpu s.2) 0 Z.of_nat r f mask /\ injected 0 r f mask s s' /\
    (writable r = true -> getReg (cpu s'.2) 0 r = apply_fault f mask (getReg (cpu s.2) 0 r)) /\
    (forall t' r', (0, r) <> (t', r') -> getReg (cpu s'.2) t' r' = getReg (cpu s.2) t' r').
Proof.
  apply (reg_processFault_effect (example_params BitFlip 1 1) 100 0 (example_state (Evt true false 100))).
  - intros k. simpl. repeat case_match; lia.
  - split; simpl; lia.
Defined.

(** [checkPermanent] enforces every recorded fault: on well-formed records it
    rewrites each faulty register (of an existing context) so that all bits of its mask
    carry the stuck value, leaves all other registers alone, and a second pass changes
    nothing. *)
Theorem reg_checkPermanent_enforces {CPU} `{ThreadContextsOk CPU} p now (s : core * reg_state CPU) :
  perm_wf (permanent_faults s.2) ->
  let s' := (checkPermanent p now s).2 in
  forall t r, writable r = true ->
    match map_find (t, r) (permanent_faults s.2) with
    | Some f =>
        getContext (cpu s.2) t = true ->
        getReg (cpu s'.2) t r = reapply_fault (pf_type f) (pf_mask f) (getReg (cpu s.2) t r) /\
        stuck_holds (pf_type f) (pf_mask f) (getReg (cpu s'.2) t r) /\
        getReg (cpu (checkPermanent p now s').2.2) t r = getReg (cpu s'.2) t r
    | None => getReg (cpu s'.2) t r = getReg (cpu s.2) t r
    end.
Proof.
  intros Hp s' t r Hw. pose proof Hp as [Hso He].
  assert (Hm : forall f, map_find (t, r) (permanent_faults s.2) = Some f -> pf_update f = true /\ uint 64 (pf_mask f)).
  { intros f Hf. apply map_find_Some_in in Hf. rewrite Forall_forall in He.
    destruct (He _ Hf) as (? & _ & ? & _). done. }
  unfold s', checkPermanent, bind, get. cbn [fst snd].
  destruct (recheck_all p now (permanent_faults s.2) s Hso) as [[E1 E2 E3 E4] Hr].
  set (s1 := (for_each (permanent_faults s.2) (recheck p now) s).2) in *.
  destruct (recheck_all p now (permanent_faults s1.2) s1) as [_ Hr2]; [by rewrite E2|]. rewrite E2 in Hr2.
  specialize (Hr t r Hw (fun f Hf => proj2 (Hm f Hf))). specialize (Hr2 t r Hw (fun f Hf => proj2 (Hm f Hf))).
  rewrite E2.
  destruct (map_find (t, r) (permanent_faults s.2)) as [f|] eqn:Ef; [|exact Hr].
  intros Hctx. destruct (Hm f eq_refl) as [Hu _]. unfold enforce in Hr, Hr2.
  rewrite Hu, Hctx in Hr. rewrite Hu, E4, Hctx in Hr2. cbn [andb] in Hr, Hr2.
  split; [done|]. split; [rewrite Hr; apply reapply_stuck|]. by rewrite Hr2, Hr, reapply_idem.
Qed.

Definition example_stuck : core * reg_state reg_bank :=
  (Core (Engine Z.of_nat 0) 0 stats0 [],
   RegState (RegBank 2 (fun _ _ => 255)) evt0 evt0
     [((0, (IntRegClass, 4)), mkPF StuckAtZero 3 true)]).

Lemma reg_checkPermanent_enforces_witness :
  let p := example_params StuckAtZero 1 1 in
  let s' := (checkPermanent p 150 example_stuck).2 in
  getReg (cpu s'.2) 0 (IntRegClass, 4) = reapply_fault StuckAtZero 3 255 /\
  stuck_holds StuckAtZero 3 (getReg (cpu s'.2) 0 (IntRegClass, 4)) /\
  getReg (cpu (checkPermanent p 150 s').2.2) 0 (IntRegClass, 4) = getReg (cpu s'.2) 0 (IntRegClass, 4).
Proof.
  refine (reg_checkPermanent_enforces (example_params StuckAtZero 1 1) 150 example_stuck _
            0 (IntRegClass, 4) eq_refl eq_refl).
  split; [repeat constructor|]. repeat constructor; simpl; try done; unfold uint; lia.
Defined.

(** The fault cap over whole runs: from a fresh injector, after any sequence of
    attack events, periodic checks and program writes, the number of injected faults
    exceeds [max_faults] by less than the number of threads (so one thread never
    exceeds it); once it is reached no attack is armed, and the recorded permanent
    faults stay well-formed. *)
Theorem reg_cap_invariant {CPU} `{ThreadContextsOk CPU} p l (s : core * reg_state CPU) :
  0 <= max_faults p -> 0 <= numThreads p -> max_faults p + numThreads p < 2 ^ 64 ->
  uint 64 (fault_mask p) -> (forall tid k, 0 <= numRegs (cpu s.2) tid k) ->
  faults_injected_count s.1 = 0 -> permanent_faults s.2 = [] ->
  let s' := (run p l s).2 in
  perm_wf (permanent_faults s'.2) /\
  (max_faults p <> 0 ->
   faults_injected_count s'.1 <= max_faults p - 1 + Z.max 1 (numThreads p) /\
   (max_faults p <= faults_injected_count s'.1 -> scheduled (attackEvent s'.2) = false)).
Proof.
  intros Hm Hn Hw Hf Hr Hc Hp s'.
  assert (Hi : cap_inv p s).
  { split; [|rewrite Hc; lia]. split; [done|]. rewrite Hp, Hc. split; [by split|done]. }
  destruct (cap_run p (conj Hm (conj Hn Hw)) Hf l s Hi) as [(_ & Hwf & _) Hcap]. by split.
Qed.

Lemma reg_cap_invariant_witness :
  let l := [(100, FireAttack); (150, FirePeriodic); (200, FireAttack)] in
  let s' := (run (example_params StuckAtOne 1 1) l (example_state (Evt true false 100))).2 in
  perm_wf (permanent_faults s'.2) /\
  (1 <> 0 -> faults_injected_count s'.1 <= 1 - 1 + Z.max 1 1 /\
   (1 <= faults_injected_count s'.1 -> scheduled (attackEvent s'.2) = false)).
Proof.
  apply (reg_cap_invariant (example_params StuckAtOne 1 1)); [simpl; lia|simpl; lia|simpl; lia| | | |].
  - split; simpl; lia.
  - intros tid k. simpl. repeat case_match; lia.
  - reflexivity.
  - reflexivity.
Defined.

(** The periodic check can die: if it finds no permanent fault it is not
    rescheduled (the call is inside the loop), and from then on, whatever is injected,
    no run ever makes it execute or change a register again. *)
Theorem reg_periodic_check_dies {CPU} `{ThreadContextsOk CPU} p now l (s : core * reg_state CPU) :
  permanent_faults s.2 = [] -> (forall tid k, 0 <= numRegs (cpu s.2) tid k) ->
  let s' := (run p ((now, FirePeriodic) :: l) s).2 in
  dead (periodicCheck s'.2) /\
  forall later, cpu (act p later FirePeriodic s').2.2 = cpu s'.2.
Proof.
  intros Hp Hn s'.
  assert (Hd : periodic_dead (act p now FirePeriodic s).2).
  { unfold act, fire_periodic, bind, get. cbn [fst snd].
    destruct (scheduled (periodicCheck s.2)) eqn:Es; cbn [negb]; [|split; [by left|done]].
    unfold whenM. destruct (service_evt _).1; [|split; [by left|done]].
    unfold checkPermanent, bind, get. cbn [fst snd modify set_periodic permanent_faults].
    rewrite Hp. split; [by left|done]. }
  assert (Hs : periodic_dead s') by exact (periodic_dead_run p l _ Hd).
  split; [apply Hs|]. intros later. by apply periodic_dead_cpu.
Qed.

Lemma reg_periodic_check_dies_witness :
  let s' := (run (example_params StuckAtOne 1 1) [(150, FirePeriodic); (200, FireAttack)]
              (example_state (Evt true false 200))).2 in
  dead (periodicCheck s'.2) /\
  forall later, cpu (act (example_params StuckAtOne 1 1) later FirePeriodic s').2.2 = cpu s'.2.
Proof.
  apply (reg_periodic_check_dies (example_params StuckAtOne 1 1) 150 [(200, FireAttack)]
           (example_state (Evt true false 200))).
  - reflexivity.
  - intros tid k. simpl. repeat case_match; lia.
Defined.

(** Reaching the cap ends the enforcement of stuck faults: an attack that leaves
    the count at [max_faults] (with a live context) squashes the periodic check too,
    and no later run ever re-applies the recorded faults. *)
Theorem reg_cap_stops_enforcement {CPU} `{ThreadContextsOk CPU} p now l (s : core * reg_state CPU) :
  (forall tid k, 0 <= numRegs (cpu s.2) tid k) -> Qeq_bool (probability p) 0 = false ->
  let s0 := (for_each (threads p) (attack_thread p now) s).2 in
  existsb (active (cpu s0.2)) (threads p) = true ->
  cap_reached (max_faults p) (faults_injected_count s0.1) = true ->
  let s' := (run p l (attackCheck p now s).2).2 in
  dead (periodicCheck s'.2) /\
  forall later, cpu (act p later FirePeriodic s').2.2 = cpu s'.2.
Proof.
  intros Hn Hq s0 Ha Hc s'.
  assert (Hn0 : forall tid k, 0 <= numRegs (cpu s0.2) tid k).
  { apply (preserves_for_each (fun s : core * reg_state CPU => forall tid k, 0 <= numRegs (cpu s.2) tid k)
             (threads p) (attack_thread p now)); [|exact Hn].
    intros tid s1 H1. unfold attack_thread, bind, get. cbn [fst snd].
    destruct (active _ _); [|exact H1]. cbn [negb]. unfold whenM. destruct (_ || _); [|exact H1].
    destruct (processFault_effect p now tid s1 (H1 tid)) as [[[-> _ _] _]|(r & f & mask & _ & Hi)]; [done|].
    intros t k. rewrite (inj_cpu _ _ _ _ _ _ Hi), numRegs_setReg. apply H1. }
  assert (Hd : periodic_dead (attackCheck p now s).2).
  { unfold attackCheck. rewrite Hq. unfold bind at 1. fold s0. clearbody s0. unfold bind at 1, get. cbn [fst snd].
    rewrite Ha. unfold bind at 1, get_count. cbn [fst snd]. rewrite Hc.
    destruct s0 as [c x]. split; [apply squash_dead|exact Hn0]. }
  assert (Hs : periodic_dead s') by exact (periodic_dead_run p l _ Hd).
  split; [apply Hs|]. intros later. by apply periodic_dead_cpu.
Qed.

Lemma reg_cap_stops_enforcement_witness :
  let s' := (run (example_params StuckAtZero 1 1) [(150, FirePeriodic)]
     (attackCheck (example_params StuckAtZero 1 1) 100 (example_state evt0)).2).2 in
  dead (periodicCheck s'.2) /\
  forall later, cpu (act (example_params StuckAtZero 1 1) later FirePeriodic s').2.2 = cpu s'.2.
Proof.
  apply (reg_cap_stops_enforcement (example_params StuckAtZero 1 1) 100 [(150, FirePeriodic)] (example_state evt0)).
  - intros tid k. simpl. repeat case_match; lia.
  - reflexivity.
  - vm_compute. reflexivity.
  - vm_compute. reflexivity.
Defined.
