(* ===== verification/RegFile.v ===== *)
(** * The physical register file with its injection hooks

    [PhysRegFile] of the O3 CPU (cpu/o3/regfile.hh): scalar and vector accessors, the
    read-trace that counts reads of an injected value until its slot is written, and
    the stuck-at mask on the write path.  Reads return the new register file because
    the trace counter moves.  The theorems characterise both hooks over arbitrary
    sequences of accesses. *)

From stdpp Require Import base list numbers strings.
From Stdlib Require Import ZArith Lia.
From S2P Require Import Prelude Word ThreadContext.

Definition VecRegClass : Z := 2.
Definition VecElemClass : Z := 3.
Definition VecPredRegClass : Z := 4.
Definition MatRegClass : Z := 5.
Definition CCRegClass : Z := 6.
Definition MiscRegClass : Z := 7.
Definition InvalidRegClass : Z := -1.

Record physregfile := PhysRegFile {
  scalars : RegId -> Z;                 (* int, float, vecelem, cc *)
  vectors : RegId -> list Z;            (* vec, pred, mat: bytes *)
  trace_type : Z; trace_idx : Z;
  reads_before_overwrite : Z; trace_overwritten : bool;
  stuck_type : Z; stuck_idx : Z; stuck_mask : Z; stuck_polarity : Z
}.

Definition set_scalar (rf : physregfile) (r : RegId) (v : Z) : physregfile :=
  PhysRegFile (fun r' => if decide (r' = r) then v else scalars rf r') (vectors rf)
    (trace_type rf) (trace_idx rf) (reads_before_overwrite rf) (trace_overwritten rf)
    (stuck_type rf) (stuck_idx rf) (stuck_mask rf) (stuck_polarity rf).

Definition set_vector (rf : physregfile) (r : RegId) (v : list Z) : physregfile :=
  PhysRegFile (scalars rf) (fun r' => if decide (r' = r) then v else vectors rf r')
    (trace_type rf) (trace_idx rf) (reads_before_overwrite rf) (trace_overwritten rf)
    (stuck_type rf) (stuck_idx rf) (stuck_mask rf) (stuck_polarity rf).

Definition set_trace (rf : physregfile) (ty idx reads : Z) (over : bool) : physregfile :=
  PhysRegFile (scalars rf) (vectors rf) ty idx reads over
    (stuck_type rf) (stuck_idx rf) (stuck_mask rf) (stuck_polarity rf).

Definition setReadTraceTarget (rf : physregfile) (type idx : Z) : physregfile :=
  set_trace rf type idx 0 false.

Definition clearReadTraceTarget (rf : physregfile) : physregfile :=
  set_trace rf InvalidRegClass (-1) (reads_before_overwrite rf) (trace_overwritten rf).

Definition set_stuck (rf : physregfile) (ty idx mask pol : Z) : physregfile :=
  PhysRegFile (scalars rf) (vectors rf)
    (trace_type rf) (trace_idx rf) (reads_before_overwrite rf) (trace_overwritten rf) ty idx mask pol.

Definition setStuckTarget (rf : physregfile) (type idx mask pol : Z) : physregfile :=
  set_stuck rf type idx mask pol.

Definition clearStuckTarget (rf : physregfile) : physregfile :=
  set_stuck rf InvalidRegClass (-1) 0 0.

(** [if (trace_type == T && !trace_overwritten && idx == trace_idx)
       ++reads_before_overwrite;] *)
Definition count_read (rf : physregfile) (class idx : Z) : physregfile :=
  if (trace_type rf =? class) && negb (trace_overwritten rf) && (idx =? trace_idx rf)
  then set_trace rf (trace_type rf) (trace_idx rf) (u64 (reads_before_overwrite rf + 1)) (trace_overwritten rf)
  else rf.

(** [if (trace_type == T && idx == trace_idx) trace_overwritten = true;] *)
Definition note_write (rf : physregfile) (class idx : Z) : physregfile :=
  if (trace_type rf =? class) && (idx =? trace_idx rf)
  then set_trace rf (trace_type rf) (trace_idx rf) (reads_before_overwrite rf) true
  else rf.

(** The stuck-at mask of the write path. *)
Definition stuck_write (rf : physregfile) (class idx v : Z) : Z :=
  if (stuck_type rf =? class) && (idx =? stuck_idx rf) then
    if stuck_polarity rf =? 0 then Z.land v (Z.lnot (stuck_mask rf)) else Z.lor v (stuck_mask rf)
  else v.

(** [PhysRegFile::getReg(phys_reg)]; [None] is the panic of an unsupported class. *)
Definition rf_getReg (rf : physregfile) (r : RegId) : option (Z * physregfile) :=
  let '(class, idx) := r in
  if (class =? IntRegClass) || (class =? FloatRegClass) then Some (scalars rf r, count_read rf class idx)
  else if (class =? VecElemClass) || (class =? CCRegClass) then Some (scalars rf r, rf)
  else None.

(** The eight bytes of a [RegVal] in a buffer. *)
Definition le_bytes (v : Z) : list Z := write_window (replicate 8 0) 0 8 v.

(** [PhysRegFile::getReg] into a buffer. *)
Definition rf_getRegV (rf : physregfile) (r : RegId) : option (list Z * physregfile) :=
  let '(class, idx) := r in
  if (class =? IntRegClass) || (class =? FloatRegClass) || (class =? VecElemClass) || (class =? CCRegClass) then
    match rf_getReg rf r with Some (v, rf') => Some (le_bytes v, rf') | None => None end
  else if class =? VecRegClass then Some (vectors rf r, count_read rf class idx)
  else if (class =? VecPredRegClass) || (class =? MatRegClass) then Some (vectors rf r, rf)
  else None.

(** [PhysRegFile::setReg(phys_reg, RegVal)] *)
Definition rf_setReg (rf : physregfile) (r : RegId) (v : Z) : option physregfile :=
  let '(class, idx) := r in
  if class =? InvalidRegClass then Some rf
  else if (class =? IntRegClass) || (class =? FloatRegClass) then
    let rf1 := note_write rf class idx in
    Some (set_scalar rf1 r (stuck_write rf1 class idx v))
  else if (class =? VecElemClass) || (class =? CCRegClass) then Some (set_scalar rf r v)
  else None.

(** [PhysRegFile::setReg] from a buffer. *)
Definition rf_setRegV (rf : physregfile) (r : RegId) (bytes : list Z) : option physregfile :=
  let '(class, idx) := r in
  if (class =? IntRegClass) || (class =? FloatRegClass) || (class =? VecElemClass) || (class =? CCRegClass)
  then rf_setReg rf r (read_window bytes 0 8)
  else if class =? VecRegClass then Some (set_vector (note_write rf class idx) r bytes)
  else if (class =? VecPredRegClass) || (class =? MatRegClass) then Some (set_vector rf r bytes)
  else None.

(** A write through the pointer of [PhysRegFile::getWritableReg]. *)
Definition rf_writePtr (rf : physregfile) (r : RegId) (bytes : list Z) : option physregfile :=
  if (r.1 =? VecRegClass) || (r.1 =? VecPredRegClass) || (r.1 =? MatRegClass)
  then Some (set_vector rf r bytes) else None.

(** ** Sequences of accesses; an access that panics leaves the file alone. *)

Inductive rf_op :=
  | OpGet (r : RegId) | OpGetV (r : RegId)
  | OpSet (r : RegId) (v : Z) | OpSetV (r : RegId) (bytes : list Z)
  | OpPtr (r : RegId) (bytes : list Z).

Definition rf_exec (rf : physregfile) (o : rf_op) : physregfile :=
  match o with
  | OpGet r => match rf_getReg rf r with Some (_, rf') => rf' | None => rf end
  | OpGetV r => match rf_getRegV rf r with Some (_, rf') => rf' | None => rf end
  | OpSet r v => default rf (rf_setReg rf r v)
  | OpSetV r b => default rf (rf_setRegV rf r b)
  | OpPtr r b => default rf (rf_writePtr rf r b)
  end.

Definition rf_run (rf : physregfile) (l : list rf_op) : physregfile := fold_left rf_exec l rf.

(** ** Reference: what the trace is meant to measure *)

(** A read, a write of the traced slot [r] (class int, float or vec). *)
Definition reads_slot (r : RegId) (o : rf_op) : bool :=
  match o with
  | OpGet r' => bool_decide (r' = r) && negb (r.1 =? VecRegClass)
  | OpGetV r' => bool_decide (r' = r)
  | _ => false
  end.

Definition writes_slot (r : RegId) (o : rf_op) : bool :=
  match o with
  | OpSet r' _ => bool_decide (r' = r) && negb (r.1 =? VecRegClass)
  | OpSetV r' _ => bool_decide (r' = r)
  | _ => false
  end.

(** Reads of the slot before the first write to it. *)
Fixpoint reads_until_write (r : RegId) (l : list rf_op) : Z :=
  match l with
  | [] => 0
  | o :: l' => if writes_slot r o then 0 else (if reads_slot r o then 1 else 0) + reads_until_write r l'
  end.

Definition traceable (r : RegId) : Prop := r.1 = IntRegClass \/ r.1 = FloatRegClass \/ r.1 = VecRegClass.

(** * Lemmas *)

(** ** The read trace *)

Ltac class_cases :=
  repeat match goal with
  | |- context [?a =? ?b] => destruct (Z.eqb_spec a b); simpl
  | |- context [bool_decide ?P] => destruct (bool_decide_reflect P); simpl
  end.

(** One access, seen by a trace on [r]. *)
Lemma rf_exec_trace rf o r :
  traceable r -> trace_type rf = r.1 -> trace_idx rf = r.2 ->
  trace_type (rf_exec rf o) = r.1 /\ trace_idx (rf_exec rf o) = r.2 /\
  reads_before_overwrite (rf_exec rf o) =
    (if reads_slot r o && negb (trace_overwritten rf)
     then u64 (reads_before_overwrite rf + 1) else reads_before_overwrite rf) /\
  trace_overwritten (rf_exec rf o) = trace_overwritten rf || writes_slot r o.
Proof.
  destruct r as [c i]. unfold traceable. cbn [fst snd]. intros Hc Ht Hi.
  destruct (trace_overwritten rf) eqn:Ho;
  (destruct o as [[c' i']|[c' i']|[c' i'] v|[c' i'] v|[c' i'] v];
    unfold rf_exec, rf_getRegV, rf_getReg, rf_setRegV, rf_setReg, rf_writePtr, count_read, note_write,
      reads_slot, writes_slot, IntRegClass, FloatRegClass, VecRegClass, VecElemClass, VecPredRegClass,
      MatRegClass, CCRegClass, InvalidRegClass in *; cbn [fst snd]; rewrite ?Ht, ?Hi, ?Ho;
    class_cases; simpl; rewrite ?Ht, ?Hi, ?Ho; split_and!; try done; exfalso; try lia;
    simplify_eq; try lia; try congruence).
Qed.

Lemma rf_run_trace l rf r :
  traceable r -> trace_type rf = r.1 -> trace_idx rf = r.2 ->
  let rf' := rf_run rf l in
  trace_overwritten rf' = trace_overwritten rf || existsb (writes_slot r) l /\
  forall n, reads_before_overwrite rf = u64 n ->
    reads_before_overwrite rf' = u64 (n + if trace_overwritten rf then 0 else reads_until_write r l).
Proof.
  revert rf. induction l as [|o l IH]; intros rf Hr Ht Hi; cbn [rf_run fold_left existsb reads_until_write].
  - rewrite orb_false_r. split; [done|]. intros n Hn. rewrite Hn. destruct (trace_overwritten rf); f_equal; lia.
  - destruct (rf_exec_trace rf o r Hr Ht Hi) as (Ht' & Hi' & Hreads & Hover).
    destruct (IH (rf_exec rf o) Hr Ht' Hi') as [Ho Hn]. fold (rf_run (rf_exec rf o) l).
    rewrite Ho, Hover. split; [by rewrite orb_assoc|].
    intros n Hrn. rewrite Hreads, Hover in *.
    destruct (trace_overwritten rf) eqn:Eo; simpl in *.
    + rewrite andb_false_r in *. apply Hn. done.
    + rewrite andb_true_r in *. destruct (writes_slot r o) eqn:Ew.
      * assert (reads_slot r o = false) as Er by (destruct o; done). rewrite Er in *. apply Hn. done.
      * destruct (reads_slot r o).
        -- rewrite (Hn (n + 1)); [f_equal; lia|]. rewrite Hrn. unfold u64. by rewrite Zplus_mod_idemp_l.
        -- by rewrite (Hn n Hrn).
Qed.

(** ** The stuck-at write path *)

Definition polarity_fault (pol : Z) : FaultType := if pol =? 0 then StuckAtZero else StuckAtOne.

(** The armed cell carries its stuck bits. *)
Definition stuck_ok (rf : physregfile) : Prop :=
  stuck_holds (polarity_fault (stuck_polarity rf)) (stuck_mask rf) (scalars rf (stuck_type rf, stuck_idx rf)).

Definition same_stuck (rf rf' : physregfile) : Prop :=
  stuck_type rf' = stuck_type rf /\ stuck_idx rf' = stuck_idx rf /\
  stuck_mask rf' = stuck_mask rf /\ stuck_polarity rf' = stuck_polarity rf.

Lemma count_read_frame rf c i :
  same_stuck rf (count_read rf c i) /\ scalars (count_read rf c i) = scalars rf /\
  vectors (count_read rf c i) = vectors rf.
Proof. unfold count_read, same_stuck. by destruct (_ && _ && _). Qed.

Lemma note_write_frame rf c i :
  same_stuck rf (note_write rf c i) /\ scalars (note_write rf c i) = scalars rf /\
  vectors (note_write rf c i) = vectors rf.
Proof. unfold note_write, same_stuck. by destruct (_ && _). Qed.

Lemma stuck_write_hit rf v :
  stuck_write rf (stuck_type rf) (stuck_idx rf) v =
  reapply_fault (polarity_fault (stuck_polarity rf)) (stuck_mask rf) v.
Proof.
  unfold stuck_write, polarity_fault. rewrite !Z.eqb_refl. simpl. by destruct (_ =? 0).
Qed.

(** What a scalar write stores. *)
Lemma rf_setReg_vectors rf r v rf' :
  r.1 = IntRegClass \/ r.1 = FloatRegClass -> rf_setReg rf r v = Some rf' -> vectors rf' = vectors rf.
Proof.
  destruct r as [c i]. cbn [fst]. intros Hc. unfold rf_setReg.
  replace (c =? InvalidRegClass) with false by (destruct Hc as [-> | ->]; done).
  replace ((c =? IntRegClass) || (c =? FloatRegClass)) with true by (destruct Hc as [-> | ->]; done).
  intros [= <-]. cbn. apply note_write_frame.
Qed.

Lemma rf_setReg_scalar rf r v :
  r.1 = IntRegClass \/ r.1 = FloatRegClass ->
  exists rf', rf_setReg rf r v = Some rf' /\ same_stuck rf rf' /\
    scalars rf' r = (if decide (r = (stuck_type rf, stuck_idx rf))
                     then reapply_fault (polarity_fault (stuck_polarity rf)) (stuck_mask rf) v else v) /\
    (forall r', r' <> r -> scalars rf' r' = scalars rf r').
Proof.
  destruct r as [c i]. cbn [fst]. intros Hc. unfold rf_setReg.
  replace (c =? InvalidRegClass) with false by (destruct Hc as [-> | ->]; done).
  replace ((c =? IntRegClass) || (c =? FloatRegClass)) with true by (destruct Hc as [-> | ->]; done).
  destruct (note_write_frame rf c i) as ((S1 & S2 & S3 & S4) & Hs & _).
  eexists. split; [done|]. split; [done|]. cbn [scalars set_scalar]. split.
  - rewrite decide_True by done. case_decide as Hd.
    + injection Hd as -> ->. unfold stuck_write, polarity_fault. rewrite S1, S2, S3, S4, !Z.eqb_refl. simpl.
      by destruct (_ =? 0).
    + unfold stuck_write. rewrite S1, S2. destruct (Z.eqb_spec (stuck_type rf) c), (Z.eqb_spec i (stuck_idx rf));
        simpl; try done. subst. done.
  - intros r' Hr'. rewrite decide_False by done. by rewrite Hs.
Qed.

Lemma rf_exec_stuck rf o :
  stuck_type rf = IntRegClass \/ stuck_type rf = FloatRegClass ->
  stuck_ok rf -> same_stuck rf (rf_exec rf o) /\ stuck_ok (rf_exec rf o).
Proof.
  intros Hty Hok.
  assert (Hkeep : forall rf', same_stuck rf rf' -> scalars rf' (stuck_type rf, stuck_idx rf) =
            scalars rf (stuck_type rf, stuck_idx rf) -> same_stuck rf rf' /\ stuck_ok rf').
  { intros rf' Hs Heq. split; [done|]. destruct Hs as (S1 & S2 & S3 & S4).
    unfold stuck_ok. rewrite S1, S2, S3, S4, Heq. exact Hok. }
  assert (Hset : forall r v, same_stuck rf (default rf (rf_setReg rf r v)) /\
                             stuck_ok (default rf (rf_setReg rf r v))).
  { intros r v. destruct (decide (r.1 = IntRegClass \/ r.1 = FloatRegClass)) as [Hr|Hr].
    - destruct (rf_setReg_scalar rf r v Hr) as (rf' & -> & Hs & Hv & Hf). simpl.
      destruct (decide (r = (stuck_type rf, stuck_idx rf))) as [->|Hne].
      + split; [done|]. destruct Hs as (S1 & S2 & S3 & S4). unfold stuck_ok.
        rewrite S1, S2, S3, S4, Hv, decide_True by done. apply reapply_stuck.
      + apply Hkeep; [done|]. apply Hf. congruence.
    - destruct r as [c i]. unfold rf_setReg. cbn [fst] in Hr.
      destruct (c =? InvalidRegClass); [by apply Hkeep|].
      destruct (Z.eqb_spec c IntRegClass); [tauto|]. destruct (Z.eqb_spec c FloatRegClass); [tauto|].
      cbn [orb]. destruct (_ || _); [|by apply Hkeep]. apply Hkeep; [done|].
      simpl. rewrite decide_False; [done|].
      intros [= ? ?]. destruct Hty; congruence. }
  assert (Hvec : forall r b, same_stuck rf (set_vector rf r b) /\ stuck_ok (set_vector rf r b)).
  { intros. by apply Hkeep. }
  assert (Hread : forall c i, same_stuck rf (count_read rf c i) /\ stuck_ok (count_read rf c i)).
  { intros c i. destruct (count_read_frame rf c i) as (Hs & Hv & _). apply Hkeep; [done|by rewrite Hv]. }
  assert (Hself : same_stuck rf rf /\ stuck_ok rf) by (by apply Hkeep).
  destruct o as [[c i]|[c i]|r v|[c i] b|[c i] b]; unfold rf_exec, rf_getReg, rf_getRegV, rf_setRegV, rf_writePtr.
  - repeat case_match; simplify_eq; auto.
  - unfold rf_getReg. repeat case_match; simplify_eq; auto.
  - apply Hset.
  - destruct (_ || _); [apply Hset|]. destruct (c =? VecRegClass).
    + destruct (note_write_frame rf c i) as (Hs & Hv & _). apply Hkeep; [exact Hs|]. simpl. by rewrite Hv.
    + destruct (_ || _); [apply Hvec|by apply Hkeep].
  - destruct (_ || _); [apply Hvec|by apply Hkeep].
Qed.

Lemma rf_run_stuck l rf :
  stuck_type rf = IntRegClass \/ stuck_type rf = FloatRegClass ->
  stuck_ok rf -> same_stuck rf (rf_run rf l) /\ stuck_ok (rf_run rf l).
Proof.
  revert rf. induction l as [|o l IH]; intros rf Hty Hok; [done|].
  destruct (rf_exec_stuck rf o Hty Hok) as [(S1 & S2 & S3 & S4) Hok'].
  destruct (IH (rf_exec rf o)) as [(T1 & T2 & T3 & T4) Hfin]; [by rewrite S1|done|].
  split; [|exact Hfin]. split_and!; simpl; congruence.
Qed.

(** The read trace measures what it says: after [setReadTraceTarget] on an
    integer, float or vector slot, over any sequence of register-file accesses, the
    counter is the number of reads of the slot before the first [setReg] to it (modulo
    2^64), and the overwritten flag tells whether there was one. *)
Theorem read_trace_exact rf l r :
  traceable r ->
  let rf' := rf_run (setReadTraceTarget rf r.1 r.2) l in
  reads_before_overwrite rf' = u64 (reads_until_write r l) /\
  trace_overwritten rf' = existsb (writes_slot r) l.
Proof.
  intros Hr. destruct (rf_run_trace l (setReadTraceTarget rf r.1 r.2) r Hr eq_refl eq_refl) as [Ho Hn].
  split; [|exact Ho]. apply (Hn 0). reflexivity.
Qed.

Definition example_rf : physregfile :=
  PhysRegFile (fun _ => 7) (fun _ => replicate 16 1) (-1) (-1) 0 false (-1) (-1) 0 0.

Lemma read_trace_exact_witness :
  let l := [OpGet (0, 3); OpGet (1, 3); OpGet (0, 3); OpSet (0, 3) 9; OpGet (0, 3)] in
  let rf' := rf_run (setReadTraceTarget example_rf 0 3) l in
  reads_before_overwrite rf' = u64 2 /\ trace_overwritten rf' = true.
Proof.
  exact (read_trace_exact example_rf
    [OpGet (0, 3); OpGet (1, 3); OpGet (0, 3); OpSet (0, 3) 9; OpGet (0, 3)] (0, 3) (or_introl eq_refl)).
Defined.

(** A stuck cell stays stuck: once the write-path mask is armed on an integer or
    float slot whose stuck bits hold, they hold after any sequence of accesses, the
    armed target does not move, and a write stores exactly its value with the stuck
    bits forced while every other slot stores its value unchanged. *)
Theorem stuck_cell_invariant rf l class idx mask pol v r :
  class = IntRegClass \/ class = FloatRegClass ->
  stuck_holds (polarity_fault pol) mask (scalars rf (class, idx)) ->
  r.1 = IntRegClass \/ r.1 = FloatRegClass ->
  let rf' := rf_run (setStuckTarget rf class idx mask pol) l in
  stuck_holds (polarity_fault pol) mask (scalars rf' (class, idx)) /\
  exists rf'', rf_setReg rf' r v = Some rf'' /\
    scalars rf'' r = (if decide (r = (class, idx)) then reapply_fault (polarity_fault pol) mask v else v) /\
    (forall r', r' <> r -> scalars rf'' r' = scalars rf' r').
Proof.
  intros Hc Hs Hr rf'.
  destruct (rf_run_stuck l (setStuckTarget rf class idx mask pol) Hc Hs) as [(S1 & S2 & S3 & S4) Hok].
  fold rf' in S1, S2, S3, S4, Hok. simpl in S1, S2, S3, S4.
  destruct (rf_setReg_scalar rf' r v Hr) as (rf'' & Hset & _ & Hv & Hf).
  unfold stuck_ok in Hok. rewrite S1, S2, S3, S4 in Hok, Hv. split; [done|]. by exists rf''.
Qed.

Lemma stuck_cell_invariant_witness :
  let rf' := rf_run (setStuckTarget example_rf 0 3 8 0) [OpSet (0, 3) 255] in
  stuck_holds StuckAtZero 8 (scalars rf' (0, 3)) /\
  exists rf'', rf_setReg rf' (0, 3) 15 = Some rf'' /\
    scalars rf'' (0, 3) = reapply_fault StuckAtZero 8 15 /\
    (forall r', r' <> (0, 3) -> scalars rf'' r' = scalars rf' r').
Proof.
  apply (stuck_cell_invariant example_rf [OpSet (0, 3) 255] 0 3 8 0 15 (0, 3)).
  - by left.
  - intros i Hi Hm. simpl. change 8 with (Z.shiftl 1 3) in Hm.
    rewrite testbit_1_shiftl in Hm by lia. apply Z.eqb_eq in Hm. subst. reflexivity.
  - by left.
Defined.

(** Vector results written through [getWritableReg] escape the trace: the slot
    takes the new bytes, yet the trace reports it as not overwritten and keeps counting
    the reads of the new value. *)
Theorem vec_pointer_write_untraced rf idx bytes n :
  let r := (VecRegClass, idx) in
  let rf' := rf_run (setReadTraceTarget rf VecRegClass idx) (OpPtr r bytes :: replicate n (OpGetV r)) in
  vectors rf' r = bytes /\ trace_overwritten rf' = false /\
  reads_before_overwrite rf' = u64 (Z.of_nat n).
Proof.
  intros r rf'. pose (rf1 := set_vector (setReadTraceTarget rf VecRegClass idx) r bytes).
  change rf' with (rf_run rf1 (replicate n (OpGetV r))).
  assert (Hr : traceable r) by (right; by right).
  assert (Hw : existsb (writes_slot r) (replicate n (OpGetV r)) = false) by (induction n; done).
  assert (Hu : reads_until_write r (replicate n (OpGetV r)) = Z.of_nat n).
  { clear. induction n as [|n IH]; [done|]. cbn [replicate reads_until_write].
    rewrite IH. cbn [writes_slot reads_slot]. rewrite bool_decide_true by done. lia. }
  assert (Hv : vectors (rf_run rf1 (replicate n (OpGetV r))) r = vectors rf1 r).
  { clear. generalize rf1 as x. induction n as [|n IH]; intros x; [done|].
    change (vectors (rf_run (rf_exec x (OpGetV r)) (replicate n (OpGetV r))) r = vectors x r).
    rewrite IH. simpl. destruct (count_read_frame x VecRegClass idx) as (_ & _ & Hv).
    by rewrite Hv. }
  destruct (rf_run_trace (replicate n (OpGetV r)) rf1 r Hr eq_refl eq_refl) as [Ho Hn].
  rewrite Hv, Ho, Hw, (Hn 0 eq_refl), Hu. split; [|done].
  cbn. by rewrite decide_True.
Qed.
