(* ===== verification/Rename.v ===== *)
(** * Register renaming of the O3 CPU

    The rename maps, the free lists, the history buffer and the squash and commit paths
    of [Rename] (cpu/o3/rename_map.*, free_list.hh, rename.cc), with the hook
    [CHAOSROB::maybeDelayFree] that makes a squash leak a register.  The central
    theorem is the conservation of physical registers: every path only moves them
    between free list, rename map, history and the registers being freed, except for
    the registers the hook leaks, one per injected fault. *)

From Stdlib Require Import ZArith Lia QArith.
From stdpp Require Import base list numbers strings.
From S2P Require Import Prelude Word Random EventQueue ThreadContext RegFile.

Open Scope Z_scope.

(** [RenameHistory] *)
Record hist_entry := Hist { instSeqNum : Z; archReg : RegId; newPhysReg : RegId; prevPhysReg : RegId }.

(** The counters of a [PhysRegId]. *)
Record pin_state := Pin { numPinnedWrites : Z; numPinnedWritesToComplete : Z; pinned : bool }.

(** What the rename stage keeps beside the maps: the pin counters, the scoreboard and
    its statistics. *)
Record bookkeeping := BK {
  pins : RegId -> pin_state;
  scoreboard : RegId -> bool;
  renamedOperands : Z; undoneMaps : Z; committedMaps : Z; fpReturned : Z; intReturned : Z
}.

(** The O3 state the injectors reach: rename maps (front end and commit), free lists,
    history, the registers whose freeing is in progress, the bookkeeping, the register
    file, and per thread whether the context exists, has an ISA, is halted.
    [alwaysReady] are the registers of serializing classes. *)
Record o3 := O3 {
  frontMap : Z -> RegId -> option RegId;
  commitMap : Z -> RegId -> option RegId;
  freeLists : Z -> list RegId;                      (* per class, front first *)
  historyBuffer : Z -> list hist_entry;             (* newest first *)
  freeingInProgress : Z -> list RegId;
  book : bookkeeping;
  regFile : physregfile;
  ctx_exists : Z -> bool; ctx_isa : Z -> bool; ctx_halted : Z -> bool;
  alwaysReady : RegId -> bool
}.

(** What does not change: sizes of the register classes and the flattening of
    architectural registers. *)
Record o3_config := O3Config {
  numArchRegs : Z -> Z;                             (* isa->regClasses()[c]->numRegs() *)
  numPhysRegs : Z -> Z;
  flatten : RegId -> RegId;
  vecRegBytes : Z;
  cpuThreads : Z
}.

Definition with_front (s : o3) (f : Z -> RegId -> option RegId) : o3 :=
  O3 f (commitMap s) (freeLists s) (historyBuffer s) (freeingInProgress s) (book s) (regFile s)
     (ctx_exists s) (ctx_isa s) (ctx_halted s) (alwaysReady s).
Definition with_free (s : o3) (f : Z -> list RegId) : o3 :=
  O3 (frontMap s) (commitMap s) f (historyBuffer s) (freeingInProgress s) (book s) (regFile s)
     (ctx_exists s) (ctx_isa s) (ctx_halted s) (alwaysReady s).
Definition with_history (s : o3) (f : Z -> list hist_entry) : o3 :=
  O3 (frontMap s) (commitMap s) (freeLists s) f (freeingInProgress s) (book s) (regFile s)
     (ctx_exists s) (ctx_isa s) (ctx_halted s) (alwaysReady s).
Definition with_freeing (s : o3) (f : Z -> list RegId) : o3 :=
  O3 (frontMap s) (commitMap s) (freeLists s) (historyBuffer s) f (book s) (regFile s)
     (ctx_exists s) (ctx_isa s) (ctx_halted s) (alwaysReady s).
Definition with_book (s : o3) (f : bookkeeping) : o3 :=
  O3 (frontMap s) (commitMap s) (freeLists s) (historyBuffer s) (freeingInProgress s) f (regFile s)
     (ctx_exists s) (ctx_isa s) (ctx_halted s) (alwaysReady s).
Definition with_rf (s : o3) (f : physregfile) : o3 :=
  O3 (frontMap s) (commitMap s) (freeLists s) (historyBuffer s) (freeingInProgress s) (book s) f
     (ctx_exists s) (ctx_isa s) (ctx_halted s) (alwaysReady s).

(** ** Free lists *)

Definition freelist_addReg (s : o3) (reg : RegId) : o3 :=
  with_free s (fupd (freeLists s) reg.1 (freeLists s reg.1 ++ [reg])).

(** [None] is the failing assertion on an empty list. *)
Definition freelist_getReg (s : o3) (class : Z) : option (RegId * o3) :=
  match freeLists s class with
  | [] => None
  | r :: l => Some (r, with_free s (fupd (freeLists s) class l))
  end.

Definition isFree (s : o3) (class : Z) (reg : RegId) : bool :=
  bool_decide (reg ∈ freeLists s class).

Definition numFreeRegs (s : o3) (class : Z) : Z := Z.of_nat (length (freeLists s class)).

(** ** Rename maps *)

Definition isRenameable (r : RegId) : bool :=
  negb (r.1 =? MiscRegClass) && negb (r.1 =? InvalidRegClass).

(** [UnifiedRenameMap::lookup]: misc registers are mapped to themselves. *)
Definition lookup_map (m : RegId -> option RegId) (arch : RegId) : option RegId :=
  if isRenameable arch then m arch else Some arch.

Definition lookup_front (s : o3) (tid : Z) (arch : RegId) : option RegId := lookup_map (frontMap s tid) arch.

(** [UnifiedRenameMap::setEntry] *)
Definition setEntry (s : o3) (tid : Z) (arch phys : RegId) : o3 :=
  if isRenameable arch then with_front s (fupd (frontMap s) tid (fupd (frontMap s tid) arch (Some phys)))
  else s.

(** ** Pin counters, scoreboard and statistics *)

Definition with_pins (s : o3) (f : RegId -> pin_state) : o3 :=
  let k := book s in
  with_book s (BK f (scoreboard k) (renamedOperands k) (undoneMaps k) (committedMaps k) (fpReturned k) (intReturned k)).

(** [setNumPinnedWrites(n); setNumPinnedWritesToComplete(n + 1)] *)
Definition setPinned (s : o3) (r : RegId) (n : Z) : o3 :=
  with_pins s (fupd (pins (book s)) r (Pin n (n + 1) (negb (n =? 0)))).

Definition decrNumPinnedWrites (s : o3) (r : RegId) : o3 :=
  let q := pins (book s) r in
  with_pins s (fupd (pins (book s)) r (Pin (numPinnedWrites q - 1) (numPinnedWritesToComplete q) (pinned q))).

(** [Scoreboard::setReg] and [unsetReg] *)
Definition scoreboard_put (s : o3) (r : RegId) (b : bool) : o3 :=
  if alwaysReady s r then s
  else let k := book s in
    with_book s (BK (pins k) (fupd (scoreboard k) r b) (renamedOperands k) (undoneMaps k) (committedMaps k)
                    (fpReturned k) (intReturned k)).

Definition count_renamed (s : o3) : o3 :=
  let k := book s in
  with_book s (BK (pins k) (scoreboard k) (renamedOperands k + 1) (undoneMaps k) (committedMaps k)
                  (fpReturned k) (intReturned k)).

Definition count_undone (s : o3) : o3 :=
  let k := book s in
  with_book s (BK (pins k) (scoreboard k) (renamedOperands k) (undoneMaps k + 1) (committedMaps k)
                  (fpReturned k) (intReturned k)).

(** The statistics of one committed rename, by the class of the superseded register. *)
Definition count_committed (s : o3) (prev : RegId) : o3 :=
  let k := book s in
  with_book s (BK (pins k) (scoreboard k) (renamedOperands k) (undoneMaps k) (committedMaps k + 1)
                  (fpReturned k + (if prev.1 =? FloatRegClass then 1 else 0))
                  (intReturned k + (if prev.1 =? IntRegClass then 1 else 0))).

(** [SimpleRenameMap::rename]: the new and the previous physical register; [None] is
    a failing assertion (a pinned register pinned again, an empty free list).  [n] is
    the pin count of the architectural register.  The branch for invalid registers is
    unreachable, [UnifiedRenameMap::rename] does not call it for them. *)
Definition simple_rename (s : o3) (tid : Z) (arch : RegId) (n : Z) : option ((RegId * RegId) * o3) :=
  match frontMap s tid arch with
  | None => None
  | Some prev =>
      if 0 <? numPinnedWrites (pins (book s) prev) then
        if n =? 0 then Some ((prev, prev), decrNumPinnedWrites s prev) else None
      else match freelist_getReg s arch.1 with
      | None => None
      | Some (r, s1) => Some ((r, prev), setPinned (setEntry s1 tid arch r) r n)
      end
  end.

(** [UnifiedRenameMap::rename]: misc registers keep their mapping. *)
Definition rename (s : o3) (tid : Z) (arch : RegId) (n : Z) : option ((RegId * RegId) * o3) :=
  if negb (isRenameable arch) then
    Some ((arch, arch), if alwaysReady s arch then s else setPinned s arch n)
  else simple_rename s tid arch n.

(** One destination of [Rename::renameDestRegs]. *)
Definition renameDest (s : o3) (tid seq : Z) (arch : RegId) (n : Z) : option o3 :=
  match rename s tid arch n with
  | None => None
  | Some ((new, prev), s1) =>
      let s2 := scoreboard_put s1 new false in
      Some (count_renamed
        (with_history s2 (fupd (historyBuffer s2) tid (Hist seq arch new prev :: historyBuffer s2 tid))))
  end.

(** [Rename::removeFromHistory]: from the oldest entry, free the previous mapping of
    each committed rename. *)
Fixpoint commit_old (s : o3) (tid seq : Z) (old_first : list hist_entry) : o3 * list hist_entry :=
  match old_first with
  | [] => (s, [])
  | e :: l =>
      if instSeqNum e <=? seq then
        commit_old (count_committed (if decide (newPhysReg e = prevPhysReg e) then s
                                     else freelist_addReg s (prevPhysReg e)) (prevPhysReg e)) tid seq l
      else (s, e :: l)
  end.

Definition removeFromHistory (s : o3) (tid seq : Z) : o3 :=
  let r := commit_old s tid seq (rev (historyBuffer s tid)) in
  with_history r.1 (fupd (historyBuffer r.1) tid (rev r.2)).

(** The end of a squash: the registers being freed go to the free list. *)
Definition finishFreeing (s : o3) (tid : Z) : o3 :=
  with_freeing (fold_left freelist_addReg (freeingInProgress s tid) s)
               (fupd (freeingInProgress s) tid []).

(** ** The spec_leak hook of CHAOSROB *)

Inductive RobMode := EntryBitFlip | ExcSuppress | SpecLeak.

Definition stringToRobMode (s : string) : RobMode :=
  if String.eqb s "exc_suppress" then ExcSuppress
  else if String.eqb s "spec_leak" then SpecLeak
  else EntryBitFlip.

Record rob_params := RobParams {
  rob_mode : RobMode; rob_probability : Q; rob_first : Z; rob_last : Z; rob_max : Z;
  rob_mask : Z; rob_log : bool
}.

(** [CHAOSROB::maybeDelayFree] *)
Definition maybeDelayFree {X} (p : rob_params) (now : Z) (reg : RegId) : M X bool :=
  match rob_mode p with
  | SpecLeak =>
      if Qle_bool (rob_probability p) 0 then ret false
      else if negb (in_window (rob_first p) (rob_last p) now) then ret false
      else
        let! c := get_count in
        if cap_reached (rob_max p) c then ret false
        else
          let! u := with_rng uniform_unit in
          if Qle_bool (rob_probability p) u then ret false
          else
            do! bump numSpecLeak in
            do! bump numFaultsInjected in
            do! incr_count in
            do! log_if (rob_log p) (Entry "rename_doSquash_freelist_skip" [("cycle", now); ("phys", reg.2)]) in
            ret true
  | _ => ret false
  end.

(** The mapping of one history entry is undone, with the hook ([None] when no
    [chaosRob] is registered). *)
Definition undo_mapping (rob : option rob_params) (now tid : Z) (e : hist_entry) : M o3 unit :=
  if decide (newPhysReg e = prevPhysReg e) then skip
  else
    do! modify (fun s => setEntry s tid (archReg e) (prevPhysReg e)) in
    let! leak := match rob with
                 | Some p => maybeDelayFree p now (newPhysReg e)
                 | None => ret false
                 end in
    if leak then skip
    else modify (fun s => with_freeing s
           (fupd (freeingInProgress s) tid (freeingInProgress s tid ++ [newPhysReg e]))).

(** One entry of the walk of [Rename::doSquash]. *)
Definition squash_entry (rob : option rob_params) (now tid : Z) (e : hist_entry) : M o3 unit :=
  do! undo_mapping rob now tid e in
  do! modify (fun s => scoreboard_put s (newPhysReg e) true) in
  modify count_undone.

(** The walk: undo the renames younger than the squashed instruction; the history
    left is returned. *)
Fixpoint squash_walk (rob : option rob_params) (now tid seq : Z) (h : list hist_entry) : M o3 (list hist_entry) :=
  match h with
  | [] => ret []
  | e :: l =>
      if seq <? instSeqNum e then
        do! squash_entry rob now tid e in
        squash_walk rob now tid seq l
      else ret (e :: l)
  end.

Definition doSquash (rob : option rob_params) (now tid seq : Z) : M o3 unit :=
  let! s := get in
  let! h := squash_walk rob now tid seq (historyBuffer s tid) in
  modify (fun s => with_history s (fupd (historyBuffer s) tid h)).

(** ** Runs of the rename stage *)

(** The operations of a thread's rename stage; a rename whose assertion would fail is
    not issued ([canRename] stalls it before). *)
Inductive rename_op :=
  | RRename (seq : Z) (arch : RegId) (n : Z)
  | RCommit (seq : Z)
  | RSquash (now seq : Z)
  | RFinish.

Definition rename_exec (rob : option rob_params) (tid : Z) (o : rename_op) : M o3 unit :=
  match o with
  | RRename seq arch n => modify (fun s => default s (renameDest s tid seq arch n))
  | RCommit seq => modify (fun s => removeFromHistory s tid seq)
  | RSquash now seq => doSquash rob now tid seq
  | RFinish => modify (fun s => finishFreeing s tid)
  end.

Definition rename_run (rob : option rob_params) (tid : Z) (l : list rename_op) : M o3 unit :=
  for_each l (rename_exec rob tid).

(** * Lemmas *)

Lemma for_each_app {X A} (l k : list A) (body : A -> M X unit) :
  for_each (l ++ k) body = bind (for_each l body) (fun _ => for_each k body).
Proof. induction l as [|a l IH]; [done|]. cbn. by rewrite IH. Qed.

(** The values of a partial function along a list. *)
Fixpoint collect {A B} (f : A -> option B) (l : list A) : list B :=
  match l with
  | [] => []
  | a :: l' => match f a with Some b => b :: collect f l' | None => collect f l' end
  end.

Lemma collect_app {A B} (f : A -> option B) l k : collect f (l ++ k) = collect f l ++ collect f k.
Proof. induction l as [|a l IH]; [done|]. cbn. rewrite IH. by destruct (f a). Qed.

Lemma collect_ext {A B} (f g : A -> option B) l :
  (forall a, a ∈ l -> f a = g a) -> collect f l = collect g l.
Proof.
  induction l as [|a l IH]; intros H; [done|]. cbn. rewrite (H a) by left.
  rewrite IH; [done|]. intros b Hb. apply H. by right.
Qed.

Section Conservation.
Context (tid : Z) (archs : Z -> list Z) (Harchs : forall c, NoDup (archs c)).

(** The physical registers of class [c] the front end maps. *)
Definition mapped (m : RegId -> option RegId) (c : Z) : list RegId := collect (fun a => m (c, a)) (archs c).

(** A history entry that really renamed. *)
Definition renamed (e : hist_entry) : bool := bool_decide (newPhysReg e <> prevPhysReg e).

(** The superseded mappings of class [c] the history still holds. *)
Definition prevs (h : list hist_entry) (c : Z) : list RegId :=
  collect (fun e => if renamed e && ((archReg e).1 =? c) then Some (prevPhysReg e) else None) h.

Definition of_class (c : Z) (l : list RegId) : list RegId := filter (fun r => r.1 = c) l.

(** All the registers of class [c] the thread accounts for. *)
Definition regs_of (s : o3) (c : Z) : list RegId :=
  freeLists s c ++ mapped (frontMap s tid) c ++ prevs (historyBuffer s tid) c ++
  of_class c (freeingInProgress s tid).

(** Undoing the history from the newest entry goes back through the mappings made. *)
Fixpoint hist_ok (m : RegId -> option RegId) (h : list hist_entry) : Prop :=
  match h with
  | [] => True
  | e :: l =>
      if renamed e then m (archReg e) = Some (newPhysReg e) /\ hist_ok (fupd m (archReg e) (Some (prevPhysReg e))) l
      else hist_ok m l
  end.

Definition entry_ok (e : hist_entry) : Prop :=
  renamed e = true -> isRenameable (archReg e) = true /\ (archReg e).2 ∈ archs (archReg e).1 /\
    (newPhysReg e).1 = (archReg e).1 /\ (prevPhysReg e).1 = (archReg e).1.

Record rename_wf (s : o3) : Prop := {
  rw_hist : hist_ok (frontMap s tid) (historyBuffer s tid);
  rw_entries : Forall entry_ok (historyBuffer s tid);
  rw_map : forall r q, frontMap s tid r = Some q -> q.1 = r.1;
  rw_free : forall c, Forall (fun r => r.1 = c) (freeLists s c);
  rw_nodup : forall c, NoDup (regs_of s c)
}.

(** From [s] to [s'] the registers are conserved, but for the leaked ones. *)
Definition conserved (s s' : o3) (leaked : list RegId) : Prop :=
  forall c, regs_of s c ≡ₚ of_class c leaked ++ regs_of s' c.

Lemma mapped_fupd m c a old new :
  a ∈ archs c -> m (c, a) = Some old ->
  new :: mapped m c ≡ₚ old :: mapped (fupd m (c, a) (Some new)) c.
Proof.
  intros Ha Hm. unfold mapped. pose proof (Harchs c) as Hd. revert Ha Hd. generalize (archs c) as l.
  induction l as [|b l IH]; intros Ha Hd; [by apply elem_of_nil in Ha|].
  apply NoDup_cons in Hd as [Hn Hd]. destruct (decide (b = a)) as [->|Hne].
  - cbn [collect]. rewrite Hm, fupd_eq.
    rewrite (collect_ext (fun a0 => fupd m (c, a) (Some new) (c, a0)) (fun a0 => m (c, a0))).
    + apply Permutation_swap.
    + intros x Hx. apply fupd_ne. intros [= ->]. done.
  - apply elem_of_cons in Ha as [->|Ha]; [done|]. specialize (IH Ha Hd). cbn [collect].
    rewrite fupd_ne by congruence. destruct (m (c, b)) as [q|]; [|exact IH].
    rewrite (Permutation_swap q new), IH. apply Permutation_swap.
Qed.

Lemma mapped_fupd_other m c r v : r.1 <> c -> mapped (fupd m r v) c = mapped m c.
Proof.
  intros Hr. apply collect_ext. intros a _. apply fupd_ne. by intros <-.
Qed.

Lemma of_class_app c l k : of_class c (l ++ k) = of_class c l ++ of_class c k.
Proof. apply filter_app. Qed.

Lemma of_class_one c r : of_class c [r] = if decide (r.1 = c) then [r] else [].
Proof. unfold of_class. rewrite filter_cons, filter_nil. done. Qed.

Lemma hist_ok_ext m m' h : (forall r, m r = m' r) -> hist_ok m h -> hist_ok m' h.
Proof.
  revert m m'. induction h as [|e h IH]; intros m m' Hm; [done|]. cbn [hist_ok].
  destruct (renamed e); [|by apply IH]. rewrite <- Hm. intros [H1 H2]. split; [done|].
  eapply IH; [|exact H2]. intros r. unfold fupd. case_decide; [done|apply Hm].
Qed.

Lemma hist_ok_prefix m h k : hist_ok m (h ++ k) -> hist_ok m h.
Proof.
  revert m. induction h as [|e h IH]; intros m; [done|]. cbn [app hist_ok].
  destruct (renamed e); [intros [H1 H2]; split; [done|]; eauto|eauto].
Qed.

Lemma prevs_app h k c : prevs (h ++ k) c = prevs h c ++ prevs k c.
Proof. apply collect_app. Qed.

Lemma renamed_spec e : renamed e = true <-> newPhysReg e <> prevPhysReg e.
Proof. apply bool_decide_eq_true. Qed.

Lemma conserved_nodup s s' leaked :
  conserved s s' leaked -> (forall c, NoDup (regs_of s c)) -> forall c, NoDup (regs_of s' c).
Proof. intros Hc Hn c. specialize (Hn c). rewrite (Hc c) in Hn. by apply NoDup_app in Hn as (_ & _ & ?). Qed.

Lemma mapped_elem m c a q : a ∈ archs c -> m (c, a) = Some q -> q ∈ mapped m c.
Proof.
  intros Ha Hq. unfold mapped. induction (archs c) as [|b l IH]; [by apply elem_of_nil in Ha|]. cbn.
  apply elem_of_cons in Ha as [<-|Ha]; [rewrite Hq; left|].
  destruct (m (c, b)); [right|]; by apply IH.
Qed.

Lemma prevs_cons e h c :
  prevs (e :: h) c = if renamed e && ((archReg e).1 =? c) then prevPhysReg e :: prevs h c else prevs h c.
Proof. unfold prevs. cbn. by destruct (_ && _). Qed.

(** States that differ in their bookkeeping only. *)
Definition same_lists (s s' : o3) : Prop :=
  frontMap s' = frontMap s /\ freeLists s' = freeLists s /\ historyBuffer s' = historyBuffer s /\
  freeingInProgress s' = freeingInProgress s.

Lemma scoreboard_put_same s r b : same_lists s (scoreboard_put s r b).
Proof. unfold scoreboard_put. by destruct (alwaysReady s r). Qed.

(** A rename that allocates [r] for [arch]. *)
Lemma alloc_ok s seq arch prev r l s2 s' :
  rename_wf s -> isRenameable arch = true -> arch.2 ∈ archs arch.1 ->
  frontMap s tid arch = Some prev -> freeLists s arch.1 = r :: l ->
  let s1 := with_free s (fupd (freeLists s) arch.1 l) in
  same_lists (setEntry s1 tid arch r) s2 ->
  same_lists (with_history s2 (fupd (historyBuffer s2) tid (Hist seq arch r prev :: historyBuffer s2 tid))) s' ->
  conserved s s' [] /\ rename_wf s'.
Proof.
  intros [Hh He Hm Hf Hn] Hr Ha Hprev Hl s1 (F1 & F2 & F3 & F4) (G1 & G2 & G3 & G4). destruct arch as [k a]. cbn [fst snd] in *.
  assert (Hne : r <> prev).
  { intros ->. specialize (Hn k). unfold regs_of in Hn. rewrite Hl in Hn.
    apply NoDup_cons in Hn as [Hn _]. apply Hn. rewrite !elem_of_app. right. left.
    by eapply mapped_elem. }
  assert (Hfront : frontMap s' tid = fupd (frontMap s tid) (k, a) (Some r)).
  { rewrite G1. cbn. rewrite F1. unfold setEntry. rewrite Hr. cbn. by rewrite fupd_eq. }
  assert (Hhist : historyBuffer s' tid = Hist seq (k, a) r prev :: historyBuffer s tid).
  { rewrite G3. cbn. rewrite fupd_eq, F3. unfold setEntry. by rewrite Hr. }
  assert (Hfree : freeLists s' = fupd (freeLists s) k l).
  { rewrite G2. cbn. rewrite F2. unfold setEntry. by rewrite Hr. }
  assert (Hfip : freeingInProgress s' = freeingInProgress s).
  { rewrite G4. cbn. rewrite F4. unfold setEntry. by rewrite Hr. }
  assert (Hren : renamed (Hist seq (k, a) r prev) = true) by (by apply renamed_spec).
  assert (Hcons : conserved s s' []).
  { intros c. unfold regs_of. rewrite Hfront, Hhist, Hfree, Hfip, prevs_cons, Hren. cbn [archReg fst prevPhysReg andb of_class filter].
    change (of_class c [] ++ ?x) with x. destruct (Z.eqb_spec k c) as [<-|Hkc].
    - rewrite fupd_eq, Hl. pose proof (mapped_fupd (frontMap s tid) k a prev r Ha Hprev) as Hp.
      simpl. rewrite (Permutation_middle l _ r), app_comm_cons, Hp. solve_Permutation.
    - rewrite fupd_ne by done. by rewrite mapped_fupd_other. }
  split; [done|]. split.
  - rewrite Hfront, Hhist. cbn [hist_ok]. rewrite Hren. cbn [archReg newPhysReg prevPhysReg].
    split; [apply fupd_eq|]. eapply hist_ok_ext; [|exact Hh]. intros q. unfold fupd.
    repeat case_decide; subst; done.
  - rewrite Hhist. constructor; [|done]. intros _. split_and!; try done.
    + specialize (Hf k). rewrite Hl in Hf. by apply Forall_cons in Hf as [? _].
    + by apply (Hm (k, a)).
  - intros q x. rewrite Hfront. unfold fupd. case_decide as Hd; [|apply Hm]. intros [= <-]. subst.
    specialize (Hf k). rewrite Hl in Hf. by apply Forall_cons in Hf as [? _].
  - intros c. rewrite Hfree. unfold fupd. case_decide as Hd; [|apply Hf]. subst.
    specialize (Hf k). rewrite Hl in Hf. by apply Forall_cons in Hf as [_ ?].
  - by eapply conserved_nodup.
Qed.

(** A state that agrees with a well-formed one on all the lists. *)
Lemma wf_same s s' :
  frontMap s' tid = frontMap s tid -> freeLists s' = freeLists s ->
  freeingInProgress s' tid = freeingInProgress s tid ->
  (forall c, prevs (historyBuffer s' tid) c = prevs (historyBuffer s tid) c) ->
  hist_ok (frontMap s tid) (historyBuffer s' tid) -> Forall entry_ok (historyBuffer s' tid) ->
  rename_wf s -> conserved s s' [] /\ rename_wf s'.
Proof.
  intros E1 E2 E3 E4 Hh He [_ _ Hm Hf Hn].
  assert (Hregs : forall c, regs_of s' c = regs_of s c).
  { intros c. unfold regs_of. by rewrite E1, E2, E3, E4. }
  split; [intros c; by rewrite Hregs|].
  split; rewrite ?E1, ?E2; try done. intros c. by rewrite Hregs.
Qed.

(** A history entry that renames nothing. *)
Lemma push_idle s s1 s' seq arch r :
  same_lists s s1 -> rename_wf s ->
  same_lists (with_history s1 (fupd (historyBuffer s1) tid (Hist seq arch r r :: historyBuffer s1 tid))) s' ->
  conserved s s' [] /\ rename_wf s'.
Proof.
  intros (E1 & E2 & E3 & E4) Hwf (G1 & G2 & G3 & G4).
  assert (Hi : renamed (Hist seq arch r r) = false) by (apply bool_decide_eq_false; cbn; tauto).
  assert (Hh : historyBuffer s' tid = Hist seq arch r r :: historyBuffer s tid).
  { rewrite G3. cbn. by rewrite fupd_eq, E3. }
  cbn [with_history frontMap freeLists freeingInProgress] in *.
  apply wf_same; rewrite ?G1, ?G2, ?G4, ?E1, ?E2, ?E4; try done.
  - intros c. by rewrite Hh, prevs_cons, Hi.
  - rewrite Hh. cbn [hist_ok]. rewrite Hi. apply Hwf.
  - rewrite Hh. constructor; [|apply Hwf]. unfold entry_ok. by rewrite Hi.
Qed.

Lemma same_lists_trans s1 s2 s3 : same_lists s1 s2 -> same_lists s2 s3 -> same_lists s1 s3.
Proof. unfold same_lists. intuition congruence. Qed.

Lemma renameDest_ok s seq arch n s' :
  rename_wf s -> (isRenameable arch = true -> arch.2 ∈ archs arch.1) ->
  renameDest s tid seq arch n = Some s' -> conserved s s' [] /\ rename_wf s'.
Proof.
  intros Hwf Ha. unfold renameDest, rename, simple_rename. destruct (isRenameable arch) eqn:Er; cbn [negb].
  - destruct (frontMap s tid arch) as [prev|] eqn:Ep; [|done].
    destruct (0 <? numPinnedWrites (pins (book s) prev)).
    + destruct (n =? 0); [|done]. intros [= <-]. eapply push_idle; [|done|by split].
      by eapply same_lists_trans; [|apply scoreboard_put_same].
    + unfold freelist_getReg. destruct (freeLists s arch.1) as [|r l] eqn:El; [done|].
      intros [= <-]. eapply (alloc_ok s seq arch prev r l); auto; [|by split].
      by eapply same_lists_trans; [|apply scoreboard_put_same].
  - intros [= <-]. eapply push_idle; [|done|by split].
    eapply same_lists_trans; [|apply scoreboard_put_same]. by destruct (alwaysReady s arch).
Qed.

(** Adding registers to the free lists. *)
Lemma addReg_free s r c : freeLists (freelist_addReg s r) c = freeLists s c ++ of_class c [r].
Proof.
  unfold freelist_addReg. cbn [with_free freeLists]. rewrite of_class_one. unfold fupd. repeat case_decide; subst; try done.
  by rewrite app_nil_r.
Qed.

Lemma commit_old_spec seq l s :
  Forall entry_ok l ->
  let r := commit_old s tid seq l in
  exists gone, l = gone ++ r.2 /\ frontMap r.1 = frontMap s /\ historyBuffer r.1 = historyBuffer s /\
    freeingInProgress r.1 = freeingInProgress s /\
    forall c, freeLists r.1 c = freeLists s c ++ prevs gone c.
Proof.
  revert s. induction l as [|e l IH]; intros s He; cbn [commit_old].
  - exists []. split_and!; try done. intros c. by rewrite app_nil_r.
  - apply Forall_cons in He as [He Hl]. destruct (instSeqNum e <=? seq).
    + destruct (IH (count_committed (if decide (newPhysReg e = prevPhysReg e) then s
                                     else freelist_addReg s (prevPhysReg e)) (prevPhysReg e)) Hl)
        as (gone & Hg & H1 & H2 & H3 & H4).
      exists (e :: gone). cbn zeta in *. rewrite H1, H2, H3. split_and!.
      * by rewrite Hg at 1.
      * by case_decide.
      * by case_decide.
      * by case_decide.
      * intros c. rewrite H4, prevs_cons. change (freeLists (count_committed ?x _)) with (freeLists x).
        case_decide as Hd.
        -- unfold renamed. by rewrite bool_decide_false by tauto.
        -- assert (Hr : renamed e = true) by (by apply renamed_spec). rewrite Hr.
           destruct (He Hr) as (_ & _ & _ & Hc). rewrite addReg_free, of_class_one, Hc. cbn [andb].
           destruct (Z.eqb_spec (archReg e).1 c); case_decide; try done; by rewrite <- app_assoc.
    + exists []. split_and!; try done. intros c. by rewrite app_nil_r.
Qed.

Lemma prevs_rev h c : prevs (rev h) c ≡ₚ prevs h c.
Proof.
  induction h as [|e h IH]; [done|]. cbn [rev]. rewrite prevs_app, IH, !prevs_cons.
  destruct (_ && _); cbn; [solve_Permutation|by rewrite app_nil_r].
Qed.

Lemma removeFromHistory_ok s seq :
  rename_wf s -> conserved s (removeFromHistory s tid seq) [] /\ rename_wf (removeFromHistory s tid seq).
Proof.
  intros [Hh He Hm Hf Hn]. unfold removeFromHistory.
  assert (He' : Forall entry_ok (rev (historyBuffer s tid))) by (by apply Forall_rev).
  destruct (commit_old_spec seq (rev (historyBuffer s tid)) s He') as (gone & Hg & H1 & H2 & H3 & H4).
  set (r := commit_old s tid seq (rev (historyBuffer s tid))) in *. cbn zeta in *.
  assert (Hsplit : historyBuffer s tid = rev r.2 ++ rev gone).
  { rewrite <- rev_app_distr, <- Hg. by rewrite rev_involutive. }
  set (s' := with_history r.1 _).
  assert (Hhist : historyBuffer s' tid = rev r.2) by (cbn; by rewrite fupd_eq).
  assert (Hcons : conserved s s' []).
  { intros c. unfold regs_of. rewrite Hhist, Hsplit, prevs_app. cbn. rewrite H1, H3, H4.
    rewrite (prevs_rev gone c). solve_Permutation. }
  split; [done|]. split.
  - rewrite Hhist. cbn. rewrite H1. rewrite Hsplit in Hh. by eapply hist_ok_prefix.
  - rewrite Hhist. rewrite Hsplit in He. by apply Forall_app in He as [? _].
  - cbn. by rewrite H1.
  - intros c. cbn. rewrite H4. apply Forall_app. split; [done|].
    rewrite Hsplit in He. apply Forall_app in He as [_ He]. apply Forall_rev in He. rewrite rev_involutive in He.
    clear -He. induction gone as [|e l IH]; [constructor|]. apply Forall_cons in He as [He Hl].
    rewrite prevs_cons. destruct (renamed e) eqn:Er; cbn [andb]; [|auto].
    destruct (Z.eqb_spec (archReg e).1 c) as [<-|]; [|auto].
    destruct (He Er) as (_ & _ & _ & Hc). constructor; auto.
  - by eapply conserved_nodup.
Qed.

Lemma fold_addReg_spec l s :
  let s' := fold_left freelist_addReg l s in
  frontMap s' = frontMap s /\ historyBuffer s' = historyBuffer s /\
  forall c, freeLists s' c = freeLists s c ++ of_class c l.
Proof.
  revert s. induction l as [|r l IH]; intros s; cbn [fold_left].
  - split_and!; try done. intros c. by rewrite app_nil_r.
  - destruct (IH (freelist_addReg s r)) as (H1 & H2 & H3). cbn zeta. rewrite H1, H2. split_and!; try done.
    intros c. rewrite H3, addReg_free, <- app_assoc. f_equal. symmetry. apply (of_class_app c [r] l).
Qed.

Lemma finishFreeing_ok s : rename_wf s -> conserved s (finishFreeing s tid) [] /\ rename_wf (finishFreeing s tid).
Proof.
  intros [Hh He Hm Hf Hn]. unfold finishFreeing.
  destruct (fold_addReg_spec (freeingInProgress s tid) s) as (H1 & H2 & H3).
  set (s1 := fold_left freelist_addReg (freeingInProgress s tid) s) in *. cbn zeta in *.
  set (s' := with_freeing s1 _).
  assert (Hcons : conserved s s' []).
  { intros c. unfold regs_of. cbn. rewrite fupd_eq, H1, H2, H3. cbn. rewrite app_nil_r. solve_Permutation. }
  split; [done|]. split; cbn [s' with_freeing frontMap freeLists historyBuffer]; rewrite ?H1, ?H2; try done.
  - intros c. rewrite H3. apply Forall_app. split; [done|]. unfold of_class. apply Forall_forall.
    intros x Hx. by apply list_elem_of_filter in Hx as [? _].
  - by apply (conserved_nodup s s' []).
Qed.

(** ** Squashing *)

(** The mapping before the entries of [h] (newest first) were made. *)
Fixpoint undo (m : RegId -> option RegId) (h : list hist_entry) : RegId -> option RegId :=
  match h with
  | [] => m
  | e :: l => undo (if renamed e then fupd m (archReg e) (Some (prevPhysReg e)) else m) l
  end.

(** [regs_of] with the history still to be walked. *)
Definition regs_with (s : o3) (h : list hist_entry) (c : Z) : list RegId :=
  freeLists s c ++ mapped (frontMap s tid) c ++ prevs h c ++ of_class c (freeingInProgress s tid).

Definition map_classes (m : RegId -> option RegId) : Prop := forall r q, m r = Some q -> q.1 = r.1.

(** What one squash step, or a whole walk, does: from [(c, s)] with history [h] to
    [(c', s')] with history [h'], undoing the entries [gone] and leaking [leaked]. *)
Record squashed_to (c c' : core) (s s' : o3) (h h' gone : list hist_entry) (leaked : list RegId) : Prop := {
  sq_split : h = gone ++ h';
  sq_free : freeLists s' = freeLists s;
  sq_history : historyBuffer s' = historyBuffer s;
  sq_front : frontMap s' tid = undo (frontMap s tid) gone;
  sq_regs : forall k, regs_with s h k ≡ₚ of_class k leaked ++ regs_with s' h' k;
  sq_count : faults_injected_count c' mod 2 ^ 64 =
             (faults_injected_count c + Z.of_nat (length leaked)) mod 2 ^ 64
}.

Lemma squashed_refl c s h : squashed_to c c s s h h [] [].
Proof. split; try done. by rewrite Z.add_0_r. Qed.

Lemma undo_app m h k : undo m (h ++ k) = undo (undo m h) k.
Proof. revert m. induction h as [|e h IH]; intros m; [done|]. cbn. apply IH. Qed.

Lemma squashed_trans c1 c2 c3 s1 s2 s3 h1 h2 h3 g1 g2 l1 l2 :
  squashed_to c1 c2 s1 s2 h1 h2 g1 l1 -> squashed_to c2 c3 s2 s3 h2 h3 g2 l2 ->
  squashed_to c1 c3 s1 s3 h1 h3 (g1 ++ g2) (l1 ++ l2).
Proof.
  intros [A1 A2 A3 A4 A5 A6] [B1 B2 B3 B4 B5 B6]. split.
  - by rewrite A1, B1, app_assoc.
  - by rewrite B2.
  - by rewrite B3.
  - by rewrite B4, A4, undo_app.
  - intros k. rewrite A5, B5, of_class_app. by rewrite app_assoc.
  - rewrite B6, length_app, Nat2Z.inj_add, Z.add_assoc.
    rewrite (Zplus_mod (_ + _) (Z.of_nat (length l2))), <- A6, <- Zplus_mod. done.
Qed.

(** The hook changes the core only, and counts one fault exactly when it leaks. *)
Lemma maybeDelayFree_spec p now r (cs : core * o3) :
  let x := maybeDelayFree p now r cs in
  x.2.2 = cs.2 /\
  faults_injected_count x.2.1 mod 2 ^ 64 =
    (faults_injected_count cs.1 + (if x.1 then 1 else 0)) mod 2 ^ 64.
Proof.
  destruct cs as [[g n st lg] s]. unfold maybeDelayFree.
  destruct (rob_mode p); unfold bind, get_count, with_rng, log_if, whenM; cbn [fst snd];
    repeat (case_match; cbn [fst snd ret skip faults_injected_count]; rewrite ?Z.add_0_r; try done).
  all: cbn [bump incr_count write_entry skip ret fst snd faults_injected_count];
    split; [done|]; unfold count_succ; by rewrite Z.mod_mod.
Qed.

(** A state that differs from [s'] in its bookkeeping is reached as [s'] is. *)
Lemma squashed_book c c' s s' s2 h h' gone leaked :
  same_lists s' s2 -> squashed_to c c' s s' h h' gone leaked -> squashed_to c c' s s2 h h' gone leaked.
Proof.
  intros (E1 & E2 & E3 & E4) [A1 A2 A3 A4 A5 A6]. split; rewrite ?E1, ?E2, ?E3; try done.
  intros k. rewrite A5. unfold regs_with. by rewrite E1, E2, E4.
Qed.

(** Undoing a renaming of [arch] from [prev] to [new]: [new] is either freed later or
    leaked. *)
Lemma undo_entry_regs s e l (leak : bool) k :
  frontMap s tid (archReg e) = Some (newPhysReg e) -> renamed e = true -> entry_ok e ->
  regs_with s (e :: l) k ≡ₚ
    of_class k (if leak then [newPhysReg e] else []) ++
    freeLists s k ++ mapped (fupd (frontMap s tid) (archReg e) (Some (prevPhysReg e))) k ++ prevs l k ++
    of_class k (freeingInProgress s tid ++ if leak then [] else [newPhysReg e]).
Proof.
  intros Hm Hr He. destruct (He Hr) as (_ & Ha & Hn & _). destruct (archReg e) as [cl a] eqn:Ea.
  unfold regs_with. rewrite prevs_cons, Hr, Ea, of_class_app. cbn [fst andb] in *.
  assert (Hone : of_class k [newPhysReg e] = if decide (cl = k) then [newPhysReg e] else []).
  { by rewrite of_class_one, Hn. }
  destruct (Z.eqb_spec cl k) as [<-|Hk].
  - rewrite decide_True in Hone by done. pose proof (mapped_fupd _ cl a _ (prevPhysReg e) Ha Hm) as Hp.
    destruct leak; rewrite Hone; change (of_class cl []) with (@nil RegId); cbn [app]; rewrite ?app_nil_r.
    + rewrite <- (Permutation_middle (mapped _ cl)), app_comm_cons, Hp. solve_Permutation.
    + rewrite <- (Permutation_middle (mapped _ cl)), app_comm_cons, Hp. solve_Permutation.
  - rewrite decide_False in Hone by done. rewrite mapped_fupd_other by done.
    destruct leak; rewrite Hone; change (of_class k []) with (@nil RegId); by rewrite ?app_nil_r.
Qed.

Lemma squash_entry_spec rob now e l c s :
  hist_ok (frontMap s tid) (e :: l) -> entry_ok e ->
  exists leaked, squashed_to c (squash_entry rob now tid e (c, s)).2.1 s (squash_entry rob now tid e (c, s)).2.2
                   (e :: l) l [e] leaked /\ (rob = None -> leaked = []).
Proof.
  intros Hh He. unfold squash_entry, bind, modify. cbn [fst snd]. set (x := undo_mapping rob now tid e (c, s)).
  enough (exists leaked, squashed_to c x.2.1 s x.2.2 (e :: l) l [e] leaked /\ (rob = None -> leaked = []))
    as (leaked & Hs & Hl).
  { exists leaked. split; [|done]. eapply squashed_book; [|exact Hs].
    eapply same_lists_trans; [apply scoreboard_put_same|done]. }
  subst x. unfold undo_mapping. cbn [hist_ok] in Hh. case_decide as Hd.
  - assert (renamed e = false) as Hr by (apply bool_decide_eq_false; tauto).
    exists []. split; [|done]. split; try done; cbn; rewrite ?Hr, ?Z.add_0_r; try done.
    intros k. unfold regs_with. by rewrite prevs_cons, Hr.
  - assert (renamed e = true) as Hr by (by apply renamed_spec). rewrite Hr in Hh. destruct Hh as [Hm Hh].
    unfold bind, modify. cbn [fst snd].
    set (s1 := setEntry s tid (archReg e) (prevPhysReg e)).
    assert (Hs1 : s1 = with_front s (fupd (frontMap s) tid (fupd (frontMap s tid) (archReg e) (Some (prevPhysReg e))))).
    { unfold s1, setEntry. destruct (He Hr) as [-> _]. done. }
    set (y := match rob with Some p => maybeDelayFree p now (newPhysReg e) | None => ret false end (c, s1)).
    assert (Hy : y.2.2 = s1 /\ faults_injected_count y.2.1 mod 2 ^ 64 =
                 (faults_injected_count c + (if y.1 then 1 else 0)) mod 2 ^ 64 /\ (rob = None -> y.1 = false)).
    { subst y. destruct rob as [p|]; [|by rewrite Z.add_0_r].
      destruct (maybeDelayFree_spec p now (newPhysReg e) (c, s1)) as [? ?]. done. }
    clearbody y. destruct y as [leak [c1 sx]]. cbn [fst snd] in *. destruct Hy as (-> & Hc & Hrob).
    exists (if leak then [newPhysReg e] else []). split; [|by intros ->%Hrob].
    pose proof (fun k => undo_entry_regs s e l leak k Hm Hr He) as Hp.
    clearbody s1. subst s1. destruct leak; cbn [skip ret modify fst snd]; split; try done;
      cbn; rewrite ?fupd_eq, ?Hr; try done;
      intros k; rewrite Hp; unfold regs_with; cbn; by rewrite ?fupd_eq, ?app_nil_r.
Qed.

Lemma map_classes_undo_entry m e : entry_ok e -> map_classes m -> map_classes (undo m [e]).
Proof.
  intros He Hm r q. cbn. destruct (renamed e) eqn:Hr; [|apply Hm]. unfold fupd.
  case_decide as Hd; [|apply Hm]. intros [= <-]. subst. by destruct (He Hr) as (_ & _ & _ & ->).
Qed.

(** The history a walk leaves, and the entries it undoes. *)
Fixpoint young (seq : Z) (h : list hist_entry) : list hist_entry :=
  match h with
  | [] => []
  | e :: l => if seq <? instSeqNum e then e :: young seq l else []
  end.

Lemma squash_walk_spec rob now seq h c s :
  hist_ok (frontMap s tid) h -> Forall entry_ok h -> map_classes (frontMap s tid) ->
  let r := squash_walk rob now tid seq h (c, s) in
  exists leaked, squashed_to c r.2.1 s r.2.2 h r.1 (young seq h) leaked /\ (rob = None -> leaked = []) /\
    hist_ok (frontMap r.2.2 tid) r.1 /\ map_classes (frontMap r.2.2 tid).
Proof.
  revert c s. induction h as [|e l IH]; intros c s Hh He Hm; cbn [squash_walk young].
  - exists []. split_and!; try done. apply squashed_refl.
  - apply Forall_cons in He as [He Hl]. destruct (seq <? instSeqNum e).
    + destruct (squash_entry_spec rob now e l c s Hh He) as (l1 & S1 & N1).
      unfold bind. destruct (squash_entry rob now tid e (c, s)) as [[] [c1 s1]] eqn:E1. cbn [fst snd] in *.
      pose proof (sq_front _ _ _ _ _ _ _ _ S1) as Hf.
      destruct (IH c1 s1) as (l2 & S2 & N2 & H3 & H4).
      * rewrite Hf. cbn [undo hist_ok] in *. by destruct (renamed e); [destruct Hh|].
      * done.
      * rewrite Hf. by apply map_classes_undo_entry.
      * exists (l1 ++ l2). split_and!; try done; [by apply (squashed_trans _ _ _ _ _ _ _ _ _ [e] (young seq l) _ _ S1 S2)|].
        intros Hn. by rewrite N1, N2.
    + exists []. split_and!; try done. apply squashed_refl.
Qed.

Lemma doSquash_ok rob now seq c s :
  rename_wf s ->
  let r := doSquash rob now tid seq (c, s) in
  exists leaked, conserved s r.2.2 leaked /\ rename_wf r.2.2 /\ (rob = None -> leaked = []) /\
    faults_injected_count r.2.1 mod 2 ^ 64 = (faults_injected_count c + Z.of_nat (length leaked)) mod 2 ^ 64 /\
    frontMap r.2.2 tid = undo (frontMap s tid) (young seq (historyBuffer s tid)) /\
    historyBuffer s tid = young seq (historyBuffer s tid) ++ historyBuffer r.2.2 tid.
Proof.
  intros [Hh He Hm Hf Hn]. unfold doSquash, bind, get, modify. cbn [fst snd].
  destruct (squash_walk_spec rob now seq (historyBuffer s tid) c s Hh He Hm) as (leaked & S & N & H3 & H4).
  destruct (squash_walk rob now tid seq (historyBuffer s tid) (c, s)) as [h [c1 s1]]. cbn [fst snd] in *.
  exists leaked. set (s' := with_history s1 _).
  assert (Hhist : historyBuffer s' tid = h) by (cbn; apply fupd_eq).
  pose proof (sq_split _ _ _ _ _ _ _ _ S) as Hsplit.
  assert (Hcons : conserved s s' leaked).
  { intros k. unfold regs_of. rewrite Hhist. apply (sq_regs _ _ _ _ _ _ _ _ S). }
  split_and!; try done.
  - split; rewrite ?Hhist; try done.
    + rewrite Hsplit in He. by apply Forall_app in He as [_ ?].
    + cbn [s' with_history freeLists]. by rewrite (sq_free _ _ _ _ _ _ _ _ S).
    + by eapply conserved_nodup.
  - apply (sq_count _ _ _ _ _ _ _ _ S).
  - apply (sq_front _ _ _ _ _ _ _ _ S).
  - by rewrite Hhist.
Qed.

(** ** Runs *)

(** The registers named by a run are those of the classes. *)
Definition op_ok (o : rename_op) : Prop :=
  match o with RRename _ arch _ => isRenameable arch = true -> arch.2 ∈ archs arch.1 | _ => True end.

Lemma conserved_trans s1 s2 s3 l1 l2 :
  conserved s1 s2 l1 -> conserved s2 s3 l2 -> conserved s1 s3 (l1 ++ l2).
Proof. intros H1 H2 c. by rewrite (H1 c), (H2 c), of_class_app, app_assoc. Qed.

Lemma conserved_refl s : conserved s s [].
Proof. by intros c. Qed.

Lemma rename_exec_ok rob o c s :
  rename_wf s -> op_ok o ->
  let r := rename_exec rob tid o (c, s) in
  exists leaked, conserved s r.2.2 leaked /\ rename_wf r.2.2 /\ (rob = None -> leaked = []) /\
    faults_injected_count r.2.1 mod 2 ^ 64 = (faults_injected_count c + Z.of_nat (length leaked)) mod 2 ^ 64.
Proof.
  intros Hwf Ho. destruct o as [seq arch n|seq|now seq|]; cbn [rename_exec modify fst snd].
  - exists []. rewrite Z.add_0_r. destruct (renameDest s tid seq arch n) as [s'|] eqn:E.
    + destruct (renameDest_ok _ _ _ _ _ Hwf Ho E). done.
    + split_and!; try done. apply conserved_refl.
  - exists []. rewrite Z.add_0_r. destruct (removeFromHistory_ok s seq Hwf). done.
  - destruct (doSquash_ok rob now seq c s Hwf) as (leaked & ? & ? & ? & ? & _). eauto.
  - exists []. rewrite Z.add_0_r. destruct (finishFreeing_ok s Hwf). done.
Qed.

Lemma rename_run_ok rob l c s :
  rename_wf s -> Forall op_ok l ->
  let r := rename_run rob tid l (c, s) in
  exists leaked, conserved s r.2.2 leaked /\ rename_wf r.2.2 /\ (rob = None -> leaked = []) /\
    faults_injected_count r.2.1 mod 2 ^ 64 = (faults_injected_count c + Z.of_nat (length leaked)) mod 2 ^ 64.
Proof.
  unfold rename_run. revert c s. induction l as [|o l IH]; intros c s Hwf Ho; cbn [for_each].
  - exists []. rewrite Z.add_0_r. split_and!; try done. apply conserved_refl.
  - apply Forall_cons in Ho as [Ho Hl]. destruct (rename_exec_ok rob o c s Hwf Ho) as (l1 & A1 & A2 & A3 & A4).
    unfold bind. destruct (rename_exec rob tid o (c, s)) as [[] [c1 s1]]. cbn [fst snd] in *.
    destruct (IH c1 s1 A2 Hl) as (l2 & B1 & B2 & B3 & B4). exists (l1 ++ l2). split_and!; try done.
    + by eapply conserved_trans.
    + intros Hn. by rewrite A3, B3.
    + rewrite B4, length_app, Nat2Z.inj_add, Z.add_assoc.
      rewrite (Zplus_mod (_ + _) (Z.of_nat (length l2))), <- A4, <- Zplus_mod. done.
Qed.

(** ** Renames followed by a squash *)

Lemma undo_ext m m' h : (forall r, m r = m' r) -> forall r, undo m h r = undo m' h r.
Proof.
  revert m m'. induction h as [|e h IH]; intros m m' Hm; [done|]. cbn. apply IH. intros r.
  destruct (renamed e); [|done]. unfold fupd. by case_decide.
Qed.

(** A rename pushes one entry, and undoing it gives the mapping back. *)
Lemma renameDest_undo s seq arch n s' :
  renameDest s tid seq arch n = Some s' ->
  exists e, instSeqNum e = seq /\ historyBuffer s' tid = e :: historyBuffer s tid /\
    forall r, undo (frontMap s' tid) [e] r = frontMap s tid r.
Proof.
  unfold renameDest. destruct (rename s tid arch n) as [[[new prev] s1]|] eqn:E; [|done]. intros [= <-].
  exists (Hist seq arch new prev).
  destruct (scoreboard_put_same s1 new false) as (S1 & _ & S3 & _).
  enough (historyBuffer s1 = historyBuffer s /\ forall r, undo (frontMap s1 tid) [Hist seq arch new prev] r = frontMap s tid r)
    as [Hh Hu].
  { split; [done|]. split; [cbn; by rewrite fupd_eq, S3, Hh|]. intros r. rewrite <- Hu. apply undo_ext.
    intros q. cbn. by rewrite S1. }
  unfold rename, simple_rename in E. destruct (isRenameable arch) eqn:Er; cbn [negb] in E.
  - destruct (frontMap s tid arch) as [q|] eqn:Eq; [|done].
    destruct (0 <? _).
    + destruct (n =? 0); [|done]. injection E as <- <- <-. split; [done|]. intros r. cbn.
      unfold renamed. by rewrite bool_decide_false by (cbn; tauto).
    + unfold freelist_getReg in E. destruct (freeLists s arch.1) as [|f fl]; [done|]. injection E as <- <- <-.
      unfold setEntry. rewrite Er. split; [done|]. intros r. cbn. rewrite fupd_eq. unfold fupd.
      destruct (renamed _) eqn:Hr; repeat case_decide; subst; try done.
      apply bool_decide_eq_false, dec_stable in Hr. cbn in Hr. by subst.
  - injection E as <- <- <-. destruct (alwaysReady s arch); split; try done; intros r; cbn;
      unfold renamed; by rewrite bool_decide_false by (cbn; tauto).
Qed.

Definition renames (l : list (Z * RegId * Z)) : list rename_op := map (fun x => RRename x.1.1 x.1.2 x.2) l.

Lemma renames_undo rob seq0 l c s :
  Forall (fun x => seq0 < x.1.1) l ->
  let r := rename_run rob tid (renames l) (c, s) in
  exists added, historyBuffer r.2.2 tid = added ++ historyBuffer s tid /\
    Forall (fun e => seq0 < instSeqNum e) added /\
    forall q, undo (frontMap r.2.2 tid) added q = frontMap s tid q.
Proof.
  unfold rename_run. revert c s. induction l as [|[[sq a] n] l IH]; intros c s Hl.
  - by exists [].
  - change (renames ((sq, a, n) :: l)) with (RRename sq a n :: renames l). cbn [for_each].
    apply Forall_cons in Hl as [Hs Hl]. unfold bind. cbn [rename_exec modify fst snd] in *.
    destruct (renameDest s tid sq a n) as [s1|] eqn:E; cbn [from_option id]; [|by apply IH].
    destruct (renameDest_undo _ _ _ _ _ E) as (e & He & Hh & Hu).
    destruct (IH c s1 Hl) as (added & A1 & A2 & A3). exists (added ++ [e]). split_and!.
    + rewrite A1, Hh. by rewrite <- app_assoc.
    + apply Forall_app. split; [done|]. constructor; [by rewrite He|constructor].
    + intros q. rewrite undo_app, <- Hu. by apply undo_ext.
Qed.

(** The history starts with entries no younger than [seq]. *)
Definition all_old (seq : Z) (h : list hist_entry) : Prop :=
  match h with [] => True | e :: _ => instSeqNum e <= seq end.

Lemma young_app seq added h :
  Forall (fun e => seq < instSeqNum e) added -> all_old seq h -> young seq (added ++ h) = added.
Proof.
  intros Ha Hh. induction Ha as [|e l He _ IH]; cbn [app young].
  - destruct h as [|e h]; [done|]. cbn in *. destruct (Z.ltb_spec seq (instSeqNum e)); [lia|done].
  - destruct (Z.ltb_spec seq (instSeqNum e)); [by rewrite IH|lia].
Qed.
End Conservation.

(** ** Certain leaks *)

(** The registers the entries of [h] allocated, newest first. *)
Definition news (h : list hist_entry) : list RegId :=
  collect (fun e => if renamed e then Some (newPhysReg e) else None) h.

(** What is left of [l] when a spec_leak injector that always fires has taken its
    share: nothing without a cap, else what exceeds the faults it still has. *)
Definition unleaked (p : rob_params) (count : Z) (l : list RegId) : list RegId :=
  if rob_max p =? 0 then [] else drop (Z.to_nat (rob_max p - count)) l.

(** An injector in spec_leak mode that fires whenever the cap allows it. *)
Definition always_leaks (p : rob_params) (now : Z) : Prop :=
  rob_mode p = SpecLeak /\ (1 <= rob_probability p)%Q /\ in_window (rob_first p) (rob_last p) now = true /\
  0 <= rob_max p < 2 ^ 64.

Lemma uniform_unit_lt_1 g p : (1 <= p)%Q -> Qle_bool p (uniform_unit g).1 = false.
Proof.
  intros Hp. apply not_true_iff_false. intros H%Qle_bool_iff. pose proof (Qle_trans _ _ _ Hp H) as Hq.
  unfold uniform_unit, next_raw, Qle in Hq. cbn [fst snd Qnum Qden] in Hq.
  pose proof (Z.mod_pos_bound (draws g (cursor g)) (2 ^ 53) eq_refl) as Hb.
  change (Z.pos (2 ^ 53)) with (2 ^ 53) in Hq. lia.
Qed.

Lemma maybeDelayFree_certain p now r c (s : o3) :
  always_leaks p now -> 0 <= faults_injected_count c ->
  let x := maybeDelayFree p now r (c, s) in
  x.2.2 = s /\ x.1 = negb (cap_reached (rob_max p) (faults_injected_count c)) /\
  0 <= faults_injected_count x.2.1 /\
  (rob_max p <> 0 -> faults_injected_count x.2.1 = faults_injected_count c + if x.1 then 1 else 0).
Proof.
  intros (Hm & Hp & Hw & Hb) Hc. destruct c as [g n st lg]. unfold maybeDelayFree. rewrite Hm, Hw.
  destruct (Qle_bool (rob_probability p) 0) eqn:E0.
  { apply Qle_bool_iff in E0. pose proof (Qle_trans _ _ _ Hp E0). by exfalso. }
  cbn [negb]. unfold bind, get_count, with_rng. cbn [fst snd faults_injected_count].
  destruct (cap_reached (rob_max p) n) eqn:Ec; cbn [ret fst snd faults_injected_count negb] in *;
    [split_and!; try done; lia|].
  rewrite uniform_unit_lt_1 by done. unfold log_if, whenM.
  assert (Hn : 0 <= count_succ n) by (apply Z.mod_pos_bound; lia).
  assert (Hs : rob_max p <> 0 -> count_succ n = n + 1).
  { intros Hx. apply (count_succ_below_cap (rob_max p)); try done. unfold cap_reached in Ec.
    apply andb_false_iff in Ec as [Ec|Ec]; bools; lia. }
  by destruct (rob_log p).
Qed.

Lemma squash_entry_certain p now tid e c s :
  always_leaks p now -> 0 <= faults_injected_count c ->
  let r := squash_entry (Some p) now tid e (c, s) in
  freeingInProgress r.2.2 tid ++ [] = freeingInProgress s tid ++ unleaked p (faults_injected_count c) (news [e]) /\
  0 <= faults_injected_count r.2.1 /\
  forall l, unleaked p (faults_injected_count c) (news [e] ++ l) =
            unleaked p (faults_injected_count c) (news [e]) ++ unleaked p (faults_injected_count r.2.1) l.
Proof.
  intros Hp Hc. unfold squash_entry, bind, modify. cbn [fst snd].
  assert (Hx : forall s1, freeingInProgress (count_undone (scoreboard_put s1 (newPhysReg e) true)) = freeingInProgress s1).
  { intros s1. cbn. apply scoreboard_put_same. }
  rewrite Hx, app_nil_r. unfold news, undo_mapping. cbn [collect]. case_decide as Hd.
  - assert (renamed e = false) as -> by (apply bool_decide_eq_false; tauto). cbn [skip ret fst snd app].
    unfold unleaked. destruct (rob_max p =? 0); rewrite ?drop_nil, ?app_nil_r; done.
  - assert (renamed e = true) as -> by (by apply renamed_spec). unfold bind, modify. cbn [fst snd].
    set (s1 := setEntry s tid (archReg e) (prevPhysReg e)).
    assert (Hs1 : freeingInProgress s1 = freeingInProgress s) by (unfold s1, setEntry; by case_match).
    destruct (maybeDelayFree_certain p now (newPhysReg e) c s1 Hp Hc) as (Y1 & Y2 & Y3 & Y4).
    clear Hx. destruct (maybeDelayFree p now (newPhysReg e) (c, s1)) as [leak [c1 s2]]. cbn [fst snd] in *. subst s2.
    unfold unleaked, cap_reached in *. destruct (Z.eqb_spec (rob_max p) 0) as [Hz|Hz]; cbn [negb andb] in *.
    + subst leak. cbn [skip ret fst snd app]. by rewrite app_nil_r, Hs1.
    + specialize (Y4 Hz). destruct (Z.leb_spec (rob_max p) (faults_injected_count c)); cbn [negb] in Y2; subst leak.
      * cbn [fst snd with_freeing freeingInProgress]. rewrite fupd_eq, Hs1, Y4, Z.add_0_r.
        replace (Z.to_nat (rob_max p - faults_injected_count c)) with O by lia. by rewrite !drop_0.
      * cbn [skip ret fst snd]. rewrite Hs1, Y4.
        replace (Z.to_nat (rob_max p - faults_injected_count c))
          with (S (Z.to_nat (rob_max p - (faults_injected_count c + 1)))) by lia.
        cbn [app drop]. rewrite drop_nil, app_nil_r. split_and!; try done. lia.
Qed.

Lemma squash_walk_certain p now tid seq h c s :
  always_leaks p now -> 0 <= faults_injected_count c ->
  freeingInProgress (squash_walk (Some p) now tid seq h (c, s)).2.2 tid =
  freeingInProgress s tid ++ unleaked p (faults_injected_count c) (news (young seq h)).
Proof.
  intros Hp. revert c s. induction h as [|e h IH]; intros c s Hc; cbn [squash_walk young].
  - unfold unleaked, news. cbn. case_match; by rewrite ?drop_nil, app_nil_r.
  - destruct (seq <? instSeqNum e).
    + destruct (squash_entry_certain p now tid e c s Hp Hc) as (H1 & H2 & H3). unfold bind.
      destruct (squash_entry (Some p) now tid e (c, s)) as [[] [c1 s1]]. cbn [fst snd] in *.
      rewrite IH by done. rewrite app_nil_r in H1. rewrite H1, <- app_assoc, <- H3.
      unfold news. by rewrite <- collect_app.
    + unfold unleaked, news. cbn. case_match; by rewrite ?drop_nil, app_nil_r.
Qed.

(** * Properties *)

(** A CPU with one class of two architectural registers, two of its four physical
    registers free. *)
Definition example_archs (c : Z) : list Z := if c =? IntRegClass then [0; 1] else [].

Definition example_o3 : o3 :=
  O3 (fun _ r => if (r.1 =? IntRegClass) && (0 <=? r.2) && (r.2 <? 2) then Some r else None) (fun _ _ => None)
     (fun c => if c =? IntRegClass then [(IntRegClass, 2); (IntRegClass, 3)] else [])
     (fun _ => []) (fun _ => []) (BK (fun _ => Pin 0 0 false) (fun _ => true) 0 0 0 0 0) example_rf
     (fun _ => true) (fun _ => true) (fun _ => false) (fun _ => false).

Definition example_core : core := Core (Engine (fun _ => 7) 0) 0 stats0 [].

Definition example_rob (mx : Z) : rob_params := RobParams SpecLeak 1 0 0 mx 0 true.

Lemma example_archs_nodup c : NoDup (example_archs c).
Proof. unfold example_archs. case_match; [|constructor]. decided. Qed.

Lemma example_o3_wf : rename_wf 0 example_archs example_o3.
Proof.
  split; try done.
  - intros r q. cbn. case_match; [|done]. by intros [= <-].
  - intros c. cbn. destruct (Z.eqb_spec c IntRegClass) as [->|]; repeat constructor.
  - intros c. unfold regs_of, mapped, example_archs. destruct (Z.eqb_spec c IntRegClass) as [->|Hc].
    + decided.
    + cbn. rewrite (proj2 (Z.eqb_neq c IntRegClass) Hc). constructor.
Qed.

(** C6 Conservation of physical registers.  Whatever sequence of renames, commits,
    squashes and completed freeings a thread runs, free list, rename map, superseded
    mappings and registers being freed together hold exactly the registers they held at
    the start, without duplicates, except for those a spec_leak injector leaked.  The
    fault counter grows by one per leaked register, and without an injector nothing is
    lost. *)
Theorem rename_conserves tid archs rob l c s :
  (forall k, NoDup (archs k)) -> rename_wf tid archs s -> Forall (op_ok archs) l ->
  let r := rename_run rob tid l (c, s) in
  exists leaked,
    (forall k, regs_of tid archs s k ≡ₚ of_class k leaked ++ regs_of tid archs r.2.2 k) /\
    rename_wf tid archs r.2.2 /\ (rob = None -> leaked = []) /\
    faults_injected_count r.2.1 mod 2 ^ 64 =
      (faults_injected_count c + Z.of_nat (length leaked)) mod 2 ^ 64.
Proof. intros Ha Hw Hl. exact (rename_run_ok tid archs Ha rob l c s Hw Hl). Qed.

Lemma rename_conserves_witness :
  let l := [RRename 1 (IntRegClass, 0) 0; RRename 2 (IntRegClass, 1) 0; RSquash 5 1; RFinish] in
  exists leaked, forall k, regs_of 0 example_archs example_o3 k ≡ₚ
    of_class k leaked ++
    regs_of 0 example_archs (rename_run (Some (example_rob 0)) 0 l (example_core, example_o3)).2.2 k.
Proof.
  intros l.
  destruct (rename_conserves 0 example_archs (Some (example_rob 0)) l example_core example_o3
              example_archs_nodup example_o3_wf) as (leaked & H & _).
  - repeat constructor; intros _; decided.
  - exists leaked. exact H.
Defined.

(** Renaming allocates a fresh register.  When the free list of the class starts with
    [r], the old mapping is not pinned and no assertion fails, the architectural register
    becomes mapped to [r], which no architectural register of the class mapped to before;
    the other mappings are unchanged, [r] leaves the free list, is marked busy in the
    scoreboard, and the history records the superseded register. *)
Theorem rename_allocates_fresh tid archs seq arch n s prev r l :
  rename_wf tid archs s -> isRenameable arch = true -> arch.2 ∈ archs arch.1 ->
  frontMap s tid arch = Some prev -> numPinnedWrites (pins (book s) prev) <= 0 -> freeLists s arch.1 = r :: l ->
  exists s', renameDest s tid seq arch n = Some s' /\
    lookup_front s' tid arch = Some r /\
    (forall a, a ∈ archs arch.1 -> frontMap s tid (arch.1, a) <> Some r) /\
    (forall q, q <> arch -> lookup_front s' tid q = lookup_front s tid q) /\
    freeLists s' arch.1 = l /\
    (alwaysReady s r = false -> scoreboard (book s') r = false) /\
    historyBuffer s' tid = Hist seq arch r prev :: historyBuffer s tid.
Proof.
  intros Hw Hr Ha Hm Hp Hl. unfold renameDest, rename, simple_rename, freelist_getReg. rewrite Hr, Hm, Hl. cbn [negb].
  rewrite (proj2 (Z.ltb_ge _ _) Hp). eexists. split; [done|]. unfold lookup_front, lookup_map, setEntry.
  rewrite Hr. set (s1 := setPinned _ _ _).
  destruct (scoreboard_put_same s1 r false) as (E1 & E2 & E3 & _).
  cbn [count_renamed with_history with_book frontMap freeLists historyBuffer]. rewrite E1, E2, E3. split_and!.
  - cbn. by rewrite !fupd_eq.
  - intros a Ha' Hq. pose proof (rw_nodup _ _ _ Hw arch.1) as Hn. unfold regs_of in Hn. rewrite Hl in Hn.
    apply NoDup_cons in Hn as [Hn _]. apply Hn. rewrite !elem_of_app. right. left. by eapply mapped_elem.
  - intros q Hq. cbn. rewrite fupd_eq. by rewrite fupd_ne.
  - cbn. apply fupd_eq.
  - intros Hready. unfold scoreboard_put. change (alwaysReady s1 r) with (alwaysReady s r). rewrite Hready.
    cbn. apply fupd_eq.
  - by rewrite fupd_eq.
Qed.

Lemma rename_allocates_fresh_witness :
  exists s', renameDest example_o3 0 1 (IntRegClass, 1) 0 = Some s' /\
    lookup_front s' 0 (IntRegClass, 1) = Some (IntRegClass, 2) /\ freeLists s' IntRegClass = [(IntRegClass, 3)].
Proof.
  destruct (rename_allocates_fresh 0 example_archs 1 (IntRegClass, 1) 0 example_o3 (IntRegClass, 1)
              (IntRegClass, 2) [(IntRegClass, 3)] example_o3_wf) as (s' & H1 & H2 & _ & _ & H3 & _);
    try (by vm_compute).
  - decided.
  - exists s'. by split_and!.
Defined.

(** C13 Squashing undoes renaming.  After any renames of instructions younger than
    [seq0], a squash to [seq0] followed by the freeing restores every mapping and the
    history, and the free lists hold again what they held, plus the registers whose
    freeing was in progress. *)
Theorem rename_squash_roundtrip tid archs seq0 now l c s :
  (forall k, NoDup (archs k)) -> rename_wf tid archs s -> Forall (op_ok archs) (renames l) ->
  Forall (fun x => seq0 < x.1.1) l -> all_old seq0 (historyBuffer s tid) ->
  let s' := (rename_run None tid (renames l ++ [RSquash now seq0; RFinish]) (c, s)).2.2 in
  (forall q, frontMap s' tid q = frontMap s tid q) /\ historyBuffer s' tid = historyBuffer s tid /\
  freeingInProgress s' tid = [] /\
  forall k, freeLists s' k ≡ₚ freeLists s k ++ of_class k (freeingInProgress s tid).
Proof.
  intros Ha Hw Ho Hl Hold s'.
  destruct (rename_run_ok tid archs Ha None (renames l) c s Hw Ho) as (k1 & A1 & A2 & A3 & _).
  destruct (renames_undo tid None seq0 l c s Hl) as (added & B1 & B2 & B3).
  rewrite (A3 eq_refl) in A1.
  set (r1 := rename_run None tid (renames l) (c, s)) in *.
  destruct (doSquash_ok tid archs Ha None now seq0 r1.2.1 r1.2.2 A2) as (k2 & C1 & C2 & C3 & _ & C5 & C6).
  rewrite (C3 eq_refl) in C1. rewrite B1, (young_app _ _ _ B2 Hold) in C5, C6. apply app_inv_head in C6.
  set (r2 := doSquash None now tid seq0 (r1.2.1, r1.2.2)) in *.
  destruct (finishFreeing_ok tid archs r2.2.2 C2) as [D1 _].
  assert (Hs' : s' = finishFreeing r2.2.2 tid).
  { unfold s', rename_run. rewrite for_each_app. unfold bind. cbn [for_each rename_exec bind modify fst snd].
    fold (rename_run None tid (renames l)). fold r1. subst r2. by destruct r1 as [? [? ?]]. }
  destruct (fold_addReg_spec (freeingInProgress r2.2.2 tid) r2.2.2) as (F1 & F2 & _).
  assert (Hfront : forall q, frontMap s' tid q = frontMap s tid q).
  { intros q. rewrite Hs'. unfold finishFreeing. cbn [with_freeing frontMap]. rewrite F1, C5. apply B3. }
  assert (Hhist : historyBuffer s' tid = historyBuffer s tid).
  { rewrite Hs'. unfold finishFreeing. cbn [with_freeing historyBuffer]. by rewrite F2. }
  assert (Hfip : freeingInProgress s' tid = []) by (rewrite Hs'; cbn; apply fupd_eq).
  split_and!; try done. intros k.
  pose proof (conserved_trans tid archs _ _ _ _ _ (conserved_trans tid archs _ _ _ _ _ A1 C1) D1 k) as Hk.
  rewrite <- Hs' in Hk. unfold regs_of in Hk. rewrite Hhist, Hfip in Hk.
  assert (Hmap : mapped archs (frontMap s' tid) k = mapped archs (frontMap s tid) k).
  { apply collect_ext. intros a _. apply Hfront. }
  rewrite Hmap in Hk. cbn [app] in Hk. change (of_class k []) with (@nil RegId) in Hk.
  apply (Permutation_app_inv_r (mapped archs (frontMap s tid) k ++ prevs (historyBuffer s tid) k)).
  rewrite app_nil_r in Hk. etrans; [symmetry; exact Hk|]. solve_Permutation.
Qed.

Lemma rename_squash_roundtrip_witness :
  let l := [(3, (IntRegClass, 0), 0); (4, (IntRegClass, 0), 0)] in
  let s' := (rename_run None 0 (renames l ++ [RSquash 9 2; RFinish]) (example_core, example_o3)).2.2 in
  frontMap s' 0 (IntRegClass, 0) = Some (IntRegClass, 0) /\
  freeLists s' IntRegClass ≡ₚ [(IntRegClass, 2); (IntRegClass, 3)].
Proof.
  intros l s'.
  destruct (rename_squash_roundtrip 0 example_archs 2 9 l example_core example_o3
              example_archs_nodup example_o3_wf) as (H1 & _ & _ & H2).
  - repeat constructor; intros _; decided.
  - repeat constructor; lia.
  - done.
  - split; [apply (H1 (IntRegClass, 0))|apply (H2 IntRegClass)].
Defined.

(** The reach of a spec_leak fault.  An injector that fires with certainty, inside its
    window, keeps from the free list exactly the registers allocated by the squashed
    instructions it meets first (the youngest), as many as the fault cap still allows,
    and all of them without a cap: only the rest is queued for freeing. *)
Theorem spec_leak_exact p now tid seq c s :
  always_leaks p now -> 0 <= faults_injected_count c ->
  freeingInProgress (doSquash (Some p) now tid seq (c, s)).2.2 tid =
  freeingInProgress s tid ++
  unleaked p (faults_injected_count c) (news (young seq (historyBuffer s tid))).
Proof. intros Hp Hc. by rewrite <- (squash_walk_certain p now tid seq (historyBuffer s tid) c s Hp Hc). Qed.

Lemma spec_leak_exact_witness :
  let s := (rename_run None 0 (renames [(3, (IntRegClass, 0), 0); (4, (IntRegClass, 1), 0)])
              (example_core, example_o3)).2.2 in
  freeingInProgress (doSquash (Some (example_rob 1)) 5 0 2 (example_core, s)).2.2 0 = [(IntRegClass, 2)].
Proof.
  intros s. rewrite (spec_leak_exact (example_rob 1) 5 0 2 example_core s).
  - by vm_compute.
  - split_and!; by vm_compute.
  - by vm_compute.
Defined.
