(* ===== verification/AttackLoop.v ===== *)
(** * The attack loop of the polling injectors

    CHAOSRenameMap, CHAOSFreeList, CHAOSROB, CHAOSIQ and the result injectors share one
    shape of [attackCheck]: run [processFault] on every active thread, then, below the
    fault cap, schedule the next attempt after a geometric delay, unless it falls
    outside the window.  The loop is modelled once, over the [processFault] of the
    injector; [CappedFault] is what a [processFault] promises the loop: it counts at
    most one fault, and none at the cap. *)

From Stdlib Require Import ZArith Lia QArith.
From stdpp Require Import base list numbers strings.
From S2P Require Import Prelude Word Random EventQueue.

Open Scope Z_scope.

(** Where the state keeps the attack event, and which threads the loop visits. *)
Class AttackState (X : Type) := {
  attack_of : X -> evt;
  on_attack : (evt -> evt) -> X -> X;
  thread_count : X -> Z;
  thread_active : X -> Z -> bool
}.

Class AttackStateOk (X : Type) `{A : AttackState X} : Prop := {
  attack_of_on f x : attack_of (on_attack f x) = f (attack_of x)
}.

(** The members of an injector the loop reads. *)
Record loop_params := LoopParams {
  lp_probability : Q; lp_first : Z; lp_last : Z; lp_max : Z;
  lp_backoff : bool                    (* a rejected attempt waits at least a cycle *)
}.

Section AttackLoop.
Context {X : Type} `{A : AttackState X} (p : loop_params) (processFault : Z -> Z -> M X unit).

Definition thread_ids (x : X) : list Z := map Z.of_nat (seq 0 (Z.to_nat (thread_count x))).

(** [if (!thread_context || status() == Halted) continue; processFault(tid);] *)
Definition attack_one (now tid : Z) : M X unit :=
  let! x := get in
  if thread_active x tid then processFault now tid else skip.

(** The delay to the next attempt. *)
Definition next_delay (before after d : Z) : Z :=
  if lp_backoff p && (after =? before) then Z.max d 1 else d.

Definition attackLoop (now : Z) : M X unit :=
  if Qeq_bool (lp_probability p) 0 then skip
  else
    let! before := get_count in
    let! x := get in
    do! for_each (thread_ids x) (attack_one now) in
    let! after := get_count in
    if (lp_max p =? 0) || (after <? lp_max p) then
      let! d := with_rng (geometric (lp_probability p)) in
      let next := next_delay before after d in
      whenM ((lp_last p =? 0) || (u64 (now + next) <=? lp_last p))
            (modify (on_attack (schedule_at now next)))
    else skip.

(** [startup]: the first attempt. *)
Definition attackStartup (now : Z) : M X unit :=
  if Qeq_bool (lp_probability p) 0 then skip
  else
    let! d := with_rng (geometric (lp_probability p)) in
    modify (on_attack (schedule_at now (lp_first p + d))).

(** The queue reaches the attack event. *)
Definition fireAttack (now : Z) : M X unit :=
  let! x := get in
  if negb (scheduled (attack_of x)) then skip
  else
    do! modify (on_attack (fun e => (service_evt e).2)) in
    whenM (service_evt (attack_of x)).1 (attackLoop now).
End AttackLoop.

(** ** What a [processFault] promises *)

Class CappedFault {X : Type} (mx : Z) (pf : Z -> Z -> M X unit) : Prop :=
  capped_fault : forall now tid s, 0 <= faults_injected_count s.1 ->
    let c' := faults_injected_count (pf now tid s).2.1 in
    c' = faults_injected_count s.1 \/
    (c' = count_succ (faults_injected_count s.1) /\ cap_reached mx (faults_injected_count s.1) = false).

(** * Lemmas *)

(** The counter stays within the cap. *)
Definition within_cap {X : Type} (mx : Z) (s : core * X) : Prop :=
  0 <= faults_injected_count s.1 /\ (mx <> 0 -> faults_injected_count s.1 <= mx).

Section Laws.
Context {X : Type} `{A : AttackState X} (p : loop_params) (pf : Z -> Z -> M X unit).
Context {HC : CappedFault (lp_max p) pf} (Hmax : 0 <= lp_max p < 2 ^ 64).

Lemma count_succ_nonneg c : 0 <= count_succ c.
Proof. unfold count_succ. apply Z.mod_pos_bound. lia. Qed.

Lemma within_cap_fault now tid : preserves (within_cap (lp_max p)) (pf now tid).
Proof.
  intros s [H0 H1]. destruct (HC now tid s H0) as [H|[H Hc]]; unfold within_cap; rewrite H; [done|].
  split; [apply count_succ_nonneg|]. intros Hm. unfold cap_reached in Hc.
  apply andb_false_iff in Hc as [Hc|Hc]; bools; [done|].
  rewrite (count_succ_below_cap (lp_max p)); lia.
Qed.

Lemma within_cap_core (m : M X unit) :
  (forall s, faults_injected_count (m s).2.1 = faults_injected_count s.1) ->
  preserves (within_cap (lp_max p)) m.
Proof. intros H s Hs. unfold within_cap. by rewrite H. Qed.

Lemma within_cap_attack_one now tid : preserves (within_cap (lp_max p)) (attack_one pf now tid).
Proof.
  intros s Hs. unfold attack_one, bind, get. cbn [fst snd].
  destruct (thread_active s.2 tid); [by apply within_cap_fault|done].
Qed.

Lemma within_cap_loop now : preserves (within_cap (lp_max p)) (attackLoop p pf now).
Proof.
  intros s Hs. unfold attackLoop. destruct (Qeq_bool (lp_probability p) 0); [done|].
  unfold bind, get_count, get. cbn [fst snd].
  set (s1 := (for_each (thread_ids s.2) (attack_one pf now) s).2).
  assert (within_cap (lp_max p) s1) as H1.
  { apply preserves_for_each; [intros; apply within_cap_attack_one|done]. }
  clearbody s1. destruct s1 as [[g c st lg] x]. unfold within_cap in *. cbn [fst snd] in *.
  destruct (_ || _); [|done]. unfold with_rng, whenM. cbn. by destruct (_ || _).
Qed.

Lemma within_cap_fire now : preserves (within_cap (lp_max p)) (fireAttack p pf now).
Proof.
  intros s Hs. unfold fireAttack, bind, get. cbn [fst snd].
  destruct (negb (scheduled (attack_of s.2))); [done|]. unfold modify, whenM. cbn [fst snd].
  destruct (service_evt (attack_of s.2)).1; [|done]. by apply within_cap_loop.
Qed.
End Laws.

(** The attempt that follows is scheduled, if at all, after [next_delay]. *)
Section Reschedule.
Context {X : Type} {AS : AttackState X} {AOK : AttackStateOk X} (p : loop_params) (pf : Z -> Z -> M X unit).

Definition keeps_attack : Prop := forall now tid s, attack_of (pf now tid s).2.2 = attack_of s.2.

Lemma loop_keeps_attack now l s :
  keeps_attack -> attack_of (for_each l (attack_one pf now) s).2.2 = attack_of s.2.
Proof.
  intros Hk. revert s. induction l as [|t l IH]; intros s; [done|]. cbn [for_each]. unfold bind at 1.
  rewrite IH. unfold attack_one, bind, get. cbn [fst snd]. destruct (thread_active s.2 t); [apply Hk|done].
Qed.

(** After an attack the event is pending exactly when the cap is not reached and the
    next attempt is inside the window; it is then due at [now] plus the delay. *)
Lemma attackLoop_event now s :
  keeps_attack -> Qeq_bool (lp_probability p) 0 = false -> scheduled (attack_of s.2) = false ->
  let r := attackLoop p pf now s in
  exists g, let next := next_delay p (faults_injected_count s.1) (faults_injected_count r.2.1)
                          (geometric (lp_probability p) g).1 in
    attack_of r.2.2 =
      if ((lp_max p =? 0) || (faults_injected_count r.2.1 <? lp_max p)) &&
         ((lp_last p =? 0) || (u64 (now + next) <=? lp_last p))
      then Evt true (squashed (attack_of s.2)) (now + next) else attack_of s.2.
Proof.
  intros Hk Hp Hs. unfold attackLoop. rewrite Hp. unfold bind, get_count, get. cbn [fst snd].
  pose proof (loop_keeps_attack now (thread_ids s.2) s Hk) as Ha.
  destruct (for_each (thread_ids s.2) (attack_one pf now) s) as [[] [[g c st lg] x]]. cbn [fst snd faults_injected_count] in *.
  destruct ((lp_max p =? 0) || (c <? lp_max p)) eqn:E1.
  - exists g. unfold with_rng. cbn [fst snd faults_injected_count rng]. unfold whenM.
    destruct ((lp_last p =? 0) || _) eqn:E2; cbn [modify skip ret fst snd faults_injected_count];
      rewrite E1, E2; cbn [andb]; [|done].
    rewrite attack_of_on. unfold schedule_at. by rewrite Ha, Hs.
  - exists g. cbn [skip ret fst snd faults_injected_count]. by rewrite E1.
Qed.
End Reschedule.

(** ** Attempts that all fail

    With probability 1 the geometric delay is 0; a loop without backoff whose attempts
    are rejected schedules the next one for the same cycle. *)

Lemma geometric_certain q g : (1 <= q)%Q -> (geometric q g).1 = 0.
Proof. intros Hq. unfold geometric. cbn. by rewrite (proj2 (Qle_bool_iff 1 q) Hq). Qed.

Section Livelock.
Context {X : Type} {AS : AttackState X} {AOK : AttackStateOk X} (p : loop_params) (pf : Z -> Z -> M X unit) (I : X -> Prop) (n now : Z).
Context (Hp : (1 <= lp_probability p)%Q) (Hb : lp_backoff p = false)
        (Hcap : cap_reached (lp_max p) n = false)
        (Hnow : uint 64 now) (Hlast : lp_last p = 0 \/ now <= lp_last p)
        (Hon : forall f x, I x -> I (on_attack f x))
        (Hpf : forall now tid s, I s.2 -> faults_injected_count s.1 = n ->
               let s' := (pf now tid s).2 in
               I s'.2 /\ faults_injected_count s'.1 = n /\ attack_of s'.2 = attack_of s.2).

(** A rejected state: the invariant, the count, and the attack pending at [now]. *)
Definition pending_now (s : core * X) : Prop :=
  I s.2 /\ faults_injected_count s.1 = n /\ attack_of s.2 = Evt true false now.

Lemma rejected_threads l s :
  I s.2 -> faults_injected_count s.1 = n ->
  let s' := (for_each l (attack_one pf now) s).2 in
  I s'.2 /\ faults_injected_count s'.1 = n /\ attack_of s'.2 = attack_of s.2.
Proof.
  revert s. induction l as [|t l IH]; intros s HI Hn; [done|]. cbn [for_each]. unfold bind.
  set (s1 := (attack_one pf now t s).2).
  assert (I s1.2 /\ faults_injected_count s1.1 = n /\ attack_of s1.2 = attack_of s.2) as (H1 & H2 & H3).
  { subst s1. unfold attack_one, bind, get. cbn [fst snd].
    destruct (thread_active s.2 t); [by apply Hpf|done]. }
  cbn zeta. rewrite <- H3. by apply IH.
Qed.

Lemma fire_pending s : pending_now s -> pending_now (fireAttack p pf now s).2.
Proof.
  intros (HI & Hn & He). unfold fireAttack, bind, get. cbn [fst snd]. rewrite He. cbn [scheduled negb service_evt squashed whenM fst].
  unfold attackLoop.
  assert (Hq : Qeq_bool (lp_probability p) 0 = false).
  { apply not_true_iff_false. intros H0%Qeq_bool_iff. rewrite H0 in Hp. by apply Qle_bool_iff in Hp. }
  rewrite Hq. unfold bind, get_count, get, modify. cbn [fst snd].
  set (s1 := (s.1, on_attack _ s.2)).
  destruct (rejected_threads (thread_ids s1.2) s1) as (R1 & R2 & R3); [by apply Hon|done|].
  change (on_attack (fun e => (service_evt e).2) s.2) with s1.2.
  destruct (for_each (thread_ids s1.2) (attack_one pf now) s1) as [u [[g c st lg] x]]. cbn [fst snd faults_injected_count] in *.
  subst c. replace ((lp_max p =? 0) || (n <? lp_max p)) with true.
  2:{ unfold cap_reached in Hcap. symmetry. apply orb_true_iff. apply andb_false_iff in Hcap as [H|H]; bools; [left; lia|right; lia]. }
  unfold with_rng. cbn [fst snd rng modify]. rewrite geometric_certain by done. unfold next_delay. rewrite Hb. cbn [andb].
  rewrite Z.add_0_r. unfold u64. rewrite Z.mod_small by apply Hnow.
  replace ((lp_last p =? 0) || (now <=? lp_last p)) with true.
  2:{ symmetry. apply orb_true_iff. destruct Hlast; [left|right]; lia. }
  unfold pending_now. cbn [whenM fst snd faults_injected_count]. split; [by apply Hon|]. split; [done|].
  rewrite attack_of_on, R3. subst s1. cbn [snd]. rewrite attack_of_on, He. cbn. by rewrite Z.add_0_r.
Qed.

Lemma fire_pending_iter k s : pending_now s -> pending_now (Nat.iter k (fun s => (fireAttack p pf now s).2) s).
Proof. intros Hs. induction k as [|k IH]; [done|]. cbn. by apply fire_pending. Qed.
End Livelock.

(** Rounds of an injector between arbitrary changes of the simulated machine. *)
Definition rounds {X} (fire : Z -> M X unit) (l : list (Z * (X -> X))) : M X unit :=
  for_each l (fun e => do! modify e.2 in fire e.1).

Lemma within_cap_rounds {X} (mx : Z) (fire : Z -> M X unit) l :
  (forall now, preserves (within_cap mx) (fire now)) -> preserves (within_cap mx) (rounds fire l).
Proof.
  intros Hf. apply preserves_for_each. intros [now f]. apply preserves_bind; [|intros _; apply Hf].
  intros s Hs. exact Hs.
Qed.
