(* ===== verification/ChaosRename.v ===== *)
(** * The injectors on the rename structures

    CHAOSRenameMap (front-end rename map), CHAOSFreeList (physical free list) and
    CHAOSROB (head of the reorder buffer), over the O3 state of [Rename].  Theorems: what
    one fault changes and what it leaves alone, the persistence of stuck mappings, the
    double allocation a freed live register leads to, and the fault caps. *)

From Stdlib Require Import ZArith Lia QArith.
From stdpp Require Import base list numbers strings.
From S2P Require Import Prelude Word Random EventQueue ThreadContext RegFile Rename AttackLoop.

Open Scope Z_scope.

(** [(int)x] of an unsigned 64-bit value. *)
Definition int_of (x : Z) : Z := (x + 2 ^ 31) mod 2 ^ 32 - 2 ^ 31.

Inductive RegClassSel := SelInteger | SelFloatingPoint | SelVector.

Definition stringToRegClassSel (s : string) : RegClassSel :=
  if String.eqb s "floating_point" then SelFloatingPoint
  else if String.eqb s "vector" then SelVector
  else SelInteger.

(** The [target_class] of the handlers. *)
Definition sel_class (s : RegClassSel) : Z :=
  match s with
  | SelFloatingPoint => FloatRegClass
  | SelVector => VecRegClass
  | SelInteger => IntRegClass
  end.

Definition ctx_active (s : o3) (tid : Z) : bool := ctx_exists s tid && negb (ctx_halted s tid).

(** [0, 1, ..., n - 1] *)
Definition indices (n : Z) : list Z := map Z.of_nat (seq 0 (Z.to_nat n)).

(** [uniform_int_distribution<int> bitDist(0, hi); mask = 1ULL << bitDist(rng);] *)
Definition one_bit (hi : Z) (g : engine) : Z * engine :=
  let r := uniform_int 0 hi g in (Z.shiftl 1 r.1, r.2).

(** ** CHAOSRenameMap *)

Inductive RatMode := MapBitFlip | F5Substitute | F4FieldStuck.

Definition stringToRatMode (s : string) : RatMode :=
  if String.eqb s "map_bitflip" then MapBitFlip
  else if String.eqb s "f4_field_stuck" then F4FieldStuck
  else F5Substitute.

Definition ratModeToString (m : RatMode) : string :=
  match m with
  | MapBitFlip => "map_bitflip" | F5Substitute => "f5_substitute" | F4FieldStuck => "f4_field_stuck"
  end.

Record rat_params := RatParams {
  rat_loop : loop_params; rat_mode : RatMode; rat_class : RegClassSel;
  rat_target : Z; rat_mask : Z; rat_log : bool
}.

Record rat_state := RatState {
  rat_cpu : o3;
  rat_attack : evt; rat_periodic : evt; rat_trace : evt;
  traced_phys_idx : Z; traced_class : Z; overwrite_recorded : bool;
  stuck_mappings : list ((Z * Z) * Z)               (* (tid, arch_idx) -> phys_idx *)
}.

Definition rat_on_cpu (f : o3 -> o3) (s : rat_state) : rat_state :=
  RatState (f (rat_cpu s)) (rat_attack s) (rat_periodic s) (rat_trace s) (traced_phys_idx s)
           (traced_class s) (overwrite_recorded s) (stuck_mappings s).
Definition rat_on_attack (f : evt -> evt) (s : rat_state) : rat_state :=
  RatState (rat_cpu s) (f (rat_attack s)) (rat_periodic s) (rat_trace s) (traced_phys_idx s)
           (traced_class s) (overwrite_recorded s) (stuck_mappings s).
Definition rat_on_periodic (f : evt -> evt) (s : rat_state) : rat_state :=
  RatState (rat_cpu s) (rat_attack s) (f (rat_periodic s)) (rat_trace s) (traced_phys_idx s)
           (traced_class s) (overwrite_recorded s) (stuck_mappings s).
Definition rat_on_trace (f : evt -> evt) (s : rat_state) : rat_state :=
  RatState (rat_cpu s) (rat_attack s) (rat_periodic s) (f (rat_trace s)) (traced_phys_idx s)
           (traced_class s) (overwrite_recorded s) (stuck_mappings s).
Definition rat_stick (k : Z * Z) (phys : Z) (s : rat_state) : rat_state :=
  RatState (rat_cpu s) (rat_attack s) (rat_periodic s) (rat_trace s) (traced_phys_idx s)
           (traced_class s) (overwrite_recorded s) (map_assign k phys (stuck_mappings s)).
Definition rat_set_traced (phys class : Z) (over : bool) (s : rat_state) : rat_state :=
  RatState (rat_cpu s) (rat_attack s) (rat_periodic s) (rat_trace s) phys class over (stuck_mappings s).

(** [readTraceEvent] and the register it polls, for the injectors that trace. *)
Class Traced (X : Type) := {
  tr_cpu : X -> o3;
  tr_threads : X -> list Z;
  tr_idx : X -> Z;
  tr_on_cpu : (o3 -> o3) -> X -> X;
  tr_on_event : (evt -> evt) -> X -> X;
  tr_clear_idx : X -> X
}.

(** [readTraceCheck]: log the counter; go on polling while a thread is active, else
    report the final count and disarm. *)
Definition readTraceCheck {X} `{Traced X} (log : bool) (now : Z) : M X unit :=
  let! x := get in
  let reads := reads_before_overwrite (regFile (tr_cpu x)) in
  do! log_if log (Entry "ReadTracePoll" [("cycle", now); ("phys", tr_idx x); ("reads", reads)]) in
  if existsb (ctx_active (tr_cpu x)) (tr_threads x) then
    modify (tr_on_event (schedule_at now 5000))
  else
    do! log_if log (Entry "ReadTraceFinal" [("phys", tr_idx x); ("reads", reads)]) in
    do! modify (tr_on_cpu (fun c => with_rf c (clearReadTraceTarget (regFile c)))) in
    modify tr_clear_idx.

Section CHAOSRenameMap.
Context (cfg : o3_config) (p : rat_params).
Abbreviation MT := (M rat_state).

Definition rat_cls : Z := sel_class (rat_class p).

(** [cpu->frontRenameMap()[tid].lookup(RegId(class, cand).flatten(isa))] *)
Definition rat_lookup (s : o3) (tid cand : Z) : option RegId :=
  lookup_front s tid (flatten cfg (rat_cls, cand)).

Definition rat_reject : MT unit := bump numLegalityRejects.

(** The architectural register: the configured one, else one drawn among the mapped
    registers of the class; [None] when there is none. *)
Definition rat_pick_arch (s : o3) (tid : Z) (g : engine) : option Z * engine :=
  let n_arch := numArchRegs cfg rat_cls in
  if (rat_target p <? 0) || (n_arch <=? rat_target p) then
    let act := filter (fun cand => rat_lookup s tid cand <> None) (indices n_arch) in
    match act with
    | [] => (None, g)
    | _ => let r := uniform_int 0 (Z.of_nat (length act) - 1) g in
           (Some (act !!! Z.to_nat r.1), r.2)
    end
  else (Some (rat_target p), g).

(** The donor loop: up to [n] random registers of the class, until one other than
    [arch] is mapped to a register of another index. *)
Fixpoint rat_donor (s : o3) (tid arch old : Z) (n : nat) (g : engine) : option (Z * RegId) * engine :=
  match n with
  | O => (None, g)
  | S n' =>
      let r := uniform_int 0 (numArchRegs cfg rat_cls - 1) g in
      if r.1 =? arch then rat_donor s tid arch old n' r.2
      else match rat_lookup s tid r.1 with
           | Some pp => if pp.2 =? old then rat_donor s tid arch old n' r.2 else (Some (r.1, pp), r.2)
           | None => rat_donor s tid arch old n' r.2
           end
  end.

(** The mode's part of [processFault]: the index the register is now mapped to and the
    mask, or [None] on a rejection. *)
Definition rat_corrupt (now tid arch : Z) (old : RegId) : MT (option (Z * Z)) :=
  let flat := flatten cfg (rat_cls, arch) in
  match rat_mode p with
  | MapBitFlip =>
      let! mask := with_rng (mask_or (rat_mask p) (one_bit 7)) in
      let new := Z.lxor old.2 (int_of mask) in
      if (new <? 0) || (numPhysRegs cfg rat_cls <=? new) then
        do! rat_reject in
        do! log_if (rat_log p) (Entry "map_bitflip REJECT"
              [("cycle", now); ("old_phys", old.2); ("mask", mask); ("new_phys", new)]) in
        ret None
      else
        do! modify (rat_on_cpu (fun c => setEntry c tid flat (rat_cls, new))) in
        do! bump numMapBitFlips in
        ret (Some (new, mask))
  | F5Substitute =>
      let! s := get in
      let! d := with_rng (rat_donor (rat_cpu s) tid arch old.2 (Z.to_nat (numArchRegs cfg rat_cls))) in
      match d with
      | None =>
          do! rat_reject in
          do! log_if (rat_log p) (Entry "f5_substitute REJECT" [("cycle", now); ("arch", arch)]) in
          ret None
      | Some (donor_arch, donor) =>
          do! modify (rat_on_cpu (fun c => setEntry c tid flat donor)) in
          do! bump numF5Substitutes in
          do! log_if (rat_log p) (Entry "f5_substitute"
                [("cycle", now); ("arch", arch); ("phys", donor.2); ("donor", donor_arch); ("was", old.2)]) in
          ret (Some (donor.2, 0))
      end
  | F4FieldStuck =>
      let! s := get in
      let! d := with_rng (rat_donor (rat_cpu s) tid arch old.2 (Z.to_nat (numArchRegs cfg rat_cls))) in
      match d with
      | None => do! rat_reject in ret None
      | Some (donor_arch, donor) =>
          do! modify (rat_on_cpu (fun c => setEntry c tid flat donor)) in
          do! modify (rat_stick (tid, arch) donor.2) in
          do! bump numF4FieldStuck in
          do! log_if (rat_log p) (Entry "f4_field_stuck"
                [("cycle", now); ("arch", arch); ("phys", donor.2); ("donor", donor_arch); ("was", old.2)]) in
          ret (Some (donor.2, 0))
      end
  end.

(** The end of [processFault]: arm the read counter on the wrong target. *)
Definition rat_arm (now old new : Z) : MT unit :=
  if new =? old then skip
  else
    do! modify (rat_set_traced new rat_cls false) in
    do! modify (rat_on_cpu (fun c => with_rf c (setReadTraceTarget (regFile c) rat_cls new))) in
    modify (rat_on_trace (schedule_at now 50)).

Definition rat_processFault (now tid : Z) : MT unit :=
  let! c := get_count in
  if cap_reached (lp_max (rat_loop p)) c then skip
  else
    let! s := get in
    if negb (ctx_exists (rat_cpu s) tid) then skip
    else if negb (ctx_isa (rat_cpu s) tid) then skip
    else if numArchRegs cfg rat_cls =? 0 then rat_reject
    else
      let! a := with_rng (rat_pick_arch (rat_cpu s) tid) in
      match a with
      | None => rat_reject
      | Some arch =>
          match rat_lookup (rat_cpu s) tid arch with
          | None => rat_reject
          | Some old =>
              let! r := rat_corrupt now tid arch old in
              match r with
              | None => skip
              | Some (new, mask) =>
                  do! bump numFaultsInjected in
                  do! incr_count in
                  do! log_if (rat_log p) (Entry "rat_front_rename_map"
                        [("cycle", now); ("thread", tid); ("arch", arch); ("old_phys", old.2);
                         ("new_phys", new); ("mask", mask)]) in
                  rat_arm now old.2 new
              end
          end
      end.

(** The loop of [checkPermanent] *)
Definition rat_repin (e : (Z * Z) * Z) : MT unit :=
  let '((tid, arch), phys) := e in
  if numArchRegs cfg rat_cls <=? arch then skip
  else modify (rat_on_cpu (fun c => setEntry c tid (flatten cfg (rat_cls, arch)) (rat_cls, phys))).

(** [checkPermanent]; the delay handed to [clockEdge] is [curCycle() + 100000]. *)
Definition rat_checkPermanent (now : Z) : MT unit :=
  let! s := get in
  do! (if ctx_exists (rat_cpu s) 0 && ctx_isa (rat_cpu s) 0
       then for_each (stuck_mappings s) rat_repin else skip) in
  modify (rat_on_periodic (schedule_at now (now + 100000))).
End CHAOSRenameMap.

#[global] Instance rat_attack_state (cfg : o3_config) : AttackState rat_state := {|
  attack_of := rat_attack;
  on_attack := rat_on_attack;
  thread_count _ := cpuThreads cfg;
  thread_active s tid := ctx_active (rat_cpu s) tid
|}.

#[global] Instance rat_traced (cfg : o3_config) : Traced rat_state := {|
  tr_cpu := rat_cpu;
  tr_threads _ := indices (cpuThreads cfg);
  tr_idx := traced_phys_idx;
  tr_on_cpu := rat_on_cpu;
  tr_on_event := rat_on_trace;
  tr_clear_idx s := rat_set_traced (-1) (traced_class s) (overwrite_recorded s) s
|}.

#[global] Instance rat_attack_ok (cfg : o3_config) : AttackStateOk rat_state (A := rat_attack_state cfg).
Proof. by constructor. Qed.

Definition rat_attackCheck (cfg : o3_config) (p : rat_params) (now : Z) : M rat_state unit :=
  attackLoop (A := rat_attack_state cfg) (rat_loop p) (rat_processFault cfg p) now.

Definition rat_startup (cfg : o3_config) (p : rat_params) (now : Z) : M rat_state unit :=
  do! attackStartup (A := rat_attack_state cfg) (rat_loop p) now in
  if Qeq_bool (lp_probability (rat_loop p)) 0 then skip
  else match rat_mode p with
       | F4FieldStuck => modify (rat_on_periodic (schedule_at now (lp_first (rat_loop p) + 1)))
       | _ => skip
       end.

(** ** CHAOSFreeList *)

Inductive FreeMode := MarkFree | PopWrong.

Definition stringToFreeMode (s : string) : FreeMode :=
  if String.eqb s "pop_wrong" then PopWrong else MarkFree.

Definition freeModeToString (m : FreeMode) : string :=
  match m with MarkFree => "mark_free" | PopWrong => "pop_wrong" end.

Record fl_params := FlParams {
  fl_loop : loop_params; fl_mode : FreeMode; fl_class : RegClassSel; fl_target : Z; fl_log : bool
}.

Record fl_state := FlState { fl_cpu : o3; fl_attack : evt }.

Definition fl_on_cpu (f : o3 -> o3) (s : fl_state) : fl_state := FlState (f (fl_cpu s)) (fl_attack s).
Definition fl_on_attack (f : evt -> evt) (s : fl_state) : fl_state := FlState (fl_cpu s) (f (fl_attack s)).

Section CHAOSFreeList.
Context (cfg : o3_config) (p : fl_params).
Abbreviation MF := (M fl_state).

Definition fl_cls : Z := sel_class (fl_class p).

(** The scan of the rename map for a live register: the register and the architectural
    register it was found through. *)
Fixpoint fl_scan (s : o3) (tid : Z) (n : nat) (g : engine) : option (RegId * Z) * engine :=
  match n with
  | O => (None, g)
  | S n' =>
      let r := uniform_int 0 (numArchRegs cfg fl_cls - 1) g in
      match lookup_front s tid (flatten cfg (fl_cls, r.1)) with
      | Some pp => if isFree s fl_cls pp then fl_scan s tid n' r.2 else (Some (pp, r.1), r.2)
      | None => fl_scan s tid n' r.2
      end
  end.

(** The target of [processFault]: the configured register (an index within the
    register file), else the result of the scan. *)
Definition fl_pick (s : o3) (tid : Z) (g : engine) : option (RegId * Z) * engine :=
  if 0 <=? fl_target p then (Some ((fl_cls, fl_target p), -1), g)
  else fl_scan s tid (Z.to_nat (numArchRegs cfg fl_cls)) g.

(** The [PopWrong] branch. *)
Definition fl_pop (now : Z) : MF unit :=
  let! s := get in
  if numFreeRegs (fl_cpu s) fl_cls <=? 0 then skip
  else match freelist_getReg (fl_cpu s) fl_cls with
  | None => skip
  | Some (popped, c) =>
      do! modify (fl_on_cpu (fun _ => c)) in
      do! bump numPopWrong in
      log_if (fl_log p) (Entry "pop_wrong" [("cycle", now); ("phys", popped.2)])
  end.

Definition fl_processFault (now tid : Z) : MF unit :=
  let! c := get_count in
  if cap_reached (lp_max (fl_loop p)) c then skip
  else
    let! s := get in
    if negb (ctx_exists (fl_cpu s) tid) then skip
    else if negb (ctx_isa (fl_cpu s) tid) then skip
    else if numArchRegs cfg fl_cls =? 0 then skip
    else
      let! t := with_rng (fl_pick (fl_cpu s) tid) in
      match t with
      | None => bump numLegalityRejects
      | Some (target, donor_arch) =>
          if isFree (fl_cpu s) fl_cls target then
            do! bump numLegalityRejects in
            log_if (fl_log p) (Entry "mark_free REJECT" [("cycle", now); ("phys", target.2)])
          else
            do! modify (fl_on_cpu (fun c => freelist_addReg c target)) in
            do! bump numMarkFree in
            do! match fl_mode p with PopWrong => fl_pop now | MarkFree => skip end in
            do! bump numFaultsInjected in
            do! incr_count in
            log_if (fl_log p) (Entry "phys_free_list"
              [("cycle", now); ("thread", tid); ("phys", target.2); ("donor", donor_arch)])
      end.
End CHAOSFreeList.

#[global] Instance fl_attack_state (cfg : o3_config) : AttackState fl_state := {|
  attack_of := fl_attack;
  on_attack := fl_on_attack;
  thread_count _ := cpuThreads cfg;
  thread_active s tid := ctx_active (fl_cpu s) tid
|}.

#[global] Instance fl_attack_ok (cfg : o3_config) : AttackStateOk fl_state (A := fl_attack_state cfg).
Proof. by constructor. Qed.

Definition fl_attackCheck (cfg : o3_config) (p : fl_params) (now : Z) : M fl_state unit :=
  attackLoop (A := fl_attack_state cfg) (fl_loop p) (fl_processFault cfg p) now.

Definition fl_startup (cfg : o3_config) (p : fl_params) (now : Z) : M fl_state unit :=
  attackStartup (A := fl_attack_state cfg) (fl_loop p) now.

(** ** CHAOSROB *)

Definition robModeToString (m : RobMode) : string :=
  match m with EntryBitFlip => "entry_bitflip" | ExcSuppress => "exc_suppress" | SpecLeak => "spec_leak" end.

(** What the handler reads and writes of the instruction at the head of the ROB. *)
Record rob_inst := RobInst { seqNum : Z; has_fault : bool; dests : list (option RegId) }.

Record robi_state := RobiState {
  rob_cpu : o3;
  rob_heads : Z -> option rob_inst;                 (* readHeadInst(tid) *)
  rob_attack : evt; rob_trace : evt;
  rob_traced : Z
}.

Definition rob_on_cpu (f : o3 -> o3) (s : robi_state) : robi_state :=
  RobiState (f (rob_cpu s)) (rob_heads s) (rob_attack s) (rob_trace s) (rob_traced s).
Definition rob_on_attack (f : evt -> evt) (s : robi_state) : robi_state :=
  RobiState (rob_cpu s) (rob_heads s) (f (rob_attack s)) (rob_trace s) (rob_traced s).
Definition rob_on_trace (f : evt -> evt) (s : robi_state) : robi_state :=
  RobiState (rob_cpu s) (rob_heads s) (rob_attack s) (f (rob_trace s)) (rob_traced s).
Definition rob_set_traced (i : Z) (s : robi_state) : robi_state :=
  RobiState (rob_cpu s) (rob_heads s) (rob_attack s) (rob_trace s) i.
Definition rob_set_head (tid : Z) (h : rob_inst) (s : robi_state) : robi_state :=
  RobiState (rob_cpu s) (fupd (rob_heads s) tid (Some h)) (rob_attack s) (rob_trace s) (rob_traced s).

Section CHAOSROB.
Context (cfg : o3_config) (p : rob_params).
Abbreviation MB := (M robi_state).

(** [armReadTrace]: the first integer or floating-point destination is traced. *)
Fixpoint armReadTrace (now : Z) (ds : list (option RegId)) : MB unit :=
  match ds with
  | [] => log_if (rob_log p) (Entry "ReadTraceArm: declined" [])
  | d :: ds' =>
      match d with
      | None => armReadTrace now ds'
      | Some dest =>
          if negb (dest.1 =? IntRegClass) && negb (dest.1 =? FloatRegClass) then armReadTrace now ds'
          else
            do! modify (rob_set_traced dest.2) in
            do! modify (rob_on_cpu (fun c => with_rf c (setReadTraceTarget (regFile c) dest.1 dest.2))) in
            do! modify (rob_on_trace (schedule_at now 50)) in
            log_if (rob_log p) (Entry "ReadTraceArm" [("phys", dest.2); ("class", dest.1)])
      end
  end.

Definition rob_writeLog (now : Z) (type : string) (tid seq old_seq new_seq : Z) (had cleared : bool) : MB unit :=
  log_if (rob_log p) (Entry type
    [("cycle", now); ("thread", tid); ("seq", seq); ("old_seq", old_seq); ("new_seq", new_seq);
     ("had_fault", if had then 1 else 0); ("cleared_fault", if cleared then 1 else 0)]).

Definition rob_processFault (now tid : Z) : MB unit :=
  let! c := get_count in
  if cap_reached (rob_max p) c then skip
  else
    let! s := get in
    match rob_heads s tid with
    | None => bump numLegalityRejects
    | Some head =>
        let seq := seqNum head in
        let had_fault := has_fault head in
        match rob_mode p with
        | EntryBitFlip =>
            let! mask := with_rng (mask_or (rob_mask p) (one_bit 15)) in
            let new := Z.lxor seq mask in
            do! modify (rob_set_head tid (RobInst new had_fault (dests head))) in
            do! bump numEntryBitFlips in
            do! bump numFaultsInjected in
            do! incr_count in
            do! rob_writeLog now "entry_bitflip" tid seq seq new had_fault false in
            armReadTrace now (dests head)
        | ExcSuppress =>
            if negb had_fault then
              do! bump numLegalityRejects in
              log_if (rob_log p) (Entry "exc_suppress REJECT" [("cycle", now); ("seq", seq)])
            else
              do! modify (rob_set_head tid (RobInst seq false (dests head))) in
              do! bump numExcSuppress in
              do! bump numFaultsInjected in
              do! incr_count in
              do! rob_writeLog now "exc_suppress" tid seq seq seq true true in
              armReadTrace now (dests head)
        | SpecLeak => skip
        end
    end.

Definition rob_loop : loop_params :=
  LoopParams (rob_probability p) (rob_first p) (rob_last p) (rob_max p) false.
End CHAOSROB.

#[global] Instance rob_attack_state (cfg : o3_config) : AttackState robi_state := {|
  attack_of := rob_attack;
  on_attack := rob_on_attack;
  thread_count _ := cpuThreads cfg;
  thread_active s tid := ctx_active (rob_cpu s) tid
|}.

#[global] Instance rob_traced_state (cfg : o3_config) : Traced robi_state := {|
  tr_cpu := rob_cpu;
  tr_threads _ := indices (cpuThreads cfg);
  tr_idx := rob_traced;
  tr_on_cpu := rob_on_cpu;
  tr_on_event := rob_on_trace;
  tr_clear_idx := rob_set_traced (-1)
|}.

#[global] Instance rob_attack_ok (cfg : o3_config) : AttackStateOk robi_state (A := rob_attack_state cfg).
Proof. by constructor. Qed.

Definition rob_attackCheck (cfg : o3_config) (p : rob_params) (now : Z) : M robi_state unit :=
  attackLoop (A := rob_attack_state cfg) (rob_loop p) (rob_processFault p) now.

(** [startup]: spec_leak is driven by the squash hook and schedules nothing. *)
Definition rob_startup (cfg : o3_config) (p : rob_params) (now : Z) : M robi_state unit :=
  match rob_mode p with
  | SpecLeak => skip
  | _ => attackStartup (A := rob_attack_state cfg) (rob_loop p) now
  end.

(** * Lemmas *)

Lemma elem_of_indices n i : i ∈ indices n <-> 0 <= i < n.
Proof.
  unfold indices. rewrite list_elem_of_fmap. split.
  - intros (k & -> & Hk%elem_of_seq). lia.
  - intros Hi. exists (Z.to_nat i). split; [lia|]. apply elem_of_seq. lia.
Qed.

Lemma mask_or_one_bit m hi g :
  0 <= hi ->
  let x := (mask_or m (one_bit hi) g).1 in
  if m =? 0 then exists b, 0 <= b <= hi /\ x = 2 ^ b else x = m.
Proof.
  intros Hh. unfold mask_or, one_bit. destruct (Z.eqb_spec m 0); cbn [negb fst]; [|done].
  pose proof (uniform_int_range 0 hi g Hh). eexists. split; [done|].
  rewrite Z.shiftl_mul_pow2 by lia. lia.
Qed.

Section RatLemmas.
Context (cfg : o3_config) (p : rat_params).
Abbreviation cls := (rat_cls p).
Abbreviation narch := (numArchRegs cfg cls).

Lemma rat_donor_spec s tid arch old n g d :
  0 < narch -> (rat_donor cfg p s tid arch old n g).1 = Some d ->
  d.1 <> arch /\ 0 <= d.1 < narch /\ rat_lookup cfg p s tid d.1 = Some d.2 /\ d.2.2 <> old.
Proof.
  intros Hn. revert g. induction n as [|n IH]; intros g; cbn [rat_donor]; [done|].
  pose proof (uniform_int_range 0 (narch - 1) g ltac:(lia)) as Hr.
  destruct (uniform_int 0 (narch - 1) g) as [x g']. cbn [fst snd] in *.
  destruct (Z.eqb_spec x arch); [apply IH|].
  destruct (rat_lookup cfg p s tid x) as [pp|] eqn:E; [|apply IH].
  destruct (Z.eqb_spec pp.2 old); [apply IH|]. intros [= <-]. cbn [fst snd]. split_and!; try done; lia.
Qed.

Lemma rat_pick_arch_spec s tid g a :
  0 < narch -> (rat_pick_arch cfg p s tid g).1 = Some a ->
  0 <= a < narch /\ (0 <= rat_target p < narch -> a = rat_target p).
Proof.
  intros Hn. unfold rat_pick_arch. destruct (_ || _) eqn:E.
  - set (act := filter _ (indices narch)). destruct act as [|x l] eqn:Ea; [done|].
    rewrite <- Ea in *. intros [= <-].
    assert (Hlen : 0 < Z.of_nat (length act)) by (rewrite Ea; cbn; lia).
    pose proof (uniform_int_range 0 (Z.of_nat (length act) - 1) g ltac:(lia)) as Hr.
    assert (Hin : act !!! Z.to_nat (uniform_int 0 (Z.of_nat (length act) - 1) g).1 ∈ act).
    { apply list_elem_of_lookup_total_2. lia. }
    apply list_elem_of_filter in Hin as [_ Hin%elem_of_indices]. split; [done|].
    intros Ht. apply orb_true_iff in E as [E|E]; bools; lia.
  - bools. cbn. intros [= <-]. split; lia.
Qed.

(** The register the mode maps [arch] to. *)
Definition rat_choice (s : o3) (tid arch : Z) (old new : RegId) : Prop :=
  match rat_mode p with
  | MapBitFlip => exists mask, new = (cls, Z.lxor old.2 (int_of mask)) /\ 0 <= new.2 < numPhysRegs cfg cls /\
      (if rat_mask p =? 0 then exists b, 0 <= b <= 7 /\ mask = 2 ^ b else mask = rat_mask p)
  | _ => exists donor, donor <> arch /\ 0 <= donor < narch /\
      rat_lookup cfg p s tid donor = Some new /\ new.2 <> old.2
  end.

Definition rat_remap (s : rat_state) (tid arch : Z) (new : RegId) : rat_state :=
  let s1 := rat_on_cpu (fun c => setEntry c tid (flatten cfg (cls, arch)) new) s in
  match rat_mode p with F4FieldStuck => rat_stick (tid, arch) new.2 s1 | _ => s1 end.

Lemma rat_corrupt_spec now tid arch old c s :
  0 < narch ->
  let r := rat_corrupt cfg p now tid arch old (c, s) in
  faults_injected_count r.2.1 = faults_injected_count c /\
  ((r.1 = None /\ r.2.2 = s /\ the_stats r.2.1 numLegalityRejects = the_stats c numLegalityRejects + 1) \/
   (exists new mask, r.1 = Some (new.2, mask) /\ r.2.2 = rat_remap s tid arch new /\
                     rat_choice (rat_cpu s) tid arch old new)).
Proof.
  intros Hn. destruct c as [g c st lg]. unfold rat_corrupt, rat_remap, rat_choice, rat_reject.
  destruct (rat_mode p) eqn:Em.
  - unfold bind, with_rng. cbn [fst snd rng faults_injected_count the_stats the_log].
    pose proof (mask_or_one_bit (rat_mask p) 7 g ltac:(lia)) as Hm.
    destruct (mask_or (rat_mask p) (one_bit 7) g) as [mask g']. cbn [fst snd] in *.
    destruct (_ || _) eqn:E; unfold log_if, whenM.
    + destruct (rat_log p); cbn; (split; [done|]); left; by rewrite bump_stat_eq.
    + bools. cbn. split; [done|]. right. exists (cls, Z.lxor old.2 (int_of mask)), mask.
      split; [done|]. split; [done|]. exists mask. split_and!; try done; cbn; lia.
  - unfold bind, get, with_rng. cbn [fst snd rng].
    destruct (rat_donor _ _ _ _ _ _ _ g) as [d g'] eqn:Ed. cbn [fst snd]. destruct d as [[da d]|].
    + destruct (rat_donor_spec (rat_cpu s) tid arch old.2 (Z.to_nat narch) g (da, d)) as (H1 & H2 & H3 & H4);
        [done|by rewrite Ed|].
      unfold log_if, whenM. destruct (rat_log p); cbn; (split; [done|]); right; exists d, 0; split_and!; eauto.
    + unfold log_if, whenM. destruct (rat_log p); cbn; (split; [done|]); left; by rewrite bump_stat_eq.
  - unfold bind, get, with_rng. cbn [fst snd rng].
    destruct (rat_donor _ _ _ _ _ _ _ g) as [d g'] eqn:Ed. cbn [fst snd]. destruct d as [[da d]|].
    + destruct (rat_donor_spec (rat_cpu s) tid arch old.2 (Z.to_nat narch) g (da, d)) as (H1 & H2 & H3 & H4);
        [done|by rewrite Ed|].
      unfold log_if, whenM. destruct (rat_log p); cbn; (split; [done|]); right; exists d, 0; split_and!; eauto.
    + cbn. split; [done|]. left. by rewrite bump_stat_eq.
Qed.

(** [c] with the read counter on register [new], unless the mapping is unchanged. *)
Definition rat_armed (c : o3) (old new : Z) : o3 :=
  if new =? old then c else with_rf c (setReadTraceTarget (regFile c) cls new).

Lemma rat_arm_spec now old new cs :
  let r := rat_arm p now old new cs in
  r.2.1 = cs.1 /\ rat_cpu r.2.2 = rat_armed (rat_cpu cs.2) old new /\
  stuck_mappings r.2.2 = stuck_mappings cs.2 /\ rat_attack r.2.2 = rat_attack cs.2.
Proof. unfold rat_arm, rat_armed. by destruct (new =? old). Qed.

(** A fault that landed: architectural register [arch] of [tid], mapped to [old], is
    mapped to [new]. *)
Record rat_injected (tid : Z) (c c' : core) (s s' : rat_state) (arch : Z) (old new : RegId) : Prop := {
  ri_arch : 0 <= arch < narch /\ (0 <= rat_target p < narch -> arch = rat_target p);
  ri_old : rat_lookup cfg p (rat_cpu s) tid arch = Some old;
  ri_new : rat_choice (rat_cpu s) tid arch old new;
  ri_cpu : rat_cpu s' = rat_armed (setEntry (rat_cpu s) tid (flatten cfg (cls, arch)) new) old.2 new.2;
  ri_stuck : stuck_mappings s' = match rat_mode p with
                                 | F4FieldStuck => map_assign (tid, arch) new.2 (stuck_mappings s)
                                 | _ => stuck_mappings s
                                 end;
  ri_cap : cap_reached (lp_max (rat_loop p)) (faults_injected_count c) = false;
  ri_count : faults_injected_count c' = count_succ (faults_injected_count c)
}.

(** Nothing to attack: the cap is reached or the thread has no context or no ISA. *)
Definition rat_blocked (tid : Z) (c : core) (s : o3) : bool :=
  cap_reached (lp_max (rat_loop p)) (faults_injected_count c) || negb (ctx_exists s tid) || negb (ctx_isa s tid).

(** An attempt that changed nothing. *)
Definition rat_missed (tid : Z) (c c' : core) (s s' : rat_state) : Prop :=
  s' = s /\ faults_injected_count c' = faults_injected_count c /\
  the_stats c' numLegalityRejects =
    the_stats c numLegalityRejects + if rat_blocked tid c (rat_cpu s) then 0 else 1.

Lemma rat_processFault_spec now tid c s :
  0 <= narch ->
  let r := rat_processFault cfg p now tid (c, s) in
  rat_attack r.2.2 = rat_attack s /\
  (rat_missed tid c r.2.1 s r.2.2 \/ exists arch old new, rat_injected tid c r.2.1 s r.2.2 arch old new).
Proof.
  intros Hn. unfold rat_processFault, rat_missed, rat_blocked, bind, get_count, get. cbn [fst snd].
  destruct (cap_reached _ _) eqn:Ecap; cbn [orb fst snd]; [cbn; split; [done|]; left; by rewrite Z.add_0_r|].
  destruct (ctx_exists (rat_cpu s) tid) eqn:Ec; cbn [negb orb fst snd]; [|cbn; split; [done|]; left; by rewrite Z.add_0_r].
  destruct (ctx_isa (rat_cpu s) tid) eqn:Ei; cbn [negb orb fst snd]; [|cbn; split; [done|]; left; by rewrite Z.add_0_r].
  destruct c as [g n st lg]. cbn [faults_injected_count the_stats] in *.
  destruct (Z.eqb_spec narch 0); [cbn; split; [done|]; left; by rewrite bump_stat_eq|].
  unfold with_rng. cbn [fst snd rng faults_injected_count the_stats the_log].
  pose proof (rat_pick_arch_spec (rat_cpu s) tid g) as Ha.
  destruct (rat_pick_arch cfg p (rat_cpu s) tid g) as [a g']. cbn [fst snd] in *.
  destruct a as [arch|]; [|cbn; split; [done|]; left; by rewrite bump_stat_eq].
  destruct (rat_lookup cfg p (rat_cpu s) tid arch) as [old|] eqn:Eo; [|cbn; split; [done|]; left; by rewrite bump_stat_eq].
  destruct (rat_corrupt_spec now tid arch old (Core g' n st lg) s ltac:(lia)) as [H1 H2].
  destruct (rat_corrupt cfg p now tid arch old (Core g' n st lg, s)) as [[[new mask]|] [[g2 n2 st2 lg2] s2]];
    cbn [fst snd faults_injected_count the_stats] in *; subst n2.
  - destruct H2 as [[H2 _]|(nw & m & [= -> ->] & -> & Hch)]; [done|].
    cbn [bump incr_count fst snd]. logs. set (cx := Core _ _ _ _).
    destruct (rat_arm_spec now old.2 nw.2 (cx, rat_remap s tid arch nw)) as (A1 & A2 & A3 & A4).
    split; [rewrite A4; unfold rat_remap; by destruct (rat_mode p)|]. right. exists arch, old, nw.
    split; cbn [fst snd] in *; try done.
    + apply Ha; [lia|done].
    + rewrite A2. unfold rat_remap. by destruct (rat_mode p).
    + rewrite A3. unfold rat_remap. by destruct (rat_mode p).
    + by rewrite A1.
  - destruct H2 as [(_ & -> & H3)|(? & ? & ? & _)]; [|done]. split; [done|]. by left.
Qed.
End RatLemmas.

Lemma rat_capped cfg p : 0 <= numArchRegs cfg (rat_cls p) -> CappedFault (lp_max (rat_loop p)) (rat_processFault cfg p).
Proof.
  intros Hn now tid [c s] H0. destruct (rat_processFault_spec cfg p now tid c s Hn) as [_ [H|(a & o & n & H)]].
  - left. apply H.
  - right. split; [apply (ri_count _ _ _ _ _ _ _ _ _ _ H)|apply (ri_cap _ _ _ _ _ _ _ _ _ _ H)].
Qed.

(** ** Stuck mappings *)

Section Repin.
Context (cfg : o3_config) (p : rat_params).
Context (Hren : forall a, isRenameable (flatten cfg (rat_cls p, a)) = true)
        (Hinj : forall a b, flatten cfg (rat_cls p, a) = flatten cfg (rat_cls p, b) -> a = b).

Lemma lookup_setEntry c tid r q t x :
  isRenameable r = true ->
  lookup_front (setEntry c tid r q) t x = if decide (t = tid /\ x = r) then Some q else lookup_front c t x.
Proof.
  intros Hr. unfold setEntry, lookup_front, lookup_map. rewrite Hr. cbn. unfold fupd.
  destruct (decide (t = tid)) as [->|Ht], (decide (x = r)) as [->|Hx].
  - by rewrite Hr, decide_True.
  - by rewrite decide_False by tauto.
  - by rewrite decide_False by tauto.
  - by rewrite decide_False by tauto.
Qed.

(** The mapping a list of stuck entries forces on register [r] of thread [t]. *)
Fixpoint forced (l : list ((Z * Z) * Z)) (t : Z) (r : RegId) : option RegId :=
  match l with
  | [] => None
  | ((tid, a), phys) :: l' =>
      match forced l' t r with
      | Some q => Some q
      | None => if decide (a < numArchRegs cfg (rat_cls p) /\ t = tid /\ r = flatten cfg (rat_cls p, a))
                then Some (rat_cls p, phys) else None
      end
  end.

Lemma rat_repin_all l cs t r :
  let x := (for_each l (rat_repin cfg p) cs).2 in
  x.1 = cs.1 /\ rat_periodic x.2 = rat_periodic cs.2 /\ stuck_mappings x.2 = stuck_mappings cs.2 /\
  freeLists (rat_cpu x.2) = freeLists (rat_cpu cs.2) /\
  lookup_front (rat_cpu x.2) t r =
    match forced l t r with Some q => Some q | None => lookup_front (rat_cpu cs.2) t r end.
Proof.
  revert cs. induction l as [|[[tid a] phys] l IH]; intros cs; [done|]. cbn [for_each]. unfold bind.
  set (cs1 := (rat_repin cfg p (tid, a, phys) cs).2).
  destruct (IH cs1) as (H1 & H2 & H3 & H4 & H5). cbn zeta. rewrite H1, H2, H3, H4, H5. cbn [forced].
  subst cs1. unfold rat_repin. destruct (Z.leb_spec (numArchRegs cfg (rat_cls p)) a).
  - cbn [skip ret snd]. split_and!; try done. destruct (forced l t r); [done|]. case_decide; [lia|done].
  - cbn [modify fst snd rat_on_cpu rat_cpu rat_periodic stuck_mappings]. split_and!; try done.
    + unfold setEntry. by rewrite Hren.
    + destruct (forced l t r); [done|]. rewrite lookup_setEntry by apply Hren.
      repeat case_decide; try done; tauto.
Qed.

Lemma forced_not_key l t r :
  (forall a phys, ((t, a), phys) ∈ l -> r <> flatten cfg (rat_cls p, a)) -> forced l t r = None.
Proof.
  induction l as [|[[tid a] phys] l IH]; intros H; [done|]. cbn [forced].
  rewrite IH by (intros a' ph Hin; apply (H a' ph); by right).
  case_decide as Hd; [|done]. destruct Hd as (_ & -> & ->). by destruct (H a phys ltac:(left)).
Qed.

(** In a [std::map] each key occurs once, so every stuck mapping is forced. *)
Lemma forced_key l t a phys :
  map_sorted l -> ((t, a), phys) ∈ l -> a < numArchRegs cfg (rat_cls p) ->
  forced l t (flatten cfg (rat_cls p, a)) = Some (rat_cls p, phys).
Proof.
  induction l as [|[[tid a'] ph] l IH]; intros Hs Hin Ha; [by apply elem_of_nil in Hin|].
  destruct Hs as [Hall Hs]. apply elem_of_cons in Hin as [[= -> -> ->]|Hin]; cbn [forced].
  - rewrite forced_not_key; [by rewrite decide_True|]. intros b ph' Hin Hf.
    apply Hinj in Hf as ->. rewrite Forall_forall in Hall. specialize (Hall _ Hin). cbn [fst] in Hall.
    by rewrite kltb_irrefl in Hall.
  - by rewrite IH.
Qed.
End Repin.

(** ** The free list *)

Section FlLemmas.
Context (cfg : o3_config) (p : fl_params).
Abbreviation cls := (fl_cls p).
Abbreviation narch := (numArchRegs cfg cls).

Lemma fl_scan_spec s tid n g t :
  0 < narch -> (fl_scan cfg p s tid n g).1 = Some t ->
  0 <= t.2 < narch /\ lookup_front s tid (flatten cfg (cls, t.2)) = Some t.1.
Proof.
  intros Hn. revert g. induction n as [|n IH]; intros g; cbn [fl_scan]; [done|].
  pose proof (uniform_int_range 0 (narch - 1) g ltac:(lia)) as Hr.
  destruct (uniform_int 0 (narch - 1) g) as [x g']. cbn [fst snd] in *.
  destruct (lookup_front s tid (flatten cfg (cls, x))) as [pp|] eqn:E; [|apply IH].
  destruct (isFree s cls pp) eqn:Ef; [apply IH|]. intros [= <-]. cbn [fst snd]. split; [lia|done].
Qed.

(** The free list of the class after a landed fault. *)
Definition fl_after (l : list RegId) (target : RegId) : list RegId :=
  match fl_mode p with MarkFree => l ++ [target] | PopWrong => tl (l ++ [target]) end.

(** The fault landed on [target], found through [donor]. *)
Record fl_injected (tid : Z) (c c' : core) (s s' : o3) (target : RegId) (donor : Z) : Prop := {
  fi_live : isFree s cls target = false;
  fi_target : if 0 <=? fl_target p then target = (cls, fl_target p)
              else 0 <= donor < narch /\ lookup_front s tid (flatten cfg (cls, donor)) = Some target;
  fi_cpu : s' = with_free s (freeLists s');
  fi_free : freeLists s' cls = fl_after (freeLists s cls) target;
  fi_others : forall k, k <> cls -> freeLists s' k = freeLists s k;
  fi_cap : cap_reached (lp_max (fl_loop p)) (faults_injected_count c) = false;
  fi_count : faults_injected_count c' = count_succ (faults_injected_count c)
}.

Lemma with_free_twice s f g : with_free (with_free s f) g = with_free s g.
Proof. done. Qed.

(** [addReg] followed, in pop_wrong mode, by [getReg]. *)
Definition fl_lists (s : o3) (target : RegId) : o3 :=
  match fl_mode p with
  | MarkFree => freelist_addReg s target
  | PopWrong => with_free (freelist_addReg s target)
                  (fupd (freeLists (freelist_addReg s target)) cls (fl_after (freeLists s cls) target))
  end.

Lemma fl_lists_spec s (target : RegId) :
  target.1 = cls ->
  fl_lists s target = with_free s (freeLists (fl_lists s target)) /\
  freeLists (fl_lists s target) cls = fl_after (freeLists s cls) target /\
  forall k, k <> cls -> freeLists (fl_lists s target) k = freeLists s k.
Proof.
  intros Ht. unfold fl_lists, fl_after, freelist_addReg. rewrite Ht.
  destruct (fl_mode p); cbn; rewrite !fupd_eq; split_and!; try done; intros k Hk; by rewrite !fupd_ne.
Qed.

Lemma fl_pop_spec now c s a (target : RegId) :
  target.1 = cls -> fl_mode p = PopWrong ->
  let r := fl_pop p now (c, FlState (freelist_addReg s target) a) in
  r.2.2 = FlState (fl_lists s target) a /\ faults_injected_count r.2.1 = faults_injected_count c.
Proof.
  intros Ht Hm. destruct c as [g n st lg]. unfold fl_pop, fl_lists, fl_after, bind, get. rewrite Hm. cbn [fst snd fl_cpu].
  assert (Hl : freeLists (freelist_addReg s target) cls = freeLists s cls ++ [target]).
  { unfold freelist_addReg. cbn. by rewrite <- Ht, fupd_eq. }
  unfold numFreeRegs, freelist_getReg. rewrite Hl.
  destruct (Z.leb_spec (Z.of_nat (length (freeLists s cls ++ [target]))) 0) as [H|H].
  { rewrite length_app in H. cbn in H. lia. }
  destruct (freeLists s cls ++ [target]) as [|x l] eqn:E; [by destruct (freeLists s cls)|].
  cbn [modify bump fst snd]. logs. split; [|done]. unfold fl_on_cpu. cbn [fl_cpu fl_attack].
  do 3 f_equal.
Qed.

Lemma fl_processFault_spec now tid c s :
  0 <= narch -> (forall a q, lookup_front (fl_cpu s) tid (flatten cfg (cls, a)) = Some q -> q.1 = cls) ->
  let r := fl_processFault cfg p now tid (c, s) in
  fl_attack r.2.2 = fl_attack s /\
  ((r.2.2 = s /\ faults_injected_count r.2.1 = faults_injected_count c) \/
   exists target donor, fl_injected tid c r.2.1 (fl_cpu s) (fl_cpu r.2.2) target donor).
Proof.
  intros Hn Hcl. destruct c as [g n st lg]. unfold fl_processFault, bind, get_count, get. cbn [fst snd].
  destruct (cap_reached _ _) eqn:Ecap; [cbn; split; [done|]; by left|]. cbn [fst snd].
  destruct (negb (ctx_exists (fl_cpu s) tid)); [cbn; split; [done|]; by left|]. cbn [fst snd].
  destruct (negb (ctx_isa (fl_cpu s) tid)); [cbn; split; [done|]; by left|]. cbn [fst snd].
  destruct (Z.eqb_spec narch 0); [cbn; split; [done|]; by left|].
  unfold with_rng. cbn [fst snd rng faults_injected_count the_stats the_log].
  destruct (fl_pick cfg p (fl_cpu s) tid g) as [t g'] eqn:Et. cbn [fst snd].
  destruct t as [[target donor]|]; [|cbn; split; [done|]; by left].
  destruct (isFree (fl_cpu s) cls target) eqn:Ef; cbn [bump fst snd]; [logs; split; [done|]; by left|].
  assert (Hp : if 0 <=? fl_target p then target = (cls, fl_target p)
               else 0 <= donor < narch /\ lookup_front (fl_cpu s) tid (flatten cfg (cls, donor)) = Some target).
  { unfold fl_pick in Et. destruct (0 <=? fl_target p); [by injection Et as <- _|].
    apply (fl_scan_spec (fl_cpu s) tid (Z.to_nat narch) g (target, donor)); [lia|by rewrite Et]. }
  assert (Ht : target.1 = cls).
  { destruct (0 <=? fl_target p); [by subst target|]. by eapply Hcl, Hp. }
  unfold fl_on_cpu. cbn [modify bump fst snd fl_cpu fl_attack rng faults_injected_count the_stats the_log].
  set (cx := Core g' n (bump_stat numMarkFree st) lg).
  set (y := (match fl_mode p with MarkFree => skip | PopWrong => fl_pop p now end)
              (cx, FlState (freelist_addReg (fl_cpu s) target) (fl_attack s))).
  assert (Hy : y.2.2 = FlState (fl_lists (fl_cpu s) target) (fl_attack s) /\ faults_injected_count y.2.1 = n).
  { subst y. destruct (fl_mode p) eqn:Em.
    - unfold fl_lists. by rewrite Em.
    - destruct (fl_pop_spec now cx (fl_cpu s) (fl_attack s) target Ht Em) as [-> ->]. done. }
  clearbody y. destruct y as [u [[g2 n2 st2 lg2] s2]]. cbn [fst snd faults_injected_count] in Hy. destruct Hy as [-> ->].
  destruct (fl_lists_spec (fl_cpu s) target Ht) as (L1 & L2 & L3).
  cbn [bump incr_count fst snd]. logs. split; [done|]. right. exists target, donor. by split.
Qed.
End FlLemmas.

Lemma fl_pop_count p now cs : faults_injected_count (fl_pop p now cs).2.1 = faults_injected_count cs.1.
Proof.
  destruct cs as [[g n st lg] s]. unfold fl_pop, bind, get. cbn [fst snd].
  destruct (numFreeRegs _ _ <=? 0); [done|]. destruct (freelist_getReg _ _) as [[r c]|]; [|done].
  cbn [modify bump fst snd]. by logs.
Qed.

Lemma fl_capped cfg p : CappedFault (lp_max (fl_loop p)) (fl_processFault cfg p).
Proof.
  intros now tid [[g n st lg] s] H0. unfold fl_processFault, bind, get_count, get, with_rng.
  cbn [fst snd rng faults_injected_count the_stats the_log].
  destruct (cap_reached _ _) eqn:Ecap; [by left|]. cbn [fst snd].
  destruct (negb (ctx_exists (fl_cpu s) tid)); [by left|]. cbn [fst snd].
  destruct (negb (ctx_isa (fl_cpu s) tid)); [by left|]. cbn [fst snd].
  destruct (numArchRegs cfg (fl_cls p) =? 0); [by left|]. cbn [fst snd rng faults_injected_count the_stats the_log].
  destruct (fl_pick cfg p (fl_cpu s) tid g) as [t g']. cbn [fst snd].
  destruct t as [[target donor]|]; [|by left].
  destruct (isFree (fl_cpu s) (fl_cls p) target) eqn:Ef; cbn [modify bump fst snd]; logs; [by left|].
  right. split; [|done]. set (y := match fl_mode p with MarkFree => skip | PopWrong => fl_pop p now end _).
  assert (Hy : faults_injected_count y.2.1 = n) by (subst y; destruct (fl_mode p); [done|by rewrite fl_pop_count]).
  clearbody y. destruct y as [u [[g2 n2 st2 lg2] s2]]. cbn in *. by subst.
Qed.

(** ** The reorder buffer *)

Section RobLemmas.
Context (p : rob_params).

Lemma armReadTrace_spec now ds cs :
  let r := armReadTrace p now ds cs in
  faults_injected_count r.2.1 = faults_injected_count cs.1 /\
  rob_heads r.2.2 = rob_heads cs.2 /\ rob_attack r.2.2 = rob_attack cs.2.
Proof.
  revert cs. induction ds as [|[d|] ds IH]; intros [c s]; cbn [armReadTrace]; [by logs| |by apply IH].
  destruct (_ && _); [by apply IH|]. unfold bind. cbn [modify fst snd]. by logs.
Qed.

(** The instruction at the head after a landed fault. *)
Definition rob_corrupted (h h' : rob_inst) : Prop :=
  match rob_mode p with
  | EntryBitFlip => exists mask, h' = RobInst (Z.lxor (seqNum h) mask) (has_fault h) (dests h) /\
      (if rob_mask p =? 0 then exists b, 0 <= b <= 15 /\ mask = 2 ^ b else mask = rob_mask p)
  | ExcSuppress => has_fault h = true /\ h' = RobInst (seqNum h) false (dests h)
  | SpecLeak => False
  end.

(** When the head of thread [tid] is not attacked. *)
Definition rob_rejects (c : core) (s : robi_state) (tid : Z) : Prop :=
  cap_reached (rob_max p) (faults_injected_count c) = true \/
  match rob_heads s tid with
  | None => True
  | Some h => rob_mode p = SpecLeak \/ (rob_mode p = ExcSuppress /\ has_fault h = false)
  end.

Lemma rob_processFault_spec now tid c s :
  let r := rob_processFault p now tid (c, s) in
  rob_attack r.2.2 = rob_attack s /\
  ((rob_rejects c s tid /\ r.2.2 = s /\ faults_injected_count r.2.1 = faults_injected_count c) \/
   (cap_reached (rob_max p) (faults_injected_count c) = false /\
    faults_injected_count r.2.1 = count_succ (faults_injected_count c) /\
    exists h h', rob_heads s tid = Some h /\ rob_corrupted h h' /\
                 rob_heads r.2.2 = fupd (rob_heads s) tid (Some h'))).
Proof.
  destruct c as [g n st lg]. unfold rob_processFault, rob_rejects, rob_corrupted, bind, get_count, get, with_rng.
  cbn [fst snd rng faults_injected_count the_stats the_log].
  destruct (cap_reached _ _) eqn:Ecap; [cbn; split; [done|]; left; by split; [left|]|]. cbn [fst snd].
  destruct (rob_heads s tid) as [h|] eqn:Eh; [|cbn; split; [done|]; left; by split; [right|]].
  destruct (rob_mode p) eqn:Em.
  - cbn [fst snd rng faults_injected_count the_stats the_log].
    pose proof (mask_or_one_bit (rob_mask p) 15 g ltac:(lia)) as Hm.
    destruct (mask_or (rob_mask p) (one_bit 15) g) as [mask g']. unfold rob_writeLog.
    cbn [modify bump incr_count fst snd] in *. logs.
    set (cs := (Core _ _ _ _, _)). destruct (armReadTrace_spec now (dests h) cs) as (A1 & A2 & A3).
    rewrite A1, A2, A3. split; [done|]. right. split_and!; try done. eexists h, _. split_and!; eauto.
  - destruct (has_fault h) eqn:Ehf; cbn [negb].
    + unfold rob_writeLog. cbn [modify bump incr_count fst snd]. logs.
      set (cs := (Core _ _ _ _, _)). destruct (armReadTrace_spec now (dests h) cs) as (A1 & A2 & A3).
      rewrite A1, A2, A3. split; [done|]. right. split_and!; try done. eexists h, _. split_and!; eauto.
    + cbn [bump fst snd]. logs. split; [done|]. left. split; [right; by right|done].
  - cbn. split; [done|]. left. split; [right; by left|done].
Qed.

Lemma rob_capped : CappedFault (rob_max p) (rob_processFault p).
Proof.
  intros now tid [c s] H0. destruct (rob_processFault_spec now tid c s) as [_ [(_ & _ & ->)|(Hc & -> & _)]].
  - by left.
  - by right.
Qed.
End RobLemmas.

(** * Properties *)

(** A CPU with two integer registers, and injectors on it. *)
Definition example_cfg : o3_config := O3Config (fun c => if c =? IntRegClass then 2 else 0) (fun _ => 4) id 16 1.

Definition example_loop (mx : Z) (backoff : bool) : loop_params := LoopParams 1 0 0 mx backoff.

Definition example_rat (m : RatMode) : rat_params := RatParams (example_loop 1 true) m SelInteger 0 0 true.

Definition example_rat_state : rat_state := RatState example_o3 evt0 evt0 evt0 (-1) InvalidRegClass false [].

(** C23 What a rename-map fault does.  An attempt either changes nothing (and is counted
    as a legality reject, unless the cap is reached or the thread has no context or ISA),
    or it lands: one architectural register [arch], mapped to [old], reads from [new]
    afterwards, every other mapping, the free lists and the history are as before, and
    one fault is counted, which the cap allowed.  In map_bitflip mode [new] is [old] with
    the mask flipped and lies inside the register file; in the other modes it is the
    register another architectural register of the class is mapped to, so that two of
    them share it; f4_field_stuck records the pair.  When [new] differs from [old] the
    read counter is armed on [new] and starts at zero. *)
Theorem rat_fault_effect cfg p now tid c s :
  0 <= numArchRegs cfg (rat_cls p) -> (forall a, isRenameable (flatten cfg (rat_cls p, a)) = true) ->
  let r := rat_processFault cfg p now tid (c, s) in
  rat_missed p tid c r.2.1 s r.2.2 \/
  exists arch old new,
    rat_injected cfg p tid c r.2.1 s r.2.2 arch old new /\
    (forall t q, lookup_front (rat_cpu r.2.2) t q =
       if decide (t = tid /\ q = flatten cfg (rat_cls p, arch)) then Some new else lookup_front (rat_cpu s) t q) /\
    freeLists (rat_cpu r.2.2) = freeLists (rat_cpu s) /\
    historyBuffer (rat_cpu r.2.2) = historyBuffer (rat_cpu s) /\
    (new.2 <> old.2 -> let rf := regFile (rat_cpu r.2.2) in
       trace_type rf = rat_cls p /\ trace_idx rf = new.2 /\ reads_before_overwrite rf = 0 /\ trace_overwritten rf = false).
Proof.
  intros Hn Hr r. destruct (rat_processFault_spec cfg p now tid c s Hn) as [_ [H|(arch & old & new & H)]]; [by left|].
  right. exists arch, old, new. split; [exact H|]. subst r. rewrite (ri_cpu _ _ _ _ _ _ _ _ _ _ H).
  set (c1 := setEntry _ _ _ _).
  assert (Hf : freeLists c1 = freeLists (rat_cpu s) /\ historyBuffer c1 = historyBuffer (rat_cpu s)).
  { unfold c1, setEntry. by rewrite Hr. }
  destruct Hf as [Hf Hh]. unfold rat_armed. split_and!.
  - intros t q. rewrite <- lookup_setEntry by apply Hr. by destruct (new.2 =? old.2).
  - by destruct (new.2 =? old.2).
  - by destruct (new.2 =? old.2).
  - intros Hne. by rewrite (proj2 (Z.eqb_neq _ _) Hne).
Qed.

Lemma rat_fault_effect_witness :
  let r := rat_processFault example_cfg (example_rat F5Substitute) 9 0 (example_core, example_rat_state) in
  faults_injected_count r.2.1 = 1 /\
  exists arch new, arch = (IntRegClass, 0) /\ new = (IntRegClass, 1) /\
    lookup_front (rat_cpu r.2.2) 0 arch = Some new /\ lookup_front (rat_cpu r.2.2) 0 (IntRegClass, 1) = Some new.
Proof.
  intros r. destruct (rat_fault_effect example_cfg (example_rat F5Substitute) 9 0 example_core example_rat_state)
    as [(_ & Hc & _)|(arch & old & new & H & Hl & _)]; [by vm_compute|done|by vm_compute in Hc|].
  assert (arch = 0) as -> by (apply (ri_arch _ _ _ _ _ _ _ _ _ _ H); by vm_compute).
  split; [apply (ri_count _ _ _ _ _ _ _ _ _ _ H)|]. exists (IntRegClass, 0), (IntRegClass, 1).
  destruct (ri_new _ _ _ _ _ _ _ _ _ _ H) as (d & Hd & Hd2 & Hd3 & _).
  change (numArchRegs _ _) with 2 in Hd2.
  assert (d = 1) as -> by lia. vm_compute in Hd3. injection Hd3 as <-. split_and!; try done; by rewrite Hl.
Defined.

(** Stuck mappings are enforced.  [checkPermanent] makes every recorded pair hold in
    the rename map again, whatever renames happened since, leaves all other mappings and
    the free lists alone, and keeps the periodic check pending.  The next check is due
    [now + 100000] cycles later, not 100000: [clockEdge] takes a relative delay and the
    code adds the current cycle, so the intervals grow with time. *)
Theorem rat_stuck_enforced cfg p now c s :
  (forall a, isRenameable (flatten cfg (rat_cls p, a)) = true) ->
  (forall a b, flatten cfg (rat_cls p, a) = flatten cfg (rat_cls p, b) -> a = b) ->
  ctx_exists (rat_cpu s) 0 = true -> ctx_isa (rat_cpu s) 0 = true ->
  map_sorted (stuck_mappings s) -> scheduled (rat_periodic s) = false ->
  let s' := (rat_checkPermanent cfg p now (c, s)).2.2 in
  (forall tid arch phys, ((tid, arch), phys) ∈ stuck_mappings s -> arch < numArchRegs cfg (rat_cls p) ->
     lookup_front (rat_cpu s') tid (flatten cfg (rat_cls p, arch)) = Some (rat_cls p, phys)) /\
  (forall t r, (forall arch phys, ((t, arch), phys) ∈ stuck_mappings s -> r <> flatten cfg (rat_cls p, arch)) ->
     lookup_front (rat_cpu s') t r = lookup_front (rat_cpu s) t r) /\
  freeLists (rat_cpu s') = freeLists (rat_cpu s) /\ stuck_mappings s' = stuck_mappings s /\
  scheduled (rat_periodic s') = true /\ when (rat_periodic s') = now + (now + 100000).
Proof.
  intros Hr Hi Hc Hisa Hs He s'. subst s'. unfold rat_checkPermanent, bind, get. cbn [fst snd]. rewrite Hc, Hisa. cbn [andb].
  pose proof (rat_repin_all cfg p Hr (stuck_mappings s) (c, s)) as Hall.
  destruct (for_each (stuck_mappings s) (rat_repin cfg p) (c, s)) as [u [c1 s1]]. cbn [fst snd modify] in *.
  destruct (Hall 0 (0, 0)) as (_ & H2 & H3 & H4 & _). cbn [rat_on_periodic rat_cpu stuck_mappings rat_periodic].
  rewrite H2, H3, H4. unfold schedule_at. rewrite He. split_and!; try done.
  - intros tid arch phys Hin Ha. destruct (Hall tid (flatten cfg (rat_cls p, arch))) as (_ & _ & _ & _ & ->).
    by erewrite forced_key.
  - intros t r Hin. destruct (Hall t r) as (_ & _ & _ & _ & ->). by rewrite forced_not_key.
Qed.

Definition example_stuck_rat : rat_state :=
  RatState example_o3 evt0 evt0 evt0 (-1) InvalidRegClass false [((0, 0), 1)].

Lemma rat_stuck_enforced_witness :
  let s' := (rat_checkPermanent example_cfg (example_rat F4FieldStuck) 500 (example_core, example_stuck_rat)).2.2 in
  lookup_front (rat_cpu s') 0 (IntRegClass, 0) = Some (IntRegClass, 1) /\ when (rat_periodic s') = 101000.
Proof.
  destruct (rat_stuck_enforced example_cfg (example_rat F4FieldStuck) 500 example_core example_stuck_rat)
    as (H1 & _ & _ & _ & _ & H2); [done|by intros a b [= ->]|done|done|by vm_compute|done|].
  split; [|exact H2]. apply (H1 0 0 1); [left|by vm_compute].
Defined.

(** A freed live register breaks the conservation of registers.  When the injector
    scans the rename map (no configured target) and its fault lands, the register it
    appended to the free list is still mapped by an architectural register: the list of
    all registers of the class has a duplicate, and the register will be allocated a
    second time once the registers ahead of it in the list are used up. *)
Theorem freelist_double_occupancy cfg p archs now tid c s :
  0 <= numArchRegs cfg (fl_cls p) -> fl_target p < 0 -> fl_mode p = MarkFree ->
  (forall a q, lookup_front (fl_cpu s) tid (flatten cfg (fl_cls p, a)) = Some q -> q.1 = fl_cls p) ->
  (forall a, 0 <= a < numArchRegs cfg (fl_cls p) ->
     isRenameable (flatten cfg (fl_cls p, a)) = true /\
     exists b, flatten cfg (fl_cls p, a) = (fl_cls p, b) /\ b ∈ archs (fl_cls p)) ->
  let r := fl_processFault cfg p now tid (c, s) in
  (r.2.2 = s /\ faults_injected_count r.2.1 = faults_injected_count c) \/
  exists target donor,
    faults_injected_count r.2.1 = count_succ (faults_injected_count c) /\
    lookup_front (fl_cpu r.2.2) tid (flatten cfg (fl_cls p, donor)) = Some target /\
    freeLists (fl_cpu r.2.2) (fl_cls p) = freeLists (fl_cpu s) (fl_cls p) ++ [target] /\
    ~ NoDup (regs_of tid archs (fl_cpu r.2.2) (fl_cls p)).
Proof.
  intros Hn Ht Hm Hcl Hf r.
  destruct (fl_processFault_spec cfg p now tid c s Hn Hcl) as [_ [H|(target & donor & H)]]; [by left|].
  right. exists target, donor. fold r in H. pose proof (fi_target _ _ _ _ _ _ _ _ _ H) as Hl.
  rewrite (proj2 (Z.leb_gt 0 (fl_target p)) Ht) in Hl. destruct Hl as [Hd Hl].
  pose proof (fi_free _ _ _ _ _ _ _ _ _ H) as Hfree. unfold fl_after in Hfree. rewrite Hm in Hfree.
  pose proof (fi_cpu _ _ _ _ _ _ _ _ _ H) as Hcpu.
  assert (Hfront : frontMap (fl_cpu r.2.2) = frontMap (fl_cpu s)) by (by rewrite Hcpu).
  assert (Hl' : lookup_front (fl_cpu r.2.2) tid (flatten cfg (fl_cls p, donor)) = Some target).
  { unfold lookup_front in *. by rewrite Hfront. }
  split_and!; try done; [apply (fi_count _ _ _ _ _ _ _ _ _ H)|].
  unfold regs_of. rewrite Hfree. intros (_ & Hdis & _)%NoDup_app. apply (Hdis target).
  - apply elem_of_app. right. left.
  - apply elem_of_app. left. destruct (Hf donor Hd) as (Hr & b & Hb & Hin).
    unfold lookup_front, lookup_map in Hl'. rewrite Hr in Hl'. rewrite Hb in Hl'. by eapply mapped_elem.
Qed.

Definition example_fl (m : FreeMode) (target : Z) : fl_params := FlParams (example_loop 1 false) m SelInteger target true.

Lemma freelist_double_occupancy_witness :
  let r := fl_processFault example_cfg (example_fl MarkFree (-1)) 9 0 (example_core, FlState example_o3 evt0) in
  ~ NoDup (regs_of 0 example_archs (fl_cpu r.2.2) IntRegClass).
Proof.
  intros r.
  destruct (freelist_double_occupancy example_cfg (example_fl MarkFree (-1)) example_archs 9 0 example_core
              (FlState example_o3 evt0)) as [[_ H]|(t & d & _ & _ & _ & H)]; [done|done|done| | | |exact H].
  - intros a q. change (lookup_front _ 0 _) with (frontMap example_o3 0 (IntRegClass, a)). cbn.
    case_match; [|done]. by intros [= <-].
  - intros a Ha. change (numArchRegs _ _) with 2 in Ha. split; [done|]. exists a. split; [done|].
    assert (a = 0 \/ a = 1) as [-> | ->] by lia; decided.
  - by vm_compute in H.
Defined.

(** pop_wrong does not pop the register it freed.  With a non-empty free list [x :: l]
    a landed fault leaves [l ++ [target]]: the register taken out is [x], which from then
    on belongs to no list and to no mapping, while the live [target] stays allocatable. *)
Theorem pop_wrong_pops_head cfg p archs now tid c s x l :
  0 <= numArchRegs cfg (fl_cls p) -> fl_mode p = PopWrong -> rename_wf tid archs (fl_cpu s) ->
  (forall a q, lookup_front (fl_cpu s) tid (flatten cfg (fl_cls p, a)) = Some q -> q.1 = fl_cls p) ->
  freeLists (fl_cpu s) (fl_cls p) = x :: l ->
  let r := fl_processFault cfg p now tid (c, s) in
  faults_injected_count r.2.1 <> faults_injected_count c ->
  exists target, target <> x /\ freeLists (fl_cpu r.2.2) (fl_cls p) = l ++ [target] /\
    x ∉ regs_of tid archs (fl_cpu r.2.2) (fl_cls p).
Proof.
  intros Hn Hm Hw Hcl Hl r Hc.
  destruct (fl_processFault_spec cfg p now tid c s Hn Hcl) as [_ [[_ H]|(target & donor & H)]]; [done|].
  fold r in H. exists target. pose proof (fi_free _ _ _ _ _ _ _ _ _ H) as Hfree.
  unfold fl_after in Hfree. rewrite Hm, Hl in Hfree. cbn in Hfree.
  assert (Hne : target <> x).
  { intros ->. pose proof (fi_live _ _ _ _ _ _ _ _ _ H) as Hlive. unfold isFree in Hlive.
    apply bool_decide_eq_false in Hlive. apply Hlive. rewrite Hl. left. }
  split_and!; try done. pose proof (rw_nodup _ _ _ Hw (fl_cls p)) as Hnd. unfold regs_of in *. rewrite Hl in Hnd.
  apply NoDup_cons in Hnd as [Hnd _]. rewrite Hfree. pose proof (fi_cpu _ _ _ _ _ _ _ _ _ H) as ->. cbn.
  rewrite !elem_of_app in *. rewrite list_elem_of_singleton. intuition congruence.
Qed.

Lemma pop_wrong_pops_head_witness :
  let r := fl_processFault example_cfg (example_fl PopWrong 1) 9 0 (example_core, FlState example_o3 evt0) in
  exists target, target <> (IntRegClass, 2) /\
    freeLists (fl_cpu r.2.2) IntRegClass = [(IntRegClass, 3); target] /\
    (IntRegClass, 2) ∉ regs_of 0 example_archs (fl_cpu r.2.2) IntRegClass.
Proof.
  intros r.
  refine (pop_wrong_pops_head example_cfg (example_fl PopWrong 1) example_archs 9 0 example_core
            (FlState example_o3 evt0) (IntRegClass, 2) [(IntRegClass, 3)] _ _ _ _ _ _);
    [done|done|apply example_o3_wf| |done|by vm_compute].
  intros a q. change (lookup_front _ 0 _) with (frontMap example_o3 0 (IntRegClass, a)). cbn.
  case_match; [|done]. by intros [= <-].
Defined.

(** The fault caps hold.  From a count within the cap, no sequence of attack events of
    the rename-map, free-list or ROB injector, on any number of threads and with any
    changes of the machine in between, takes the fault count beyond the cap. *)
Theorem rename_injectors_cap cfg pr pf pb lr lf lb sr sf sb :
  0 <= numArchRegs cfg (rat_cls pr) ->
  0 <= lp_max (rat_loop pr) < 2 ^ 64 -> 0 <= lp_max (fl_loop pf) < 2 ^ 64 -> 0 <= rob_max pb < 2 ^ 64 ->
  within_cap (lp_max (rat_loop pr)) sr -> within_cap (lp_max (fl_loop pf)) sf -> within_cap (rob_max pb) sb ->
  within_cap (lp_max (rat_loop pr))
    (rounds (fireAttack (A := rat_attack_state cfg) (rat_loop pr) (rat_processFault cfg pr)) lr sr).2 /\
  within_cap (lp_max (fl_loop pf))
    (rounds (fireAttack (A := fl_attack_state cfg) (fl_loop pf) (fl_processFault cfg pf)) lf sf).2 /\
  within_cap (rob_max pb)
    (rounds (fireAttack (A := rob_attack_state cfg) (rob_loop pb) (rob_processFault pb)) lb sb).2.
Proof.
  intros Hn H1 H2 H3 S1 S2 S3. split_and!.
  - apply within_cap_rounds; [|done]. intros now. apply within_cap_fire; [by apply rat_capped|done].
  - apply within_cap_rounds; [|done]. intros now. apply within_cap_fire; [apply fl_capped|done].
  - apply within_cap_rounds; [|done]. intros now.
    apply (within_cap_fire (A := rob_attack_state cfg) (rob_loop pb)); [apply rob_capped|done].
Qed.

Lemma rename_injectors_cap_witness :
  within_cap 1 (rounds (fireAttack (A := rat_attack_state example_cfg) (example_loop 1 true)
                 (rat_processFault example_cfg (example_rat F5Substitute)))
               [(3, rat_on_attack (fun _ => Evt true false 3)); (4, rat_on_attack (fun _ => Evt true false 4))]
               (example_core, example_rat_state)).2.
Proof.
  refine (proj1 (rename_injectors_cap example_cfg (example_rat F5Substitute) (example_fl MarkFree (-1)) (example_rob 1)
    [(3, rat_on_attack (fun _ => Evt true false 3)); (4, rat_on_attack (fun _ => Evt true false 4))] [] []
    (example_core, example_rat_state) (example_core, FlState example_o3 evt0)
    (example_core, RobiState example_o3 (fun _ => None) evt0 evt0 (-1)) _ _ _ _ _ _ _)); by vm_compute.
Defined.

(** A rejected rename-map attempt waits.  When an attack round of the rename-map
    injector lands no fault, the next attempt, if there is one, is due at least one cycle
    later, whatever the geometric delay. *)
Theorem rat_rejected_attempt_waits cfg p now c s :
  0 <= numArchRegs cfg (rat_cls p) -> lp_backoff (rat_loop p) = true ->
  Qeq_bool (lp_probability (rat_loop p)) 0 = false -> scheduled (rat_attack s) = false ->
  let r := rat_attackCheck cfg p now (c, s) in
  faults_injected_count r.2.1 = faults_injected_count c ->
  scheduled (rat_attack r.2.2) = true -> now + 1 <= when (rat_attack r.2.2).
Proof.
  intros Hn Hb Hp He r Hc Hs.
  destruct (attackLoop_event (AOK := rat_attack_ok cfg) (rat_loop p) (rat_processFault cfg p) now (c, s)) as [g Hg].
  - intros now' tid [c' s']. by apply rat_processFault_spec.
  - done.
  - done.
  - cbn [fst snd attack_of rat_attack_state] in Hg. change (attackLoop _ _ now (c, s)) with r in Hg.
    rewrite Hg in Hs |- *. destruct (_ && _); [|congruence].
    cbn [when]. unfold next_delay. rewrite Hb, Hc, Z.eqb_refl. cbn [andb]. lia.
Qed.

Lemma rat_rejected_attempt_waits_witness :
  let s := RatState (with_front example_o3 (fun _ _ => None)) evt0 evt0 evt0 (-1) InvalidRegClass false [] in
  10 <= when (rat_attack (rat_attackCheck example_cfg (example_rat F5Substitute) 9 (example_core, s)).2.2).
Proof.
  intros s.
  apply (rat_rejected_attempt_waits example_cfg (example_rat F5Substitute) 9 example_core s); by vm_compute.
Defined.

(** exc_suppress at probability 1 stops the clock.  When no instruction at the head of
    a reorder buffer carries a fault, every attempt is rejected, and the next one is
    scheduled for the same cycle: after any number of firings the attack event is still
    pending at [now], with nothing injected. *)
Theorem rob_exc_suppress_livelock cfg p now c s k :
  rob_mode p = ExcSuppress -> (1 <= rob_probability p)%Q ->
  cap_reached (rob_max p) (faults_injected_count c) = false ->
  uint 64 now -> (rob_last p = 0 \/ now <= rob_last p) ->
  (forall tid h, rob_heads s tid = Some h -> has_fault h = false) ->
  rob_attack s = Evt true false now ->
  let fire := fun x => (fireAttack (A := rob_attack_state cfg) (rob_loop p) (rob_processFault p) now x).2 in
  let s' := Nat.iter k fire (c, s) in
  rob_attack s'.2 = Evt true false now /\ faults_injected_count s'.1 = faults_injected_count c.
Proof.
  intros Hm Hp Hc Hnow Hlast Hh He fire s'.
  destruct (fire_pending_iter (AOK := rob_attack_ok cfg) (rob_loop p) (rob_processFault p)
              (fun x => forall tid h, rob_heads x tid = Some h -> has_fault h = false)
              (faults_injected_count c) now) with (k := k) (s := (c, s)) as (_ & H2 & H3); try done.
  intros now' tid [c1 s1] HI Hn. cbn [fst snd] in *.
  destruct (rob_processFault_spec p now' tid c1 s1) as [Ha [(_ & Hs & Hc1)|(_ & _ & h & h' & H1 & H2 & _)]].
  - cbn zeta. rewrite Hs, Hc1. done.
  - unfold rob_corrupted in H2. rewrite Hm in H2. destruct H2 as [H2 _]. rewrite (HI tid h H1) in H2. done.
Qed.

Lemma rob_exc_suppress_livelock_witness :
  let p := RobParams ExcSuppress 1 0 0 1 0 true in
  let s := RobiState example_o3 (fun _ => Some (RobInst 5 false [])) (Evt true false 100) evt0 (-1) in
  let fire := fun x => (fireAttack (A := rob_attack_state example_cfg) (rob_loop p) (rob_processFault p) 100 x).2 in
  rob_attack (Nat.iter 1000 fire (example_core, s)).2 = Evt true false 100.
Proof.
  intros p s fire.
  refine (proj1 (rob_exc_suppress_livelock example_cfg p 100 example_core s 1000 _ _ _ _ _ _ _)); try done.
  - by left.
  - intros tid h [= <-]. done.
Defined.
