(* ===== verification/ChaosPhysReg.v ===== *)
(** * CHAOSPhysReg

    The injector on the physical register file (cpu/o3/CHAOSPhysReg): it resolves a
    physical register, directly or through a rename map, and applies a fault to it,
    lane-wise for vectors.  Theorems: the exact effect of a fault on a scalar register
    and on a vector lane, the permanence of a stuck cell under every later access, and
    the periodic re-application, which reaches the integer file only. *)

From Stdlib Require Import ZArith Lia QArith.
From stdpp Require Import base list numbers strings.
From S2P Require Import Prelude Word Random EventQueue ThreadContext RegFile Rename AttackLoop ChaosRename.

Open Scope Z_scope.

Inductive PhysMode := Phys | ArchFrontend | ArchCommit.

Definition stringToPhysMode (s : string) : PhysMode :=
  if String.eqb s "arch_commit" then ArchCommit
  else if String.eqb s "arch_frontend" then ArchFrontend
  else Phys.

Inductive PhysClassSel := PcInteger | PcFloatingPoint | PcVector | PcBoth.

Definition stringToPhysClassSel (s : string) : PhysClassSel :=
  if String.eqb s "floating_point" then PcFloatingPoint
  else if String.eqb s "vector" then PcVector
  else if String.eqb s "both" then PcBoth
  else PcInteger.

Record phys_params := PhysParams {
  ph_mode : PhysMode; ph_target_phys : Z; ph_target_arch : Z; ph_class : PhysClassSel;
  ph_lane_width : Z; ph_lane_offset : Z;
  ph_probability : Q; ph_bits : Z; ph_type : FaultType; ph_mask : Z;
  ph_trigger_mask : Z; ph_trigger_pattern : Z;
  ph_first : Z; ph_last : Z; ph_max : Z; ph_log : bool
}.

Record phys_state := PhysState {
  ph_cpu : o3;
  ph_attack : evt; ph_periodic : evt; ph_trace : evt;
  ph_permanent : list ((Z * Z) * PermanentFault);
  ph_traced : Z; ph_reads : Z; ph_over_recorded : bool; ph_over_cycle : Z;
  ph_free_size : Z
}.

Definition ph_on_cpu (f : o3 -> o3) (s : phys_state) : phys_state :=
  PhysState (f (ph_cpu s)) (ph_attack s) (ph_periodic s) (ph_trace s) (ph_permanent s) (ph_traced s)
            (ph_reads s) (ph_over_recorded s) (ph_over_cycle s) (ph_free_size s).
Definition ph_on_attack (f : evt -> evt) (s : phys_state) : phys_state :=
  PhysState (ph_cpu s) (f (ph_attack s)) (ph_periodic s) (ph_trace s) (ph_permanent s) (ph_traced s)
            (ph_reads s) (ph_over_recorded s) (ph_over_cycle s) (ph_free_size s).
Definition ph_on_periodic (f : evt -> evt) (s : phys_state) : phys_state :=
  PhysState (ph_cpu s) (ph_attack s) (f (ph_periodic s)) (ph_trace s) (ph_permanent s) (ph_traced s)
            (ph_reads s) (ph_over_recorded s) (ph_over_cycle s) (ph_free_size s).
Definition ph_on_trace (f : evt -> evt) (s : phys_state) : phys_state :=
  PhysState (ph_cpu s) (ph_attack s) (ph_periodic s) (f (ph_trace s)) (ph_permanent s) (ph_traced s)
            (ph_reads s) (ph_over_recorded s) (ph_over_cycle s) (ph_free_size s).
Definition ph_set_permanent (m : list ((Z * Z) * PermanentFault)) (s : phys_state) : phys_state :=
  PhysState (ph_cpu s) (ph_attack s) (ph_periodic s) (ph_trace s) m (ph_traced s)
            (ph_reads s) (ph_over_recorded s) (ph_over_cycle s) (ph_free_size s).
Definition ph_set_traced (idx reads : Z) (rec : bool) (cyc : Z) (s : phys_state) : phys_state :=
  PhysState (ph_cpu s) (ph_attack s) (ph_periodic s) (ph_trace s) (ph_permanent s) idx reads rec cyc (ph_free_size s).
Definition ph_set_free_size (n : Z) (s : phys_state) : phys_state :=
  PhysState (ph_cpu s) (ph_attack s) (ph_periodic s) (ph_trace s) (ph_permanent s) (ph_traced s)
            (ph_reads s) (ph_over_recorded s) (ph_over_cycle s) n.
Definition ph_on_rf (f : physregfile -> physregfile) : phys_state -> phys_state :=
  ph_on_cpu (fun c => with_rf c (f (regFile c))).

Section CHAOSPhysReg.
Context (cfg : o3_config) (p : phys_params).
Abbreviation MP := (M phys_state).

Definition ph_scheduleAttackEvent (now delay : Z) : MP unit := modify (ph_on_attack (schedule_at now delay)).

Definition ph_scheduleCheck (now delay : Z) : MP unit := modify (ph_on_periodic (schedule_at now delay)).

Definition ph_unschedule : MP unit :=
  do! modify (ph_on_attack squash_evt) in modify (ph_on_periodic squash_evt).

(** Step 1 of [processFault]: the register class. *)
Definition ph_pick_class (g : engine) : Z * engine :=
  match ph_class p with
  | PcInteger => (IntRegClass, g)
  | PcFloatingPoint => (FloatRegClass, g)
  | PcVector => (VecRegClass, g)
  | PcBoth => let r := uniform_int 0 2 g in
      ((if r.1 =? 0 then IntRegClass else if r.1 =? 1 then FloatRegClass else VecRegClass), r.2)
  end.

(** The architectural register, if any, the front end maps to [idx]: for the log. *)
Definition ph_owner (s : o3) (tid class idx : Z) : Z :=
  let na := numArchRegs cfg class in
  let cap := if class =? IntRegClass then (if na <? 31 then na else 31) else (if na <? 32 then na else 32) in
  match List.find (fun a => match lookup_front s tid (flatten cfg (class, a)) with
                            | Some pm => pm.2 =? idx | None => false end) (indices cap) with
  | Some a => a
  | None => -1
  end.

(** Step 2 in mode [Phys]: the index and the owner logged for it; -2 is a free slot. *)
Definition ph_resolve_phys (tid class : Z) : MP (option (RegId * Z)) :=
  let n := numPhysRegs cfg class in
  if n <=? 0 then ret None
  else
    let! idx := if 0 <=? ph_target_phys p then ret (ph_target_phys p)
                else with_rng (uniform_int 0 (n - 1)) in
    if n <=? idx then ret None
    else
      let! s := get in
      let c := ph_cpu s in
      let reg := (class, idx) in
      do! modify (ph_set_free_size (numFreeRegs c class)) in
      ret (Some (reg,
        if isFree c class reg then -2
        else if ctx_exists c tid && ctx_isa c tid then ph_owner c tid class idx else -1)).

(** Step 2 in the architectural modes. *)
Definition ph_resolve_arch (tid class : Z) : MP (option (RegId * Z)) :=
  let! s := get in
  let c := ph_cpu s in
  let a := ph_target_arch p in
  if negb (ctx_exists c tid) then ret None
  else if negb (ctx_isa c tid) then ret None
  else if numArchRegs cfg class =? 0 then ret None
  else if (a <? 0) || (numArchRegs cfg class <=? a) then ret None
  else
    let m := match ph_mode p with ArchFrontend => frontMap c tid | _ => commitMap c tid end in
    match lookup_map m (flatten cfg (class, a)) with
    | None => ret None
    | Some reg => ret (Some (reg, a))
    end.

Definition ph_resolve (tid class : Z) : MP (option (RegId * Z)) :=
  match ph_mode p with Phys => ph_resolve_phys tid class | _ => ph_resolve_arch tid class end.

(** The statistics and the record of the [switch]. *)
Definition ph_count (tid idx : Z) (f : FaultType) (mask : Z) : MP unit :=
  match f with
  | StuckAtZero =>
      do! bump numStuckAtZero in do! bump numPermanentFaults in
      modify (fun s => ph_set_permanent (map_assign (tid, idx) (mkPF StuckAtZero mask true) (ph_permanent s)) s)
  | StuckAtOne =>
      do! bump numStuckAtOne in do! bump numPermanentFaults in
      modify (fun s => ph_set_permanent (map_assign (tid, idx) (mkPF StuckAtOne mask true) (ph_permanent s)) s)
  | BitFlip => bump numBitFlips
  | Random => skip
  end.

(** [buf] of the vector path: at least eight bytes. *)
Definition ph_vbytes : nat := Nat.max 8 (Z.to_nat (vecRegBytes cfg)).

Definition ph_lane_bits : Z :=
  let lw := ph_lane_width p in
  if negb (lw =? 8) && negb (lw =? 16) && negb (lw =? 32) && negb (lw =? 64) then 32 else lw.

Definition ph_lane_bytes : nat := Z.to_nat (ph_lane_bits / 8).

Definition ph_max_lanes : Z := Z.max 1 (Z.of_nat ph_vbytes / Z.of_nat ph_lane_bytes).

Definition ph_pick_lane (g : engine) : Z * engine :=
  if (ph_lane_offset p <? 0) || (ph_max_lanes <=? ph_lane_offset p)
  then uniform_int 0 (ph_max_lanes - 1) g else (ph_lane_offset p, g).

Definition ph_lane_mask (mask : Z) : Z :=
  if ph_lane_bits <? 64 then Z.land mask (Z.shiftl 1 ph_lane_bits - 1) else mask.

(** The bytes of the register with a fault in lane [lane]. *)
Definition ph_fault_lane (f : FaultType) (mask lane : Z) (bytes : list Z) : list Z :=
  let buf := take ph_vbytes (bytes ++ replicate ph_vbytes 0) in
  let off := (Z.to_nat lane * ph_lane_bytes)%nat in
  let v := apply_fault f (ph_lane_mask mask) (read_window buf off ph_lane_bytes) in
  take (length bytes) (write_window buf off ph_lane_bytes v).

(** Step 3, vector registers. *)
Definition ph_inject_vec (tid : Z) (reg : RegId) (f : FaultType) (mask : Z) : MP unit :=
  let! s := get in
  match rf_getRegV (regFile (ph_cpu s)) reg with
  | None => skip
  | Some (bytes, rf) =>
      do! modify (ph_on_rf (fun _ => rf)) in
      let! lane := with_rng ph_pick_lane in
      do! ph_count tid reg.2 f mask in
      do! modify (ph_on_rf (fun rf => default rf (rf_setRegV rf reg (ph_fault_lane f mask lane bytes)))) in
      log_if (ph_log p) (Entry "vec lane" [("lane", lane); ("max_lanes", ph_max_lanes); ("mask", ph_lane_mask mask)])
  end.

(** The write-path mask a stuck fault arms. *)
Definition ph_arm_stuck (class idx : Z) (f : FaultType) (mask : Z) : physregfile -> physregfile :=
  match f with
  | StuckAtZero => fun rf => setStuckTarget rf class idx mask 0
  | StuckAtOne => fun rf => setStuckTarget rf class idx mask 1
  | _ => id
  end.

(** Step 3, scalar registers; [false] when the data-dependent trigger does not match. *)
Definition ph_inject_scalar (now tid class : Z) (reg : RegId) (f : FaultType) (mask : Z) : MP bool :=
  let! s := get in
  match rf_getReg (regFile (ph_cpu s)) reg with
  | None => ret false
  | Some (v, rf) =>
      do! modify (ph_on_rf (fun _ => rf)) in
      if negb (ph_trigger_mask p =? 0) && negb (Z.land v (ph_trigger_mask p) =? ph_trigger_pattern p) then
        do! log_if (ph_log p) (Entry "F3 trigger MISS" [("cycle", now); ("phys", reg.2); ("val", v)]) in
        ret false
      else
        do! ph_count tid reg.2 f mask in
        do! modify (ph_on_rf (ph_arm_stuck class reg.2 f mask)) in
        do! modify (ph_on_rf (fun rf => default rf (rf_setReg rf reg (apply_fault f mask v)))) in
        ret true
  end.

(** The end of [processFault]: count, arm the read trace, log. *)
Definition ph_landed (now tid class : Z) (reg : RegId) (owner : Z) (f : FaultType) (mask : Z) : MP unit :=
  do! bump numFaultsInjected in
  do! incr_count in
  do! modify (ph_set_traced reg.2 0 false 0) in
  do! modify (ph_on_rf (fun rf => setReadTraceTarget rf class reg.2)) in
  do! modify (ph_on_trace (schedule_at now 100000)) in
  let! s := get in
  log_if (ph_log p) (Entry "phys_reg"
    [("cycle", now); ("thread", tid); ("class", class); ("phys", reg.2); ("owner", owner); ("mask", mask);
     ("free_list", ph_free_size s)]).

(** Step 3 on the resolved register. *)
Definition ph_fire (now tid class : Z) (reg : RegId) (owner : Z) (f : FaultType) (mask : Z) : MP unit :=
  if class =? VecRegClass then
    do! ph_inject_vec tid reg f mask in
    ph_landed now tid class reg owner f mask
  else
    let! ok := ph_inject_scalar now tid class reg f mask in
    whenM ok (ph_landed now tid class reg owner f mask).

(** The distribution of random fault types is never given weights. *)
Definition ph_processFault (now tid : Z) : MP unit :=
  let! class := with_rng ph_pick_class in
  let! t := ph_resolve tid class in
  match t with
  | None => skip
  | Some (reg, owner) =>
      let! f := with_rng (choose_fault (ph_type p) []) in
      let! mask := with_rng (mask_or (ph_mask p) (random_mask (ph_bits p) 0 63)) in
      ph_fire now tid class reg owner f mask
  end.

Definition ph_threads : list Z := indices (cpuThreads cfg).

Definition ph_attack_one (now tid : Z) : MP unit :=
  let! s := get in whenM (ctx_active (ph_cpu s) tid) (ph_processFault now tid).

Definition ph_attackCheck (now : Z) : MP unit :=
  if Qeq_bool (ph_probability p) 0 then skip
  else
    do! for_each ph_threads (ph_attack_one now) in
    let! c := get_count in
    if cap_reached (ph_max p) c then ph_unschedule
    else
      let! s := get in
      if existsb (ctx_active (ph_cpu s)) ph_threads then
        let! next := with_rng (geometric (ph_probability p)) in
        whenM ((ph_last p =? 0) || (u64 (next + now) <=? ph_last p)) (ph_scheduleAttackEvent now next)
      else ph_unschedule.

(** The loop of [checkPermanent]: always the integer register of the recorded index. *)
Definition ph_recheck (now : Z) (e : (Z * Z) * PermanentFault) : MP unit :=
  let '((tid, idx), f) := e in
  if negb (pf_update f) then skip
  else if (idx <? 0) || (numPhysRegs cfg IntRegClass <=? idx) then skip
  else
    let reg := (IntRegClass, idx) in
    do! modify (ph_on_rf (fun rf =>
          match rf_getReg rf reg with
          | None => rf
          | Some (v, rf1) => default rf1 (rf_setReg rf1 reg (reapply_fault (pf_type f) (pf_mask f) v))
          end)) in
    do! modify (fun s => ph_set_permanent
          (map_assign (tid, idx) (mkPF (pf_type f) (pf_mask f) false) (ph_permanent s)) s) in
    ph_scheduleCheck now 1.

Definition ph_checkPermanent (now : Z) : MP unit :=
  let! s := get in for_each (ph_permanent s) (ph_recheck now).

Definition ph_readTraceCheck (now : Z) : MP unit :=
  let! s := get in
  let rf := regFile (ph_cpu s) in
  let reads := reads_before_overwrite rf in
  let first := trace_overwritten rf && negb (ph_over_recorded s) in
  let rec := ph_over_recorded s || first in
  let cyc := if first then now else ph_over_cycle s in
  do! modify (ph_set_traced (ph_traced s) reads rec cyc) in
  do! log_if (ph_log p) (Entry "ReadTracePoll"
        [("cycle", now); ("phys", ph_traced s); ("reads", reads); ("overwritten", if rec then 1 else 0);
         ("at_cycle", cyc)]) in
  if existsb (ctx_active (ph_cpu s)) ph_threads then modify (ph_on_trace (schedule_at now 100000))
  else
    do! log_if (ph_log p) (Entry "ReadTraceFinal"
          [("phys", ph_traced s); ("reads", reads); ("overwritten", if rec then 1 else 0); ("at_cycle", cyc)]) in
    do! modify (ph_on_rf clearReadTraceTarget) in
    modify (ph_set_traced (-1) reads rec cyc).

(** The constructor: the number of bits when it is drawn, and the first events. *)
Definition ph_init (now : Z) : MP Z :=
  if Qle_bool (ph_probability p) 0 then ret (ph_bits p)
  else
    let! bits := if ph_bits p =? -1 then with_rng (uniform_int 1 64) else ret (ph_bits p) in
    let! d := with_rng (geometric (ph_probability p)) in
    do! ph_scheduleAttackEvent now (ph_first p + d) in
    do! ph_scheduleCheck now (ph_first p + 1) in
    ret bits.
End CHAOSPhysReg.

(** * Lemmas *)

(** The table of permanent faults after a fault of type [f]. *)
Definition recorded (tid idx : Z) (f : FaultType) (mask : Z) (m : list ((Z * Z) * PermanentFault)) :=
  if is_stuck f then map_assign (tid, idx) (mkPF f mask true) m else m.

Lemma ph_count_spec tid idx f mask c s :
  exists c', ph_count tid idx f mask (c, s) = (tt, (c', ph_set_permanent (recorded tid idx f mask (ph_permanent s)) s)) /\
    faults_injected_count c' = faults_injected_count c /\ rng c' = rng c.
Proof.
  destruct c as [g n st lg], s. unfold ph_count, recorded, bind. destruct f; cbn; eexists; split; done.
Qed.

Section PhysLemmas.
Context (cfg : o3_config) (p : phys_params).

(** Two states whose register contents and O3 structures agree; the read counters and
    the injector's own fields may differ. *)
Definition same_regs (c c' : o3) : Prop :=
  c' = with_rf c (regFile c') /\ scalars (regFile c') = scalars (regFile c) /\
  vectors (regFile c') = vectors (regFile c).

Lemma ph_resolve_spec tid class c s :
  0 <= class ->
  let r := ph_resolve cfg p tid class (c, s) in
  faults_injected_count r.2.1 = faults_injected_count c /\ ph_cpu r.2.2 = ph_cpu s /\
  ph_permanent r.2.2 = ph_permanent s /\
  (ph_mode p = Phys -> 0 <= ph_target_phys p < numPhysRegs cfg class ->
     exists o, r.1 = Some ((class, ph_target_phys p), o)) /\
  forall reg o, r.1 = Some (reg, o) ->
    match ph_mode p with
    | Phys => reg.1 = class /\ 0 <= reg.2 < numPhysRegs cfg class /\ (0 <= ph_target_phys p -> reg.2 = ph_target_phys p)
    | _ => exists m, (m = frontMap (ph_cpu s) tid \/ m = commitMap (ph_cpu s) tid) /\
                     lookup_map m (flatten cfg (class, ph_target_arch p)) = Some reg
    end.
Proof.
  intros Hc. destruct c as [g n st lg]. unfold ph_resolve. destruct (ph_mode p) eqn:Em.
  - unfold ph_resolve_phys, bind.
    destruct (Z.leb_spec (numPhysRegs cfg class) 0) as [Hn|Hn].
    { cbn. split_and!; try done. intros; lia. }
    destruct (Z.leb_spec 0 (ph_target_phys p)) as [Ht|Ht].
    + cbn [ret fst snd]. destruct (Z.leb_spec (numPhysRegs cfg class) (ph_target_phys p)) as [Hi|Hi].
      { cbn. split_and!; try done. intros; lia. }
      cbn. split_and!; try done; [eauto|]. intros reg o [= <- <-]. cbn. lia.
    + unfold with_rng. cbn [fst snd rng]. pose proof (uniform_int_range 0 (numPhysRegs cfg class - 1) g ltac:(lia)) as Hr.
      destruct (uniform_int 0 (numPhysRegs cfg class - 1) g) as [i g']. cbn [fst snd] in *.
      destruct (Z.leb_spec (numPhysRegs cfg class) i) as [Hi|Hi]; [lia|].
      cbn. split_and!; try done; [intros; lia|]. intros reg o [= <- <-]. cbn. lia.
  - unfold ph_resolve_arch, bind, get. cbn [fst snd]. rewrite Em.
    repeat (case_match; [by split_and!|]). case_match eqn:E; [|by split_and!].
    split_and!; try done. intros reg o [= <- <-]. eexists. split; [by left|done].
  - unfold ph_resolve_arch, bind, get. cbn [fst snd]. rewrite Em.
    repeat (case_match; [by split_and!|]). case_match eqn:E; [|by split_and!].
    split_and!; try done. intros reg o [= <- <-]. eexists. split; [by right|done].
Qed.

(** The scalar write of a fault. *)
Definition ph_scalar_write (class : Z) (reg : RegId) (f : FaultType) (mask : Z) (rf rf' : physregfile) : Prop :=
  scalars rf' reg = stuck_write (ph_arm_stuck class reg.2 f mask rf) reg.1 reg.2 (apply_fault f mask (scalars rf reg)) /\
  (forall r, r <> reg -> scalars rf' r = scalars rf r) /\ vectors rf' = vectors rf /\
  same_stuck (ph_arm_stuck class reg.2 f mask rf) rf'.

Lemma rf_setReg_stuck_write rf reg v :
  reg.1 = IntRegClass \/ reg.1 = FloatRegClass ->
  exists rf', rf_setReg rf reg v = Some rf' /\ same_stuck rf rf' /\ vectors rf' = vectors rf /\
    scalars rf' reg = stuck_write rf reg.1 reg.2 v /\ forall r, r <> reg -> scalars rf' r = scalars rf r.
Proof.
  destruct reg as [c i]. cbn [fst snd]. intros Hc. unfold rf_setReg.
  replace (c =? InvalidRegClass) with false by (destruct Hc as [-> | ->]; done).
  replace ((c =? IntRegClass) || (c =? FloatRegClass)) with true by (destruct Hc as [-> | ->]; done).
  destruct (note_write_frame rf c i) as ((S1 & S2 & S3 & S4) & Hs & Hv). eexists. split; [done|].
  split; [done|]. split; [done|]. cbn [scalars set_scalar]. split.
  - rewrite decide_True by done. unfold stuck_write. by rewrite S1, S2, S3, S4.
  - intros r Hr. rewrite decide_False by done. by rewrite Hs.
Qed.

Lemma rf_getReg_scalar rf reg :
  reg.1 = IntRegClass \/ reg.1 = FloatRegClass ->
  rf_getReg rf reg = Some (scalars rf reg, count_read rf reg.1 reg.2).
Proof.
  destruct reg as [c i]. cbn [fst snd]. intros Hc. unfold rf_getReg.
  by replace ((c =? IntRegClass) || (c =? FloatRegClass)) with true by (destruct Hc as [-> | ->]; done).
Qed.

(** Arming commutes with counting a read. *)
Lemma arm_stuck_frame class idx f mask rf c i :
  let rf1 := ph_arm_stuck class idx f mask (count_read rf c i) in
  same_stuck (ph_arm_stuck class idx f mask rf) rf1 /\ scalars rf1 = scalars rf /\ vectors rf1 = vectors rf.
Proof.
  destruct (count_read_frame rf c i) as ((S1 & S2 & S3 & S4) & Hs & Hv).
  unfold ph_arm_stuck. destruct f; cbn; done.
Qed.

Lemma ph_inject_scalar_spec now tid class reg f mask c s :
  reg.1 = IntRegClass \/ reg.1 = FloatRegClass ->
  let r := ph_inject_scalar p now tid class reg f mask (c, s) in
  faults_injected_count r.2.1 = faults_injected_count c /\
  ph_cpu r.2.2 = with_rf (ph_cpu s) (regFile (ph_cpu r.2.2)) /\
  let v := scalars (regFile (ph_cpu s)) reg in
  if negb (ph_trigger_mask p =? 0) && negb (Z.land v (ph_trigger_mask p) =? ph_trigger_pattern p)
  then r.1 = false /\ same_regs (ph_cpu s) (ph_cpu r.2.2) /\ ph_permanent r.2.2 = ph_permanent s
  else r.1 = true /\ ph_scalar_write class reg f mask (regFile (ph_cpu s)) (regFile (ph_cpu r.2.2)) /\
       ph_permanent r.2.2 = recorded tid reg.2 f mask (ph_permanent s).
Proof.
  intros Hr. unfold ph_inject_scalar, bind, get. cbn [fst snd]. rewrite rf_getReg_scalar by done. cbn [modify fst snd].
  destruct (count_read_frame (regFile (ph_cpu s)) reg.1 reg.2) as (S & Hs & Hv).
  destruct (negb _ && negb _) eqn:Et.
  - logs. cbn. done.
  - set (s1 := ph_on_rf _ s). destruct (ph_count_spec tid reg.2 f mask c s1) as (c' & -> & Hc' & _). cbn [fst snd ret].
    destruct (arm_stuck_frame class reg.2 f mask (regFile (ph_cpu s)) reg.1 reg.2) as (A1 & A2 & A3).
    set (rf1 := ph_arm_stuck class reg.2 f mask (count_read (regFile (ph_cpu s)) reg.1 reg.2)) in *.
    destruct (rf_setReg_stuck_write rf1 reg (apply_fault f mask (scalars (regFile (ph_cpu s)) reg)) Hr)
      as (rf' & Hset & B1 & B2 & B3 & B4).
    split; [done|]. cbn. split; [done|]. split; [done|]. split; [|done].
    change (ph_arm_stuck class reg.2 f mask (count_read (regFile (ph_cpu s)) reg.1 reg.2)) with rf1.
    rewrite Hset. cbn. unfold ph_scalar_write. split_and!.
    + rewrite B3. unfold stuck_write. destruct A1 as (-> & -> & -> & ->). done.
    + intros r Hne. by rewrite B4, A2.
    + by rewrite B2, A3.
    + unfold same_stuck in *. intuition congruence.
Qed.

(** ** Vector lanes *)

Lemma lane_bytes_cases :
  ph_lane_bits p = 8 * Z.of_nat (ph_lane_bytes p) /\ (1 <= ph_lane_bytes p <= 8)%nat.
Proof.
  unfold ph_lane_bytes, ph_lane_bits.
  assert (H : forall z, z = 8 \/ z = 16 \/ z = 32 \/ z = 64 ->
                z = 8 * Z.of_nat (Z.to_nat (z / 8)) /\ (1 <= Z.to_nat (z / 8) <= 8)%nat).
  { intros z [-> | [-> | [-> | ->]]]; (split; [reflexivity|vm_compute; lia]). }
  apply H. destruct (negb _ && _ && _ && _) eqn:E; [tauto|].
  destruct (Z.eqb_spec (ph_lane_width p) 8), (Z.eqb_spec (ph_lane_width p) 16),
    (Z.eqb_spec (ph_lane_width p) 32), (Z.eqb_spec (ph_lane_width p) 64); tauto || done.
Qed.

Lemma lane_fits lane :
  0 <= lane < ph_max_lanes cfg p -> (Z.to_nat lane * ph_lane_bytes p + ph_lane_bytes p <= ph_vbytes cfg)%nat.
Proof.
  intros Hl. destruct lane_bytes_cases as [_ Hw]. unfold ph_max_lanes in Hl.
  assert (Hv : (8 <= ph_vbytes cfg)%nat) by (unfold ph_vbytes; lia).
  pose proof (Z.mul_div_le (Z.of_nat (ph_vbytes cfg)) (Z.of_nat (ph_lane_bytes p)) ltac:(lia)).
  assert (1 <= Z.of_nat (ph_vbytes cfg) / Z.of_nat (ph_lane_bytes p)).
  { apply Z.div_le_lower_bound; lia. }
  nia.
Qed.

Lemma ph_fault_lane_spec f mask lane bytes k :
  length bytes = ph_vbytes cfg -> byte_list bytes -> 0 <= lane < ph_max_lanes cfg p ->
  let off := (Z.to_nat lane * ph_lane_bytes p)%nat in
  length (ph_fault_lane cfg p f mask lane bytes) = length bytes /\
  ph_fault_lane cfg p f mask lane bytes !!! k =
    if bool_decide (off <= k < off + ph_lane_bytes p)%nat
    then apply_fault f (byte_of (ph_lane_mask p mask) (k - off)) (bytes !!! k) else bytes !!! k.
Proof.
  intros Hlen Hb Hl off. pose proof (lane_fits lane Hl) as Hfit. fold off in Hfit. unfold ph_fault_lane. fold off.
  rewrite take_app_length' by done.
  rewrite (take_ge (write_window _ _ _ _)) by (by rewrite length_write_window). rewrite length_write_window. split; [done|].
  destruct (bool_decide_reflect (off <= k < off + ph_lane_bytes p)%nat) as [Hk|Hk].
  - pose proof (window_fault_inside bytes off (ph_lane_bytes p) f (ph_lane_mask p mask) (k - off) Hb ltac:(lia) ltac:(lia)) as Hw.
    by replace (off + (k - off))%nat with k in Hw by lia.
  - apply write_window_outside. lia.
Qed.

Lemma ph_pick_lane_range g : 0 <= (ph_pick_lane cfg p g).1 < ph_max_lanes cfg p.
Proof.
  unfold ph_pick_lane. destruct (_ || _) eqn:E; bools; [|cbn; lia].
  assert (1 <= ph_max_lanes cfg p) by (unfold ph_max_lanes; lia).
  pose proof (uniform_int_range 0 (ph_max_lanes cfg p - 1) g). lia.
Qed.

(** The vector write of a fault. *)
Definition ph_vector_write (reg : RegId) (f : FaultType) (mask lane : Z) (rf rf' : physregfile) : Prop :=
  vectors rf' reg = ph_fault_lane cfg p f mask lane (vectors rf reg) /\
  (forall r, r <> reg -> vectors rf' r = vectors rf r) /\ scalars rf' = scalars rf.

Lemma ph_inject_vec_spec tid reg f mask c s :
  reg.1 = VecRegClass ->
  let r := ph_inject_vec cfg p tid reg f mask (c, s) in
  faults_injected_count r.2.1 = faults_injected_count c /\
  ph_permanent r.2.2 = recorded tid reg.2 f mask (ph_permanent s) /\
  ph_cpu r.2.2 = with_rf (ph_cpu s) (regFile (ph_cpu r.2.2)) /\
  exists lane, 0 <= lane < ph_max_lanes cfg p /\
    (0 <= ph_lane_offset p < ph_max_lanes cfg p -> lane = ph_lane_offset p) /\
    ph_vector_write reg f mask lane (regFile (ph_cpu s)) (regFile (ph_cpu r.2.2)).
Proof.
  intros Hr. destruct c as [g n st lg]. unfold ph_inject_vec, bind, get. cbn [fst snd].
  assert (Hg : rf_getRegV (regFile (ph_cpu s)) reg =
               Some (vectors (regFile (ph_cpu s)) reg, count_read (regFile (ph_cpu s)) reg.1 reg.2)).
  { destruct reg as [cl i]. cbn in Hr. by subst. }
  rewrite Hg. unfold with_rng. cbn [modify fst snd rng faults_injected_count the_stats the_log].
  pose proof (ph_pick_lane_range g) as Hl.
  assert (Ho : 0 <= ph_lane_offset p < ph_max_lanes cfg p -> (ph_pick_lane cfg p g).1 = ph_lane_offset p).
  { intros Ho. unfold ph_pick_lane. destruct (_ || _) eqn:E; [|done]. apply orb_true_iff in E as [E|E]; bools; lia. }
  destruct (ph_pick_lane cfg p g) as [lane g']. cbn [fst snd] in *.
  set (s1 := ph_on_rf _ s). destruct (ph_count_spec tid reg.2 f mask (Core g' n st lg) s1) as (c' & -> & Hc' & _).
  cbn [fst snd]. logs. split; [done|]. split; [done|]. split; [done|]. exists lane. split; [done|]. split; [done|].
  destruct (count_read_frame (regFile (ph_cpu s)) reg.1 reg.2) as (_ & Hs & Hv).
  set (rf1 := count_read _ _ _) in *. destruct (note_write_frame rf1 reg.1 reg.2) as (_ & Hs2 & Hv2).
  assert (Hset : forall b, rf_setRegV rf1 reg b = Some (set_vector (note_write rf1 reg.1 reg.2) reg b)).
  { intros b. destruct reg as [cl i]. cbn in Hr. by subst. }
  unfold ph_vector_write. cbn. fold rf1. rewrite Hset. cbn. rewrite decide_True by done. split_and!; try done.
  - intros r Hne. rewrite decide_False by done. by rewrite Hv2, Hv.
  - by rewrite Hs2.
Qed.

Lemma ph_landed_spec now tid class reg o f mask cs :
  let r := ph_landed p now tid class reg o f mask cs in
  faults_injected_count r.2.1 = count_succ (faults_injected_count cs.1) /\
  ph_cpu r.2.2 = with_rf (ph_cpu cs.2) (setReadTraceTarget (regFile (ph_cpu cs.2)) class reg.2) /\
  ph_permanent r.2.2 = ph_permanent cs.2.
Proof. destruct cs as [[g n st lg] s]. unfold ph_landed, bind, get. cbn [modify bump incr_count fst snd]. by logs. Qed.

(** ** The whole handler *)

(** The rename maps of [tid] map registers to registers of their class. *)
Definition maps_typed (c : o3) (tid : Z) : Prop :=
  forall m k a q, m = frontMap c tid \/ m = commitMap c tid -> lookup_map m (flatten cfg (k, a)) = Some q -> q.1 = k.

(** The fault type a handler applies: with no weights a random type is a bit flip. *)
Definition ph_effective : FaultType := match ph_type p with Random => BitFlip | t => t end.

Lemma choose_fault_no_weights g : (choose_fault (ph_type p) [] g).1 = ph_effective.
Proof.
  unfold choose_fault, ph_effective. destruct (ph_type p); try done. cbn.
  by rewrite Z.mod_1_r.
Qed.

Definition scalar_class (k : Z) : Prop := k = IntRegClass \/ k = FloatRegClass.

Lemma ph_pick_class_cases g : let k := (ph_pick_class p g).1 in scalar_class k \/ k = VecRegClass.
Proof. unfold ph_pick_class, scalar_class. destruct (ph_class p); cbn; try tauto. repeat case_match; tauto. Qed.

(** The register file after a fault on [reg]. *)
Definition ph_written (reg : RegId) (mask : Z) (rf rf' : physregfile) : Prop :=
  (scalar_class reg.1 /\ ph_scalar_write reg.1 reg ph_effective mask rf rf') \/
  (reg.1 = VecRegClass /\ exists lane, 0 <= lane < ph_max_lanes cfg p /\
     (0 <= ph_lane_offset p < ph_max_lanes cfg p -> lane = ph_lane_offset p) /\
     ph_vector_write reg ph_effective mask lane rf rf').

Definition traced_from_zero (rf : physregfile) (reg : RegId) : Prop :=
  trace_type rf = reg.1 /\ trace_idx rf = reg.2 /\ reads_before_overwrite rf = 0 /\ trace_overwritten rf = false.

Lemma ph_written_trace reg mask rf rf' k i :
  ph_written reg mask rf rf' -> ph_written reg mask rf (setReadTraceTarget rf' k i).
Proof. done. Qed.

(** What the parameters say about the register attacked. *)
Definition ph_aims (reg : RegId) : Prop :=
  (ph_mode p = Phys -> 0 <= ph_target_phys p -> reg.2 = ph_target_phys p) /\
  match ph_class p with
  | PcInteger => reg.1 = IntRegClass | PcFloatingPoint => reg.1 = FloatRegClass
  | PcVector => reg.1 = VecRegClass | PcBoth => True
  end.

(** A physical register is configured and nothing can make the attempt miss. *)
Definition ph_certain : Prop :=
  ph_mode p = Phys /\ ph_trigger_mask p = 0 /\ 0 <= ph_target_phys p /\ forall k, ph_target_phys p < numPhysRegs cfg k.

Lemma ph_pick_class_aims g :
  match ph_class p with
  | PcInteger => (ph_pick_class p g).1 = IntRegClass | PcFloatingPoint => (ph_pick_class p g).1 = FloatRegClass
  | PcVector => (ph_pick_class p g).1 = VecRegClass | PcBoth => True
  end.
Proof. unfold ph_pick_class. by destruct (ph_class p). Qed.

(** A landed fault: counted, recorded if permanent, traced, and written. *)
Record ph_hit (tid : Z) (c c' : core) (s s' : phys_state) (reg : RegId) (mask : Z) : Prop := {
  hit_count : faults_injected_count c' = count_succ (faults_injected_count c);
  hit_record : ph_permanent s' = recorded tid reg.2 ph_effective mask (ph_permanent s);
  hit_trace : traced_from_zero (regFile (ph_cpu s')) reg;
  hit_written : ph_written reg mask (regFile (ph_cpu s)) (regFile (ph_cpu s'))
}.

(** An attempt that changed no register. *)
Definition ph_miss (c c' : core) (s s' : phys_state) : Prop :=
  faults_injected_count c' = faults_injected_count c /\ same_regs (ph_cpu s) (ph_cpu s') /\
  ph_permanent s' = ph_permanent s.

Lemma ph_fire_spec now tid reg o mask c s :
  scalar_class reg.1 \/ reg.1 = VecRegClass ->
  let r := ph_fire cfg p now tid reg.1 reg o ph_effective mask (c, s) in
  ph_cpu r.2.2 = with_rf (ph_cpu s) (regFile (ph_cpu r.2.2)) /\
  ((ph_trigger_mask p <> 0 /\ ph_miss c r.2.1 s r.2.2) \/ ph_hit tid c r.2.1 s r.2.2 reg mask).
Proof.
  intros Hk. unfold ph_fire. destruct (Z.eqb_spec reg.1 VecRegClass) as [Hv|Hv]; unfold bind.
  - destruct (ph_inject_vec_spec tid reg ph_effective mask c s Hv) as (V1 & V0 & V2 & lane & V3 & V4 & V5).
    destruct (ph_inject_vec cfg p tid reg ph_effective mask (c, s)) as [u [c3 s3]]. cbn [fst snd] in *.
    destruct (ph_landed_spec now tid reg.1 reg o ph_effective mask (c3, s3)) as (L1 & L2 & L3). cbn [fst snd] in *.
    split; [by rewrite L2, V2|]. right. split; rewrite ?L1, ?L2, ?L3; try congruence; [done|].
    apply ph_written_trace. right. split; [done|]. by exists lane.
  - assert (Hsc : scalar_class reg.1) by tauto.
    pose proof (ph_inject_scalar_spec now tid reg.1 reg ph_effective mask c s Hsc) as (S1 & S2 & S3).
    destruct (ph_inject_scalar p now tid reg.1 reg ph_effective mask (c, s)) as [ok [c3 s3]]. cbn [fst snd] in *.
    destruct (negb (ph_trigger_mask p =? 0) && _) eqn:Etr; destruct S3 as (-> & S3 & S4); cbn [whenM].
    + split; [done|]. left. split; [|done]. intros Hz. by rewrite Hz in Etr.
    + destruct (ph_landed_spec now tid reg.1 reg o ph_effective mask (c3, s3)) as (L1 & L2 & L3). cbn [fst snd] in *.
      split; [by rewrite L2, S2|]. right. split; rewrite ?L1, ?L2, ?L3; try congruence; [done|].
      apply ph_written_trace. by left.
Qed.

Lemma ph_processFault_spec now tid c s :
  ph_mode p = Phys \/ maps_typed (ph_cpu s) tid ->
  let r := ph_processFault cfg p now tid (c, s) in
  ph_cpu r.2.2 = with_rf (ph_cpu s) (regFile (ph_cpu r.2.2)) /\
  ((~ ph_certain /\ ph_miss c r.2.1 s r.2.2) \/
   exists reg mask, ph_aims reg /\ (ph_mask p <> 0 -> mask = ph_mask p) /\ ph_hit tid c r.2.1 s r.2.2 reg mask).
Proof.
  intros Hmt. destruct c as [g n st lg]. unfold ph_processFault, bind, with_rng.
  cbn [fst snd rng faults_injected_count the_stats the_log].
  pose proof (ph_pick_class_cases g) as Hk. pose proof (ph_pick_class_aims g) as Hka.
  destruct (ph_pick_class p g) as [k g1]. cbn [fst snd] in *.
  assert (Hk0 : 0 <= k) by (destruct Hk as [[-> | ->] | ->]; done).
  destruct (ph_resolve_spec tid k (Core g1 n st lg) s Hk0) as (R1 & R2 & R3 & R5 & R4).
  destruct (ph_resolve cfg p tid k (Core g1 n st lg, s)) as [t [[g2 n2 st2 lg2] s2]]. cbn [fst snd faults_injected_count] in *.
  subst n2. destruct t as [[reg o]|].
  2:{ cbn. unfold ph_miss, same_regs. rewrite R2. split; [by destruct (ph_cpu s)|]. left.
      split; [|split_and!; try done; by destruct (ph_cpu s)].
      intros (C1 & _ & C3 & C4). destruct (R5 C1 (conj C3 (C4 k))) as [? ?]. done. }
  specialize (R4 reg o eq_refl).
  assert (Hreg : reg.1 = k).
  { destruct Hmt as [Hmt|Hmt]; [by rewrite Hmt in R4; destruct R4|].
    destruct (ph_mode p); [by destruct R4|..]; destruct R4 as (m & Hm & Hq); by apply (Hmt m k (ph_target_arch p) reg). }
  assert (Haim : ph_aims reg).
  { split; [|by rewrite Hreg]. intros Hph. rewrite Hph in R4. apply R4. }
  cbn [fst snd rng faults_injected_count the_stats the_log].
  pose proof (choose_fault_no_weights g2) as Hf. destruct (choose_fault (ph_type p) [] g2) as [f g3]. cbn [fst snd] in Hf. subst f.
  cbn [fst snd rng faults_injected_count the_stats the_log].
  assert (Hmask : ph_mask p <> 0 -> (mask_or (ph_mask p) (random_mask (ph_bits p) 0 63) g3).1 = ph_mask p).
  { intros Hne. unfold mask_or. by rewrite (proj2 (Z.eqb_neq _ _) Hne). }
  destruct (mask_or (ph_mask p) (random_mask (ph_bits p) 0 63) g3) as [mask g4]. cbn [fst snd] in *. subst k.
  destruct (ph_fire_spec now tid reg o mask (Core g4 n st2 lg2) s2 Hk) as [F1 [[F2 F3]|F2]].
  - destruct F3 as (M1 & M2 & M3). rewrite R2 in F1, M2. split; [done|]. left. split; [by intros (_ & C2 & _)|].
    split; [done|]. split; [done|]. by rewrite M3.
  - rewrite R2 in F1. split; [done|]. right. exists reg, mask. split; [done|]. split; [done|].
    destruct F2 as [G1 G2 G3 G4]. split; [done|by rewrite G2, R3|done|by rewrite R2 in G4].
Qed.
End PhysLemmas.

(** [checkPermanent] with one recorded fault, the write-path mask being on another class. *)
Lemma recheck_singleton cfg now s tid i f mask :
  ph_permanent s.2 = [((tid, i), mkPF f mask true)] ->
  0 <= i < numPhysRegs cfg IntRegClass -> stuck_type (regFile (ph_cpu s.2)) = FloatRegClass ->
  let s2 := (ph_checkPermanent cfg now s).2 in
  scalars (regFile (ph_cpu s2.2)) (IntRegClass, i) =
    reapply_fault f mask (scalars (regFile (ph_cpu s.2)) (IntRegClass, i)) /\
  forall r, r <> (IntRegClass, i) -> scalars (regFile (ph_cpu s2.2)) r = scalars (regFile (ph_cpu s.2)) r.
Proof.
  intros Hp Hi Hty. unfold ph_checkPermanent, bind, get. cbn [fst snd]. rewrite Hp. cbn [for_each]. unfold bind, ph_recheck.
  cbn [pf_update negb]. replace ((i <? 0) || (numPhysRegs cfg IntRegClass <=? i)) with false.
  2:{ symmetry. apply orb_false_iff. split; [apply Z.ltb_ge|apply Z.leb_gt]; lia. }
  cbn. set (rf := regFile (ph_cpu s.2)). fold rf in Hty.
  destruct (count_read_frame rf IntRegClass i) as ((S1 & _) & Hs & _).
  set (rf1 := count_read rf IntRegClass i) in *. destruct (note_write_frame rf1 IntRegClass i) as ((T1 & _) & Ht & _).
  unfold stuck_write. rewrite T1, S1, Hty. cbn. rewrite decide_True by done. split; [done|].
  intros r Hr. rewrite decide_False by done. by rewrite Ht, Hs.
Qed.

Lemma armed_write_stuck class idx f mask rf v :
  is_stuck f = true -> stuck_holds f mask (stuck_write (ph_arm_stuck class idx f mask rf) class idx v).
Proof.
  intros Hf. unfold stuck_write, ph_arm_stuck. destruct f; [done| | |done];
    cbn [setStuckTarget set_stuck stuck_type stuck_idx stuck_polarity stuck_mask]; rewrite !Z.eqb_refl; cbn [andb].
  - exact (reapply_stuck StuckAtZero mask v).
  - exact (reapply_stuck StuckAtOne mask v).
Qed.

(** * Properties *)

(** C9 What a physical-register fault does.  One attempt changes nothing of the O3 state
    but the register file, and there either no register (then nothing is counted or
    recorded, and this cannot happen when a physical register is configured and no value
    trigger is set), or exactly one register of the configured class and index: a scalar
    gets the masked value, passed through the write-path mask, and a vector gets the fault
    in one lane.  A landed fault is counted, recorded when it is a stuck fault, and the
    read counter starts at zero on the register. *)
Theorem phys_fault_effect cfg p now tid c s :
  ph_mode p = Phys \/ maps_typed cfg (ph_cpu s) tid ->
  let r := ph_processFault cfg p now tid (c, s) in
  ph_cpu r.2.2 = with_rf (ph_cpu s) (regFile (ph_cpu r.2.2)) /\
  ((~ ph_certain cfg p /\ ph_miss c r.2.1 s r.2.2) \/
   exists reg mask, ph_aims p reg /\ (ph_mask p <> 0 -> mask = ph_mask p) /\
     ph_hit cfg p tid c r.2.1 s r.2.2 reg mask).
Proof. apply ph_processFault_spec. Qed.

Definition example_phys (k : PhysClassSel) (f : FaultType) : phys_params :=
  PhysParams Phys 3 (-1) k 32 1 1 1 f 5 0 0 0 0 1 true.

Definition example_phys_state : phys_state :=
  PhysState example_o3 evt0 evt0 evt0 [] (-1) 0 false 0 0.

Lemma phys_fault_effect_witness :
  let r := ph_processFault example_cfg (example_phys PcInteger BitFlip) 9 0 (example_core, example_phys_state) in
  faults_injected_count r.2.1 = 1 /\ scalars (regFile (ph_cpu r.2.2)) (IntRegClass, 3) = Z.lxor 7 5.
Proof.
  intros r.
  destruct (phys_fault_effect example_cfg (example_phys PcInteger BitFlip) 9 0 example_core example_phys_state)
    as [_ [[_ (Hc & _)]|(reg & mask & [H1 H2] & H3 & H4)]]; [by left|by vm_compute in Hc|].
  destruct reg as [k i]. assert (i = 3) as -> by (by apply H1). cbn in H2. subst k.
  assert (mask = 5) as -> by (by apply H3). split; [apply (hit_count _ _ _ _ _ _ _ _ _ H4)|].
  destruct (hit_written _ _ _ _ _ _ _ _ _ H4) as [(_ & Hw & _)|[Hv _]]; [|done].
  etrans; [exact Hw|by vm_compute].
Defined.

(** A vector fault stays in its lane.  The vector injection changes one register, and
    of it only the bytes of one lane, the configured one when it is in range: each such
    byte gets the fault with the corresponding byte of the mask, cut to the lane. *)
Theorem phys_vector_lane_exact cfg p tid reg f mask c s :
  reg.1 = VecRegClass -> length (vectors (regFile (ph_cpu s)) reg) = ph_vbytes cfg ->
  byte_list (vectors (regFile (ph_cpu s)) reg) ->
  let s' := (ph_inject_vec cfg p tid reg f mask (c, s)).2.2 in
  let old := vectors (regFile (ph_cpu s)) reg in
  let new := vectors (regFile (ph_cpu s')) reg in
  (forall r, r <> reg -> vectors (regFile (ph_cpu s')) r = vectors (regFile (ph_cpu s)) r) /\
  scalars (regFile (ph_cpu s')) = scalars (regFile (ph_cpu s)) /\ length new = length old /\
  exists lane, 0 <= lane < ph_max_lanes cfg p /\
    (0 <= ph_lane_offset p < ph_max_lanes cfg p -> lane = ph_lane_offset p) /\
    forall k, new !!! k =
      let off := (Z.to_nat lane * ph_lane_bytes p)%nat in
      if bool_decide (off <= k < off + ph_lane_bytes p)%nat
      then apply_fault f (byte_of (ph_lane_mask p mask) (k - off)) (old !!! k) else old !!! k.
Proof.
  intros Hr Hlen Hb s' old new.
  destruct (ph_inject_vec_spec cfg p tid reg f mask c s Hr) as (_ & _ & _ & lane & L1 & L2 & V1 & V2 & V3).
  fold s' in V1, V2, V3. fold new old in V1. split; [done|]. split; [done|].
  pose proof (fun k => ph_fault_lane_spec cfg p f mask lane old k Hlen Hb L1) as Hk. cbn zeta in Hk. rewrite <- V1 in Hk.
  split; [by destruct (Hk 0%nat)|]. exists lane. split; [done|]. split; [done|]. intros k. by destruct (Hk k).
Qed.

Lemma phys_vector_lane_exact_witness :
  let s' := (ph_inject_vec example_cfg (example_phys PcVector BitFlip) 0 (VecRegClass, 3) BitFlip 255
               (example_core, example_phys_state)).2.2 in
  vectors (regFile (ph_cpu s')) (VecRegClass, 3) !!! 4%nat = 254 /\
  vectors (regFile (ph_cpu s')) (VecRegClass, 3) !!! 3%nat = 1.
Proof.
  intros s'.
  destruct (phys_vector_lane_exact example_cfg (example_phys PcVector BitFlip) 0 (VecRegClass, 3) BitFlip 255
              example_core example_phys_state) as (_ & _ & _ & lane & _ & H2 & H3);
    [done|done|by repeat constructor|].
  assert (lane = 1) as -> by (by apply H2). split; [etrans; [exact (H3 4%nat)|]|etrans; [exact (H3 3%nat)|]]; by vm_compute.
Defined.

(** A stuck scalar cell is permanent.  A stuck-at fault on a configured integer or float
    register lands, and from then on its bits hold the stuck value after every sequence
    of register-file accesses. *)
Theorem phys_stuck_permanent cfg p now tid c s l :
  ph_certain cfg p -> ph_class p = PcInteger \/ ph_class p = PcFloatingPoint ->
  is_stuck (ph_type p) = true -> ph_mask p <> 0 ->
  let r := ph_processFault cfg p now tid (c, s) in
  let class := match ph_class p with PcFloatingPoint => FloatRegClass | _ => IntRegClass end in
  faults_injected_count r.2.1 = count_succ (faults_injected_count c) /\
  stuck_holds (ph_type p) (ph_mask p) (scalars (rf_run (regFile (ph_cpu r.2.2)) l) (class, ph_target_phys p)).
Proof.
  intros Hcert Hcl Hst Hm r class.
  destruct (ph_processFault_spec cfg p now tid c s (or_introl (proj1 Hcert))) as [_ [[Hn _]|(reg & mask & [A1 A2] & Hmask & H)]]; [done|].
  fold r in H. split; [apply (hit_count _ _ _ _ _ _ _ _ _ H)|]. specialize (Hmask Hm). subst mask.
  assert (Hreg : reg = (class, ph_target_phys p)).
  { destruct reg as [k i]. cbn in *. f_equal; [by destruct Hcl as [E|E]; rewrite E in A2; subst class; rewrite E|].
    by destruct Hcert as (C1 & _ & C3 & _); apply A1. }
  assert (Hsc : class = IntRegClass \/ class = FloatRegClass) by (subst class; destruct Hcl as [-> | ->]; tauto).
  destruct (hit_written _ _ _ _ _ _ _ _ _ H) as [(_ & W1 & _ & _ & S1 & S2 & S3 & S4)|[Hv _]].
  2:{ exfalso. rewrite Hreg in Hv. cbn in Hv. subst class. destruct Hcl as [E|E]; by rewrite E in Hv. }
  set (rf := regFile (ph_cpu r.2.2)) in *.
  assert (Heff : ph_effective p = ph_type p) by (unfold ph_effective; by destruct (ph_type p)).
  rewrite Heff in *. subst reg. cbn [fst snd] in *.
  assert (HT : stuck_type rf = class /\ stuck_idx rf = ph_target_phys p /\ stuck_mask rf = ph_mask p /\
               polarity_fault (stuck_polarity rf) = ph_type p).
  { rewrite S1, S2, S3, S4. by destruct (ph_type p). }
  destruct HT as (T1 & T2 & T3 & T4).
  destruct (rf_run_stuck l rf) as [(R1 & R2 & R3 & R4) Hok]; [by rewrite T1| |].
  - unfold stuck_ok. rewrite T1, T2, T3, T4, W1. by apply armed_write_stuck.
  - unfold stuck_ok in Hok. rewrite R1, R2, R3, R4, T1, T2, T3, T4 in Hok. exact Hok.
Qed.

Lemma five_ne_0 : 5 <> 0.
Proof. lia. Qed.

Lemma example_phys_certain k f : ph_certain example_cfg (example_phys k f).
Proof. split_and!; done. Qed.

Lemma phys_stuck_permanent_witness :
  let r := ph_processFault example_cfg (example_phys PcInteger StuckAtOne) 9 0 (example_core, example_phys_state) in
  faults_injected_count r.2.1 = 1 /\
  stuck_holds StuckAtOne 5 (scalars (rf_run (regFile (ph_cpu r.2.2)) [OpSet (IntRegClass, 3) 0]) (IntRegClass, 3)).
Proof.
  exact (phys_stuck_permanent example_cfg (example_phys PcInteger StuckAtOne) 9 0 example_core example_phys_state
           [OpSet (IntRegClass, 3) 0] (example_phys_certain _ _) (or_introl eq_refl) eq_refl five_ne_0).
Defined.

(** The periodic check corrupts an integer register.  After a stuck-at fault on float
    register [i], the first run of [checkPermanent] forces the mask into the integer
    register of the same index, which no fault was injected into, and leaves the float
    register as it is. *)
Theorem phys_recheck_hits_integer cfg p now now' tid c s :
  ph_certain cfg p -> ph_class p = PcFloatingPoint -> is_stuck (ph_type p) = true -> ph_mask p <> 0 ->
  ph_permanent s = [] ->
  let s1 := (ph_processFault cfg p now tid (c, s)).2 in
  let s2 := (ph_checkPermanent cfg now' s1).2 in
  let i := ph_target_phys p in
  scalars (regFile (ph_cpu s2.2)) (IntRegClass, i) =
    reapply_fault (ph_type p) (ph_mask p) (scalars (regFile (ph_cpu s)) (IntRegClass, i)) /\
  scalars (regFile (ph_cpu s2.2)) (FloatRegClass, i) = scalars (regFile (ph_cpu s1.2)) (FloatRegClass, i).
Proof.
  intros Hcert Hcl Hst Hm Hperm s1 s2 i.
  destruct (ph_processFault_spec cfg p now tid c s (or_introl (proj1 Hcert))) as [_ [[Hn _]|(reg & mask & [A1 A2] & Hmask & H)]]; [done|].
  fold s1 in H. specialize (Hmask Hm). subst mask. rewrite Hcl in A2.
  assert (Hreg : reg = (FloatRegClass, i)).
  { destruct reg as [k j]. cbn in *. f_equal; [done|]. by destruct Hcert as (C1 & _ & C3 & _); apply A1. }
  subst reg. pose proof (hit_record _ _ _ _ _ _ _ _ _ H) as Hrec. rewrite Hperm in Hrec. unfold recorded in Hrec.
  assert (Heff : ph_effective p = ph_type p) by (unfold ph_effective; by destruct (ph_type p)).
  rewrite Heff, Hst in Hrec. cbn in Hrec.
  destruct (hit_written _ _ _ _ _ _ _ _ _ H) as [(_ & _ & W2 & _ & S1 & S2 & _)|[Hv _]]; [|done].
  rewrite Heff in *. cbn [fst snd] in *.
  assert (Hty : stuck_type (regFile (ph_cpu s1.2)) = FloatRegClass).
  { rewrite S1. by destruct (ph_type p). }
  apply (recheck_singleton cfg now' s1 tid i (ph_type p) (ph_mask p)) in Hrec as [R1 R2]; [| |done].
  - fold s2 in R1, R2. rewrite R1, (R2 (FloatRegClass, i)) by done. by rewrite W2.
  - destruct Hcert as (_ & _ & C3 & C4). split; [done|apply C4].
Qed.

Lemma phys_recheck_hits_integer_witness :
  let s1 := (ph_processFault example_cfg (example_phys PcFloatingPoint StuckAtZero) 9 0 (example_core, example_phys_state)).2 in
  let s2 := (ph_checkPermanent example_cfg 20 s1).2 in
  scalars (regFile (ph_cpu s2.2)) (IntRegClass, 3) = 2 /\
  scalars (regFile (ph_cpu s2.2)) (FloatRegClass, 3) = scalars (regFile (ph_cpu s1.2)) (FloatRegClass, 3).
Proof.
  exact (phys_recheck_hits_integer example_cfg (example_phys PcFloatingPoint StuckAtZero) 9 20 0 example_core
           example_phys_state (example_phys_certain _ _) eq_refl eq_refl five_ne_0 eq_refl).
Defined.
