(* ===== verification/Memory.v ===== *)
(** * The abstract memory

    [AbstractMemory::access] (mem/abstract_mem.cc) for reads, writes, load-locked and
    store-conditional packets: the bytes, and the list of locked addresses by which the
    memory decides store-conditionals.  The list refines a table of one reservation per
    hardware context: a load-locked sets the context's reservation, every write that goes
    through clears all reservations of its 16-byte granule, and a store-conditional goes
    through exactly when its context holds the reservation.  A memory that is not writeable
    ignores writes and leaves the result of a store-conditional unset. *)

From Stdlib Require Import ZArith Lia.
From stdpp Require Import base list numbers strings.
From S2P Require Import Prelude Word.

Open Scope Z_scope.

(** [AbstractMemory]; [cleared] lists the contexts whose ISA was told to clear its
    exclusive monitor ([globalClearExclusive]), newest first. *)
Record memory := Memory {
  range_start : Z; range_size : Z;
  pmem : Z -> Z;
  writeable : bool;
  lockedAddrList : list (Z * Z);                    (* (addr, contextId), front first *)
  cleared : list Z
}.

(** [LockedAddr::mask] *)
Definition lock_mask (a : Z) : Z := Z.land a (Z.lnot 15).

(** [pkt->getAddrRange().isSubset(range)] *)
Definition in_range (m : memory) (a : Z) (n : nat) : bool :=
  (range_start m <=? a) && (a + Z.of_nat n <=? range_start m + range_size m).

Definition with_locks (m : memory) (l : list (Z * Z)) : memory :=
  Memory (range_start m) (range_size m) (pmem m) (writeable m) l (cleared m).

(** [trackLoadLocked]: one record per context. *)
Fixpoint relock (ctx addr : Z) (l : list (Z * Z)) : option (list (Z * Z)) :=
  match l with
  | [] => None
  | (a, c) :: l' =>
      if c =? ctx then Some ((addr, c) :: l')
      else match relock ctx addr l' with Some l2 => Some ((a, c) :: l2) | None => None end
  end.

Definition trackLoadLocked (m : memory) (ctx a : Z) : memory :=
  let addr := lock_mask a in
  match relock ctx addr (lockedAddrList m) with
  | Some l => with_locks m l
  | None => with_locks m ((addr, ctx) :: lockedAddrList m)
  end.

(** The erasing loop of [checkLockedAddrList]: records of other contexts also clear the
    monitor of their owner. *)
Fixpoint erase_locks (requestor : option Z) (addr : Z) (l : list (Z * Z)) (cl : list Z) : list (Z * Z) * list Z :=
  match l with
  | [] => ([], cl)
  | (a, c) :: l' =>
      if a =? addr
      then erase_locks requestor addr l' (if decide (requestor = Some c) then cl else c :: cl)
      else let r := erase_locks requestor addr l' cl in ((a, c) :: r.1, r.2)
  end.

(** [writeOK] and [checkLockedAddrList]: whether the write is done, and the locks then. *)
Definition writeOK (m : memory) (requestor : option Z) (llsc : bool) (a : Z) : bool * memory :=
  if negb (writeable m) then (false, m)
  else match lockedAddrList m with
  | [] => (negb llsc, m)
  | l =>
      let addr := lock_mask a in
      let allow := if llsc then existsb (fun r => (r.1 =? addr) && bool_decide (Some r.2 = requestor)) l else true in
      if allow then
        let r := erase_locks requestor addr l (cleared m) in
        (true, Memory (range_start m) (range_size m) (pmem m) (writeable m) r.1 r.2)
      else (false, m)
  end.

(** [writeData]: the bytes of the packet at [a], [a + 1], ... *)
Definition store_bytes (f : Z -> Z) (a : Z) (bytes : list Z) : Z -> Z :=
  fun x => if (a <=? x) && (x <? a + Z.of_nat (length bytes)) then bytes !!! Z.to_nat (x - a) else f x.

Definition load_bytes (f : Z -> Z) (a : Z) (n : nat) : list Z := map (fun i => f (a + Z.of_nat i)) (seq 0 n).

Inductive packet :=
  | ReadReq (a : Z) (n : nat)
  | WriteReq (requestor : option Z) (a : Z) (bytes : list Z)
  | LoadLockedReq (ctx a : Z) (n : nat)
  | StoreCondReq (ctx a : Z) (bytes : list Z).

(** [Cond] is the result in the extra data of the request; [Unset] is a store-conditional
    whose extra data the memory leaves as it is, because it is not writeable. *)
Inductive reply := Data (bytes : list Z) | Done | Cond (ok : bool) | Unset.

Definition write_access (m : memory) (requestor : option Z) (llsc : bool) (a : Z) (bytes : list Z) : bool * memory :=
  let r := writeOK m requestor llsc a in
  if r.1 then
    (true, Memory (range_start r.2) (range_size r.2) (store_bytes (pmem r.2) a bytes) (writeable r.2)
             (lockedAddrList r.2) (cleared r.2))
  else (false, r.2).

(** [AbstractMemory::access]; [None] is the failing assertion on the range. *)
Definition access (m : memory) (p : packet) : option (reply * memory) :=
  match p with
  | ReadReq a n => if in_range m a n then Some (Data (load_bytes (pmem m) a n), m) else None
  | WriteReq rq a bytes =>
      if in_range m a (length bytes) then let r := write_access m rq false a bytes in Some (Done, r.2) else None
  | LoadLockedReq ctx a n =>
      if in_range m a n
      then let m1 := trackLoadLocked m ctx a in Some (Data (load_bytes (pmem m1) a n), m1) else None
  | StoreCondReq ctx a bytes =>
      if in_range m a (length bytes)
      then let r := write_access m (Some ctx) true a bytes in
           Some (if writeable m then Cond r.1 else Unset, r.2) else None
  end.

(** ** The specification: a table of reservations *)

Record spec_memory := SpecMem { sp_bytes : Z -> Z; sp_res : Z -> option Z }.

Definition spec_write (s : spec_memory) (a : Z) (bytes : list Z) : spec_memory :=
  SpecMem (store_bytes (sp_bytes s) a bytes)
          (fun c => match sp_res s c with
                    | Some g => if g =? lock_mask a then None else Some g
                    | None => None
                    end).

Definition spec_access (w : bool) (s : spec_memory) (p : packet) : reply * spec_memory :=
  match p with
  | ReadReq a n => (Data (load_bytes (sp_bytes s) a n), s)
  | WriteReq _ a bytes => (Done, if w then spec_write s a bytes else s)
  | LoadLockedReq ctx a n =>
      (Data (load_bytes (sp_bytes s) a n),
       SpecMem (sp_bytes s) (fun c => if decide (c = ctx) then Some (lock_mask a) else sp_res s c))
  | StoreCondReq ctx a bytes =>
      if negb w then (Unset, s)
      else if bool_decide (sp_res s ctx = Some (lock_mask a)) then (Cond true, spec_write s a bytes) else (Cond false, s)
  end.

Definition reservation (l : list (Z * Z)) (ctx : Z) : option Z :=
  match List.find (fun r => r.2 =? ctx) l with Some r => Some r.1 | None => None end.

(** A memory and its specification agree; each context has at most one record. *)
Record refines (m : memory) (s : spec_memory) : Prop := {
  rf_bytes : forall x, pmem m x = sp_bytes s x;
  rf_res : forall c, reservation (lockedAddrList m) c = sp_res s c;
  rf_unique : NoDup (lockedAddrList m).*2
}.

(** * Lemmas *)

Lemma reservation_none l c : reservation l c = None <-> c ∉ l.*2.
Proof.
  unfold reservation. induction l as [|[a k] l IH]; cbn; [split; [intros _; apply not_elem_of_nil|done]|].
  rewrite not_elem_of_cons. destruct (Z.eqb_spec k c) as [->|]; [naive_solver|].
  rewrite IH. naive_solver.
Qed.

Lemma reservation_cons a k l c : reservation ((a, k) :: l) c = if k =? c then Some a else reservation l c.
Proof. unfold reservation. cbn. by destruct (k =? c). Qed.

Lemma relock_spec ctx addr l :
  match relock ctx addr l with
  | Some l2 => l2.*2 = l.*2 /\ forall c, reservation l2 c = if decide (c = ctx) then Some addr else reservation l c
  | None => ctx ∉ l.*2
  end.
Proof.
  induction l as [|[a k] l IH]; cbn [relock]; [apply not_elem_of_nil|].
  destruct (Z.eqb_spec k ctx) as [->|Hk].
  - split; [done|]. intros c. rewrite !reservation_cons. case_decide as Hc.
    + subst. by rewrite Z.eqb_refl.
    + destruct (Z.eqb_spec ctx c); [by subst|done].
  - destruct (relock ctx addr l) as [l2|].
    + destruct IH as [H1 H2]. split; [cbn; by rewrite H1|]. intros c. rewrite !reservation_cons, H2.
      destruct (Z.eqb_spec k c) as [->|]; [by rewrite decide_False|done].
    + cbn. rewrite not_elem_of_cons. done.
Qed.

Lemma erase_locks_spec rq addr l cl c :
  NoDup l.*2 ->
  reservation (erase_locks rq addr l cl).1 c =
    (match reservation l c with Some g => if g =? addr then None else Some g | None => None end) /\
  NoDup (erase_locks rq addr l cl).1.*2 /\ (forall k, k ∈ (erase_locks rq addr l cl).1.*2 -> k ∈ l.*2).
Proof.
  revert cl. induction l as [|[a k] l IH]; intros cl Hn; cbn [erase_locks]; [done|].
  apply NoDup_cons in Hn as [Hk Hn]. rewrite reservation_cons. destruct (Z.eqb_spec a addr) as [->|Ha].
  - destruct (IH (if decide (rq = Some k) then cl else k :: cl) Hn) as (H1 & H2 & H3). split_and!; try done.
    + rewrite H1. destruct (Z.eqb_spec k c) as [->|]; [|done].
      rewrite (proj2 (reservation_none l c) Hk), Z.eqb_refl. done.
    + intros x Hx. right. by apply H3.
  - destruct (IH cl Hn) as (H1 & H2 & H3). cbn [fst]. split_and!.
    + rewrite reservation_cons, H1. destruct (k =? c); [|done].
      by rewrite (proj2 (Z.eqb_neq a addr) Ha).
    + cbn. apply NoDup_cons. split; [|done]. intros Hin. by apply Hk, H3.
    + intros x. cbn. rewrite !elem_of_cons. naive_solver.
Qed.

Lemma existsb_reservation l addr ctx :
  NoDup l.*2 ->
  existsb (fun r => (r.1 =? addr) && bool_decide (Some r.2 = Some ctx)) l = bool_decide (reservation l ctx = Some addr).
Proof.
  induction l as [|[a k] l IH]; intros Hn; cbn [existsb]; [done|].
  apply NoDup_cons in Hn as [Hk Hn]. rewrite IH, reservation_cons by done. cbn [fst snd].
  destruct (Z.eqb_spec k ctx) as [->|Hne].
  - rewrite (bool_decide_true (Some ctx = Some ctx)) by done. rewrite andb_true_r.
    rewrite (proj2 (reservation_none l ctx) Hk). rewrite (bool_decide_false (None = Some addr)) by done.
    rewrite orb_false_r. destruct (Z.eqb_spec a addr); symmetry; [apply bool_decide_eq_true|apply bool_decide_eq_false]; congruence.
  - rewrite (bool_decide_false (Some k = Some ctx)) by congruence. by rewrite andb_false_r.
Qed.

(** A write that goes through. *)
Lemma write_through m s rq a bytes cl cl' :
  refines m s ->
  refines (Memory (range_start m) (range_size m) (store_bytes (pmem m) a bytes) (writeable m)
             (erase_locks rq (lock_mask a) (lockedAddrList m) cl).1 cl') (spec_write s a bytes).
Proof.
  intros [H1 H2 H3]. split; cbn.
  - intros x. unfold store_bytes. by rewrite H1.
  - intros c. destruct (erase_locks_spec rq (lock_mask a) (lockedAddrList m) cl c H3) as (-> & _). by rewrite H2.
  - by destruct (erase_locks_spec rq (lock_mask a) (lockedAddrList m) cl 0 H3) as (_ & ? & _).
Qed.

Lemma write_access_refines m s rq llsc a bytes :
  refines m s -> (llsc = true -> is_Some rq) ->
  let r := write_access m rq llsc a bytes in
  let go := writeable m && (negb llsc || match rq with Some c => bool_decide (sp_res s c = Some (lock_mask a)) | None => false end) in
  r.1 = go /\ refines r.2 (if go then spec_write s a bytes else s) /\ writeable r.2 = writeable m.
Proof.
  intros Hr Hrq. pose proof Hr as [H1 H2 H3]. unfold write_access, writeOK. destruct (writeable m) eqn:Ew; cbn [negb andb]; [|done].
  destruct (lockedAddrList m) as [|p l] eqn:El.
  - destruct llsc; cbn [negb orb fst snd].
    + destruct (Hrq eq_refl) as [c ->]. rewrite <- H2, (bool_decide_false (reservation [] c = _)) by done. done.
    + split; [done|]. split; [|done]. rewrite Ew, El.
      pose proof (write_through m s rq a bytes (cleared m) (cleared m) Hr) as Hw. by rewrite Ew, El in Hw.
  - rewrite <- El in *.
    assert (Hgo : (if llsc then existsb (fun r => (r.1 =? lock_mask a) && bool_decide (Some r.2 = rq)) (lockedAddrList m) else true) =
                  negb llsc || match rq with Some c => bool_decide (sp_res s c = Some (lock_mask a)) | None => false end).
    { destruct llsc; [|done]. destruct (Hrq eq_refl) as [c ->]. rewrite existsb_reservation, H2 by done. done. }
    rewrite Hgo. destruct (negb llsc || _); cbn [fst snd]; [|done]. split; [done|]. split; [|done]. cbn.
    rewrite <- Ew. by apply write_through.
Qed.

Lemma load_bytes_ext f g a n : (forall x, f x = g x) -> load_bytes f a n = load_bytes g a n.
Proof. intros H. unfold load_bytes. apply map_ext. intros i. apply H. Qed.

Lemma access_refines m s p r m' :
  refines m s -> access m p = Some (r, m') ->
  r = (spec_access (writeable m) s p).1 /\ refines m' (spec_access (writeable m) s p).2 /\ writeable m' = writeable m.
Proof.
  intros Hr. pose proof Hr as [H1 H2 H3].
  destruct p as [a n|rq a bytes|ctx a n|ctx a bytes]; cbn [access spec_access]; destruct (in_range m a _); try done.
  - intros [= <- <-]. cbn. split; [|done]. f_equal. by apply load_bytes_ext.
  - intros [= <- <-]. destruct (write_access_refines m s rq false a bytes Hr) as (W1 & W2 & W3); [done|].
    cbn [negb orb] in *. rewrite andb_true_r in W2. done.
  - intros [= <- <-]. unfold trackLoadLocked. pose proof (relock_spec ctx (lock_mask a) (lockedAddrList m)) as Hl.
    destruct (relock ctx (lock_mask a) (lockedAddrList m)) as [l2|]; cbn.
    + destruct Hl as [L1 L2]. split; [f_equal; by apply load_bytes_ext|]. split; [|done]. split; cbn; [done| |by rewrite L1].
      intros c. by rewrite L2, H2.
    + split; [f_equal; by apply load_bytes_ext|]. split; [|done]. split; cbn; [done| |by apply NoDup_cons].
      intros c. rewrite reservation_cons, H2. destruct (Z.eqb_spec ctx c); case_decide; congruence.
  - intros [= <- <-]. destruct (write_access_refines m s (Some ctx) true a bytes Hr) as (W1 & W2 & W3); [by eexists|].
    cbn [negb orb] in *. rewrite W1. destruct (writeable m); [|done]. by destruct (bool_decide _).
Qed.

(** A sequence of accesses, and its specification. *)
Fixpoint access_run (m : memory) (l : list packet) : option (list reply * memory) :=
  match l with
  | [] => Some ([], m)
  | p :: l' =>
      match access m p with
      | None => None
      | Some (r, m1) => match access_run m1 l' with Some (rs, m2) => Some (r :: rs, m2) | None => None end
      end
  end.

Fixpoint spec_run (w : bool) (s : spec_memory) (l : list packet) : list reply * spec_memory :=
  match l with
  | [] => ([], s)
  | p :: l' => let r := spec_access w s p in let r2 := spec_run w r.2 l' in (r.1 :: r2.1, r2.2)
  end.

(** ** Properties *)

(** C8 The lock list implements reservations.  For every sequence of packets inside the
    address range, the replies of the memory, in particular which store-conditionals
    succeed, are those of a memory with one reservation per context: load-locked sets it,
    any write of the granule that goes through clears it for all contexts, and a
    store-conditional succeeds exactly when its context still holds it. *)
Theorem memory_refines_reservations m s l rs m' :
  refines m s -> access_run m l = Some (rs, m') ->
  rs = (spec_run (writeable m) s l).1 /\ refines m' (spec_run (writeable m) s l).2.
Proof.
  revert m s rs m'. induction l as [|p l IH]; intros m s rs m' Hr; cbn [access_run spec_run].
  - by intros [= <- <-].
  - destruct (access m p) as [[r m1]|] eqn:Ea; [|done].
    destruct (access_refines m s p r m1 Hr Ea) as (A1 & A2 & A3).
    destruct (access_run m1 l) as [[rs1 m2]|] eqn:Er; [|done]. intros [= <- <-].
    destruct (IH m1 _ rs1 m2 A2 Er) as [B1 B2]. rewrite A3 in B1, B2. cbn. by rewrite A1, B1.
Qed.

Definition example_memory : memory := Memory 0 4096 (fun _ => 0) true [] [].

Definition example_spec : spec_memory := SpecMem (fun _ => 0) (fun _ => None).

Definition example_packets : list packet :=
  [LoadLockedReq 1 64 4; WriteReq None 68 [9]; StoreCondReq 1 64 [5]; LoadLockedReq 2 80 4; StoreCondReq 2 84 [7]].

Lemma example_memory_refines : refines example_memory example_spec.
Proof. split; try done. apply NoDup_nil_2. Qed.

Lemma memory_refines_reservations_witness :
  (spec_run true example_spec example_packets).1 =
  [Data [0; 0; 0; 0]; Done; Cond false; Data [0; 0; 0; 0]; Cond true].
Proof.
  destruct (access_run example_memory example_packets) as [[rs m']|] eqn:E; [|by vm_compute in E].
  pose proof (memory_refines_reservations example_memory example_spec example_packets rs m' example_memory_refines E) as [H _].
  change (writeable example_memory) with true in H. rewrite <- H. vm_compute in E. by injection E as <- _.
Defined.
