(* ===== verification/ChaosMem.v ===== *)
(** * CHAOSMem

    The injector on main memory (mem/CHAOSMem): every attack reads one byte of the
    configured window, corrupts it, lets the protection model decide and writes it back;
    stuck faults are re-applied periodically.  Theorems: the exact effect of an attack on
    the memory, the enforcement of stuck bytes, the addresses that the constructor's window has, and
    two interactions with the rest of the system: a corrected stuck fault that comes back,
    and reservations lost to the write-back. *)

From Stdlib Require Import ZArith Lia QArith.
From Stdlib Require Import Floats.SpecFloat.
From stdpp Require Import base list numbers strings.
From S2P Require Import Prelude Word Random EventQueue Memory.

Open Scope Z_scope.

(** The parameters as configured. *)
Record cm_config := CmConfig {
  cfg_probability : Q; cfg_bits : Z; cfg_first_clock : Z; cfg_last_clock : Z; cfg_type : FaultType;
  cfg_mask : Z; cfg_ratio : Z; cfg_flip : spec_float; cfg_zero : spec_float; cfg_one : spec_float;
  cfg_check_cycles : Z; cfg_log : bool; cfg_addr_mode : string; cfg_xor_mask : Z; cfg_protection : string;
  cfg_max : Z; cfg_start : Z; cfg_end : Z
}.

(** The members after construction. *)
Record cm_params := CmParams {
  cm_probability : Q; cm_bits : Z; cm_type : FaultType; cm_weights : list spec_float;
  cm_mask : Z; cm_ratio : Z; cm_check_ticks : Z; cm_last_tick : Z; cm_log : bool;
  cm_addr_mode : string; cm_xor_mask : Z; cm_protection : string; cm_max : Z;
  cm_start : Z; cm_end : Z
}.

(** [cm_aborted] is set when the range assertion of the memory fails. *)
Record cm_state := CmState {
  cm_mem : memory; cm_attack_evt : evt; cm_periodic : evt;
  cm_permanent : list (Z * PermanentFault); cm_aborted : bool
}.

Definition cm_set_mem (m : memory) (s : cm_state) : cm_state :=
  CmState m (cm_attack_evt s) (cm_periodic s) (cm_permanent s) (cm_aborted s).
Definition cm_on_attack (f : evt -> evt) (s : cm_state) : cm_state :=
  CmState (cm_mem s) (f (cm_attack_evt s)) (cm_periodic s) (cm_permanent s) (cm_aborted s).
Definition cm_on_periodic (f : evt -> evt) (s : cm_state) : cm_state :=
  CmState (cm_mem s) (cm_attack_evt s) (f (cm_periodic s)) (cm_permanent s) (cm_aborted s).
Definition cm_record (a : Z) (f : PermanentFault) (s : cm_state) : cm_state :=
  CmState (cm_mem s) (cm_attack_evt s) (cm_periodic s) (map_assign a f (cm_permanent s)) (cm_aborted s).
Definition cm_abort (s : cm_state) : cm_state :=
  CmState (cm_mem s) (cm_attack_evt s) (cm_periodic s) (cm_permanent s) true.

(** [if (!e.scheduled()) schedule(e, time);] *)
Definition schedule_tick (time : Z) (e : evt) : evt :=
  if scheduled e then e else Evt true (squashed e) time.

Abbreviation MC := (M cm_state).

(** ** The constructor *)

(** A double in a float variable. *)
Definition to_f32 (x : spec_float) : spec_float :=
  match x with S754_finite s m e => binary_round 24 128 s m e | _ => x end.

(** The normalised weights. *)
Definition cm_weights_of (flip zero one : spec_float) : list spec_float :=
  let wsum := f32_add (f32_add flip zero) one in
  if SFleb wsum (S754_zero false) then [f32_0_9; f32_0_05; f32_0_05]
  else if SFeqb wsum f32_one then [flip; zero; one]
  else let norm x := to_f32 (SFdiv 53 1024 x wsum) in [norm flip; norm zero; norm one].

(** The clamped window; both ends inclusive. *)
Definition cm_window (mem_start mem_size a_start a_end : Z) : Z * Z :=
  let target_start := if a_start <? mem_start then mem_start else a_start in
  let last_byte := u64 (mem_start + mem_size - 1) in
  let target_end := if (a_end =? 0) || (a_end <? target_start) then last_byte else a_end in
  (target_start, if last_byte <? target_end then last_byte else target_end).

(** The constructor with a memory and a positive probability.  The number of bits is
    drawn before the engine is seeded. *)
Definition cm_init (c : cm_config) : MC cm_params :=
  let! bits := if cfg_bits c =? -1 then with_rng (uniform_int 1 8) else ret (cfg_bits c) in
  let! s := get in
  let w := cm_window (range_start (cm_mem s)) (range_size (cm_mem s)) (cfg_start c) (cfg_end c) in
  let first_tick := u64 (cfg_first_clock c * cfg_ratio c) in
  let check := u64 (cfg_check_cycles c * cfg_ratio c) in
  let! d := with_rng (geometric (cfg_probability c)) in
  do! modify (cm_on_attack (schedule_tick (u64 (first_tick + u32 (d * cfg_ratio c))))) in
  do! modify (cm_on_periodic (schedule_tick (u64 (first_tick + check)))) in
  ret (CmParams (cfg_probability c) bits (cfg_type c) (cm_weights_of (cfg_flip c) (cfg_zero c) (cfg_one c))
         (u8 (cfg_mask c)) (cfg_ratio c) check (u64 (cfg_last_clock c * cfg_ratio c)) (cfg_log c)
         (cfg_addr_mode c) (if cfg_xor_mask c =? 0 then 4096 else cfg_xor_mask c) (cfg_protection c) (cfg_max c)
         w.1 w.2).

Section CHAOSMem.
Context (p : cm_params).

(** [memory->access] on one byte; [None] is the failing range assertion. *)
Definition byte_read (a : Z) : MC (option Z) :=
  let! s := get in
  match access (cm_mem s) (ReadReq a 1) with
  | Some (Data bytes, m) => do! modify (cm_set_mem m) in ret (Some (bytes !!! 0%nat))
  | _ => do! modify cm_abort in ret None
  end.

Definition byte_write (a v : Z) : MC unit :=
  let! s := get in
  match access (cm_mem s) (WriteReq None a [v]) with
  | Some (_, m) => modify (cm_set_mem m)
  | None => modify cm_abort
  end.

(** The target address: a byte of the window, redirected in addr_map_sub mode. *)
Definition cm_target (now : Z) : MC Z :=
  let! a := with_rng (uniform_int (cm_start p) (cm_end p)) in
  if String.eqb (cm_addr_mode p) "addr_map_sub" then
    let r := Z.lxor a (cm_xor_mask p) in
    do! log_if (cm_log p) (Entry "mem_addr_map_sub" [("tick", now); ("orig", a); ("redirected", r)]) in
    ret r
  else ret a.

(** The statistics and the record of the [switch]. *)
Definition cm_count (a : Z) (f : FaultType) (mask : Z) : MC unit :=
  match f with
  | StuckAtZero =>
      do! bump numStuckAtZero in do! bump numPermanentFaults in modify (cm_record a (mkPF f mask true))
  | StuckAtOne =>
      do! bump numStuckAtOne in do! bump numPermanentFaults in modify (cm_record a (mkPF f mask true))
  | BitFlip => bump numBitFlips
  | Random => skip
  end.

(** The protection model: the byte that is written. *)
Definition cm_protect (old new mask : Z) : MC Z :=
  let secded := String.eqb (cm_protection p) "secded" in
  let broken := String.eqb (cm_protection p) "ecc_logic_fault" in
  if secded || broken then
    let bits := popcount mask in
    if broken && (bits =? 1) then
      do! bump numEccLogicMissed in
      do! log_if (cm_log p) (Entry "EccLogicFault: Missed" [("bits", bits)]) in
      ret new
    else if bits =? 1 then
      do! bump numEccCorrected in
      do! log_if (cm_log p) (Entry "EccCorrected" [("bits", bits)]) in
      ret old
    else if bits =? 2 then
      do! bump numDetectedContained in
      do! log_if (cm_log p) (Entry "DetectedContained" [("bits", bits)]) in
      ret new
    else
      do! bump numLatent in
      do! log_if (cm_log p) (Entry "Latent" [("bits", bits)]) in
      ret new
  else ret new.

(** The [try] block of [attackMemory]. *)
Definition cm_corrupt (now a : Z) : MC unit :=
  let! o := byte_read a in
  match o with
  | None => skip
  | Some old =>
      let! mask := with_rng (mask_or (cm_mask p) (random_mask8 (cm_bits p) 0 7)) in
      let! f := with_rng (choose_fault (cm_type p) (cm_weights p)) in
      do! cm_count a f mask in
      let! data := cm_protect old (u8 (apply_fault f mask old)) mask in
      do! byte_write a data in
      do! bump numFaultsInjected in
      do! incr_count in
      let! n := get_count in
      log_if (cm_log p) (Entry "mem" [("tick", now); ("addr", a); ("old", old); ("new", data); ("mask", mask); ("count", n)])
  end.

(** The end of [attackMemory]: the next attack, at least one clock cycle later. *)
Definition cm_next (now : Z) : MC unit :=
  let! n := get_count in
  if cap_reached (cm_max p) n then skip
  else
    let! d := with_rng (geometric (cm_probability p)) in
    let next := u64 (now + u32 (Z.max d 1 * cm_ratio p)) in
    whenM ((next <=? cm_last_tick p) || (cm_last_tick p =? 0)) (modify (cm_on_attack (schedule_tick next))).

Definition attackMemory (now : Z) : MC unit :=
  let! a := cm_target now in
  do! cm_corrupt now a in
  let! s := get in
  if cm_aborted s then skip else cm_next now.

(** The loop of [checkPermanent] *)
Definition cm_recheck (e : Z * PermanentFault) : MC unit :=
  let '(a, f) := e in
  let! s := get in
  if negb (pf_update f) || cm_aborted s then skip
  else
    let! o := byte_read a in
    match o with
    | None => skip
    | Some v =>
        do! byte_write a (u8 (reapply_fault (pf_type f) (pf_mask f) v)) in
        bump numPermanentReapplies
    end.

Definition cm_checkPermanent (now : Z) : MC unit :=
  do! bump numPermanentChecks in
  let! s := get in
  do! for_each (cm_permanent s) cm_recheck in
  let! s := get in
  if cm_aborted s then skip
  else modify (cm_on_periodic (schedule_tick (u64 (now + cm_check_ticks p)))).
End CHAOSMem.

(** * Lemmas *)

Lemma store_one f a v x : store_bytes f a [v] x = if x =? a then v else f x.
Proof.
  unfold store_bytes. cbn [length]. destruct (Z.eqb_spec x a) as [->|Hx].
  - rewrite (proj2 (Z.leb_le a a)), (proj2 (Z.ltb_lt a (a + Z.of_nat 1))) by lia. cbn. by rewrite Z.sub_diag.
  - destruct (Z.leb_spec a x), (Z.ltb_spec x (a + Z.of_nat 1)); cbn; try done. lia.
Qed.

(** A memory [m'] that differs from [m] in byte [a] and in its locks. *)
Definition byte_set (m m' : memory) (a v : Z) : Prop :=
  range_start m' = range_start m /\ range_size m' = range_size m /\ writeable m' = writeable m /\
  forall x, pmem m' x = if x =? a then v else pmem m x.

Lemma byte_set_range m m' a v x n : byte_set m m' a v -> in_range m' x n = in_range m x n.
Proof. intros (H1 & H2 & _). unfold in_range. by rewrite H1, H2. Qed.

(** No context keeps a reservation on the granule of [a]. *)
Definition unreserved (m : memory) (a : Z) : Prop := forall r, r ∈ lockedAddrList m -> r.1 <> lock_mask a.

Lemma erase_locks_unreserved rq addr l cl r : r ∈ (erase_locks rq addr l cl).1 -> r.1 <> addr.
Proof.
  revert cl. induction l as [|[a k] l IH]; intros cl; cbn [erase_locks]; [by intros ?%elem_of_nil|].
  destruct (Z.eqb_spec a addr); [apply IH|]. cbn [fst]. intros [->|Hr]%elem_of_cons; [done|by eapply IH].
Qed.

Lemma byte_read_spec a cs :
  byte_read a cs = if in_range (cm_mem cs.2) a 1 then (Some (pmem (cm_mem cs.2) a), cs) else (None, (cs.1, cm_abort cs.2)).
Proof.
  destruct cs as [c [m e1 e2 pm ab]]. unfold byte_read, bind, get, access, cm_set_mem, cm_abort. cbn [fst snd cm_mem].
  destruct (in_range m a 1); [|done]. cbn. by rewrite Z.add_0_r.
Qed.

Lemma byte_write_spec a v c s :
  writeable (cm_mem s) = true -> in_range (cm_mem s) a 1 = true ->
  exists m', byte_write a v (c, s) = (tt, (c, cm_set_mem m' s)) /\ byte_set (cm_mem s) m' a v /\ unreserved m' a.
Proof.
  intros Hw Hr. unfold byte_write, bind, get, access, write_access, writeOK. cbn [fst snd length]. rewrite Hr, Hw. cbn [negb].
  destruct (lockedAddrList (cm_mem s)) as [|q l] eqn:El.
  - eexists. split; [done|]. split; [|intros r; cbn; rewrite El; by intros ?%elem_of_nil].
    split_and!; try done. intros x. cbn. apply store_one.
  - eexists. split; [done|]. split; [split_and!; try done; intros x; cbn [pmem]; apply store_one|].
    intros r. cbn [lockedAddrList fst snd]. apply erase_locks_unreserved.
Qed.

Lemma cm_count_spec a f mask c s :
  exists c', cm_count a f mask (c, s) =
    (tt, (c', if is_stuck f then cm_record a (mkPF f mask true) s else s)) /\
    faults_injected_count c' = faults_injected_count c.
Proof. destruct c as [g n st lg]. unfold cm_count, bind. destruct f; cbn; eexists; split; done. Qed.

(** The protection model takes the fault back. *)
Definition corrected (p : cm_params) (mask : Z) : bool :=
  String.eqb (cm_protection p) "secded" && (popcount mask =? 1).

Lemma cm_protect_spec p old new mask c s :
  exists c', cm_protect p old new mask (c, s) = (if corrected p mask then old else new, (c', s)) /\
    faults_injected_count c' = faults_injected_count c.
Proof.
  destruct c as [g n st lg]. unfold cm_protect, corrected, bind.
  destruct (String.eqb_spec (cm_protection p) "secded") as [E|E].
  - rewrite E. cbn. destruct (popcount mask =? 1); [cbn; logs; eauto|].
    destruct (popcount mask =? 2); cbn; logs; eauto.
  - cbn. destruct (String.eqb (cm_protection p) "ecc_logic_fault"); cbn; [|eauto].
    destruct (popcount mask =? 1); [cbn; logs; eauto|].
    destruct (popcount mask =? 2); cbn; logs; eauto.
Qed.

(** The effect of the [try] block on address [a]. *)
Record corrupted_at (p : cm_params) (a : Z) (c c' : core) (s s' : cm_state) (f : FaultType) (mask : Z) : Prop := {
  ca_type : cm_type p <> Random -> f = cm_type p;
  ca_mask : cm_mask p <> 0 -> mask = cm_mask p;
  ca_byte : let old := pmem (cm_mem s) a in
            byte_set (cm_mem s) (cm_mem s') a (if corrected p mask then old else u8 (apply_fault f mask old));
  ca_locks : unreserved (cm_mem s') a;
  ca_record : cm_permanent s' = if is_stuck f then map_assign a (mkPF f mask true) (cm_permanent s) else cm_permanent s;
  ca_count : faults_injected_count c' = count_succ (faults_injected_count c);
  ca_alive : cm_aborted s' = cm_aborted s
}.

Lemma cm_corrupt_spec p now a c s :
  writeable (cm_mem s) = true ->
  let r := cm_corrupt p now a (c, s) in
  if in_range (cm_mem s) a 1
  then exists f mask, corrupted_at p a c r.2.1 s r.2.2 f mask
  else r.2 = (c, cm_abort s).
Proof.
  intros Hw. unfold cm_corrupt, bind. rewrite byte_read_spec. cbn [snd fst].
  destruct (in_range (cm_mem s) a 1) eqn:Er; [|done]. destruct c as [g n st lg]. unfold with_rng.
  cbn [fst snd rng faults_injected_count the_stats the_log].
  assert (Hm : cm_mask p <> 0 -> (mask_or (cm_mask p) (random_mask8 (cm_bits p) 0 7) g).1 = cm_mask p).
  { intros Hne. unfold mask_or. by rewrite (proj2 (Z.eqb_neq _ _) Hne). }
  destruct (mask_or (cm_mask p) (random_mask8 (cm_bits p) 0 7) g) as [mask g1]. cbn [fst snd rng] in *.
  assert (Hf : cm_type p <> Random -> (choose_fault (cm_type p) (cm_weights p) g1).1 = cm_type p).
  { intros Hne. unfold choose_fault. by destruct (cm_type p). }
  destruct (choose_fault (cm_type p) (cm_weights p) g1) as [f g2]. cbn [fst snd] in *.
  destruct (cm_count_spec a f mask (Core g2 n st lg) s) as (c1 & -> & Hc1). cbn [fst snd faults_injected_count] in *.
  set (s1 := if is_stuck f then _ else s).
  assert (H1 : cm_mem s1 = cm_mem s /\ cm_aborted s1 = cm_aborted s /\ cm_attack_evt s1 = cm_attack_evt s /\
               cm_periodic s1 = cm_periodic s) by (subst s1; by destruct (is_stuck f)).
  destruct H1 as (H1 & H2 & H3 & H4).
  destruct (cm_protect_spec p (pmem (cm_mem s) a) (u8 (apply_fault f mask (pmem (cm_mem s) a))) mask c1 s1) as (c2 & -> & Hc2).
  cbn [fst snd].
  destruct (byte_write_spec a (if corrected p mask then pmem (cm_mem s) a else u8 (apply_fault f mask (pmem (cm_mem s) a))) c2 s1)
    as (m' & -> & B1 & B2); [by rewrite H1|by rewrite H1|].
  destruct c2 as [g3 n3 st3 lg3]. cbn [fst snd bump incr_count get_count faults_injected_count] in *. subst n3.
  logs. exists f, mask. split; cbn; try done.
  - by rewrite H1 in B1.
  - subst s1. by destruct (is_stuck f).
  - by rewrite Hc1.
Qed.

Lemma cm_init_window c co s :
  let w := cm_window (range_start (cm_mem s)) (range_size (cm_mem s)) (cfg_start c) (cfg_end c) in
  cm_start (cm_init c (co, s)).1 = w.1 /\ cm_end (cm_init c (co, s)).1 = w.2.
Proof. destruct co. unfold cm_init, bind, with_rng. by destruct (cfg_bits c =? -1). Qed.

Lemma cm_target_spec p now cs :
  cm_start p <= cm_end p ->
  exists a0 c', cm_target p now cs =
    (if String.eqb (cm_addr_mode p) "addr_map_sub" then Z.lxor a0 (cm_xor_mask p) else a0, (c', cs.2)) /\
    cm_start p <= a0 <= cm_end p /\ faults_injected_count c' = faults_injected_count cs.1.
Proof.
  intros Hw. destruct cs as [[g n st lg] s]. unfold cm_target, bind, with_rng. cbn [fst snd rng].
  pose proof (uniform_int_range _ _ g Hw). exists (uniform_int (cm_start p) (cm_end p) g).1.
  destruct (String.eqb _ _); logs; cbn; eexists; split; done.
Qed.

Lemma cm_next_spec p now cs :
  let r := (cm_next p now cs).2 in
  faults_injected_count r.1 = faults_injected_count cs.1 /\ cm_mem r.2 = cm_mem cs.2 /\
  cm_permanent r.2 = cm_permanent cs.2 /\ cm_aborted r.2 = cm_aborted cs.2.
Proof.
  destruct cs as [[g n st lg] s]. unfold cm_next, bind, get_count, with_rng. cbn [fst snd].
  destruct (cap_reached _ _); [done|]. cbn [fst snd rng]. unfold whenM. by destruct (_ || _).
Qed.

(** An attack on an address of the memory. *)
Lemma attack_spec p now c s :
  cm_start p <= cm_end p -> cm_aborted s = false -> writeable (cm_mem s) = true ->
  let r := attackMemory p now (c, s) in
  exists a0, cm_start p <= a0 <= cm_end p /\
    let a := if String.eqb (cm_addr_mode p) "addr_map_sub" then Z.lxor a0 (cm_xor_mask p) else a0 in
    if in_range (cm_mem s) a 1 then exists f mask, corrupted_at p a c r.2.1 s r.2.2 f mask
    else cm_aborted r.2.2 = true /\ cm_mem r.2.2 = cm_mem s /\ faults_injected_count r.2.1 = faults_injected_count c.
Proof.
  intros Hwin Hal Hw. unfold attackMemory, bind, get.
  destruct (cm_target_spec p now (c, s) Hwin) as (a0 & c1 & -> & Ha0 & Hc1). cbn [fst snd] in *. exists a0. split; [done|].
  set (a := if String.eqb _ _ then _ else _). pose proof (cm_corrupt_spec p now a c1 s Hw) as Hsp. cbn zeta in *.
  destruct (in_range (cm_mem s) a 1); [|rewrite Hsp; by cbn].
  destruct Hsp as (f & mask & [A1 A2 A3 A4 A5 A6 A7]). exists f, mask.
  destruct (cm_corrupt p now a (c1, s)) as [u [c2 s2]]. cbn [fst snd] in *. rewrite A7, Hal.
  destruct (cm_next_spec p now (c2, s2)) as (N1 & N2 & N3 & N4). cbn [fst snd] in *.
  split; rewrite ?N1, ?N2, ?N3, ?N4; try done. by rewrite A6, Hc1.
Qed.

Lemma attack_in_window p now c s :
  cm_start p <= cm_end p -> cm_aborted s = false -> writeable (cm_mem s) = true ->
  cm_addr_mode p = "fixed" -> range_start (cm_mem s) <= cm_start p ->
  cm_end p < range_start (cm_mem s) + range_size (cm_mem s) ->
  let r := attackMemory p now (c, s) in
  exists a f mask, cm_start p <= a <= cm_end p /\ corrupted_at p a c r.2.1 s r.2.2 f mask.
Proof.
  intros Hwin Hal Hw Hmode Hlo Hhi. destruct (attack_spec p now c s Hwin Hal Hw) as (a & Ha & H).
  rewrite Hmode in H. cbn in H.
  assert (Hr : in_range (cm_mem s) a 1 = true).
  { unfold in_range. apply andb_true_iff. split; apply Z.leb_le; lia. }
  rewrite Hr in H. destruct H as (f & mask & H). by exists a, f, mask.
Qed.

(** ** Re-application of stuck bytes *)

(** The value [checkPermanent] leaves in a byte. *)
Definition enforced (o : option PermanentFault) (v : Z) : Z :=
  match o with
  | Some f => if pf_update f then u8 (reapply_fault (pf_type f) (pf_mask f) v) else v
  | None => v
  end.

Lemma cm_recheck_spec a f c s :
  writeable (cm_mem s) = true -> in_range (cm_mem s) a 1 = true -> cm_aborted s = false ->
  exists c' m', cm_recheck (a, f) (c, s) = (tt, (c', cm_set_mem m' s)) /\
    byte_set (cm_mem s) m' a (enforced (Some f) (pmem (cm_mem s) a)) /\
    faults_injected_count c' = faults_injected_count c.
Proof.
  intros Hw Hr Ha. unfold cm_recheck, bind, get. cbn [fst snd enforced]. rewrite Ha, orb_false_r. destruct (pf_update f); cbn [negb].
  - rewrite byte_read_spec. cbn [snd fst]. rewrite Hr. cbn [fst snd].
    destruct (byte_write_spec a (u8 (reapply_fault (pf_type f) (pf_mask f) (pmem (cm_mem s) a))) c s Hw Hr) as (m' & -> & B1 & _).
    destruct c as [g n st lg]. eexists _, m'. split; [done|]. split; [exact B1|done].
  - exists c, (cm_mem s). split; [by destruct s|]. split; [|done]. split_and!; try done.
    intros x. by destruct (Z.eqb_spec x a) as [->|].
Qed.

Lemma map_find_head {V} (k x : Z) (v : V) m :
  map_find x ((k, v) :: m) = if x =? k then Some v else map_find x m.
Proof.
  cbn. unfold kltb, Z_order. destruct (Z.ltb_spec x k), (Z.ltb_spec k x), (Z.eqb_spec x k); cbn; try done; lia.
Qed.

Lemma map_find_above {V} (k : Z) (m : list (Z * V)) :
  Forall (fun q => kltb k q.1 = true) m -> map_find k m = None.
Proof.
  induction 1 as [|[k' v] m Hk _ IH]; [done|]. rewrite map_find_head, IH. unfold kltb, Z_order in Hk. cbn in Hk.
  destruct (Z.eqb_spec k k'); [lia|done].
Qed.

Lemma cm_recheck_all l c s :
  writeable (cm_mem s) = true -> cm_aborted s = false -> map_sorted l ->
  Forall (fun e => in_range (cm_mem s) e.1 1 = true) l ->
  exists c' m', for_each l cm_recheck (c, s) = (tt, (c', cm_set_mem m' s)) /\
    writeable m' = true /\ range_start m' = range_start (cm_mem s) /\ range_size m' = range_size (cm_mem s) /\
    (forall x, pmem m' x = enforced (map_find x l) (pmem (cm_mem s) x)) /\
    faults_injected_count c' = faults_injected_count c.
Proof.
  revert c s. induction l as [|[a f] l IH]; intros c s Hw Ha Hs Hr; cbn [for_each].
  - exists c, (cm_mem s). split; [by destruct s|]. done.
  - destruct Hs as [Hall Hs]. apply Forall_cons in Hr as [Hra Hr]. cbn [fst] in Hra.
    destruct (cm_recheck_spec a f c s Hw Hra Ha) as (c1 & m1 & E1 & B1 & N1). unfold bind. rewrite E1. cbn [fst snd].
    pose proof B1 as (R1 & R2 & R3 & R4).
    destruct (IH c1 (cm_set_mem m1 s)) as (c2 & m2 & E2 & W2 & S2 & Z2 & P2 & N2); cbn [cm_set_mem cm_mem cm_aborted]; try done.
    + by rewrite R3.
    + eapply Forall_impl; [exact Hr|]. intros e He. cbn. by rewrite (byte_set_range _ _ _ _ _ _ B1).
    + cbn [cm_set_mem cm_mem] in *. exists c2, m2. rewrite E2. split; [done|]. rewrite S2, Z2, R1, R2, N2, N1.
      split_and!; try done. intros x. rewrite P2, R4, map_find_head.
      destruct (Z.eqb_spec x a) as [->|]; [|done]. by rewrite (map_find_above a l Hall).
Qed.

Lemma cm_checkPermanent_spec p now c s :
  writeable (cm_mem s) = true -> cm_aborted s = false -> map_sorted (cm_permanent s) ->
  Forall (fun e => in_range (cm_mem s) e.1 1 = true) (cm_permanent s) ->
  exists m', (cm_checkPermanent p now (c, s)).2.2 =
      cm_on_periodic (schedule_tick (u64 (now + cm_check_ticks p))) (cm_set_mem m' s) /\
    forall x, pmem m' x = enforced (map_find x (cm_permanent s)) (pmem (cm_mem s) x).
Proof.
  intros Hw Ha Hs Hr. destruct c as [g n st lg].
  unfold cm_checkPermanent, bind, get. cbn [bump fst snd rng faults_injected_count the_stats the_log].
  destruct (cm_recheck_all (cm_permanent s) (Core g n (bump_stat numPermanentChecks st) lg) s Hw Ha Hs Hr)
    as (c' & m' & -> & _ & _ & _ & P & _).
  exists m'. cbn [fst snd cm_set_mem cm_aborted]. by rewrite Ha.
Qed.

(** * Properties *)

(** C19 What a memory attack does.  The attack hits one address of the window, XORed with
    the configured mask in addr_map_sub mode.  If it lies in the memory, exactly that byte
    changes, to the masked value or, when SECDED corrects a one-bit mask, to itself; a
    stuck fault is recorded and one fault is counted.  If it does not, the range
    assertion of the memory fails and nothing is injected. *)
Theorem mem_attack_effect p now c s :
  cm_start p <= cm_end p -> cm_aborted s = false -> writeable (cm_mem s) = true ->
  let r := attackMemory p now (c, s) in
  exists a0, cm_start p <= a0 <= cm_end p /\
    let a := if String.eqb (cm_addr_mode p) "addr_map_sub" then Z.lxor a0 (cm_xor_mask p) else a0 in
    if in_range (cm_mem s) a 1 then
      exists f mask, (cm_type p <> Random -> f = cm_type p) /\ (cm_mask p <> 0 -> mask = cm_mask p) /\
        (forall x, pmem (cm_mem r.2.2) x =
           if x =? a then (if corrected p mask then pmem (cm_mem s) a else u8 (apply_fault f mask (pmem (cm_mem s) a)))
           else pmem (cm_mem s) x) /\
        cm_permanent r.2.2 = (if is_stuck f then map_assign a (mkPF f mask true) (cm_permanent s) else cm_permanent s) /\
        faults_injected_count r.2.1 = count_succ (faults_injected_count c) /\ cm_aborted r.2.2 = false
    else cm_aborted r.2.2 = true /\ cm_mem r.2.2 = cm_mem s /\ faults_injected_count r.2.1 = faults_injected_count c.
Proof.
  intros Hwin Hal Hw r. destruct (attack_spec p now c s Hwin Hal Hw) as (a0 & Ha & H). exists a0. split; [done|].
  cbn zeta in *. destruct (in_range (cm_mem s) _ 1); [|done].
  destruct H as (f & mask & [A1 A2 (_ & _ & _ & A3) _ A5 A6 A7]). exists f, mask. rewrite Hal in A7. done.
Qed.

Definition example_cm (prot : string) (f : FaultType) (mask : Z) : cm_params :=
  CmParams 1 1 f [] mask 500 1000 0 true "fixed" 4096 prot 1 64 79.

Definition example_cm_state : cm_state :=
  CmState (Memory 0 4096 (fun _ => 3) true [(64, 1)] []) evt0 evt0 [] false.

Lemma mem_attack_effect_witness :
  let r := attackMemory (example_cm "none" BitFlip 6) 10 (Core (Engine (fun _ => 0) 0) 0 stats0 [], example_cm_state) in
  faults_injected_count r.2.1 = 1 /\ exists a, 64 <= a <= 79 /\ pmem (cm_mem r.2.2) a = 5.
Proof.
  intros r.
  destruct (mem_attack_effect (example_cm "none" BitFlip 6) 10 (Core (Engine (fun _ => 0) 0) 0 stats0 []) example_cm_state)
    as (a0 & Ha & H); [by vm_compute|done|done|].
  change (String.eqb (cm_addr_mode (example_cm "none" BitFlip 6)) "addr_map_sub") with false in H. cbn iota zeta in H.
  change (cm_start _) with 64 in Ha. change (cm_end _) with 79 in Ha.
  assert (Hr : in_range (cm_mem example_cm_state) a0 1 = true).
  { unfold in_range. cbn. apply andb_true_iff. split; apply Z.leb_le; lia. }
  rewrite Hr in H. destruct H as (f & mask & H1 & H2 & H3 & _ & H4 & _). split; [exact H4|].
  exists a0. split; [done|]. etrans; [exact (H3 a0)|]. rewrite Z.eqb_refl, (H1 ltac:(done)), (H2 ltac:(done)). by vm_compute.
Defined.

(** Stuck bytes are enforced.  When every recorded address lies in the memory,
    [checkPermanent] puts each recorded byte back to its stuck value, for every fault that
    is still to be re-applied, leaves all other bytes alone, keeps the record, and
    schedules the next check one period later. *)
Theorem mem_stuck_enforced p now c s :
  writeable (cm_mem s) = true -> cm_aborted s = false -> map_sorted (cm_permanent s) ->
  Forall (fun e => in_range (cm_mem s) e.1 1 = true) (cm_permanent s) -> scheduled (cm_periodic s) = false ->
  let s' := (cm_checkPermanent p now (c, s)).2.2 in
  (forall a f, map_find a (cm_permanent s) = Some f -> pf_update f = true ->
     pmem (cm_mem s') a = u8 (reapply_fault (pf_type f) (pf_mask f) (pmem (cm_mem s) a))) /\
  (forall x, map_find x (cm_permanent s) = None -> pmem (cm_mem s') x = pmem (cm_mem s) x) /\
  cm_permanent s' = cm_permanent s /\ cm_aborted s' = false /\
  cm_periodic s' = Evt true (squashed (cm_periodic s)) (u64 (now + cm_check_ticks p)).
Proof.
  intros Hw Ha Hs Hr He s'. destruct (cm_checkPermanent_spec p now c s Hw Ha Hs Hr) as (m' & E & P).
  subst s'. rewrite E. cbn. unfold schedule_tick. rewrite He. split_and!; try done.
  - intros a f Hf Hu. rewrite P, Hf. cbn. by rewrite Hu.
  - intros x Hx. by rewrite P, Hx.
Qed.

Lemma mem_stuck_enforced_witness :
  let s := CmState (Memory 0 4096 (fun _ => 3) true [] []) evt0 evt0 [(70, mkPF StuckAtOne 12 true)] false in
  let s' := (cm_checkPermanent (example_cm "none" StuckAtOne 12) 10 (Core (Engine (fun _ => 0) 0) 0 stats0 [], s)).2.2 in
  pmem (cm_mem s') 70 = 15 /\ pmem (cm_mem s') 71 = 3 /\ cm_periodic s' = Evt true false 1010.
Proof.
  intros s s'.
  destruct (mem_stuck_enforced (example_cm "none" StuckAtOne 12) 10 (Core (Engine (fun _ => 0) 0) 0 stats0 []) s)
    as (H1 & H2 & _ & _ & H3); [done|done|by split|by repeat constructor|done|].
  split; [exact (H1 70 (mkPF StuckAtOne 12 true) eq_refl eq_refl)|]. split; [exact (H2 71 eq_refl)|exact H3].
Defined.

(** A corrected stuck fault comes back.  Under SECDED a stuck-at fault of one bit is
    corrected, the memory is unchanged after the attack, and still it is recorded as
    permanent: the next [checkPermanent] writes the stuck bit into memory, past the
    protection model. *)
Theorem mem_corrected_stuck_returns p now now' c s :
  cm_start p <= cm_end p -> cm_aborted s = false -> writeable (cm_mem s) = true ->
  cm_addr_mode p = "fixed" -> cm_protection p = "secded" -> is_stuck (cm_type p) = true ->
  cm_mask p <> 0 -> popcount (cm_mask p) = 1 ->
  cm_permanent s = [] -> range_start (cm_mem s) <= cm_start p -> cm_end p < range_start (cm_mem s) + range_size (cm_mem s) ->
  let s1 := (attackMemory p now (c, s)).2 in
  let s2 := (cm_checkPermanent p now' s1).2 in
  (forall x, pmem (cm_mem s1.2) x = pmem (cm_mem s) x) /\
  exists a, cm_start p <= a <= cm_end p /\
    pmem (cm_mem s2.2) a = u8 (reapply_fault (cm_type p) (cm_mask p) (pmem (cm_mem s) a)).
Proof.
  intros Hwin Hal Hw Hmode Hprot Hst Hm Hpop Hperm Hlo Hhi s1 s2.
  destruct (attack_in_window p now c s Hwin Hal Hw Hmode Hlo Hhi) as (a & f & mask & Ha & [A1 A2 A3 _ A5 _ A7]).
  fold s1 in A3, A5, A7.
  assert (f = cm_type p) as -> by (apply A1; by destruct (cm_type p)). assert (mask = cm_mask p) as -> by (by apply A2).
  assert (Hcor : corrected p (cm_mask p) = true) by (unfold corrected; by rewrite Hprot, Hpop).
  rewrite Hcor in A3. destruct A3 as (B1 & B2 & B3 & B4). split.
  - intros x. rewrite B4. by destruct (Z.eqb_spec x a) as [->|].
  - exists a. split; [done|]. rewrite Hst, Hperm in A5. cbn in A5.
    assert (Hr : in_range (cm_mem s1.2) a 1 = true).
    { unfold in_range. rewrite B1, B2. apply andb_true_iff. split; apply Z.leb_le; lia. }
    destruct s1 as [c1 s1']. cbn [fst snd] in *.
    destruct (cm_checkPermanent_spec p now' c1 s1') as (m' & E & P);
      [by rewrite B3|by rewrite A7|by rewrite A5; split|rewrite A5; by repeat constructor|].
    subst s2. rewrite E. cbn. rewrite P, A5, map_find_head, Z.eqb_refl. cbn. by rewrite B4, Z.eqb_refl.
Qed.

Lemma mem_corrected_stuck_returns_witness :
  let p := example_cm "secded" StuckAtOne 4 in
  let s1 := (attackMemory p 10 (Core (Engine (fun _ => 0) 0) 0 stats0 [], example_cm_state)).2 in
  let s2 := (cm_checkPermanent p 20 s1).2 in
  (forall x, pmem (cm_mem s1.2) x = 3) /\ exists a, 64 <= a <= 79 /\ pmem (cm_mem s2.2) a = 7.
Proof.
  exact (mem_corrected_stuck_returns (example_cm "secded" StuckAtOne 4) 10 20 (Core (Engine (fun _ => 0) 0) 0 stats0 [])
    example_cm_state ltac:(by vm_compute) eq_refl eq_refl eq_refl eq_refl eq_refl ltac:(done) eq_refl eq_refl
    ltac:(by vm_compute) eq_refl).
Defined.

(** An attack breaks reservations.  After an attack, corrected or not, no context holds
    a reservation on the granule of the attacked byte: a store-conditional to it fails. *)
Theorem mem_attack_drops_reservations p now c s :
  cm_start p <= cm_end p -> cm_aborted s = false -> writeable (cm_mem s) = true ->
  cm_addr_mode p = "fixed" -> range_start (cm_mem s) <= cm_start p ->
  cm_end p < range_start (cm_mem s) + range_size (cm_mem s) ->
  let s1 := (attackMemory p now (c, s)).2 in
  exists a, cm_start p <= a <= cm_end p /\
    forall ctx, access (cm_mem s1.2) (StoreCondReq ctx a [0]) = Some (Cond false, cm_mem s1.2).
Proof.
  intros Hwin Hal Hw Hmode Hlo Hhi s1.
  destruct (attack_in_window p now c s Hwin Hal Hw Hmode Hlo Hhi) as (a & f & mask & Ha & [_ _ (B1 & B2 & B3 & _) A4 _ _ _]).
  fold s1 in B1, B2, B3, A4. exists a. split; [done|]. intros ctx. unfold access, write_access, writeOK. cbn [length].
  assert (Hr : in_range (cm_mem s1.2) a 1 = true).
  { unfold in_range. rewrite B1, B2. apply andb_true_iff. split; apply Z.leb_le; lia. }
  rewrite Hr, B3, Hw. cbn [negb].
  assert (Hex : existsb (fun r => (r.1 =? lock_mask a) && bool_decide (Some r.2 = Some ctx)) (lockedAddrList (cm_mem s1.2)) = false).
  { apply not_true_iff_false. intros (r & Hin & Hr2)%existsb_exists. bools. apply list_elem_of_In in Hin. by apply (A4 r). }
  destruct (lockedAddrList (cm_mem s1.2)) as [|q l]; [done|]. by rewrite Hex.
Qed.

Lemma mem_attack_drops_reservations_witness :
  let s1 := (attackMemory (example_cm "secded" BitFlip 4) 10 (Core (Engine (fun _ => 0) 0) 0 stats0 [], example_cm_state)).2 in
  access (cm_mem example_cm_state) (StoreCondReq 1 64 [0]) <> Some (Cond false, cm_mem example_cm_state) /\
  exists a, 64 <= a <= 79 /\ forall ctx, access (cm_mem s1.2) (StoreCondReq ctx a [0]) = Some (Cond false, cm_mem s1.2).
Proof.
  split; [by vm_compute|].
  exact (mem_attack_drops_reservations (example_cm "secded" BitFlip 4) 10 (Core (Engine (fun _ => 0) 0) 0 stats0 [])
    example_cm_state ltac:(by vm_compute) eq_refl eq_refl eq_refl ltac:(by vm_compute) eq_refl).
Defined.

(** C38 The addresses the constructor leaves open to attack.  For a memory that ends below
    2^64, the window of the constructed injector contains exactly the bytes of the memory
    that lie in the configured interval; an end of 0, or one below the clamped start, counts
    as the end of the memory.  The window is not empty exactly if the configured start is
    below the end of the memory; otherwise its end, the last byte, is below its start, and
    the attack draws from a distribution with inverted bounds. *)
Theorem mem_window_valid c co s :
  let lo := range_start (cm_mem s) in
  let hi := lo + range_size (cm_mem s) in
  0 <= lo < hi -> hi <= 2 ^ 64 -> 0 <= cfg_start c -> 0 <= cfg_end c ->
  let p := (cm_init c (co, s)).1 in
  (forall a, cm_start p <= a <= cm_end p <->
     lo <= a < hi /\ cfg_start c <= a /\ (a <= cfg_end c \/ cfg_end c = 0 \/ cfg_end c < Z.max lo (cfg_start c))) /\
  (cm_start p <= cm_end p <-> cfg_start c < hi) /\
  (hi <= cfg_start c -> cm_start p = cfg_start c /\ cm_end p = hi - 1).
Proof.
  cbn zeta. intros H1 H2 H3 H4. destruct (cm_init_window c co s) as [-> ->].
  set (lo := range_start _) in *. set (n := range_size _) in *. unfold cm_window, u64. rewrite Z.mod_small by lia. cbn [fst snd].
  destruct (Z.ltb_spec (cfg_start c) lo); (destruct (Z.eqb_spec (cfg_end c) 0); cbn [orb]);
    repeat match goal with |- context [cfg_end c <? ?y] => destruct (Z.ltb_spec (cfg_end c) y) end;
    repeat match goal with |- context [?x <? ?y] => destruct (Z.ltb_spec x y) end; split_and!; try intros a; lia.
Qed.

(** One bit flip in the addresses from 64 to 95 of the memory. *)
Definition ex_cm_config : cm_config :=
  CmConfig 1 1 0 0 BitFlip 1 500 f32_0_9 f32_0_05 f32_0_05 1000 false "fixed" 0 "none" 1 64 95.

Lemma mem_window_valid_witness :
  let s := example_cm_state in
  let p := (cm_init ex_cm_config (Core (Engine (fun _ => 0) 0) 0 stats0 [], s)).1 in
  (cm_start p, cm_end p) = (64, 95) /\ (cm_start p <= 80 <= cm_end p).
Proof.
  split; [by vm_compute|].
  apply (mem_window_valid ex_cm_config (Core (Engine (fun _ => 0) 0) 0 stats0 []) example_cm_state); vm_compute; intuition congruence.
Defined.
