(* ===== verification/HookGate.v ===== *)
(** * The gate of the hook injectors

    CHAOSBPU, CHAOSLSQFwd, CHAOSAddrPath, CHAOSPTW, CHAOSArmTLB and their kin have no
    event of their own: a hook in the simulator calls them, and each call passes the same
    gate of probability, window, fault cap and one Bernoulli trial before it may inject.
    The file models the gate, and the counting discipline that bounds the number of
    injected faults: [CappedHook] is what an injector's hook promises, [counting] the hint
    database that derives it from the text of the hook. *)

From Stdlib Require Import ZArith Lia QArith.
From stdpp Require Import base list numbers strings.
From S2P Require Import Prelude Word Random EventQueue AttackLoop.

Open Scope Z_scope.

(** [dist(rng) < probability] for a uniform real in [0, 1). *)
Definition bernoulli {X} (probability : Q) : M X bool :=
  let! u := with_rng uniform_unit in ret (negb (Qle_bool probability u)).

Record gate_params := GateParams {
  g_probability : Q; g_first : Z; g_last : Z; g_max : Z
}.

(** [if (probability <= 0.0f) return; if (now < first) return;
     if (last != 0 && now > last) return;
     if (max_faults != 0 && faults_injected_count >= max_faults) return;
     if (dist(rng) >= probability) return;] *)
Definition gate {X} (p : gate_params) (now : Z) : M X bool :=
  if Qle_bool (g_probability p) 0 then ret false
  else if negb (in_window (g_first p) (g_last p) now) then ret false
  else
    let! c := get_count in
    if cap_reached (g_max p) c then ret false
    else bernoulli (g_probability p).

(** [stats->numFaultsInjected++; ++faults_injected_count;] after the statistic of the
    injector. *)
Definition count_fault {X} (k : stat) : M X unit :=
  do! bump k in
  do! bump numFaultsInjected in
  incr_count.

(** ** What a hook promises *)

Definition count_of {X} (s : core * X) : Z := faults_injected_count s.1.

(** A call that counts no fault, and one that counts at most one. *)
Definition quiet {X A} (m : M X A) : Prop := forall s, count_of (m s).2 = count_of s.

Definition at_most_one {X A} (m : M X A) : Prop := forall s,
  count_of (m s).2 = count_of s \/ count_of (m s).2 = count_succ (count_of s).

(** At most one, and none at the cap. *)
Class CappedHook {X A : Type} (mx : Z) (m : M X A) : Prop := capped_hook : forall s,
  count_of (m s).2 = count_of s \/
  (count_of (m s).2 = count_succ (count_of s) /\ cap_reached mx (count_of s) = false).

(** * Lemmas *)

Create HintDb counting discriminated.

Section Counting.
Context {X : Type}.

Lemma quiet_ret {A} (a : A) : quiet (X := X) (ret a).
Proof. done. Qed.

Lemma quiet_skip : quiet (X := X) skip.
Proof. done. Qed.

Lemma quiet_get : quiet (X := X) get.
Proof. done. Qed.

Lemma quiet_get_count : quiet (X := X) get_count.
Proof. done. Qed.

Lemma quiet_put (x : X) : quiet (put x).
Proof. done. Qed.

Lemma quiet_modify (f : X -> X) : quiet (modify f).
Proof. done. Qed.

Lemma quiet_bump k : quiet (X := X) (bump k).
Proof. by intros [[] ?]. Qed.

Lemma quiet_with_rng {A} (f : engine -> A * engine) : quiet (X := X) (with_rng f).
Proof. by intros [[] ?]. Qed.

Lemma quiet_log_if w e : quiet (X := X) (log_if w e).
Proof. intros [[] ?]. by destruct w. Qed.

Lemma quiet_bind {A B} (m : M X A) (k : A -> M X B) :
  quiet m -> (forall a, quiet (k a)) -> quiet (bind m k).
Proof. intros Hm Hk s. unfold bind. by rewrite Hk, Hm. Qed.

Lemma quiet_if {A} (b : bool) (m n : M X A) : quiet m -> quiet n -> quiet (if b then m else n).
Proof. by destruct b. Qed.

Lemma quiet_whenM b (m : M X unit) : quiet m -> quiet (whenM b m).
Proof. by destruct b. Qed.

Lemma quiet_option {A B} (o : option A) (m : A -> M X B) (n : M X B) :
  (forall a, quiet (m a)) -> quiet n -> quiet (match o with Some a => m a | None => n end).
Proof. by destruct o. Qed.

Lemma quiet_bernoulli q : quiet (X := X) (bernoulli q).
Proof. apply quiet_bind; [apply quiet_with_rng|intros; apply quiet_ret]. Qed.

Lemma quiet_for_each {A} (l : list A) (body : A -> M X unit) :
  (forall a, quiet (body a)) -> quiet (for_each l body).
Proof.
  intros Hb. induction l as [|a l IH]; [apply quiet_skip|]. cbn. by apply quiet_bind.
Qed.

Lemma one_quiet {A} (m : M X A) : quiet m -> at_most_one m.
Proof. intros H s. left. apply H. Qed.

Lemma one_incr : at_most_one (X := X) incr_count.
Proof. intros [[] ?]. by right. Qed.

Lemma one_bind_l {A B} (m : M X A) (k : A -> M X B) :
  quiet m -> (forall a, at_most_one (k a)) -> at_most_one (bind m k).
Proof. intros Hm Hk s. unfold bind. specialize (Hk (m s).1 (m s).2). by rewrite Hm in Hk. Qed.

Lemma one_bind_r {A B} (m : M X A) (k : A -> M X B) :
  at_most_one m -> (forall a, quiet (k a)) -> at_most_one (bind m k).
Proof. intros Hm Hk s. unfold bind. rewrite Hk. apply Hm. Qed.

Lemma one_if {A} (b : bool) (m n : M X A) :
  at_most_one m -> at_most_one n -> at_most_one (if b then m else n).
Proof. by destruct b. Qed.

Lemma one_option {A B} (o : option A) (m : A -> M X B) (n : M X B) :
  (forall a, at_most_one (m a)) -> at_most_one n ->
  at_most_one (match o with Some a => m a | None => n end).
Proof. by destruct o. Qed.

Lemma one_count_fault k : at_most_one (X := X) (count_fault k).
Proof. intros [[] ?]. by right. Qed.

(** The gate draws at most once; it opens only inside the window, below the cap and with
    a positive probability, and then always if the probability is 1. *)
Lemma gate_quiet p now : quiet (X := X) (gate p now).
Proof.
  intros [[g c st lg] x]. unfold gate. repeat (destruct (_ : bool); [done|]).
  unfold bind, get_count. cbn [fst snd]. destruct (cap_reached _ _); [done|].
  apply quiet_bernoulli.
Qed.

Lemma Qle_unit n q : (1 <= q)%Q -> Qle_bool q ((n mod 2 ^ 53) # 2 ^ 53) = false.
Proof.
  intros Hq. apply not_true_iff_false. rewrite Qle_bool_iff. intros H.
  pose proof (Qle_trans _ _ _ Hq H) as H1. unfold Qle in H1. cbn [Qnum Qden] in H1.
  pose proof (Z.mod_pos_bound n (2 ^ 53) eq_refl). lia.
Qed.

(** A trial only draws, and a certain one succeeds. *)
Lemma bernoulli_run q (s : core * X) : exists b g,
  bernoulli q s = (b, (Core g (faults_injected_count s.1) (the_stats s.1) (the_log s.1), s.2)) /\
  draws g = draws (rng s.1) /\ ((1 <= q)%Q -> b = true).
Proof.
  destruct s as [[g c st lg] x]. unfold bernoulli, bind, with_rng, uniform_unit, next_raw, ret. cbn.
  eexists _, _. split_and!; [done..|]. intros Hq. by rewrite Qle_unit.
Qed.

Lemma gate_spec p now (s : core * X) : exists b g,
  gate p now s = (b, (Core g (count_of s) (the_stats s.1) (the_log s.1), s.2)) /\
  draws g = draws (rng s.1) /\
  (b = true -> in_window (g_first p) (g_last p) now = true /\ cap_reached (g_max p) (count_of s) = false).
Proof.
  destruct s as [[g c st lg] x]. unfold gate, count_of. cbn [fst snd faults_injected_count the_stats the_log rng].
  destruct (Qle_bool (g_probability p) 0); [by exists false, g|].
  destruct (in_window (g_first p) (g_last p) now); cbn [negb]; [|by exists false, g].
  unfold bind, get_count. cbn [fst snd faults_injected_count].
  destruct (cap_reached (g_max p) c); [by exists false, g|].
  destruct (bernoulli_run (g_probability p) (Core g c st lg, x)) as (b & g' & -> & Hd & _). by eexists b, g'.
Qed.

Lemma gate_certain p now (s : core * X) :
  (1 <= g_probability p)%Q -> in_window (g_first p) (g_last p) now = true ->
  cap_reached (g_max p) (count_of s) = false -> (gate p now s).1 = true.
Proof.
  intros Hp Hw Hc. destruct s as [[g c st lg] x]. unfold gate, count_of in *. cbn [fst snd faults_injected_count] in *.
  replace (Qle_bool (g_probability p) 0) with false.
  2:{ symmetry. apply not_true_iff_false. rewrite Qle_bool_iff. intros H0.
      pose proof (Qle_trans _ _ _ Hp H0) as H1. by apply Qle_bool_iff in H1. }
  rewrite Hw. cbn [negb]. unfold bind, get_count. cbn [fst snd faults_injected_count]. rewrite Hc.
  destruct (bernoulli_run (g_probability p) (Core g c st lg, x)) as (b & g' & -> & _ & Hb). by apply Hb.
Qed.

(** A hook that passes the gate first is capped. *)
Lemma gate_capped {A} p now (d : A) (k : M X A) :
  at_most_one k ->
  CappedHook (g_max p) (let! b := gate p now in if b then k else ret d).
Proof.
  intros Hk s. unfold bind. destruct (gate_spec p now s) as (b & g & -> & _ & Hb). cbn [fst snd].
  destruct b; [|by left]. destruct (Hb eq_refl) as [_ Hcap].
  destruct (Hk (Core g (count_of s) (the_stats s.1) (the_log s.1), s.2)) as [H|H]; [by left|by right].
Qed.

Lemma capped_quiet {A} mx (m : M X A) : quiet m -> CappedHook mx m.
Proof. intros H s. left. apply H. Qed.

Lemma capped_if {A} mx (b : bool) (m n : M X A) :
  CappedHook mx m -> CappedHook mx n -> CappedHook mx (if b then m else n).
Proof. by destruct b. Qed.

Lemma capped_bind_l {A B} mx (m : M X A) (k : A -> M X B) :
  quiet m -> (forall a, CappedHook mx (k a)) -> CappedHook mx (bind m k).
Proof. intros Hm Hk s. unfold bind. specialize (Hk (m s).1 (m s).2). by rewrite Hm in Hk. Qed.

(** An explicit test of the cap, as the first thing a [processFault] does. *)
Lemma cap_test_capped {A} mx (d : A) (k : M X A) :
  at_most_one k ->
  CappedHook mx (let! c := get_count in if cap_reached mx c then ret d else k).
Proof.
  intros Hk s. unfold bind, get_count. cbn [fst snd]. fold (count_of s).
  destruct (cap_reached mx (count_of s)) eqn:E; [by left|]. destruct (Hk s) as [H|H]; [by left|by right].
Qed.

Lemma within_cap_hook {A} mx (m : M X A) :
  0 <= mx < 2 ^ 64 -> CappedHook mx m -> preserves (within_cap mx) m.
Proof.
  intros Hmx Hm s [H0 H1]. unfold within_cap. fold (count_of s) in H0, H1. fold (count_of (m s).2).
  destruct (Hm s) as [->|[-> Hc]]; [done|]. split; [apply count_succ_nonneg|]. intros Hne.
  unfold cap_reached in Hc. apply andb_false_iff in Hc as [Hc|Hc]; bools; [done|].
  rewrite (count_succ_below_cap mx); lia.
Qed.
End Counting.

#[export] Hint Resolve quiet_ret quiet_skip quiet_get quiet_get_count quiet_put quiet_modify quiet_bump
  quiet_with_rng quiet_log_if quiet_bind quiet_if quiet_whenM quiet_option quiet_bernoulli quiet_for_each
  gate_quiet : counting.
#[export] Hint Resolve one_quiet one_incr one_if one_option one_count_fault | 2 : counting.
#[export] Hint Resolve one_bind_l one_bind_r | 5 : counting.
#[export] Hint Resolve capped_quiet capped_if : counting.

(** Runs the statements of a handler on a state whose core is explicit; log lines are
    replaced by an unknown log. *)
Ltac run :=
  unfold bind, ret, skip, get, put, modify, get_count, incr_count, add_count, bump, with_rng;
  cbn [fst snd rng faults_injected_count the_stats the_log].
Ltac exec := run; logs; run.

(** Reduces a goal on the count of a hook to its parts, the text of the hook being
    explored from the first statement on. *)
Ltac counted :=
  lazymatch goal with
  | |- forall _, _ => intros ?; counted
  | |- quiet (bind _ _) => apply quiet_bind; [counted|counted]
  | |- quiet (if _ then _ else _) => apply quiet_if; [counted|counted]
  | |- quiet (match ?x with _ => _ end) => destruct x; counted
  | |- quiet _ => solve [eauto 3 with counting]
  | |- at_most_one (bind _ _) =>
      first [apply one_bind_l; [solve [counted]|counted] | apply one_bind_r; [counted|counted]]
  | |- at_most_one (if _ then _ else _) => apply one_if; [counted|counted]
  | |- at_most_one (match ?x with _ => _ end) => destruct x; counted
  | |- at_most_one _ => solve [eauto 3 with counting]
  | |- CappedHook _ (if _ then _ else _) => apply capped_if; [counted|counted]
  | |- CappedHook _ (match ?x with _ => _ end) => destruct x; counted
  | |- CappedHook _ (bind (gate _ _) _) => apply gate_capped; counted
  | |- CappedHook _ (bind get_count _) => first [apply cap_test_capped; counted | apply capped_bind_l; [counted|counted]]
  | |- CappedHook _ (bind _ _) => apply capped_bind_l; [counted|counted]
  | |- CappedHook _ _ => solve [apply capped_quiet; counted | eauto 3 with counting]
  end.
