(* ===== verification/StoreQueue.v ===== *)
(** * Store-to-load forwarding of the O3 load/store queue

    [LSQUnit::write] puts the data of a store into its queue entry; [LSQUnit::read]
    searches the entries older than a load, youngest first, and forwards, stalls or goes to
    memory (cpu/o3/lsq_unit.cc).  The two calls into the forwarding injector are a class,
    [ForwardHooks]; [TransparentHooks] is the promise of hooks that leave the data alone.
    The theorem is that the search is exact: what it forwards is what the load would read
    from memory after all older stores had been written back. *)

From Stdlib Require Import ZArith Lia.
From stdpp Require Import base list numbers strings.
From S2P Require Import Prelude Word.

Open Scope Z_scope.

(** ** Queue entries and loads *)

(** [SQEntry], with what the search reads of its instruction and request. *)
Record sq_entry := SqEntry {
  sq_seqNum : Z;
  sq_effAddr : Z;                      (* Addr *)
  sq_size : Z;                         (* uint32_t *)
  sq_data : list Z;                    (* char _data[MaxDataBytes] *)
  sq_allZeros : bool;
  sq_completed : bool;
  sq_atomic : bool; sq_masked : bool; sq_strict : bool; sq_maint : bool
}.

Record load_req := LoadReq {
  ld_idx : Z; ld_seqNum : Z; ld_vaddr : Z; ld_size : Z;
  ld_llsc : bool; ld_prefetch : bool
}.

(** The members of [LSQUnit] the search reads and writes. *)
Record lsq := Lsq {
  lq_seqNum : Z -> Z;                  (* loadQueue[idx].instruction()->seqNum *)
  stalled : bool; stallingStoreIsn : Z; stallingLoadIdx : Z;
  forwLoads : Z; rescheduledLoads : Z
}.

(** [LSQUnit::write]: [no_data] is [STORE_NO_DATA], [block_zero] [CACHE_BLOCK_ZERO]. *)
Definition sq_write (e : sq_entry) (size : Z) (data : list Z) (no_data block_zero : bool) : sq_entry :=
  SqEntry (sq_seqNum e) (sq_effAddr e) size
    (if negb block_zero && negb (sq_maint e) && negb (sq_atomic e)
     then take (Z.to_nat size) data ++ drop (Z.to_nat size) (sq_data e) else sq_data e)
    no_data (sq_completed e) (sq_atomic e) (sq_masked e) (sq_strict e) (sq_maint e).

(** ** The coverage of a load by a store *)

Inductive AddrRangeCoverage :=
  PartialAddrRangeCoverage | FullAddrRangeCoverage | NoAddrRangeCoverage.

Definition coverage (st : sq_entry) (ld : load_req) : AddrRangeCoverage :=
  let req_s := ld_vaddr ld in
  let req_e := u64 (req_s + ld_size ld) in
  let st_s := sq_effAddr st in
  let st_e := u64 (st_s + sq_size st) in
  let store_has_lower_limit := st_s <=? req_s in
  let store_has_upper_limit := req_e <=? st_e in
  let lower_load_has_store_part := req_s <? st_e in
  let upper_load_has_store_part := st_s <? req_e in
  if negb (sq_atomic st) && store_has_lower_limit && store_has_upper_limit && negb (ld_llsc ld) then
    if sq_masked st then PartialAddrRangeCoverage else FullAddrRangeCoverage
  else if
    (negb (ld_llsc ld) &&
     ((store_has_lower_limit && lower_load_has_store_part) ||
      (store_has_upper_limit && upper_load_has_store_part) ||
      (lower_load_has_store_part && upper_load_has_store_part))) ||
    (ld_llsc ld &&
     ((store_has_lower_limit || upper_load_has_store_part) &&
      (store_has_upper_limit || lower_load_has_store_part))) ||
    (sq_atomic st &&
     ((store_has_lower_limit || upper_load_has_store_part) &&
      (store_has_upper_limit || lower_load_has_store_part)))
  then PartialAddrRangeCoverage
  else NoAddrRangeCoverage.

(** Entries the search passes over: no data, strictly ordered, cache maintenance. *)
Definition sq_skipped (st : sq_entry) : bool := (sq_size st =? 0) || sq_strict st || sq_maint st.

(** ** The injector's place in the search *)

Class ForwardHooks (H : Type) := {
  pick_source : list Z -> Z -> Z -> M H (list Z);    (* pickSource(cur_data, size, vaddr) *)
  corrupt_data : list Z -> Z -> Z -> M H (list Z)    (* corrupt(data, size, vaddr) *)
}.

(** [cpu->lsqFwd == nullptr] *)
#[global] Instance no_hooks : ForwardHooks unit := {|
  pick_source cur _ _ := ret cur;
  corrupt_data d _ _ := ret d
|}.

Class TransparentHooks (H : Type) `{F : ForwardHooks H} : Prop := {
  pick_source_same cur size vaddr s : (pick_source cur size vaddr s).1 = cur;
  corrupt_data_same d size vaddr s : (corrupt_data d size vaddr s).1 = d
}.

#[global] Instance no_hooks_transparent : TransparentHooks unit.
Proof. by split. Qed.

(** A computation on the injector's state inside the load/store unit. *)
Definition in_hooks {H A} (m : M H A) : M (lsq * H) A := fun s =>
  let r := m (s.1, s.2.2) in (r.1, (r.2.1, (s.2.1, r.2.2))).

Definition on_unit {H} (f : lsq -> lsq) : M (lsq * H) unit := modify (fun x => (f x.1, x.2)).

(** ** The search *)

Inductive read_outcome :=
  | Forwarded (data : list Z)          (* written back from the store queue *)
  | Stalled (store : Z)                (* rescheduled behind this store *)
  | ToMemory
  | Panicked.

Definition forwarded_one (u : lsq) : lsq :=
  Lsq (lq_seqNum u) (stalled u) (stallingStoreIsn u) (stallingLoadIdx u) (forwLoads u + 1) (rescheduledLoads u).

(** A stalling load is remembered if it is the oldest one. *)
Definition stall_on (ld : load_req) (store_seq : Z) (u : lsq) : lsq :=
  if negb (stalled u) || (ld_seqNum ld <? lq_seqNum u (stallingLoadIdx u))
  then Lsq (lq_seqNum u) true store_seq (ld_idx ld) (forwLoads u) (rescheduledLoads u + 1)
  else Lsq (lq_seqNum u) (stalled u) (stallingStoreIsn u) (stallingLoadIdx u) (forwLoads u) (rescheduledLoads u + 1).

(** [store_it->data() + shift_amt], [size] bytes. *)
Definition store_bytes (st : sq_entry) (ld : load_req) : list Z :=
  take (Z.to_nat (ld_size ld)) (drop (Z.to_nat (u64 (ld_vaddr ld - sq_effAddr st))) (sq_data st)).

Section Search.
Context {H : Type} `{ForwardHooks H}.

Definition forward (st : sq_entry) (ld : load_req) : M (lsq * H) read_outcome :=
  let! data := (if sq_allZeros st then ret (replicate (Z.to_nat (ld_size ld)) 0)
                else in_hooks (pick_source (store_bytes st ld) (ld_size ld) (ld_vaddr ld))) in
  let! delivered := in_hooks (corrupt_data data (ld_size ld) (ld_vaddr ld)) in
  do! on_unit forwarded_one in
  ret (Forwarded delivered).

Fixpoint search (ld : load_req) (older : list sq_entry) : M (lsq * H) read_outcome :=
  match older with
  | [] => ret ToMemory
  | st :: older' =>
      if sq_skipped st then search ld older'
      else match coverage st ld with
           | FullAddrRangeCoverage => forward st ld
           | PartialAddrRangeCoverage =>
               if sq_completed st then ret Panicked
               else
                 do! on_unit (stall_on ld (sq_seqNum st)) in
                 ret (Stalled (sq_seqNum st))
           | NoAddrRangeCoverage => search ld older'
           end
  end.

(** [LSQUnit::read] from the search on; [older] are the entries between the write-back
    point and the load, youngest first. *)
Definition lsq_read (ld : load_req) (older : list sq_entry) : M (lsq * H) read_outcome :=
  if ld_prefetch ld then ret ToMemory else search ld older.
End Search.

(** ** The reference: memory after the older stores *)

Definition in_store (st : sq_entry) (a : Z) : Prop := sq_effAddr st <= a < sq_effAddr st + sq_size st.

Definition overlaps (st : sq_entry) (ld : load_req) : Prop :=
  sq_effAddr st < ld_vaddr ld + ld_size ld /\ ld_vaddr ld < sq_effAddr st + sq_size st.

Definition store_byte (st : sq_entry) (a : Z) : Z :=
  if sq_allZeros st then 0 else sq_data st !!! Z.to_nat (a - sq_effAddr st).

(** What writing back a store does to memory.  An atomic or masked store may change its
    own bytes in any way, cache maintenance changes none. *)
Record writes_back (st : sq_entry) (m m' : Z -> Z) : Prop := {
  wb_outside : forall a, ~ in_store st a -> m' a = m a;
  wb_maint : sq_maint st = true -> forall a, m' a = m a;
  wb_plain : sq_atomic st = false -> sq_masked st = false -> sq_maint st = false ->
    forall a, in_store st a -> m' a = store_byte st a
}.

(** All older stores, the oldest first. *)
Fixpoint drained (older : list sq_entry) (m m' : Z -> Z) : Prop :=
  match older with
  | [] => forall a, m' a = m a
  | st :: older' => exists m1, drained older' m m1 /\ writes_back st m1 m'
  end.

Definition load_ok (ld : load_req) : Prop :=
  0 <= ld_vaddr ld /\ 0 < ld_size ld /\ ld_vaddr ld + ld_size ld < 2 ^ 64.

(** An entry as [write] leaves it, clear of the end of the address space; strictly
    ordered stores are to memory that loads of this kind do not read. *)
Definition store_ok (ld : load_req) (st : sq_entry) : Prop :=
  0 <= sq_effAddr st /\ 0 <= sq_size st /\ sq_effAddr st + sq_size st < 2 ^ 64 /\
  (sq_allZeros st = false -> sq_size st <= Z.of_nat (length (sq_data st))) /\
  (sq_strict st = true -> ~ overlaps st ld).

(** * Lemmas *)

Section Coverage.
Context (st : sq_entry) (ld : load_req) (Hl : load_ok ld) (Hs : store_ok ld st).

Lemma coverage_ends :
  u64 (ld_vaddr ld + ld_size ld) = ld_vaddr ld + ld_size ld /\
  u64 (sq_effAddr st + sq_size st) = sq_effAddr st + sq_size st.
Proof. unfold load_ok, store_ok, u64 in *. split; apply Z.mod_small; lia. Qed.

Lemma coverage_none : sq_size st <> 0 -> coverage st ld = NoAddrRangeCoverage -> ~ overlaps st ld.
Proof.
  destruct coverage_ends as [E1 E2]. unfold coverage. rewrite E1, E2. unfold overlaps, load_ok, store_ok in *.
  intros Hz Hc [O1 O2]. revert Hc.
  rewrite (proj2 (Z.ltb_lt _ _) O1), (proj2 (Z.ltb_lt _ _) O2), !orb_true_r. cbn [andb].
  rewrite !andb_true_r. destruct (_ && negb (ld_llsc ld)); [by destruct (sq_masked st)|].
  by destruct (ld_llsc ld).
Qed.

Lemma coverage_full : coverage st ld = FullAddrRangeCoverage ->
  sq_atomic st = false /\ sq_masked st = false /\
  sq_effAddr st <= ld_vaddr ld /\ ld_vaddr ld + ld_size ld <= sq_effAddr st + sq_size st.
Proof.
  destruct coverage_ends as [E1 E2]. unfold coverage. rewrite E1, E2.
  destruct (negb (sq_atomic st) && _ && _ && _) eqn:E.
  - bools. intros. destruct (sq_masked st); [done|]. split_and!; done || lia.
  - by destruct (_ || _).
Qed.

Lemma coverage_partial : coverage st ld = PartialAddrRangeCoverage -> sq_size st <> 0 -> overlaps st ld.
Proof.
  destruct coverage_ends as [E1 E2]. unfold coverage. rewrite E1, E2. unfold overlaps, load_ok, store_ok in *.
  intros Hc Hz. assert (0 < sq_size st) by lia. clear E1 E2.
  destruct (Z.leb_spec (sq_effAddr st) (ld_vaddr ld)), (Z.leb_spec (ld_vaddr ld + ld_size ld) (sq_effAddr st + sq_size st)),
    (Z.ltb_spec (ld_vaddr ld) (sq_effAddr st + sq_size st)), (Z.ltb_spec (sq_effAddr st) (ld_vaddr ld + ld_size ld));
    try lia; exfalso; revert Hc; destruct (sq_atomic st), (ld_llsc ld), (sq_masked st); done.
Qed.

(** The bytes copied out of the entry are the bytes the store puts at the load's
    addresses. *)
Lemma store_bytes_exact i :
  sq_allZeros st = false -> sq_effAddr st <= ld_vaddr ld ->
  ld_vaddr ld + ld_size ld <= sq_effAddr st + sq_size st -> (i < Z.to_nat (ld_size ld))%nat ->
  store_bytes st ld !! i = Some (store_byte st (ld_vaddr ld + Z.of_nat i)).
Proof.
  intros Hz H1 H2 Hi. unfold store_bytes, store_byte, load_ok, store_ok, u64 in *. rewrite Hz.
  destruct Hs as (? & ? & ? & Hlen & _). specialize (Hlen Hz).
  rewrite Z.mod_small by lia. rewrite lookup_take_lt by done. rewrite lookup_drop.
  replace (Z.to_nat (ld_vaddr ld - sq_effAddr st) + i)%nat
    with (Z.to_nat (ld_vaddr ld + Z.of_nat i - sq_effAddr st)) by lia.
  apply list_lookup_lookup_total_lt. lia.
Qed.
End Coverage.

Lemma drained_skip ld st older m m' :
  store_ok ld st -> sq_skipped st = true -> drained (st :: older) m m' ->
  exists m1, drained older m m1 /\ forall i, 0 <= i < ld_size ld -> m' (ld_vaddr ld + i) = m1 (ld_vaddr ld + i).
Proof.
  intros Hs Hk (m1 & Hd & Hw). exists m1. split; [done|]. intros i Hi. unfold sq_skipped in Hk.
  destruct (sq_maint st) eqn:Em; [by apply (wb_maint _ _ _ Hw)|]. rewrite orb_false_r in Hk.
  apply (wb_outside _ _ _ Hw). unfold in_store. intros Hin.
  apply orb_true_iff in Hk as [Hk|Hk]; bools; [lia|].
  destruct Hs as (_ & _ & _ & _ & Hst). apply (Hst Hk). unfold overlaps. lia.
Qed.

Lemma drained_disjoint ld st older m m' :
  ~ overlaps st ld -> drained (st :: older) m m' ->
  exists m1, drained older m m1 /\ forall i, 0 <= i < ld_size ld -> m' (ld_vaddr ld + i) = m1 (ld_vaddr ld + i).
Proof.
  intros Ho (m1 & Hd & Hw). exists m1. split; [done|]. intros i Hi. apply (wb_outside _ _ _ Hw).
  unfold in_store, overlaps in *. lia.
Qed.

Section Exact.
Context {H : Type} {F : ForwardHooks H} {T : TransparentHooks H}.

(** What the outcome of a search says about memory. *)
Definition outcome_exact (ld : load_req) (older : list sq_entry) (m m' : Z -> Z) (o : read_outcome) : Prop :=
  match o with
  | Forwarded d => d = map (fun i => m' (ld_vaddr ld + Z.of_nat i)) (seq 0 (Z.to_nat (ld_size ld)))
  | ToMemory => forall i, 0 <= i < ld_size ld -> m' (ld_vaddr ld + i) = m (ld_vaddr ld + i)
  | Stalled n => exists st, st ∈ older /\ sq_seqNum st = n /\ overlaps st ld /\ sq_completed st = false
  | Panicked => exists st, st ∈ older /\ overlaps st ld /\ sq_completed st = true
  end.

Lemma outcome_exact_cons ld st older m m1 m' o :
  (forall i, 0 <= i < ld_size ld -> m' (ld_vaddr ld + i) = m1 (ld_vaddr ld + i)) ->
  outcome_exact ld older m m1 o -> outcome_exact ld (st :: older) m m' o.
Proof.
  intros Hm. destruct o as [d|n| |]; cbn.
  - intros ->. apply map_ext_in. intros i Hi%in_seq. symmetry. apply Hm. lia.
  - intros (s & Hs & ?). exists s. by rewrite elem_of_cons; auto.
  - intros Ho i Hi. rewrite Hm by done. by apply Ho.
  - intros (s & Hs & ?). exists s. by rewrite elem_of_cons; auto.
Qed.

Lemma forward_data st ld s :
  (forward st ld s).1 =
  Forwarded (if sq_allZeros st then replicate (Z.to_nat (ld_size ld)) 0 else store_bytes st ld).
Proof.
  unfold forward, bind, in_hooks, on_unit, modify, ret. cbn [fst snd].
  destruct (sq_allZeros st); cbn [fst snd]; by rewrite corrupt_data_same, ?pick_source_same.
Qed.

Lemma forward_exact st older ld s m m' :
  load_ok ld -> store_ok ld st -> sq_skipped st = false -> coverage st ld = FullAddrRangeCoverage ->
  drained (st :: older) m m' -> outcome_exact ld (st :: older) m m' (forward st ld s).1.
Proof.
  intros Hl Hs Hk Hc (m1 & _ & Hw). rewrite forward_data. cbn.
  destruct (coverage_full st ld Hl Hs Hc) as (Ha & Hm & H1 & H2).
  unfold sq_skipped in Hk. bools.
  assert (Hb : forall i, (i < Z.to_nat (ld_size ld))%nat -> m' (ld_vaddr ld + Z.of_nat i) = store_byte st (ld_vaddr ld + Z.of_nat i)).
  { intros i Hi. apply (wb_plain _ _ _ Hw); [done..|]. unfold in_store. lia. }
  apply list_eq. intros i. rewrite list_lookup_fmap.
  destruct (decide (i < Z.to_nat (ld_size ld))%nat) as [Hi|Hi].
  - rewrite lookup_seq_lt by done. cbn. rewrite Hb by done. destruct (sq_allZeros st) eqn:Hz.
    + rewrite lookup_replicate_2 by done. unfold store_byte. by rewrite Hz.
    + by apply store_bytes_exact.
  - rewrite (lookup_ge_None_2 (seq _ _)) by (rewrite length_seq; lia). cbn.
    apply lookup_ge_None_2. destruct (sq_allZeros st); [rewrite length_replicate; lia|].
    unfold store_bytes. rewrite length_take. lia.
Qed.

Lemma search_exact ld older s m m' :
  load_ok ld -> Forall (store_ok ld) older -> drained older m m' ->
  outcome_exact ld older m m' (search ld older s).1.
Proof.
  intros Hl Hall. revert s m m'. induction Hall as [|st older Hs Hall IH]; intros s m m' Hd.
  - cbn in *. intros i Hi. apply Hd.
  - cbn [search]. destruct (sq_skipped st) eqn:Hk.
    { destruct (drained_skip ld st older m m' Hs Hk Hd) as (m1 & Hd1 & Hm).
      eapply outcome_exact_cons; [exact Hm|]. by apply IH. }
    assert (Hz : sq_size st <> 0) by (unfold sq_skipped in Hk; bools; lia).
    destruct (coverage st ld) eqn:Hc.
    + assert (Ho : overlaps st ld) by by apply coverage_partial.
      destruct (sq_completed st) eqn:Hcp; exists st; rewrite elem_of_cons; auto.
    + by apply forward_exact.
    + assert (Ho : ~ overlaps st ld) by by apply coverage_none.
      destruct (drained_disjoint ld st older m m' Ho Hd) as (m1 & Hd1 & Hm).
      eapply outcome_exact_cons; [exact Hm|]. by apply IH.
Qed.
End Exact.

(** ** The search decides without the hooks *)

(** The store the search forwards from, or its other outcome. *)
Fixpoint search_decision (ld : load_req) (older : list sq_entry) : sq_entry + read_outcome :=
  match older with
  | [] => inr ToMemory
  | st :: older' =>
      if sq_skipped st then search_decision ld older'
      else match coverage st ld with
           | FullAddrRangeCoverage => inl st
           | PartialAddrRangeCoverage => inr (if sq_completed st then Panicked else Stalled (sq_seqNum st))
           | NoAddrRangeCoverage => search_decision ld older'
           end
  end.

Lemma search_decision_other ld older d : search_decision ld older <> inr (Forwarded d).
Proof.
  induction older as [|st older IH]; [done|]. cbn. destruct (sq_skipped st); [done|].
  destruct (coverage st ld); [by destruct (sq_completed st)|done..].
Qed.

Lemma search_decided {H} `{ForwardHooks H} ld older (s : core * (lsq * H)) :
  match search_decision ld older with
  | inl st => st ∈ older /\ sq_skipped st = false /\ search ld older s = forward st ld s
  | inr o => exists u, search ld older s = (o, (s.1, (u, s.2.2)))
  end.
Proof.
  induction older as [|st older IH].
  - destruct s as [c [u h]]. by exists u.
  - cbn [search search_decision]. destruct (sq_skipped st) eqn:Hk.
    { destruct (search_decision ld older); [|done]. rewrite elem_of_cons. naive_solver. }
    destruct (coverage st ld).
    + destruct (sq_completed st); [destruct s as [c [u h]]; by exists u|]. by eexists.
    + rewrite elem_of_cons. auto.
    + destruct (search_decision ld older); [|done]. rewrite elem_of_cons. naive_solver.
Qed.

(** * Theorems *)

(** C10 Store-to-load forwarding is exact: for a load that is not a prefetch, if the older
    stores drained to memory would turn it from [m] into [m'], then forwarded data are the
    bytes of [m'] at the load's addresses, a load sent to memory finds no byte changed by
    those stores, and a load stalls (or the unit panics) only on an older store that
    overlaps it.  This holds for whatever hooks leave the data alone. *)
Theorem forwarding_exact {H} {F : ForwardHooks H} {T : TransparentHooks H} ld older s m m' :
  load_ok ld -> ld_prefetch ld = false -> Forall (store_ok ld) older -> drained older m m' ->
  match (lsq_read (H := H) ld older s).1 with
  | Forwarded d => d = map (fun i => m' (ld_vaddr ld + Z.of_nat i)) (seq 0 (Z.to_nat (ld_size ld)))
  | ToMemory => forall i, 0 <= i < ld_size ld -> m' (ld_vaddr ld + i) = m (ld_vaddr ld + i)
  | Stalled n => exists st, st ∈ older /\ sq_seqNum st = n /\ overlaps st ld /\ sq_completed st = false
  | Panicked => exists st, st ∈ older /\ overlaps st ld /\ sq_completed st = true
  end.
Proof.
  intros Hl Hp Hall Hd. unfold lsq_read. rewrite Hp.
  exact (search_exact ld older s m m' Hl Hall Hd).
Qed.

Definition example_store (seq addr : Z) (data : list Z) : sq_entry :=
  SqEntry seq addr (Z.of_nat (length data)) data false false false false false false.
Definition example_load : load_req := LoadReq 0 9 98 2 false false.
Definition example_lsq : lsq := Lsq (fun _ => 0) false 0 0 0 0.
Definition example_older : list sq_entry := [example_store 7 200 [1; 2]; example_store 5 96 [10; 11; 12; 13]].

Definition example_memory (a : Z) : Z :=
  if a =? 200 then 1 else if a =? 201 then 2 else if (96 <=? a) && (a <? 100) then a - 86 else 0.

Lemma example_load_ok : load_ok example_load.
Proof. unfold load_ok. cbn. lia. Qed.

Lemma example_stores_ok : Forall (store_ok example_load) example_older.
Proof. repeat constructor; unfold store_ok; cbn; repeat split; try lia; try done. Qed.

Lemma example_drained : drained example_older (fun _ => 0) example_memory.
Proof.
  exists (fun a => if (96 <=? a) && (a <? 100) then a - 86 else 0). split.
  - exists (fun _ => 0). split; [done|]. split; cbn; [|done|].
    + unfold in_store. cbn. intros a Ha.
      destruct (Z.leb_spec 96 a), (Z.ltb_spec a 100); try done. exfalso. apply Ha. lia.
    + unfold in_store, store_byte. cbn. intros _ _ _ a Ha.
      assert (a = 96 \/ a = 97 \/ a = 98 \/ a = 99) as [->|[->|[->| ->]]] by lia; done.
  - split; cbn; [|done|].
    + unfold in_store, example_memory. cbn. intros a Ha. destruct (Z.eqb_spec a 200); [lia|].
      by destruct (Z.eqb_spec a 201); [lia|].
    + unfold in_store, store_byte, example_memory. cbn. intros _ _ _ a Ha.
      assert (a = 200 \/ a = 201) as [->| ->] by lia; done.
Qed.

Lemma forwarding_exact_witness :
  (lsq_read example_load example_older (Core (Engine Z.of_nat 0) 0 stats0 [], (example_lsq, tt))).1 = Forwarded [12; 13] /\
  [12; 13] = map (fun i => example_memory (98 + Z.of_nat i)) (seq 0 2).
Proof.
  split; [done|].
  exact (forwarding_exact (H := unit) example_load example_older
    (Core (Engine Z.of_nat 0) 0 stats0 [], (example_lsq, tt)) (fun _ => 0) example_memory
    example_load_ok eq_refl example_stores_ok example_drained).
Defined.
