(* ===== verification/ChaosLsq.v ===== *)
(** * CHAOSLSQFwd and CHAOSAddrPath

    The injectors on the load path of the O3 CPU.  CHAOSLSQFwd implements the
    [ForwardHooks] of the store queue: it may substitute the source of a forward by an
    entry of a ring of earlier forwards, and corrupt the forwarded bytes.  CHAOSAddrPath
    zeroes a byte of a load's virtual address on its way to translation.  Theorems: the
    exact effect of a corruption, the refinement of the ring by the list of past forwards
    (with the consequence that the two substitution modes without a phase deliver the
    data they should replace), and the exact effect on an address. *)

From Stdlib Require Import ZArith Lia QArith SpecFloat.
From stdpp Require Import base list numbers strings.
From S2P Require Import Prelude Word Random EventQueue AttackLoop HookGate StoreQueue.

Open Scope Z_scope.

(** ** CHAOSLSQFwd *)

Inductive StructuralFault := StructNone | ByteLaneSkew | AllZero.
Inductive SourceFault := SourceNone | FwdSourceSub | StaleLineReplay | PhaseOffset.

Definition stringToStructuralFault (s : string) : StructuralFault :=
  if String.eqb s "byte_lane_skew" then ByteLaneSkew
  else if String.eqb s "all_zero" then AllZero else StructNone.

Definition stringToSourceFault (s : string) : SourceFault :=
  if String.eqb s "fwd_source_sub" then FwdSourceSub
  else if String.eqb s "stale_line_replay" then StaleLineReplay
  else if String.eqb s "phase_offset" then PhaseOffset else SourceNone.

Record fwd_params := FwdParams {
  fw_gate : gate_params;
  fw_type : FaultType; fw_mask : Z; fw_width : Z;
  fw_structural : StructuralFault; fw_source : SourceFault;
  fw_phase : Z; fw_skew : Z; fw_bits : Z; fw_offset : Z; fw_log : bool
}.

Definition HIST_CAP : Z := 8.
Definition HIST_BYTES : Z := 64.

(** [HistEntry]; [h_data] is the whole array of [HIST_BYTES] bytes. *)
Record HistEntry := mkHist { h_data : list Z; h_size : Z; h_vaddr : Z; h_valid : bool }.

Record fwd_state := FwdState { hist : Z -> HistEntry; hist_next : Z }.

Abbreviation MF := (M fwd_state).

(** The distribution of the constructor: every fault type has a positive weight. *)
Definition fwd_weights : list spec_float := [f32_0_9; f32_0_05; f32_0_05].

(** The constructor leaves the ring empty; the bytes of the entries are whatever the
    memory held. *)
Definition fwd_init (garbage : Z -> list Z) : fwd_state :=
  FwdState (fun i => mkHist (garbage i) 0 0 false) 0.

Section CHAOSLSQFwd.
Context (p : fwd_params) (now : Z).

(** The record at the start of [pickSource]. *)
Definition remember (cur : list Z) (size vaddr : Z) (h : fwd_state) : fwd_state :=
  if (0 <? size) && (size <=? HIST_BYTES) then
    let e := hist h (hist_next h) in
    FwdState (fupd (hist h) (hist_next h)
                (mkHist (take (Z.to_nat size) cur ++ drop (Z.to_nat size) (h_data e)) size vaddr true))
             ((hist_next h + 1) mod HIST_CAP)
  else h.

Definition start_depth : Z := match fw_source p with PhaseOffset => fw_phase p | _ => 0 end.

(** [for (int i = start_depth; i < HIST_CAP; ++i)]: the first valid entry that is large
    enough, [i] steps behind the newest one. *)
Fixpoint scan_hist (h : fwd_state) (size : Z) (depths : list Z) : option HistEntry :=
  match depths with
  | [] => None
  | i :: depths' =>
      let e := hist h ((hist_next h - 1 - i + HIST_CAP) mod HIST_CAP) in
      if h_valid e && (size <=? h_size e) then Some e else scan_hist h size depths'
  end.

Definition find_stale (h : fwd_state) (size : Z) : option HistEntry :=
  scan_hist h size (map (fun k => start_depth + Z.of_nat k) (seq 0 (Z.to_nat (HIST_CAP - start_depth)))).

Definition source_stat : stat :=
  match fw_source p with FwdSourceSub => numFwdSourceSub | StaleLineReplay => numStaleLineReplay | _ => numPhaseOffset end.

(** The substitution, once the current forward is recorded. *)
Definition substitute_source (cur : list Z) (size vaddr : Z) : MF (list Z) :=
  match fw_source p with
  | SourceNone => ret cur
  | _ =>
      let! b := gate (fw_gate p) now in
      if b then
        let! h := get in
        match find_stale h size with
        | None => ret cur
        | Some stale =>
            do! bump numFaultsInjected in
            do! incr_count in
            do! bump source_stat in
            do! log_if (fw_log p) (Entry "store->load_forward_source"
                  [("cycle", now); ("vaddr", vaddr); ("stale_vaddr", h_vaddr stale); ("size", size)]) in
            ret (take (Z.to_nat size) (h_data stale))
        end
      else ret cur
  end.

Definition pickSource (cur : list Z) (size vaddr : Z) : MF (list Z) :=
  do! modify (remember cur size vaddr) in
  substitute_source cur size vaddr.

(** [k] clamped to [1 .. size - 1]. *)
Definition clamp_skew (k size : Z) : Z :=
  let k := if k <? 1 then 1 else k in if size <=? k then size - 1 else k.

(** [for (n < size) data[n] = tmp[(n + k) % size];] *)
Definition skew (k size : Z) (tmp : list Z) : list Z :=
  map (fun n => tmp !!! Z.to_nat ((Z.of_nat n + k) mod size)) (seq 0 (Z.to_nat size)).

Definition applyStructuralFault (data : list Z) (size vaddr : Z) : MF (list Z) :=
  if size =? 0 then ret data
  else
    let! out := (match fw_structural p with
                 | ByteLaneSkew =>
                     let! k := (if fw_skew p =? 0 then with_rng (uniform_int 1 7) else ret (fw_skew p)) in
                     do! bump numStructuralByteLaneSkew in
                     ret (skew (clamp_skew k size) size data)
                 | AllZero =>
                     do! bump numStructuralAllZero in
                     ret (replicate (Z.to_nat size) 0)
                 | StructNone => ret data
                 end) in
    do! bump numFaultsInjected in
    do! incr_count in
    do! log_if (fw_log p) (Entry "store->load_forward" [("cycle", now); ("vaddr", vaddr); ("size", size)]) in
    ret out.

(** [generateRandomMask]: bit positions over the configured width. *)
Definition fwd_random_mask (g : engine) : Z * engine :=
  let bit_span := fw_width p * 8 in
  random_mask (fw_bits p) 0 ((if 64 <? bit_span then 64 else bit_span) - 1) g.

(** The bytes of the window. *)
Definition fwd_width (off size : Z) : Z :=
  let w := fw_width p in
  let w := if w <? 1 then 1 else w in
  let w := if 8 <? w then 8 else w in
  let w := if size <? off + w then size - off else w in
  if w <? 1 then 1 else w.

Definition width_mask (mask width : Z) : Z :=
  if 8 <=? width then mask else Z.land mask (Z.shiftl 1 (8 * width) - 1).

Definition corrupt_window (data : list Z) (size vaddr : Z) : MF (list Z) :=
  let! off0 := (if fw_offset p <? 0 then with_rng (uniform_int 0 (size - 1)) else ret (fw_offset p)) in
  let off := if size <=? off0 then size - 1 else off0 in
  let width := fwd_width off size in
  let! mask := with_rng (mask_or (fw_mask p) fwd_random_mask) in
  let wm := width_mask mask width in
  let! chosen := with_rng (choose_fault (fw_type p) fwd_weights) in
  let o := Z.to_nat off in
  let w := Z.to_nat width in
  let out := write_window data o w (apply_fault chosen wm (read_window data o w)) in
  do! (match fault_stat chosen with Some k => bump k | None => skip end) in
  do! bump numFaultsInjected in
  do! incr_count in
  do! log_if (fw_log p) (Entry (faultTypeToString chosen)
        [("cycle", now); ("vaddr", vaddr); ("size", size); ("offset", off); ("width", width); ("mask", wm)]) in
  ret out.

Definition corrupt (data : list Z) (size vaddr : Z) : MF (list Z) :=
  let! b := gate (fw_gate p) now in
  if b then
    if size =? 0 then ret data
    else match fw_structural p with
         | StructNone => corrupt_window data size vaddr
         | _ => applyStructuralFault data size vaddr
         end
  else ret data.
End CHAOSLSQFwd.

(** The attached injector, in the cycle [now] of the read. *)
Definition lsqfwd_hooks (p : fwd_params) (now : Z) : ForwardHooks fwd_state := {|
  pick_source := pickSource p now;
  corrupt_data := corrupt p now
|}.

(** ** CHAOSAddrPath *)

Record addr_params := AddrParams { ap_gate : gate_params; ap_byte : Z; ap_log : bool }.

(** [startup] keeps the window in ticks; 0 stays unrestricted. *)
Definition addr_window (first_clock last_clock : Z) : Z * Z :=
  (first_clock, if last_clock =? 0 then 0 else last_clock).

(** [corruptAddr]: the new address if a fault was injected. *)
Definition corruptAddr {X} (p : addr_params) (now addr seq : Z) : M X (option Z) :=
  let! b := gate (ap_gate p) now in
  if b then
    let! off0 := (if ap_byte p <? 0 then with_rng (uniform_int 0 7) else ret (ap_byte p)) in
    let off := if (off0 <? 0) || (7 <? off0) then 7 else off0 in
    let out := Z.land addr (Z.lnot (Z.shiftl 255 (off * 8))) in
    do! bump numAddrFaults in
    do! incr_count in
    do! log_if (ap_log p) (Entry "load_effAddr_pre_translate" [("seq", seq); ("orig", addr); ("corrupted", out)]) in
    ret (Some out)
  else ret None.

(** [sendFragmentToTranslation]: the address handed to the MMU. *)
Definition translated_addr {X} (inj : option addr_params) (is_load : bool) (now vaddr seq : Z) : M X Z :=
  match inj with
  | Some p =>
      if is_load then
        let! r := corruptAddr p now vaddr seq in
        ret (match r with Some va => va | None => vaddr end)
      else ret vaddr
  | None => ret vaddr
  end.

(** * Lemmas *)

(** ** Bytes and windows *)

(** The reference for a window fault: each byte of the window under its byte of the
    mask. *)
Definition window_fault (f : FaultType) (mask : Z) (off w : nat) (d : list Z) : list Z :=
  imap (fun i b => if decide (off <= i < off + w)%nat then apply_fault f (byte_of mask (i - off)) b else b) d.

Lemma window_fault_write f mask off w d :
  byte_list d -> (off + w <= length d)%nat ->
  write_window d off w (apply_fault f mask (read_window d off w)) = window_fault f mask off w d.
Proof.
  intros Hd Hw. apply list_eq_same_length with (length d); [|by rewrite length_write_window|].
  { unfold window_fault. by rewrite length_imap. }
  intros i x y Hi Hx Hy. apply list_lookup_total_correct in Hx. subst x.
  unfold window_fault in Hy. rewrite list_lookup_imap in Hy.
  destruct (d !! i) as [b|] eqn:Hb; [|done]. cbn in Hy. injection Hy as <-.
  apply list_lookup_total_correct in Hb. destruct (decide (off <= i < off + w)%nat) as [Hin|Hout].
  - replace i with (off + (i - off))%nat at 1 by lia.
    rewrite window_fault_inside by (done || lia). replace (off + (i - off))%nat with i by lia. by rewrite Hb.
  - rewrite write_window_outside by lia. done.
Qed.

Lemma skew_rotate k size d :
  Z.of_nat (length d) = size -> 0 <= k < size -> skew k size d = rotate (Z.to_nat k) d.
Proof.
  intros Hl Hk. apply list_eq. intros i. unfold skew. rewrite list_lookup_fmap.
  destruct (decide (i < length d)%nat) as [Hi|Hi].
  - rewrite lookup_seq_lt by lia. cbn. rewrite lookup_rotate_r by done. unfold rotate_nat_add.
    rewrite Z2Nat.id, Hl, (Z.add_comm k) by lia. symmetry. apply list_lookup_lookup_total_lt.
    pose proof (Z.mod_pos_bound (Z.of_nat i + k) size). lia.
  - rewrite !lookup_ge_None_2; [done| |]; rewrite ?length_rotate, ?length_seq; lia.
Qed.

Lemma clamp_skew_range k size : 0 < size -> 0 <= clamp_skew k size < size.
Proof. intros. unfold clamp_skew. repeat case_match; bools; lia. Qed.

Lemma fwd_width_range p off size :
  0 <= off < size -> 1 <= fwd_width p off size <= 8 /\ off + fwd_width p off size <= size.
Proof. intros. unfold fwd_width. repeat case_match; bools; lia. Qed.

Lemma fwd_width_clamped p off size : 0 <= off < size ->
  fwd_width p off size = Z.min (Z.max 1 (Z.min 8 (fw_width p))) (size - off).
Proof. intros. unfold fwd_width. repeat case_match; bools; lia. Qed.

(** ** The ring of past forwards *)

(** A forward the ring can hold, and the forwards it holds, newest first. *)
Record call := Call { c_data : list Z; c_size : Z; c_vaddr : Z }.

Definition call_ok (c : call) : Prop := Z.of_nat (length (c_data c)) = c_size c.

Definition recorded (c : call) (past : list call) : list call :=
  if (0 <? c_size c) && (c_size c <=? HIST_BYTES) then c :: past else past.

Definition slot (h : fwd_state) (k : Z) : HistEntry :=
  hist h ((hist_next h - 1 - k + HIST_CAP) mod HIST_CAP).

Definition holds (e : HistEntry) (o : option call) : Prop :=
  match o with
  | Some c => h_valid e = true /\ h_size e = c_size c /\ h_vaddr e = c_vaddr c /\
              forall n, (n <= Z.to_nat (c_size c))%nat -> take n (h_data e) = take n (c_data c)
  | None => h_valid e = false
  end.

Record ring_ok (h : fwd_state) (past : list call) : Prop := {
  ring_next : 0 <= hist_next h < HIST_CAP;
  ring_slots : forall k, (k < 8)%nat -> holds (slot h (Z.of_nat k)) (past !! k)
}.

(** The entry the search should find: the newest fitting forward at least [start] back,
    among the last eight. *)
Definition pick_ref (start : nat) (size : Z) (past : list call) : option call :=
  List.find (fun c => size <=? c_size c) (drop start (take 8 past)).

Lemma ring_init garbage : ring_ok (fwd_init garbage) [].
Proof. split; [unfold HIST_CAP; cbn; lia|done]. Qed.

Lemma ring_remember h past c :
  call_ok c -> ring_ok h past -> ring_ok (remember (c_data c) (c_size c) (c_vaddr c) h) (recorded c past).
Proof.
  intros Hc [Hn Hs]. unfold remember, recorded. destruct (_ && _) eqn:E; [|by split]. bools.
  unfold HIST_CAP in *. set (n := hist_next h) in *.
  split; cbn [hist_next hist]; [unfold HIST_CAP; apply Z.mod_pos_bound; lia|].
  intros k Hk. unfold slot. cbn [hist hist_next]. unfold HIST_CAP. destruct k as [|k].
  - replace (((n + 1) mod 8 - 1 - Z.of_nat 0 + 8) mod 8) with n by (Z.div_mod_to_equations; lia).
    rewrite fupd_eq. cbn. split_and!; [done..|]. intros m Hm. unfold call_ok in Hc.
    rewrite take_app_le by (rewrite length_take; lia). rewrite take_take. f_equal. lia.
  - rewrite fupd_ne by (Z.div_mod_to_equations; lia).
    replace (((n + 1) mod 8 - 1 - Z.of_nat (S k) + 8) mod 8) with ((n - 1 - Z.of_nat k + 8) mod 8)
      by (Z.div_mod_to_equations; lia).
    cbn [lookup list_lookup]. apply Hs. lia.
Qed.

Lemma scan_ref h past size n a :
  ring_ok h past -> (a + n <= 8)%nat ->
  match List.find (fun c => size <=? c_size c) (take n (drop a past)) with
  | Some c => exists e, scan_hist h size (map Z.of_nat (seq a n)) = Some e /\ holds e (Some c) /\ size <= c_size c
  | None => scan_hist h size (map Z.of_nat (seq a n)) = None
  end.
Proof.
  intros Hr. revert a. induction n as [|n IH]; intros a Ha; [done|].
  specialize (IH (S a) ltac:(lia)). pose proof (ring_slots _ _ Hr a ltac:(lia)) as Hs. unfold slot in Hs.
  cbn [seq map scan_hist]. destruct (past !! a) as [c|] eqn:E.
  - rewrite (drop_S _ _ _ E). cbn [take List.find]. cbn in Hs. destruct Hs as (Hv & Hz & Hva & Hd). rewrite Hv, Hz. cbn [andb].
    destruct (Z.leb_spec size (c_size c)); [|exact IH]. eexists. split; [done|]. by split.
  - cbn in Hs. rewrite Hs. cbn [andb]. rewrite drop_ge in IH |- * by (apply lookup_ge_None in E; lia).
    by destruct n.
Qed.

Lemma find_stale_ref p h past size :
  ring_ok h past -> 0 <= start_depth p ->
  match pick_ref (Z.to_nat (start_depth p)) size past with
  | Some c => exists e, find_stale p h size = Some e /\ holds e (Some c) /\ size <= c_size c
  | None => find_stale p h size = None
  end.
Proof.
  intros Hr H0. unfold find_stale, pick_ref. set (st := start_depth p) in *. clearbody st.
  replace (map (fun k => st + Z.of_nat k) (seq 0 (Z.to_nat (HIST_CAP - st))))
    with (map Z.of_nat (seq (Z.to_nat st) (8 - Z.to_nat st))).
  - destruct (decide (Z.to_nat st <= 8)%nat) as [Hle|Hgt].
    + replace (take 8 past) with (take (Z.to_nat st + (8 - Z.to_nat st)) past) by (f_equal; lia).
      rewrite <- take_drop_commute. apply scan_ref; [done|lia].
    + replace (8 - Z.to_nat st)%nat with 0%nat by lia. rewrite drop_ge by (rewrite length_take; lia). done.
  - replace (Z.to_nat (HIST_CAP - st)) with (8 - Z.to_nat st)%nat by (unfold HIST_CAP; lia).
    replace (seq (Z.to_nat st) (8 - Z.to_nat st)) with (Nat.add (Z.to_nat st) <$> seq 0 (8 - Z.to_nat st))
      by by rewrite fmap_add_seq, Nat.add_0_r.
    change (map ?f ?l) with (f <$> l). rewrite <- list_fmap_compose. apply list_fmap_ext. intros i k _. cbn. lia.
Qed.

(** One call of [pickSource] on a ring that holds [past]. *)
Definition picked (p : fwd_params) (c : call) (past : list call) (s : core * fwd_state)
    (r : list Z * (core * fwd_state)) : Prop :=
  ring_ok r.2.2 past /\
  ((r.1 = c_data c /\ count_of r.2 = count_of s) \/
   (count_of r.2 = count_succ (count_of s) /\ cap_reached (g_max (fw_gate p)) (count_of s) = false /\
    exists c', pick_ref (Z.to_nat (start_depth p)) (c_size c) past = Some c' /\
               r.1 = take (Z.to_nat (c_size c)) (c_data c'))).

Lemma substitute_picked p now c past s :
  ring_ok s.2 past -> 0 <= start_depth p ->
  picked p c past s (substitute_source p now (c_data c) (c_size c) (c_vaddr c) s).
Proof.
  intros Hr H0. unfold substitute_source.
  assert (Hsame : picked p c past s (ret (c_data c) s)) by (by split; [|left]).
  destruct (fw_source p) eqn:Hm; [done|..];
    (unfold bind at 1; destruct (gate_spec (fw_gate p) now s) as (b & g & -> & _ & Hb); cbn [fst snd];
     destruct b; [destruct (Hb eq_refl) as [_ Hcap]|by split; [|left]];
     unfold bind at 1; unfold get; cbn [fst snd];
     pose proof (find_stale_ref p s.2 past (c_size c) Hr H0) as Hf;
     destruct (pick_ref _ _ _) as [c'|] eqn:Hp; [|rewrite Hf; by split; [|left]];
     destruct Hf as (e & -> & (_ & _ & _ & Hd) & Hle); exec;
     split; [done|right]; split; [done|]; split; [done|]; exists c'; split; [done|]; apply Hd; lia).
Qed.

Lemma pickSource_picked p now c past s :
  call_ok c -> ring_ok s.2 past -> 0 <= start_depth p ->
  picked p c (recorded c past) s (pickSource p now (c_data c) (c_size c) (c_vaddr c) s).
Proof.
  intros Hc Hr H0. pose proof (ring_remember s.2 past c Hc Hr) as Hr'.
  exact (substitute_picked p now c (recorded c past) (s.1, remember _ _ _ s.2) Hr' H0).
Qed.

Definition picks (p : fwd_params) (l : list (Z * call)) : MF unit :=
  for_each l (fun e => do! pickSource p e.1 (c_data e.2) (c_size e.2) (c_vaddr e.2) in skip).

Definition past_of (l : list (Z * call)) (past : list call) : list call :=
  fold_left (fun q e => recorded e.2 q) l past.

Lemma picks_ring p l past s :
  0 <= start_depth p -> Forall (fun e => call_ok e.2) l -> ring_ok s.2 past ->
  ring_ok (picks p l s).2.2 (past_of l past).
Proof.
  intros H0 Hl. revert past s. induction Hl as [|[t c] l Hc Hl IH]; intros past s Hr; [done|].
  cbn [picks for_each past_of fold_left]. unfold bind at 1. apply IH.
  unfold bind, skip, ret. cbn [fst snd]. by apply (pickSource_picked p t c past s).
Qed.

(** ** Corruption of the forwarded bytes *)

Lemma fwd_choose f g : (choose_fault f fwd_weights g).1 <> Random /\ (f <> Random -> (choose_fault f fwd_weights g).1 = f).
Proof.
  split; [|by destruct f].
  assert (fwd_weights = fault_weights f32_0_9 f32_0_05 f32_0_05) as -> by by vm_compute.
  apply choose_fault_not_random.
Qed.

(** What a corruption makes of the bytes [d]: a rotation, zeroes, or the fault in a window
    that the parameters determine as far as they are given. *)
Definition corrupted (p : fwd_params) (d out : list Z) : Prop :=
  let size := Z.of_nat (length d) in
  match fw_structural p with
  | ByteLaneSkew => exists k, (k < length d)%nat /\ out = rotate k d /\
      (fw_skew p <> 0 -> Z.of_nat k = clamp_skew (fw_skew p) size)
  | AllZero => out = replicate (length d) 0
  | StructNone => exists off w f mask, (off + w <= length d)%nat /\ (off < length d)%nat /\
      Z.of_nat w = Z.min (Z.max 1 (Z.min 8 (fw_width p))) (size - Z.of_nat off) /\
      out = window_fault f mask off w d /\ f <> Random /\
      (0 <= fw_offset p -> Z.of_nat off = Z.min (fw_offset p) (size - 1)) /\
      (fw_type p <> Random -> f = fw_type p) /\
      (fw_mask p <> 0 -> mask = width_mask (fw_mask p) (Z.of_nat w))
  end.

(** A fault counted, and the ring untouched. *)
Definition corruption (p : fwd_params) (d : list Z) (s : core * fwd_state) (r : list Z * (core * fwd_state)) : Prop :=
  corrupted p d r.1 /\ count_of r.2 = count_succ (count_of s) /\ r.2.2 = s.2.

Lemma structural_corruption p now d va s :
  (0 < length d)%nat -> fw_structural p <> StructNone ->
  corruption p d s (applyStructuralFault p now d (Z.of_nat (length d)) va s).
Proof.
  intros Hl Hst. unfold applyStructuralFault. rewrite (proj2 (Z.eqb_neq _ 0)) by lia.
  destruct s as [[g c st lg] x]. unfold corruption, corrupted. destruct (fw_structural p); [done| |].
  - assert (Hk : forall k, exists k', (k' < length d)%nat /\
        skew (clamp_skew k (Z.of_nat (length d))) (Z.of_nat (length d)) d = rotate k' d /\
        Z.of_nat k' = clamp_skew k (Z.of_nat (length d))).
    { intros k. pose proof (clamp_skew_range k (Z.of_nat (length d)) ltac:(lia)) as Hr.
      exists (Z.to_nat (clamp_skew k (Z.of_nat (length d)))).
      rewrite skew_rotate by done. split_and!; [lia|done|lia]. }
    destruct (Z.eqb_spec (fw_skew p) 0) as [E|E]; exec.
    + destruct (Hk (uniform_int 1 7 g).1) as (k' & H1 & H2 & H3). split; [|done]. exists k'. done.
    + destruct (Hk (fw_skew p)) as (k' & H1 & H2 & H3). split; [|done]. exists k'. done.
  - exec. split; [|done]. by rewrite Nat2Z.id.
Qed.

Lemma window_corruption p now d va s :
  byte_list d -> (0 < length d)%nat -> fw_structural p = StructNone ->
  corruption p d s (corrupt_window p now d (Z.of_nat (length d)) va s).
Proof.
  intros Hd Hl Hst. set (size := Z.of_nat (length d)).
  assert (Hoff : exists off0 g1,
    (if fw_offset p <? 0 then with_rng (uniform_int 0 (size - 1)) else ret (fw_offset p)) s =
      (off0, (Core g1 (count_of s) (the_stats s.1) (the_log s.1), s.2)) /\
    0 <= off0 /\ (0 <= fw_offset p -> off0 = fw_offset p)).
  { destruct s as [[g c st lg] x]. destruct (Z.ltb_spec (fw_offset p) 0).
    - eexists _, _. split; [reflexivity|]. split; [|lia]. apply uniform_int_range. unfold size. lia.
    - eexists _, _. split; [reflexivity|]. split; [lia|done]. }
  destruct Hoff as (off0 & g1 & E & Ho0 & Hoe).
  unfold corrupt_window. unfold bind at 1. rewrite E. cbn [fst snd].
  set (off := if size <=? off0 then size - 1 else off0).
  assert (Hsz : 0 < size) by (unfold size; lia).
  assert (Hoff : 0 <= off < size) by (unfold off; destruct (Z.leb_spec size off0); lia).
  pose proof (fwd_width_range p off size Hoff) as [Hw1 Hw2]. pose proof (fwd_width_clamped p off size Hoff) as Hw3.
  set (w := fwd_width p off size) in *. run.
  destruct (mask_or (fw_mask p) (fwd_random_mask p) g1) as [mask g2] eqn:Em. cbn [fst snd].
  destruct (fwd_choose (fw_type p) g2) as [Hf1 Hf2].
  destruct (choose_fault (fw_type p) fwd_weights g2) as [f g3]. cbn [fst snd] in *.
  destruct (fault_stat f) as [k|] eqn:Ek; [|by destruct f]. exec. split; [|done].
  unfold corrupted. rewrite Hst. fold size. exists (Z.to_nat off), (Z.to_nat w), f, (width_mask mask w). rewrite !Z2Nat.id by lia.
  split_and!; [unfold size in *; lia..| |done| |done|].
  - apply window_fault_write; [done|unfold size in *; lia].
  - intros Hp. specialize (Hoe Hp). unfold off. destruct (Z.leb_spec size off0); lia.
  - intros Hm. unfold mask_or in Em. rewrite (proj2 (Z.eqb_neq _ 0) Hm) in Em. cbn in Em. by injection Em as <- _.
Qed.

(** A call of [corrupt]: nothing, or one counted corruption. *)
Definition maybe_corrupted (p : fwd_params) (d : list Z) (s : core * fwd_state) (r : list Z * (core * fwd_state)) : Prop :=
  (r.1 = d /\ count_of r.2 = count_of s) \/ (corrupted p d r.1 /\ count_of r.2 = count_succ (count_of s)).

Lemma corrupt_cases p now d va s :
  byte_list d -> (0 < length d)%nat -> maybe_corrupted p d s (corrupt p now d (Z.of_nat (length d)) va s).
Proof.
  intros Hd Hl. unfold corrupt. unfold bind at 1.
  destruct (gate_spec (fw_gate p) now s) as (b & g & -> & _ & Hb). cbn [fst snd].
  set (s1 := (Core g (count_of s) (the_stats s.1) (the_log s.1), s.2)). change (count_of s) with (count_of s1).
  destruct b; [|by left]. rewrite (proj2 (Z.eqb_neq _ 0)) by lia. right.
  destruct (fw_structural p) eqn:Hst;
    [destruct (window_corruption p now d va s1 Hd Hl Hst) as (? & ? & _)
    |destruct (structural_corruption p now d va s1 Hl) as (? & ? & _); [congruence|]..]; done.
Qed.

(** A closed gate makes the hooks transparent: no probability, or outside the window. *)
Lemma closed_gate_transparent p now :
  in_window (g_first (fw_gate p)) (g_last (fw_gate p)) now = false \/ Qle_bool (g_probability (fw_gate p)) 0 = true ->
  TransparentHooks fwd_state (F := lsqfwd_hooks p now).
Proof.
  intros Hc. assert (Hg : forall s : core * fwd_state, gate (fw_gate p) now s = (false, s)).
  { intros s. unfold gate. destruct (Qle_bool (g_probability (fw_gate p)) 0) eqn:E; [done|].
    destruct Hc as [->|Hc]; [done|congruence]. }
  split; intros *; cbn [pick_source corrupt_data lsqfwd_hooks].
  - unfold pickSource, substitute_source, bind, modify. cbn [fst snd]. by destruct (fw_source p); rewrite ?Hg.
  - unfold corrupt, bind. by rewrite Hg.
Qed.

(** The bytes forwarded from an entry. *)
Definition entry_bytes (st : sq_entry) (ld : load_req) : list Z :=
  if sq_allZeros st then replicate (Z.to_nat (ld_size ld)) 0 else store_bytes st ld.

Lemma entry_bytes_list st ld : byte_list (sq_data st) -> byte_list (entry_bytes st ld).
Proof.
  intros. unfold entry_bytes, store_bytes. destruct (sq_allZeros st); [apply byte_list_replicate|].
  by apply Forall_take, Forall_drop.
Qed.

(** The address with byte [off] zeroed. *)
Lemma zero_byte_testbit addr off i : 0 <= i -> 0 <= off ->
  Z.testbit (Z.land addr (Z.lnot (Z.shiftl 255 (off * 8)))) i =
  Z.testbit addr i && negb ((8 * off <=? i) && (i <? 8 * off + 8)).
Proof.
  intros Hi Ho. rewrite Z.land_spec, Z.lnot_spec, Z.shiftl_spec by lia. f_equal. f_equal.
  destruct (Z.leb_spec (8 * off) i); cbn [andb].
  - rewrite testbit_255 by lia. destruct (Z.ltb_spec (i - off * 8) 8), (Z.ltb_spec i (8 * off + 8)); lia || done.
  - apply Z.testbit_neg_r. lia.
Qed.

Definition addr_effect {X} (p : addr_params) (addr : Z) (s : core * X) (r : Z * (core * X)) : Prop :=
  r.2.2 = s.2 /\
  ((r.1 = addr /\ count_of r.2 = count_of s) \/
   (count_of r.2 = count_succ (count_of s) /\ exists off, 0 <= off <= 7 /\
      (0 <= ap_byte p -> off = Z.min 7 (ap_byte p)) /\
      forall i, 0 <= i -> Z.testbit r.1 i = Z.testbit addr i && negb ((8 * off <=? i) && (i <? 8 * off + 8)))).

Lemma translated_addr_effect {X} p is_load now addr seq (s : core * X) :
  addr_effect p addr s (translated_addr (Some p) is_load now addr seq s).
Proof.
  unfold translated_addr. destruct is_load; [|by split; [|left]].
  unfold corruptAddr. unfold bind at 1 2.
  destruct (gate_spec (ap_gate p) now s) as (b & g & -> & _ & Hb). cbn [fst snd].
  destruct b; [|by split; [|left]]. run.
  destruct (Z.ltb_spec (ap_byte p) 0) as [H|H]; exec; (split; [done|right]; split; [done|]);
    cbn [fst snd].
  - pose proof (uniform_int_range 0 7 g ltac:(lia)) as Hr.
    destruct (uniform_int 0 7 g) as [o g']. cbn [fst] in *. exists o. split; [lia|]. split; [lia|]. intros i Hi.
    replace ((o <? 0) || (7 <? o)) with false by lia. apply zero_byte_testbit; lia.
  - exists (Z.min 7 (ap_byte p)). split; [lia|]. split; [done|]. intros i Hi.
    replace (if (ap_byte p <? 0) || (7 <? ap_byte p) then 7 else ap_byte p) with (Z.min 7 (ap_byte p)).
    + apply zero_byte_testbit; lia.
    + destruct (Z.ltb_spec (ap_byte p) 0), (Z.ltb_spec 7 (ap_byte p)); cbn; lia.
Qed.

(** ** Fault caps *)

#[global] Instance corrupt_capped p now d size va : CappedHook (g_max (fw_gate p)) (corrupt p now d size va).
Proof. unfold corrupt, corrupt_window, applyStructuralFault. counted. Qed.

#[global] Instance pickSource_capped p now d size va : CappedHook (g_max (fw_gate p)) (pickSource p now d size va).
Proof. unfold pickSource, substitute_source. counted. Qed.

#[global] Instance corruptAddr_capped {X} p now addr seq : CappedHook (X := X) (g_max (ap_gate p)) (corruptAddr p now addr seq).
Proof. unfold corruptAddr. counted. Qed.

(** * Theorems *)

Section LoadEffect.
Context (p : fwd_params) (now : Z).
Existing Instance lsqfwd_hooks.

(** The forward of an entry under the injector, without substitution of the source. *)
Lemma forward_corrupted st ld s :
  fw_source p = SourceNone -> byte_list (sq_data st) -> (0 < length (entry_bytes st ld))%nat ->
  Z.of_nat (length (entry_bytes st ld)) = ld_size ld ->
  exists out, let r := forward (H := fwd_state) (H0 := lsqfwd_hooks p now) st ld s in r.1 = Forwarded out /\
    ((out = entry_bytes st ld /\ count_of r.2 = count_of s) \/
     (corrupted p (entry_bytes st ld) out /\ count_of r.2 = count_succ (count_of s))).
Proof.
  intros Hsrc Hb Hpos Hl. set (h1 := if sq_allZeros st then s.2.2 else remember (store_bytes st ld) (ld_size ld) (ld_vaddr ld) s.2.2).
  pose proof (corrupt_cases p now (entry_bytes st ld) (ld_vaddr ld) (s.1, h1) (entry_bytes_list st ld Hb) Hpos) as Hc.
  rewrite Hl in Hc. exists (corrupt p now (entry_bytes st ld) (ld_size ld) (ld_vaddr ld) (s.1, h1)).1.
  assert (E : forward (H := fwd_state) (H0 := lsqfwd_hooks p now) st ld s =
    let r := corrupt p now (entry_bytes st ld) (ld_size ld) (ld_vaddr ld) (s.1, h1) in
    (Forwarded r.1, (r.2.1, (forwarded_one s.2.1, r.2.2)))).
  { unfold forward, entry_bytes, h1, bind, in_hooks, on_unit, modify, ret. destruct s as [c [u h]].
    destruct (sq_allZeros st); [done|]. cbn [fst snd pick_source corrupt_data lsqfwd_hooks].
    unfold pickSource, substitute_source, bind, modify, ret. rewrite Hsrc. done. }
  cbn zeta. rewrite E. cbn zeta. split; [done|]. exact Hc.
Qed.
End LoadEffect.

(** A load with CHAOSLSQFwd attached (no source substitution): the queue decides as
    without it; what is forwarded is either exactly the memory bytes the load should see,
    or those bytes after one counted corruption, which is a rotation of the bytes, all
    zeroes, or the configured fault in a window of at most eight bytes; a load that is not
    forwarded is not touched. *)
Theorem lsqfwd_load_effect p now ld older (s : core * (lsq * fwd_state)) m m' :
  load_ok ld -> ld_prefetch ld = false -> Forall (store_ok ld) older -> drained older m m' ->
  Forall (fun st => byte_list (sq_data st)) older -> fw_source p = SourceNone ->
  let r := lsq_read (H0 := lsqfwd_hooks p now) ld older s in
  let exact := map (fun i => m' (ld_vaddr ld + Z.of_nat i)) (seq 0 (Z.to_nat (ld_size ld))) in
  match (lsq_read ld older (s.1, (s.2.1, tt))).1 with
  | Forwarded _ => exists out, r.1 = Forwarded out /\
      ((out = exact /\ count_of r.2 = count_of s) \/
       (corrupted p exact out /\ count_of r.2 = count_succ (count_of s)))
  | o => r.1 = o /\ r.2.1 = s.1 /\ r.2.2.2 = s.2.2
  end.
Proof.
  intros Hl Hp Hall Hd Hb Hsrc. cbn zeta. unfold lsq_read. rewrite Hp.
  pose proof (search_exact (H := unit) ld older (s.1, (s.2.1, tt)) m m' Hl Hall Hd) as Hex.
  pose proof (search_decided (H := unit) ld older (s.1, (s.2.1, tt))) as D0.
  pose proof (search_decided (H0 := lsqfwd_hooks p now) ld older s) as D1.
  destruct (search_decision ld older) as [st|o] eqn:Ed.
  - destruct D0 as (Hin & Hk & E0), D1 as (_ & _ & E1). rewrite E0, E1 in *.
    rewrite forward_data in *. cbn [outcome_exact] in Hex. fold (entry_bytes st ld) in Hex. rewrite <- Hex.
    assert (Hlen : Z.of_nat (length (entry_bytes st ld)) = ld_size ld).
    { rewrite Hex, length_map, length_seq. unfold load_ok in Hl. lia. }
    rewrite Forall_forall in Hb. apply forward_corrupted; [done|by apply Hb| |done].
    unfold load_ok in Hl. lia.
  - destruct D0 as (u0 & E0), D1 as (u1 & E1). rewrite E0, E1 in *. cbn [fst] in *.
    destruct o; [by apply search_decision_other in Ed|done..].
Qed.

Definition example_fwd (source : SourceFault) (phase : Z) : fwd_params :=
  FwdParams (GateParams 1 10 0 1) BitFlip 257 2 StructNone source phase 0 1 0 false.
Definition example_core : core := Core (Engine Z.of_nat 0) 0 stats0 [].
Definition example_ring : fwd_state := fwd_init (fun _ => []).

Lemma lsqfwd_load_effect_witness :
  let r := lsq_read (H0 := lsqfwd_hooks (example_fwd SourceNone 0) 20) example_load example_older
             (example_core, (example_lsq, example_ring)) in
  r.1 = Forwarded [13; 12] /\
  exists out, r.1 = Forwarded out /\
    ((out = [12; 13] /\ count_of r.2 = 0) \/ (corrupted (example_fwd SourceNone 0) [12; 13] out /\ count_of r.2 = 1)).
Proof.
  intros r. split; [by vm_compute|].
  exact (lsqfwd_load_effect (example_fwd SourceNone 0) 20 example_load example_older
    (example_core, (example_lsq, example_ring)) (fun _ => 0) example_memory
    example_load_ok eq_refl example_stores_ok example_drained ltac:(repeat constructor; cbn; lia) eq_refl).
Defined.

(** The ring of [pickSource] refines the list of past forwards: after any sequence of
    calls, a call returns the data of the current store, or counts a fault and returns the
    bytes of the newest recorded forward that is large enough and at least [start_depth]
    back, among the last eight.  Since the current store is recorded first, the modes
    without a phase ([fwd_source_sub], [stale_line_replay]) always return the data they are
    meant to replace. *)
Theorem pickSource_refines p l garbage c0 now c :
  0 <= start_depth p -> Forall (fun e => call_ok e.2) l -> call_ok c ->
  let s := (picks p l (c0, fwd_init garbage)).2 in
  let past := recorded c (past_of l []) in
  let r := pickSource p now (c_data c) (c_size c) (c_vaddr c) s in
  ((r.1 = c_data c /\ count_of r.2 = count_of s) \/
   (count_of r.2 = count_succ (count_of s) /\
    exists c', pick_ref (Z.to_nat (start_depth p)) (c_size c) past = Some c' /\
               r.1 = take (Z.to_nat (c_size c)) (c_data c'))) /\
  (fw_source p <> PhaseOffset -> 0 < c_size c <= HIST_BYTES -> r.1 = c_data c).
Proof.
  intros H0 Hl Hc s past r.
  pose proof (picks_ring p l [] (c0, fwd_init garbage) H0 Hl (ring_init garbage)) as Hr. fold s in Hr.
  destruct (pickSource_picked p now c (past_of l []) s Hc Hr H0) as [_ Hp]. fold r past in Hp.
  assert (Hp' : (r.1 = c_data c /\ count_of r.2 = count_of s) \/
    (count_of r.2 = count_succ (count_of s) /\
     exists c', pick_ref (Z.to_nat (start_depth p)) (c_size c) past = Some c' /\
       r.1 = take (Z.to_nat (c_size c)) (c_data c'))) by tauto.
  split; [exact Hp'|]. intros Hph Hsz. destruct Hp' as [[? _]|(_ & c' & Hc' & ->)]; [done|].
  assert (start_depth p = 0) as E by (unfold start_depth; by destruct (fw_source p)).
  unfold pick_ref, past, recorded in Hc'. rewrite E in Hc'.
  replace ((0 <? c_size c) && (c_size c <=? HIST_BYTES)) with true in Hc' by lia.
  change (Z.to_nat 0) with 0%nat in Hc'. rewrite drop_0, firstn_cons in Hc'. cbn [List.find] in Hc'. rewrite Z.leb_refl in Hc'. injection Hc' as <-. unfold call_ok in Hc. apply take_ge. lia.
Qed.

Lemma pickSource_refines_witness :
  let p := example_fwd PhaseOffset 1 in
  let l := [(5, Call [1; 2; 3; 4] 4 64); (6, Call [7; 8] 2 80)] in
  let s := (picks p l (example_core, example_ring)).2 in
  let r := pickSource p 20 [5; 6; 7] 3 96 s in
  r.1 = [1; 2; 3] /\
  (((r.1 = [5; 6; 7] /\ count_of r.2 = count_of s) \/
   (count_of r.2 = count_succ (count_of s) /\
    exists c', pick_ref 1 3 [Call [5; 6; 7] 3 96; Call [7; 8] 2 80; Call [1; 2; 3; 4] 4 64] = Some c' /\
               r.1 = take 3 (c_data c'))) /\
  (fw_source p <> PhaseOffset -> 0 < 3 <= HIST_BYTES -> r.1 = [5; 6; 7])).
Proof.
  intros p l s r. split; [by vm_compute|].
  exact (pickSource_refines p l (fun _ => []) example_core 20 (Call [5; 6; 7] 3 96)
    ltac:(cbn; lia) ltac:(repeat constructor) eq_refl).
Defined.

(** CHAOSAddrPath hands the MMU the address of a load unchanged, or with exactly one of
    its eight bytes zeroed and one fault counted; the configured byte is the one zeroed,
    a number beyond the last byte meaning the last.  Stores are never touched. *)
Theorem addr_path_exact {X} p is_load now addr seq (s : core * X) :
  let r := translated_addr (Some p) is_load now addr seq s in
  r.2.2 = s.2 /\
  ((r.1 = addr /\ count_of r.2 = count_of s) \/
   (is_load = true /\ count_of r.2 = count_succ (count_of s) /\ exists off, 0 <= off <= 7 /\
      (0 <= ap_byte p -> off = Z.min 7 (ap_byte p)) /\
      forall i, 0 <= i -> Z.testbit r.1 i = Z.testbit addr i && negb ((8 * off <=? i) && (i <? 8 * off + 8)))).
Proof.
  cbn zeta. destruct is_load; [|by split; [|left]].
  destruct (translated_addr_effect p true now addr seq s) as [H1 H2]. split; [done|]. tauto.
Qed.
