(* ===== verification/DepGraph.v ===== *)
(** * The dependency graph of the instruction queue

    [DependencyGraph] (cpu/o3/dep_graph.hh): an array of singly linked lists, one per
    physical register, of the instructions that wait for the register.  It is modelled with
    its nodes and pointers.  The theorem is the refinement of the obvious specification, a
    list of waiting instructions per register, over arbitrary sequences of operations,
    including the operations that trip an assertion. *)

From Stdlib Require Import ZArith Lia.
From stdpp Require Import base list numbers strings.
From S2P Require Import Prelude EventQueue.

Open Scope Z_scope.

(** [DependencyEntry]; instructions and nodes are numbered. *)
Record dep_entry := DepEntry { de_inst : option nat; de_next : option nat }.

Record dep_graph := DepGraph {
  dependGraph : Z -> dep_entry;        (* the heads, by flat register index *)
  dg_nodes : nat -> dep_entry;
  dg_fresh : nat;                      (* the next node [new] returns *)
  memAllocCounter : Z; nodesTraversed : Z; nodesRemoved : Z
}.

Definition dg_init : dep_graph :=
  DepGraph (fun _ => DepEntry None None) (fun _ => DepEntry None None) 0 0 0 0.

Definition set_head (g : dep_graph) (idx : Z) (e : dep_entry) : dep_graph :=
  DepGraph (fupd (dependGraph g) idx e) (dg_nodes g) (dg_fresh g)
    (memAllocCounter g) (nodesTraversed g) (nodesRemoved g).

Definition set_node (g : dep_graph) (n : nat) (e : dep_entry) : dep_graph :=
  DepGraph (dependGraph g) (fupd (dg_nodes g) n e) (dg_fresh g)
    (memAllocCounter g) (nodesTraversed g) (nodesRemoved g).

Definition add_alloc (g : dep_graph) (n : Z) : dep_graph :=
  DepGraph (dependGraph g) (dg_nodes g) (dg_fresh g) (memAllocCounter g + n) (nodesTraversed g) (nodesRemoved g).

Definition add_walk (g : dep_graph) (traversed : Z) : dep_graph :=
  DepGraph (dependGraph g) (dg_nodes g) (dg_fresh g) (memAllocCounter g) (nodesTraversed g + traversed)
    (nodesRemoved g + 1).

(** [setInst], [clearInst], [empty] *)
Definition dg_setInst (g : dep_graph) (idx : Z) (inst : nat) : dep_graph :=
  set_head g idx (DepEntry (Some inst) (de_next (dependGraph g idx))).

Definition dg_clearInst (g : dep_graph) (idx : Z) : dep_graph :=
  set_head g idx (DepEntry None (de_next (dependGraph g idx))).

Definition dg_empty (g : dep_graph) (idx : Z) : bool :=
  match de_next (dependGraph g idx) with None => true | Some _ => false end.

Definition dg_insert (g : dep_graph) (idx : Z) (inst : nat) : dep_graph :=
  let n := dg_fresh g in
  let g1 := DepGraph (dependGraph g) (fupd (dg_nodes g) n (DepEntry (Some inst) (de_next (dependGraph g idx))))
              (S n) (memAllocCounter g) (nodesTraversed g) (nodesRemoved g) in
  add_alloc (set_head g1 idx (DepEntry (de_inst (dependGraph g idx)) (Some n))) 1.

Definition dg_pop (g : dep_graph) (idx : Z) : option nat * dep_graph :=
  match de_next (dependGraph g idx) with
  | None => (None, g)
  | Some n =>
      let e := dg_nodes g n in
      let g1 := set_head g idx (DepEntry (de_inst (dependGraph g idx)) (de_next e)) in
      (de_inst e, add_alloc (set_node g1 n (DepEntry None (de_next e))) (-1))
  end.

(** Where [prev] of [remove] points: the head of the register or a node. *)
Inductive dep_loc := AtHead | AtNode (n : nat).

(** [while (curr->inst != inst) { prev = curr; curr = curr->next; assert(curr); }] *)
Fixpoint dg_find (fuel : nat) (g : dep_graph) (inst : nat) (prev : dep_loc) (curr : nat) (steps : Z) : result (dep_loc * nat * Z) :=
  match fuel with
  | O => NoFuel
  | S fuel' =>
      if decide (de_inst (dg_nodes g curr) = Some inst) then Done (prev, curr, steps)
      else match de_next (dg_nodes g curr) with
           | None => Panic
           | Some n => dg_find fuel' g inst (AtNode curr) n (steps + 1)
           end
  end.

Definition dg_remove (fuel : nat) (g : dep_graph) (idx : Z) (inst : nat) : result dep_graph :=
  match de_next (dependGraph g idx) with
  | None => Done g
  | Some n =>
      match dg_find fuel g inst AtHead n 0 with
      | Done (prev, curr, steps) =>
          let after := de_next (dg_nodes g curr) in
          let g1 := match prev with
                    | AtHead => set_head g idx (DepEntry (de_inst (dependGraph g idx)) after)
                    | AtNode m => set_node g m (DepEntry (de_inst (dg_nodes g m)) after)
                    end in
          let g2 := set_node g1 curr (DepEntry None after) in
          Done (add_walk (add_alloc g2 (-1)) steps)
      | Panic => Panic
      | NoFuel => NoFuel
      end
  end.

(** ** The specification: a list of waiting instructions per register *)

Definition chains := Z -> list nat.

Definition spec_pop (f : chains) (idx : Z) : option nat * chains :=
  match f idx with [] => (None, f) | i :: l => (Some i, fupd f idx l) end.

Fixpoint remove_first (i : nat) (l : list nat) : list nat :=
  match l with [] => [] | j :: l' => if decide (j = i) then l' else j :: remove_first i l' end.

(** The operations of the graph, as a client issues them, and what it sees. *)
Inductive dep_op := DInsert (idx : Z) (i : nat) | DPop (idx : Z) | DRemove (idx : Z) (i : nat)
  | DSetInst (idx : Z) (i : nat) | DClearInst (idx : Z).

Definition dep_exec (fuel : nat) (g : dep_graph) (o : dep_op) : result (option nat * dep_graph) :=
  match o with
  | DInsert idx i => Done (None, dg_insert g idx i)
  | DPop idx => Done (dg_pop g idx)
  | DRemove idx i => match dg_remove fuel g idx i with
                     | Done g' => Done (None, g') | Panic => Panic | NoFuel => NoFuel end
  | DSetInst idx i => Done (None, dg_setInst g idx i)
  | DClearInst idx => Done (None, dg_clearInst g idx)
  end.

Definition spec_exec (f : chains) (o : dep_op) : result (option nat * chains) :=
  match o with
  | DInsert idx i => Done (None, fupd f idx (i :: f idx))
  | DPop idx => Done (spec_pop f idx)
  | DRemove idx i => if decide (f idx = []) then Done (None, f)
                     else if decide (i ∈ f idx) then Done (None, fupd f idx (remove_first i (f idx)))
                     else Panic
  | DSetInst _ _ | DClearInst _ => Done (None, f)
  end.

(** A run up to the first assertion that fires: the values seen, and the state or the
    failure. *)
Fixpoint dep_run {S} (exec : S -> dep_op -> result (option nat * S)) (s : S) (l : list dep_op) : list (option nat) * result S :=
  match l with
  | [] => ([], Done s)
  | o :: l' => match exec s o with
               | Done (v, s') => let r := dep_run exec s' l' in (v :: r.1, r.2)
               | Panic => ([], Panic)
               | NoFuel => ([], NoFuel)
               end
  end.

(** * Lemmas *)

(** ** Shape: the nodes from a pointer on are [ps], their instructions [l] *)

Fixpoint lseg (nodes : nat -> dep_entry) (start : option nat) (ps l : list nat) : Prop :=
  match ps, l with
  | [], [] => start = None
  | p :: ps', i :: l' => start = Some p /\ de_inst (nodes p) = Some i /\ lseg nodes (de_next (nodes p)) ps' l'
  | _, _ => False
  end.

Record dg_shape (g : dep_graph) (f : chains) (ptrs : Z -> list nat) : Prop := {
  shape_seg : forall idx, lseg (dg_nodes g) (de_next (dependGraph g idx)) (ptrs idx) (f idx);
  shape_fresh : forall idx p, p ∈ ptrs idx -> (p < dg_fresh g)%nat;
  shape_nodup : forall idx, NoDup (ptrs idx);
  shape_disj : forall i j p, p ∈ ptrs i -> p ∈ ptrs j -> i = j
}.

Definition dg_rep (g : dep_graph) (f : chains) : Prop := exists ptrs, dg_shape g f ptrs.

Lemma lseg_length nodes start ps l : lseg nodes start ps l -> length ps = length l.
Proof.
  revert start l. induction ps as [|p ps IH]; intros start [|i l]; try done. cbn.
  intros (_ & _ & H). f_equal. by eapply IH.
Qed.

Lemma lseg_ext nodes nodes' start ps l :
  (forall p, p ∈ ps -> nodes' p = nodes p) -> lseg nodes start ps l -> lseg nodes' start ps l.
Proof.
  revert start l. induction ps as [|p ps IH]; intros start [|i l] He; try done. cbn.
  rewrite He by apply list_elem_of_here. intros (? & ? & ?). split_and!; [done..|]. apply IH; [|done].
  intros q Hq. apply He. by apply list_elem_of_further.
Qed.

Lemma lseg_some nodes p ps l : lseg nodes (Some p) ps l -> exists ps' i l',
  ps = p :: ps' /\ l = i :: l' /\ de_inst (nodes p) = Some i /\ lseg nodes (de_next (nodes p)) ps' l'.
Proof. destruct ps, l; try done. cbn. intros ([= ->] & ? & ?). by eexists _, _, _. Qed.

Lemma lseg_none nodes ps l : lseg nodes None ps l -> ps = [] /\ l = [].
Proof. destruct ps, l; try done. by intros (? & _). Qed.

Lemma dg_rep_init : dg_rep dg_init (fun _ => []).
Proof.
  exists (fun _ => []). split; try done; intros; try by constructor.
  all: by match goal with H : _ ∈ [] |- _ => apply not_elem_of_nil in H end.
Qed.

(** Pointer lists that change at one register only. *)
Lemma shape_update g g' f ptrs idx ps l :
  dg_shape g f ptrs ->
  (forall j, j <> idx -> dependGraph g' j = dependGraph g j) ->
  (forall j p, j <> idx -> p ∈ ptrs j -> dg_nodes g' p = dg_nodes g p) ->
  (dg_fresh g <= dg_fresh g')%nat ->
  lseg (dg_nodes g') (de_next (dependGraph g' idx)) ps l ->
  NoDup ps -> (forall p, p ∈ ps -> p < dg_fresh g' /\ forall j, p ∈ ptrs j -> j = idx)%nat ->
  dg_shape g' (fupd f idx l) (fupd ptrs idx ps).
Proof.
  intros [Hs Hf Hn Hd] Hh Hm Hfr Hl Hnd Hps. split.
  - intros j. destruct (decide (j = idx)) as [->|Hne]; [by rewrite !fupd_eq|].
    rewrite !fupd_ne, Hh by done. eapply lseg_ext; [|apply Hs]. intros p Hp. by apply (Hm j).
  - intros j p. destruct (decide (j = idx)) as [->|Hne]; [rewrite fupd_eq|rewrite fupd_ne by done].
    + intros Hp. by apply Hps.
    + intros Hp. specialize (Hf _ _ Hp). lia.
  - intros j. destruct (decide (j = idx)) as [->|Hne]; [by rewrite fupd_eq|by rewrite fupd_ne].
  - intros i j p. destruct (decide (i = idx)) as [->|Hi], (decide (j = idx)) as [->|Hj];
      rewrite ?fupd_eq, ?fupd_ne by done; intros H1 H2.
    + done.
    + symmetry. by apply (Hps p).
    + by apply (Hps p).
    + by apply (Hd i j p).
Qed.

(** ** Each operation *)

Lemma dg_insert_rep g f idx i : dg_rep g f -> dg_rep (dg_insert g idx i) (fupd f idx (i :: f idx)).
Proof.
  intros [ptrs H]. exists (fupd ptrs idx (dg_fresh g :: ptrs idx)).
  assert (Hnew : forall j, dg_fresh g ∉ ptrs j) by (intros j Hp; apply (shape_fresh _ _ _ H) in Hp; lia).
  eapply shape_update; [exact H|..]; cbn.
  - intros j Hj. by rewrite fupd_ne.
  - intros j p Hj Hp. apply fupd_ne. intros ->. by apply (Hnew j).
  - lia.
  - rewrite fupd_eq. cbn. split; [done|]. rewrite fupd_eq. cbn. split; [done|].
    eapply lseg_ext; [|apply (shape_seg _ _ _ H)]. intros p Hp. apply fupd_ne. intros ->. by apply (Hnew idx).
  - constructor; [apply Hnew|apply (shape_nodup _ _ _ H)].
  - intros p Hp. apply elem_of_cons in Hp as [->|Hp].
    + split; [lia|]. intros j Hj. by apply Hnew in Hj.
    + split; [apply (shape_fresh _ _ _ H) in Hp; lia|]. intros j Hj. by apply (shape_disj _ _ _ H j idx p).
Qed.

Lemma fupd_same {K V} `{EqDecision K} (f : K -> V) k x : fupd f k (f k) x = f x.
Proof. unfold fupd. by destruct (decide (x = k)) as [->|]. Qed.

Lemma dg_shape_ext g f f' ptrs : (forall i, f' i = f i) -> dg_shape g f ptrs -> dg_shape g f' ptrs.
Proof. intros He [Hs ? ? ?]. split; try done. intros idx. rewrite He. apply Hs. Qed.

Lemma dg_pop_rep g f idx :
  dg_rep g f -> (dg_pop g idx).1 = (spec_pop f idx).1 /\ dg_rep (dg_pop g idx).2 (spec_pop f idx).2.
Proof.
  intros [ptrs H]. pose proof (shape_seg _ _ _ H idx) as Hs. unfold dg_pop, spec_pop.
  destruct (de_next (dependGraph g idx)) as [n|] eqn:E.
  - apply lseg_some in Hs as (ps & i & l & Hps & Hl & Hi & Hseg). rewrite Hl. cbn [fst snd]. split; [done|].
    pose proof (shape_nodup _ _ _ H idx) as Hnd. rewrite Hps in Hnd. apply NoDup_cons in Hnd as [Hn Hnd].
    exists (fupd ptrs idx ps). eapply shape_update; [exact H|..]; cbn.
    + intros j Hj. by rewrite fupd_ne.
    + intros j p Hj Hp. apply fupd_ne. intros ->. apply Hj, (shape_disj _ _ _ H j idx n Hp). rewrite Hps. apply list_elem_of_here.
    + lia.
    + rewrite fupd_eq. cbn. eapply lseg_ext; [|exact Hseg]. intros p Hp. apply fupd_ne. by intros ->.
    + done.
    + intros p Hp. assert (p ∈ ptrs idx) as Hp' by (rewrite Hps; by apply list_elem_of_further).
      split; [by apply (shape_fresh _ _ _ H) in Hp'|]. intros j Hj. by apply (shape_disj _ _ _ H j idx p).
  - apply lseg_none in Hs as [_ ->]. split; [done|]. by exists ptrs.
Qed.

Lemma dg_setInst_rep g f idx i : dg_rep g f -> dg_rep (dg_setInst g idx i) f.
Proof.
  intros [ptrs H]. exists ptrs. split; try apply H. intros j. unfold dg_setInst, set_head. cbn.
  destruct (decide (j = idx)) as [->|Hj]; [rewrite fupd_eq|rewrite fupd_ne by done]; apply H.
Qed.

Lemma dg_clearInst_rep g f idx : dg_rep g f -> dg_rep (dg_clearInst g idx) f.
Proof.
  intros [ptrs H]. exists ptrs. split; try apply H. intros j. unfold dg_clearInst, set_head. cbn.
  destruct (decide (j = idx)) as [->|Hj]; [rewrite fupd_eq|rewrite fupd_ne by done]; apply H.
Qed.

Lemma dg_empty_rep g f idx : dg_rep g f -> dg_empty g idx = bool_decide (f idx = []).
Proof.
  intros [ptrs H]. pose proof (shape_seg _ _ _ H idx) as Hs. unfold dg_empty.
  destruct (de_next (dependGraph g idx)) as [n|].
  - apply lseg_some in Hs as (ps & i & l & _ & -> & _). done.
  - apply lseg_none in Hs as [_ ->]. done.
Qed.

(** ** Removal *)

(** The last node of a prefix of the list, or where the walk started. *)
Definition last_loc (prev : dep_loc) (ps : list nat) : dep_loc :=
  match last ps with Some m => AtNode m | None => prev end.

Lemma last_loc_cons prev p ps : last_loc (AtNode p) ps = last_loc prev (p :: ps).
Proof. unfold last_loc. rewrite last_cons. by destruct (last ps). Qed.

Lemma dg_find_in fuel g i prev p ps l steps :
  lseg (dg_nodes g) (Some p) ps l -> (length l <= fuel)%nat -> i ∈ l ->
  exists ps1 curr ps2 l1 l2 n, dg_find fuel g i prev p steps = Done (last_loc prev ps1, curr, n) /\
    ps = ps1 ++ curr :: ps2 /\ l = l1 ++ i :: l2 /\ length ps1 = length l1 /\ i ∉ l1.
Proof.
  revert prev p ps l steps. induction fuel as [|fuel IH]; intros prev p ps l steps Hs Hf Hi.
  - destruct l; [by apply not_elem_of_nil in Hi|cbn in Hf; lia].
  - apply lseg_some in Hs as (ps' & j & l' & -> & -> & Hj & Hs). cbn in *. rewrite Hj.
    destruct (decide (Some j = Some i)) as [[= ->]|Hne].
    + exists [], p, ps', [], l', steps. split_and!; try done. apply not_elem_of_nil.
    + apply elem_of_cons in Hi as [->|Hi]; [done|]. destruct (de_next (dg_nodes g p)) as [n|] eqn:En.
      * destruct (IH (AtNode p) n ps' l' (steps + 1) Hs ltac:(lia) Hi) as (ps1 & c & ps2 & l1 & l2 & k & -> & -> & -> & Hl & Hn).
        exists (p :: ps1), c, ps2, (j :: l1), l2, k. rewrite (last_loc_cons prev p ps1).
        split_and!; try done; [cbn; by rewrite Hl|]. apply not_elem_of_cons. split; [congruence|done].
      * apply lseg_none in Hs as [_ ->]. by apply not_elem_of_nil in Hi.
Qed.

Lemma dg_find_notin fuel g i prev p ps l steps :
  lseg (dg_nodes g) (Some p) ps l -> (length l <= fuel)%nat -> i ∉ l -> dg_find fuel g i prev p steps = Panic.
Proof.
  revert prev p ps l steps. induction fuel as [|fuel IH]; intros prev p ps l steps Hs Hf Hi;
    apply lseg_some in Hs as (ps' & j & l' & -> & -> & Hj & Hs); [cbn in Hf; lia|]. cbn in *. rewrite Hj.
  apply not_elem_of_cons in Hi as [Hne Hi]. rewrite decide_False by congruence.
  destruct (de_next (dg_nodes g p)) as [n|]; [|done]. apply (IH _ _ ps' l'); [done|lia|done].
Qed.

Lemma lseg_splice nodes start q1 m c ps2 k1 im ic l2 :
  lseg nodes start (q1 ++ m :: c :: ps2) (k1 ++ im :: ic :: l2) -> length q1 = length k1 ->
  NoDup (q1 ++ m :: c :: ps2) ->
  lseg (fupd nodes m (DepEntry (de_inst (nodes m)) (de_next (nodes c)))) start (q1 ++ m :: ps2) (k1 ++ im :: l2).
Proof.
  revert start k1. induction q1 as [|q q1 IH]; intros start [|k k1] Hs Hl Hnd; try done.
  - cbn in *. destruct Hs as (-> & Hm & Hs). split; [done|]. rewrite fupd_eq. cbn. split; [done|].
    destruct Hs as (_ & _ & Hs). apply NoDup_cons in Hnd as [Hm' _].
    eapply lseg_ext; [|exact Hs]. intros p Hp. apply fupd_ne. intros ->. apply Hm'. by apply list_elem_of_further.
  - cbn in *. destruct Hs as (-> & Hq & Hs). apply NoDup_cons in Hnd as [Hq' Hnd].
    assert (q <> m) by (intros ->; apply Hq'; apply elem_of_app; right; apply list_elem_of_here).
    rewrite fupd_ne by done. split_and!; [done..|]. apply IH; [done|lia|done].
Qed.

Lemma lseg_tail nodes start ps1 c ps2 l1 i l2 :
  lseg nodes start (ps1 ++ c :: ps2) (l1 ++ i :: l2) -> length ps1 = length l1 -> lseg nodes (de_next (nodes c)) ps2 l2.
Proof.
  revert start l1. induction ps1 as [|p ps1 IH]; intros start [|j l1] Hs Hl; try done; cbn in *.
  - by destruct Hs as (_ & _ & ?).
  - destruct Hs as (_ & _ & Hs). eapply IH; [exact Hs|lia].
Qed.

Lemma remove_first_split i l1 l2 : i ∉ l1 -> remove_first i (l1 ++ i :: l2) = l1 ++ l2.
Proof.
  induction l1 as [|j l1 IH]; intros Hn; cbn; [by rewrite decide_True|].
  apply not_elem_of_cons in Hn as [Hne Hn]. rewrite decide_False by congruence. by rewrite IH.
Qed.

(** The list of a register with one node unlinked; [head] and [nodes] are the parts of
    the graph after the unlink. *)
Lemma unlink_seg g f ptrs idx ps1 c ps2 l1 i l2 :
  dg_shape g f ptrs -> ptrs idx = ps1 ++ c :: ps2 -> f idx = l1 ++ i :: l2 -> length ps1 = length l1 ->
  let after := de_next (dg_nodes g c) in
  let g1 := match last_loc AtHead ps1 with
            | AtHead => set_head g idx (DepEntry (de_inst (dependGraph g idx)) after)
            | AtNode m => set_node g m (DepEntry (de_inst (dg_nodes g m)) after)
            end in
  lseg (dg_nodes g1) (de_next (dependGraph g1 idx)) (ps1 ++ ps2) (l1 ++ l2) /\
  (forall j, j <> idx -> dependGraph g1 j = dependGraph g j) /\
  (forall p, p ∉ ps1 -> dg_nodes g1 p = dg_nodes g p) /\ dg_fresh g1 = dg_fresh g.
Proof.
  intros H Hps Hl Hlen. cbn zeta. pose proof (shape_seg _ _ _ H idx) as Hs. pose proof (shape_nodup _ _ _ H idx) as Hnd.
  rewrite Hps, Hl in *. destruct ps1 as [|m ps1 _] using rev_ind.
  - destruct l1; [|done]. cbn. rewrite fupd_eq. cbn. split; [|split_and!; try done; intros; by rewrite fupd_ne].
    by destruct Hs as (_ & _ & ?).
  - unfold last_loc. rewrite last_snoc. rewrite length_app in Hlen. cbn in Hlen.
    destruct l1 as [|im k1 _] using rev_ind; [cbn in Hlen; lia|]. rewrite length_app in Hlen. cbn in Hlen.
    rewrite <- !app_assoc in *. cbn in *. split.
    + apply (lseg_splice _ _ ps1 m c ps2 k1 im i l2); [done|lia|done].
    + split_and!; try done. intros p Hp. apply fupd_ne. intros ->. apply Hp. apply elem_of_app. right. apply list_elem_of_here.
Qed.

Lemma dg_remove_rep fuel g f idx i :
  dg_rep g f -> (length (f idx) <= fuel)%nat ->
  match spec_exec f (DRemove idx i) with
  | Done (_, f') => exists g', dg_remove fuel g idx i = Done g' /\ dg_rep g' f'
  | _ => dg_remove fuel g idx i = Panic
  end.
Proof.
  intros [ptrs H] Hf. pose proof (shape_seg _ _ _ H idx) as Hs. cbn [spec_exec]. unfold dg_remove.
  destruct (de_next (dependGraph g idx)) as [n|] eqn:E.
  2:{ apply lseg_none in Hs as [_ ->]. cbn. exists g. split; [done|]. by exists ptrs. }
  rewrite decide_False. 2:{ apply lseg_some in Hs as (? & ? & ? & _ & -> & _). done. }
  destruct (decide (i ∈ f idx)) as [Hi|Hi]; [|by rewrite (dg_find_notin fuel g i AtHead n (ptrs idx) (f idx) 0)].
  destruct (dg_find_in fuel g i AtHead n (ptrs idx) (f idx) 0 Hs Hf Hi) as (ps1 & c & ps2 & l1 & l2 & k & -> & Hps & Hl & Hlen & Hni).
  eexists. split; [reflexivity|].
  destruct (unlink_seg g f ptrs idx ps1 c ps2 l1 i l2 H Hps Hl Hlen) as (Hseg & Hh & Hm & Hfr). cbn zeta in *.
  set (g1 := match last_loc AtHead ps1 with AtHead => _ | AtNode m => _ end) in *.
  pose proof (shape_nodup _ _ _ H idx) as Hnd. rewrite Hps in Hnd.
  pose proof Hnd as Hnd'. rewrite <- Permutation_middle in Hnd'. apply NoDup_cons in Hnd' as [Hc Hnd'].
  exists (fupd ptrs idx (ps1 ++ ps2)). rewrite Hl, remove_first_split by done.
  assert (Hin : forall p, p ∈ ps1 ++ ps2 -> p ∈ ptrs idx).
  { intros p. rewrite Hps, !elem_of_app, elem_of_cons. tauto. }
  assert (Hcin : c ∈ ptrs idx) by (rewrite Hps; apply elem_of_app; right; apply list_elem_of_here).
  eapply shape_update; [exact H|..]; cbn.
  - apply Hh.
  - intros j p Hj Hp. rewrite fupd_ne.
    + apply Hm. intros Hp1. apply Hj. apply (shape_disj _ _ _ H j idx p Hp). apply Hin, elem_of_app. by left.
    + intros ->. apply Hj. by apply (shape_disj _ _ _ H j idx c).
  - rewrite Hfr. done.
  - eapply lseg_ext; [|exact Hseg]. intros p Hp. apply fupd_ne. by intros ->.
  - done.
  - intros p Hp. apply Hin in Hp. rewrite Hfr. split; [by apply (shape_fresh _ _ _ H) in Hp|].
    intros j Hj. by apply (shape_disj _ _ _ H j idx p).
Qed.

(** ** Runs *)

Lemma remove_first_length i l : (length (remove_first i l) <= length l)%nat.
Proof. induction l as [|j l IH]; cbn; [done|]. case_decide; cbn; lia. Qed.

Lemma spec_exec_length f o v f' idx :
  spec_exec f o = Done (v, f') -> (length (f' idx) <= S (length (f idx)))%nat.
Proof.
  destruct o as [j i|j|j i|j i|j]; cbn; intros H; try (by injection H as _ <-; lia).
  - injection H as _ <-. unfold fupd. case_decide; subst; cbn; lia.
  - unfold spec_pop in H. destruct (f j) as [|k l] eqn:E; injection H as _ <-; [lia|].
    unfold fupd. case_decide; subst; rewrite ?E; cbn; lia.
  - repeat case_decide; simplify_eq; [lia|]. unfold fupd. case_decide; subst; [|lia].
    pose proof (remove_first_length i (f j)). lia.
Qed.

Lemma dep_exec_rep fuel g f o :
  dg_rep g f -> (forall idx, length (f idx) <= fuel)%nat ->
  match spec_exec f o with
  | Done (v, f') => exists g', dep_exec fuel g o = Done (v, g') /\ dg_rep g' f'
  | _ => dep_exec fuel g o = Panic
  end.
Proof.
  intros H Hf. destruct o as [idx i|idx|idx i|idx i|idx]; cbn [spec_exec dep_exec].
  - eexists. split; [done|]. by apply dg_insert_rep.
  - destruct (dg_pop_rep g f idx H) as [H1 H2]. destruct (dg_pop g idx) as [v g'], (spec_pop f idx) as [v' f'].
    cbn in *. subst v'. by exists g'.
  - pose proof (dg_remove_rep fuel g f idx i H (Hf idx)) as Hr. cbn [spec_exec] in Hr.
    destruct (decide (f idx = [])); [destruct Hr as (g' & -> & ?); by exists g'|].
    destruct (decide (i ∈ f idx)); [destruct Hr as (g' & -> & ?); by exists g'|]. by rewrite Hr.
  - eexists. split; [done|]. by apply dg_setInst_rep.
  - eexists. split; [done|]. by apply dg_clearInst_rep.
Qed.

Lemma dep_run_rep fuel l g f :
  dg_rep g f -> (forall idx, length (f idx) + length l <= fuel)%nat ->
  let c := dep_run (dep_exec fuel) g l in
  let a := dep_run spec_exec f l in
  c.1 = a.1 /\ match a.2 with
               | Done f' => exists g', c.2 = Done g' /\ dg_rep g' f'
               | _ => c.2 = Panic
               end.
Proof.
  revert g f. induction l as [|o l IH]; intros g f Hg Hf; cbn [dep_run fst snd].
  - split; [done|]. by exists g.
  - pose proof (dep_exec_rep fuel g f o Hg ltac:(intros idx; specialize (Hf idx); lia)) as Hs.
    destruct (spec_exec f o) as [[v f']| |] eqn:E; [|by rewrite Hs|by rewrite Hs].
    destruct Hs as (g' & -> & Hg'). cbn [fst snd].
    destruct (IH g' f' Hg') as [H1 H2].
    { intros idx. specialize (Hf idx). pose proof (spec_exec_length f o v f' idx E). cbn in Hf. lia. }
    split; [by rewrite H1|exact H2].
Qed.

(** * Theorems *)

(** C35 The linked dependency graph implements a list of waiting instructions per register:
    on every sequence of insertions, pops, removals and producer updates from the empty
    graph, the popped instructions are those of the lists (the newest first), a removal
    trips its assertion exactly when the register has waiters but not the one to remove,
    the pointer walks end, and the graph still represents the lists. *)
Theorem dep_graph_refines fuel l :
  (length l <= fuel)%nat ->
  let c := dep_run (dep_exec fuel) dg_init l in
  let a := dep_run spec_exec (fun _ => []) l in
  c.1 = a.1 /\ match a.2 with
               | Done f => exists g, c.2 = Done g /\ dg_rep g f
               | _ => c.2 = Panic
               end.
Proof. intros Hf. apply dep_run_rep; [apply dg_rep_init|]. intros idx. cbn. lia. Qed.

Lemma dep_graph_refines_witness :
  let l := [DInsert 3 10; DInsert 3 11; DInsert 4 11; DRemove 3 10; DPop 3; DPop 3; DRemove 4 10] in
  (dep_run (dep_exec 9) dg_init l).1 = [None; None; None; None; Some 11%nat; None] /\
  (dep_run (dep_exec 9) dg_init l).1 = (dep_run spec_exec (fun _ => []) l).1 /\
  (dep_run (dep_exec 9) dg_init l).2 = Panic.
Proof.
  intros l. split; [by vm_compute|]. exact (dep_graph_refines 9 l ltac:(cbn; lia)).
Defined.
