(* ===== verification/FUPool.v ===== *)
(** * The pool of functional units

    [FUPool] (cpu/o3/fu_pool.cc): the constructor that builds the circular queues of units
    per operation class, [getUnit], [freeUnitNextCycle] and [processFreeUnits].  The theorem
    describes [getUnit] in every state the pool can reach: it returns the next free unit in
    circular order, reports a busy or an incapable pool exactly when it is one, and its
    search ends. *)

From Stdlib Require Import ZArith Lia.
From stdpp Require Import base sets numbers list strings.
From S2P Require Import Prelude EventQueue.

Open Scope Z_scope.

Record OpDesc := MkOpDesc { od_class : Z; od_lat : Z; od_pipelined : bool }.
Record FUDesc := MkFUDesc { opDescList : list OpDesc; fd_number : nat }.

(** [FUIdxQueue]; [idx] and [size] are never negative. *)
Record FUIdxQueue := FUQ { fq_idx : nat; fq_size : nat; funcUnitsIdx : list nat }.

Definition addFU (q : FUIdxQueue) (fu : nat) : FUIdxQueue :=
  FUQ (fq_idx q) (S (fq_size q)) (funcUnitsIdx q ++ [fu]).

(** [None] is an access outside the vector. *)
Definition getFU (q : FUIdxQueue) : option (nat * FUIdxQueue) :=
  match funcUnitsIdx q !! fq_idx q with
  | None => None
  | Some fu => Some (fu, FUQ (if decide (S (fq_idx q) = fq_size q) then 0%nat else S (fq_idx q))
                             (fq_size q) (funcUnitsIdx q))
  end.

Record fu_pool := FuPool {
  maxOpLatencies : Z -> Z; pipelined : Z -> bool;
  capabilityList : Z -> bool;
  unitBusy : list bool; unitsToBeFreed : list nat;
  fuPerCapList : Z -> FUIdxQueue;
  numFU : nat
}.

Definition pool_init : fu_pool :=
  FuPool (fun _ => 0) (fun _ => true) (fun _ => false) [] [] (fun _ => FUQ 0 0 []) 0.

(** One [OpDesc] of a unit description with [n] copies. *)
Definition add_op (n : nat) (p : fu_pool) (d : OpDesc) : fu_pool :=
  let c := od_class d in
  FuPool (if maxOpLatencies p c <? od_lat d then fupd (maxOpLatencies p) c (od_lat d) else maxOpLatencies p)
    (if od_pipelined d then pipelined p else fupd (pipelined p) c false)
    (fupd (capabilityList p) c true)
    (unitBusy p) (unitsToBeFreed p)
    (fupd (fuPerCapList p) c (foldl addFU (fuPerCapList p c) (seq (numFU p) n)))
    (numFU p).

Definition add_units (p : fu_pool) (n : nat) : fu_pool :=
  FuPool (maxOpLatencies p) (pipelined p) (capabilityList p) (unitBusy p) (unitsToBeFreed p) (fuPerCapList p)
    (numFU p + n).

Definition add_desc (p : fu_pool) (d : FUDesc) : fu_pool :=
  if decide (fd_number d = 0%nat) then p
  else add_units (foldl (add_op (fd_number d)) p (opDescList d)) (fd_number d).

(** The constructor. *)
Definition mk_pool (ds : list FUDesc) : fu_pool :=
  let p := foldl add_desc pool_init ds in
  FuPool (maxOpLatencies p) (pipelined p) (capabilityList p) (replicate (numFU p) false) (unitsToBeFreed p)
    (fuPerCapList p) (numFU p).

Definition set_busy (p : fu_pool) (fu : nat) (b : bool) : fu_pool :=
  FuPool (maxOpLatencies p) (pipelined p) (capabilityList p) (<[fu := b]> (unitBusy p)) (unitsToBeFreed p)
    (fuPerCapList p) (numFU p).

Definition set_queue (p : fu_pool) (c : Z) (q : FUIdxQueue) : fu_pool :=
  FuPool (maxOpLatencies p) (pipelined p) (capabilityList p) (unitBusy p) (unitsToBeFreed p)
    (fupd (fuPerCapList p) c q) (numFU p).

Definition set_freed (p : fu_pool) (l : list nat) : fu_pool :=
  FuPool (maxOpLatencies p) (pipelined p) (capabilityList p) (unitBusy p) l (fuPerCapList p) (numFU p).

(** What [getUnit] returns: -2, -1 or the index of a unit. *)
Inductive fu_answer := NoCapableFU | NoFreeFU | Unit (fu : nat).

(** [while (unitBusy[fu_idx]) { fu_idx = getFU(); if (fu_idx == start_idx) return NoFreeFU; }] *)
Fixpoint unit_loop (fuel : nat) (busy : list bool) (q : FUIdxQueue) (start fu : nat) : result (fu_answer * FUIdxQueue) :=
  match busy !! fu with
  | None => Panic
  | Some false => Done (Unit fu, q)
  | Some true =>
      match fuel with
      | O => NoFuel
      | S fuel' =>
          match getFU q with
          | None => Panic
          | Some (fu', q') =>
              if decide (fu' = start) then Done (NoFreeFU, q') else unit_loop fuel' busy q' start fu'
          end
      end
  end.

Definition getUnit (fuel : nat) (p : fu_pool) (c : Z) : result (fu_answer * fu_pool) :=
  if negb (capabilityList p c) then Done (NoCapableFU, p)
  else
    match getFU (fuPerCapList p c) with
    | None => Panic
    | Some (fu, q) =>
        match unit_loop fuel (unitBusy p) q fu fu with
        | Done (Unit u, q') =>
            if decide (u < numFU p)%nat then Done (Unit u, set_busy (set_queue p c q') u true) else Panic
        | Done (a, q') => Done (a, set_queue p c q')
        | Panic => Panic
        | NoFuel => NoFuel
        end
    end.

Definition freeUnitNextCycle (p : fu_pool) (fu : nat) : result fu_pool :=
  match unitBusy p !! fu with
  | Some true => Done (set_freed p (unitsToBeFreed p ++ [fu]))
  | _ => Panic
  end.

(** [processFreeUnits], over the units from the back of the list. *)
Fixpoint free_units (busy : list bool) (l : list nat) : result (list bool) :=
  match l with
  | [] => Done busy
  | fu :: l' => match busy !! fu with
                | Some true => free_units (<[fu := false]> busy) l'
                | _ => Panic
                end
  end.

Definition processFreeUnits (p : fu_pool) : result fu_pool :=
  match free_units (unitBusy p) (rev (unitsToBeFreed p)) with
  | Done busy =>
      Done (FuPool (maxOpLatencies p) (pipelined p) (capabilityList p) busy [] (fuPerCapList p) (numFU p))
  | Panic => Panic
  | NoFuel => NoFuel
  end.

(** ** The states of a pool *)

(** A description that names no operation class twice, as every shipped one. *)
Definition distinct_ops (d : FUDesc) : Prop := NoDup (map od_class (opDescList d)).

(** The states a pool built from [ds] goes through. *)
Inductive pool_reach (ds : list FUDesc) : fu_pool -> Prop :=
| reach_new : pool_reach ds (mk_pool ds)
| reach_get p fuel c a p' : pool_reach ds p -> getUnit fuel p c = Done (a, p') -> pool_reach ds p'
| reach_free p fu p' : pool_reach ds p -> freeUnitNextCycle p fu = Done p' -> pool_reach ds p'
| reach_process p p' : pool_reach ds p -> processFreeUnits p = Done p' -> pool_reach ds p'.

(** The units of class [c], by the descriptions: [n0] units come before. *)
Fixpoint units_of (c : Z) (n0 : nat) (ds : list FUDesc) : list nat :=
  match ds with
  | [] => []
  | d :: ds' =>
      (if decide (c ∈ map od_class (opDescList d)) then seq n0 (fd_number d) else []) ++
      units_of c (n0 + fd_number d) ds'
  end.

(** The unit [j] places after the cursor. *)
Definition unit_at (q : FUIdxQueue) (j : nat) : nat :=
  funcUnitsIdx q !!! ((fq_idx q + j) mod fq_size q)%nat.

Definition busy_at (p : fu_pool) (u : nat) : Prop := unitBusy p !! u = Some true.
Definition free_at (p : fu_pool) (u : nat) : Prop := unitBusy p !! u = Some false.

Definition moved (q : FUIdxQueue) (j : nat) : FUIdxQueue :=
  FUQ ((fq_idx q + j) mod fq_size q)%nat (fq_size q) (funcUnitsIdx q).

(** What the documentation of [getUnit] promises, of its answer in state [p]. *)
Definition getUnit_spec (ds : list FUDesc) (c : Z) (p : fu_pool) (r : result (fu_answer * fu_pool)) : Prop :=
  let q := fuPerCapList p c in
  match r with
  | Done (NoCapableFU, p') => units_of c 0 ds = [] /\ p' = p
  | Done (NoFreeFU, p') =>
      units_of c 0 ds <> [] /\ (forall u, u ∈ units_of c 0 ds -> busy_at p u) /\
      p' = set_queue p c (moved q 1)
  | Done (Unit u, p') =>
      u ∈ units_of c 0 ds /\ free_at p u /\ busy_at p' u /\
      exists j, (j < fq_size q)%nat /\ u = unit_at q j /\
        (forall i, (i < j)%nat -> busy_at p (unit_at q i)) /\
        p' = set_busy (set_queue p c (moved q (S j))) u true
  | _ => False
  end.

(** * Lemmas *)

(** ** The circular queues *)

Definition fq_ok (q : FUIdxQueue) : Prop :=
  NoDup (funcUnitsIdx q) /\ fq_size q = length (funcUnitsIdx q) /\ (fq_size q <> 0%nat -> (fq_idx q < fq_size q)%nat).

Lemma getFU_ok q : fq_ok q -> fq_size q <> 0%nat -> getFU q = Some (unit_at q 0, moved q 1).
Proof.
  intros (_ & Hsz & Hidx) Hne. specialize (Hidx Hne). unfold getFU, unit_at, moved.
  rewrite Nat.add_0_r, (Nat.mod_small (fq_idx q)) by done.
  destruct (lookup_lt_is_Some_2 (funcUnitsIdx q) (fq_idx q)) as [u Hu]; [lia|].
  rewrite Hu, (list_lookup_total_correct _ _ _ Hu). do 3 f_equal.
  case_decide as H.
  - by rewrite Nat.add_1_r, H, Nat.Div0.mod_same.
  - rewrite Nat.add_1_r, Nat.mod_small; lia.
Qed.

Lemma moved_ok q j : fq_ok q -> fq_ok (moved q j).
Proof.
  intros (Hnd & Hsz & _). split_and!; [done|done|]. cbn. intros. by apply Nat.mod_upper_bound.
Qed.

Lemma moved_moved q i j : moved (moved q i) j = moved q (i + j).
Proof. unfold moved. cbn. f_equal. rewrite Nat.Div0.add_mod_idemp_l. f_equal. lia. Qed.

Lemma unit_at_moved q i j : unit_at (moved q i) j = unit_at q (i + j).
Proof. unfold unit_at, moved. cbn. f_equal. rewrite Nat.Div0.add_mod_idemp_l. f_equal. lia. Qed.

Lemma unit_at_in q j : fq_ok q -> fq_size q <> 0%nat -> unit_at q j ∈ funcUnitsIdx q.
Proof.
  intros (_ & Hsz & _) Hne. unfold unit_at. apply list_elem_of_lookup_total_2.
  rewrite <- Hsz. by apply Nat.mod_upper_bound.
Qed.

Lemma mod_wrap (a i n : nat) :
  (a < n)%nat -> (i < n)%nat -> ((a + i) mod n)%nat = if decide (a + i < n)%nat then (a + i)%nat else (a + i - n)%nat.
Proof.
  intros. case_decide; [by apply Nat.mod_small|].
  replace (a + i)%nat with (a + i - n + 1 * n)%nat at 1 by lia.
  rewrite Nat.Div0.mod_add. apply Nat.mod_small. lia.
Qed.

(** The places after the cursor are distinct up to one turn, and cover the queue. *)
Lemma unit_at_inj q i j :
  fq_ok q -> (i < fq_size q)%nat -> (j < fq_size q)%nat -> unit_at q i = unit_at q j -> i = j.
Proof.
  intros (Hnd & Hsz & Hidx) Hi Hj H. specialize (Hidx ltac:(lia)). unfold unit_at in H.
  assert (forall k, (fq_idx q + k) mod fq_size q < length (funcUnitsIdx q))%nat as Hlt.
  { intros. rewrite <- Hsz. apply Nat.mod_upper_bound. lia. }
  assert ((fq_idx q + i) mod fq_size q = (fq_idx q + j) mod fq_size q)%nat as E.
  { eapply NoDup_lookup; [exact Hnd| |]; [apply list_lookup_lookup_total_lt; apply Hlt|].
    rewrite H. apply list_lookup_lookup_total_lt, Hlt. }
  rewrite !mod_wrap in E by done. repeat case_decide; lia.
Qed.

Lemma unit_at_turn q i : fq_size q <> 0%nat -> unit_at q (fq_size q + i) = unit_at q i.
Proof.
  intros. unfold unit_at. f_equal.
  replace (fq_idx q + (fq_size q + i))%nat with (fq_idx q + i + 1 * fq_size q)%nat by lia.
  apply Nat.Div0.mod_add.
Qed.

Lemma moved_turn q : moved q (S (fq_size q)) = moved q 1.
Proof.
  unfold moved. f_equal.
  replace (fq_idx q + S (fq_size q))%nat with (fq_idx q + 1 + 1 * fq_size q)%nat by lia.
  apply Nat.Div0.mod_add.
Qed.

Lemma unit_at_surj q u : fq_ok q -> u ∈ funcUnitsIdx q -> exists j, (j < fq_size q)%nat /\ unit_at q j = u.
Proof.
  intros (Hnd & Hsz & Hidx) [k Hk]%list_elem_of_lookup.
  pose proof (lookup_lt_Some _ _ _ Hk). specialize (Hidx ltac:(lia)).
  exists ((k + (fq_size q - fq_idx q)) mod fq_size q)%nat. split; [apply Nat.mod_upper_bound; lia|].
  unfold unit_at. rewrite Nat.Div0.add_mod_idemp_r.
  replace (fq_idx q + (k + (fq_size q - fq_idx q)))%nat with (k + 1 * fq_size q)%nat by lia.
  rewrite Nat.Div0.mod_add, Nat.mod_small by lia. by apply list_lookup_total_correct.
Qed.

(** ** The search *)

(** From place [j] on, all units before being busy, the loop finds the first free unit. *)
Lemma unit_loop_spec busy q m : fq_ok q -> fq_size q <> 0%nat ->
  (forall u, u ∈ funcUnitsIdx q -> is_Some (busy !! u)) ->
  forall j fuel, (j + m)%nat = fq_size q -> (0 < m <= fuel)%nat ->
  (forall i, (i < j)%nat -> busy !! unit_at q i = Some true) ->
  (exists k, (k < fq_size q)%nat /\ busy !! unit_at q k = Some false /\
     (forall i, (i < k)%nat -> busy !! unit_at q i = Some true) /\
     unit_loop fuel busy (moved q (S j)) (unit_at q 0) (unit_at q j) = Done (Unit (unit_at q k), moved q (S k))) \/
  ((forall i, (i < fq_size q)%nat -> busy !! unit_at q i = Some true) /\
     unit_loop fuel busy (moved q (S j)) (unit_at q 0) (unit_at q j) = Done (NoFreeFU, moved q 1)).
Proof.
  intros Hok Hne Hb. induction m as [|m IH]; intros j fuel Hjm Hf Hpre; [lia|].
  destruct (Hb (unit_at q j)) as [b Hj]; [by apply unit_at_in|].
  destruct fuel as [|fuel]; [lia|]. cbn [unit_loop]. rewrite Hj. destruct b.
  2:{ left. exists j. split_and!; [lia|done|done|done]. }
  rewrite (getFU_ok (moved q (S j))) by (done || by apply moved_ok).
  rewrite unit_at_moved, moved_moved, Nat.add_0_r, Nat.add_1_r.
  assert (forall i, (i < S j)%nat -> busy !! unit_at q i = Some true) as Hpre'.
  { intros i Hi. destruct (decide (i = j)) as [->|]; [done|]. apply Hpre. lia. }
  destruct (decide (m = 0)%nat) as [->|Hm].
  - assert (S j = fq_size q) as Ej by lia. right. split; [intros; apply Hpre'; lia|].
    pose proof (unit_at_turn q 0 Hne) as Et. rewrite Nat.add_0_r in Et.
    by rewrite Ej, Et, decide_True, moved_turn.
  - rewrite decide_False.
    2:{ intros E. apply unit_at_inj in E; [lia|done|lia|lia]. }
    apply IH; [lia|lia|done].
Qed.

(** ** The invariant of a pool *)

(** The queues hold the units the descriptions name, and every unit has its busy bit. *)
Definition pool_ok (ds : list FUDesc) (p : fu_pool) : Prop :=
  length (unitBusy p) = numFU p /\
  forall c, let q := fuPerCapList p c in
    fq_ok q /\ funcUnitsIdx q = units_of c 0 ds /\
    (capabilityList p c = true <-> units_of c 0 ds <> []) /\
    Forall (fun u => (u < numFU p)%nat) (funcUnitsIdx q).

(** The part of the constructor that adds descriptions. *)
Definition build_ok (ds : list FUDesc) (p : fu_pool) : Prop :=
  numFU p = sum_list (map fd_number ds) /\
  forall c, let q := fuPerCapList p c in
    fq_idx q = 0%nat /\ fq_size q = length (funcUnitsIdx q) /\ funcUnitsIdx q = units_of c 0 ds /\
    (capabilityList p c = true <-> units_of c 0 ds <> []).

Lemma units_of_app c n ds d :
  units_of c n (ds ++ [d]) =
  units_of c n ds ++ (if decide (c ∈ map od_class (opDescList d))
                      then seq (n + sum_list (map fd_number ds)) (fd_number d) else []).
Proof.
  revert n. induction ds as [|d' ds IH]; intros n; cbn.
  - by rewrite Nat.add_0_r, app_nil_r.
  - by rewrite IH, <- app_assoc, Nat.add_assoc.
Qed.

Lemma foldl_addFU l q :
  foldl addFU q l = FUQ (fq_idx q) (length l + fq_size q) (funcUnitsIdx q ++ l).
Proof.
  revert q. induction l as [|u l IH]; intros q; cbn.
  - rewrite app_nil_r. by destruct q.
  - rewrite IH. cbn. rewrite <- app_assoc. f_equal. lia.
Qed.

Lemma foldl_add_op n l p : NoDup (map od_class l) ->
  let p' := foldl (add_op n) p l in
  numFU p' = numFU p /\ unitsToBeFreed p' = unitsToBeFreed p /\
  forall c, let added := if decide (c ∈ map od_class l) then seq (numFU p) n else [] in
    fuPerCapList p' c = FUQ (fq_idx (fuPerCapList p c)) (length added + fq_size (fuPerCapList p c))
                            (funcUnitsIdx (fuPerCapList p c) ++ added) /\
    capabilityList p' c = capabilityList p c || bool_decide (c ∈ map od_class l).
Proof.
  revert p. induction l as [|d l IH]; intros p Hnd; cbn.
  - split_and!; [done|done|]. intros c. rewrite decide_False by apply not_elem_of_nil.
    rewrite app_nil_r, orb_false_r. by destruct (fuPerCapList p c).
  - apply NoDup_cons in Hnd as [Hd Hnd]. destruct (IH (add_op n p d) Hnd) as (Hn & Hf & Hc).
    split_and!; [done|done|]. intros c. destruct (Hc c) as [-> ->]. cbn. unfold fupd.
    destruct (decide (c = od_class d)) as [->|Hne].
    + rewrite (decide_False (P := od_class d ∈ map od_class l)), decide_True by (done || set_solver).
      rewrite foldl_addFU. cbn. rewrite app_nil_r. split; [done|].
      rewrite (bool_decide_eq_true_2 (od_class d ∈ _ :: _)), orb_true_r by set_solver. done.
    + assert (c ∈ map od_class l <-> c ∈ od_class d :: map od_class l) as E by set_solver.
      rewrite <- (bool_decide_ext _ _ E). split; [|done].
      repeat case_decide; try done; by exfalso; apply E in H || (rewrite E in *).
Qed.

Lemma add_desc_ok ds d p : distinct_ops d -> build_ok ds p -> build_ok (ds ++ [d]) (add_desc p d).
Proof.
  intros Hd (Hn & Hc). unfold add_desc, build_ok. rewrite map_app, sum_list_with_app. cbn. case_decide as H0.
  - rewrite H0. split; [lia|]. intros c. rewrite units_of_app, H0. cbn.
    replace (if decide _ then [] else []) with (@nil nat) by (by case_decide). rewrite app_nil_r. apply Hc.
  - destruct (foldl_add_op (fd_number d) (opDescList d) p Hd) as (Hn' & _ & Hc').
    unfold add_units. cbn. split; [lia|]. intros c. destruct (Hc' c) as [-> ->]. cbn.
    destruct (Hc c) as (-> & -> & -> & Hcap). rewrite units_of_app, Hn. split_and!; [done| |done|].
    + rewrite length_app. lia.
    + rewrite orb_true_iff, bool_decide_eq_true, Hcap. case_decide as Hin; cbn.
      * destruct (fd_number d); [lia|]. split; [|tauto]. intros _ E%app_eq_nil. by destruct E.
      * rewrite app_nil_r. tauto.
Qed.

Lemma foldl_add_desc_ok ds : Forall distinct_ops ds -> build_ok ds (foldl add_desc pool_init ds).
Proof.
  induction ds as [|d ds IH] using rev_ind; intros Hd.
  - split; [done|]. intros c. cbn. split_and!; try done.
  - apply Forall_app in Hd as [Hds Hd]. rewrite foldl_app. cbn.
    apply add_desc_ok; [by inversion Hd|by apply IH].
Qed.

Lemma units_of_range c n ds u : u ∈ units_of c n ds -> (n <= u < n + sum_list (map fd_number ds))%nat.
Proof.
  revert n. induction ds as [|d ds IH]; intros n; cbn; [by intros ?%not_elem_of_nil|].
  rewrite elem_of_app. intros [H|H].
  - case_decide; [|by apply not_elem_of_nil in H]. apply elem_of_seq in H. lia.
  - apply IH in H. lia.
Qed.

Lemma units_of_NoDup c n ds : NoDup (units_of c n ds).
Proof.
  revert n. induction ds as [|d ds IH]; intros n; cbn; [constructor|].
  apply NoDup_app. split_and!; [|intros u H1 H2|apply IH].
  - case_decide; [apply NoDup_seq|constructor].
  - apply units_of_range in H2. case_decide; [|by apply not_elem_of_nil in H1].
    apply elem_of_seq in H1. lia.
Qed.

Lemma mk_pool_ok ds : Forall distinct_ops ds -> pool_ok ds (mk_pool ds).
Proof.
  intros Hd. destruct (foldl_add_desc_ok ds Hd) as (Hn & Hc). split; [apply length_replicate|].
  intros c. cbn. destruct (Hc c) as (Hi & Hs & Hu & Hcap). split_and!; [|done|done|].
  - unfold fq_ok. rewrite Hi, Hs, Hu. split_and!; [apply units_of_NoDup|done|lia].
  - rewrite Hu, Hn, Forall_forall. intros u Hin. apply units_of_range in Hin. lia.
Qed.

Lemma set_queue_ok ds p c j : pool_ok ds p -> pool_ok ds (set_queue p c (moved (fuPerCapList p c) j)).
Proof.
  intros [Hl Hc]. split; [done|]. intros c'. cbn. unfold fupd. destruct (decide (c' = c)) as [->|]; [|apply Hc].
  destruct (Hc c) as (Hq & Hu & Hcap & Hb). split_and!; [by apply moved_ok|done|done|done].
Qed.

Lemma set_busy_ok ds p u b : pool_ok ds p -> pool_ok ds (set_busy p u b).
Proof. intros [Hl Hc]. split; [cbn; by rewrite length_insert|done]. Qed.

Lemma getUnit_ok ds p c fuel :
  pool_ok ds p -> (fq_size (fuPerCapList p c) <= fuel)%nat -> getUnit_spec ds c p (getUnit fuel p c).
Proof.
  intros [Hl Hc] Hf. destruct (Hc c) as (Hq & Hu & Hcap & Hb). unfold getUnit.
  destruct (capabilityList p c); cbn [negb].
  2:{ split; [|done]. destruct (units_of c 0 ds) eqn:E; [done|]. by destruct Hcap as [_ Hcap]; discriminate Hcap. }
  destruct Hcap as [Hcap _]. specialize (Hcap eq_refl). rewrite <- Hu in Hcap.
  assert (fq_size (fuPerCapList p c) <> 0%nat) as Hne.
  { destruct Hq as (_ & -> & _). by intros ?%nil_length_inv. }
  rewrite getFU_ok by done.
  assert (forall u, u ∈ funcUnitsIdx (fuPerCapList p c) -> is_Some (unitBusy p !! u)) as Hlk.
  { intros u Hin. rewrite Forall_forall in Hb. apply lookup_lt_is_Some_2. rewrite Hl. by apply Hb. }
  destruct (unit_loop_spec (unitBusy p) (fuPerCapList p c) (fq_size (fuPerCapList p c)) Hq Hne Hlk 0 fuel)
    as [(k & Hk & Hfree & Hpre & ->)|[Hall ->]]; [lia|lia|intros; lia| |].
  - pose proof (unit_at_in _ k Hq Hne) as Hin. rewrite decide_True by (rewrite Forall_forall in Hb; by apply Hb).
    cbn. rewrite <- Hu. split_and!; [done|done| |].
    + unfold busy_at. cbn. apply list_lookup_insert_eq. by eapply lookup_lt_Some.
    + exists k. split_and!; [done|done|done|done].
  - cbn. rewrite <- Hu. split_and!; [done| |done]. intros u Hin.
    destruct (unit_at_surj _ _ Hq Hin) as (j & Hj & <-). by apply Hall.
Qed.

Lemma getFU_moves q fu q' : fq_ok q -> getFU q = Some (fu, q') -> q' = moved q 1.
Proof.
  intros Hq H. destruct (decide (fq_size q = 0%nat)) as [E|E].
  - destruct Hq as (_ & Hs & _). rewrite E in Hs. symmetry in Hs. apply nil_length_inv in Hs.
    unfold getFU in H. by rewrite Hs in H.
  - rewrite getFU_ok in H by done. by simplify_eq.
Qed.

Lemma unit_loop_moves busy q start fuel fu j a q' :
  fq_ok q -> unit_loop fuel busy (moved q j) start fu = Done (a, q') -> exists k, q' = moved q k.
Proof.
  intros Hq. revert fu j. induction fuel as [|fuel IH]; intros fu j; cbn;
    (destruct (busy !! fu) as [[|]|]; [|intros [= _ <-]; by exists j|done]); [done|].
  destruct (getFU (moved q j)) as [[fu' q'']|] eqn:E; [|done].
  apply getFU_moves in E; [|by apply moved_ok]. subst q''. rewrite moved_moved.
  case_decide; [intros [= _ <-]; by eexists|apply IH].
Qed.

Lemma getUnit_keeps_ok ds p c fuel a p' :
  pool_ok ds p -> getUnit fuel p c = Done (a, p') -> pool_ok ds p'.
Proof.
  intros Hp. pose proof Hp as [_ Hc]. destruct (Hc c) as (Hq & _). unfold getUnit.
  destruct (negb _); [by intros [= _ <-]|]. destruct (getFU _) as [[fu q]|] eqn:Eg; [|done].
  apply getFU_moves in Eg as ->; [|done].
  destruct (unit_loop _ _ _ _ _) as [[[| |u] q']| |] eqn:El; try done;
    apply unit_loop_moves in El as [k ->]; try done; try case_decide; try done; intros [= _ <-];
    try apply set_busy_ok; by apply set_queue_ok.
Qed.

Lemma free_units_length busy l busy' : free_units busy l = Done busy' -> length busy' = length busy.
Proof.
  revert busy. induction l as [|u l IH]; intros busy; cbn; [by intros [= <-]|].
  destruct (busy !! u) as [[|]|]; try done. intros ->%IH. apply length_insert.
Qed.

Lemma pool_reach_ok ds p : Forall distinct_ops ds -> pool_reach ds p -> pool_ok ds p.
Proof.
  intros Hd. induction 1 as [|p fuel c a p' _ IH H|p fu p' _ [Hl Hc] H|p p' _ [Hl Hc] H].
  - by apply mk_pool_ok.
  - by eapply getUnit_keeps_ok.
  - unfold freeUnitNextCycle in H. destruct (unitBusy p !! fu) as [[|]|]; by simplify_eq.
  - unfold processFreeUnits in H. destruct (free_units _ _) eqn:E; simplify_eq. split; [|done].
    cbn. by rewrite (free_units_length _ _ _ E).
Qed.

(** * Theorem *)

(** In every state a pool can reach from its constructor, [getUnit] keeps its documented
    promise: it answers [NoCapableFU] exactly when no description names the operation class,
    [NoFreeFU] exactly when every capable unit is busy, and otherwise marks and returns a
    capable unit that was free, the first one after the cursor in circular order; no access
    is out of range, no assertion fires and one turn of the queue is enough fuel.  The
    descriptions name no class twice in one unit. *)
Theorem getUnit_keeps_promise ds p c fuel :
  Forall distinct_ops ds -> pool_reach ds p -> (length (units_of c 0 ds) <= fuel)%nat ->
  getUnit_spec ds c p (getUnit fuel p c).
Proof.
  intros Hd Hr Hf. pose proof (pool_reach_ok ds p Hd Hr) as Hp. apply getUnit_ok; [done|].
  destruct Hp as [_ Hc]. destruct (Hc c) as ((_ & -> & _) & -> & _). done.
Qed.

Definition example_descs : list FUDesc :=
  [MkFUDesc [MkOpDesc 1 1 true; MkOpDesc 2 3 true] 2; MkFUDesc [MkOpDesc 2 1 true; MkOpDesc 4 1 true] 1].

(** Two units of class 2 are taken; the third is found, at the end of the queue. *)
Definition take_unit (p : fu_pool) : fu_pool := match getUnit 3 p 2 with Done (_, p') => p' | _ => p end.
Definition example_pool : fu_pool := take_unit (take_unit (mk_pool example_descs)).

Lemma getUnit_keeps_promise_witness :
  getUnit_spec example_descs 2 example_pool (getUnit 3 example_pool 2) /\
  (exists p', getUnit 3 example_pool 2 = Done (Unit 2, p')).
Proof.
  split; [|by eexists; vm_compute].
  apply (getUnit_keeps_promise example_descs example_pool 2 3).
  - repeat constructor; cbn; set_solver.
  - apply (reach_get _ (take_unit (mk_pool example_descs)) 3 2 (Unit 1)); [|vm_compute; reflexivity].
    apply (reach_get _ (mk_pool example_descs) 3 2 (Unit 0)); [apply reach_new|vm_compute; reflexivity].
  - by vm_compute.
Defined.
