(* ===== verification/IssueQueue.v ===== *)
(** * Issue: the ready queues and their age order

    The part of [InstructionQueue] (cpu/o3/inst_queue.cc) that issues: the priority queues
    [readyInsts] per operation class, the list [listOrder] that orders the classes by the
    age of their oldest instruction, with its iterators [readyIt], and
    [scheduleReadyInsts], which walks that list while units and issue width last.  The
    theorem is the refinement of the obvious scheduler, which keeps one list of ready
    instructions in age order and offers a unit to each in turn. *)

From Stdlib Require Import ZArith Lia Sorting.Sorted.
From stdpp Require Import base sets numbers list strings sorting.
From S2P Require Import Prelude Word EventQueue FUPool.

Open Scope Z_scope.

(** ** Instructions *)

Inductive inst_kind := KInt | KFloat | KVec.

(** What never changes of a [DynInst] in the queue. *)
Record static_inst := StaticInst {
  seqNum : Z; opClass : Z; isMemRef : bool; isBarrier : bool; si_kind : inst_kind;
  si_pool : Z;                         (* inst->iq->fuPool() *)
  si_dests : list Z                    (* renamedDestIdx, by flat index *)
}.

(** The rest; registers are flat indices. *)
Record dyn_inst := DynInst {
  renamedSrc : list Z; readySrc : list bool;
  readyRegs : Z;                       (* uint8_t *)
  canIssue : bool; squashed : bool; issued : bool; inIQ : bool;
  noCapable : bool; memDone : bool; pinnedRegsWritten : bool;
  translationDone : bool;
  firstIssue : option Z; lastWake : option Z
}.

Definition set_issued (now : Z) (d : dyn_inst) : dyn_inst :=
  DynInst (renamedSrc d) (readySrc d) (readyRegs d) (canIssue d) (squashed d) true (inIQ d) (noCapable d)
    (memDone d) (pinnedRegsWritten d) (translationDone d)
    (match firstIssue d with None => Some now | Some t => Some t end) (lastWake d).

Definition clear_inIQ (d : dyn_inst) : dyn_inst :=
  DynInst (renamedSrc d) (readySrc d) (readyRegs d) (canIssue d) (squashed d) (issued d) false (noCapable d)
    (memDone d) (pinnedRegsWritten d) (translationDone d) (firstIssue d) (lastWake d).

Definition set_noCapable (d : dyn_inst) : dyn_inst :=
  DynInst (renamedSrc d) (readySrc d) (readyRegs d) (canIssue d) (squashed d) (issued d) (inIQ d) true
    (memDone d) (pinnedRegsWritten d) (translationDone d) (firstIssue d) (lastWake d).

(** ** The ready queues *)

(** [ListOrderEntry], with the identity of its list node, for the iterators. *)
Record order_entry := OrderEntry { oe_id : nat; queueType : Z; oldestInst : Z }.

Record ready_lists := ReadyLists {
  readyInsts : Z -> list nat;          (* a priority queue, its elements oldest first *)
  listOrder : list order_entry;
  queueOnList : Z -> bool;
  readyIt : Z -> option nat;           (* [None] is end() *)
  oe_fresh : nat
}.

Definition no_ready : ready_lists := ReadyLists (fun _ => []) [] (fun _ => false) (fun _ => None) 0.

Section Lists.
Context (code : nat -> static_inst).

Fixpoint pq_push (i : nat) (l : list nat) : list nat :=
  match l with
  | [] => [i]
  | j :: l' => if seqNum (code i) <? seqNum (code j) then i :: l else j :: pq_push i l'
  end.

(** [listOrder.insert(it, entry)], [it] being the first entry that stops the walk. *)
Fixpoint order_insert (stop : order_entry -> bool) (e : order_entry) (l : list order_entry) : list order_entry :=
  match l with
  | [] => [e]
  | x :: l' => if stop x then e :: l else x :: order_insert stop e l'
  end.

Definition addToOrderList (rl : ready_lists) (op : Z) : result ready_lists :=
  match readyInsts rl op with
  | [] => Panic
  | top :: _ =>
      let e := OrderEntry (oe_fresh rl) op (seqNum (code top)) in
      Done (ReadyLists (readyInsts rl) (order_insert (fun x => oldestInst e <? oldestInst x) e (listOrder rl))
              (fupd (queueOnList rl) op true) (fupd (readyIt rl) op (Some (oe_id e))) (S (oe_fresh rl)))
  end.

Definition find_entry (n : nat) (l : list order_entry) : option order_entry :=
  snd <$> list_find (fun e => oe_id e = n) l.

Definition set_order (rl : ready_lists) (l : list order_entry) : ready_lists :=
  ReadyLists (readyInsts rl) l (queueOnList rl) (readyIt rl) (oe_fresh rl).

Definition set_ready (rl : ready_lists) (op : Z) (l : list nat) : ready_lists :=
  ReadyLists (fupd (readyInsts rl) op l) (listOrder rl) (queueOnList rl) (readyIt rl) (oe_fresh rl).

(** The tail of [addIfReady], and [addReadyMemInst].  An iterator that points to no entry
    is undefined behaviour. *)
Definition push_ready (rl : ready_lists) (i : nat) : result ready_lists :=
  let op := opClass (code i) in
  let rl1 := set_ready rl op (pq_push i (readyInsts rl op)) in
  if negb (queueOnList rl1 op) then addToOrderList rl1 op
  else
    match readyInsts rl1 op, readyIt rl1 op with
    | top :: _, Some n =>
        match find_entry n (listOrder rl1) with
        | Some e =>
            if seqNum (code top) <? oldestInst e
            then addToOrderList (set_order rl1 (filter (fun x => oe_id x <> n) (listOrder rl1))) op
            else Done rl1
        | None => Panic
        end
    | _, _ => Panic
    end.

(** The class at the iterator lost its oldest instruction: [moveToYoungerInst] puts the
    class back among the entries [rest] that follow the iterator, or it leaves the list.
    The entry at the iterator is erased by the caller. *)
Definition drop_oldest (rl : ready_lists) (op : Z) (tl : list nat) (rest : list order_entry) : ready_lists * list order_entry :=
  match tl with
  | [] => (ReadyLists (fupd (readyInsts rl) op []) (listOrder rl) (fupd (queueOnList rl) op false)
             (fupd (readyIt rl) op None) (oe_fresh rl), rest)
  | top :: _ =>
      let e := OrderEntry (oe_fresh rl) op (seqNum (code top)) in
      (ReadyLists (fupd (readyInsts rl) op tl) (listOrder rl) (queueOnList rl)
         (fupd (readyIt rl) op (Some (oe_id e))) (S (oe_fresh rl)),
       order_insert (fun x => negb (oldestInst x <? oldestInst e)) e rest)
  end.
End Lists.

(** ** Execution *)

(** [FUCompletion], scheduled on the event queue. *)
Record fu_completion := FuCompletion { fc_inst : nat; fc_pool : Z; fc_unit : nat; fc_when : Z; fc_free : bool }.

(** Calls to the memory dependence unit. *)
Inductive mem_call :=
  | MemRegsReady (i : nat) | MemIssue (i : nat) | MemComplete (i : nat) | MemInsert (i : nat)
  | MemInsertNonSpec (i : nat) | MemNonSpecReady (i : nat) | MemReschedule (i : nat).

(** What issue changes besides the ready queues. *)
Record exec_state := ExecState {
  insts : nat -> dyn_inst;
  pools : Z -> fu_pool;
  instsToExecute : list nat;
  i2e_size : Z;
  fuCompletions : list fu_completion;
  wbOutstanding : Z;
  deferredMemInsts : list nat; retryMemInsts : list nat;
  memCalls : list mem_call;
  cpuActivity : bool
}.

Definition on_inst (x : exec_state) (i : nat) (f : dyn_inst -> dyn_inst) : exec_state :=
  ExecState (fupd (insts x) i (f (insts x i))) (pools x) (instsToExecute x) (i2e_size x) (fuCompletions x)
    (wbOutstanding x) (deferredMemInsts x) (retryMemInsts x) (memCalls x) (cpuActivity x).
Definition set_pool (x : exec_state) (k : Z) (p : fu_pool) : exec_state :=
  ExecState (insts x) (fupd (pools x) k p) (instsToExecute x) (i2e_size x) (fuCompletions x)
    (wbOutstanding x) (deferredMemInsts x) (retryMemInsts x) (memCalls x) (cpuActivity x).
Definition to_execute (x : exec_state) (i : nat) : exec_state :=
  ExecState (insts x) (pools x) (instsToExecute x ++ [i]) (i2e_size x + 1) (fuCompletions x)
    (wbOutstanding x) (deferredMemInsts x) (retryMemInsts x) (memCalls x) (cpuActivity x).
Definition to_complete (x : exec_state) (c : fu_completion) : exec_state :=
  ExecState (insts x) (pools x) (instsToExecute x) (i2e_size x) (fuCompletions x ++ [c])
    (wbOutstanding x + 1) (deferredMemInsts x) (retryMemInsts x) (memCalls x) (cpuActivity x).
Definition mem_call_of (x : exec_state) (c : mem_call) : exec_state :=
  ExecState (insts x) (pools x) (instsToExecute x) (i2e_size x) (fuCompletions x)
    (wbOutstanding x) (deferredMemInsts x) (retryMemInsts x) (memCalls x ++ [c]) (cpuActivity x).
Definition set_deferred (x : exec_state) (l : list nat) : exec_state :=
  ExecState (insts x) (pools x) (instsToExecute x) (i2e_size x) (fuCompletions x)
    (wbOutstanding x) l (retryMemInsts x) (memCalls x) (cpuActivity x).
Definition set_retry (x : exec_state) (l : list nat) : exec_state :=
  ExecState (insts x) (pools x) (instsToExecute x) (i2e_size x) (fuCompletions x)
    (wbOutstanding x) (deferredMemInsts x) l (memCalls x) (cpuActivity x).
Definition activity (x : exec_state) (b : bool) : exec_state :=
  ExecState (insts x) (pools x) (instsToExecute x) (i2e_size x) (fuCompletions x)
    (wbOutstanding x) (deferredMemInsts x) (retryMemInsts x) (memCalls x) (b || cpuActivity x).

Definition map_result {A B} (f : A -> B) (r : result A) : result B :=
  match r with Done a => Done (f a) | Panic => Panic | NoFuel => NoFuel end.

Section Issue.
Context (code : nat -> static_inst).

(** [fu_pool->freeUnitNextCycle(idx)] on pool [k]. *)
Definition free_next (x : exec_state) (k : Z) (u : nat) : result exec_state :=
  map_result (set_pool x k) (freeUnitNextCycle (pools x k) u).

(** What follows once the instruction has its unit. *)
Definition finish_issue (now : Z) (i : nat) (x : exec_state) : exec_state :=
  let x1 := on_inst x i (set_issued now) in
  if isMemRef (code i) then mem_call_of x1 (MemIssue i) else on_inst x1 i clear_inIQ.

(** A unit for instruction [i], and its issue; [false] is a busy pool. *)
Definition try_issue (now : Z) (i : nat) (x : exec_state) : result (bool * exec_state) :=
  let op := opClass (code i) in
  let k := si_pool (code i) in
  if op =? 0 then Done (true, finish_issue now i (to_execute x i))
  else
    match getUnit (fq_size (fuPerCapList (pools x k) op)) (pools x k) op with
    | Done (NoFreeFU, p) => Done (false, set_pool x k p)
    | Done (NoCapableFU, p) =>
        Done (true, finish_issue now i (on_inst (to_execute (set_pool x k p) i) i set_noCapable))
    | Done (Unit u, p) =>
        let x1 := set_pool x k p in
        let lat := maxOpLatencies p op in
        if lat =? 1 then
          map_result (fun y => (true, finish_issue now i y)) (free_next (to_execute x1 i) k u)
        else
          let x2 := to_complete x1 (FuCompletion i k u (u64 (now + u64 (lat - 1))) (negb (pipelined p op))) in
          if pipelined p op then map_result (fun y => (true, finish_issue now i y)) (free_next x2 k u)
          else Done (true, finish_issue now i x2)
    | Panic => Panic
    | NoFuel => NoFuel
    end.

(** The walk of [scheduleReadyInsts]: [before] has been passed, [rest] starts at the
    iterator. *)
Fixpoint issue_loop (fuel : nat) (now width total : Z) (before rest : list order_entry) (rl : ready_lists) (x : exec_state) : result (ready_lists * exec_state * Z) :=
  match rest with
  | [] => Done (set_order rl before, x, total)
  | e :: rest' =>
      if negb (total <? width) then Done (set_order rl (before ++ rest), x, total)
      else
        match fuel with
        | O => NoFuel
        | S fuel' =>
            let op := queueType e in
            match readyInsts rl op with
            | [] => Panic
            | i :: tl =>
                if negb (seqNum (code i) =? oldestInst e) then Panic
                else if squashed (insts x i) then
                  let '(rl', rest'') := drop_oldest code rl op tl rest' in
                  issue_loop fuel' now width total before rest'' rl' x
                else
                  match try_issue now i x with
                  | Done (true, x') =>
                      let '(rl', rest'') := drop_oldest code rl op tl rest' in
                      issue_loop fuel' now width (total + 1) before rest'' rl' x'
                  | Done (false, x') => issue_loop fuel' now width total (before ++ [e]) rest' rl x'
                  | Panic => Panic
                  | NoFuel => NoFuel
                  end
            end
        end
  end.

(** A deferred instruction that may go: [translationCompleted() || isSquashed()]. *)
Definition may_go (x : exec_state) (i : nat) : Prop := translationDone (insts x i) || squashed (insts x i) = true.

#[global] Instance may_go_dec x i : Decision (may_go x i).
Proof. unfold may_go. apply _. Defined.

(** [getDeferredMemInstToExecute]: the first that may go. *)
Definition next_deferred (x : exec_state) : option (nat * list nat) :=
  match list_find (may_go x) (deferredMemInsts x) with
  | Some (k, i) => Some (i, delete k (deferredMemInsts x))
  | None => None
  end.

Fixpoint drain_deferred (fuel : nat) (rl : ready_lists) (x : exec_state) : result (ready_lists * exec_state) :=
  match next_deferred x with
  | None => Done (rl, x)
  | Some (i, l) =>
      match fuel with
      | O => NoFuel
      | S fuel' =>
          match push_ready code rl i with
          | Done rl' => drain_deferred fuel' rl' (set_deferred x l)
          | Panic => Panic
          | NoFuel => NoFuel
          end
      end
  end.

(** [getBlockedMemInstToExecute], until the list is empty. *)
Fixpoint drain_retry (rl : ready_lists) (l : list nat) : result ready_lists :=
  match l with
  | [] => Done rl
  | i :: l' => match push_ready code rl i with Done rl' => drain_retry rl' l' | r => r end
  end.

Definition scheduleReadyInsts (fuel : nat) (now width : Z) (rl : ready_lists) (x : exec_state) : result (ready_lists * exec_state) :=
  match drain_deferred fuel rl x with
  | Done (rl1, x1) =>
      match drain_retry rl1 (retryMemInsts x1) with
      | Done rl2 =>
          map_result (fun r => (r.1.1, activity r.1.2 (negb (r.2 =? 0) || negb (bool_decide (deferredMemInsts x1 = [])))))
            (issue_loop fuel now width 0 [] (listOrder rl2) rl2 (set_retry x1 []))
      | Panic => Panic
      | NoFuel => NoFuel
      end
  | Panic => Panic
  | NoFuel => NoFuel
  end.
End Issue.

(** ** The specification: one list in age order *)

Section Spec.
Context (code : nat -> static_inst).

(** Offer a unit to each ready instruction in turn, except those of a class that was just
    refused one; squashed instructions leave.  [kept] are those passed over. *)
Fixpoint spec_issue (now width total : Z) (refused : list Z) (kept l : list nat) (x : exec_state) : result (list nat * exec_state * Z) :=
  match l with
  | [] => Done (kept, x, total)
  | i :: l' =>
      if negb (total <? width) then Done (kept ++ l, x, total)
      else if decide (opClass (code i) ∈ refused) then spec_issue now width total refused (kept ++ [i]) l' x
      else if squashed (insts x i) then spec_issue now width total refused kept l' x
      else
        match try_issue code now i x with
        | Done (true, x') => spec_issue now width (total + 1) refused kept l' x'
        | Done (false, x') => spec_issue now width total (opClass (code i) :: refused) (kept ++ [i]) l' x'
        | Panic => Panic
        | NoFuel => NoFuel
        end
  end.

Definition spec_pushes (l new : list nat) : list nat := foldl (fun l i => pq_push code i l) l new.

Definition spec_cycle (now width : Z) (l : list nat) (x : exec_state) : result (list nat * exec_state) :=
  let go := filter (may_go x) (deferredMemInsts x) in
  let stay := filter (fun i => ~ may_go x i) (deferredMemInsts x) in
  let l1 := spec_pushes l (go ++ retryMemInsts x) in
  map_result (fun r => (r.1.1, activity r.1.2 (negb (r.2 =? 0) || negb (bool_decide (stay = [])))))
    (spec_issue now width 0 [] [] l1 (set_retry (set_deferred x stay) [])).
End Spec.

(** ** Runs *)

(** An instruction becomes ready, a cycle issues, the rest of the processor runs. *)
Inductive iq_op := OpReady (i : nat) | OpCycle (now width : Z) | OpOther (f : exec_state -> exec_state).

Section Runs.
Context (code : nat -> static_inst).

Definition iq_exec (fuel : nat) (rl : ready_lists) (x : exec_state) (o : iq_op) : result (ready_lists * exec_state) :=
  match o with
  | OpReady i => map_result (fun rl' => (rl', x)) (push_ready code rl i)
  | OpCycle now width => scheduleReadyInsts code fuel now width rl x
  | OpOther f => Done (rl, f x)
  end.

Fixpoint iq_run (fuel : nat) (rl : ready_lists) (x : exec_state) (ops : list iq_op) : result (ready_lists * exec_state) :=
  match ops with
  | [] => Done (rl, x)
  | o :: ops' => match iq_exec fuel rl x o with Done (rl', x') => iq_run fuel rl' x' ops' | r => r end
  end.

Definition spec_exec_op (l : list nat) (x : exec_state) (o : iq_op) : result (list nat * exec_state) :=
  match o with
  | OpReady i => Done (pq_push code i l, x)
  | OpCycle now width => spec_cycle code now width l x
  | OpOther f => Done (l, f x)
  end.

Fixpoint spec_run (l : list nat) (x : exec_state) (ops : list iq_op) : result (list nat * exec_state) :=
  match ops with
  | [] => Done (l, x)
  | o :: ops' => match spec_exec_op l x o with Done (l', x') => spec_run l' x' ops' | r => r end
  end.

Definition distinct_ages (l : list nat) : Prop := NoDup (map (fun i => seqNum (code i)) l).

(** No instruction becomes ready that is in a queue already, and the fuel covers the
    instructions a cycle may look at. *)
Definition op_ok (fuel : nat) (l : list nat) (x : exec_state) (o : iq_op) : Prop :=
  match o with
  | OpReady i => distinct_ages (l ++ [i])
  | OpCycle _ _ =>
      let new := filter (may_go x) (deferredMemInsts x) ++ retryMemInsts x in
      distinct_ages (l ++ new) /\ (length (l ++ deferredMemInsts x ++ retryMemInsts x) <= fuel)%nat
  | OpOther _ => True
  end.

Fixpoint ops_ok (fuel : nat) (l : list nat) (x : exec_state) (ops : list iq_op) : Prop :=
  match ops with
  | [] => True
  | o :: ops' => op_ok fuel l x o /\
      match spec_exec_op l x o with Done (l', x') => ops_ok fuel l' x' ops' | _ => True end
  end.
End Runs.

(** * Lemmas *)

Section Rep.
Context (code : nat -> static_inst).

Definition older (i j : nat) : Prop := seqNum (code i) < seqNum (code j).
Definition of_class (op : Z) (l : list nat) : list nat := filter (fun i => opClass (code i) = op) l.
Definition fresh_for (i : nat) (l : list nat) : Prop := Forall (fun j => seqNum (code j) <> seqNum (code i)) l.
Definition age_le (a b : order_entry) : Prop := oldestInst a <= oldestInst b.

#[local] Instance older_trans : Transitive older.
Proof. unfold older. intros ???. lia. Qed.
#[local] Instance age_le_trans : Transitive age_le.
Proof. unfold age_le. intros ???. lia. Qed.

(** ** Sorted insertion *)

Lemma Forall_filter {A} (Q P : A -> Prop) `{!forall x, Decision (P x)} l : Forall Q l -> Forall Q (filter P l).
Proof. rewrite !Forall_forall. intros Hl x [_ Hx]%list_elem_of_filter. by apply Hl. Qed.

Lemma pq_push_perm i l : pq_push code i l ≡ₚ i :: l.
Proof.
  induction l as [|j l IH]; cbn; [done|]. destruct (_ <? _); [done|]. rewrite IH. apply Permutation_swap.
Qed.

Lemma pq_push_front i l : Forall (older i) l -> pq_push code i l = i :: l.
Proof. destruct 1 as [|j l H]; cbn; [done|]. by apply Z.ltb_lt in H as ->. Qed.

Lemma pq_push_sorted i l : fresh_for i l -> StronglySorted older l -> StronglySorted older (pq_push code i l).
Proof.
  intros Hf Hs. induction Hs as [|j l Hs IH Hj]; cbn; [repeat constructor|].
  apply Forall_cons in Hf as [Hij Hf]. destruct (Z.ltb_spec (seqNum (code i)) (seqNum (code j))).
  - constructor; [by constructor|]. constructor; [done|]. eapply Forall_impl; [exact Hj|].
    unfold older. intros. cbn in *. lia.
  - constructor; [by apply IH|]. rewrite pq_push_perm. constructor; [unfold older; lia|done].
Qed.

Lemma pq_push_class i l op : StronglySorted older l ->
  of_class op (pq_push code i l) = if decide (opClass (code i) = op) then pq_push code i (of_class op l) else of_class op l.
Proof.
  unfold of_class. intros Hs. induction Hs as [|j l Hs IH Hj]; cbn [pq_push].
  - rewrite filter_cons. by case_decide.
  - destruct (Z.ltb_spec (seqNum (code i)) (seqNum (code j))) as [Hlt|Hge].
    + rewrite (filter_cons _ i). case_decide; [|done]. rewrite pq_push_front; [done|].
      apply Forall_filter. constructor; [done|]. eapply Forall_impl; [exact Hj|]. unfold older. intros. cbn in *. lia.
    + rewrite !(filter_cons _ j), IH. destruct (decide (opClass (code j) = op)), (decide (opClass (code i) = op)); try done.
      cbn [pq_push]. by replace (_ <? _) with false by (symmetry; apply Z.ltb_ge; lia).
Qed.

Lemma order_insert_perm stop e l : order_insert stop e l ≡ₚ e :: l.
Proof. induction l as [|x l IH]; cbn; [done|]. destruct (stop x); [done|]. rewrite IH. apply Permutation_swap. Qed.

Lemma order_insert_sorted stop e l :
  (forall x, stop x = true -> age_le e x) -> (forall x, stop x = false -> age_le x e) ->
  StronglySorted age_le l -> StronglySorted age_le (order_insert stop e l).
Proof.
  intros Ht Hf Hs. induction Hs as [|x l Hs IH Hx]; cbn; [repeat constructor|]. destruct (stop x) eqn:E.
  - constructor; [by constructor|]. constructor; [by apply Ht|].
    eapply Forall_impl; [exact Hx|]. intros y Hy. etransitivity; [by apply Ht|done].
  - constructor; [done|]. rewrite order_insert_perm. constructor; [by apply Hf|done].
Qed.

Lemma filter_all {A} (P : A -> Prop) `{!forall x, Decision (P x)} l : Forall P l -> filter P l = l.
Proof. induction 1; [done|]. rewrite filter_cons_True by done. by f_equal. Qed.

Lemma filter_sorted {A} (R : relation A) (P : A -> Prop) `{!forall x, Decision (P x)} l :
  StronglySorted R l -> StronglySorted R (filter P l).
Proof.
  induction 1 as [|x l Hs IH Hx]; [constructor|]. rewrite filter_cons. case_decide; [|done].
  constructor; [done|]. by apply Forall_filter.
Qed.

(** ** The order list *)

Definition entry_ok (rl : ready_lists) (e : order_entry) : Prop :=
  readyIt rl (queueType e) = Some (oe_id e) /\
  exists i tl, readyInsts rl (queueType e) = i :: tl /\ seqNum (code i) = oldestInst e.

(** [l] is the order list, but possibly for class [op], which is not on it. *)
Record order_but (op : Z) (rl : ready_lists) (l : list order_entry) : Prop := {
  ob_sorted : StronglySorted age_le l;
  ob_types : NoDup (map queueType l);
  ob_ids : NoDup (map oe_id l);
  ob_fresh : Forall (fun e => (oe_id e < oe_fresh rl)%nat) l;
  ob_absent : op ∉ map queueType l;
  ob_entry : Forall (entry_ok rl) l;
  ob_on : forall op', op' <> op -> queueOnList rl op' = true <-> readyInsts rl op' <> [];
  ob_has : forall op', op' <> op -> readyInsts rl op' <> [] -> op' ∈ map queueType l
}.

Record order_ok (rl : ready_lists) (l : list order_entry) : Prop := {
  oo_sorted : StronglySorted age_le l;
  oo_types : NoDup (map queueType l);
  oo_ids : NoDup (map oe_id l);
  oo_fresh : Forall (fun e => (oe_id e < oe_fresh rl)%nat) l;
  oo_entry : Forall (entry_ok rl) l;
  oo_on : forall op, queueOnList rl op = true <-> readyInsts rl op <> [];
  oo_has : forall op, readyInsts rl op <> [] -> op ∈ map queueType l
}.

(** Only what concerns the other classes matters. *)
Lemma order_but_ext op rl rl' l :
  (forall op', op' <> op -> readyInsts rl' op' = readyInsts rl op' /\ queueOnList rl' op' = queueOnList rl op' /\
    readyIt rl' op' = readyIt rl op') ->
  (oe_fresh rl <= oe_fresh rl')%nat -> order_but op rl l -> order_but op rl' l.
Proof.
  intros He Hf []. constructor; try done.
  - eapply Forall_impl; [exact ob_fresh0|]. cbn. intros. lia.
  - rewrite Forall_forall in *. intros e Hin. destruct (He (queueType e)) as (E1 & _ & E3).
    { intros <-. apply ob_absent0, list_elem_of_fmap. by exists e. }
    unfold entry_ok. rewrite E1, E3. by apply ob_entry0.
  - intros op' Hne. destruct (He op' Hne) as (-> & -> & _). by apply ob_on0.
  - intros op' Hne. destruct (He op' Hne) as (-> & _). by apply ob_has0.
Qed.

Lemma order_but_absent rl l op : order_ok rl l -> readyInsts rl op = [] -> order_but op rl l.
Proof.
  intros [] H. constructor; try done; [|intros; by apply oo_has0].
  intros (e & -> & Hin)%list_elem_of_fmap. rewrite Forall_forall in oo_entry0.
  destruct (oo_entry0 e Hin) as (_ & i & tl & E & _). congruence.
Qed.

Lemma order_but_remove rl l e l0 :
  order_ok rl l -> l ≡ₚ e :: l0 -> StronglySorted age_le l0 -> order_but (queueType e) rl l0.
Proof.
  intros [] Hp Hs. rewrite Hp in oo_types0, oo_ids0, oo_fresh0, oo_entry0. cbn in *.
  apply NoDup_cons in oo_types0 as [Hn Hd]. apply NoDup_cons in oo_ids0 as [_ Hi].
  apply Forall_cons in oo_fresh0 as [_ Hf]. apply Forall_cons in oo_entry0 as [_ He].
  constructor; try done. intros op' Hne Hr. apply oo_has0 in Hr. rewrite Hp in Hr. cbn in Hr.
  by apply elem_of_cons in Hr as [->|].
Qed.

(** The class comes (back) on the list, or stays off it. *)
Lemma order_ok_add op rl l0 l' n top tl :
  order_but op rl l0 -> readyInsts rl op = top :: tl -> queueOnList rl op = true -> readyIt rl op = Some n ->
  n ∉ map oe_id l0 -> (n < oe_fresh rl)%nat ->
  l' ≡ₚ OrderEntry n op (seqNum (code top)) :: l0 -> StronglySorted age_le l' -> order_ok rl l'.
Proof.
  intros [] Hr Hon Hit Hn Hf Hp Hs. constructor; cbn; [done| | | | | |]; rewrite ?Hp; cbn.
  - by constructor.
  - by constructor.
  - by constructor.
  - constructor; [|done]. split; cbn; [done|]. by eexists _, _.
  - intros op'. destruct (decide (op' = op)) as [->|]; [rewrite Hon, Hr; by split|]. by apply ob_on0.
  - intros op' H. rewrite Hp. cbn. destruct (decide (op' = op)) as [->|]; [apply list_elem_of_here|].
    apply list_elem_of_further. by apply ob_has0.
Qed.

Lemma order_ok_off op rl l0 :
  order_but op rl l0 -> readyInsts rl op = [] -> queueOnList rl op = false -> order_ok rl l0.
Proof.
  intros [] Hr Hon. constructor; cbn; try done.
  - intros op'. destruct (decide (op' = op)) as [->|]; [rewrite Hon, Hr; by split|]. by apply ob_on0.
  - intros op' H. destruct (decide (op' = op)) as [->|]; [by rewrite Hr in H|]. by apply ob_has0.
Qed.

Lemma fresh_not_in (l : list order_entry) n : Forall (fun e => (oe_id e < n)%nat) l -> n ∉ map oe_id l.
Proof. rewrite Forall_forall. intros H (e & -> & Hin)%list_elem_of_fmap. apply H in Hin. lia. Qed.

Lemma order_ok_set_order rl l l2 : order_ok rl l -> order_ok (set_order rl l2) l.
Proof. by intros []. Qed.

Lemma order_but_set_order op rl l l2 : order_but op rl l -> order_but op (set_order rl l2) l.
Proof. by intros []. Qed.

(** ** The representation *)

(** [rl] holds the instructions [l], given in age order; its order list is [order]. *)
Record rl_rep_at (rl : ready_lists) (order : list order_entry) (l : list nat) : Prop := {
  rr_sorted : StronglySorted older l;
  rr_class : forall op, readyInsts rl op = of_class op l;
  rr_order : order_ok rl order
}.

Definition rl_rep (rl : ready_lists) (l : list nat) : Prop := rl_rep_at rl (listOrder rl) l.

Lemma no_ready_rep : rl_rep no_ready [].
Proof.
  constructor; [constructor|done|]. constructor; cbn; try constructor; try done.
Qed.

Lemma push_class rl i l : rl_rep rl l -> fresh_for i l ->
  forall op, readyInsts (set_ready rl (opClass (code i)) (pq_push code i (readyInsts rl (opClass (code i))))) op =
             of_class op (pq_push code i l).
Proof.
  intros [Hs Hc _] Hf op. cbn. rewrite pq_push_class by done. unfold fupd.
  destruct (decide (op = opClass (code i))) as [->|].
  - by rewrite decide_True, Hc.
  - by rewrite decide_False, Hc.
Qed.

Lemma addToOrderList_ok rl l0 op top tl :
  order_but op rl l0 -> listOrder rl = l0 -> readyInsts rl op = top :: tl ->
  exists rl', addToOrderList code rl op = Done rl' /\ readyInsts rl' = readyInsts rl /\ order_ok rl' (listOrder rl').
Proof.
  intros Hb Hl Hr. unfold addToOrderList. rewrite Hr. eexists. split; [done|]. split; [done|]. cbn [listOrder oe_id].
  eapply (order_ok_add op _ l0); cbn; [|done|apply fupd_eq|apply fupd_eq|apply fresh_not_in, Hb|lia| |].
  - apply (order_but_ext _ rl); [|cbn; lia|done]. intros op' Hne. cbn. by rewrite !fupd_ne.
  - rewrite order_insert_perm. by rewrite Hl.
  - rewrite Hl. apply order_insert_sorted; [| |apply Hb]; unfold age_le; cbn; intros ??; bools; lia.
Qed.

Lemma erase_perm n (l : list order_entry) e :
  NoDup (map oe_id l) -> e ∈ l -> oe_id e = n -> l ≡ₚ e :: filter (fun x => oe_id x <> n) l.
Proof.
  intros Hd Hin <-. induction l as [|x l IH]; [by apply not_elem_of_nil in Hin|].
  cbn in Hd. apply NoDup_cons in Hd as [Hx Hd]. apply elem_of_cons in Hin as [->|Hin].
  - rewrite filter_cons_False by naive_solver. rewrite filter_all; [done|].
    apply Forall_forall. intros y Hy E. apply Hx. rewrite <- E. apply list_elem_of_fmap. by exists y.
  - rewrite filter_cons_True.
    + rewrite (IH Hd Hin) at 1. apply Permutation_swap.
    + intros E. apply Hx. rewrite E. apply list_elem_of_fmap. by exists e.
Qed.

Lemma find_entry_ok n l e : NoDup (map oe_id l) -> e ∈ l -> oe_id e = n -> find_entry n l = Some e.
Proof.
  intros Hd Hin <-. unfold find_entry.
  destruct (list_find (fun x => oe_id x = oe_id e) l) as [[k x]|] eqn:E; cbn.
  - apply list_find_Some in E as (Hk & Hx & _). apply list_elem_of_lookup in Hin as [k' Hk'].
    f_equal. assert (k = k') as ->; [|congruence].
    apply (NoDup_lookup (oe_id <$> l) k k' (oe_id e)); [exact Hd| |];
      rewrite list_lookup_fmap, ?Hk, ?Hk'; cbn; congruence.
  - apply list_find_None in E. rewrite Forall_forall in E. by apply E in Hin.
Qed.

(** A class whose oldest instruction stays keeps its entry. *)
Lemma order_ok_grow rl op top tl tl' l :
  order_ok rl l -> readyInsts rl op = top :: tl -> order_ok (set_ready rl op (top :: tl')) l.
Proof.
  intros [] Hr. constructor; try done.
  - rewrite Forall_forall in *. intros e Hin. destruct (oo_entry0 e Hin) as (H1 & j & tlj & E1 & E2).
    split; [done|]. cbn. unfold fupd. case_decide as Eq; [|by eexists _, _].
    rewrite Eq, Hr in E1. simplify_eq. by eexists _, _.
  - intros op'. cbn. unfold fupd. case_decide as Eq; [|done]. rewrite oo_on0, Eq, Hr. by split.
  - intros op'. cbn. unfold fupd. case_decide as Eq; intros H; apply oo_has0; [|done]. by rewrite Eq, Hr.
Qed.

Lemma push_ready_rep rl l i : rl_rep rl l -> fresh_for i l ->
  exists rl', push_ready code rl i = Done rl' /\ rl_rep rl' (pq_push code i l).
Proof.
  intros Hrep Hf. pose proof (push_class rl i l Hrep Hf) as Hc. destruct Hrep as [Hs Hcl Ho].
  pose proof (pq_push_sorted i l Hf Hs) as Hs'. set (op := opClass (code i)) in *.
  unfold push_ready. fold op. set (rl1 := set_ready rl op (pq_push code i (readyInsts rl op))) in *.
  assert (forall op', op' <> op -> readyInsts rl1 op' = readyInsts rl op' /\
    queueOnList rl1 op' = queueOnList rl op' /\ readyIt rl1 op' = readyIt rl op') as Hext.
  { intros op' Hne. cbn. by rewrite fupd_ne. }
  assert (forall l0 rl2 top tl, order_but op rl l0 -> readyInsts rl1 op = top :: tl ->
    rl2 = set_order rl1 l0 ->
    exists rl', addToOrderList code rl2 op = Done rl' /\ rl_rep rl' (pq_push code i l)) as Hadd.
  { intros l0 rl2 top tl Hb Hr ->.
    destruct (addToOrderList_ok (set_order rl1 l0) l0 op top tl) as (rl' & -> & E & Hok); [|done|done|].
    - by apply order_but_set_order, (order_but_ext _ rl).
    - exists rl'. split; [done|]. constructor; [done| |done]. intros op'. rewrite E. apply Hc. }
  assert (readyInsts rl1 op = pq_push code i (readyInsts rl op)) as Er by (cbn; apply fupd_eq).
  destruct (queueOnList rl op) eqn:Eon; cbn [negb queueOnList rl1 set_ready]; rewrite ?Eon; cbn [negb].
  - apply Ho in Eon. destruct (readyInsts rl op) as [|j tl] eqn:Ej; [done|].
    pose proof (oo_has _ _ Ho op) as Hin. rewrite Ej in Hin. specialize (Hin ltac:(done)).
    apply list_elem_of_fmap in Hin as (e & Eop & Hin).
    pose proof (oo_entry _ _ Ho) as He. rewrite Forall_forall in He. destruct (He e Hin) as (Hit & j' & tl' & Ej' & Hold).
    rewrite <- Eop, Ej in Ej'. injection Ej' as <- <-. rewrite Er. cbn [pq_push]. cbn [rl1 readyIt set_ready listOrder].
    rewrite Eop, Hit, (find_entry_ok _ _ e) by (apply Ho || done). rewrite <- Eop.
    destruct (Z.ltb_spec (seqNum (code i)) (seqNum (code j))) as [Hlt|Hge].
    + rewrite <- Hold. apply Z.ltb_lt in Hlt as E. rewrite E. cbn [pq_push] in Er. rewrite E in Er.
      eapply Hadd; [|exact Er|done]. rewrite Eop. eapply order_but_remove; [exact Ho| |].
      * apply erase_perm; [apply Ho|done|done].
      * apply filter_sorted, Ho.
    + rewrite <- Hold, Z.ltb_irrefl. eexists. split; [done|]. constructor; [done|exact Hc|].
      unfold rl1. cbn [pq_push]. apply Z.ltb_ge in Hge as ->. by eapply order_ok_grow.
  - assert (readyInsts rl op = []) as E.
    { destruct (readyInsts rl op) eqn:E; [done|]. assert (queueOnList rl op = true); [|congruence].
      apply Ho. by rewrite E. }
    rewrite E in Er. eapply (Hadd (listOrder rl)); [by apply order_but_absent|exact Er|done].
Qed.

Lemma set_order_rep rl o l : rl_rep_at rl o l -> rl_rep (set_order rl o) l.
Proof. intros [Hs Hc Ho]. by constructor; [done|done|apply order_ok_set_order]. Qed.

(** ** Removing the oldest instruction of the class at the iterator *)

Lemma sorted_split_class l1 i l2 tl :
  StronglySorted older (l1 ++ i :: l2) -> of_class (opClass (code i)) (l1 ++ i :: l2) = i :: tl ->
  of_class (opClass (code i)) l1 = [] /\ tl = of_class (opClass (code i)) l2.
Proof.
  unfold of_class. intros Hs. rewrite filter_app, filter_cons_True by done.
  destruct (filter _ l1) as [|j l] eqn:E; cbn; [by intros [= <-]|]. intros [= -> _]. exfalso.
  assert (i ∈ l1) as Hi. { eapply list_elem_of_filter. rewrite E. apply list_elem_of_here. }
  apply StronglySorted_app_1_elem_of with (x1 := i) (x2 := i) in Hs; [|done|apply list_elem_of_here].
  unfold older in Hs. lia.
Qed.

Lemma sorted_without l1 i l2 : StronglySorted older (l1 ++ i :: l2) -> StronglySorted older (l1 ++ l2).
Proof.
  rewrite !StronglySorted_app, StronglySorted_cons. intros (H1 & H2 & _ & H3). split_and!; [|done|done].
  intros a b Ha Hb. apply H1; [done|by apply list_elem_of_further].
Qed.

Lemma sorted_replace before e rest e' :
  StronglySorted age_le (before ++ e :: rest) -> age_le e e' ->
  StronglySorted age_le (before ++ order_insert (fun x => negb (oldestInst x <? oldestInst e')) e' rest).
Proof.
  rewrite !StronglySorted_app, StronglySorted_cons. intros (H1 & H2 & _ & H3) He. split_and!; [|done|].
  - intros a b Ha. rewrite order_insert_perm. intros [->|Hb]%elem_of_cons.
    + etransitivity; [|exact He]. apply H1; [done|apply list_elem_of_here].
    + apply H1; [done|by apply list_elem_of_further].
  - apply order_insert_sorted; [| |done]; unfold age_le; intros x Hx; bools; lia.
Qed.

Lemma drop_oldest_rep rl before e rest l1 i l2 tl :
  rl_rep_at rl (before ++ e :: rest) (l1 ++ i :: l2) ->
  queueType e = opClass (code i) -> readyInsts rl (opClass (code i)) = i :: tl -> seqNum (code i) = oldestInst e ->
  let r := drop_oldest code rl (opClass (code i)) tl rest in rl_rep_at r.1 (before ++ r.2) (l1 ++ l2).
Proof.
  intros [Hs Hc Ho] Hop Hr Hold. cbn zeta. pose proof (Hc (opClass (code i))) as Hi. rewrite Hr in Hi. symmetry in Hi.
  destruct (sorted_split_class _ _ _ _ Hs Hi) as [E1 ->].
  assert (order_but (opClass (code i)) rl (before ++ rest)) as Hb.
  { rewrite <- Hop. eapply order_but_remove; [exact Ho|by rewrite Permutation_middle|].
    pose proof (oo_sorted _ _ Ho) as H. rewrite !StronglySorted_app, StronglySorted_cons in *.
    destruct H as (H1 & H2 & _ & H3). split_and!; [|done|done].
    intros a b Ha Hb. apply H1; [done|by apply list_elem_of_further]. }
  assert (forall op, fupd (readyInsts rl) (opClass (code i)) (of_class (opClass (code i)) l2) op = of_class op (l1 ++ l2)) as Hc'.
  { intros op. unfold fupd. unfold of_class in *. case_decide as E; [by rewrite E, filter_app, E1|].
    rewrite Hc. unfold of_class. by rewrite !filter_app, filter_cons_False by naive_solver. }
  set (op := opClass (code i)) in *. destruct (of_class op l2) as [|top tl] eqn:E2; cbn [drop_oldest fst snd].
  - constructor; [by eapply sorted_without|exact Hc'|].
    apply (order_ok_off op); cbn; [|apply fupd_eq|apply fupd_eq].
    apply (order_but_ext _ rl); [|done|exact Hb]. intros op' Hne. cbn. by rewrite !fupd_ne.
  - assert (StronglySorted older (of_class op (l1 ++ i :: l2))) as Ht by (by apply filter_sorted).
    rewrite Hi in Ht. apply StronglySorted_cons in Ht as [Ht _]. apply Forall_cons in Ht as [Ht _]. unfold older in Ht.
    constructor; [by eapply sorted_without|exact Hc'|].
    eapply (order_ok_add op _ (before ++ rest)); cbn;
      [|apply fupd_eq| |apply fupd_eq|apply fresh_not_in, Hb|lia| |].
    + apply (order_but_ext _ rl); [|cbn; lia|exact Hb]. intros op' Hne. cbn. by rewrite !fupd_ne.
    + apply Ho. by rewrite Hr.
    + rewrite order_insert_perm. by rewrite Permutation_middle.
    + apply (sorted_replace before e rest (OrderEntry (oe_fresh rl) op (seqNum (code top)))); [apply Ho|]. unfold age_le. cbn. lia.
Qed.

(** ** The walk *)

(** The outcome of the walk against that of the specification. *)
Definition issue_refines (c : result (ready_lists * exec_state * Z)) (a : result (list nat * exec_state * Z)) : Prop :=
  match a with
  | Done (l, x, n) => exists rl, c = Done (rl, x, n) /\ rl_rep rl l
  | Panic => c = Panic
  | NoFuel => c = NoFuel
  end.

Lemma sorted_seq_inj l i j :
  StronglySorted older l -> i ∈ l -> j ∈ l -> seqNum (code i) = seqNum (code j) -> i = j.
Proof.
  intros Hs Hi Hj E. induction Hs as [|a l Hs IH Ha]; [by apply not_elem_of_nil in Hi|].
  rewrite Forall_forall in Ha. unfold older in Ha.
  apply elem_of_cons in Hi as [->|Hi], Hj as [->|Hj]; [done| | |by apply IH].
  - apply Ha in Hj. lia.
  - apply Ha in Hi. lia.
Qed.

Lemma of_class_elem op i l : i ∈ of_class op l <-> opClass (code i) = op /\ i ∈ l.
Proof. unfold of_class. by rewrite list_elem_of_filter. Qed.

(** The classes passed over are refused: their entries are [before], and what was kept is
    theirs. *)
Record walk (before rest : list order_entry) (rl : ready_lists) (refused : list Z) (kept l : list nat) : Prop := {
  w_rep : rl_rep_at rl (before ++ rest) (kept ++ l);
  w_refused : forall op, (op ∈ refused) <-> (op ∈ map queueType before);
  w_kept : Forall (fun i => opClass (code i) ∈ refused) kept
}.

Lemma walk_entry before rest rl refused kept l e : walk before rest rl refused kept l -> e ∈ rest ->
  exists j tl, readyInsts rl (queueType e) = j :: tl /\ seqNum (code j) = oldestInst e /\
    opClass (code j) = queueType e /\ (queueType e ∉ refused) /\ j ∈ l.
Proof.
  intros [[Hs Hc Ho] Href Hk] Hin. pose proof (oo_entry _ _ Ho) as He. rewrite Forall_forall in He.
  destruct (He e) as (_ & j & tl & Ej & Hold); [apply elem_of_app; by right|]. exists j, tl.
  assert (j ∈ of_class (queueType e) (kept ++ l)) as Hj by (rewrite <- Hc, Ej; apply list_elem_of_here).
  apply of_class_elem in Hj as [Hj Hjl].
  assert (queueType e ∉ refused) as Hn.
  { rewrite Href. intros Hb. pose proof (oo_types _ _ Ho) as Hd. rewrite map_app in Hd.
    apply NoDup_app in Hd as (_ & Hd & _). apply (Hd _ Hb). apply list_elem_of_fmap. by exists e. }
  split_and!; try done. apply elem_of_app in Hjl as [Hjk|]; [|done].
  rewrite Forall_forall in Hk. apply Hk in Hjk. congruence.
Qed.

(** The entry at the iterator is that of the oldest instruction not refused. *)
Lemma walk_head before rest rl refused kept i l :
  walk before rest rl refused kept (i :: l) -> opClass (code i) ∉ refused ->
  exists e rest' tl, rest = e :: rest' /\ queueType e = opClass (code i) /\
    readyInsts rl (opClass (code i)) = i :: tl /\ seqNum (code i) = oldestInst e.
Proof.
  intros Hw Hn. pose proof Hw as [[Hs Hc Ho] Href Hk].
  assert (opClass (code i) ∈ map queueType rest) as Hin.
  { assert (opClass (code i) ∈ map queueType (before ++ rest)) as H.
    - apply Ho. rewrite Hc. intros E. apply (not_elem_of_nil i). rewrite <- E. apply of_class_elem. set_solver.
    - rewrite map_app, elem_of_app, <- Href in H. by destruct H. }
  apply list_elem_of_fmap in Hin as (ei & Ei & Hin).
  destruct rest as [|e rest']; [by apply not_elem_of_nil in Hin|].
  destruct (walk_entry _ _ _ _ _ _ e Hw) as (j & tl & Ej & Hold & Hjc & _ & Hjl); [apply list_elem_of_here|].
  destruct (walk_entry _ _ _ _ _ _ ei Hw Hin) as (k & tlk & Ek & Holdk & Hkc & _ & Hkl).
  apply StronglySorted_app_1_r in Hs as Hsl. apply StronglySorted_cons in Hsl as [Hil _].
  assert (forall m, m ∈ i :: l -> seqNum (code i) <= seqNum (code m)) as Hmin.
  { intros m [->|Hm]%elem_of_cons; [lia|]. rewrite Forall_forall in Hil. apply Hil in Hm. unfold older in Hm. lia. }
  assert (seqNum (code k) <= seqNum (code i)) as Hki.
  { assert (i ∈ readyInsts rl (queueType ei)) as Hi.
    { rewrite Hc. apply of_class_elem. set_solver. }
    assert (StronglySorted older (readyInsts rl (queueType ei))) as Hsk by (rewrite Hc; by apply filter_sorted).
    rewrite Ek in Hi, Hsk. apply StronglySorted_cons in Hsk as [Hsk _]. rewrite Forall_forall in Hsk.
    apply elem_of_cons in Hi as [->|Hi]; [lia|]. apply Hsk in Hi. unfold older in Hi. lia. }
  assert (oldestInst e <= oldestInst ei) as Hage.
  { pose proof (oo_sorted _ _ Ho) as Hso. apply StronglySorted_app_1_r, StronglySorted_cons in Hso as [Hso _].
    apply elem_of_cons in Hin as [->|Hin]; [lia|]. rewrite Forall_forall in Hso. by apply Hso. }
  assert (i = j) as <-.
  { apply (sorted_seq_inj (kept ++ i :: l)); [done|set_solver|set_solver|]. specialize (Hmin j Hjl). lia. }
  exists e, rest', tl. rewrite Hjc. split_and!; done.
Qed.

Lemma walk_end before rest rl refused kept : walk before rest rl refused kept [] -> rest = [].
Proof.
  intros Hw. destruct rest as [|e rest]; [done|].
  destruct (walk_entry _ _ _ _ _ _ e Hw) as (j & tl & _ & _ & _ & _ & H); [apply list_elem_of_here|].
  by apply not_elem_of_nil in H.
Qed.

Lemma walk_stop before rest rl refused kept l : walk before rest rl refused kept l ->
  rl_rep (set_order rl (before ++ rest)) (kept ++ l).
Proof. intros []. by apply set_order_rep. Qed.

(** The three steps of the walk: an instruction of a refused class, a refusal, and an
    instruction that leaves. *)
Lemma walk_skip before rest rl refused kept i l :
  walk before rest rl refused kept (i :: l) -> opClass (code i) ∈ refused ->
  walk before rest rl refused (kept ++ [i]) l.
Proof.
  intros [Hr Href Hk] Hin. constructor; [by rewrite <- app_assoc|done|]. apply Forall_app. split; [done|].
  by constructor.
Qed.

Lemma walk_refuse before e rest rl refused kept i l :
  walk before (e :: rest) rl refused kept (i :: l) -> queueType e = opClass (code i) ->
  walk (before ++ [e]) rest rl (opClass (code i) :: refused) (kept ++ [i]) l.
Proof.
  intros [Hr Href Hk] He. constructor; [by rewrite <- !app_assoc| |].
  - intros op. rewrite map_app, elem_of_app, <- Href. cbn. rewrite He. set_solver.
  - apply Forall_app. split; [|constructor; [apply list_elem_of_here|done]].
    eapply Forall_impl; [exact Hk|]. cbn. intros. by apply list_elem_of_further.
Qed.

Lemma walk_leave before e rest rl refused kept i l tl :
  walk before (e :: rest) rl refused kept (i :: l) -> queueType e = opClass (code i) ->
  readyInsts rl (opClass (code i)) = i :: tl -> seqNum (code i) = oldestInst e ->
  let r := drop_oldest code rl (opClass (code i)) tl rest in walk before r.2 r.1 refused kept l.
Proof. intros [Hr Href Hk] He Hi Hold. constructor; [by eapply drop_oldest_rep|done|done]. Qed.

Lemma issue_loop_refines now width l : forall kept refused before rest rl x total fuel,
  walk before rest rl refused kept l -> (length l <= fuel)%nat ->
  issue_refines (issue_loop code fuel now width total before rest rl x)
                (spec_issue code now width total refused kept l x).
Proof.
  induction l as [|i l IH]; intros kept refused before rest rl x total fuel Hw Hf; cbn [spec_issue].
  - pose proof (walk_end _ _ _ _ _ Hw) as ->. pose proof (walk_stop _ _ _ _ _ _ Hw) as Hr.
    rewrite !app_nil_r in Hr. destruct fuel; cbn; by eexists.
  - cbn in Hf. destruct (total <? width) eqn:Ew; cbn [negb].
    2:{ pose proof (walk_stop _ _ _ _ _ _ Hw) as Hr. destruct rest as [|e rest].
        - rewrite app_nil_r in Hr. destruct fuel; cbn; by eexists.
        - destruct fuel; cbn; rewrite Ew; cbn; by eexists. }
    destruct (decide (opClass (code i) ∈ refused)) as [Hin|Hin].
    { apply IH; [by apply walk_skip|lia]. }
    destruct (walk_head _ _ _ _ _ _ _ Hw Hin) as (e & rest' & tl & -> & He & Hi & Hold).
    destruct fuel as [|fuel]; [lia|]. cbn [issue_loop]. rewrite Ew, He, Hi, Hold, Z.eqb_refl. cbn [negb].
    pose proof (walk_leave _ _ _ _ _ _ _ _ _ Hw He Hi Hold) as Hl. cbn zeta in Hl.
    destruct (drop_oldest code rl (opClass (code i)) tl rest') as [rl' rest''].
    destruct (squashed (insts x i)); [apply IH; [done|lia]|].
    destruct (try_issue code now i x) as [[[|] x']| |]; [| |done|done]; (apply IH; [|lia]); [done|].
    by apply walk_refuse.
Qed.

(** ** A cycle *)

Lemma distinct_fresh l i new : distinct_ages code (l ++ i :: new) ->
  fresh_for i l /\ distinct_ages code (pq_push code i l ++ new).
Proof.
  unfold distinct_ages, fresh_for. rewrite <- Permutation_middle. intros H. split.
  - cbn in H. apply NoDup_cons in H as [H _]. apply Forall_forall. intros j Hj E. apply H. rewrite <- E.
    apply list_elem_of_fmap. exists j. split; [done|]. apply elem_of_app. by left.
  - by rewrite pq_push_perm.
Qed.

Lemma drain_retry_rep new : forall rl l, rl_rep rl l -> distinct_ages code (l ++ new) ->
  exists rl', drain_retry code rl new = Done rl' /\ rl_rep rl' (spec_pushes code l new).
Proof.
  induction new as [|i new IH]; intros rl l Hr Hd; cbn; [by exists rl|].
  destruct (distinct_fresh _ _ _ Hd) as [Hf Hd']. destruct (push_ready_rep rl l i Hr Hf) as (rl' & -> & Hr').
  by apply IH.
Qed.

Lemma list_find_filter {A} (P : A -> Prop) `{!forall x, Decision (P x)} l k i :
  list_find P l = Some (k, i) ->
  filter P l = i :: filter P (delete k l) /\
  filter (fun x => ~ P x) l = filter (fun x => ~ P x) (delete k l) /\ length l = S (length (delete k l)).
Proof.
  revert k. induction l as [|a l IH]; intros k; [done|]. cbn [list_find]. case_decide as Ha.
  - intros [= <- <-]. cbn [delete list_delete]. rewrite filter_cons_True by done.
    by rewrite filter_cons_False by naive_solver.
  - destruct (list_find P l) as [[k' i']|] eqn:E; [|done]. intros [= <- <-].
    destruct (IH k' eq_refl) as (H1 & H2 & H3). change (delete (S k') (a :: l)) with (a :: delete k' l).
    rewrite !filter_cons_False, !filter_cons_True by done. rewrite H1, H2. cbn [length]. by rewrite H3.
Qed.

Lemma filter_none {A} (P : A -> Prop) `{!forall x, Decision (P x)} l :
  list_find P l = None -> filter P l = [] /\ filter (fun x => ~ P x) l = l.
Proof.
  intros Hl%list_find_None. split; [|by apply filter_all].
  induction Hl; [done|]. by rewrite filter_cons_False.
Qed.

Lemma drain_deferred_rep fuel : forall rl l x new, rl_rep rl l -> (length (deferredMemInsts x) <= fuel)%nat ->
  distinct_ages code (l ++ filter (may_go x) (deferredMemInsts x) ++ new) ->
  exists rl', drain_deferred code fuel rl x =
      Done (rl', set_deferred x (filter (fun i => ~ may_go x i) (deferredMemInsts x))) /\
    rl_rep rl' (spec_pushes code l (filter (may_go x) (deferredMemInsts x))) /\
    distinct_ages code (spec_pushes code l (filter (may_go x) (deferredMemInsts x)) ++ new).
Proof.
  induction fuel as [|fuel IH]; intros rl l x new Hr Hf Hd; cbn; unfold next_deferred;
    destruct (list_find (may_go x) (deferredMemInsts x)) as [[k i]|] eqn:E.
  - apply list_find_filter in E as (_ & _ & H). lia.
  - apply filter_none in E as [E1 E2]. rewrite E1 in Hd |- *. rewrite E2. exists rl. by destruct x.
  - apply list_find_filter in E as (E1 & E2 & H). rewrite E1 in Hd |- *. rewrite E2. cbn in Hd.
    destruct (distinct_fresh _ _ _ Hd) as [Hfr Hd']. destruct (push_ready_rep rl l i Hr Hfr) as (rl' & -> & Hr').
    apply (IH rl' _ (set_deferred x (delete k (deferredMemInsts x)))); [done|cbn; lia|done].
  - apply filter_none in E as [E1 E2]. rewrite E1 in Hd |- *. rewrite E2. exists rl. by destruct x.
Qed.

Lemma spec_pushes_length l new : length (spec_pushes code l new) = (length l + length new)%nat.
Proof.
  unfold spec_pushes. revert l. induction new as [|i new IH]; intros l; cbn [foldl length]; [lia|].
  rewrite IH, pq_push_perm. cbn. lia.
Qed.

Lemma spec_pushes_app l a b : spec_pushes code l (a ++ b) = spec_pushes code (spec_pushes code l a) b.
Proof. apply foldl_app. Qed.

(** What a run of the queue is worth against a run of the specification. *)
Definition run_refines (c : result (ready_lists * exec_state)) (a : result (list nat * exec_state)) : Prop :=
  match a with
  | Done (l, x) => exists rl, c = Done (rl, x) /\ rl_rep rl l
  | Panic => c = Panic
  | NoFuel => c = NoFuel
  end.

Lemma cycle_refines fuel now width rl l x : rl_rep rl l -> op_ok code fuel l x (OpCycle now width) ->
  run_refines (scheduleReadyInsts code fuel now width rl x) (spec_cycle code now width l x).
Proof.
  intros Hr [Hd Hf]. rewrite !length_app in Hf. unfold scheduleReadyInsts, spec_cycle. cbn zeta.
  set (go := filter (may_go x) (deferredMemInsts x)) in *.
  set (stay := filter (fun i => ~ may_go x i) (deferredMemInsts x)).
  destruct (drain_deferred_rep fuel rl l x (retryMemInsts x) Hr) as (rl1 & -> & Hr1 & Hd1); [lia|done|].
  fold go in Hr1, Hd1. fold stay. cbn [retryMemInsts set_deferred].
  destruct (drain_retry_rep _ _ _ Hr1 Hd1) as (rl2 & -> & Hr2). rewrite <- spec_pushes_app in Hr2.
  set (l1 := spec_pushes code l (go ++ retryMemInsts x)) in *.
  assert (walk [] (listOrder rl2) rl2 [] [] l1) as Hw by (by constructor).
  pose proof (issue_loop_refines now width l1 _ _ _ _ _ (set_retry (set_deferred x stay) []) 0 fuel Hw) as H.
  assert (length l1 <= fuel)%nat as Hl.
  { unfold l1. rewrite spec_pushes_length, length_app.
    pose proof (length_filter (may_go x) (deferredMemInsts x)) as Hg. fold go in Hg. lia. }
  specialize (H Hl).
  unfold issue_refines in H. destruct (spec_issue _ _ _ _ _ _ _ _) as [[[l' x'] n]| |]; [|by rewrite H|by rewrite H].
  destruct H as (rl' & -> & Hr'). by eexists.
Qed.

Lemma run_refines_run fuel ops : forall rl l x, rl_rep rl l -> ops_ok code fuel l x ops ->
  run_refines (iq_run code fuel rl x ops) (spec_run code l x ops).
Proof.
  induction ops as [|o ops IH]; intros rl l x Hr; cbn; [by intros; eexists|]. intros [Ho Hops].
  destruct o as [i|now width|f]; cbn [iq_exec spec_exec_op] in *.
  - destruct (distinct_fresh _ _ _ Ho) as [Hf _]. destruct (push_ready_rep rl l i Hr Hf) as (rl' & -> & Hr').
    by apply IH.
  - pose proof (cycle_refines fuel now width rl l x Hr Ho) as H. unfold run_refines in H.
    destruct (spec_cycle code now width l x) as [[l' x']| |]; [|by rewrite H|by rewrite H].
    destruct H as (rl' & -> & Hr'). by apply IH.
  - by apply IH.
Qed.
End Rep.

(** * Theorem *)

(** C14 Over any sequence of instructions becoming ready, issue cycles and activity of the
    rest of the processor, the ready queues with their age-order list and iterators behave as
    one list of ready instructions kept in age order: each cycle offers a unit to the oldest
    first, passes over the rest of a class that was refused one, lets squashed instructions
    go, and stops at the issue width; no iterator dangles, the assertions on the queues never
    fire, and fuel for the ready instructions is enough. *)
Theorem issue_in_age_order code fuel ops x :
  ops_ok code fuel [] x ops ->
  run_refines code (iq_run code fuel no_ready x ops) (spec_run code [] x ops).
Proof. apply run_refines_run, no_ready_rep. Qed.

(** Four instructions, two classes, one unit of class 2: the second of class 2 waits. *)
Definition example_code (i : nat) : static_inst :=
  StaticInst (100 - Z.of_nat i) (if Nat.even i then 2 else 1) false false KInt 0 [].
Definition example_dyn : dyn_inst :=
  DynInst [] [] 0 true false false true false false false false None None.
Definition example_exec : exec_state :=
  ExecState (fun _ => example_dyn)
    (fun _ => mk_pool [MkFUDesc [MkOpDesc 2 3 true] 1; MkFUDesc [MkOpDesc 1 1 true] 2]) [] 0 [] 0 [] [] [] false.
Definition example_ops : list iq_op := [OpReady 0; OpReady 3; OpReady 2; OpReady 1; OpCycle 7 4].

Lemma issue_in_age_order_witness :
  (exists rl x, iq_run example_code 9 no_ready example_exec example_ops = Done (rl, x) /\
     rl_rep example_code rl [0%nat] /\ instsToExecute x = [3; 1]%nat /\
     map fc_inst (fuCompletions x) = [2%nat]).
Proof.
  assert (H : run_refines example_code (iq_run example_code 9 no_ready example_exec example_ops)
                (spec_run example_code [] example_exec example_ops)).
  { apply (issue_in_age_order example_code 9 example_ops example_exec). cbn -[spec_cycle].
    split_and!; try (unfold distinct_ages; decided); try (vm_compute; lia). }
  assert (match spec_run example_code [] example_exec example_ops with
          | Done (l, x) => (l, instsToExecute x, map fc_inst (fuCompletions x)) = ([0%nat], [3; 1]%nat, [2%nat])
          | _ => False end) as Hs by (vm_compute; reflexivity).
  destruct (spec_run example_code [] example_exec example_ops) as [[l x]| |]; [|destruct Hs|destruct Hs].
  destruct H as (rl & -> & Hr). injection Hs as Hl He Hc. subst l. exists rl, x. split_and!; [reflexivity|assumption..].
Defined.
