(* ===== verification/ChaosIQ.v ===== *)
(** * Wake-up in the instruction queue, and CHAOSIQ

    The part of [InstructionQueue] (cpu/o3/inst_queue.cc) that tracks source operands:
    [insert] and [insertNonSpec] with [addToDependents] and [addToProducers], [addIfReady],
    [wakeDependents] with the hook by which CHAOSIQ omits or defers a wake-up, the ways in
    which memory accesses are held back (rescheduled, blocked by the cache, by the memory
    dependence unit) and non-speculative instructions released, and the removal of the
    operands of a squashed instruction; and CHAOSIQ itself (cpu/o3/CHAOSIQ).  The theorems:
    a fault-free [wakeDependents] wakes every waiter once; what an omitted wake-up comes to,
    by the number of waiters; that a deferred wake-up is delivered twice, or after a squash
    fails; and what a polled fault changes. *)

From Stdlib Require Import ZArith Lia QArith.
From stdpp Require Import base sets numbers list strings.
From S2P Require Import Prelude Word Random EventQueue AttackLoop HookGate DepGraph FUPool IssueQueue.

Open Scope Z_scope.

(** ** Source operands *)

(** The accessors; every index used is below the number of sources. *)
Definition readySrcIdx (d : dyn_inst) (k : nat) : bool := readySrc d !!! k.
Definition renamedSrcIdx (d : dyn_inst) (k : nat) : Z := renamedSrc d !!! k.

(** [++readyRegs == numSrcRegs()] *)
Definition mark_ready (d : dyn_inst) : dyn_inst :=
  let n := (readyRegs d + 1) mod 2 ^ 8 in
  DynInst (renamedSrc d) (readySrc d) n
    (if n =? Z.of_nat (length (renamedSrc d)) then true else canIssue d)
    (squashed d) (issued d) (inIQ d) (noCapable d) (memDone d) (pinnedRegsWritten d) (translationDone d)
    (firstIssue d) (lastWake d).

Definition set_readySrc (k : nat) (b : bool) (d : dyn_inst) : dyn_inst :=
  DynInst (renamedSrc d) (<[k := b]> (readySrc d)) (readyRegs d) (canIssue d)
    (squashed d) (issued d) (inIQ d) (noCapable d) (memDone d) (pinnedRegsWritten d) (translationDone d)
    (firstIssue d) (lastWake d).

Definition set_renamedSrc (l : list Z) (d : dyn_inst) : dyn_inst :=
  DynInst l (readySrc d) (readyRegs d) (canIssue d)
    (squashed d) (issued d) (inIQ d) (noCapable d) (memDone d) (pinnedRegsWritten d) (translationDone d)
    (firstIssue d) (lastWake d).

Definition set_pinnedWritten (d : dyn_inst) : dyn_inst :=
  DynInst (renamedSrc d) (readySrc d) (readyRegs d) (canIssue d)
    (squashed d) (issued d) (inIQ d) (noCapable d) (memDone d) true (translationDone d)
    (firstIssue d) (lastWake d).

Definition set_lastWake (now : Z) (d : dyn_inst) : dyn_inst :=
  DynInst (renamedSrc d) (readySrc d) (readyRegs d) (canIssue d)
    (squashed d) (issued d) (inIQ d) (noCapable d) (memDone d) (pinnedRegsWritten d) (translationDone d)
    (firstIssue d) (Some now).

Definition set_memDone (d : dyn_inst) : dyn_inst :=
  DynInst (renamedSrc d) (readySrc d) (readyRegs d) (canIssue d)
    (squashed d) (issued d) (inIQ d) (noCapable d) true (pinnedRegsWritten d) (translationDone d)
    (firstIssue d) (lastWake d).

Definition set_canIssue (b : bool) (d : dyn_inst) : dyn_inst :=
  DynInst (renamedSrc d) (readySrc d) (readyRegs d) b
    (squashed d) (issued d) (inIQ d) (noCapable d) (memDone d) (pinnedRegsWritten d) (translationDone d)
    (firstIssue d) (lastWake d).

Definition clear_issued (d : dyn_inst) : dyn_inst :=
  DynInst (renamedSrc d) (readySrc d) (readyRegs d) (canIssue d)
    (squashed d) false (inIQ d) (noCapable d) (memDone d) (pinnedRegsWritten d) (translationDone d)
    (firstIssue d) (lastWake d).

Definition clear_translation (d : dyn_inst) : dyn_inst :=
  DynInst (renamedSrc d) (readySrc d) (readyRegs d) (canIssue d)
    (squashed d) (issued d) (inIQ d) (noCapable d) (memDone d) (pinnedRegsWritten d) false
    (firstIssue d) (lastWake d).

(** The queue without its dependency graph; registers are flat indices. *)
Record iq_core := IqCore {
  ic_lists : ready_lists; ic_x : exec_state;
  regScoreboard : Z -> bool;
  pinsLeft : Z -> Z;                   (* numPinnedWritesToComplete *)
  pinnedReg : Z -> bool;
  nonSpecInsts : list nat;             (* by sequence number *)
  blockedMemInsts : list nat
}.

Definition upd_inst (q : iq_core) (i : nat) (f : dyn_inst -> dyn_inst) : iq_core :=
  IqCore (ic_lists q) (on_inst (ic_x q) i f) (regScoreboard q) (pinsLeft q) (pinnedReg q) (nonSpecInsts q) (blockedMemInsts q).
Definition set_lists (q : iq_core) (rl : ready_lists) : iq_core :=
  IqCore rl (ic_x q) (regScoreboard q) (pinsLeft q) (pinnedReg q) (nonSpecInsts q) (blockedMemInsts q).
Definition call_mem (q : iq_core) (c : mem_call) : iq_core :=
  IqCore (ic_lists q) (mem_call_of (ic_x q) c) (regScoreboard q) (pinsLeft q) (pinnedReg q) (nonSpecInsts q) (blockedMemInsts q).
Definition set_score (q : iq_core) (r : Z) (b : bool) : iq_core :=
  IqCore (ic_lists q) (ic_x q) (fupd (regScoreboard q) r b) (pinsLeft q) (pinnedReg q) (nonSpecInsts q) (blockedMemInsts q).
Definition decr_pins (q : iq_core) (r : Z) : iq_core :=
  IqCore (ic_lists q) (ic_x q) (regScoreboard q) (fupd (pinsLeft q) r (pinsLeft q r - 1)) (pinnedReg q) (nonSpecInsts q) (blockedMemInsts q).
Definition set_nonSpec (l : list nat) (q : iq_core) : iq_core :=
  IqCore (ic_lists q) (ic_x q) (regScoreboard q) (pinsLeft q) (pinnedReg q) l (blockedMemInsts q).
Definition set_blocked (l : list nat) (q : iq_core) : iq_core :=
  IqCore (ic_lists q) (ic_x q) (regScoreboard q) (pinsLeft q) (pinnedReg q) (nonSpecInsts q) l.
Definition set_retry_insts (l : list nat) (q : iq_core) : iq_core :=
  IqCore (ic_lists q) (set_retry (ic_x q) l) (regScoreboard q) (pinsLeft q) (pinnedReg q) (nonSpecInsts q) (blockedMemInsts q).

Abbreviation inst_of q i := (insts (ic_x q) i).

Section Queue.
Context (code : nat -> static_inst) (alwaysReady : Z -> bool).

Definition addIfReady (q : iq_core) (i : nat) : result iq_core :=
  if canIssue (inst_of q i) then
    if isMemRef (code i) then Done (call_mem q (MemRegsReady i))
    else map_result (set_lists q) (push_ready code (ic_lists q) i)
  else Done q.

(** [dep_inst->markSrcRegReady(); addIfReady(dep_inst);] *)
Definition wake_one (q : iq_core) (i : nat) : result iq_core := addIfReady (upd_inst q i mark_ready) i.

(** One source operand of [addToDependents]. *)
Definition add_source (i : nat) (s : iq_core * dep_graph) (k : nat) : iq_core * dep_graph :=
  let '(q, g) := s in
  let r := renamedSrcIdx (inst_of q i) k in
  if readySrcIdx (inst_of q i) k then s
  else if alwaysReady r then s
  else if negb (regScoreboard q r) then (q, dg_insert g r i)
  else (upd_inst (upd_inst q i (set_readySrc k true)) i mark_ready, g).

Definition addToDependents (q : iq_core) (g : dep_graph) (i : nat) : iq_core * dep_graph :=
  foldl (add_source i) (q, g) (seq 0 (length (renamedSrc (inst_of q i)))).

(** [addToProducers]: a register with waiters left cannot get a new producer. *)
Fixpoint add_producers (q : iq_core) (g : dep_graph) (i : nat) (ds : list Z) : result (iq_core * dep_graph) :=
  match ds with
  | [] => Done (q, g)
  | r :: ds' =>
      if alwaysReady r then add_producers q g i ds'
      else if negb (dg_empty g r) then Panic
      else add_producers (set_score q r false) (dg_setInst g r i) i ds'
  end.

Definition addToProducers (q : iq_core) (g : dep_graph) (i : nat) : result (iq_core * dep_graph) :=
  add_producers q g i (si_dests (code i)).

(** [memDepUnit.insert(inst)], as far as the queue sees it: the unit clears [CanIssue] if it
    finds a store or barrier in flight on which the access depends ([dep]). *)
Definition mem_insert (dep : bool) (q : iq_core) (i : nat) : iq_core :=
  let q1 := call_mem q (MemInsert i) in
  if dep then upd_inst q1 i (set_canIssue false) else q1.

(** [insert], after the choice of the queue unit. *)
Definition iq_insert (dep : bool) (q : iq_core) (g : dep_graph) (i : nat) : result (iq_core * dep_graph) :=
  let '(q1, g1) := addToDependents q g i in
  match addToProducers q1 g1 i with
  | Done (q2, g2) =>
      if isMemRef (code i) then Done (mem_insert dep q2 i, g2)
      else map_result (fun q3 => (q3, g2)) (addIfReady q2 i)
  | Panic => Panic
  | NoFuel => NoFuel
  end.

(** [insertNonSpec]: the instruction waits for commit, not for its operands. *)
Definition insertNonSpec (q : iq_core) (g : dep_graph) (i : nat) : result (iq_core * dep_graph) :=
  match addToProducers (set_nonSpec (i :: nonSpecInsts q) q) g i with
  | Done (q1, g1) => Done (if isMemRef (code i) then call_mem q1 (MemInsertNonSpec i) else q1, g1)
  | r => r
  end.

(** [scheduleNonSpec]; the status AtCommit that it also sets is for the load and store queue. *)
Definition scheduleNonSpec (q : iq_core) (i : nat) : result iq_core :=
  if negb (bool_decide (i ∈ nonSpecInsts q)) then Panic
  else
    let q1 := upd_inst q i (set_canIssue true) in
    map_result (fun q2 => set_nonSpec (filter (fun j => j <> i) (nonSpecInsts q2)) q2)
      (if isMemRef (code i) then Done (call_mem q1 (MemNonSpecReady i)) else addIfReady q1 i).

(** A memory access that must be repeated, or that the cache refused. *)
Definition rescheduleMemInst (q : iq_core) (i : nat) : iq_core :=
  call_mem (upd_inst (upd_inst q i clear_translation) i (set_canIssue false)) (MemReschedule i).

Definition blockMemInst (q : iq_core) (i : nat) : iq_core :=
  set_blocked (blockedMemInsts q ++ [i]) (upd_inst (upd_inst q i clear_issued) i (set_canIssue false)).

Definition cacheUnblocked (q : iq_core) : iq_core :=
  set_blocked [] (set_retry_insts (retryMemInsts (ic_x q) ++ blockedMemInsts q) q).

(** The operands of a squashed instruction leave the graph, in [doSquash]. *)
Fixpoint squash_sources (fuel : nat) (q : iq_core) (g : dep_graph) (i : nat) (ks : list nat) : result dep_graph :=
  match ks with
  | [] => Done g
  | k :: ks' =>
      let r := renamedSrcIdx (inst_of q i) k in
      if negb (readySrcIdx (inst_of q i) k) && negb (alwaysReady r) then
        match dg_remove fuel g r i with
        | Done g' => squash_sources fuel q g' i ks'
        | Panic => Panic
        | NoFuel => NoFuel
        end
      else squash_sources fuel q g i ks'
  end.
End Queue.

(** ** CHAOSIQ *)

Inductive IqMode := SrcReadyBitFlip | TagSub | WakePhase | WakeOmit.
Inductive HookAction := ActNone | ActOmit | ActDefer.

#[global] Instance HookAction_eq_dec : EqDecision HookAction.
Proof. solve_decision. Defined.

Definition iq_stringToMode (s : string) : IqMode :=
  if String.eqb s "tag_sub" then TagSub
  else if String.eqb s "wake_phase" then WakePhase
  else if String.eqb s "wake_omit" then WakeOmit
  else SrcReadyBitFlip.

Record iq_params := IqParams {
  iqp_loop : loop_params; iqp_mode : IqMode; target_src_idx : Z; iqp_log : bool
}.

Record iq_state := IqState {
  iq_core_of : iq_core; iq_graph : dep_graph;
  iq_heads : Z -> option nat;          (* robAccess().readHeadInst(tid) *)
  iq_threads : Z; iq_active : Z -> bool;
  iq_attack : evt;
  pending_wakeups : list (nat * Z)
}.

Definition set_core (q : iq_core) (s : iq_state) : iq_state :=
  IqState q (iq_graph s) (iq_heads s) (iq_threads s) (iq_active s) (iq_attack s) (pending_wakeups s).
Definition set_graph (g : dep_graph) (s : iq_state) : iq_state :=
  IqState (iq_core_of s) g (iq_heads s) (iq_threads s) (iq_active s) (iq_attack s) (pending_wakeups s).
Definition on_iq_attack (f : evt -> evt) (s : iq_state) : iq_state :=
  IqState (iq_core_of s) (iq_graph s) (iq_heads s) (iq_threads s) (iq_active s) (f (iq_attack s)) (pending_wakeups s).
Definition set_pending (l : list (nat * Z)) (s : iq_state) : iq_state :=
  IqState (iq_core_of s) (iq_graph s) (iq_heads s) (iq_threads s) (iq_active s) (iq_attack s) l.

Abbreviation MI := (M iq_state).

(** The time of a call: the cycle of the processor and the tick. *)
Record moment := Moment { at_cycle : Z; at_tick : Z }.

Section CHAOSIQ.
Context (code : nat -> static_inst) (p : iq_params).

(** [hookWakeDependents]: the trial comes before the test of the cap. *)
Definition fire_wake (now : Z) (dep : nat) (reg : Z) : MI HookAction :=
  let! c := get_count in
  if cap_reached (lp_max (iqp_loop p)) c then ret ActNone
  else
    do! incr_count in
    do! bump numFaultsInjected in
    do! log_if (iqp_log p) (Entry "iq_wake_dependents" [("cycle", now); ("sn", seqNum (code dep)); ("reg", reg)]) in
    ret (match iqp_mode p with WakeOmit => ActOmit | _ => ActDefer end).

Definition hookWakeDependents (now : Z) (dep : nat) (reg : Z) : MI HookAction :=
  match iqp_mode p with
  | WakeOmit | WakePhase =>
      if Qeq_bool (lp_probability (iqp_loop p)) 0 then ret ActNone
      else if negb (in_window (lp_first (iqp_loop p)) (lp_last (iqp_loop p)) now) then ret ActNone
      else if Qle_bool 1 (lp_probability (iqp_loop p)) then fire_wake now dep reg
      else
        let! b := bernoulli (lp_probability (iqp_loop p)) in
        if b then fire_wake now dep reg else ret ActNone
  | _ => ret ActNone
  end.

Definition iq_writeLog (now tid : Z) (type : string) (src old_ready new_ready : Z) : MI unit :=
  log_if (iqp_log p) (Entry type
    [("cycle", now); ("thread", tid); ("src", src); ("old_ready", old_ready); ("new_ready", new_ready)]).

(** The source operand a polled fault hits. *)
Definition pick_src (nsrcs : Z) : MI Z :=
  if (target_src_idx p <? 0) || (nsrcs <=? target_src_idx p)
  then with_rng (uniform_int 0 (nsrcs - 1)) else ret (target_src_idx p).

Definition swap_srcs (k j : nat) (l : list Z) : list Z := <[j := l !!! k]> (<[k := l !!! j]> l).

Definition iq_processFault (now tid : Z) : MI unit :=
  let! c := get_count in
  if cap_reached (lp_max (iqp_loop p)) c then skip
  else
    let! s := get in
    match iq_heads s tid with
    | None => bump numLegalityRejects
    | Some head =>
        let d := inst_of (iq_core_of s) head in
        let nsrcs := Z.of_nat (length (renamedSrc d)) in
        if nsrcs =? 0 then bump numLegalityRejects
        else
          let! src := pick_src nsrcs in
          let k := Z.to_nat src in
          match iqp_mode p with
          | SrcReadyBitFlip =>
              let old := readySrcIdx d k in
              do! modify (set_core (upd_inst (iq_core_of s) head (set_readySrc k (negb old)))) in
              do! count_fault numSrcReadyBitFlips in
              iq_writeLog now tid "src_ready_bitflip" src (if old then 1 else 0) (if old then 0 else 1)
          | TagSub =>
              if nsrcs <? 2 then bump numLegalityRejects
              else
                let other := Z.to_nat ((src + 1) mod nsrcs) in
                do! modify (set_core (upd_inst (iq_core_of s) head (set_renamedSrc (swap_srcs k other (renamedSrc d))))) in
                do! count_fault numTagSub in
                iq_writeLog now tid "tag_sub" src 0 0
          | _ => bump numLegalityRejects
          end
    end.
End CHAOSIQ.

#[global] Instance iq_attack_state : AttackState iq_state := {|
  attack_of := iq_attack;
  on_attack := on_iq_attack;
  thread_count := iq_threads;
  thread_active s tid := iq_active s tid
|}.

#[global] Instance iq_attack_ok : AttackStateOk iq_state.
Proof. by constructor. Qed.

Definition iq_attackCheck (p : iq_params) (now : Z) : MI unit :=
  attackLoop (iqp_loop p) (iq_processFault p) now.

(** [startup]: the two wake modes are driven by the hook. *)
Definition iq_startup (p : iq_params) (now : Z) : MI unit :=
  match iqp_mode p with
  | WakeOmit | WakePhase => skip
  | _ => attackStartup (iqp_loop p) now
  end.

(** ** [wakeDependents] *)

(** [dependGraph.pop(idx)] *)
Definition pop_dep (idx : Z) : MI (option nat) :=
  let! s := get in
  let r := dg_pop (iq_graph s) idx in
  do! modify (set_graph r.2) in
  ret r.1.

(** A step that may fail, on the shared state. *)
Definition lift_core {A} (r : result iq_core) (k : MI (result A)) : MI (result A) :=
  match r with
  | Done q => do! modify (set_core q) in k
  | Panic => ret Panic
  | NoFuel => ret NoFuel
  end.

Section Wake.
Context (code : nat -> static_inst) (alwaysReady : Z -> bool) (inj : option iq_params) (t : moment).

(** [if (cpu->chaosIQ) act = hookWakeDependents(...)] *)
Definition wake_hook (d : nat) (idx : Z) : MI HookAction :=
  match inj with Some p => hookWakeDependents code p (at_cycle t) d idx | None => ret ActNone end.

(** The chain of a register: the entry in hand, whether one was put back, the count. *)
Fixpoint wake_loop (fuel : nat) (idx : Z) (dep : option nat) (requeued : bool) (n : Z) : MI (result (bool * Z)) :=
  match dep with
  | None => ret (Done (requeued, n))
  | Some d =>
      match fuel with
      | O => ret NoFuel
      | S fuel' =>
          let! act := wake_hook d idx in
          match act with
          | ActNone =>
              let! s := get in
              lift_core (wake_one code (iq_core_of s) d)
                (let! next := pop_dep idx in wake_loop fuel' idx next requeued (n + 1))
          | _ =>
              let! next := pop_dep idx in
              let! s := get in
              do! modify (set_graph (dg_insert (iq_graph s) idx d)) in
              do! (match act with
                   | ActDefer => modify (fun s => set_pending (pending_wakeups s ++ [(d, idx)]) s)
                   | _ => skip end) in
              wake_loop fuel' idx next true (n + 1)
          end
      end
  end.

(** A pinned register counts its writes. *)
Definition pin_write (completed : nat) (r : Z) (q : iq_core) : iq_core :=
  if pinnedReg q r then upd_inst (decr_pins q r) completed set_pinnedWritten else decr_pins q r.

(** One destination register of the completed instruction. *)
Definition wake_dest (fuel : nat) (completed : nat) (r : Z) : MI (result Z) :=
  if alwaysReady r then ret (Done 0)
  else
    do! modify (fun s => set_core (pin_write completed r (iq_core_of s)) s) in
    let! s := get in
    if negb (pinsLeft (iq_core_of s) r =? 0) then ret (Done 0)
    else
      let! dep := pop_dep r in
      let! o := wake_loop fuel r dep false 0 in
      match o with
      | Done (requeued, n) =>
          let! s := get in
          if negb requeued && negb (dg_empty (iq_graph s) r) then ret Panic
          else
            do! (if requeued then skip else modify (set_graph (dg_clearInst (iq_graph s) r))) in
            do! modify (fun s => set_core (set_score (iq_core_of s) r true) s) in
            ret (Done n)
      | Panic => ret Panic
      | NoFuel => ret NoFuel
      end.

Fixpoint wake_dests (fuel : nat) (completed : nat) (ds : list Z) (n : Z) : MI (result Z) :=
  match ds with
  | [] => ret (Done n)
  | r :: ds' =>
      let! o := wake_dest fuel completed r in
      match o with Done k => wake_dests fuel completed ds' (n + k) | _ => ret o end
  end.

(** The wake-ups a previous call deferred. *)
Fixpoint deliver (fuel : nat) (l : list (nat * Z)) : MI (result unit) :=
  match l with
  | [] => ret (Done tt)
  | (d, r) :: l' =>
      let! s := get in
      match dg_remove fuel (iq_graph s) r d with
      | Done g =>
          do! modify (set_graph g) in
          if squashed (inst_of (iq_core_of s) d) then deliver fuel l'
          else lift_core (wake_one code (iq_core_of s) d) (deliver fuel l')
      | Panic => ret Panic
      | NoFuel => ret NoFuel
      end
  end.

Definition deliver_pending (fuel : nat) : MI (result unit) :=
  match inj with
  | Some _ =>
      let! s := get in
      do! modify (set_pending []) in
      deliver fuel (pending_wakeups s)
  | None => ret (Done tt)
  end.

(** The memory dependence unit is told of a completed access or barrier; that it then hands
    accesses that waited for it to the ready lists is not part of this step. *)
Definition complete_mem (completed : nat) (q : iq_core) : iq_core :=
  if isMemRef (code completed)
  then upd_inst (upd_inst (call_mem q (MemComplete completed)) completed clear_inIQ) completed set_memDone
  else if isBarrier (code completed) then call_mem q (MemComplete completed) else q.

Definition wakeDependents (fuel : nat) (completed : nat) : MI (result Z) :=
  let! o := deliver_pending fuel in
  match o with
  | Done _ =>
      do! modify (fun s => set_core (upd_inst (iq_core_of s) completed (set_lastWake (at_tick t))) s) in
      let! s := get in
      if squashed (inst_of (iq_core_of s) completed) then ret Panic
      else
        do! modify (fun s => set_core (complete_mem completed (iq_core_of s)) s) in
        wake_dests fuel completed (si_dests (code completed)) 0
  | Panic => ret Panic
  | NoFuel => ret NoFuel
  end.
End Wake.

(** ** The specification of a wake-up *)

Section Spec.
Context (code : nat -> static_inst) (alwaysReady : Z -> bool).

Fixpoint wake_list (q : iq_core) (l : list nat) : result iq_core :=
  match l with
  | [] => Done q
  | i :: l' => match wake_one code q i with Done q' => wake_list q' l' | r => r end
  end.

(** Every destination that has its last write: all its waiters wake, once each, and the
    register is ready. *)
Fixpoint spec_wake (completed : nat) (q : iq_core) (f : chains) (ds : list Z) (n : Z) : result (iq_core * chains * Z) :=
  match ds with
  | [] => Done (q, f, n)
  | r :: ds' =>
      if alwaysReady r then spec_wake completed q f ds' n
      else
        let q1 := pin_write completed r q in
        if negb (pinsLeft q1 r =? 0) then spec_wake completed q1 f ds' n
        else
          match wake_list q1 (f r) with
          | Done q2 => spec_wake completed (set_score q2 r true) (fupd f r []) ds' (n + Z.of_nat (length (f r)))
          | Panic => Panic
          | NoFuel => NoFuel
          end
  end.

Definition spec_wakeDependents (t : moment) (completed : nat) (q : iq_core) (f : chains) : result (iq_core * chains * Z) :=
  let q1 := upd_inst q completed (set_lastWake (at_tick t)) in
  if squashed (inst_of q1 completed) then Panic
  else spec_wake completed (complete_mem code completed q1) f (si_dests (code completed)) 0.
End Spec.

(** * Lemmas *)

Lemma dg_rep_ext g f f' : (forall r, f' r = f r) -> dg_rep g f -> dg_rep g f'.
Proof. intros He [ptrs H]. exists ptrs. by eapply dg_shape_ext. Qed.

(** ** Popping and the hook *)

Lemma pop_dep_spec idx c s f : dg_rep (iq_graph s) f ->
  exists g, pop_dep idx (c, s) = ((spec_pop f idx).1, (c, set_graph g s)) /\ dg_rep g (spec_pop f idx).2.
Proof.
  intros H. destruct (dg_pop_rep _ _ idx H) as [H1 H2]. exists (dg_pop (iq_graph s) idx).2. split; [|done].
  unfold pop_dep. run. by rewrite H1.
Qed.

Lemma pop_cons idx c s f d l : dg_rep (iq_graph s) f -> f idx = d :: l ->
  exists g, pop_dep idx (c, s) = (Some d, (c, set_graph g s)) /\ dg_rep g (fupd f idx l).
Proof.
  intros H E. destruct (pop_dep_spec idx c s f H) as (g & Hp & Hg). exists g. unfold spec_pop in *. by rewrite E in *.
Qed.

Lemma pop_nil idx c s f : dg_rep (iq_graph s) f -> f idx = [] ->
  exists g, pop_dep idx (c, s) = (None, (c, set_graph g s)) /\ dg_rep g f.
Proof.
  intros H E. destruct (pop_dep_spec idx c s f H) as (g & Hp & Hg). exists g. unfold spec_pop in *. by rewrite E in *.
Qed.

(** The hook reads the state of the queue and leaves it alone. *)
Lemma fire_wake_state code p now d r s : (fire_wake code p now d r s).2.2 = s.2.
Proof.
  destruct s as [[g c st lg] x]. unfold fire_wake. run. destruct (cap_reached _ _); [done|]. by exec.
Qed.

Lemma hook_state code p now d r s : (hookWakeDependents code p now d r s).2.2 = s.2.
Proof.
  unfold hookWakeDependents. destruct (iqp_mode p); try done;
    (destruct (Qeq_bool _ _); [done|]; destruct (negb _); [done|]; destruct (Qle_bool _ _); [apply fire_wake_state|]);
    destruct s as [[g c st lg] x]; unfold bind at 1, bernoulli; run; unfold uniform_unit, next_raw; cbn [fst snd];
    (destruct (negb _); [by rewrite fire_wake_state|done]).
Qed.

Lemma wake_hook_state code inj t d r s : (wake_hook code inj t d r s).2.2 = s.2.
Proof. destruct inj; [apply hook_state|done]. Qed.

(** With probability 1 inside the window no trial is drawn: below the cap the hook fires,
    at the cap it does nothing. *)
Definition armed (p : iq_params) (now : Z) : Prop :=
  (1 <= lp_probability (iqp_loop p))%Q /\
  in_window (lp_first (iqp_loop p)) (lp_last (iqp_loop p)) now = true.

Definition mode_action (m : IqMode) : HookAction :=
  match m with WakeOmit => ActOmit | WakePhase => ActDefer | _ => ActNone end.

Lemma hook_armed code p now d r (s : core * iq_state) :
  armed p now -> mode_action (iqp_mode p) <> ActNone ->
  hookWakeDependents code p now d r s = fire_wake code p now d r s.
Proof.
  intros [Hp Hw] Hm. unfold hookWakeDependents. rewrite Hw. cbn [negb].
  replace (Qeq_bool (lp_probability (iqp_loop p)) 0) with false.
  2:{ symmetry. apply not_true_iff_false. rewrite Qeq_bool_iff. intros E. rewrite E in Hp. by apply Qle_bool_iff in Hp. }
  apply Qle_bool_iff in Hp as ->. by destruct (iqp_mode p).
Qed.

Lemma hook_capped code p now d r (s : core * iq_state) :
  armed p now -> cap_reached (lp_max (iqp_loop p)) (count_of s) = true ->
  hookWakeDependents code p now d r s = (ActNone, s).
Proof.
  intros Ha Hc. destruct (decide (mode_action (iqp_mode p) = ActNone)) as [E|E].
  - unfold hookWakeDependents. by destruct (iqp_mode p).
  - rewrite hook_armed by done. unfold fire_wake, bind, get_count. cbn [fst snd]. unfold count_of in Hc. by rewrite Hc.
Qed.

Lemma hook_fires code p now d r c (s : iq_state) :
  armed p now -> mode_action (iqp_mode p) <> ActNone -> cap_reached (lp_max (iqp_loop p)) (faults_injected_count c) = false ->
  exists c', hookWakeDependents code p now d r (c, s) = (mode_action (iqp_mode p), (c', s)) /\
    faults_injected_count c' = count_succ (faults_injected_count c) /\ rng c' = rng c.
Proof.
  intros Ha Hm Hc. rewrite hook_armed by done. destruct c as [g n st lg]. cbn in Hc. unfold fire_wake. run. rewrite Hc. exec.
  eexists. split; [by destruct (iqp_mode p)|done].
Qed.

(** ** The loop without faults *)

Definition woke (idx : Z) (f : chains) (c : core) (s : iq_state) (rq : bool) (n : Z) (l : list nat) (wl : result iq_core) (r : result (bool * Z) * (core * iq_state)) : Prop :=
  match wl with
  | Done q => exists g, dg_rep g (fupd f idx []) /\
      r = (Done (rq, n + Z.of_nat (length l)), (c, set_core q (set_graph g s)))
  | Panic => r.1 = Panic
  | NoFuel => False
  end.

Lemma push_ready_fuel code rl i : push_ready code rl i <> NoFuel.
Proof.
  unfold push_ready, addToOrderList. repeat (case_match; try done).
Qed.

Lemma wake_one_fuel code q i : wake_one code q i <> NoFuel.
Proof.
  unfold wake_one, addIfReady. repeat (case_match; try done).
  pose proof (push_ready_fuel code (ic_lists (upd_inst q i mark_ready)) i). by destruct (push_ready _ _ _).
Qed.

Lemma fupd_fupd {K V} `{EqDecision K} (f : K -> V) k v w x : fupd (fupd f k v) k w x = fupd f k w x.
Proof. unfold fupd. by case_decide. Qed.

Lemma wake_loop_none code inj t fuel idx rq n : wake_loop code inj t fuel idx None rq n = ret (Done (rq, n)).
Proof. by destruct fuel. Qed.

Section QuietLoop.
Context (code : nat -> static_inst) (inj : option iq_params) (t : moment) (c : core).
Hypothesis quiet_hook : forall d r s, wake_hook code inj t d r (c, s) = (ActNone, (c, s)).

Lemma wake_loop_quiet idx rq : forall fuel d f s n,
  dg_rep (iq_graph s) f -> (S (length (f idx)) <= fuel)%nat ->
  woke idx f c s rq n (d :: f idx) (wake_list code (iq_core_of s) (d :: f idx))
    (wake_loop code inj t fuel idx (Some d) rq n (c, s)).
Proof.
  induction fuel as [|fuel IH]; intros d f s n Hg Hf; [lia|]. cbn [wake_loop wake_list].
  unfold bind at 1. rewrite quiet_hook. unfold bind at 1, get. cbn [fst snd]. unfold lift_core.
  destruct (wake_one code (iq_core_of s) d) as [q| |] eqn:Ew; [|done|by apply wake_one_fuel in Ew].
  unfold bind at 1, modify. cbn [fst snd]. unfold bind at 1.
  destruct (f idx) as [|d' l] eqn:El.
  - destruct (pop_nil idx c (set_core q s) f Hg El) as (g & -> & Hg'). cbn [fst snd wake_list].
    exists g. split.
    + eapply dg_rep_ext; [|exact Hg']. intros r. unfold fupd. case_decide; congruence.
    + destruct fuel; reflexivity.
  - destruct (pop_cons idx c (set_core q s) f d' l Hg El) as (g & -> & Hg'). cbn [fst snd].
    specialize (IH d' (fupd f idx l) (set_graph g (set_core q s)) (n + 1) Hg').
    rewrite fupd_eq in IH. specialize (IH ltac:(cbn in Hf; lia)). cbn [iq_core_of set_graph set_core] in IH.
    destruct (wake_list code q (d' :: l)) as [q'| |]; [|done|done]. destruct IH as (g' & Hg'' & ->).
    exists g'. split; [eapply dg_rep_ext; [|exact Hg'']; intros; by rewrite fupd_fupd|].
    by replace (n + 1 + Z.of_nat (length (d' :: l))) with (n + Z.of_nat (length (d :: d' :: l))) by (cbn [length]; lia).
Qed.

(** A destination, without faults. *)
Definition dest_woke (r : Z) (f : chains) (s : iq_state) (wl : result iq_core) (o : result Z * (core * iq_state)) : Prop :=
  match wl with
  | Done q => exists g, dg_rep g (fupd f r []) /\
      o = (Done (Z.of_nat (length (f r))), (c, set_core (set_score q r true) (set_graph g s)))
  | Panic => o.1 = Panic
  | NoFuel => False
  end.

Lemma wake_dest_quiet alwaysReady fuel completed r f s :
  alwaysReady r = false -> pinsLeft (pin_write completed r (iq_core_of s)) r = 0 ->
  dg_rep (iq_graph s) f -> (length (f r) <= fuel)%nat ->
  dest_woke r f s (wake_list code (pin_write completed r (iq_core_of s)) (f r))
    (wake_dest code alwaysReady inj t fuel completed r (c, s)).
Proof.
  intros Ha Hp Hg Hf. unfold wake_dest. rewrite Ha. unfold bind at 1, modify. cbn [fst snd].
  unfold bind at 1, get. cbn [fst snd iq_core_of set_core]. rewrite Hp. cbn [negb Z.eqb]. unfold bind at 1.
  set (s1 := set_core _ s). destruct (f r) as [|d l] eqn:El.
  - destruct (pop_nil r c s1 f Hg El) as (g & -> & Hg'). cbn [fst snd wake_list length].
    unfold bind at 1. rewrite wake_loop_none. unfold ret at 1 2. cbn [fst snd].
    unfold bind at 1. cbn [fst snd iq_graph set_graph]. rewrite (dg_empty_rep _ _ _ Hg'), bool_decide_eq_true_2 by done.
    cbn [negb andb]. run. unfold dest_woke. rewrite El. eexists. split; [|done]. apply dg_clearInst_rep.
    eapply dg_rep_ext; [|exact Hg']. intros j. unfold fupd. case_decide; congruence.
  - destruct (pop_cons r c s1 f d l Hg El) as (g & -> & Hg'). cbn [fst snd]. unfold bind at 1.
    pose proof (wake_loop_quiet r false fuel d (fupd f r l) (set_graph g s1) 0 Hg') as H.
    rewrite fupd_eq in H. specialize (H ltac:(cbn in Hf; lia)). cbn [iq_core_of set_graph] in H.
    change (iq_core_of s1) with (pin_write completed r (iq_core_of s)) in H.
    destruct (wake_list code (pin_write completed r (iq_core_of s)) (d :: l)) as [q| |];
      [|cbn in H; destruct (wake_loop _ _ _ _ _ _ _ _ _) as [o ?]; cbn in H; by rewrite H|done].
    destruct H as (g' & Hg'' & ->). cbn [fst snd]. unfold bind at 1. cbn [fst snd iq_graph set_graph set_core].
    rewrite (dg_empty_rep _ _ _ Hg''), bool_decide_eq_true_2 by (unfold fupd; by case_decide).
    cbn [negb andb]. run. unfold dest_woke. rewrite El. eexists. split; [|done]. apply dg_clearInst_rep.
    eapply dg_rep_ext; [|exact Hg'']. intros j. by rewrite fupd_fupd.
Qed.

Lemma wake_dest_pinned alwaysReady fuel completed r s :
  alwaysReady r = false -> pinsLeft (pin_write completed r (iq_core_of s)) r <> 0 ->
  wake_dest code alwaysReady inj t fuel completed r (c, s) = (Done 0, (c, set_core (pin_write completed r (iq_core_of s)) s)).
Proof.
  intros Ha Hp. unfold wake_dest. rewrite Ha. unfold bind at 1, modify. cbn [fst snd].
  unfold bind at 1, get. cbn [fst snd iq_core_of set_core]. by apply Z.eqb_neq in Hp as ->.
Qed.

(** All of it. *)
Definition wake_refines (s : iq_state) (a : result (iq_core * chains * Z)) (o : result Z * (core * iq_state)) : Prop :=
  match a with
  | Done (q, f, n) => exists g, dg_rep g f /\ o = (Done n, (c, set_core q (set_graph g s)))
  | Panic => o.1 = Panic
  | NoFuel => False
  end.

Lemma wake_dests_quiet alwaysReady fuel completed ds : forall f s n,
  dg_rep (iq_graph s) f -> (forall r, (length (f r) <= fuel)%nat) ->
  wake_refines s (spec_wake code alwaysReady completed (iq_core_of s) f ds n)
    (wake_dests code alwaysReady inj t fuel completed ds n (c, s)).
Proof.
  induction ds as [|r ds IH]; intros f s n Hg Hf; cbn [spec_wake wake_dests].
  - exists (iq_graph s). split; [done|]. by destruct s.
  - unfold bind at 1. destruct (alwaysReady r) eqn:Ea.
    + unfold wake_dest. rewrite Ea. cbn [fst snd ret]. rewrite Z.add_0_r. by apply IH.
    + destruct (pinsLeft (pin_write completed r (iq_core_of s)) r =? 0) eqn:Ep; cbn [negb].
      * pose proof (wake_dest_quiet alwaysReady fuel completed r f s Ea) as H. bools.
        specialize (H Ep Hg (Hf r)). destruct (wake_list code _ (f r)) as [q| |];
          [|cbn in H; destruct (wake_dest _ _ _ _ _ _ _ _) as [o ?]; cbn in H; by rewrite H|done].
        destruct H as (g & Hg' & ->). cbn [fst snd].
        specialize (IH (fupd f r []) (set_core (set_score q r true) (set_graph g s))
                       (n + Z.of_nat (length (f r))) Hg').
        apply IH. intros r'. unfold fupd. case_decide; [cbn; lia|apply Hf].
      * bools. rewrite wake_dest_pinned by done. cbn [fst snd]. rewrite Z.add_0_r. by apply (IH f (set_core (pin_write completed r (iq_core_of s)) s)).
Qed.
End QuietLoop.

(** ** The loop with faults *)

Section Fire.
Context (code : nat -> static_inst) (p : iq_params) (t : moment).

Definition pending_after (m : IqMode) (d : nat) (idx : Z) (l : list (nat * Z)) : list (nat * Z) :=
  match m with WakePhase => l ++ [(d, idx)] | _ => l end.

(** A fault puts the entry in hand back, below the next one. *)
Lemma wake_loop_fire fuel idx d rq n c c' s f :
  hookWakeDependents code p (at_cycle t) d idx (c, s) = (mode_action (iqp_mode p), (c', s)) ->
  mode_action (iqp_mode p) <> ActNone -> dg_rep (iq_graph s) f ->
  exists g, dg_rep g (fupd f idx (d :: tail (f idx))) /\
    wake_loop code (Some p) t (S fuel) idx (Some d) rq n (c, s) =
    wake_loop code (Some p) t fuel idx (head (f idx)) true (n + 1)
      (c', set_pending (pending_after (iqp_mode p) d idx (pending_wakeups s)) (set_graph g s)).
Proof.
  intros Hh Hm Hg.
  assert (exists g, pop_dep idx (c', s) = (head (f idx), (c', set_graph g s)) /\ dg_rep g (fupd f idx (tail (f idx))))
    as (g & Hp & Hg').
  { destruct (f idx) as [|d' l] eqn:El; [|by apply pop_cons].
    destruct (pop_nil idx c' s f Hg El) as (g & H1 & H2). exists g. split; [done|].
    eapply dg_rep_ext; [|exact H2]. intros r. unfold fupd. case_decide; [subst; by rewrite El|done]. }
  exists (dg_insert g idx d). split.
  { pose proof (dg_insert_rep _ _ idx d Hg') as H. eapply dg_rep_ext; [|exact H]. intros r.
    rewrite fupd_fupd, fupd_eq. done. }
  cbn [wake_loop wake_hook]. unfold bind at 1. rewrite Hh. cbn [fst snd].
  destruct (iqp_mode p); cbn [mode_action] in *; try done;
    (unfold bind at 1; rewrite Hp; cbn [fst snd]; unfold bind, modify, get, skip, ret; cbn [fst snd]; reflexivity).
Qed.

(** The end of a destination one of whose waiters was put back. *)
Lemma wake_dest_popped alwaysReady fuel completed r c s g d :
  let s1 := set_core (pin_write completed r (iq_core_of s)) s in
  alwaysReady r = false -> pinsLeft (iq_core_of s1) r = 0 ->
  pop_dep r (c, s1) = (Some d, (c, set_graph g s1)) ->
  wake_dest code alwaysReady (Some p) t fuel completed r (c, s) =
  (let! o := wake_loop code (Some p) t fuel r (Some d) false 0 in
   match o with
   | Done (requeued, n) =>
       let! s := get in
       if negb requeued && negb (dg_empty (iq_graph s) r) then ret Panic
       else
         do! (if requeued then skip else modify (set_graph (dg_clearInst (iq_graph s) r))) in
         do! modify (fun s => set_core (set_score (iq_core_of s) r true) s) in
         ret (Done n)
   | Panic => ret Panic
   | NoFuel => ret NoFuel
   end) (c, set_graph g s1).
Proof.
  intros s1 Ha Hp Hpop. unfold wake_dest. rewrite Ha. unfold bind at 1. cbn [modify fst snd].
  unfold bind at 1. cbn [get fst snd]. fold s1. rewrite Hp. cbn [negb Z.eqb]. unfold bind at 1. by rewrite Hpop.
Qed.

Lemma wake_dest_requeued alwaysReady fuel completed r c s g d n c2 s2 :
  let s1 := set_core (pin_write completed r (iq_core_of s)) s in
  alwaysReady r = false -> pinsLeft (iq_core_of s1) r = 0 ->
  pop_dep r (c, s1) = (Some d, (c, set_graph g s1)) ->
  wake_loop code (Some p) t fuel r (Some d) false 0 (c, set_graph g s1) = (Done (true, n), (c2, s2)) ->
  wake_dest code alwaysReady (Some p) t fuel completed r (c, s) =
    (Done n, (c2, set_core (set_score (iq_core_of s2) r true) s2)).
Proof.
  intros s1 Ha Hp Hpop Hl. rewrite (wake_dest_popped _ _ _ _ _ _ _ _ Ha Hp Hpop).
  unfold bind at 1. fold s1. rewrite Hl. cbn [fst snd negb andb]. by run.
Qed.

Lemma wake_dest_fails alwaysReady fuel completed r c s g d e s3 :
  let s1 := set_core (pin_write completed r (iq_core_of s)) s in
  (e = Panic \/ e = NoFuel) -> alwaysReady r = false -> pinsLeft (iq_core_of s1) r = 0 ->
  pop_dep r (c, s1) = (Some d, (c, set_graph g s1)) ->
  wake_loop code (Some p) t fuel r (Some d) false 0 (c, set_graph g s1) = (e, s3) ->
  (wake_dest code alwaysReady (Some p) t fuel completed r (c, s)).1 =
    match e with Panic => Panic | _ => NoFuel end.
Proof.
  intros s1 He Ha Hp Hpop Hl. rewrite (wake_dest_popped _ _ _ _ _ _ _ _ Ha Hp Hpop).
  unfold bind at 1. fold s1. rewrite Hl. by destruct He as [-> | ->].
Qed.
End Fire.

(** ** Waiting and ready operands *)

Definition occ (i : nat) (l : list nat) : Z := Z.of_nat (length (filter (fun j => j = i) l)).

Lemma occ_cons i j l : occ i (j :: l) = (if decide (j = i) then 1 else 0) + occ i l.
Proof. unfold occ. rewrite filter_cons. case_decide; cbn [length]; lia. Qed.

Lemma occ_perm i l l' : l ≡ₚ l' -> occ i l = occ i l'.
Proof. unfold occ. by intros ->. Qed.

Lemma addIfReady_insts code q i q' j : addIfReady code q i = Done q' -> inst_of q' j = inst_of q j.
Proof.
  unfold addIfReady. destruct (canIssue _); [|by intros [= <-]]. destruct (isMemRef _); [by intros [= <-]|].
  destruct (push_ready _ _ _); [by intros [= <-]|done|done].
Qed.

Lemma wake_one_inst code q i q' j :
  wake_one code q i = Done q' -> inst_of q' j = if decide (j = i) then mark_ready (inst_of q i) else inst_of q j.
Proof. unfold wake_one. intros H. rewrite (addIfReady_insts _ _ _ _ j H). cbn. unfold fupd. by case_decide. Qed.

Definition numSrcs (d : dyn_inst) : Z := Z.of_nat (length (renamedSrc d)).

(** How often [i] waits, over the registers [regs]. *)
Fixpoint waits (regs : list Z) (f : chains) (i : nat) : Z :=
  match regs with [] => 0 | r :: regs' => occ i (f r) + waits regs' f i end.

Lemma occ_nonneg i l : 0 <= occ i l.
Proof. unfold occ. lia. Qed.

Lemma occ_nil i : occ i [] = 0.
Proof. done. Qed.

Lemma occ_zero i l : occ i l = 0 <-> i ∉ l.
Proof.
  induction l as [|j l IH]; [split; [intros _; apply not_elem_of_nil|done]|]. rewrite occ_cons, not_elem_of_cons.
  pose proof (occ_nonneg i l). case_decide; [subst; naive_solver lia|naive_solver].
Qed.

Lemma waits_nonneg regs f i : 0 <= waits regs f i.
Proof. induction regs as [|r regs IH]; cbn; [lia|]. pose proof (occ_nonneg i (f r)). lia. Qed.

Lemma waits_ext regs f f' i : (forall r, r ∈ regs -> f' r = f r) -> waits regs f' i = waits regs f i.
Proof.
  induction regs as [|r regs IH]; intros H; cbn; [done|]. rewrite IH, H by set_solver. done.
Qed.

Lemma waits_fupd regs f r l i : NoDup regs -> r ∈ regs ->
  waits regs (fupd f r l) i = waits regs f i - occ i (f r) + occ i l.
Proof.
  induction regs as [|r' regs IH]; intros Hd Hin; [by apply not_elem_of_nil in Hin|]. cbn.
  apply NoDup_cons in Hd as [Hn Hd]. destruct (decide (r' = r)) as [->|Hne].
  - rewrite fupd_eq, (waits_ext regs f); [lia|]. intros j Hj. rewrite fupd_ne; [done|]. by intros ->.
  - apply elem_of_cons in Hin as [->|Hin]; [done|]. rewrite fupd_ne, IH by done. lia.
Qed.

Lemma waits_zero regs f i : (forall r, r ∉ regs -> f r = []) -> waits regs f i = 0 <-> (forall r, i ∉ f r).
Proof.
  intros Hs. split.
  - intros H r. destruct (decide (r ∈ regs)) as [Hr|Hr]; [|rewrite Hs by done; apply not_elem_of_nil].
    apply occ_zero. clear Hs. induction regs as [|r' regs IH]; [by apply not_elem_of_nil in Hr|]. cbn in H.
    pose proof (occ_nonneg i (f r')). pose proof (waits_nonneg regs f i).
    apply elem_of_cons in Hr as [->|Hr]; [lia|apply IH; [lia|done]].
  - intros H. clear Hs. induction regs as [|r regs IH]; cbn; [done|]. rewrite IH. pose proof (H r) as ->%occ_zero. done.
Qed.

(** Every source of [i] is ready, on a list, or in hand ([h]); it can issue only when all are
    ready, and unless it is a memory access it then can. *)
Definition acct (code : nat -> static_inst) (regs : list Z) (q : iq_core) (f : chains) (h : list nat) (i : nat) : Prop :=
  let d := inst_of q i in
  0 <= readyRegs d /\ readyRegs d + waits regs f i + occ i h = numSrcs d /\ numSrcs d < 2 ^ 8 /\
  (canIssue d = true -> waits regs f i + occ i h = 0) /\
  (isMemRef (code i) = false -> waits regs f i + occ i h = 0 -> canIssue d = true).

(** What the rest of the queue may do to the operands of [i]: hold back a memory access. *)
Definition operands_kept (code : nat -> static_inst) (q q' : iq_core) (i : nat) : Prop :=
  readyRegs (inst_of q' i) = readyRegs (inst_of q i) /\ numSrcs (inst_of q' i) = numSrcs (inst_of q i) /\
  (canIssue (inst_of q' i) = canIssue (inst_of q i) \/ isMemRef (code i) = true /\ canIssue (inst_of q' i) = false).

Lemma operands_kept_inst code q q' i : inst_of q' i = inst_of q i -> operands_kept code q q' i.
Proof. unfold operands_kept. intros ->. by split_and!; [..|left]. Qed.

(** Operands after updates of the flags of one instruction. *)
Ltac kept :=
  unfold operands_kept; cbn; unfold fupd; repeat case_decide; subst;
  first [by split_and!; [..|left] | by split_and!; [..|right]].

Lemma acct_kept code regs q q' f f' h h' i :
  operands_kept code q q' i -> waits regs f' i + occ i h' = waits regs f i + occ i h ->
  acct code regs q f h i -> acct code regs q' f' h' i.
Proof.
  unfold acct. intros (-> & -> & Hc) Hw (H1 & H2 & H3 & H4 & H5). rewrite Hw.
  destruct Hc as [-> | [Hm ->]]; split_and!; (done || lia || congruence).
Qed.

Lemma acct_ext code regs q q' f f' h h' i :
  inst_of q' i = inst_of q i -> waits regs f' i + occ i h' = waits regs f i + occ i h ->
  acct code regs q f h i -> acct code regs q' f' h' i.
Proof. intros E. by apply acct_kept, operands_kept_inst. Qed.

Lemma wake_one_acct code regs q q' f d h i :
  wake_one code q d = Done q' -> acct code regs q f (d :: h) i -> acct code regs q' f h i.
Proof.
  intros Hw Ha. pose proof (wake_one_inst code q d q' i Hw) as Hi. destruct (decide (i = d)) as [->|Hne].
  - destruct Ha as (H1 & H2 & H3 & H4 & H5). rewrite occ_cons, decide_True in * by done. unfold acct. rewrite Hi.
    pose proof (waits_nonneg regs f d). pose proof (occ_nonneg d h).
    cbn [mark_ready readyRegs canIssue renamedSrc]. change (numSrcs (mark_ready (inst_of q d))) with (numSrcs (inst_of q d)).
    fold (numSrcs (inst_of q d)). rewrite Z.mod_small by lia. split_and!; [lia|lia|done|..];
      destruct (Z.eqb_spec (readyRegs (inst_of q d) + 1) (numSrcs (inst_of q d))); (done || lia || (intros ?%H4; lia)).
  - eapply acct_ext; [exact Hi| |exact Ha]. rewrite occ_cons, decide_False by done. lia.
Qed.

(** ** The invariant of the queue *)

(** Of the instructions in [live], with those of [seen] the only ones on the lists. *)
Definition iq_inv (code : nat -> static_inst) (regs : list Z) (seen live h : list nat) (s : iq_state) : Prop :=
  exists f, dg_rep (iq_graph s) f /\ (forall r, r ∉ regs -> f r = []) /\ (forall r, Forall (fun i => i ∈ seen) (f r)) /\
    Forall (fun i => i ∈ seen) h /\ (forall i, i ∈ live -> acct code regs (iq_core_of s) f h i).

Lemma iq_inv_core code regs seen live h s q :
  (forall i, i ∈ live -> operands_kept code (iq_core_of s) q i) ->
  iq_inv code regs seen live h s -> iq_inv code regs seen live h (set_core q s).
Proof.
  intros Hq (f & H1 & H2 & H3 & H4 & H5). exists f. split_and!; try done. intros i Hi.
  by eapply acct_kept; [by apply Hq| |by apply H5].
Qed.

Section Inv.
Context (code : nat -> static_inst) (regs : list Z) (Hregs : NoDup regs).

Lemma iq_inv_pop seen live h idx c s : iq_inv code regs seen live h s ->
  let o := pop_dep idx (c, s) in
  o.2.1 = c /\ (exists g, o.2.2 = set_graph g s) /\
  iq_inv code regs seen live (h ++ match o.1 with Some d => [d] | None => [] end) o.2.2 /\ (o.1 <> None -> idx ∈ regs).
Proof.
  intros (f & Hg & Hsup & Hseen & Hh & Ha) o. unfold o. destruct (f idx) as [|d l] eqn:El.
  - destruct (pop_nil idx c s f Hg El) as (g & -> & Hg'). cbn. split_and!; [done|by exists g| |done].
    rewrite app_nil_r. exists f. by split_and!.
  - destruct (pop_cons idx c s f d l Hg El) as (g & -> & Hg'). cbn.
    assert (idx ∈ regs) as Hr.
    { destruct (decide (idx ∈ regs)) as [|Hn]; [done|]. by rewrite (Hsup _ Hn) in El. }
    split_and!; [done|by exists g| |done].
    pose proof (Hseen idx) as Hs. rewrite El in Hs. apply Forall_cons in Hs as [Hs1 Hs2].
    exists (fupd f idx l). split_and!; [done| | |apply Forall_app; by split; [|constructor]|].
    + intros r Hn. rewrite fupd_ne; [by apply Hsup|]. by intros ->.
    + intros r. unfold fupd. by case_decide.
    + intros i Hi. eapply acct_ext; [done| |by apply Ha].
      rewrite waits_fupd, El, (occ_perm i (h ++ [d]) (d :: h)), !occ_cons by (done || by rewrite Permutation_app_comm). lia.
Qed.

Lemma iq_inv_put_back seen live idx d h s : idx ∈ regs -> iq_inv code regs seen live (d :: h) s ->
  iq_inv code regs seen live h (set_graph (dg_insert (iq_graph s) idx d) s).
Proof.
  intros Hr (f & Hg & Hsup & Hseen & Hh & Ha). apply Forall_cons in Hh as [Hd Hh].
  exists (fupd f idx (d :: f idx)). split_and!; [by apply dg_insert_rep| | |done|].
  - intros r Hn. rewrite fupd_ne; [by apply Hsup|]. by intros ->.
  - intros r. unfold fupd. case_decide; [|done]. by constructor.
  - intros i Hi. eapply acct_ext; [done| |by apply Ha].
    rewrite waits_fupd, !occ_cons by done. lia.
Qed.

Lemma iq_inv_wake seen live d h s q : wake_one code (iq_core_of s) d = Done q ->
  iq_inv code regs seen live (d :: h) s -> iq_inv code regs seen live h (set_core q s).
Proof.
  intros Hw (f & H1 & H2 & H3 & H4 & H5). apply Forall_cons in H4 as [_ H4]. exists f. split_and!; try done.
  intros i Hi. eapply wake_one_acct; [exact Hw|]. by apply H5.
Qed.

(** Every mode but [WakePhase] leaves the pending list alone. *)
Definition no_defer (inj : option iq_params) : Prop :=
  match inj with Some p => iqp_mode p <> WakePhase | None => True end.

Lemma fire_wake_action p now d r s :
  (fire_wake code p now d r s).1 = ActNone \/
  (fire_wake code p now d r s).1 = match iqp_mode p with WakeOmit => ActOmit | _ => ActDefer end.
Proof.
  destruct s as [[g c st lg] x]. unfold fire_wake. run. destruct (cap_reached _ _); [by left|]. exec. by right.
Qed.

Lemma hook_action p now d r s :
  (hookWakeDependents code p now d r s).1 = ActNone \/ (hookWakeDependents code p now d r s).1 = mode_action (iqp_mode p).
Proof.
  unfold hookWakeDependents. pose proof (fun s' => fire_wake_action p now d r s') as Hf.
  destruct (iqp_mode p); try (by left); (destruct (Qeq_bool _ _); [by left|]; destruct (negb _); [by left|]);
    (destruct (Qle_bool _ _); [apply Hf|]; unfold bind; destruct (bernoulli _ s).1; [apply Hf|by left]).
Qed.

Lemma wake_hook_no_defer inj t d r s : no_defer inj -> (wake_hook code inj t d r s).1 <> ActDefer.
Proof.
  destruct inj as [p|]; [|done]. cbn. intros Hm. unfold hookWakeDependents. destruct (iqp_mode p) eqn:E; try done.
  destruct (Qeq_bool _ _); [done|]. destruct (negb _); [done|].
  assert (forall s, (fire_wake code p (at_cycle t) d r s).1 <> ActDefer) as Hf.
  { intros s'. destruct (fire_wake_action p (at_cycle t) d r s') as [-> | ->]; [done|]. by rewrite E. }
  destruct (Qle_bool _ _); [apply Hf|]. unfold bind. by destruct (bernoulli _ s).1.
Qed.

Lemma wake_loop_inv inj t seen live idx : no_defer inj -> forall fuel dep rq n s v s',
  (dep <> None -> idx ∈ regs) ->
  iq_inv code regs seen live (match dep with Some d => [d] | None => [] end) s.2 -> pending_wakeups s.2 = [] ->
  wake_loop code inj t fuel idx dep rq n s = (Done v, s') ->
  iq_inv code regs seen live [] s'.2 /\ pending_wakeups s'.2 = [].
Proof.
  intros Hm. induction fuel as [|fuel IH]; intros [d|] rq n s v s' Hr Hi Hp; cbn [wake_loop];
    [done|by intros [= <- <-]| |by intros [= <- <-]].
  unfold bind at 1. pose proof (wake_hook_state code inj t d idx s) as Hst.
  pose proof (wake_hook_no_defer inj t d idx s Hm) as Hnd.
  destruct (wake_hook code inj t d idx s) as [act [c1 s1]]. cbn [fst snd] in *. subst s1.
  specialize (Hr ltac:(done)). destruct act; [| |done].
  - unfold bind at 1. cbn [get fst snd]. unfold lift_core. destruct (wake_one code (iq_core_of s.2) d) as [q| |] eqn:Ew; [|done|done].
    unfold bind at 1. cbn [modify fst snd]. unfold bind at 1.
    pose proof (iq_inv_wake seen live d [] s.2 q Ew Hi) as Hi1.
    destruct (iq_inv_pop seen live [] idx c1 _ Hi1) as (Hc & (g & Hg) & Hi2 & Hne).
    destruct (pop_dep idx _) as [next s2]. cbn [fst snd] in *. intros H. eapply IH; [..|exact H]; try done. by rewrite Hg.
  - unfold bind at 1. destruct (iq_inv_pop seen live [d] idx c1 s.2 Hi) as (Hc & (g & Hg) & Hi2 & Hne).
    destruct (pop_dep idx (c1, s.2)) as [next [c2 s2]]. cbn [fst snd app] in *.
    unfold bind at 1. cbn [get fst snd]. unfold bind at 1. cbn [modify fst snd]. unfold bind at 1. cbn [skip ret fst snd].
    apply (iq_inv_put_back seen live idx) in Hi2; [|done]. intros H. eapply IH; [..|exact H]; try done. cbn. by rewrite Hg.
Qed.

Lemma pin_write_operands completed r q i :
  operands_kept code q (pin_write completed r q) i.
Proof.
  unfold pin_write. destruct (pinnedReg q r); [|by apply operands_kept_inst].
  kept.
Qed.

Definition quiet_inv (seen live : list nat) (s : core * iq_state) : Prop :=
  iq_inv code regs seen live [] s.2 /\ pending_wakeups s.2 = [].

Lemma wake_dest_inv alwaysReady inj t seen live fuel completed r s n s' : no_defer inj -> quiet_inv seen live s ->
  wake_dest code alwaysReady inj t fuel completed r s = (Done n, s') -> quiet_inv seen live s'.
Proof.
  intros Hm [Hi Hp]. unfold wake_dest. destruct (alwaysReady r); [by intros [= _ <-]|].
  unfold bind at 1. cbn [modify fst snd]. unfold bind at 1. cbn [get fst snd].
  pose proof (iq_inv_core code regs seen live [] s.2 _ (fun i _ => pin_write_operands completed r _ i) Hi) as Hi1.
  set (s1 := set_core _ s.2) in *. destruct (negb _); [by intros [= _ <-]|].
  unfold bind at 1. destruct (iq_inv_pop seen live [] r s.1 s1 Hi1) as (_ & (g & Hg) & Hi2 & Hr).
  destruct (pop_dep r (s.1, s1)) as [dep s2]. cbn [fst snd app] in *.
  unfold bind at 1. destruct (wake_loop code inj t fuel r dep false 0 s2) as [[[rq k]| |] s3] eqn:El; [|done|done].
  destruct (wake_loop_inv inj t seen live r Hm _ _ _ _ _ _ _ Hr Hi2 ltac:(by rewrite Hg) El) as [Hi3 Hp3]. cbn [fst snd].
  unfold bind at 1. cbn [get fst snd]. destruct (negb rq && _); [done|]. unfold bind at 1. destruct rq; run.
  - intros [= _ <-]. split; [|done]. apply iq_inv_core; [|done]. intros. by apply operands_kept_inst.
  - intros [= _ <-]. split; [|done]. apply iq_inv_core; [intros; by apply operands_kept_inst|].
    destruct Hi3 as (f & H1 & H2). exists f. split; [by apply dg_clearInst_rep|done].
Qed.

Lemma wake_dests_inv alwaysReady inj t seen live fuel completed ds : no_defer inj -> forall s n v s',
  quiet_inv seen live s -> wake_dests code alwaysReady inj t fuel completed ds n s = (Done v, s') -> quiet_inv seen live s'.
Proof.
  intros Hm. induction ds as [|r ds IH]; intros s n v s' Hq; cbn [wake_dests]; [by intros [= _ <-]|].
  unfold bind. destruct (wake_dest code alwaysReady inj t fuel completed r s) as [[k| |] s1] eqn:E; [|done|done].
  cbn [fst snd]. apply IH. by eapply wake_dest_inv.
Qed.

Lemma complete_mem_operands completed q i :
  operands_kept code q (complete_mem code completed q) i.
Proof.
  unfold complete_mem. destruct (isMemRef _); [|by destruct (isBarrier _); apply operands_kept_inst].
  kept.
Qed.

Lemma wakeDependents_inv alwaysReady inj t seen live fuel completed s n s' : no_defer inj -> quiet_inv seen live s ->
  wakeDependents code alwaysReady inj t fuel completed s = (Done n, s') -> quiet_inv seen live s'.
Proof.
  intros Hm [Hi Hp]. unfold wakeDependents. unfold bind at 1.
  assert (deliver_pending code inj fuel s = (Done tt, s)) as ->.
  { destruct s as [c s]. unfold deliver_pending. destruct inj; [|done]. run. cbn [snd] in Hp. rewrite Hp.
    cbn [deliver]. unfold ret. destruct s. cbn in *. by rewrite Hp. }
  cbn [fst snd]. unfold bind at 1. cbn [modify fst snd]. unfold bind at 1. cbn [get fst snd].
  destruct (squashed _); [done|]. unfold bind at 1. cbn [modify fst snd]. apply wake_dests_inv; [done|].
  split; [|done]. apply iq_inv_core; [intros; apply complete_mem_operands|].
  apply iq_inv_core; [|done]. intros i _. kept.
Qed.

(** ** Insertion *)

Definition falses (l : list bool) : Z := Z.of_nat (length (filter (fun b => b = false) l)).

(** An instruction as rename and decode leave it: the count of ready sources agrees with
    the bits, and a register that is always ready was found ready. *)
Record dispatched (alwaysReady : Z -> bool) (d : dyn_inst) : Prop := {
  dp_len : length (readySrc d) = length (renamedSrc d);
  dp_small : numSrcs d < 2 ^ 8;
  dp_count : 0 <= readyRegs d /\ readyRegs d + falses (readySrc d) = numSrcs d;
  dp_issue : canIssue d = true <-> readyRegs d = numSrcs d;
  dp_regs : forall k r, renamedSrc d !! k = Some r ->
    if alwaysReady r then readySrc d !! k = Some true else r ∈ regs
}.

(** Half way through its sources, [k] being the next. *)
Definition half_added (seen live : list nat) (i k : nat) (d0 : dyn_inst) (q : iq_core) (g : dep_graph) : Prop :=
  exists f, dg_rep g f /\ (forall r, r ∉ regs -> f r = []) /\ (forall r, Forall (fun j => j ∈ i :: seen) (f r)) /\
    (forall j, j ∈ live -> acct code regs q f [] j) /\
    let d := inst_of q i in
    renamedSrc d = renamedSrc d0 /\ length (readySrc d) = length (readySrc d0) /\
    drop k (readySrc d) = drop k (readySrc d0) /\ 0 <= readyRegs d /\
    readyRegs d + waits regs f i + falses (drop k (readySrc d)) = numSrcs d /\
    (canIssue d = true <-> readyRegs d = numSrcs d).

Lemma falses_drop (l : list bool) k (b : bool) : l !! k = Some b -> falses (drop k l) = (if b then 0 else 1) + falses (drop (S k) l).
Proof.
  intros H. rewrite (drop_S _ _ _ H). unfold falses. rewrite filter_cons. by destruct b; case_decide; cbn [length]; try done; lia.
Qed.

Lemma falses_nonneg l : 0 <= falses l.
Proof. unfold falses. lia. Qed.

Lemma add_source_half alwaysReady seen live i k d0 q g : i ∉ live -> dispatched alwaysReady d0 -> (k < length (renamedSrc d0))%nat ->
  half_added seen live i k d0 q g ->
  let o := add_source alwaysReady i (q, g) k in half_added seen live i (S k) d0 o.1 o.2.
Proof.
  intros Hil Hd Hk (f & Hg & Hsup & Hseen & Hacct & Hsrc & Hlen & Hdrop & Hnn & Hcount & Hiss). cbn zeta.
  pose proof (dp_len _ _ Hd) as Hl0.
  destruct (lookup_lt_is_Some_2 (readySrc d0) k) as [b Hb]; [lia|].
  destruct (lookup_lt_is_Some_2 (renamedSrc d0) k) as [r Hr]; [done|].
  assert (readySrc (inst_of q i) !! k = Some b) as Hb'.
  { pose proof (lookup_drop (readySrc (inst_of q i)) k 0) as E. rewrite Hdrop, lookup_drop, Nat.add_0_r in E. congruence. }
  assert (drop (S k) (readySrc (inst_of q i)) = drop (S k) (readySrc d0)) as Hdrop'.
  { apply (drop_S _ _ _) in Hb', Hb. rewrite Hb, Hb' in Hdrop. by simplify_eq. }
  rewrite (falses_drop _ _ _ Hb') in Hcount. pose proof (waits_nonneg regs f i). pose proof (falses_nonneg (drop (S k) (readySrc (inst_of q i)))).
  assert (numSrcs (inst_of q i) < 2 ^ 8) as Hsmall by (unfold numSrcs; rewrite Hsrc; apply Hd).
  cbn [add_source]. unfold readySrcIdx, renamedSrcIdx. rewrite Hsrc.
  rewrite (list_lookup_total_correct _ _ _ Hb'), (list_lookup_total_correct _ _ _ Hr). pose proof (dp_regs _ _ Hd k r Hr) as Hreg.
  destruct b; [exists f; split_and!; try done; cbn in *; lia|].
  destruct (alwaysReady r); [congruence|]. destruct (regScoreboard q r); cbn [negb fst snd].
  - exists f. split_and!; try done.
    + intros j Hj. eapply acct_ext; [|done|by apply Hacct]. cbn. rewrite !fupd_ne; try done; by intros ->.
    + cbn. rewrite !fupd_eq. cbn. rewrite Hsrc. split_and!; try done.
      * by rewrite length_insert.
      * by rewrite drop_insert_lt by lia.
      * apply Z.mod_pos_bound. lia.
      * rewrite drop_insert_lt, Z.mod_small by lia. unfold numSrcs in *. cbn. rewrite Hsrc in *. lia.
      * rewrite Z.mod_small by lia. unfold numSrcs in *. cbn. rewrite Hsrc in *.
        destruct (Z.eqb_spec (readyRegs (inst_of q i) + 1) (Z.of_nat (length (renamedSrc d0)))); [done|].
        rewrite Hiss. lia.
  - exists (fupd f r (i :: f r)). split_and!; try done.
    + by apply dg_insert_rep.
    + intros r' Hn. rewrite fupd_ne; [by apply Hsup|]. by intros ->.
    + intros r'. unfold fupd. case_decide; [|done]. constructor; [apply list_elem_of_here|done].
    + intros j Hj. eapply acct_ext; [done| |by apply Hacct].
      rewrite waits_fupd, occ_cons, decide_False by (done || by intros ->). lia.
    + rewrite waits_fupd, occ_cons, decide_True by done. cbn zeta. split_and!; try done. lia.
Qed.

Lemma add_sources_half alwaysReady seen live i d0 n : i ∉ live -> dispatched alwaysReady d0 -> forall k q g,
  (k + n)%nat = length (renamedSrc d0) -> half_added seen live i k d0 q g ->
  let o := foldl (add_source alwaysReady i) (q, g) (seq k n) in half_added seen live i (k + n) d0 o.1 o.2.
Proof.
  intros Hi Hd. induction n as [|n IH]; intros k q g Hk H; cbn [seq foldl].
  - cbn zeta. by rewrite Nat.add_0_r.
  - pose proof (add_source_half alwaysReady seen live i k d0 q g Hi Hd ltac:(lia) H) as H'. cbn zeta in H'.
    destruct (add_source alwaysReady i (q, g) k) as [q1 g1]. rewrite Nat.add_succ_r. apply (IH (S k)); [lia|done].
Qed.

Lemma add_producers_inv alwaysReady seen live i ds : forall q g s q' g',
  iq_inv code regs seen live [] (set_core q (set_graph g s)) -> add_producers alwaysReady q g i ds = Done (q', g') ->
  iq_inv code regs seen live [] (set_core q' (set_graph g' s)).
Proof.
  induction ds as [|r ds IH]; intros q g s q' g' H; cbn; [by intros [= <- <-]|].
  destruct (alwaysReady r); [by apply IH|]. destruct (negb _); [done|]. apply IH.
  destruct H as (f & H1 & H2 & H3 & H4 & H5). exists f. split_and!; try done. by apply dg_setInst_rep.
Qed.

(** A memory access is held back. *)
Lemma hold_kept q i j : isMemRef (code i) = true -> operands_kept code q (upd_inst q i (set_canIssue false)) j.
Proof. intros Hm. kept. Qed.

Lemma mem_insert_kept dep q i j : isMemRef (code i) = true -> operands_kept code q (mem_insert dep q i) j.
Proof. unfold mem_insert. destruct dep; [apply (hold_kept (call_mem q (MemInsert i)))|by intros; apply operands_kept_inst]. Qed.

Lemma reschedule_kept q i j : isMemRef (code i) = true -> operands_kept code q (rescheduleMemInst q i) j.
Proof. intros Hm. kept. Qed.

Lemma block_kept q i j : isMemRef (code i) = true -> operands_kept code q (blockMemInst q i) j.
Proof. intros Hm. kept. Qed.

Lemma iq_insert_inv alwaysReady dep seen live i s q g :
  iq_inv code regs seen live [] s -> i ∉ seen -> i ∉ live -> dispatched alwaysReady (inst_of (iq_core_of s) i) ->
  iq_insert code alwaysReady dep (iq_core_of s) (iq_graph s) i = Done (q, g) ->
  iq_inv code regs (i :: seen) (i :: live) [] (set_core q (set_graph g s)).
Proof.
  intros (f & Hg & Hsup & Hseen & _ & Ha) His Hil Hd. unfold iq_insert, addToDependents.
  set (d0 := inst_of (iq_core_of s) i) in *.
  assert (waits regs f i = 0) as Hw.
  { apply waits_zero; [done|]. intros r Hr. specialize (Hseen r). rewrite Forall_forall in Hseen. by apply His, Hseen. }
  assert (half_added seen live i 0 d0 (iq_core_of s) (iq_graph s)) as H0.
  { exists f. pose proof (dp_count _ _ Hd). split_and!; try done.
    - intros r. eapply Forall_impl; [apply Hseen|]. cbn. intros. by apply list_elem_of_further.
    - fold d0. cbn zeta. rewrite Hw, drop_0. split_and!; try done; try lia. apply Hd. }
  pose proof (add_sources_half alwaysReady seen live i d0 _ Hil Hd 0 _ _ eq_refl H0) as H1. cbn zeta in H1.
  destruct (foldl _ _ _) as [q1 g1]. cbn [fst snd] in H1.
  destruct H1 as (f1 & Hg1 & Hsup1 & Hseen1 & Ha1 & Hsrc & Hlen & _ & Hnn & Hcount & Hiss).
  assert (iq_inv code regs (i :: seen) (i :: live) [] (set_core q1 (set_graph g1 s))) as H2.
  { exists f1. split_and!; try done. intros j [->|Hj]%elem_of_cons; [|by apply Ha1].
    rewrite drop_ge in Hcount by (rewrite Hlen, (dp_len _ _ Hd); unfold d0; lia).
    assert (falses [] = 0) as E by done. rewrite E in Hcount. unfold acct. cbn [set_core iq_core_of]. split_and!; [done|rewrite occ_nil; lia| | |].
    - unfold numSrcs. rewrite Hsrc. apply Hd.
    - intros Hc%Hiss. rewrite occ_nil. lia.
    - intros _ Hz. rewrite occ_nil in Hz. apply Hiss. lia. }
  unfold addToProducers. destruct (add_producers alwaysReady q1 g1 i _) as [[q2 g2]| |] eqn:Ep; [|done|done].
  eapply add_producers_inv in H2; [|exact Ep]. destruct (isMemRef _) eqn:Em.
  - intros [= <- <-]. apply (iq_inv_core _ _ _ _ _ (set_core q2 (set_graph g2 s))); [|done].
    intros j _. by apply mem_insert_kept.
  - destruct (addIfReady code q2 i) as [q3| |] eqn:Er; [|done|done]. cbn. intros [= <- <-].
    apply (iq_inv_core _ _ _ _ _ (set_core q2 (set_graph g2 s))); [|done].
    intros j _. apply operands_kept_inst. by apply (addIfReady_insts code q2 i).
Qed.

(** ** Squash *)

Lemma occ_remove i j l : i <> j -> occ i (remove_first j l) = occ i l.
Proof.
  intros Hne. induction l as [|k l IH]; cbn; [done|]. case_decide; rewrite !occ_cons; [|by rewrite IH].
  rewrite decide_False by congruence. lia.
Qed.

Lemma remove_first_sub i l : remove_first i l ⊆ l.
Proof. induction l as [|k l IH]; cbn; [done|]. case_decide; set_solver. Qed.

Lemma lseg_fun nodes start ps l : forall ps' l', lseg nodes start ps l -> lseg nodes start ps' l' -> l = l'.
Proof.
  revert start l. induction ps as [|p ps IH]; intros start l ps' l' H H'.
  - destruct l; [|done]. destruct start; [by apply lseg_some in H as (? & ? & ? & ? & _)|].
    by apply lseg_none in H' as [_ ->].
  - destruct l as [|i l]; [done|]. destruct H as (-> & Hi & H).
    apply lseg_some in H' as (ps2 & i2 & l2 & -> & -> & Hi2 & H'). f_equal; [congruence|]. by eapply IH.
Qed.

Lemma dg_rep_fun g f f' r : dg_rep g f -> dg_rep g f' -> f r = f' r.
Proof. intros [ps H] [ps' H']. eapply lseg_fun; [apply (shape_seg _ _ _ H)|apply (shape_seg _ _ _ H')]. Qed.

(** Fuel for the longest list. *)
Definition fits (fuel : nat) (g : dep_graph) : Prop := forall f r, dg_rep g f -> (length (f r) <= fuel)%nat.

Lemma remove_inv seen live r d fuel g s : iq_inv code regs seen live [] s -> d ∉ live ->
  dg_remove fuel (iq_graph s) r d = Done g -> fits fuel (iq_graph s) ->
  iq_inv code regs seen live [] (set_graph g s) /\ fits fuel g.
Proof.
  intros (f & Hg & Hsup & Hseen & _ & Ha) Hd Hr Hfuel. pose proof (dg_remove_rep fuel _ f r d Hg (Hfuel f r Hg)) as H.
  cbn in H. destruct (decide (f r = [])) as [E|E].
  { destruct H as (g' & Hr' & Hg'). rewrite Hr in Hr'. injection Hr' as <-. split; [exists f; by split_and!|].
    intros f' r' Hf'. rewrite (dg_rep_fun _ _ _ r' Hf' Hg'). by apply Hfuel. }
  destruct (decide (d ∈ f r)); [|congruence]. destruct H as (g' & Hr' & Hg'). rewrite Hr in Hr'. injection Hr' as <-. split.
  - assert (r ∈ regs) as Hin. { destruct (decide (r ∈ regs)); [done|]. by rewrite Hsup in E. }
    exists (fupd f r (remove_first d (f r))). split_and!; try done.
    + intros r' Hn. rewrite fupd_ne; [by apply Hsup|]. by intros ->.
    + intros r'. unfold fupd. case_decide; [|done]. apply Forall_forall. intros j Hj%remove_first_sub.
      specialize (Hseen r). rewrite Forall_forall in Hseen. by apply Hseen.
    + intros i Hi. eapply acct_ext; [done| |by apply Ha].
      rewrite waits_fupd, occ_remove by (done || by intros ->). lia.
  - intros f' r' Hf'. rewrite (dg_rep_fun _ _ _ r' Hf' Hg'). pose proof (Hfuel f r' Hg).
    unfold fupd. case_decide; [subst|done]. pose proof (remove_first_length d (f r)). lia.
Qed.

Lemma squash_inv alwaysReady fuel seen live d ks : d ∉ live -> forall g s g', fits fuel g ->
  iq_inv code regs seen live [] (set_graph g s) ->
  squash_sources alwaysReady fuel (iq_core_of s) g d ks = Done g' -> iq_inv code regs seen live [] (set_graph g' s).
Proof.
  intros Hd. induction ks as [|k ks IH]; intros g s g' Hf Hi; cbn; [by intros [= <-]|].
  destruct (_ && _); [|by apply IH]. destruct (dg_remove fuel g _ d) as [g1| |] eqn:E; [|done|done].
  destruct (remove_inv seen live _ d fuel g1 (set_graph g s) Hi Hd E Hf) as [Hi1 Hf1]. by apply IH.
Qed.

(** ** Polled faults *)

Lemma processFault_operands p now tid s :
  (exists q, (iq_processFault p now tid s).2.2 = set_core q s.2 /\
     forall i, operands_kept code (iq_core_of s.2) q i).
Proof.
  assert (forall x : iq_state, exists q, x = set_core q x /\ forall i, operands_kept code (iq_core_of x) q i) as Hid.
  { intros x. exists (iq_core_of x). split; [by destruct x|]. intros. by apply operands_kept_inst. }
  destruct s as [[g c st lg] x]. unfold iq_processFault. unfold bind at 1. cbn [get_count fst snd faults_injected_count].
  destruct (cap_reached _ _); [apply Hid|]. unfold bind at 1. cbn [get fst snd].
  destruct (iq_heads x tid) as [head|]; [|apply Hid]. destruct (_ =? 0); [apply Hid|].
  unfold bind at 1. assert (exists src g', pick_src p (Z.of_nat (length (renamedSrc (inst_of (iq_core_of x) head)))) (Core g c st lg, x) =
    (src, (Core g' c st lg, x))) as (src & g' & ->).
  { unfold pick_src. destruct (_ || _); run; by eexists _, _. }
  cbn [fst snd]. destruct (iqp_mode p); try apply Hid.
  - unfold iq_writeLog, count_fault. exec. eexists. split; [done|]. intros i. kept.
  - destruct (_ <? 2); [apply Hid|]. unfold iq_writeLog, count_fault. exec. eexists. split; [done|]. intros i. unfold operands_kept. cbn. unfold fupd.
    case_decide; subst; [|by split_and!; [..|left]]. split_and!; [done| |by left]. unfold numSrcs. cbn. unfold swap_srcs. by rewrite !length_insert.
Qed.
End Inv.

(** ** Reachable states *)

Section Reach.
Context (code : nat -> static_inst) (alwaysReady : Z -> bool) (inj : option iq_params) (regs : list Z).

(** The instructions seen so far, those still tracked, and the state: the queue starts with
    an empty graph; an instruction is dispatched, and the memory dependence unit may hold it
    back; a non-speculative one is dispatched, which is not tracked, or reaches commit; one
    completes and wakes its dependents; one is squashed; a memory access is rescheduled or
    blocked; CHAOSIQ attacks the head of the reorder buffer; and the rest of the processor
    changes what it likes but the operands and [CanIssue] of tracked instructions. *)
Inductive iq_reach : list nat -> list nat -> core * iq_state -> Prop :=
| iq_start c s : iq_graph s = dg_init -> pending_wakeups s = [] -> iq_reach [] [] (c, s)
| iq_dispatch seen live c s dep i q g : iq_reach seen live (c, s) -> i ∉ seen ->
    dispatched regs alwaysReady (inst_of (iq_core_of s) i) ->
    iq_insert code alwaysReady dep (iq_core_of s) (iq_graph s) i = Done (q, g) ->
    iq_reach (i :: seen) (i :: live) (c, set_core q (set_graph g s))
| iq_dispatch_nonspec seen live c s i q g : iq_reach seen live (c, s) -> i ∉ seen ->
    insertNonSpec code alwaysReady (iq_core_of s) (iq_graph s) i = Done (q, g) ->
    iq_reach (i :: seen) live (c, set_core q (set_graph g s))
| iq_commit_nonspec seen live c s i q : iq_reach seen live (c, s) -> i ∉ live ->
    scheduleNonSpec code (iq_core_of s) i = Done q -> iq_reach seen live (c, set_core q s)
| iq_reschedule seen live c s i : iq_reach seen live (c, s) -> isMemRef (code i) = true ->
    iq_reach seen live (c, set_core (rescheduleMemInst (iq_core_of s) i) s)
| iq_block seen live c s i : iq_reach seen live (c, s) -> isMemRef (code i) = true ->
    iq_reach seen live (c, set_core (blockMemInst (iq_core_of s) i) s)
| iq_complete seen live s t fuel i n s' : iq_reach seen live s ->
    wakeDependents code alwaysReady inj t fuel i s = (Done n, s') -> iq_reach seen live s'
| iq_squash seen live c s fuel d ks g : iq_reach seen live (c, s) -> fits fuel (iq_graph s) ->
    squash_sources alwaysReady fuel (iq_core_of s) (iq_graph s) d ks = Done g ->
    iq_reach seen (filter (fun i => i <> d) live) (c, set_graph g s)
| iq_poll seen live s p now tid : iq_reach seen live s -> inj = Some p ->
    iq_reach seen live (iq_processFault p now tid s).2
| iq_rest seen live c s c' q' heads threads active attack : iq_reach seen live (c, s) ->
    (forall i, i ∈ live -> readyRegs (inst_of q' i) = readyRegs (inst_of (iq_core_of s) i) /\
       numSrcs (inst_of q' i) = numSrcs (inst_of (iq_core_of s) i) /\
       canIssue (inst_of q' i) = canIssue (inst_of (iq_core_of s) i)) ->
    iq_reach seen live (c', IqState q' (iq_graph s) heads threads active attack (pending_wakeups s)).

Lemma add_producers_insts i j ds : forall q g q' g',
  add_producers alwaysReady q g i ds = Done (q', g') -> inst_of q' j = inst_of q j.
Proof.
  induction ds as [|r ds IH]; intros q g q' g'; cbn; [by intros [= <- <-]|].
  destruct (alwaysReady r); [apply IH|]. destruct (negb _); [done|]. intros H. by rewrite (IH _ _ _ _ H).
Qed.

Lemma insertNonSpec_inv seen live i s q g :
  iq_inv code regs seen live [] s -> insertNonSpec code alwaysReady (iq_core_of s) (iq_graph s) i = Done (q, g) ->
  iq_inv code regs (i :: seen) live [] (set_core q (set_graph g s)).
Proof.
  intros (f & H1 & H2 & H3 & _ & H5). unfold insertNonSpec, addToProducers.
  set (q0 := set_nonSpec _ _). destruct (add_producers _ q0 _ _ _) as [[q1 g1]| |] eqn:E; [|done|done]. intros [= <- <-].
  assert (iq_inv code regs (i :: seen) live [] (set_core q1 (set_graph g1 s))) as Hi.
  { eapply (add_producers_inv code regs alwaysReady); [|exact E]. exists f. split_and!; try done.
    intros r. eapply Forall_impl; [apply H3|]. cbn. intros. by apply list_elem_of_further. }
  destruct (isMemRef _); [|done]. apply (iq_inv_core _ _ _ _ _ (set_core q1 (set_graph g1 s))); [|done].
  intros. by apply operands_kept_inst.
Qed.

Lemma scheduleNonSpec_kept q i q' j : scheduleNonSpec code q i = Done q' -> j <> i -> operands_kept code q q' j.
Proof.
  unfold scheduleNonSpec. destruct (negb _); [done|]. set (q1 := upd_inst _ _ _). intros H Hne. apply operands_kept_inst.
  assert (inst_of q1 j = inst_of q j) as <- by (cbn; by rewrite fupd_ne).
  destruct (isMemRef _); [by injection H as <-|].
  destruct (addIfReady code q1 i) as [q2| |] eqn:E; [|done|done]. injection H as <-. exact (addIfReady_insts code q1 i q2 j E).
Qed.

Lemma iq_reach_inv seen live s : NoDup regs -> no_defer inj -> iq_reach seen live s ->
  quiet_inv code regs seen live s /\ live ⊆ seen.
Proof.
  intros Hr Hm. induction 1 as [c s Hg Hp|seen live c s dep i q g _ [[Hi Hp] Hsub] Hn Hd Hins|seen live c s i q g _ [[Hi Hp] Hsub] Hn Hins
    |seen live c s i q _ [[Hi Hp] Hsub] Hn Hq|seen live c s i _ [[Hi Hp] Hsub] Hmem|seen live c s i _ [[Hi Hp] Hsub] Hmem
    |seen live s t fuel i n s' _ [IH Hsub] Hw
    |seen live c s fuel d ks g _ [[Hi Hp] Hsub] Hf Hsq|seen live s p now tid _ [[Hi Hp] Hsub] Hinj|seen live c s c' q' heads threads active attack _ [[Hi Hp] Hsub] Hq].
  - split; [|done]. split; [|done]. exists (fun _ => []). cbn. rewrite Hg. split_and!; try done; [apply dg_rep_init|by intros i ?%not_elem_of_nil].
  - split; [|set_solver]. split; [|done]. apply (iq_insert_inv code regs Hr alwaysReady dep seen live i s q g); [done|done|set_solver|done|done].
  - split; [|set_solver]. split; [|done]. by apply insertNonSpec_inv.
  - split; [|done]. split; [|done]. apply iq_inv_core; [|done]. intros j Hj. eapply scheduleNonSpec_kept; [done|]. by intros ->.
  - split; [|done]. split; [|done]. apply iq_inv_core; [|done]. intros j _. by apply reschedule_kept.
  - split; [|done]. split; [|done]. apply iq_inv_core; [|done]. intros j _. by apply block_kept.
  - split; [|done]. by eapply wakeDependents_inv.
  - split; [|intros i [_ Hin]%list_elem_of_filter; by apply Hsub]. split; [|done].
    eapply (squash_inv code regs Hr alwaysReady fuel seen _ d ks); [|exact Hf| |exact Hsq];
      [by intros [? _]%list_elem_of_filter|].
    destruct Hi as (f & H1 & H2 & H3 & H4 & H5). exists f. split_and!; try done.
    intros i [_ Hin]%list_elem_of_filter. by apply H5.
  - split; [|done]. destruct (processFault_operands code p now tid s) as (q & Hq & Ho). split; rewrite Hq; [by apply iq_inv_core|done].
  - split; [|done]. split; [|done].
    assert (forall i, i ∈ live -> operands_kept code (iq_core_of s) q' i) as Hk.
    { intros i Hl. destruct (Hq i Hl) as (? & ? & ?). by split_and!; [..|left]. }
    destruct (iq_inv_core code regs seen live [] s q' Hk Hi) as (f & H1 & H2 & H3 & H4 & H5).
    exists f. by split_and!.
Qed.
End Reach.

(** ** Counting *)

#[global] Instance hookWake_capped code p now d r :
  CappedHook (lp_max (iqp_loop p)) (hookWakeDependents code p now d r).
Proof. unfold hookWakeDependents, fire_wake. counted. Qed.

#[global] Instance iq_fault_capped p now tid : CappedHook (lp_max (iqp_loop p)) (iq_processFault p now tid).
Proof. unfold iq_processFault, pick_src, iq_writeLog. counted. Qed.

(** ** An example *)

(** Instruction 0 produces register 5, for which 1 and 2 wait; each has two sources. *)
Definition iq_example_code (i : nat) : static_inst :=
  StaticInst (10 + Z.of_nat i) 1 false false KInt 0 (if decide (i = 0%nat) then [5] else [6]).
Definition iq_example_inst : dyn_inst :=
  DynInst [5; 7] [false; false] 0 false false false true false false false false None None.
Definition iq_example_core : iq_core :=
  IqCore no_ready (ExecState (fun _ => iq_example_inst) (fun _ => mk_pool []) [] 0 [] 0 [] [] [] false)
    (fun _ => false) (fun _ => 1) (fun _ => false) [] [].
Definition iq_example_state (waiters : list nat) : iq_state :=
  IqState iq_example_core (foldl (fun g i => dg_insert g 5 i) dg_init (rev waiters)) (fun _ => None) 1 (fun _ => true) evt0 [].
Definition iq_example_chains (waiters : list nat) : chains :=
  foldl (fun f i => fupd f 5 (i :: f 5)) (fun _ => []) (rev waiters).
Definition iq_example_params (m : IqMode) (mx : Z) : iq_params := IqParams (LoopParams 1 0 0 mx false) m 0 false.
Definition iq_example_rng : core := Core (Engine (fun _ => 0) 0) 0 stats0 [].

Lemma iq_example_rep waiters : dg_rep (iq_graph (iq_example_state waiters)) (iq_example_chains waiters).
Proof.
  cbn. unfold iq_example_chains. generalize dg_rep_init. generalize dg_init, (fun _ : Z => @nil nat).
  induction (rev waiters) as [|i l IH]; intros g f H; cbn; [done|]. by apply IH, dg_insert_rep.
Qed.

(** * Theorems *)

(** ** Without faults *)

(** C24 Without an injector [wakeDependents] over the linked lists of the dependency graph
    does what it documents: for each destination register that received its last write, it
    wakes every waiter exactly once and in order, marks the register ready, leaves its list
    empty and returns the number woken; the assertion that the list has drained never fires
    and the length of the lists is enough fuel. *)
Theorem wakeDependents_refines code alwaysReady t fuel completed (s : core * iq_state) f :
  dg_rep (iq_graph s.2) f -> (forall r, (length (f r) <= fuel)%nat) ->
  wake_refines s.1 s.2 (spec_wakeDependents code alwaysReady t completed (iq_core_of s.2) f)
    (wakeDependents code alwaysReady None t fuel completed s).
Proof.
  intros Hg Hf. destruct s as [c s]. unfold wakeDependents, spec_wakeDependents. cbn [deliver_pending fst snd].
  unfold bind at 1, ret at 1 2. cbn [fst snd]. unfold bind at 1, modify. cbn [fst snd].
  unfold bind at 1, get. cbn [fst snd iq_core_of set_core]. destruct (squashed _); [done|].
  unfold bind at 1. cbn [fst snd iq_core_of set_core].
  set (q := complete_mem _ _ _).
  by apply (wake_dests_quiet code None t c (fun _ _ _ => eq_refl) alwaysReady fuel completed _ f (set_core q s)).
Qed.

Lemma wakeDependents_refines_witness :
  exists g, wakeDependents iq_example_code (fun _ => false) None (Moment 3 30) 9 0 (iq_example_rng, iq_example_state [1; 2]%nat) =
    (Done 2, (iq_example_rng,
      set_core (set_score (upd_inst (upd_inst (decr_pins (upd_inst iq_example_core 0 (set_lastWake 30)) 5) 1 mark_ready) 2 mark_ready) 5 true)
        (set_graph g (iq_example_state [1; 2]%nat)))).
Proof.
  pose proof (wakeDependents_refines iq_example_code (fun _ => false) (Moment 3 30) 9 0
    (iq_example_rng, iq_example_state [1; 2]%nat) (iq_example_chains [1; 2]%nat) (iq_example_rep _)) as H.
  destruct H as (g & _ & H); [|by exists g].
  intros r. unfold iq_example_chains. cbn. unfold fupd. repeat case_decide; cbn; lia.
Defined.

(** C20 In every state the queue can reach, through dispatch, completion, squash, holding
    back, blocking and rescheduling of memory accesses, non-speculative instructions, faults
    of CHAOSIQ in every mode but the deferred wake-up, and any other step that leaves the
    dependency graph and the operands of tracked instructions alone (such as the memory
    dependence unit handing an access to the ready lists), each source of a tracked
    instruction is either counted ready or one entry on the list of waiters of a register; the
    instruction is marked as able to issue only if it waits for no
    register; and if it is no memory access, which the memory dependence unit may hold back,
    it is so marked whenever it waits for none. *)
Theorem operands_accounted code alwaysReady inj regs seen live s i :
  NoDup regs -> no_defer inj -> iq_reach code alwaysReady inj regs seen live s -> i ∈ live ->
  exists f, dg_rep (iq_graph s.2) f /\
    readyRegs (inst_of (iq_core_of s.2) i) + waits regs f i = numSrcs (inst_of (iq_core_of s.2) i) /\
    (canIssue (inst_of (iq_core_of s.2) i) = true -> (forall r, i ∉ f r)) /\
    (isMemRef (code i) = false -> (forall r, i ∉ f r) -> canIssue (inst_of (iq_core_of s.2) i) = true).
Proof.
  intros Hr Hm Hreach Hi. destruct (iq_reach_inv _ _ _ _ _ _ _ Hr Hm Hreach) as [[(f & H1 & H2 & _ & _ & H5) _] _].
  destruct (H5 i Hi) as (_ & Ha & _ & Hc & Hc'). exists f. rewrite occ_nil, Z.add_0_r in *.
  rewrite (waits_zero regs f i H2) in Hc, Hc'. by split_and!.
Qed.

(** Instruction 1 is dispatched, and the producer of one of its two sources completes. *)
Definition iq_example_dispatched : iq_state :=
  match iq_insert iq_example_code (fun _ => false) false iq_example_core dg_init 1 with
  | Done (q, g) => set_core q (set_graph g (iq_example_state []))
  | _ => iq_example_state []
  end.
Definition iq_example_run : result Z * (core * iq_state) :=
  wakeDependents iq_example_code (fun _ => false) (Some (iq_example_params WakeOmit 0)) (Moment (-1) 0) 9 0
    (iq_example_rng, iq_example_dispatched).

Lemma pair_eta {A B} (p : A * B) a : p.1 = a -> p = (a, p.2).
Proof. by destruct p; intros <-. Qed.

Lemma iq_example_reach :
  iq_reach iq_example_code (fun _ => false) (Some (iq_example_params WakeOmit 0)) [5; 6; 7] [1%nat] [1%nat] iq_example_run.2.
Proof.
  apply (iq_complete _ _ _ _ _ _ (iq_example_rng, iq_example_dispatched) (Moment (-1) 0) 9 0 1).
  - unfold iq_example_dispatched.
    assert (match iq_insert iq_example_code (fun _ => false) false iq_example_core dg_init 1 with Done _ => true | _ => false end = true) as H
      by (by vm_compute).
    destruct (iq_insert iq_example_code (fun _ => false) false iq_example_core dg_init 1) as [[q g]| |] eqn:E; [|done|done].
    apply (iq_dispatch _ _ _ _ [] [] iq_example_rng (iq_example_state []) false 1); [by apply iq_start|apply not_elem_of_nil| |exact E].
    split; try done. intros [|[|k]] r; cbn; intros [= <-]; set_solver.
  - unfold iq_example_run. apply pair_eta. vm_compute. reflexivity.
Qed.

Lemma operands_accounted_witness :
  exists f, dg_rep (iq_graph iq_example_run.2.2) f /\
    readyRegs (inst_of (iq_core_of iq_example_run.2.2) 1) + waits [5; 6; 7] f 1 = numSrcs (inst_of (iq_core_of iq_example_run.2.2) 1) /\
    (canIssue (inst_of (iq_core_of iq_example_run.2.2) 1) = true -> (forall r, 1%nat ∉ f r)) /\
    (isMemRef (iq_example_code 1) = false -> (forall r, 1%nat ∉ f r) -> canIssue (inst_of (iq_core_of iq_example_run.2.2) 1) = true).
Proof.
  apply (operands_accounted iq_example_code (fun _ => false) (Some (iq_example_params WakeOmit 0)) [5; 6; 7] [1%nat] [1%nat]
           iq_example_run.2 1).
  - decided.
  - done.
  - apply iq_example_reach.
  - apply list_elem_of_here.
Defined.

(** ** With faults *)

(** The premises of the theorems on one destination: the register receives its last write,
    and [f r] are its waiters. *)
Record wake_setup (alwaysReady : Z -> bool) (completed : nat) (r : Z) (f : chains) (s : iq_state) : Prop := {
  ws_tracked : alwaysReady r = false;
  ws_pins : pinsLeft (pin_write completed r (iq_core_of s)) r = 0;
  ws_rep : dg_rep (iq_graph s) f
}.

(** The fault cap leaves room for exactly one more fault. *)
Definition one_left (p : iq_params) (c : core) : Prop :=
  cap_reached (lp_max (iqp_loop p)) (faults_injected_count c) = false /\
  cap_reached (lp_max (iqp_loop p)) (count_succ (faults_injected_count c)) = true.

(** One fault on a register with at least two waiters: the first one is put back, comes up
    again after the second, and is woken with the others. *)
Definition woken_anyway (p : iq_params) (code : nat -> static_inst) (completed : nat) (r : Z) (d1 d2 : nat) (l : list nat) (f : chains) (c : core) (s : iq_state) (o : result Z * (core * iq_state)) : Prop :=
  match wake_list code (pin_write completed r (iq_core_of s)) (d2 :: d1 :: l) with
  | Done q => exists g c', dg_rep g (fupd f r []) /\ faults_injected_count c' = count_succ (faults_injected_count c) /\
      o = (Done (Z.of_nat (length l) + 3),
           (c', set_core (set_score q r true)
                  (set_pending (pending_after (iqp_mode p) d1 r (pending_wakeups s)) (set_graph g s))))
  | Panic => o.1 = Panic
  | NoFuel => False
  end.

Lemma one_fault_woken_anyway code p t alwaysReady fuel completed r f c s d1 d2 l :
  armed p (at_cycle t) -> wake_setup alwaysReady completed r f s -> mode_action (iqp_mode p) <> ActNone -> one_left p c ->
  f r = d1 :: d2 :: l -> (length l + 3 <= fuel)%nat ->
  woken_anyway p code completed r d1 d2 l f c s
    (wake_dest code alwaysReady (Some p) t fuel completed r (c, s)).
Proof.
  intros Ha [Hr Hp Hg] Hm [Hc1 Hc2] El Hf. destruct fuel as [|fuel]; [lia|].
  set (s1 := set_core (pin_write completed r (iq_core_of s)) s).
  destruct (pop_cons r c s1 f d1 (d2 :: l) Hg El) as (g & Hpop & Hg1).
  destruct (hook_fires code p (at_cycle t) d1 r c (set_graph g s1) Ha Hm Hc1) as (c' & Hh & Hn & _).
  destruct (wake_loop_fire code p t fuel r d1 false 0 c c' _ _ Hh Hm Hg1) as (g2 & Hg2 & Hl).
  rewrite fupd_eq in Hg2, Hl. cbn [head tail] in Hg2, Hl. set (s2 := set_pending _ _) in Hl.
  assert (forall d r' s', wake_hook code (Some p) t d r' (c', s') = (ActNone, (c', s'))) as Hq.
  { intros. apply hook_capped; [done|]. unfold count_of. cbn. by rewrite Hn. }
  assert (dg_rep (iq_graph s2) (fupd f r (d1 :: l))) as Hg3.
  { eapply dg_rep_ext; [|exact Hg2]. intros x. by rewrite fupd_fupd. }
  pose proof (wake_loop_quiet code (Some p) t c' Hq r true fuel d2 _ s2 (0 + 1) Hg3) as Hw.
  rewrite fupd_eq in Hw. specialize (Hw ltac:(cbn; lia)). rewrite <- Hl in Hw.
  change (iq_core_of s2) with (pin_write completed r (iq_core_of s)) in Hw. unfold woken_anyway.
  destruct (wake_list code (pin_write completed r (iq_core_of s)) (d2 :: d1 :: l)) as [q| |]; [| |done].
  - destruct Hw as (g3 & Hg4 & Hw). pose proof (wake_dest_requeued code p t alwaysReady _ completed r c s g d1 _ _ _ Hr Hp Hpop Hw) as Hd.
    exists g3, c'. split_and!; [eapply dg_rep_ext; [|exact Hg4]; intros; by rewrite fupd_fupd|done|].
    rewrite Hd. by replace (0 + 1 + Z.of_nat (length (d2 :: d1 :: l))) with (Z.of_nat (length l) + 3) by (cbn; lia).
  - unfold woke in Hw. destruct (wake_loop code (Some p) t (S fuel) r (Some d1) false 0 _) as [o s3] eqn:E.
    cbn [fst] in Hw. subst o. rewrite (wake_dest_fails code p t alwaysReady _ completed r c s g d1 Panic s3); auto.
Qed.

(** A fault on the only waiter: it is put back and nobody wakes it. *)
Definition put_back (p : iq_params) (completed : nat) (r : Z) (d : nat) (f : chains) (s : iq_state) (g : dep_graph) (o : result Z * (core * iq_state)) : Prop :=
  dg_rep g (fupd f r [d]) /\
  exists c', o = (Done 1, (c', set_core (set_score (pin_write completed r (iq_core_of s)) r true)
                            (set_pending (pending_after (iqp_mode p) d r (pending_wakeups s)) (set_graph g s)))).

Lemma one_waiter_put_back code p t alwaysReady fuel completed r f c s d :
  armed p (at_cycle t) -> wake_setup alwaysReady completed r f s -> mode_action (iqp_mode p) <> ActNone ->
  cap_reached (lp_max (iqp_loop p)) (faults_injected_count c) = false ->
  f r = [d] -> (1 <= fuel)%nat ->
  exists g, put_back p completed r d f s g (wake_dest code alwaysReady (Some p) t fuel completed r (c, s)).
Proof.
  intros Ha [Hr Hp Hg] Hm Hc El Hf. destruct fuel as [|fuel]; [lia|].
  set (s1 := set_core (pin_write completed r (iq_core_of s)) s).
  destruct (pop_cons r c s1 f d [] Hg El) as (g & Hpop & Hg1).
  destruct (hook_fires code p (at_cycle t) d r c (set_graph g s1) Ha Hm Hc) as (c' & Hh & _ & _).
  destruct (wake_loop_fire code p t fuel r d false 0 c c' _ _ Hh Hm Hg1) as (g2 & Hg2 & Hl).
  rewrite fupd_eq in Hg2, Hl. cbn [head tail] in Hg2, Hl. rewrite wake_loop_none in Hl. unfold ret in Hl.
  exists g2. split; [eapply dg_rep_ext; [|exact Hg2]; intros; by rewrite fupd_fupd|]. exists c'.
  by rewrite (wake_dest_requeued code p t alwaysReady _ completed r c s g d _ _ _ Hr Hp Hpop Hl).
Qed.

(** A register that still has a waiter cannot get a new producer. *)
Lemma producers_panic alwaysReady i r f ds : forall q g, dg_rep g f -> f r <> [] -> alwaysReady r = false -> r ∈ ds ->
  add_producers alwaysReady q g i ds = Panic.
Proof.
  induction ds as [|r' ds IH]; intros q g Hg Hf Ha Hin; [by apply not_elem_of_nil in Hin|]. cbn.
  destruct (decide (r' = r)) as [->|Hne].
  - by rewrite Ha, (dg_empty_rep _ _ _ Hg), bool_decide_eq_false_2.
  - apply elem_of_cons in Hin as [->|Hin]; [done|].
    destruct (alwaysReady r'); [by apply IH|]. destruct (negb _); [done|]. apply IH; try done. by apply dg_setInst_rep.
Qed.

(** Without a cap two waiters take turns for ever. *)
Lemma wake_loop_diverges code p t idx : armed p (at_cycle t) -> mode_action (iqp_mode p) <> ActNone ->
  lp_max (iqp_loop p) = 0 -> forall fuel d rq n c s f, dg_rep (iq_graph s) f -> f idx <> [] ->
  (wake_loop code (Some p) t fuel idx (Some d) rq n (c, s)).1 = NoFuel.
Proof.
  intros Ha Hm Hmax. induction fuel as [|fuel IH]; intros d rq n c s f Hg Hf; [done|].
  destruct (hook_fires code p (at_cycle t) d idx c s Ha Hm) as (c' & Hh & _ & _); [by rewrite Hmax|].
  destruct (wake_loop_fire code p t fuel idx d rq n c c' s f Hh Hm Hg) as (g & Hg' & ->).
  destruct (f idx) as [|d' l]; [done|]. cbn [head]. eapply IH; [exact Hg'|]. by rewrite fupd_eq.
Qed.

(** Whatever the hook decides at each waiter: the loop ends with at most one waiter left, and
    has woken every other one once. *)
Lemma wake_loop_omit code p t idx : iqp_mode p = WakeOmit -> forall fuel d rq n c s f res c' s',
  dg_rep (iq_graph s) f -> wake_loop code (Some p) t fuel idx (Some d) rq n (c, s) = (Done res, (c', s')) ->
  (rq = true -> res.1 = true) /\
  exists woken left q g, woken ++ left ≡ₚ d :: f idx /\ (length left <= 1)%nat /\ (left <> [] -> res.1 = true) /\
    wake_list code (iq_core_of s) woken = Done q /\ dg_rep g (fupd f idx left) /\ s' = set_core q (set_graph g s).
Proof.
  intros Hmode. induction fuel as [|fuel IH]; intros d rq n c s f res c' s' Hg; [done|].
  pose proof (hook_state code p (at_cycle t) d idx (c, s)) as Hst.
  destruct (hook_action code p (at_cycle t) d idx (c, s)) as [Ha|Ha];
    destruct (hookWakeDependents code p (at_cycle t) d idx (c, s)) as [a [c1 s1]] eqn:Eh; cbn [fst snd] in *; subst a s1.
  - cbn [wake_loop wake_hook]. unfold bind at 1. rewrite Eh. cbn [fst snd]. unfold bind at 1. cbn [get fst snd]. unfold lift_core.
    destruct (wake_one code (iq_core_of s) d) as [q| |] eqn:Ew; [|done|done].
    unfold bind at 1. cbn [modify fst snd]. unfold bind at 1. destruct (f idx) as [|d' l] eqn:El.
    + destruct (pop_nil idx c1 (set_core q s) f Hg El) as (g & -> & Hg'). cbn [fst snd]. rewrite wake_loop_none.
      intros [= <- <- <-]. split; [done|]. exists [d], [], q, g. cbn [wake_list]. rewrite Ew. split_and!; try done; [cbn; lia|].
      eapply dg_rep_ext; [|exact Hg']. intros x. unfold fupd. case_decide; congruence.
    + destruct (pop_cons idx c1 (set_core q s) f d' l Hg El) as (g & -> & Hg'). cbn [fst snd]. intros H.
      destruct (IH _ _ _ _ (set_graph g (set_core q s)) _ _ _ _ Hg' H) as (Hrq & woken & left & q' & g' & Hperm & Hlen & Hleft & Hw & Hrep & ->).
      split; [done|]. exists (d :: woken), left, q', g'. rewrite fupd_eq in Hperm. cbn [wake_list app]. rewrite Ew, Hperm.
      split_and!; try done. eapply dg_rep_ext; [|exact Hrep]. intros x. by rewrite fupd_fupd.
  - destruct (wake_loop_fire code p t fuel idx d rq n c c1 s f Eh ltac:(by rewrite Hmode) Hg) as (g & Hg' & ->).
    rewrite Hmode. cbn [pending_after]. replace (set_pending (pending_wakeups s) (set_graph g s)) with (set_graph g s) by by destruct s.
    destruct (f idx) as [|d' l] eqn:El; cbn [head tail] in *.
    + rewrite wake_loop_none. intros [= <- <- <-]. split; [done|]. exists [], [d], (iq_core_of s), g.
      by destruct s; split_and!.
    + intros H. destruct (IH _ _ _ _ (set_graph g s) _ _ _ _ Hg' H) as (Hrq & woken & left & q' & g' & Hperm & Hlen & Hleft & Hw & Hrep & ->).
      split; [intros _; by apply Hrq|]. exists woken, left, q', g'. rewrite fupd_eq in Hperm.
      split_and!; try done; [rewrite Hperm; constructor|]. eapply dg_rep_ext; [|exact Hrep]. intros x. by rewrite fupd_fupd.
Qed.

(** The state after a call that returned: the waiters but at most one were woken, once each
    and in some order, the register is ready, and a waiter that is left makes the next
    instruction that is to produce the register fail an assertion. *)
Definition all_but_one_woken (code : nat -> static_inst) (alwaysReady : Z -> bool) (completed : nat) (r : Z) (f : chains) (s s' : iq_state) : Prop :=
  exists woken left q, woken ++ left ≡ₚ f r /\ (length left <= 1)%nat /\
    wake_list code (pin_write completed r (iq_core_of s)) woken = Done q /\
    dg_rep (iq_graph s') (fupd f r left) /\ s' = set_core (set_score q r true) (set_graph (iq_graph s') s) /\
    (left <> [] -> forall q i, r ∈ si_dests (code i) -> addToProducers code alwaysReady q (iq_graph s') i = Panic).

Lemma all_but_one_intro code alwaysReady completed r f s g woken left q :
  woken ++ left ≡ₚ f r -> (length left <= 1)%nat -> alwaysReady r = false ->
  wake_list code (pin_write completed r (iq_core_of s)) woken = Done q -> dg_rep g (fupd f r left) ->
  all_but_one_woken code alwaysReady completed r f s (set_core (set_score q r true) (set_graph g s)).
Proof.
  intros Hp Hl Ha Hw Hg. exists woken, left, q. split_and!; try done. intros Hne q' i Hin.
  unfold addToProducers. eapply producers_panic; [exact Hg|by rewrite fupd_eq|done|done].
Qed.

Lemma omit_leaves_one code p t alwaysReady fuel completed r f c s n c' s' :
  iqp_mode p = WakeOmit -> wake_setup alwaysReady completed r f s ->
  wake_dest code alwaysReady (Some p) t fuel completed r (c, s) = (Done n, (c', s')) ->
  all_but_one_woken code alwaysReady completed r f s s'.
Proof.
  intros Hmode [Ha Hp Hg]. set (s1 := set_core (pin_write completed r (iq_core_of s)) s). destruct (f r) as [|d l] eqn:El.
  - destruct (pop_nil r c s1 f Hg El) as (g & Hpop & Hg'). unfold wake_dest. rewrite Ha. unfold bind at 1. cbn [modify fst snd].
    unfold bind at 1. cbn [get fst snd]. fold s1. rewrite (Hp : pinsLeft (iq_core_of s1) r = 0). cbn [negb Z.eqb].
    unfold bind at 1. rewrite Hpop. cbn [fst snd]. unfold bind at 1. rewrite wake_loop_none. unfold ret at 1 2. cbn [fst snd].
    unfold bind at 1. cbn [get fst snd iq_graph set_graph]. rewrite (dg_empty_rep _ _ _ Hg'), bool_decide_eq_true_2 by done.
    cbn [negb andb]. run. intros [= _ _ <-].
    apply (all_but_one_intro code alwaysReady completed r f s _ [] [] (pin_write completed r (iq_core_of s)));
      [by rewrite El|cbn; lia|done|done|]. apply dg_clearInst_rep. eapply dg_rep_ext; [|exact Hg'].
    intros x. unfold fupd. case_decide; congruence.
  - destruct (pop_cons r c s1 f d l Hg El) as (g & Hpop & Hg').
    rewrite (wake_dest_popped code p t alwaysReady fuel completed r c s g d Ha Hp Hpop). fold s1. unfold bind at 1.
    destruct (wake_loop code (Some p) t fuel r (Some d) false 0 (c, set_graph g s1)) as [[[rq k]| |] [c2 s2]] eqn:E; [|done|done].
    destruct (wake_loop_omit code p t r Hmode _ _ _ _ _ (set_graph g s1) _ _ _ _ Hg' E) as (_ & woken & left & q & g2 & Hperm & Hlen & Hleft & Hw & Hrep & ->).
    rewrite fupd_eq in Hperm. cbn [fst snd]. unfold bind at 1. cbn [get fst snd]. destruct (negb rq && _) eqn:En; [done|].
    assert (dg_rep g2 (fupd f r left)) as Hrep' by (eapply dg_rep_ext; [|exact Hrep]; intros x; by rewrite fupd_fupd).
    rewrite <- El in Hperm. unfold bind at 1. destruct rq; run; intros [= _ _ <-].
    + by apply (all_but_one_intro code alwaysReady completed r f s _ woken left).
    + apply (all_but_one_intro code alwaysReady completed r f s _ woken left); try done. by apply dg_clearInst_rep.
Qed.

(** C27 What an omitted wake-up comes to.  Whatever the random trials decide, a call that
    returns has woken every waiter of the register once, except for at most one, which stays
    on the list of a register that is marked ready, and the next instruction that is to
    produce the register makes the queue panic.  With probability 1 and in the window of the
    injector the outcome depends on the number of waiters: a lone waiter is left as just
    said; with two or more and room for one more fault, the waiter put back comes up again in
    the same call and is woken with all the others, so that the counted fault omits nothing;
    with two or more and no fault cap, the call never returns. *)
Theorem omit_fate code p t alwaysReady completed r f c s :
  iqp_mode p = WakeOmit -> wake_setup alwaysReady completed r f s ->
  let o fuel := wake_dest code alwaysReady (Some p) t fuel completed r (c, s) in
  (forall fuel n c' s', o fuel = (Done n, (c', s')) -> all_but_one_woken code alwaysReady completed r f s s') /\
  (armed p (at_cycle t) ->
   (forall d fuel, f r = [d] -> (1 <= fuel)%nat ->
      cap_reached (lp_max (iqp_loop p)) (faults_injected_count c) = false ->
      exists g, put_back p completed r d f s g (o fuel) /\
        (forall q i, r ∈ si_dests (code i) -> addToProducers code alwaysReady q g i = Panic)) /\
   (forall d1 d2 l fuel, f r = d1 :: d2 :: l -> (length l + 3 <= fuel)%nat -> one_left p c ->
      woken_anyway p code completed r d1 d2 l f c s (o fuel)) /\
   (forall d1 d2 l fuel, f r = d1 :: d2 :: l -> lp_max (iqp_loop p) = 0 -> (o fuel).1 = NoFuel)).
Proof.
  intros Hmode Hs o. assert (mode_action (iqp_mode p) <> ActNone) as Hm by (by rewrite Hmode). split.
  { intros fuel n c' s'. by apply omit_leaves_one. }
  intros Harm. split_and!.
  - intros d fuel El Hf Hc. destruct (one_waiter_put_back code p t alwaysReady fuel completed r f c s d Harm Hs Hm Hc El Hf) as (g & Hg).
    exists g. split; [done|]. intros q i Hin. destruct Hg as [Hg _]. unfold addToProducers.
    eapply producers_panic; [exact Hg|by rewrite fupd_eq|apply Hs|done].
  - intros d1 d2 l fuel El Hf Hone. by apply one_fault_woken_anyway.
  - intros d1 d2 l fuel El Hmax. destruct Hs as [Hr Hp Hg].
    destruct (pop_cons r c (set_core (pin_write completed r (iq_core_of s)) s) f d1 (d2 :: l) Hg El) as (g & Hpop & Hg1).
    pose proof (wake_loop_diverges code p t r Harm Hm Hmax fuel d1 false 0 c (set_graph g (set_core (pin_write completed r (iq_core_of s)) s)) _ Hg1) as Hd.
    rewrite fupd_eq in Hd. specialize (Hd ltac:(done)). unfold o.
    match type of Hd with ?X.1 = _ => destruct X as [e s3] eqn:E end. cbn in Hd. subst e.
    by rewrite (wake_dest_fails code p t alwaysReady _ completed r c s g d1 NoFuel s3 (or_intror eq_refl) Hr Hp Hpop E).
Qed.

Lemma iq_example_setup m mx waiters :
  armed (iq_example_params m mx) 3 /\
  wake_setup (fun _ => false) 0 5 (iq_example_chains waiters) (iq_example_state waiters).
Proof. split; [done|]. by split; [..|apply iq_example_rep]. Qed.

Lemma omit_fate_witness :
  exists g c', wake_dest iq_example_code (fun _ => false) (Some (iq_example_params WakeOmit 1)) (Moment 3 30) 9 0 5
      (iq_example_rng, iq_example_state [1; 2]%nat) =
    (Done 3, (c', set_core (set_score (pin_write 0 5 (upd_inst (upd_inst iq_example_core 2 mark_ready) 1 mark_ready)) 5 true)
                    (set_graph g (iq_example_state [1; 2]%nat)))) /\ faults_injected_count c' = 1.
Proof.
  destruct (iq_example_setup WakeOmit 1 [1; 2]%nat) as [Ha Hs].
  pose proof (proj1 (proj2 (proj2 (omit_fate iq_example_code (iq_example_params WakeOmit 1) (Moment 3 30) (fun _ => false) 0 5
    (iq_example_chains [1; 2]%nat) iq_example_rng (iq_example_state [1; 2]%nat) eq_refl Hs) Ha)) 1%nat 2%nat [] 9%nat eq_refl ltac:(cbn; lia) (conj eq_refl eq_refl)) as H.
  destruct H as (g & c' & _ & Hc & H). exists g, c'. split; [exact H|exact Hc].
Defined.

(** ** Deferred wake-ups *)

Lemma wake_list_ready code j l : forall q q', wake_list code q l = Done q' -> 0 <= readyRegs (inst_of q j) < 2 ^ 8 ->
  readyRegs (inst_of q' j) = (readyRegs (inst_of q j) + occ j l) mod 2 ^ 8.
Proof.
  induction l as [|i l IH]; intros q q'; cbn [wake_list].
  - intros [= <-] H. unfold occ. cbn. rewrite Z.mod_small; lia.
  - destruct (wake_one code q i) as [q1| |] eqn:E; [|done|done]. intros Hw H. rewrite occ_cons.
    pose proof (wake_one_inst code q i q1 j E) as Hj.
    assert (readyRegs (inst_of q1 j) = (readyRegs (inst_of q j) + (if decide (i = j) then 1 else 0)) mod 2 ^ 8) as Hr.
    { rewrite Hj. repeat case_decide; subst; try done. rewrite Z.mod_small; lia. }
    rewrite (IH q1 q' Hw) by (rewrite Hr; by apply Z.mod_pos_bound). rewrite Hr, Zplus_mod_idemp_l. f_equal. lia.
Qed.

(** The delivery of a deferred wake-up whose list is empty wakes the instruction. *)
Lemma deliver_one code fuel d r c s f :
  dg_rep (iq_graph s) f -> f r = [] -> squashed (inst_of (iq_core_of s) d) = false ->
  exists g, dg_rep g f /\ deliver code fuel [(d, r)] (c, s) =
    match wake_one code (iq_core_of s) d with
    | Done q => (Done tt, (c, set_core q (set_graph g s)))
    | Panic => (Panic, (c, set_graph g s))
    | NoFuel => (NoFuel, (c, set_graph g s))
    end.
Proof.
  intros Hg Hf Hs. pose proof (dg_remove_rep fuel _ _ r d Hg ltac:(rewrite Hf; cbn; lia)) as H. cbn in H.
  rewrite decide_True in H by done. destruct H as (g & Hr & Hg'). exists g. split; [done|].
  cbn [deliver]. unfold bind at 1. cbn [get fst snd]. rewrite Hr. unfold bind at 1. cbn [modify fst snd]. rewrite Hs.
  unfold lift_core. by destruct (wake_one code (iq_core_of s) d).
Qed.

Lemma pin_write_ready completed r q i :
  readyRegs (inst_of (pin_write completed r q) i) = readyRegs (inst_of q i) /\
  squashed (inst_of (pin_write completed r q) i) = squashed (inst_of q i).
Proof. unfold pin_write. destruct (pinnedReg q r); [|done]. cbn. unfold fupd. by case_decide; subst. Qed.

Lemma wake_list_squashed code j l : forall q q', wake_list code q l = Done q' ->
  squashed (inst_of q' j) = squashed (inst_of q j).
Proof.
  induction l as [|i l IH]; intros q q'; cbn [wake_list]; [by intros [= <-]|].
  destruct (wake_one code q i) as [q1| |] eqn:E; [|done|done]. intros Hw. rewrite (IH _ _ Hw), (wake_one_inst _ _ _ _ j E).
  by case_decide; subst.
Qed.

(** With one fault left and at least two waiters, a deferred wake-up is not deferred but
    doubled: the instruction is woken in the same call like the others, and again when the
    next call delivers the pending wake-up, so that it has counted one ready operand more
    than it waited for. *)
Theorem deferred_woken_twice code p t alwaysReady completed r f c s d1 d2 l fuel q q' :
  iqp_mode p = WakePhase -> armed p (at_cycle t) -> wake_setup alwaysReady completed r f s -> one_left p c ->
  f r = d1 :: d2 :: l -> pending_wakeups s = [] -> (length l + 3 <= fuel)%nat ->
  squashed (inst_of (iq_core_of s) d1) = false -> 0 <= readyRegs (inst_of (iq_core_of s) d1) < 2 ^ 8 ->
  wake_list code (pin_write completed r (iq_core_of s)) (d2 :: d1 :: l) = Done q ->
  wake_one code (set_score q r true) d1 = Done q' ->
  let o := wake_dest code alwaysReady (Some p) t fuel completed r (c, s) in
  let o' := deliver_pending code (Some p) fuel o.2 in
  o.1 = Done (Z.of_nat (length l) + 3) /\ o'.1 = Done tt /\ iq_core_of o'.2.2 = q' /\
  readyRegs (inst_of q' d1) = (readyRegs (inst_of (iq_core_of s) d1) + occ d1 (f r) + 1) mod 2 ^ 8.
Proof.
  intros Hmode Harm Hs Hone El Hpend Hf Hsq Hrr Ew Ew' o o'.
  pose proof (one_fault_woken_anyway code p t alwaysReady fuel completed r f c s d1 d2 l Harm Hs ltac:(by rewrite Hmode) Hone El Hf) as H.
  unfold woken_anyway in H. rewrite Ew in H. destruct H as (g & c' & Hg & _ & Ho). fold o in Ho.
  destruct (pin_write_ready completed r (iq_core_of s) d1) as [Hpr Hps].
  unfold o'. rewrite Ho, Hmode, Hpend. cbn [fst snd pending_after app]. split; [done|].
  unfold deliver_pending. unfold bind at 1 3. cbn [get fst snd]. unfold bind. cbn [modify fst snd pending_wakeups set_core set_pending].
  set (s2 := set_pending [] _).
  destruct (deliver_one code fuel d1 r c' s2 _ Hg) as (g' & _ & ->); [by rewrite fupd_eq| |].
  { cbn. by rewrite (wake_list_squashed _ d1 _ _ _ Ew), Hps. }
  change (iq_core_of s2) with (set_score q r true). rewrite Ew'. split_and!; [done|done|].
  rewrite (wake_one_inst _ _ _ _ d1 Ew'), decide_True by done. cbn [mark_ready readyRegs set_score ic_x].
  rewrite (wake_list_ready code d1 _ _ _ Ew), Zplus_mod_idemp_l, Hpr by (by rewrite Hpr).
  by rewrite El, (occ_perm d1 (d1 :: d2 :: l) (d2 :: d1 :: l)) by apply Permutation_swap.
Qed.

Lemma deferred_woken_twice_witness :
  exists o o' q', o = wake_dest iq_example_code (fun _ => false) (Some (iq_example_params WakePhase 1)) (Moment 3 30) 9 0 5
      (iq_example_rng, iq_example_state [1; 2]%nat) /\
    o' = deliver_pending iq_example_code (Some (iq_example_params WakePhase 1)) 9 o.2 /\
    o'.1 = Done tt /\ iq_core_of o'.2.2 = q' /\ readyRegs (inst_of q' 1) = 2 /\ canIssue (inst_of q' 1) = true.
Proof.
  pose proof (deferred_woken_twice iq_example_code (iq_example_params WakePhase 1) (Moment 3 30) (fun _ => false) 0 5
    (iq_example_chains [1; 2]%nat) iq_example_rng (iq_example_state [1; 2]%nat) 1 2 [] 9
    (pin_write 0 5 (upd_inst (upd_inst iq_example_core 2 mark_ready) 1 mark_ready))) as H.
  eexists _, _, _. split; [done|]. split; [done|].
  specialize (H _ eq_refl (proj1 (iq_example_setup WakePhase 1 [1; 2]%nat)) (proj2 (iq_example_setup WakePhase 1 [1; 2]%nat)) (conj eq_refl eq_refl) eq_refl eq_refl
    ltac:(cbn; lia) eq_refl ltac:(cbn; lia) eq_refl eq_refl).
  cbn zeta in H. destruct H as (_ & H1 & H2 & H3). split; [exact H1|]. split; [exact H2|].
  split; [exact H3|]. by vm_compute.
Defined.

(** A run of [wakeDependents] for the completed instructions in turn, up to a failure. *)
Fixpoint wake_run (code : nat -> static_inst) (alwaysReady : Z -> bool) (inj : option iq_params) (t : moment) (fuel : nat) (l : list nat) (s : core * iq_state) : list (result Z) :=
  match l with
  | [] => []
  | i :: l' =>
      let o := wakeDependents code alwaysReady inj t fuel i s in
      o.1 :: match o.1 with Done _ => wake_run code alwaysReady inj t fuel l' o.2 | _ => [] end
  end.

(** Trials that succeed, succeed, fail and succeed. *)
Definition iq_example_draws : core :=
  Core (Engine (fun n => match n with 2%nat => 2 ^ 53 - 1 | _ => 0 end) 0) 0 stats0 [].

(** Deferring wake-ups can crash the simulator: from a consistent queue in which two
    instructions wait for a register, with a probability of one half and a possible sequence
    of trials, the call that completes the producer returns, and the next call of
    [wakeDependents], for an unrelated instruction, fails the assertion of
    [DependencyGraph::remove]. *)
Theorem deferred_delivery_panics :
  let p := IqParams (LoopParams (1 # 2) 0 0 0 false) WakePhase 0 false in
  dg_rep (iq_graph (iq_example_state [1; 2]%nat)) (iq_example_chains [1; 2]%nat) /\
  wake_run iq_example_code (fun _ => false) (Some p) (Moment 3 30) 9 [0; 3]%nat
    (iq_example_draws, iq_example_state [1; 2]%nat) = [Done 4; Panic].
Proof. split; [apply iq_example_rep|by vm_compute]. Qed.
