(* ===== verification/ResultPath.v ===== *)
(** * The result path: register operands, the result queue and their injectors

    The operand accessors of [DynInst] (cpu/o3/dyn_inst.hh) with the four hooks of CHAOSFPU,
    the mask oracle of CHAOSFUPerm and the netlist oracle of CHAOSGateFU on them; the queue
    of results a [DynInst] keeps for the checker ([InstResult], cpu/inst_res.hh); and the
    three injectors that poll the head of the reorder buffer to corrupt that queue, CHAOSExec,
    CHAOSL1DForward and CHAOSFPU.  The theorems: what a write-back stores under all three
    hooks; that the faults CHAOSExec and CHAOSL1DForward count
    never reach a register; and the errors of the constructors. *)

From Stdlib Require Import ZArith Lia QArith.
From stdpp Require Import base sets numbers list strings.
From S2P Require Import Prelude Word Random EventQueue AttackLoop HookGate ThreadContext RegFile GateFU.

Open Scope Z_scope.

(** ** Results *)

(** The variant of an [InstResult]; an invalid one is a null blob. *)
Inductive res_value := RBlob (bytes : option (list Z)) | RVal (v : Z).
Record InstResult := MkResult { res_class : Z; res_val : res_value }.

(** [corruptRegVal]: [None] for a blob. *)
Definition corruptRegVal (mask : Z) (r : InstResult) : option InstResult :=
  match res_val r with
  | RBlob _ => None
  | RVal v => Some (MkResult (res_class r) (RVal (Z.lxor v mask)))
  end.

(** What the result path reads of a [DynInst]. *)
Record res_inst := ResInst {
  ri_op : Z; ri_srcs : list RegId; ri_dests : list RegId;
  ri_isInteger : bool; ri_isLoad : bool; ri_faulted : bool;
  ri_recordResult : bool;
  instResult : list InstResult         (* front first *)
}.

Definition set_results (i : res_inst) (l : list InstResult) : res_inst :=
  ResInst (ri_op i) (ri_srcs i) (ri_dests i) (ri_isInteger i) (ri_isLoad i) (ri_faulted i) (ri_recordResult i) l.

Definition setResult (i : res_inst) (r : InstResult) : res_inst :=
  if ri_recordResult i then set_results i (instResult i ++ [r]) else i.

Definition popResult (i : res_inst) (dflt : InstResult) : InstResult * res_inst :=
  match instResult i with [] => (dflt, i) | r :: l => (r, set_results i l) end.

Definition corruptResultRegVal (mask : Z) (i : res_inst) : bool * res_inst :=
  match instResult i with
  | [] => (false, i)
  | r :: l => match corruptRegVal mask r with
              | None => (false, i)
              | Some r' => (true, set_results i (r' :: l))
              end
  end.

(** ** CHAOSFUPerm *)

Record perm_params := PermParams { perm_opclass : Z; perm_first : Z; perm_mask : Z; perm_log : bool }.
Record perm_state := PermState { corrupt_count : Z; perm_core : core }.

(** A constructor builds its object or throws. *)
Inductive built (A : Type) := Built (a : A) | Throws (why : string).
Arguments Built {A} a.
Arguments Throws {A} why.

(** The index of the first entry named [n]. *)
Fixpoint index_of (n : string) (names : list string) (i : Z) : option Z :=
  match names with
  | [] => None
  | s :: l => if String.eqb s n then Some i else index_of n l (i + 1)
  end.

Section Constructors.
(** The strings of the generated enumeration [OpClass]. *)
Context (OpClassStrings : list string).

Definition CHAOSFUPerm_init (is_o3 : bool) (targetOpClass : string) (firstClock faultMask rngSeed : Z) (writeLog : bool) : built perm_params :=
  if negb is_o3 then Throws "cpu is not an O3CPU"
  else
    match index_of targetOpClass OpClassStrings 0 with
    | None => Throws "unknown targetOpClass"
    | Some c =>
        let seed := if rngSeed =? 0 then 1 else rngSeed in
        let mask := if faultMask =? 0 then Z.shiftl 1 (seed mod 64) else faultMask in
        Built (PermParams c firstClock mask writeLog)
    end.

Definition CHAOSGateFU_init (is_o3 : bool) (targetOpClass : string) (targetGate stuckPolarity firstClock : Z) (writeLog : bool) : built gatefu_params :=
  if negb is_o3 then Throws "cpu is not an O3CPU"
  else
    match index_of targetOpClass OpClassStrings 0 with
    | None => Throws "unknown targetOpClass"
    | Some c =>
        if String.eqb targetOpClass "IntAlu" then
          Built (GateFUParams c targetGate stuckPolarity firstClock writeLog (synthesizeAdder 64))
        else if String.eqb targetOpClass "IntMult" then
          Built (GateFUParams c targetGate stuckPolarity firstClock writeLog (synthesizeMultiplier 64))
        else Throws "netlist available for IntAlu | IntMult"
    end.
End Constructors.

(** [fu_perm_mask_for], on an attached injector. *)
Definition fu_perm_mask_for (p : perm_params) (now op_class : Z) (s : perm_state) : Z * perm_state :=
  if negb (op_class =? perm_opclass p) then (0, s)
  else if now <? perm_first p then (0, s)
  else
    let m := (do! bump numMatchedOpClass in
              do! log_if (perm_log p && (corrupt_count s <? 32)) (Entry "fu_perm" [("cycle", now); ("mask", perm_mask p)]) in
              bump numCorrupted : M unit unit) in
    (perm_mask p, PermState (u64 (corrupt_count s + 1)) (m (perm_core s, tt)).2.1).

(** ** The processor as the result path sees it *)

Inductive BitSeg := SegLow | SegMid | SegHigh | SegSign | SegExp | SegMantissa | SegAll.

Record fpu_params := FpuParams {
  fpu_loop : loop_params; fpu_mask : Z; fpu_bits : Z; fpu_seg : BitSeg; fpu_log : bool
}.

(** The state of the processor; the oracles carry their own. *)
Record res_state := ResState {
  rs_rf : physregfile;
  rs_insts : nat -> res_inst;
  rs_heads : Z -> option nat;          (* robAccess().readHeadInst(tid) *)
  rs_threads : Z; rs_active : Z -> bool;
  rs_attack : evt;
  rs_perm : option (perm_params * perm_state);
  rs_gate : option (gatefu_params * (core * gatefu_state))
}.

Definition set_rf (rf : physregfile) (s : res_state) : res_state :=
  ResState rf (rs_insts s) (rs_heads s) (rs_threads s) (rs_active s) (rs_attack s) (rs_perm s) (rs_gate s).
Definition set_res_inst (i : nat) (x : res_inst) (s : res_state) : res_state :=
  ResState (rs_rf s) (fupd (rs_insts s) i x) (rs_heads s) (rs_threads s) (rs_active s) (rs_attack s) (rs_perm s) (rs_gate s).
Definition on_res_attack (f : evt -> evt) (s : res_state) : res_state :=
  ResState (rs_rf s) (rs_insts s) (rs_heads s) (rs_threads s) (rs_active s) (f (rs_attack s)) (rs_perm s) (rs_gate s).
Definition set_perm (p : option (perm_params * perm_state)) (s : res_state) : res_state :=
  ResState (rs_rf s) (rs_insts s) (rs_heads s) (rs_threads s) (rs_active s) (rs_attack s) p (rs_gate s).
Definition set_gate (g : option (gatefu_params * (core * gatefu_state))) (s : res_state) : res_state :=
  ResState (rs_rf s) (rs_insts s) (rs_heads s) (rs_threads s) (rs_active s) (rs_attack s) (rs_perm s) g.

Abbreviation MR := (M res_state).

(** ** CHAOSFPU *)

Definition fpu_stringToBitSeg (s : string) : BitSeg :=
  if String.eqb s "low" then SegLow else if String.eqb s "mid" then SegMid
  else if String.eqb s "high" then SegHigh else if String.eqb s "sign" then SegSign
  else if String.eqb s "exp" then SegExp else if String.eqb s "mantissa" then SegMantissa else SegAll.

Definition seg_bounds (b : BitSeg) : Z * Z :=
  match b with
  | SegLow => (0, 11) | SegMid => (12, 47) | SegHigh => (48, 63)
  | SegSign => (63, 63) | SegExp => (52, 62) | SegMantissa => (0, 51) | SegAll => (0, 63)
  end.

Definition fpu_genMask (p : fpu_params) (g : engine) : Z * engine :=
  mask_or (fpu_mask p) (random_mask (fpu_bits p) (seg_bounds (fpu_seg p)).1 (seg_bounds (fpu_seg p)).2) g.

Definition fpu_gate (p : fpu_params) : gate_params :=
  GateParams (lp_probability (fpu_loop p)) (lp_first (fpu_loop p)) (lp_last (fpu_loop p)) (lp_max (fpu_loop p)).

Definition is_fp_class (c : Z) : bool := (c =? FloatRegClass) || (c =? VecRegClass).

Section Hooks.
Context {X : Type} (p : fpu_params) (now : Z).

Definition logCorruption (site : string) (reg : RegId) (old neu mask : Z) : M X unit :=
  log_if (fpu_log p) (Entry site [("cycle", now); ("reg", reg.2); ("class", reg.1); ("old", old); ("new", neu); ("mask", mask)]).

(** The body the hooks share: a mask for the value they are given, and the fault counted;
    0 is no fault. *)
Definition fpu_fault (site : string) (reg : RegId) (old : Z) : M X Z :=
  let! mask := with_rng (fpu_genMask p) in
  if mask =? 0 then ret 0
  else
    do! count_fault numFpResultCorrupted in
    do! logCorruption site reg old (Z.lxor old mask) mask in
    ret mask.

(** The hooks are attached only for a positive probability. *)
Definition fpu_hook (site : string) (reg : RegId) (old : Z) : M X Z :=
  if negb (is_fp_class reg.1) then ret 0
  else
    let! b := gate (fpu_gate p) now in
    if b then fpu_fault site reg old else ret 0.

(** The mask into the first eight bytes. *)
Definition xor_blob (val : list Z) (mask : Z) : list Z :=
  if mask =? 0 then val else write_window val 0 8 (Z.lxor (read_window val 0 8) mask).

Definition maybeCorruptWriteback (reg : RegId) (val : Z) : M X Z :=
  let! mask := fpu_hook "fp_writeback_result" reg val in ret (Z.lxor val mask).

Definition maybeCorruptWritebackBlob (reg : RegId) (val : list Z) : M X (list Z) :=
  let! mask := fpu_hook "fp_writeback_result (blob)" reg (read_window val 0 8) in ret (xor_blob val mask).

Definition maybeCorruptRead (reg : RegId) (val : Z) : M X Z :=
  let! mask := fpu_hook "fp_source_read" reg val in ret (Z.lxor val mask).

Definition maybeCorruptReadBlob (reg : RegId) (val : list Z) : M X (list Z) :=
  let! mask := fpu_hook "fp_source_read (blob)" reg (read_window val 0 8) in ret (xor_blob val mask).
End Hooks.

(** ** The operand accessors *)

Section Operands.
Context (fpu : option fpu_params) (now : Z).

(** An access the register file does not support panics. *)
Definition getRegOperand (i idx : nat) : MR (option Z) :=
  let! s := get in
  let reg := ri_srcs (rs_insts s i) !!! idx in
  if reg.1 =? InvalidRegClass then ret (Some 0)
  else
    match rf_getReg (rs_rf s) reg with
    | None => ret None
    | Some (v, rf) =>
        do! modify (set_rf rf) in
        match fpu with
        | Some p => let! v' := maybeCorruptRead p now reg v in ret (Some v')
        | None => ret (Some v)
        end
    end.

(** Into a buffer; nothing is written for an invalid register. *)
Definition getRegOperandV (i idx : nat) (buf : list Z) : MR (option (list Z)) :=
  let! s := get in
  let reg := ri_srcs (rs_insts s i) !!! idx in
  if reg.1 =? InvalidRegClass then ret (Some buf)
  else
    match rf_getRegV (rs_rf s) reg with
    | None => ret None
    | Some (v, rf) =>
        do! modify (set_rf rf) in
        match fpu with
        | Some p => let! v' := maybeCorruptReadBlob p now reg v in ret (Some v')
        | None => ret (Some v)
        end
    end.

(** The mask of CHAOSFUPerm for an operation class. *)
Definition perm_mask_of (op : Z) : MR Z :=
  let! s := get in
  match rs_perm s with
  | None => ret 0
  | Some (p, st) =>
      let r := fu_perm_mask_for p now op st in
      do! modify (set_perm (Some (p, r.2))) in
      ret r.1
  end.

(** The sources CHAOSGateFU looks at: it reads the integer ones until it has two. *)
Fixpoint gate_sources (srcs : list RegId) (got : nat) (rf : physregfile) : list (bool * Z) * physregfile :=
  match srcs with
  | [] => ([], rf)
  | r :: l =>
      if (got <? 2)%nat && (r.1 =? IntRegClass) then
        let rest := gate_sources l (S got) (count_read rf r.1 r.2) in ((true, scalars rf r) :: rest.1, rest.2)
      else let rest := gate_sources l got rf in ((false, 0) :: rest.1, rest.2)
  end.

(** The delta of CHAOSGateFU; the sources are read only behind its guards. *)
Definition gate_delta_of (i : nat) : MR Z :=
  let! s := get in
  match rs_gate s with
  | None => ret 0
  | Some (p, st) =>
      let x := rs_insts s i in
      if (gf_stuck_gate p <? 0) || negb (ri_op x =? gf_target_opclass p) || (now <? gf_first_clock p)
         || bool_decide (length (ri_srcs x) < 2)%nat
      then ret 0
      else
        let q := gate_sources (ri_srcs x) 0 (rs_rf s) in
        let r := evaluate p now (ri_op x) q.1 st in
        do! modify (set_rf q.2) in
        do! modify (set_gate (Some (p, r.2))) in
        ret (default 0 r.1)
  end.

Definition setRegOperand (i idx : nat) (val : Z) : MR (option unit) :=
  let! s := get in
  let reg := ri_dests (rs_insts s i) !!! idx in
  if reg.1 =? InvalidRegClass then ret (Some tt)
  else
    let! v1 := (match fpu with Some p => maybeCorruptWriteback p now reg val | None => ret val end) in
    let! m := perm_mask_of (ri_op (rs_insts s i)) in
    let! delta := gate_delta_of i in
    let v := Z.lxor (Z.lxor v1 m) delta in
    let! s' := get in
    match rf_setReg (rs_rf s') reg v with
    | None => ret None
    | Some rf =>
        do! modify (set_rf rf) in
        do! modify (fun s => set_res_inst i (setResult (rs_insts s i) (MkResult reg.1 (RVal v))) s) in
        ret (Some tt)
    end.

Definition setRegOperandV (i idx : nat) (val : list Z) : MR (option unit) :=
  let! s := get in
  let reg := ri_dests (rs_insts s i) !!! idx in
  if reg.1 =? InvalidRegClass then ret (Some tt)
  else
    let! v1 := (match fpu with Some p => maybeCorruptWritebackBlob p now reg val | None => ret val end) in
    let! m := perm_mask_of (ri_op (rs_insts s i)) in
    let v := xor_blob v1 m in
    let! s' := get in
    match rf_setRegV (rs_rf s') reg v with
    | None => ret None
    | Some rf =>
        do! modify (set_rf rf) in
        do! modify (fun s => set_res_inst i (setResult (rs_insts s i) (MkResult reg.1 (RBlob (Some v)))) s) in
        ret (Some tt)
    end.
End Operands.

(** ** The polling injectors *)

Record exec_params := ExecParams {
  ex_loop : loop_params; ex_mask : Z; ex_bits : Z; ex_seg : BitSeg; ex_log : bool
}.

Definition exec_stringToBitSeg (s : string) : BitSeg :=
  if String.eqb s "low" then SegLow else if String.eqb s "mid" then SegMid
  else if String.eqb s "high" then SegHigh else SegAll.

Definition exec_genMask (p : exec_params) (g : engine) : Z * engine :=
  mask_or (ex_mask p) (random_mask (ex_bits p) (seg_bounds (ex_seg p)).1 (seg_bounds (ex_seg p)).2) g.

(** The common shape of the three: [eligible] is the filter on the head, [skipped] and
    [popped] the statistics of a rejection. *)
Definition poll_result (lp : loop_params) (log : bool) (gen : engine -> Z * engine) (eligible : res_inst -> bool) (hit skipped popped : stat) (site : string) (now tid : Z) : MR unit :=
  let! c := get_count in
  if cap_reached (lp_max lp) c then skip
  else
    let! s := get in
    match rs_heads s tid with
    | None => bump skipped
    | Some h =>
        let x := rs_insts s h in
        if negb (eligible x) then bump skipped
        else if ri_faulted x then bump skipped
        else
          let! mask := with_rng gen in
          if mask =? 0 then skip
          else
            let r := corruptResultRegVal mask x in
            if negb r.1 then bump popped
            else
              do! modify (set_res_inst h r.2) in
              do! count_fault hit in
              log_if log (Entry site [("cycle", now); ("thread", tid); ("mask", mask)])
    end.

Definition exec_processFault (p : exec_params) : Z -> Z -> MR unit :=
  poll_result (ex_loop p) (ex_log p) (exec_genMask p) ri_isInteger
    numIntResultCorrupted numSkippedNonInt numSkippedNonInt "int_writeback_result".

Definition l1d_genMask (p : exec_params) (g : engine) : Z * engine :=
  mask_or (ex_mask p) (random_mask (ex_bits p) 0 63) g.

Definition l1d_processFault (p : exec_params) : Z -> Z -> MR unit :=
  poll_result (ex_loop p) (ex_log p) (l1d_genMask p) ri_isLoad
    numLoadResultCorrupted numSkippedNonLoad numSkippedNonLoad "l1d_post_check_escape".

Definition fpu_processFault (p : fpu_params) : Z -> Z -> MR unit :=
  poll_result (fpu_loop p) (fpu_log p) (fpu_genMask p) (fun x => existsb (fun r : RegId => is_fp_class r.1) (ri_dests x))
    numFpResultCorrupted numSkippedNonFp numResultPopped "fp_writeback_result".

#[global] Instance res_attack_state : AttackState res_state := {|
  attack_of := rs_attack;
  on_attack := on_res_attack;
  thread_count := rs_threads;
  thread_active s tid := rs_active s tid
|}.

#[global] Instance res_attack_ok : AttackStateOk res_state.
Proof. by constructor. Qed.

Definition exec_attackCheck (p : exec_params) (now : Z) : MR unit := attackLoop (ex_loop p) (exec_processFault p) now.
Definition l1d_attackCheck (p : exec_params) (now : Z) : MR unit := attackLoop (ex_loop p) (l1d_processFault p) now.
Definition fpu_attackCheck (p : fpu_params) (now : Z) : MR unit := attackLoop (fpu_loop p) (fpu_processFault p) now.

(** The three injectors that own a poll; CHAOSFPU has its hooks beside it. *)
Inductive injector := InjExec (p : exec_params) | InjL1D (p : exec_params) | InjFPU (p : fpu_params).

Definition hooks_of (w : injector) : option fpu_params := match w with InjFPU p => Some p | _ => None end.

Definition check_of (w : injector) : Z -> MR unit :=
  match w with InjExec p => exec_attackCheck p | InjL1D p => l1d_attackCheck p | InjFPU p => fpu_attackCheck p end.

(** ** Runs *)

(** The operand accesses of the pipeline, instructions entering and reaching the head of the
    reorder buffer, and the attack event of an injector. *)
Inductive res_op :=
  | OpRead (i idx : nat) | OpReadV (i idx : nat) (buf : list Z)
  | OpWrite (i idx : nat) (v : Z) | OpWriteV (i idx : nat) (b : list Z)
  | OpInst (i : nat) (x : res_inst) | OpHead (tid : Z) (h : option nat)
  | OpPoll.

(** What an access returns. *)
Inductive res_obs := ObsVal (v : option Z) | ObsBytes (b : option (list Z)) | ObsWrite (o : option unit).

Definition set_rob_head (tid : Z) (h : option nat) (s : res_state) : res_state :=
  ResState (rs_rf s) (rs_insts s) (fupd (rs_heads s) tid h) (rs_threads s) (rs_active s) (rs_attack s) (rs_perm s) (rs_gate s).

Definition observe {A} (f : A -> res_obs) (m : MR A) : MR (list res_obs) :=
  let! a := m in ret [f a].

(** A processor with the oracles of CHAOSFUPerm and CHAOSGateFU and the injector [w]. *)
Definition res_exec (w : injector) (now : Z) (o : res_op) : MR (list res_obs) :=
  match o with
  | OpRead i idx => observe ObsVal (getRegOperand (hooks_of w) now i idx)
  | OpReadV i idx b => observe ObsBytes (getRegOperandV (hooks_of w) now i idx b)
  | OpWrite i idx v => observe ObsWrite (setRegOperand (hooks_of w) now i idx v)
  | OpWriteV i idx b => observe ObsWrite (setRegOperandV (hooks_of w) now i idx b)
  | OpInst i x => do! modify (set_res_inst i x) in ret []
  | OpHead tid h => do! modify (set_rob_head tid h) in ret []
  | OpPoll => do! check_of w now in ret []
  end.

Fixpoint res_run (w : injector) (ops : list (Z * res_op)) : MR (list res_obs) :=
  match ops with
  | [] => ret []
  | (now, o) :: ops' => let! a := res_exec w now o in let! l := res_run w ops' in ret (a ++ l)
  end.

Definition is_poll (o : Z * res_op) : bool := match o.2 with OpPoll => true | _ => false end.

(** * Lemmas *)

(** ** States that differ in the result queues only *)

Definition same_inst (x y : res_inst) : Prop := set_results x [] = set_results y [].

Record same_arch (s s' : res_state) : Prop := {
  sa_rf : rs_rf s = rs_rf s'; sa_perm : rs_perm s = rs_perm s'; sa_gate : rs_gate s = rs_gate s';
  sa_insts : forall i, same_inst (rs_insts s i) (rs_insts s' i)
}.

#[local] Instance same_arch_equiv : Equivalence same_arch.
Proof.
  split.
  - intros s. by split.
  - intros s s' []. split; [congruence..|]. intros i. unfold same_inst in *. congruence.
  - intros s1 s2 s3 [] []. split; [congruence..|]. intros i. unfold same_inst in *. congruence.
Qed.

Lemma same_inst_fields x y : same_inst x y ->
  ri_op x = ri_op y /\ ri_srcs x = ri_srcs y /\ ri_dests x = ri_dests y /\ ri_recordResult x = ri_recordResult y.
Proof.
  intros H. split_and!; [exact (f_equal ri_op H)|exact (f_equal ri_srcs H)|exact (f_equal ri_dests H)|exact (f_equal ri_recordResult H)].
Qed.

Lemma same_inst_results x l : same_inst (set_results x l) x.
Proof. by destruct x. Qed.

Lemma same_inst_setResult x y r r' : same_inst x y -> same_inst (setResult x r) (setResult y r').
Proof.
  intros H. destruct (same_inst_fields _ _ H) as (_ & _ & _ & E). unfold setResult. rewrite E.
  destruct (ri_recordResult y); [|done]. exact H.
Qed.

Lemma same_arch_rf s s' rf : same_arch s s' -> same_arch (set_rf rf s) (set_rf rf s').
Proof. intros []. by split. Qed.

Lemma same_arch_inst s s' i x y : same_arch s s' -> same_inst x y -> same_arch (set_res_inst i x s) (set_res_inst i y s').
Proof. intros [] H. split; try done. intros j. cbn. unfold fupd. by case_decide. Qed.

(** Two runs of a computation agree: same value, same architectural state. *)
Definition agree {A} (m : MR A) : Prop := forall c c' s s', same_arch s s' ->
  (m (c, s)).1 = (m (c', s')).1 /\ same_arch (m (c, s)).2.2 (m (c', s')).2.2.

Lemma agree_ret {A} (a : A) : agree (ret a).
Proof. by intros c c' s s' H. Qed.

Lemma agree_bind {A B} (m : MR A) (k : A -> MR B) : agree m -> (forall a, agree (k a)) -> agree (bind m k).
Proof.
  intros Hm Hk c c' s s' H. unfold bind. destruct (Hm c c' s s' H) as [E H1].
  destruct (m (c, s)) as [a [c1 s1]], (m (c', s')) as [a' [c1' s1']]. cbn [fst snd] in *. subst a'. by apply Hk.
Qed.

Lemma agree_modify (f : res_state -> res_state) :
  (forall s s', same_arch s s' -> same_arch (f s) (f s')) -> agree (modify f).
Proof. intros Hf c c' s s' H. cbn. split; [done|]. by apply Hf. Qed.

(** A continuation that reads only what both states have in common. *)
Lemma agree_get {B} (k : res_state -> MR B) :
  (forall s s', same_arch s s' -> k s = k s') -> (forall s, agree (k s)) -> agree (bind get k).
Proof. intros Hv Hk c c' s s' H. unfold bind. cbn [get fst snd]. rewrite (Hv s s' H). by apply Hk. Qed.

Lemma same_arch_reg s s' i : same_arch s s' ->
  ri_op (rs_insts s i) = ri_op (rs_insts s' i) /\ ri_srcs (rs_insts s i) = ri_srcs (rs_insts s' i) /\
  ri_dests (rs_insts s i) = ri_dests (rs_insts s' i).
Proof. intros H. destruct (same_inst_fields _ _ (sa_insts _ _ H i)) as (? & ? & ? & _). done. Qed.

Lemma same_arch_perm p s s' : same_arch s s' -> same_arch (set_perm p s) (set_perm p s').
Proof. intros []. by split. Qed.

Lemma same_arch_gate g s s' : same_arch s s' -> same_arch (set_gate g s) (set_gate g s').
Proof. intros []. by split. Qed.

Create HintDb result_path discriminated.
#[local] Hint Resolve same_arch_rf same_arch_perm same_arch_gate : result_path.

(** Follows the text of an access. *)
Ltac agreeing :=
  cbv zeta;
  lazymatch goal with
  | |- agree (ret _) => apply agree_ret
  | |- agree (modify _) => apply agree_modify; intros ? ? ?; solve [eauto with result_path]
  | |- agree (bind _ _) => apply agree_bind; [agreeing|intros ?; agreeing]
  | |- agree (match ?x with _ => _ end) => destruct x; agreeing
  | |- agree _ => solve [eauto with result_path]
  end.

Lemma getRegOperand_agree now i idx : agree (getRegOperand None now i idx).
Proof.
  apply agree_get; intros s; [intros s' H|agreeing].
  destruct (same_arch_reg s s' i H) as (_ & -> & _). by rewrite (sa_rf _ _ H).
Qed.

Lemma getRegOperandV_agree now i idx b : agree (getRegOperandV None now i idx b).
Proof.
  apply agree_get; intros s; [intros s' H|agreeing].
  destruct (same_arch_reg s s' i H) as (_ & -> & _). by rewrite (sa_rf _ _ H).
Qed.

Lemma perm_mask_agree now op : agree (perm_mask_of now op).
Proof. apply agree_get; intros s; [intros s' H; by rewrite (sa_perm _ _ H)|agreeing]. Qed.

Lemma gate_delta_agree now i : agree (gate_delta_of now i).
Proof.
  apply agree_get; intros s; [intros s' H|agreeing].
  destruct (same_arch_reg s s' i H) as (Eo & Es & _). cbv zeta. by rewrite (sa_gate _ _ H), Eo, Es, (sa_rf _ _ H).
Qed.

(** The end of a write: the register and the result queue. *)
Lemma write_end_agree (set : physregfile -> option physregfile) i (r : InstResult) :
  agree (let! s' := get in
         match set (rs_rf s') with
         | None => ret None
         | Some rf =>
             do! modify (set_rf rf) in
             do! modify (fun s => set_res_inst i (setResult (rs_insts s i) r) s) in
             ret (Some tt)
         end).
Proof.
  assert (Hq : forall s s', same_arch s s' ->
    same_arch (set_res_inst i (setResult (rs_insts s i) r) s) (set_res_inst i (setResult (rs_insts s' i) r) s')).
  { intros s s' H. apply same_arch_inst; [done|]. apply same_inst_setResult, H. }
  apply agree_get; intros s; [intros s' H; by rewrite (sa_rf _ _ H)|agreeing].
Qed.

#[local] Hint Resolve perm_mask_agree gate_delta_agree : result_path.

Lemma setRegOperand_agree now i idx v : agree (setRegOperand None now i idx v).
Proof.
  apply agree_get; intros s; [intros s' H|].
  - destruct (same_arch_reg s s' i H) as (Eo & _ & Ed). cbv zeta. by rewrite Eo, Ed.
  - cbv zeta. set (reg := ri_dests (rs_insts s i) !!! idx). pose proof (fun v => write_end_agree (fun rf => rf_setReg rf reg v) i).
    cbv beta in *. destruct (reg.1 =? InvalidRegClass); [agreeing|]. apply agree_bind; [agreeing|intros v1].
    apply agree_bind; [agreeing|intros m]. apply agree_bind; [agreeing|intros delta]. auto.
Qed.

Lemma setRegOperandV_agree now i idx v : agree (setRegOperandV None now i idx v).
Proof.
  apply agree_get; intros s; [intros s' H|].
  - destruct (same_arch_reg s s' i H) as (Eo & _ & Ed). cbv zeta. by rewrite Eo, Ed.
  - cbv zeta. set (reg := ri_dests (rs_insts s i) !!! idx). pose proof (fun v => write_end_agree (fun rf => rf_setRegV rf reg v) i).
    cbv beta in *. destruct (reg.1 =? InvalidRegClass); [agreeing|]. apply agree_bind; [agreeing|intros v1].
    apply agree_bind; [agreeing|intros m]. auto.
Qed.

(** ** The polls *)

(** Invisible to the accesses. *)
Definition invisible {A} (m : MR A) : Prop := forall c s, same_arch s (m (c, s)).2.2.

Lemma invisible_bind {A B} (m : MR A) (k : A -> MR B) : invisible m -> (forall a, invisible (k a)) -> invisible (bind m k).
Proof.
  intros Hm Hk c s. unfold bind. specialize (Hm c s). destruct (m (c, s)) as [a [c1 s1]]. cbn [fst snd] in *.
  etransitivity; [exact Hm|apply Hk].
Qed.

Lemma invisible_modify f : (forall s, same_arch s (f s)) -> invisible (modify f).
Proof. intros Hf c s. apply Hf. Qed.

Lemma invisible_ret {A} (a : A) : invisible (ret a).
Proof. by intros c s. Qed.

Lemma invisible_bump k : invisible (bump k).
Proof. by intros c s. Qed.

Lemma invisible_get : invisible get.
Proof. by intros c s. Qed.

Lemma invisible_get_count : invisible get_count.
Proof. by intros c s. Qed.

Lemma invisible_with_rng {A} (g : engine -> A * engine) : invisible (with_rng g).
Proof. by intros c s. Qed.

Lemma invisible_count_fault k : invisible (count_fault k).
Proof. by intros c s. Qed.

Lemma invisible_log w e : invisible (log_if w e).
Proof. intros c s. by destruct w. Qed.

Lemma invisible_for_each {A} (l : list A) (body : A -> MR unit) : (forall a, invisible (body a)) -> invisible (for_each l body).
Proof. intros Hb. induction l as [|a l IH]; [by intros c s|]. cbn. by apply invisible_bind. Qed.

Lemma invisible_corrupt mask x s h : rs_insts s h = x -> same_arch s (set_res_inst h (corruptResultRegVal mask x).2 s).
Proof.
  intros <-. split; try done. intros j. cbn. unfold fupd. case_decide as E; [subst j|done].
  unfold corruptResultRegVal. destruct (instResult _) as [|r l]; [done|]. by destruct (corruptRegVal mask r).
Qed.

#[local] Hint Resolve invisible_ret invisible_bump invisible_get invisible_get_count invisible_with_rng invisible_count_fault
  invisible_log : result_path.

Lemma invisible_poll lp log gen el hit sk pop site now tid : invisible (poll_result lp log gen el hit sk pop site now tid).
Proof.
  unfold poll_result. apply invisible_bind; [apply invisible_get_count|intros n]. destruct (cap_reached _ _); [by intros c s|].
  intros c s. unfold bind at 1. cbn [get fst snd]. destruct (rs_heads s tid) as [h|]; [|done].
  cbv zeta. destruct (el _); cbn [negb]; [|done]. destruct (ri_faulted _); [done|].
  unfold bind at 1. cbn [with_rng fst snd]. destruct (gen (rng c)) as [mask g]. cbn [fst snd]. destruct (mask =? 0); [done|].
  pose proof (invisible_corrupt mask _ s h eq_refl) as Hc.
  destruct (corruptResultRegVal mask (rs_insts s h)) as [[|] x]; cbn [fst snd negb] in *; [|done].
  unfold bind at 1. cbn [modify fst snd]. etransitivity; [exact Hc|].
  apply invisible_bind; [apply invisible_count_fault|intros _; apply invisible_log].
Qed.

Lemma invisible_attackLoop lp (f : Z -> Z -> MR unit) now : (forall n tid, invisible (f n tid)) -> invisible (attackLoop lp f now).
Proof.
  intros Hf. unfold attackLoop. destruct (Qeq_bool _ _); [by intros c s|].
  apply invisible_bind; [eauto with result_path|intros n]. apply invisible_bind; [eauto with result_path|intros x].
  apply invisible_bind.
  { apply invisible_for_each. intros tid. unfold attack_one. apply invisible_bind; [eauto with result_path|intros y].
    destruct (thread_active y tid); [apply Hf|by intros c s]. }
  intros _. apply invisible_bind; [eauto with result_path|intros m]. destruct (_ || _); [|by intros c s].
  apply invisible_bind; [eauto with result_path|intros d]. cbv zeta. unfold whenM. destruct (_ || _); [|by intros c s].
  by intros c s.
Qed.

(** ** Whole runs *)

Lemma invisible_check w n : invisible (check_of w n).
Proof. destruct w; apply invisible_attackLoop; intros; apply invisible_poll. Qed.

Lemma res_exec_agree w now o : hooks_of w = None -> is_poll (now, o) = false -> agree (res_exec w now o).
Proof.
  intros Hw Ho. destruct o; try done; cbn [res_exec]; rewrite ?Hw; unfold observe; apply agree_bind; try (intros; apply agree_ret).
  - apply getRegOperand_agree.
  - apply getRegOperandV_agree.
  - apply setRegOperand_agree.
  - apply setRegOperandV_agree.
  - apply agree_modify. intros s s' H. by apply same_arch_inst.
  - apply agree_modify. intros s s' []. by split.
Qed.

Lemma invisible_run w ops c c' s s' : hooks_of w = None -> same_arch s s' ->
  (res_run w ops (c, s)).1 = (res_run w (List.filter (fun o => negb (is_poll o)) ops) (c', s')).1 /\
  same_arch (res_run w ops (c, s)).2.2 (res_run w (List.filter (fun o => negb (is_poll o)) ops) (c', s')).2.2.
Proof.
  intros Hw. pose proof (fun n => invisible_check w n) as Hp. revert c c' s s'. induction ops as [|[now o] ops IH]; intros c c' s s' H; [done|].
  cbn [List.filter res_run]. destruct (is_poll (now, o)) eqn:Ho; cbn [negb].
  - destruct o; try done. cbn [res_exec]. unfold bind at 1 3 4 6. cbn [ret fst snd].
    specialize (Hp now c s). unfold bind. cbn [ret fst snd app]. destruct (check_of w now (c, s)) as [u [c1 s1]]. cbn [fst snd] in *.
    apply (IH c1 c' s1 s'). etransitivity; [by symmetry|done].
  - cbn [res_run]. unfold bind at 1 3 5 7. destruct (res_exec_agree w now o Hw Ho c c' s s' H) as [E1 E2].
    destruct (res_exec w now o (c, s)) as [a [c1 s1]], (res_exec w now o (c', s')) as [a' [c1' s1']].
    cbn [fst snd] in *. subst a'. destruct (IH c1 c1' s1 s1' E2) as [E3 E4]. unfold bind. cbn [ret fst snd]. by rewrite E3.
Qed.

(** ** What the oracles contribute *)

(** Reads count for the trace and change nothing else. *)
Definition rf_frame (rf rf' : physregfile) : Prop :=
  same_stuck rf rf' /\ scalars rf' = scalars rf /\ vectors rf' = vectors rf.

#[local] Instance rf_frame_preorder : PreOrder rf_frame.
Proof.
  split.
  - by intros rf.
  - intros x y z ((A1 & A2 & A3 & A4) & A5 & A6) ((B1 & B2 & B3 & B4) & B5 & B6).
    unfold rf_frame, same_stuck. by rewrite B1, B2, B3, B4, B5, B6.
Qed.

(** The values of the integer sources. *)
Definition int_values (rf : physregfile) (srcs : list RegId) : list Z :=
  map (scalars rf) (List.filter (fun r => r.1 =? IntRegClass) srcs).

Lemma gate_sources_frame srcs got rf :
  length (gate_sources srcs got rf).1 = length srcs /\ rf_frame rf (gate_sources srcs got rf).2.
Proof.
  revert got rf. induction srcs as [|r srcs IH]; intros got rf; [done|]. cbn [gate_sources].
  destruct (_ && _); cbn [fst snd length]; rewrite (proj1 (IH _ _)); (split; [done|]).
  - etransitivity; [apply count_read_frame|apply IH].
  - apply IH.
Qed.

Lemma gate_sources_values srcs got rf : (got <= 2)%nat ->
  map snd (filter (fun s => s.1 = true) (gate_sources srcs got rf).1) = take (2 - got) (int_values rf srcs).
Proof.
  revert got rf. induction srcs as [|r srcs IH]; intros got rf Hg; [by destruct (2 - got)%nat|]. cbn [gate_sources].
  unfold int_values. cbn [List.filter]. destruct (Nat.ltb_spec got 2) as [Hlt|Hge]; cbn [andb].
  - replace (2 - got)%nat with (S (2 - S got)) by lia. destruct (r.1 =? IntRegClass); cbn [fst snd].
    + rewrite filter_cons_True by done. cbn [map take]. f_equal. rewrite IH by lia. unfold int_values.
      destruct (count_read_frame rf r.1 r.2) as (_ & -> & _). done.
    + rewrite filter_cons_False by done. rewrite IH by lia. by replace (2 - got)%nat with (S (2 - S got)) by lia.
  - cbn [fst]. rewrite filter_cons_False by done. rewrite IH by lia. by replace (2 - got)%nat with 0%nat by lia.
Qed.

(** The delta of the netlist: what the stuck gate changes in the result of the first two
    integer sources. *)
Definition net_delta (p : gatefu_params) (a b : Z) : Z :=
  let pis := load_pis (pi_width (gf_net p)) a b in
  Z.lxor (pack_po (evalNet (gf_net p) pis (-1) 0)) (pack_po (evalNet (gf_net p) pis (gf_stuck_gate p) (gf_stuck_val p))).

Definition gate_term (now : Z) (x : res_inst) (s : res_state) : Z :=
  match rs_gate s with
  | None => 0
  | Some (p, _) =>
      if (0 <=? gf_stuck_gate p) && (ri_op x =? gf_target_opclass p) && (gf_first_clock p <=? now) then
        match int_values (rs_rf s) (ri_srcs x) with a :: b :: _ => net_delta p a b | _ => 0 end
      else 0
  end.

Definition perm_term (now op : Z) (s : res_state) : Z :=
  match rs_perm s with
  | None => 0
  | Some (p, _) => if (op =? perm_opclass p) && (perm_first p <=? now) then perm_mask p else 0
  end.

Lemma evaluate_value p now op srcs st :
  0 <= gf_stuck_gate p -> op = gf_target_opclass p -> gf_first_clock p <= now -> (2 <= length srcs)%nat ->
  default 0 (evaluate p now op srcs st).1 =
    match int_operands srcs with [a; b] => net_delta p a b | _ => 0 end.
Proof.
  intros Hg -> Hn Hl. unfold evaluate. rewrite Z.eqb_refl. destruct (Z.ltb_spec (gf_stuck_gate p) 0); [lia|].
  cbn [negb]. destruct (Z.ltb_spec now (gf_first_clock p)); [lia|]. rewrite decide_False by lia.
  destruct (int_operands srcs) as [|a [|b [|]]]; try done. unfold net_delta. set (x := pack_po _). set (y := pack_po _).
  destruct (Z.eqb_spec x y) as [E|E]; run; [cbn [negb]; by rewrite E, Z.lxor_nilpotent|done].
Qed.

Lemma int_values_short rf srcs a b l : int_values rf srcs = a :: b :: l -> (2 <= length srcs)%nat.
Proof.
  intros H. apply (f_equal length) in H. unfold int_values in H. rewrite length_map in H. cbn in H.
  pose proof (List.filter_length_le (fun r : Z * Z => r.1 =? IntRegClass) srcs). unfold RegId in *. lia.
Qed.

(** What the two oracles leave: their values, and a state that differs in their own states
    and in the read counts. *)
Definition oracle_post (s : res_state) (r : core * res_state) (c : core) : Prop :=
  r.1 = c /\ rs_insts r.2 = rs_insts s /\ rf_frame (rs_rf s) (rs_rf r.2).

Lemma perm_mask_spec now op c s : let r := perm_mask_of now op (c, s) in
  r.1 = perm_term now op s /\ oracle_post s r.2 c /\ rs_rf r.2.2 = rs_rf s /\ rs_gate r.2.2 = rs_gate s.
Proof.
  unfold perm_mask_of, perm_term, oracle_post. run. destruct (rs_perm s) as [[p st]|]; [|done].
  unfold fu_perm_mask_for. rewrite Z.leb_antisym. destruct (op =? perm_opclass p); [|done].
  cbn [negb andb]. destruct (now <? perm_first p); done.
Qed.

Lemma gate_delta_spec now i c s : let r := gate_delta_of now i (c, s) in
  r.1 = gate_term now (rs_insts s i) s /\ oracle_post s r.2 c.
Proof.
  unfold gate_delta_of, gate_term, oracle_post. run. destruct (rs_gate s) as [[p st]|]; [|done]. cbv zeta.
  set (x := rs_insts s i). rewrite !Z.leb_antisym.
  destruct (Z.ltb_spec (gf_stuck_gate p) 0); [done|]. destruct (Z.eqb_spec (ri_op x) (gf_target_opclass p)); [|done].
  destruct (Z.ltb_spec now (gf_first_clock p)); [done|]. cbn [orb negb andb].
  destruct (gate_sources_frame (ri_srcs x) 0 (rs_rf s)) as [Hlen Hf].
  case_bool_decide as Hs.
  - cbn [fst snd]. split; [|done]. destruct (int_values _ _) as [|a [|b l]] eqn:E; try done.
    apply int_values_short in E. lia.
  - cbn [fst snd set_gate set_rf rs_insts rs_rf]. split; [|done].
    rewrite evaluate_value by (done || lia). unfold int_operands. rewrite gate_sources_values by lia.
    change (2 - 0)%nat with 2%nat. rewrite take_take. by destruct (int_values _ _) as [|a [|b l]].
Qed.

(** ** The hooks of CHAOSFPU *)

(** A mask as the injector makes them: the configured one, or random bits of the segment. *)
Definition fpu_mask_ok (p : fpu_params) (m : Z) : Prop :=
  if fpu_mask p =? 0
  then popcount m <= Z.max 0 (fpu_bits p) /\
       forall i, Z.testbit m i = true -> (seg_bounds (fpu_seg p)).1 <= i <= (seg_bounds (fpu_seg p)).2
  else m = fpu_mask p.

(** A mask and whether a fault is counted. *)
Definition hook_post {X} (p : fpu_params) (now : Z) (reg : RegId) (mask : Z) (s s' : core * X) : Prop :=
  s'.2 = s.2 /\
  count_of s' = (if mask =? 0 then count_of s else count_succ (count_of s)) /\
  (mask <> 0 -> is_fp_class reg.1 = true /\ in_window (lp_first (fpu_loop p)) (lp_last (fpu_loop p)) now = true /\
                cap_reached (lp_max (fpu_loop p)) (count_of s) = false /\ fpu_mask_ok p mask).

Lemma fpu_genMask_ok p g : fpu_mask_ok p (fpu_genMask p g).1.
Proof.
  unfold fpu_mask_ok, fpu_genMask, mask_or. destruct (fpu_mask p =? 0); cbn [negb]; [|done].
  assert (0 <= (seg_bounds (fpu_seg p)).1 <= (seg_bounds (fpu_seg p)).2) as Hr by (by destruct (fpu_seg p)).
  destruct (random_mask_range (fpu_bits p) _ _ g Hr) as (Hu & Hlo & Hp). split; [done|]. intros i Hi.
  destruct (Z.lt_ge_cases i (seg_bounds (fpu_seg p)).1); [by rewrite Hlo in Hi|]. split; [done|].
  destruct (Z.le_gt_cases i (seg_bounds (fpu_seg p)).2); [done|]. rewrite (uint_testbit_high _ _ i Hu) in Hi by lia. done.
Qed.

Lemma fpu_hook_spec {X} p now site reg old (s : core * X) :
  hook_post p now reg (fpu_hook p now site reg old s).1 s (fpu_hook p now site reg old s).2.
Proof.
  unfold fpu_hook, hook_post. destruct (is_fp_class reg.1); cbn [negb]; [|done].
  unfold bind. destruct (gate_spec (fpu_gate p) now s) as (b & g & -> & _ & Hb). cbn [fst snd].
  destruct b; [|done]. destruct (Hb eq_refl) as [Hw Hc].
  unfold fpu_fault, logCorruption, count_fault. run. pose proof (fpu_genMask_ok p g) as Hu.
  destruct (fpu_genMask p g) as [mask g']. cbn [fst snd] in *.
  destruct (Z.eqb_spec mask 0) as [->|Hm]; cbn [fst snd]; [by split_and!|].
  destruct (Z.eqb_spec mask 0); [done|]. logs. by split_and!.
Qed.

#[global] Instance fpu_hook_capped {X} p now site reg old : CappedHook (X := X) (lp_max (fpu_loop p)) (fpu_hook p now site reg old).
Proof.
  intros s. destruct (fpu_hook_spec p now site reg old s) as (_ & -> & H).
  destruct (Z.eqb_spec (fpu_hook p now site reg old s).1 0); [by left|right]. split; [done|]. by apply H.
Qed.

#[global] Instance poll_result_capped lp log gen el hit sk pop site now tid :
  CappedHook (lp_max lp) (poll_result lp log gen el hit sk pop site now tid).
Proof. unfold poll_result. counted. Qed.

(** The value the hooks of the write path see and give. *)
Definition wb_hook (fpu : option fpu_params) (now : Z) (reg : RegId) (val : Z) : MR Z :=
  match fpu with Some p => maybeCorruptWriteback p now reg val | None => ret val end.

Lemma wb_hook_spec fpu now reg val c s : exists mask,
  (wb_hook fpu now reg val (c, s)).1 = Z.lxor val mask /\
  match fpu with
  | None => mask = 0 /\ (wb_hook fpu now reg val (c, s)).2 = (c, s)
  | Some p => hook_post p now reg mask (c, s) (wb_hook fpu now reg val (c, s)).2
  end.
Proof.
  destruct fpu as [p|]; [|exists 0; cbn; by rewrite Z.lxor_0_r].
  exists (fpu_hook (X := res_state) p now "fp_writeback_result" reg val (c, s)).1.
  split; [done|]. apply fpu_hook_spec.
Qed.

(** Where a recorded result ends up. *)
Lemma setResult_insts i j x r s : rs_insts (set_res_inst i (setResult x r) s) j =
  if decide (j = i) then set_results x (instResult x ++ if ri_recordResult x then [r] else []) else rs_insts s j.
Proof.
  cbn. unfold fupd. repeat case_decide; try done. unfold setResult. destruct (ri_recordResult x) eqn:E; [done|].
  rewrite app_nil_r. by destruct x.
Qed.

(** ** The write-back *)

(** The faults of the three injectors in one word. *)
Definition wb_value (now : Z) (x : res_inst) (s : res_state) (val fm : Z) : Z :=
  Z.lxor (Z.lxor (Z.lxor val fm) (perm_term now (ri_op x) s)) (gate_term now x s).

(** The value of [reg] after [v] is written to it. *)
Definition stored (rf : physregfile) (reg : RegId) (v : Z) : Z :=
  if decide (reg = (stuck_type rf, stuck_idx rf))
  then reapply_fault (polarity_fault (stuck_polarity rf)) (stuck_mask rf) v else v.

(** The mask [fm] is a counted fault of the FPU injector, or 0. *)
Definition fpu_accounts (fpu : option fpu_params) (now : Z) (reg : RegId) (fm : Z) (c c' : core) : Prop :=
  faults_injected_count c' = (if fm =? 0 then faults_injected_count c else count_succ (faults_injected_count c)) /\
  (fm <> 0 -> reg.1 = FloatRegClass /\ exists p, fpu = Some p /\
     in_window (lp_first (fpu_loop p)) (lp_last (fpu_loop p)) now = true /\
     cap_reached (lp_max (fpu_loop p)) (faults_injected_count c) = false /\ fpu_mask_ok p fm).

Definition writeback_effect (fpu : option fpu_params) (now : Z) (i : nat) (reg : RegId) (val : Z) (c : core) (s : res_state) (r : option unit * (core * res_state)) : Prop :=
  let x := rs_insts s i in
  exists fm, let v := wb_value now x s val fm in
  r.1 = Some tt /\
  scalars (rs_rf r.2.2) reg = stored (rs_rf s) reg v /\
  (forall reg', reg' <> reg -> scalars (rs_rf r.2.2) reg' = scalars (rs_rf s) reg') /\
  vectors (rs_rf r.2.2) = vectors (rs_rf s) /\
  rs_insts r.2.2 i = set_results x (instResult x ++ if ri_recordResult x then [MkResult reg.1 (RVal v)] else []) /\
  (forall j, j <> i -> rs_insts r.2.2 j = rs_insts s j) /\
  fpu_accounts fpu now reg fm c r.2.1.

Lemma gate_term_ext now x s s' : rs_gate s' = rs_gate s -> rs_rf s' = rs_rf s -> gate_term now x s' = gate_term now x s.
Proof. unfold gate_term. by intros -> ->. Qed.

Lemma write_end_effect now i reg val fpu c s c1 s1 x fm :
  rs_insts s i = x -> rs_insts s1 = rs_insts s -> rf_frame (rs_rf s) (rs_rf s1) ->
  reg.1 = IntRegClass \/ reg.1 = FloatRegClass ->
  fpu_accounts fpu now reg fm c c1 ->
  let v := wb_value now x s val fm in
  writeback_effect fpu now i reg val c s
    (match rf_setReg (rs_rf s1) reg v with
     | None => ret None
     | Some rf =>
         do! modify (set_rf rf) in
         do! modify (fun s => set_res_inst i (setResult (rs_insts s i) (MkResult reg.1 (RVal v))) s) in
         ret (Some tt)
     end (c1, s1)).
Proof.
  intros <- Hi ((T1 & T2 & T3 & T4) & Hsc & Hvec) Hreg Hacc v.
  destruct (rf_setReg_scalar (rs_rf s1) reg v Hreg) as (rf & E & _ & Hv & Hoth).
  pose proof (rf_setReg_vectors _ _ _ _ Hreg E) as Hvs. rewrite E. run. exists fm. fold v.
  split; [done|]. cbn [snd]. split_and!; try done.
  - cbn. rewrite Hv. unfold stored. by rewrite T1, T2, T3, T4.
  - intros reg' Hne. cbn. by rewrite (Hoth _ Hne), Hsc.
  - cbn. by rewrite Hvs.
  - rewrite setResult_insts, decide_True by done. cbn. by rewrite Hi.
  - intros j Hj. rewrite setResult_insts, decide_False by done. cbn. by rewrite Hi.
Qed.

Lemma setRegOperand_effect fpu now i idx reg val c s :
  ri_dests (rs_insts s i) !! idx = Some reg -> reg.1 = IntRegClass \/ reg.1 = FloatRegClass ->
  writeback_effect fpu now i reg val c s (setRegOperand fpu now i idx val (c, s)).
Proof.
  intros Hidx Hreg. unfold setRegOperand. unfold bind at 1. cbn [get fst snd].
  rewrite (list_lookup_total_correct _ _ _ Hidx). cbv zeta.
  replace (reg.1 =? InvalidRegClass) with false by (by destruct Hreg as [-> | ->]). fold (wb_hook fpu now reg val).
  unfold bind at 1. destruct (wb_hook_spec fpu now reg val c s) as (fm & Hv & Hpost).
  destruct (wb_hook fpu now reg val (c, s)) as [v1 [c1 s1]]. cbn [fst snd] in *. subst v1.
  assert (s1 = s /\ fpu_accounts fpu now reg fm c c1) as (-> & Hacc).
  { destruct fpu as [p|]; [|by destruct Hpost as [-> [= -> ->]]]. destruct Hpost as (Hs & Hc & Hm).
    split; [done|]. split; [done|]. intros Hne. destruct (Hm Hne) as (Hcl & Hw & Hcap & Hok).
    split; [by destruct Hreg as [E|E]; rewrite E in Hcl|eauto 10]. }
  unfold bind at 1. destruct (perm_mask_spec now (ri_op (rs_insts s i)) c1 s) as (-> & (P1 & P2 & _) & P3 & P4).
  destruct (perm_mask_of now (ri_op (rs_insts s i)) (c1, s)) as [m [c2 s2]]. cbn [fst snd] in *. subst c2.
  unfold bind at 1. destruct (gate_delta_spec now i c1 s2) as (-> & G1 & G2 & G3).
  destruct (gate_delta_of now i (c1, s2)) as [d [c3 s3]]. cbn [fst snd] in *. subst c3.
  unfold bind at 1. cbn [get fst snd]. rewrite P2, (gate_term_ext now _ s s2 P4 P3).
  rewrite P3 in G3. rewrite P2 in G2. by apply write_end_effect.
Qed.

(** ** The constructors *)

Lemma index_of_spec n names i : 
  match index_of n names i with
  | Some k => i <= k /\ names !! Z.to_nat (k - i) = Some n
  | None => n ∉ names
  end.
Proof.
  revert i. induction names as [|m names IH]; intros i; cbn [index_of]; [apply not_elem_of_nil|].
  destruct (String.eqb_spec m n) as [->|Hne]; [by rewrite Z.sub_diag|].
  specialize (IH (i + 1)). destruct (index_of n names (i + 1)) as [k|].
  - destruct IH as [Hk IH]. split; [lia|]. by replace (Z.to_nat (k - i)) with (S (Z.to_nat (k - (i + 1)))) by lia.
  - rewrite not_elem_of_cons. by split; [intros ->|].
Qed.

(** * Theorems *)

(** C31 What a write-back stores: writing a value to an integer or float destination stores the
    value XORed with the mask of CHAOSFPU, the permanent mask of CHAOSFUPerm for its operation
    class and what the stuck gate of CHAOSGateFU changes in the result of the first two integer
    sources, under the stuck bits of the register file; no other register, no vector and no other
    instruction changes, the result queue of the instruction gets the same word (without the
    stuck bits) if it records results, and a nonzero mask of CHAOSFPU is one counted fault on
    a float register, inside the window and below the cap, and is the configured mask or, if
    none is configured, at most bitsToChange bits of the configured segment. *)
Theorem writeback_exact fpu now i idx reg val c s :
  ri_dests (rs_insts s i) !! idx = Some reg -> reg.1 = IntRegClass \/ reg.1 = FloatRegClass ->
  writeback_effect fpu now i reg val c s (setRegOperand fpu now i idx val (c, s)).
Proof. apply setRegOperand_effect. Qed.

(** An adder result in a register with a stuck bit: an IntAlu instruction with sources 3 and 4
    of value 7, a permanent mask and a stuck gate. *)
Definition res_example_inst : res_inst := ResInst 1 [(0, 3); (0, 4)] [(0, 5)] true false false true [].
Definition res_example : res_state :=
  ResState (set_stuck example_rf 0 5 1 1) (fun _ => res_example_inst) (fun _ => Some 0%nat) 1 (fun _ => true) (Evt true false 21)
    (Some (PermParams 1 0 256 false, PermState 0 (Core (Engine Z.of_nat 0) 0 stats0 [])))
    (Some (GateFUParams 1 0 0 0 false (synthesizeAdder 64), (Core (Engine Z.of_nat 0) 0 stats0 [], GateFUState 0 0))).
Definition res_example_core : core := Core (Engine Z.of_nat 0) 0 stats0 [].

Lemma writeback_exact_witness :
  writeback_effect None 20 0 (0, 5) 14 res_example_core res_example
    (setRegOperand None 20 0 0 14 (res_example_core, res_example)).
Proof. apply (writeback_exact None 20 0 0 (0, 5) 14); [reflexivity|left; reflexivity]. Defined.

Definition res_example_exec : exec_params := ExecParams (LoopParams 1 0 0 0 true) 4 1 SegAll false.
Definition res_example_ops : list (Z * res_op) :=
  [(20, OpWrite 0 0 14); (21, OpPoll); (22, OpRead 1 0); (23, OpInst 2 res_example_inst); (24, OpReadV 2 1 [0; 0])].

(** C29 The faults of CHAOSExec and CHAOSL1DForward stay out of the registers: take any run of
    operand accesses with the polls of the injector in it, and the same run without them,
    from states that agree up to the result queues; every access returns the same value,
    and the two runs end with the same register file, whatever the polls have corrupted and
    counted. *)
Theorem polled_faults_invisible w ops c c' s s' :
  hooks_of w = None -> same_arch s s' ->
  let without := List.filter (fun o => negb (is_poll o)) ops in
  (res_run w ops (c, s)).1 = (res_run w without (c', s')).1 /\
  rs_rf (res_run w ops (c, s)).2.2 = rs_rf (res_run w without (c', s')).2.2.
Proof. intros Hw Hs without. destruct (invisible_run w ops c c' s s' Hw Hs) as [E []]. done. Qed.

Lemma polled_faults_invisible_witness :
  let run ops := res_run (InjExec res_example_exec) ops (res_example_core, res_example) in
  let without := List.filter (fun o => negb (is_poll o)) res_example_ops in
  (run res_example_ops).1 = (run without).1 /\ rs_rf (run res_example_ops).2.2 = rs_rf (run without).2.2.
Proof. exact (polled_faults_invisible (InjExec res_example_exec) res_example_ops res_example_core res_example_core res_example res_example eq_refl (reflexivity res_example)). Defined.

(** In that run a fault is counted, and in the result queue. *)
Lemma res_example_counts :
  let r := res_run (InjExec res_example_exec) res_example_ops (res_example_core, res_example) in
  faults_injected_count r.2.1 = 1 /\
  map res_val (instResult (rs_insts r.2.2 0)) = [RVal (Z.lxor (wb_value 20 res_example_inst res_example 14 0) 4)].
Proof. vm_compute. done. Qed.

(** The constructors of the functional-unit injectors: CHAOSFUPerm is built exactly for an
    O3 processor and a known operation class, CHAOSGateFU exactly if besides the class is
    IntAlu or IntMult, and throws otherwise; the class it keeps is the index of the name, and
    the permanent mask is never zero, also when none is configured. *)
Theorem fu_constructors_reject strs is_o3 cls first fmask seed log gate pol :
  let perm := CHAOSFUPerm_init strs is_o3 cls first fmask seed log in
  let gfu := CHAOSGateFU_init strs is_o3 cls gate pol first log in
  ((exists p, perm = Built p) <-> is_o3 = true /\ cls ∈ strs) /\
  ((exists p, gfu = Built p) <-> is_o3 = true /\ cls ∈ strs /\ (cls = "IntAlu" \/ cls = "IntMult")%string) /\
  (forall p, perm = Built p -> strs !! Z.to_nat (perm_opclass p) = Some cls /\ perm_mask p <> 0) /\
  (forall p, gfu = Built p -> strs !! Z.to_nat (gf_target_opclass p) = Some cls).
Proof.
  unfold CHAOSFUPerm_init, CHAOSGateFU_init. cbv zeta. destruct is_o3; cbn [negb];
    [|by split_and!; [split; [intros [? [=]]|intros [[=] _]]..|intros ? [=]|intros ? [=]]].
  pose proof (index_of_spec cls strs 0) as Hx. destruct (index_of cls strs 0) as [k|].
  - destruct Hx as [_ Hk]. rewrite Z.sub_0_r in Hk. pose proof (list_elem_of_lookup_2 _ _ _ Hk) as Hin.
    split_and!.
    + by split; eauto.
    + destruct (String.eqb_spec cls "IntAlu") as [->|N1]; [by split; eauto|].
      destruct (String.eqb_spec cls "IntMult") as [->|N2]; [by split; eauto|].
      split; [by intros [? [=]]|by intros (_ & _ & [|])].
    + intros p [= <-]. cbn. split; [done|]. case_match eqn:E; bools; [|done].
      rewrite Z.shiftl_1_l. set (b := _ mod 64). assert (0 <= b) by (apply Z.mod_pos_bound; lia).
      pose proof (Z.pow_pos_nonneg 2 b). lia.
    + intros p. repeat case_match; intros [= <-]; done.
  - split_and!; [split; [by intros [? [=]]|by intros [_ ?]]|split; [by intros [? [=]]|by intros (_ & ? & _)]|by intros ? [=]..].
Qed.
