(* ===== verification/ExMon.v ===== *)
(** * The exclusive monitor of an Arm thread and CHAOSExMon

    The local monitor of ArmISA ([MISCREG_LOCKADDR], [MISCREG_LOCKFLAG]; arch/arm/isa.cc):
    the handlers of load-exclusive, store-exclusive and snoops, which the source writes once
    for two kinds of execution context, the thread itself and an instruction of the O3
    processor, whose register writes wait for commit; CHAOSExMon, which overrides the verdict
    of the handler of store-exclusive; and the accesses of AtomicSimpleCPU, which consult the
    monitor and then the reservations of the abstract memory (Memory.v).  The theorems: under
    any injector the memory alone decides which store-exclusive goes through, so no update
    is lost; what CHAOSExMon changes in a verdict; that an undisturbed load/store-exclusive
    pair succeeds; and that a snoop between execution and commit of a load-exclusive is
    forgotten. *)

From Stdlib Require Import ZArith Lia QArith.
From stdpp Require Import base sets numbers list strings.
From S2P Require Import Prelude Word Random EventQueue AttackLoop HookGate Memory.

Open Scope Z_scope.

(** ** Execution contexts *)

Inductive lock_reg := LOCKADDR | LOCKFLAG | SEV_MAILBOX.

#[global] Instance lock_reg_eq_dec : EqDecision lock_reg.
Proof. solve_decision. Defined.

(** A thread: the registers of the monitor, the [INT_SEV] interrupts posted to it and its
    count of failed store-exclusives. *)
Record lock_thread := LockThread {
  miscRegs : lock_reg -> Z; sev_posted : Z; storeCondFailures : Z
}.

Definition set_misc (r : lock_reg) (v : Z) (t : lock_thread) : lock_thread :=
  LockThread (fupd (miscRegs t) r v) (sev_posted t) (storeCondFailures t).

(** The parameter [XC] of the handlers: a context that belongs to a thread and has its own
    way of writing a miscellaneous register. *)
Class ExecContext (X : Type) := {
  xc_thread : X -> lock_thread;
  xc_on_thread : (lock_thread -> lock_thread) -> X -> X;
  xc_setMiscReg : lock_reg -> Z -> X -> X
}.

Definition readMiscReg {X} `{ExecContext X} (x : X) (r : lock_reg) : Z := miscRegs (xc_thread x) r.

#[global] Instance thread_context : ExecContext lock_thread := {|
  xc_thread t := t; xc_on_thread f t := f t; xc_setMiscReg := set_misc
|}.

(** An instruction of the O3 processor: its writes, in order. *)
Record lock_inst := LockInst { li_thread : lock_thread; destMiscReg : list (lock_reg * Z) }.

(** [DynInst::setMiscReg] *)
Definition inst_setMiscReg (r : lock_reg) (v : Z) (i : lock_inst) : lock_inst :=
  if existsb (fun p => bool_decide (p.1 = r)) (destMiscReg i) then i
  else LockInst (li_thread i) (destMiscReg i ++ [(r, v)]).

(** [DynInst::updateMiscRegs], at commit. *)
Definition updateMiscRegs (i : lock_inst) : lock_thread :=
  foldl (fun t p => set_misc p.1 p.2 t) (li_thread i) (destMiscReg i).

#[global] Instance inst_context : ExecContext lock_inst := {|
  xc_thread := li_thread;
  xc_on_thread f i := LockInst (f (li_thread i)) (destMiscReg i);
  xc_setMiscReg := inst_setMiscReg
|}.

(** ** CHAOSExMon *)

Inductive ExMode := ClearReservation | StaleReservation.

Record exmon_params := ExMonParams {
  em_mode : ExMode; em_probability : Q; em_first : Z; em_last : Z; em_max : Z; em_log : bool
}.

(** The mode of the constructor; [None] is its panic. *)
Definition exmon_mode (m : string) : option ExMode :=
  if String.eqb m "clear_reservation" then Some ClearReservation
  else if String.eqb m "stale_reservation" then Some StaleReservation
  else None.

Section ExMon.
Context {X : Type} (p : exmon_params) (now : Z).

(** [last_clock && curTick() > last_clock * 1000] *)
Definition past_window : bool := negb (em_last p =? 0) && (u64 (em_last p * 1000) <? now).
Definition before_window : bool := now <? u64 (em_first p * 1000).

(** The trial that is skipped for a probability of 1. *)
Definition exmon_trial : M X bool :=
  if Qle_bool 1 (em_probability p) then ret true else bernoulli (em_probability p).

Definition shouldInject : M X bool :=
  let! c := get_count in
  if cap_reached (em_max p) c then ret false
  else if past_window then ret false
  else if before_window then do! bump numOutOfWindow in ret false
  else do! bump numInWindowChecks in exmon_trial.

Definition exmon_writeLog (type : string) (paddr : Z) : M X unit :=
  let! c := get_count in log_if (em_log p) (Entry type [("tick", now); ("paddr", paddr); ("count", c)]).

Definition maybeClearReservationSC (paddr : Z) : M X bool :=
  match em_mode p with
  | StaleReservation => ret false
  | ClearReservation =>
      if past_window then ret false
      else if before_window then do! bump numOutOfWindow in ret false
      else
        do! bump numInWindowChecks in
        let! b := exmon_trial in
        if negb b then ret false
        else
          do! bump numClearReservations in
          let! c := get_count in
          do! whenM (c =? 0) (bump numFaultsInjected) in
          do! incr_count in
          do! exmon_writeLog "clear_reservation" paddr in
          ret true
  end.

Definition maybeStaleReservation (paddr : Z) : M X bool :=
  match em_mode p with
  | ClearReservation => ret false
  | StaleReservation =>
      let! b := shouldInject in
      if negb b then ret false
      else
        do! incr_count in
        do! bump numFaultsInjected in
        do! bump numStaleReservations in
        do! exmon_writeLog "stale_reservation" paddr in
        ret true
  end.
End ExMon.

(** ** The handlers of ArmISA *)

Section Handlers.
Context {X : Type} `{ExecContext X}.

(** [sendEvent(tc)] *)
Definition sendEvent (t : lock_thread) : lock_thread :=
  if miscRegs t SEV_MAILBOX =? 0 then LockThread (miscRegs t) (sev_posted t + 1) (storeCondFailures t) else t.

Definition lockedSnoopHandler (addr cacheBlockMask : Z) (x : X) : X :=
  if readMiscReg x LOCKFLAG =? 0 then x
  else if Z.land (readMiscReg x LOCKADDR) cacheBlockMask =? Z.land addr cacheBlockMask then
    let x1 := xc_setMiscReg LOCKFLAG 0 x in
    let x2 := xc_on_thread sendEvent x1 in
    xc_setMiscReg SEV_MAILBOX 1 x2
  else x.

Definition handleLockedRead (paddr : Z) (x : X) : X := xc_setMiscReg LOCKFLAG 1 (xc_setMiscReg LOCKADDR paddr x).

Definition handleLockedSnoopHit (x : X) : X := xc_setMiscReg SEV_MAILBOX 1 (xc_setMiscReg LOCKFLAG 0 x).

Definition globalClearExclusive (x : X) : X :=
  xc_setMiscReg SEV_MAILBOX 1 (xc_on_thread sendEvent (xc_setMiscReg LOCKFLAG 0 x)).

Definition count_failure (t : lock_thread) : lock_thread :=
  LockThread (miscRegs t) (sev_posted t) ((storeCondFailures t + 1) mod 2 ^ 32).

(** The reservation is there and covers the address. *)
Definition monitor_holds (x : X) (paddr cacheBlockMask : Z) : bool :=
  negb (readMiscReg x LOCKFLAG =? 0) &&
  (Z.land paddr cacheBlockMask =? Z.land (readMiscReg x LOCKADDR) cacheBlockMask).

(** [lockedWriteHandler]: [false] also sets the result of the request to 0. *)
Definition lockedWriteHandler (em : option exmon_params) (now : Z) (isSwap : bool) (paddr cacheBlockMask : Z) : M X bool :=
  if isSwap then ret true
  else
    let! x := get in
    if negb (monitor_holds x paddr cacheBlockMask) then
      let! stale := (match em with Some p => maybeStaleReservation p now paddr | None => ret false end) in
      if stale then ret true
      else
        do! modify (xc_setMiscReg LOCKFLAG 0) in
        do! modify (xc_on_thread count_failure) in
        ret false
    else
      let! clear := (match em with Some p => maybeClearReservationSC p now paddr | None => ret false end) in
      if clear then do! modify (xc_setMiscReg LOCKFLAG 0) in ret false
      else ret true.
End Handlers.

(** ** AtomicSimpleCPU over the abstract memory *)

(** The threads of the processor, their number, and the memory; the context of a thread is
    its number. *)
Record atomic_sys := AtomicSys { at_threads : Z -> lock_thread; at_num : Z; at_mem : memory }.

Definition set_thread (tid : Z) (t : lock_thread) (s : atomic_sys) : atomic_sys :=
  AtomicSys (fupd (at_threads s) tid t) (at_num s) (at_mem s).
Definition set_mem (m : memory) (s : atomic_sys) : atomic_sys := AtomicSys (at_threads s) (at_num s) m.

(** A handler on one thread. *)
Definition on_thread {A} (tid : Z) (h : M lock_thread A) : M atomic_sys A := fun '(c, s) =>
  let r := h (c, at_threads s tid) in (r.1, (r.2.1, set_thread tid r.2.2 s)).

Definition with_cleared (m : memory) (l : list Z) : memory :=
  Memory (range_start m) (range_size m) (pmem m) (writeable m) (lockedAddrList m) l.

(** A packet at the memory, which clears the monitors of other contexts on its way; [None]
    is a failing assertion. *)
Definition send_packet (p : packet) (s : atomic_sys) : option (reply * atomic_sys) :=
  match access (with_cleared (at_mem s) []) p with
  | None => None
  | Some (r, m) =>
      Some (r, set_mem m (foldl (fun s c => set_thread c (globalClearExclusive (at_threads s c)) s) s (reverse (cleared m))))
  end.

Definition thread_ids_of (s : atomic_sys) : list Z := map Z.of_nat (seq 0 (Z.to_nat (at_num s))).

(** [threadSnoop]: every other thread of the processor. *)
Definition threadSnoop (mask addr sender : Z) (s : atomic_sys) : atomic_sys :=
  foldl (fun s tid => if tid =? sender then s else set_thread tid (lockedSnoopHandler addr mask (at_threads s tid)) s)
    s (thread_ids_of s).

Section Atomic.
Context (em : option exmon_params) (mask : Z).

(** [readMem], the access of a translated fragment. *)
Definition atomic_read (llsc : bool) (tid a : Z) (n : nat) : M atomic_sys (option (list Z)) :=
  let! s := get in
  match send_packet (if llsc then LoadLockedReq tid a n else ReadReq a n) s with
  | Some (Data bytes, s1) =>
      do! put (if llsc then set_thread tid (handleLockedRead a (at_threads s1 tid)) s1 else s1) in
      ret (Some bytes)
  | _ => ret None
  end.

(** [writeMem]: the answer is the extra data of a store-exclusive; [getExtraData] asserts
    that it has been set, which a memory that is not writeable does not do. *)
Definition atomic_write (now : Z) (llsc : bool) (tid a : Z) (bytes : list Z) : M atomic_sys (option bool) :=
  let! do_access := (if llsc then on_thread tid (lockedWriteHandler em now false a mask) else ret true) in
  if negb do_access then ret (Some false)
  else
    let! s := get in
    match send_packet (if llsc then StoreCondReq tid a bytes else WriteReq (Some tid) a bytes) s with
    | None => ret None
    | Some (r, s1) =>
        do! put (threadSnoop mask a tid s1) in
        ret (match r with Cond ok => Some ok | Unset => None | _ => Some true end)
    end.

(** The accesses of a program; [AtClear] is CLREX and the entry of an exception. *)
Inductive at_op :=
  | AtLoad (tid a : Z) (n : nat) | AtLoadEx (tid a : Z) (n : nat)
  | AtStore (tid a : Z) (bytes : list Z) | AtStoreEx (tid a : Z) (bytes : list Z)
  | AtClear (tid : Z).

Inductive at_obs := ObsData (bytes : list Z) | ObsStored | ObsCond (ok : bool) | ObsNone.

Definition at_step (now : Z) (o : at_op) : M atomic_sys (option at_obs) :=
  match o with
  | AtLoad tid a n => let! r := atomic_read false tid a n in ret (option_map ObsData r)
  | AtLoadEx tid a n => let! r := atomic_read true tid a n in ret (option_map ObsData r)
  | AtStore tid a bytes => let! r := atomic_write now false tid a bytes in ret (option_map (fun _ => ObsStored) r)
  | AtStoreEx tid a bytes => let! r := atomic_write now true tid a bytes in ret (option_map ObsCond r)
  | AtClear tid => do! modify (fun s => set_thread tid (set_misc LOCKFLAG 0 (at_threads s tid)) s) in ret (Some ObsNone)
  end.

(** Until an assertion fails. *)
Fixpoint at_run (ops : list (Z * at_op)) : M atomic_sys (list (at_op * at_obs)) :=
  match ops with
  | [] => ret []
  | (now, o) :: ops' =>
      let! r := at_step now o in
      match r with
      | None => ret []
      | Some b => let! l := at_run ops' in ret ((o, b) :: l)
      end
  end.
End Atomic.

(** ** The specification: reservations, with spurious failures allowed *)

Inductive llsc_step (w : bool) (s : spec_memory) : at_op -> at_obs -> spec_memory -> Prop :=
  | spec_load tid a n : llsc_step w s (AtLoad tid a n) (ObsData (load_bytes (sp_bytes s) a n)) s
  | spec_loadex tid a n :
      llsc_step w s (AtLoadEx tid a n) (ObsData (load_bytes (sp_bytes s) a n)) (spec_access w s (LoadLockedReq tid a n)).2
  | spec_store tid a bytes : llsc_step w s (AtStore tid a bytes) ObsStored (spec_access w s (WriteReq (Some tid) a bytes)).2
  | spec_storeex tid a bytes : w = true -> sp_res s tid = Some (lock_mask a) ->
      llsc_step w s (AtStoreEx tid a bytes) (ObsCond true) (spec_write s a bytes)
  | spec_storeex_fail tid a bytes : llsc_step w s (AtStoreEx tid a bytes) (ObsCond false) s
  | spec_clear tid : llsc_step w s (AtClear tid) ObsNone s.

Inductive llsc_trace (w : bool) : spec_memory -> list (at_op * at_obs) -> spec_memory -> Prop :=
  | trace_nil s : llsc_trace w s [] s
  | trace_cons s o b s1 l s2 : llsc_step w s o b s1 -> llsc_trace w s1 l s2 -> llsc_trace w s ((o, b) :: l) s2.

(** * Lemmas *)

(** ** The memory side *)

Lemma foldl_at_mem {A} (f : atomic_sys -> A -> atomic_sys) l s :
  (forall s x, at_mem (f s x) = at_mem s) -> at_mem (foldl f s l) = at_mem s.
Proof. intros Hf. revert s. induction l as [|x l IH]; intros s; [done|]. cbn. by rewrite IH, Hf. Qed.

Lemma threadSnoop_mem mask a tid s : at_mem (threadSnoop mask a tid s) = at_mem s.
Proof. apply foldl_at_mem. intros s' x. by destruct (x =? tid). Qed.

Lemma on_thread_mem {A} tid (h : M lock_thread A) c s : at_mem (on_thread tid h (c, s)).2.2 = at_mem s.
Proof. done. Qed.

Lemma with_cleared_refines m l sp : refines m sp -> refines (with_cleared m l) sp.
Proof. intros []. by split. Qed.

Lemma send_refines s p r s1 sp :
  refines (at_mem s) sp -> send_packet p s = Some (r, s1) ->
  r = (spec_access (writeable (at_mem s)) sp p).1 /\ refines (at_mem s1) (spec_access (writeable (at_mem s)) sp p).2 /\
  writeable (at_mem s1) = writeable (at_mem s).
Proof.
  intros Hr. unfold send_packet. destruct (access _ p) as [[r' m]|] eqn:E; [|done]. intros [= <- <-].
  destruct (access_refines _ sp p _ _ (with_cleared_refines _ [] _ Hr) E) as (H1 & H2 & H3). done.
Qed.

(** What one access does to the memory, whatever the monitors and the injector do. *)
Definition step_post (w : bool) (sp : spec_memory) (o : at_op) (r : option at_obs * (core * atomic_sys)) : Prop :=
  match r.1 with
  | None => True
  | Some b => exists sp', llsc_step w sp o b sp' /\ refines (at_mem r.2.2) sp' /\ writeable (at_mem r.2.2) = w
  end.

Lemma atomic_read_post (llsc : bool) tid a n c s sp :
  refines (at_mem s) sp ->
  let w := writeable (at_mem s) in
  step_post w sp (if llsc then AtLoadEx tid a n else AtLoad tid a n)
    ((let! r := atomic_read llsc tid a n in ret (option_map ObsData r)) (c, s)).
Proof.
  intros Hr w. unfold atomic_read, step_post. run.
  destruct (send_packet _ s) as [[r s1]|] eqn:E; [|done].
  destruct (send_refines _ _ _ _ _ Hr E) as (-> & H2 & H3). fold w in H2, H3.
  destruct llsc; cbn [spec_access fst snd option_map] in *; eexists; (split; [constructor|by cbn]).
Qed.

Lemma atomic_write_post em mask now (llsc : bool) tid a bytes c s sp :
  refines (at_mem s) sp ->
  let w := writeable (at_mem s) in
  step_post w sp (if llsc then AtStoreEx tid a bytes else AtStore tid a bytes)
    ((let! r := atomic_write em mask now llsc tid a bytes in
      ret (option_map (if llsc then ObsCond else fun _ : bool => ObsStored) r)) (c, s)).
Proof.
  intros Hr w. unfold atomic_write, step_post. unfold bind.
  assert (exists b c1 s1, (if llsc then on_thread tid (lockedWriteHandler em now false a mask) else ret true) (c, s) = (b, (c1, s1)) /\
    at_mem s1 = at_mem s /\ (llsc = false -> b = true)) as (b & c1 & s1 & -> & Hm & Hb).
  { destruct llsc; [by eexists _, _, _|by eexists true, c, s]. }
  cbn [fst snd]. destruct b; cbn [negb].
  - run. destruct (send_packet _ s1) as [[r s2]|] eqn:E; [|done]. rewrite <- Hm in Hr.
    destruct (send_refines _ _ _ _ _ Hr E) as (-> & H2 & H3). rewrite Hm in H2, H3. fold w in H2, H3. rewrite Hm. fold w.
    cbn [option_map fst snd]. destruct llsc; cbn [spec_access] in *.
    + destruct w; cbn [negb] in *; [|done]. destruct (bool_decide _) eqn:Hw; cbn [fst snd] in *; eexists.
      * apply bool_decide_eq_true in Hw. split; [by constructor|]. by rewrite threadSnoop_mem.
      * split; [by constructor|]. by rewrite threadSnoop_mem.
    + eexists. split; [constructor|]. by rewrite threadSnoop_mem.
  - destruct llsc; [|by specialize (Hb eq_refl)]. cbn. exists sp. rewrite Hm. split; [constructor|done].
Qed.

Lemma at_step_post em mask now o c s sp :
  refines (at_mem s) sp -> step_post (writeable (at_mem s)) sp o (at_step em mask now o (c, s)).
Proof.
  intros Hr. destruct o as [tid a n|tid a n|tid a bytes|tid a bytes|tid].
  - by apply (atomic_read_post false).
  - by apply (atomic_read_post true).
  - by apply (atomic_write_post em mask now false).
  - by apply (atomic_write_post em mask now true).
  - exists sp. split; [constructor|done].
Qed.

Lemma at_run_post em mask ops c s sp :
  refines (at_mem s) sp ->
  let r := at_run em mask ops (c, s) in
  exists sp', llsc_trace (writeable (at_mem s)) sp r.1 sp' /\
    (length r.1 = length ops -> refines (at_mem r.2.2) sp').
Proof.
  revert c s sp. induction ops as [|[now o] ops IH]; intros c s sp Hr; [exists sp; split; [constructor|done]|].
  cbn [at_run]. unfold bind at 1 3 5. pose proof (at_step_post em mask now o c s sp Hr) as Hp.
  destruct (at_step em mask now o (c, s)) as [[b|] [c1 s1]]; cbn [fst snd].
  - destruct Hp as (sp1 & Hs & Hr1 & Hw). cbn [fst snd] in *. destruct (IH c1 s1 sp1 Hr1) as (sp2 & Ht & Hend).
    unfold bind. cbn [ret fst snd]. exists sp2. rewrite Hw in Ht. split; [by econstructor|].
    intros Hlen. apply Hend. cbn in Hlen. lia.
  - exists sp. split; [constructor|done].
Qed.

(** ** The hooks *)

Definition exmon_window (p : exmon_params) (now : Z) : bool := negb (past_window p now) && negb (before_window p now).

(** What a hook does: it keeps the state, counts what it overrides, and overrides only in its
    mode, inside the window and, for the stale mode, below the cap. *)
Definition override_post {X} (p : exmon_params) (now : Z) (m : ExMode) (c : core) (x : X) (r : bool * (core * X)) : Prop :=
  r.2.2 = x /\
  faults_injected_count r.2.1 = (if r.1 then count_succ (faults_injected_count c) else faults_injected_count c) /\
  (r.1 = true -> em_mode p = m /\ exmon_window p now = true /\
     (m = StaleReservation -> cap_reached (em_max p) (faults_injected_count c) = false)).

Lemma exmon_trial_spec {X} p c (x : X) : exists b g,
  exmon_trial p (c, x) = (b, (Core g (faults_injected_count c) (the_stats c) (the_log c), x)).
Proof.
  unfold exmon_trial. destruct c as [g n st lg]. destruct (Qle_bool 1 _); [by eexists true, g|].
  destruct (bernoulli_run (em_probability p) (Core g n st lg, x)) as (b & g' & -> & _). by eexists b, g'.
Qed.

Lemma maybeStale_spec {X} p now a c (x : X) : override_post p now StaleReservation c x (maybeStaleReservation p now a (c, x)).
Proof.
  unfold maybeStaleReservation, override_post, exmon_window. destruct (em_mode p); [done|].
  unfold shouldInject, bind, get_count. cbn [fst snd].
  destruct (cap_reached _ _) eqn:Hc; [done|]. destruct (past_window p now); [by destruct c|].
  destruct (before_window p now); [by destruct c|]. unfold bump. destruct c as [g n st lg]. cbn [fst snd].
  match goal with |- context [exmon_trial p (?c, x)] => destruct (exmon_trial_spec p c x) as (b & g' & ->) end.
  destruct b; [|done]. unfold exmon_writeLog. cbn [negb fst snd]. exec. done.
Qed.

Lemma maybeClear_spec {X} p now a c (x : X) : override_post p now ClearReservation c x (maybeClearReservationSC p now a (c, x)).
Proof.
  unfold maybeClearReservationSC, override_post, exmon_window. destruct (em_mode p); [|done].
  destruct (past_window p now); [done|]. destruct (before_window p now); [by destruct c|].
  unfold bind, bump. destruct c as [g n st lg]. cbn [fst snd].
  match goal with |- context [exmon_trial p (?c, x)] => destruct (exmon_trial_spec p c x) as (b & g' & ->) end.
  destruct b; [|done]. cbn [negb fst snd get_count faults_injected_count]. unfold exmon_writeLog. destruct (n =? 0); cbn [whenM]; exec; done.
Qed.

(** ** The verdict *)

(** The answer of the hook that is asked. *)
Definition overridden {X} `{ExecContext X} (em : option exmon_params) (now : Z) (holds : bool) (a : Z) (s : core * X) : bool :=
  match em with
  | None => false
  | Some p => (if holds then maybeClearReservationSC p now a s else maybeStaleReservation p now a s).1
  end.

Definition verdict_mode (holds : bool) : ExMode := if holds then ClearReservation else StaleReservation.

(** What an override needs. *)
Definition may_override (em : option exmon_params) (now : Z) (holds : bool) (c : core) : Prop :=
  exists p, em = Some p /\ em_mode p = verdict_mode holds /\ exmon_window p now = true /\
    (holds = false -> cap_reached (em_max p) (faults_injected_count c) = false).

Lemma verdict_spec {X} `{ExecContext X} em now a mask c (x : X) :
  let holds := monitor_holds x a mask in
  let o := overridden em now holds a (c, x) in
  let r := lockedWriteHandler em now false a mask (c, x) in
  r.1 = xorb holds o /\
  faults_injected_count r.2.1 = (if o then count_succ (faults_injected_count c) else faults_injected_count c) /\
  (o = true -> may_override em now holds c) /\
  (r.1 = true -> r.2.2 = x).
Proof.
  intros holds o r. unfold r, lockedWriteHandler. unfold bind. cbn [get fst snd]. fold holds. subst o r.
  unfold overridden, may_override. destruct holds; cbn [negb]; (destruct em as [p|]; [|done]).
  - pose proof (maybeClear_spec p now a c x) as (H1 & H2 & H3).
    destruct (maybeClearReservationSC p now a (c, x)) as [b [c1 x1]]. cbn [fst snd] in *. subst x1.
    destruct b; cbn; (split; [done|]; split; [done|]; split; [|done]); [|done].
    intros _. exists p. destruct (H3 eq_refl) as (? & ? & _). done.
  - pose proof (maybeStale_spec p now a c x) as (H1 & H2 & H3).
    destruct (maybeStaleReservation p now a (c, x)) as [b [c1 x1]]. cbn [fst snd] in *. subst x1.
    destruct b; cbn; (split; [done|]; split; [done|]; split; [|done]); [|done].
    intros _. exists p. destruct (H3 eq_refl) as (? & ? & Hc). split_and!; try done. intros _. by apply Hc.
Qed.

Lemma in_range_cleared m l a n : in_range (with_cleared m l) a n = in_range m a n.
Proof. done. Qed.

(** A store-exclusive of the processor. *)
Definition sc_effect (em : option exmon_params) (now mask tid a : Z) (bytes : list Z) (c : core) (s : atomic_sys) (sp : spec_memory) (r : option bool * (core * atomic_sys)) : Prop :=
  let holds := monitor_holds (at_threads s tid) a mask in
  let o := overridden em now holds a (c, at_threads s tid) in
  let ok := xorb holds o && writeable (at_mem s) && bool_decide (sp_res sp tid = Some (lock_mask a)) in
  r.1 = (if xorb holds o && negb (writeable (at_mem s)) then None else Some ok) /\
  refines (at_mem r.2.2) (if ok then spec_write sp a bytes else sp) /\
  faults_injected_count r.2.1 = (if o then count_succ (faults_injected_count c) else faults_injected_count c) /\
  (o = true -> may_override em now holds c).

Lemma atomic_sc_effect em mask now tid a bytes c s sp :
  refines (at_mem s) sp -> in_range (at_mem s) a (length bytes) = true ->
  sc_effect em now mask tid a bytes c s sp (atomic_write em mask now true tid a bytes (c, s)).
Proof.
  intros Hr Hin. unfold atomic_write. unfold bind at 1, on_thread.
  destruct (verdict_spec em now a mask c (at_threads s tid)) as (V1 & V2 & V3 & V4).
  destruct (lockedWriteHandler em now false a mask (c, at_threads s tid)) as [b [c1 t1]]. cbn [fst snd] in *. subst b.
  unfold sc_effect. set (holds := monitor_holds _ _ _) in *. set (o := overridden _ _ _ _ _) in *.
  destruct (xorb holds o); cbn [negb andb]; [|done]. unfold bind. cbn [get fst snd].
  unfold send_packet. cbn [at_mem set_thread access]. rewrite in_range_cleared, Hin.
  destruct (write_access_refines _ sp (Some tid) true a bytes (with_cleared_refines _ [] _ Hr)) as (W1 & W2 & _); [by eexists|].
  cbn [negb orb with_cleared writeable] in W1, W2. rewrite W1. cbn [put ret fst snd with_cleared writeable].
  split; [by destruct (writeable (at_mem s))|]. split; [by rewrite threadSnoop_mem|done].
Qed.

(** ** An undisturbed pair *)

Definition block_mask (k : Z) : Z := Z.lnot (Z.ones k).

Lemma block_of_granule k a b : 4 <= k -> lock_mask a = lock_mask b -> Z.land a (block_mask k) = Z.land b (block_mask k).
Proof.
  intros Hk Hl. assert (Hg : forall x, Z.land (lock_mask x) (block_mask k) = Z.land x (block_mask k)).
  { intros x. unfold lock_mask, block_mask. change 15 with (Z.ones 4). apply Z.bits_inj'. intros i Hi.
    rewrite !Z.land_spec, !Z.lnot_spec, !Z.testbit_ones by lia.
    destruct (Z.ltb_spec i 4), (Z.ltb_spec i k); try lia; destruct (Z.testbit x i), (0 <=? i); done. }
  by rewrite <- (Hg a), Hl, Hg.
Qed.

Definition spec_of (m : memory) : spec_memory := SpecMem (pmem m) (reservation (lockedAddrList m)).

Lemma spec_of_refines m : NoDup (lockedAddrList m).*2 -> refines m (spec_of m).
Proof. by split. Qed.

(** The monitors the memory clears are those of reservations it erases. *)
Lemma erase_locks_cleared rq addr l cl c : c ∈ (erase_locks rq addr l cl).2 -> c ∈ cl \/ (addr, c) ∈ l.
Proof.
  revert cl. induction l as [|[a k] l IH]; intros cl; cbn [erase_locks]; [by left|].
  destruct (Z.eqb_spec a addr) as [->|Ha]; intros Hc.
  - apply IH in Hc as [Hc|Hc]; [|right; by right]. case_decide; [by left|].
    apply elem_of_cons in Hc as [->|Hc]; [right; left|by left].
  - cbn in Hc. apply IH in Hc as [Hc|Hc]; [by left|right; by right].
Qed.

Definition packet_write (p : packet) : option Z :=
  match p with WriteReq _ a _ | StoreCondReq _ a _ => Some a | _ => None end.

Lemma access_cleared m p r m' c : access (with_cleared m []) p = Some (r, m') -> c ∈ cleared m' ->
  exists a, packet_write p = Some a /\ (lock_mask a, c) ∈ lockedAddrList m.
Proof.
  assert (W : forall rq llsc a bytes, c ∈ cleared (write_access (with_cleared m []) rq llsc a bytes).2 -> (lock_mask a, c) ∈ lockedAddrList m).
  { intros rq llsc a bytes. unfold write_access, writeOK. cbn [with_cleared writeable lockedAddrList].
    destruct (writeable m); [|intros H; by apply elem_of_nil in H]. cbn [negb].
    destruct (lockedAddrList m) as [|q l] eqn:El; [destruct llsc; cbn; intros H; by apply elem_of_nil in H|].
    rewrite <- El. destruct (if llsc then _ else true); cbn; [|intros H; by apply elem_of_nil in H].
    intros [H|H]%erase_locks_cleared; [by apply elem_of_nil in H|done]. }
  destruct p as [a n|rq a bytes|ctx a n|ctx a bytes]; cbn [access]; destruct (in_range _ a _); try done; intros [= <- <-].
  - intros H. by apply elem_of_nil in H.
  - intros H. eauto.
  - unfold trackLoadLocked. destruct (relock _ _ _); intros H; by apply elem_of_nil in H.
  - intros H. eauto.
Qed.

Lemma foldl_threads {A} (f : atomic_sys -> A -> atomic_sys) l s tid :
  (forall s x, x ∈ l -> at_threads (f s x) tid = at_threads s tid) -> at_threads (foldl f s l) tid = at_threads s tid.
Proof.
  revert s. induction l as [|x l IH]; intros s Hf; [done|]. cbn. rewrite IH; [|intros; apply Hf; by right].
  apply Hf. left.
Qed.

Lemma reservation_in l g c : NoDup l.*2 -> (g, c) ∈ l -> reservation l c = Some g.
Proof.
  intros Hn Hin. induction l as [|[b k] l IH]; [by apply elem_of_nil in Hin|]. apply NoDup_cons in Hn as [Hk Hn].
  rewrite reservation_cons. apply elem_of_cons in Hin as [[= <- <-]|Hin]; [by rewrite Z.eqb_refl|].
  destruct (Z.eqb_spec k c) as [->|]; [|by apply IH]. exfalso. apply Hk. apply list_elem_of_fmap. by exists (g, c).
Qed.

Section Pair.
Context (k tid a : Z) (Hk : 4 <= k).

(** The thread has its reservation in both places. *)
Record reserved (s : atomic_sys) : Prop := {
  res_unique : NoDup (lockedAddrList (at_mem s)).*2;
  res_memory : reservation (lockedAddrList (at_mem s)) tid = Some (lock_mask a);
  res_monitor : monitor_holds (at_threads s tid) a (block_mask k) = true
}.

(** A packet that leaves the reservation alone. *)
Definition packet_away (p : packet) : Prop :=
  match p with
  | ReadReq _ _ => True
  | LoadLockedReq ctx _ _ => ctx <> tid
  | WriteReq _ b _ | StoreCondReq _ b _ => Z.land b (block_mask k) <> Z.land a (block_mask k)
  end.

Lemma send_reserved p r s s1 : packet_away p -> reserved s -> send_packet p s = Some (r, s1) -> reserved s1.
Proof.
  intros Hp [H1 H2 H3]. unfold send_packet. destruct (access _ p) as [[r' m]|] eqn:E; [|done]. intros [= <- <-].
  destruct (access_refines _ _ p _ _ (with_cleared_refines _ [] _ (spec_of_refines _ H1)) E) as (_ & Hm & _).
  split; cbn [at_mem set_mem at_threads].
  - apply Hm.
  - rewrite (rf_res _ _ Hm). destruct p as [b n|rq b bytes|ctx b n|ctx b bytes]; cbn [spec_access snd] in *.
    + exact H2.
    + destruct (writeable _); [|exact H2]. cbn. rewrite H2. destruct (Z.eqb_spec (lock_mask a) (lock_mask b)) as [E'|]; [|done].
      exfalso. apply Hp. symmetry. by apply block_of_granule.
    + cbn. by rewrite decide_False.
    + destruct (negb _); [exact H2|]. destruct (bool_decide _); [|exact H2]. cbn. rewrite H2. destruct (Z.eqb_spec (lock_mask a) (lock_mask b)) as [E'|]; [|done].
      exfalso. apply Hp. symmetry. by apply block_of_granule.
  - rewrite foldl_threads; [done|]. intros s' x Hx. cbn. apply fupd_ne. intros ->.
    rewrite elem_of_reverse in Hx.
    destruct (access_cleared _ _ _ _ _ E Hx) as (b & Hb & Hin).
    assert (lock_mask b = lock_mask a) as Eb by (pose proof (reservation_in _ _ _ H1 Hin); congruence).
    destruct p; cbn in Hb; simplify_eq; apply Hp; by apply block_of_granule.
Qed.

Lemma snoop_reserved b sender s : Z.land b (block_mask k) <> Z.land a (block_mask k) -> reserved s ->
  reserved (threadSnoop (block_mask k) b sender s).
Proof.
  intros Hb [H1 H2 H3]. split; [by rewrite threadSnoop_mem..|].
  unfold monitor_holds in H3. apply andb_true_iff in H3 as [Hf Ha]. pose proof Ha as Ha'. apply Z.eqb_eq in Ha'.
  unfold threadSnoop.
  assert (Hi : forall l s', at_threads s' tid = at_threads s tid ->
    at_threads (foldl (fun s tid => if tid =? sender then s else set_thread tid (lockedSnoopHandler b (block_mask k) (at_threads s tid)) s) s' l) tid = at_threads s tid).
  { induction l as [|x l IH]; intros s' Hs; [done|]. cbn. apply IH. destruct (x =? sender); [done|]. cbn.
    unfold fupd. case_decide; [subst x|done]. rewrite Hs. unfold lockedSnoopHandler. destruct (_ =? 0); [done|].
    rewrite <- Ha'. destruct (Z.eqb_spec (Z.land a (block_mask k)) (Z.land b (block_mask k))); [congruence|done]. }
  rewrite Hi by done. unfold monitor_holds. by rewrite Hf, Ha.
Qed.

Lemma set_thread_reserved t x s : t <> tid -> reserved s -> reserved (set_thread t x s).
Proof. intros Ht [H1 H2 H3]. split; try done. cbn. by rewrite fupd_ne. Qed.

(** An access of another thread, or of this one elsewhere. *)
Definition undisturbing (o : at_op) : Prop :=
  match o with
  | AtLoad _ _ _ => True
  | AtLoadEx t _ _ | AtClear t => t <> tid
  | AtStore _ b _ => Z.land b (block_mask k) <> Z.land a (block_mask k)
  | AtStoreEx t b _ => t <> tid /\ Z.land b (block_mask k) <> Z.land a (block_mask k)
  end.

Lemma step_reserved em now o c s : undisturbing o -> reserved s -> reserved (at_step em (block_mask k) now o (c, s)).2.2.
Proof.
  intros Ho Hs. destruct o as [t b n|t b n|t b bytes|t b bytes|t]; cbn [at_step undisturbing] in *.
  - unfold atomic_read. run. destruct (send_packet _ s) as [[[] s1]|] eqn:E; try done. by eapply (send_reserved (ReadReq b n)).
  - unfold atomic_read. run. destruct (send_packet _ s) as [[[] s1]|] eqn:E; try done. cbn.
    apply set_thread_reserved; [done|]. by eapply (send_reserved (LoadLockedReq t b n)).
  - unfold atomic_write. run. cbn [negb fst snd]. destruct (send_packet _ s) as [[r s1]|] eqn:E; try done. cbn.
    apply snoop_reserved; [done|]. by eapply (send_reserved (WriteReq (Some t) b bytes)).
  - destruct Ho as [Ht Hb]. unfold atomic_write, on_thread. run.
    destruct (lockedWriteHandler em now false b (block_mask k) (c, at_threads s t)) as [ok [c1 t1]]. cbn [fst snd].
    pose proof (set_thread_reserved t t1 s Ht Hs) as Hs1. destruct ok; cbn [negb]; [|done].
    destruct (send_packet _ _) as [[r s1]|] eqn:E; [|done]. cbn.
    apply snoop_reserved; [done|]. by eapply (send_reserved (StoreCondReq t b bytes)).
  - cbn. by apply set_thread_reserved.
Qed.
End Pair.

(** ** Accesses inside the memory *)

Definition same_geometry (m m' : memory) : Prop :=
  range_start m' = range_start m /\ range_size m' = range_size m /\ writeable m' = writeable m.

Definition packet_fits (m : memory) (p : packet) : bool :=
  match p with
  | ReadReq a n | LoadLockedReq _ a n => in_range m a n
  | WriteReq _ a bytes | StoreCondReq _ a bytes => in_range m a (length bytes)
  end.

Lemma write_access_geometry m rq llsc a bytes : same_geometry m (write_access m rq llsc a bytes).2.
Proof.
  unfold write_access, writeOK, same_geometry. destruct (negb (writeable m)) eqn:Ew; [done|].
  destruct (lockedAddrList m) eqn:El; [by destruct llsc|]. by destruct (if llsc then _ else true).
Qed.

Lemma send_fits p s : packet_fits (at_mem s) p = true -> exists r s1, send_packet p s = Some (r, s1) /\
  same_geometry (at_mem s) (at_mem s1) /\
  match p with
  | ReadReq _ _ | LoadLockedReq _ _ _ => exists l, r = Data l
  | WriteReq _ _ _ => r = Done
  | StoreCondReq _ _ _ => writeable (at_mem s) = true -> exists ok, r = Cond ok
  end.
Proof.
  unfold send_packet. destruct p as [a n|rq a bytes|ctx a n|ctx a bytes]; cbn [packet_fits access]; rewrite in_range_cleared; intros ->;
    eexists _, _; (split; [done|]); cbn [at_mem set_mem].
  - split; [done|]. by eexists.
  - split; [|done]. apply (write_access_geometry (with_cleared (at_mem s) [])).
  - split; [|by eexists]. unfold trackLoadLocked. by destruct (relock _ _ _).
  - split; [apply (write_access_geometry (with_cleared (at_mem s) []))|]. cbn [with_cleared writeable]. intros ->. by eexists.
Qed.

Definition op_fits (m : memory) (o : at_op) : bool :=
  match o with
  | AtLoad _ a n | AtLoadEx _ a n => in_range m a n
  | AtStore _ a bytes | AtStoreEx _ a bytes => in_range m a (length bytes)
  | AtClear _ => true
  end.

Lemma op_fits_geometry m m' o : same_geometry m m' -> op_fits m' o = op_fits m o.
Proof. intros (H1 & H2 & _). destruct o; cbn; unfold in_range; by rewrite ?H1, ?H2. Qed.

Lemma step_fits em mask now o c s : writeable (at_mem s) = true -> op_fits (at_mem s) o = true ->
  exists b, (at_step em mask now o (c, s)).1 = Some b /\ same_geometry (at_mem s) (at_mem (at_step em mask now o (c, s)).2.2).
Proof.
  intros Hw Ho. destruct o as [t a n|t a n|t a bytes|t a bytes|t]; cbn [at_step op_fits] in *.
  - unfold atomic_read. run. destruct (send_fits (ReadReq a n) s Ho) as (r & s1 & -> & Hg & l & ->). by eexists.
  - unfold atomic_read. run. destruct (send_fits (LoadLockedReq t a n) s Ho) as (r & s1 & -> & Hg & l & ->). by eexists.
  - unfold atomic_write. run. cbn [negb fst snd]. destruct (send_fits (WriteReq (Some t) a bytes) s Ho) as (r & s1 & -> & Hg & ->).
    eexists. split; [done|]. cbn. by rewrite threadSnoop_mem.
  - unfold atomic_write, on_thread. run.
    destruct (lockedWriteHandler em now false a mask (c, at_threads s t)) as [ok [c1 t1]]. cbn [fst snd].
    destruct ok; cbn [negb fst snd]; [|by eexists].
    destruct (send_fits (StoreCondReq t a bytes) (set_thread t t1 s) Ho) as (r & s1 & -> & Hg & [ok ->]%(fun H => H Hw)).
    eexists. split; [done|]. cbn. by rewrite threadSnoop_mem.
  - by eexists.
Qed.

(** The store-exclusive at the end of an undisturbed run. *)
Lemma pair_succeeds k tid a ops now bytes c s : 4 <= k ->
  reserved k tid a s -> writeable (at_mem s) = true ->
  Forall (fun o => undisturbing k tid a o.2 /\ op_fits (at_mem s) o.2 = true) ops -> in_range (at_mem s) a (length bytes) = true ->
  last (at_run None (block_mask k) (ops ++ [(now, AtStoreEx tid a bytes)]) (c, s)).1 = Some (AtStoreEx tid a bytes, ObsCond true).
Proof.
  intros Hk Hs Hw Hops Hin. revert c s Hs Hw Hops Hin. induction ops as [|[n o] ops IH]; intros c s Hs Hw Hops Hin.
  - cbn [app at_run at_step]. unfold bind at 1 2 3. unfold bind.
    destruct (atomic_sc_effect None (block_mask k) now tid a bytes c s (spec_of (at_mem s)) (spec_of_refines _ (res_unique _ _ _ _ Hs)) Hin)
      as (-> & _). cbn [ret fst snd option_map].
    rewrite (res_monitor _ _ _ _ Hs), Hw. cbn [xorb overridden andb negb].
    by rewrite bool_decide_true by apply (res_memory _ _ _ _ Hs).
  - apply Forall_cons in Hops as [[Ho Hf] Hops]. cbn [app at_run]. unfold bind at 1.
    destruct (step_fits None (block_mask k) n o c s Hw Hf) as (b & Eb & Hg).
    pose proof (step_reserved k tid a Hk None n o c s Ho Hs) as Hs1.
    destruct (at_step None (block_mask k) n o (c, s)) as [ob [c1 s1]]. cbn [fst snd] in *. subst ob.
    unfold bind. cbn [ret fst snd]. rewrite last_cons, IH; [done|done| | |].
    + by destruct Hg as (_ & _ & ->).
    + eapply Forall_impl; [exact Hops|]. intros [n' o'] [H1 H2]. split; [done|]. by rewrite (op_fits_geometry _ _ _ Hg).
    + rewrite <- Hin. destruct Hg as (G1 & G2 & _). unfold in_range. by rewrite G1, G2.
Qed.

Lemma loadex_reserves k tid a n c s em now : 4 <= k -> NoDup (lockedAddrList (at_mem s)).*2 -> in_range (at_mem s) a n = true ->
  reserved k tid a (at_step em (block_mask k) now (AtLoadEx tid a n) (c, s)).2.2.
Proof.
  intros Hk Hn Hin. cbn [at_step]. unfold atomic_read. run.
  destruct (send_fits (LoadLockedReq tid a n) s Hin) as (r & s1 & E & Hg & l & ->). rewrite E. cbn.
  destruct (send_refines _ _ _ _ _ (spec_of_refines _ Hn) E) as (_ & Hr & _). split; cbn.
  - apply Hr.
  - rewrite (rf_res _ _ Hr). cbn. by rewrite decide_True.
  - unfold monitor_holds, readMiscReg. cbn. rewrite fupd_eq. cbn. by rewrite Z.eqb_refl.
Qed.

(** ** Register writes that wait for commit *)

Lemma inst_setMiscReg_seen r v i : r ∈ (destMiscReg i).*1 -> inst_setMiscReg r v i = i.
Proof.
  intros Hr. unfold inst_setMiscReg. destruct (existsb _ _) eqn:E; [done|]. exfalso.
  apply list_elem_of_fmap in Hr as ([r' v'] & -> & Hin). apply not_true_iff_false in E. apply E.
  apply existsb_exists. exists (r', v'). split; [by apply list_elem_of_In|]. by apply bool_decide_eq_true.
Qed.

(** Snoop hits after a load-exclusive, before its commit. *)
Lemma deferred_hits n t a :
  Nat.iter n handleLockedSnoopHit (handleLockedRead a (LockInst t [])) =
  LockInst t ([(LOCKADDR, a); (LOCKFLAG, 1)] ++ if n is 0%nat then [] else [(SEV_MAILBOX, 1)]).
Proof.
  induction n as [|n IH]; [done|]. rewrite Nat.iter_succ, IH. destruct n as [|n]; [done|].
  unfold handleLockedSnoopHit. cbn [xc_setMiscReg inst_context].
  by rewrite !inst_setMiscReg_seen by (cbn; set_solver).
Qed.

(** * Theorems *)

(** C25 No update is lost: in every run of loads, stores, load- and store-exclusives of any
    threads on AtomicSimpleCPU over the abstract memory, whatever CHAOSExMon does, each value
    loaded is the value of a memory with one reservation per thread, a store-exclusive that
    reports success writes while its thread holds the reservation of the granule, and one that
    reports failure writes nothing.  In particular the false successes CHAOSExMon grants are
    refused by the memory. *)
Theorem exclusives_never_lost em mask ops c s sp :
  refines (at_mem s) sp ->
  exists sp', llsc_trace (writeable (at_mem s)) sp (at_run em mask ops (c, s)).1 sp'.
Proof. intros Hr. destruct (at_run_post em mask ops c s sp Hr) as (sp' & Ht & _). by exists sp'. Qed.

(** Two threads read a counter with load-exclusive; the second store-exclusive is refused,
    although the injector grants it. *)
Definition lock_thread0 : lock_thread := LockThread (fun _ => 0) 0 0.
Definition atomic_example : atomic_sys := AtomicSys (fun _ => lock_thread0) 2 example_memory.
Definition exmon_example : exmon_params := ExMonParams StaleReservation 1 0 0 0 false.
Definition exmon_core : core := Core (Engine Z.of_nat 0) 0 stats0 [].
Definition race_ops : list (Z * at_op) :=
  [(1, AtLoadEx 0 64 1); (2, AtLoadEx 1 64 1); (3, AtStoreEx 0 64 [1]); (4, AtStoreEx 1 64 [1]); (5, AtLoad 1 64 1)].

Lemma exclusives_never_lost_witness :
  (exists sp', llsc_trace true example_spec (at_run (Some exmon_example) (block_mask 6) race_ops (exmon_core, atomic_example)).1 sp') /\
  (at_run (Some exmon_example) (block_mask 6) race_ops (exmon_core, atomic_example)).1 =
    [(AtLoadEx 0 64 1, ObsData [0]); (AtLoadEx 1 64 1, ObsData [0]); (AtStoreEx 0 64 [1], ObsCond true);
     (AtStoreEx 1 64 [1], ObsCond false); (AtLoad 1 64 1, ObsData [1])] /\
  faults_injected_count (at_run (Some exmon_example) (block_mask 6) race_ops (exmon_core, atomic_example)).2.1 = 1.
Proof.
  split; [|split; vm_compute; reflexivity].
  exact (exclusives_never_lost (Some exmon_example) (block_mask 6) race_ops exmon_core atomic_example example_spec example_memory_refines).
Defined.

(** The answer of a store-exclusive: it reports success exactly when the local monitor holds,
    inverted by the hook of CHAOSExMon that is asked, the memory is writeable and the thread
    has the reservation of the granule there (a memory that is not writeable sets no result,
    and reading it fails an assertion); it writes exactly on success; an inversion is
    one counted fault, happens only in the mode for that verdict and inside the window, and
    for a granted success only below the cap. *)
Theorem store_exclusive_exact em mask now tid a bytes c s sp :
  refines (at_mem s) sp -> in_range (at_mem s) a (length bytes) = true ->
  sc_effect em now mask tid a bytes c s sp (atomic_write em mask now true tid a bytes (c, s)).
Proof. apply atomic_sc_effect. Qed.

Lemma store_exclusive_exact_witness :
  sc_effect (Some exmon_example) 9 (block_mask 6) 1 64 [5] exmon_core atomic_example example_spec
    (atomic_write (Some exmon_example) (block_mask 6) 9 true 1 64 [5] (exmon_core, atomic_example)).
Proof.
  apply (store_exclusive_exact (Some exmon_example) (block_mask 6) 9 1 64 [5]); [apply example_memory_refines|reflexivity].
Defined.

(** C34 Exclusives make progress: without CHAOSExMon, for cache blocks of at least a granule and
    a writeable memory, a store-exclusive succeeds if between it and the load-exclusive of
    its thread to the same address there are only loads, load-exclusives and clears of other
    threads, and stores and store-exclusives to other blocks. *)
Theorem exclusive_pair_succeeds k tid a n ops now now' bytes c s :
  4 <= k -> NoDup (lockedAddrList (at_mem s)).*2 -> writeable (at_mem s) = true ->
  in_range (at_mem s) a n = true -> in_range (at_mem s) a (length bytes) = true ->
  Forall (fun o => undisturbing k tid a o.2 /\ op_fits (at_mem s) o.2 = true) ops ->
  last (at_run None (block_mask k) ((now, AtLoadEx tid a n) :: ops ++ [(now', AtStoreEx tid a bytes)]) (c, s)).1 =
    Some (AtStoreEx tid a bytes, ObsCond true).
Proof.
  intros Hk Hn Hw Hin Hin' Hops. cbn [at_run]. unfold bind at 1.
  destruct (step_fits None (block_mask k) now (AtLoadEx tid a n) c s Hw Hin) as (b & Eb & Hg).
  pose proof (loadex_reserves k tid a n c s None now Hk Hn Hin) as Hs.
  destruct (at_step None (block_mask k) now (AtLoadEx tid a n) (c, s)) as [ob [c1 s1]]. cbn [fst snd] in *. subst ob.
  unfold bind. cbn [ret fst snd]. rewrite last_cons, pair_succeeds; [done..| | |].
  - by destruct Hg as (_ & _ & ->).
  - eapply Forall_impl; [exact Hops|]. intros [n' o'] [H1 H2]. split; [done|]. by rewrite (op_fits_geometry _ _ _ Hg).
  - rewrite <- Hin'. destruct Hg as (G1 & G2 & _). unfold in_range. by rewrite G1, G2.
Qed.

Lemma exclusive_pair_succeeds_witness :
  last (at_run None (block_mask 6) ((1, AtLoadEx 0 64 4) :: [(2, AtLoadEx 1 64 4); (3, AtStore 1 128 [7])] ++ [(4, AtStoreEx 0 64 [9])])
    (exmon_core, atomic_example)).1 = Some (AtStoreEx 0 64 [9], ObsCond true).
Proof.
  apply (exclusive_pair_succeeds 6 0 64 4 [(2, AtLoadEx 1 64 4); (3, AtStore 1 128 [7])] 1 4 [9]);
    [lia|apply NoDup_nil_2|reflexivity|reflexivity|reflexivity|].
  repeat constructor; vm_compute; congruence.
Defined.

(** C33 A snoop before commit is forgotten: if blocks of the address of a load-exclusive are
    invalidated between its execution in the O3 pipeline and its commit, however often, the
    committed monitor still holds the reservation; on the thread itself the same snoops clear
    it. *)
Theorem snoop_before_commit_forgotten n t a :
  let committed := updateMiscRegs (Nat.iter (S n) handleLockedSnoopHit (handleLockedRead a (LockInst t []))) in
  let direct := Nat.iter (S n) handleLockedSnoopHit (handleLockedRead a t) in
  (forall mask, monitor_holds committed a mask = true) /\ (forall mask, monitor_holds direct a mask = false).
Proof.
  cbv zeta. rewrite deferred_hits. split; intros mask.
  - unfold monitor_holds, readMiscReg. cbn. unfold fupd. repeat (rewrite decide_False by done || rewrite decide_True by done).
    cbn. by rewrite Z.eqb_refl.
  - unfold monitor_holds, readMiscReg. rewrite Nat.iter_succ. unfold handleLockedSnoopHit at 1.
    cbn. unfold fupd. repeat (rewrite decide_False by done || rewrite decide_True by done). done.
Qed.
