(* ===== verification/AssocCache.v ===== *)
(** * Set-associative storage

    The parts that TLBs and caches share: the indexing policy
    (mem/cache/tags/indexing_policies), which lays the entries of a table out in sets and
    ways; the interface of a replacement policy with the default instance, LRU
    (mem/cache/replacement_policies/lru_rp.cc); and AssociativeCache (base/cache), a table of
    entries with their replacement data.  The lemmas: the sets partition the entries, a key's
    candidates are exactly the entries of its set, LRU evicts the first of the candidates that
    were not touched for longest. *)

From Stdlib Require Import ZArith Lia QArith.
From stdpp Require Import base sets numbers list strings.
From S2P Require Import Prelude Word.

Open Scope Z_scope.

(** ** Indexing *)

Section Indexing.
Context (num_entries assoc : nat).

Definition numSets : nat := (num_entries / assoc)%nat.

Definition setMask : Z := Z.of_nat numSets - 1.

(** [sets[set][way] = entry] at the set and way of the index. *)
Definition setEntry (sets : list (list (option nat))) (index : nat) : list (list (option nat)) :=
  alter (<[(index mod assoc)%nat := Some index]>) (index / assoc)%nat sets.

(** The constructor makes space for every way; [initParams] then enters each entry. *)
Definition index_sets : list (list (option nat)) :=
  foldl setEntry (replicate numSets (replicate assoc None)) (seq 0 num_entries).

(** [getEntry(set, way)] *)
Definition getEntry (set way : nat) : option nat := default [] (index_sets !! set) !! way ≫= id.

(** [sets[set]] *)
Definition set_entries (set : Z) : list nat := omap id (default [] (index_sets !! Z.to_nat set)).
End Indexing.

(** ** Replacement policies *)

(** [R] is the replacement data of an entry; [rp_getVictim] gives the position of the victim
    in a list of candidates. *)
Class ReplacementPolicy (R : Type) := {
  rp_instantiate : R;
  rp_invalidate : R -> R;
  rp_touch : Z -> R -> R;
  rp_reset : Z -> R -> R;
  rp_getVictim : list R -> nat
}.

Class ReplacementPolicyOk (R : Type) {RP : ReplacementPolicy R} : Prop :=
  rp_getVictim_in : forall l : list R, l <> [] -> (rp_getVictim l < length l)%nat.

Record LRUReplData := LRUData { lastTouchTick : Z }.

(** The loop of [getVictim]; [i] is the position of the head of [l]. *)
Fixpoint lru_scan (l : list LRUReplData) (i : nat) (victim : nat) (best : LRUReplData) : nat :=
  match l with
  | [] => victim
  | d :: l' =>
      if lastTouchTick d <? lastTouchTick best then lru_scan l' (S i) i d
      else lru_scan l' (S i) victim best
  end.

Definition lru_getVictim (l : list LRUReplData) : nat :=
  match l with
  | [] => 0%nat
  | d :: _ => lru_scan l 0 0 d
  end.

#[global] Instance LRU : ReplacementPolicy LRUReplData := {|
  rp_instantiate := LRUData 0;
  rp_invalidate _ := LRUData 0;
  rp_touch now _ := LRUData now;
  rp_reset now _ := LRUData now;
  rp_getVictim := lru_getVictim
|}.

(** ** AssociativeCache *)

(** What the template asks of its [Entry]. *)
Class CacheEntry (E K : Type) := {
  ce_invalidate : E -> E;
  ce_insert : K -> E -> E;
  ce_match : K -> E -> bool
}.

(** The first of the candidates that satisfies a test of the entry. *)
Definition first_of (test : nat -> bool) (l : list nat) : option nat :=
  List.find test l.

(** The entries with their replacement data. *)
Abbreviation table E R := (list (E * R)).

Section AssociativeCache.
Context {E K R : Type} {CE : CacheEntry E K} {RP : ReplacementPolicy R}.

Definition on_entry (i : nat) (f : E -> E) : table E R -> table E R := alter (fun p => (f p.1, p.2)) i.
Definition on_repl (i : nat) (f : R -> R) : table E R -> table E R := alter (fun p => (p.1, f p.2)) i.

Definition entry_at (t : table E R) (i : nat) : option E := fst <$> t !! i.

(** [AssociativeCache::accessEntry(entry)] *)
Definition ac_touch (now : Z) (i : nat) (t : table E R) : table E R := on_repl i (rp_touch now) t.

Definition ac_findEntry (candidates : list nat) (key : K) (t : table E R) : option nat :=
  first_of (fun i => match entry_at t i with Some e => ce_match key e | None => false end) candidates.

(** [AssociativeCache::accessEntry(key)] *)
Definition ac_accessEntry (now : Z) (candidates : list nat) (key : K) (t : table E R) : option nat * table E R :=
  match ac_findEntry candidates key t with
  | Some i => (Some i, ac_touch now i t)
  | None => (None, t)
  end.

Definition ac_invalidate (i : nat) (t : table E R) : table E R :=
  on_repl i rp_invalidate (on_entry i ce_invalidate t).

(** The candidate the policy picks. *)
Definition pick_victim (candidates : list nat) (t : table E R) : nat :=
  nth (rp_getVictim (omap (fun i => snd <$> t !! i) candidates)) candidates 0%nat.

Definition ac_findVictim (candidates : list nat) (t : table E R) : nat * table E R :=
  let victim := pick_victim candidates t in (victim, ac_invalidate victim t).

Definition ac_insertEntry (now : Z) (key : K) (i : nat) (t : table E R) : table E R :=
  on_repl i (rp_reset now) (on_entry i (ce_insert key) t).

Definition ac_clear (t : table E R) : table E R :=
  foldl (fun t i => ac_invalidate i t) t (seq 0 (length t)).
End AssociativeCache.

(** * Lemmas *)

Lemma first_of_Some test l i : first_of test l = Some i -> i ∈ l /\ test i = true.
Proof. intros H. apply find_some in H. by rewrite list_elem_of_In. Qed.

Lemma first_of_None test l i : first_of test l = None -> i ∈ l -> test i = false.
Proof. rewrite list_elem_of_In. intros H. by apply (find_none _ _ H). Qed.

Section IndexingFacts.
Context (num_entries assoc : nat).
Hypothesis assoc_pos : (0 < assoc)%nat.



(** After the first [n] entries were set, way [w] of set [s] holds index [s * assoc + w] if
    that is below [n]. *)
Definition filled (n : nat) (sets : list (list (option nat))) : Prop :=
  length sets = numSets num_entries assoc /\
  forall s ways, sets !! s = Some ways ->
    length ways = assoc /\
    forall w, (w < assoc)%nat ->
      ways !! w = Some (if decide (s * assoc + w < n)%nat then Some (s * assoc + w)%nat else None).

Lemma setEntry_filled n sets : filled n sets -> filled (S n) (setEntry assoc sets n).
Proof.
  intros [Hl Hs]. unfold setEntry. split; [by rewrite length_alter|].
  intros s ways Hw.
  pose proof (Nat.div_mod n assoc ltac:(lia)) as Hn.
  pose proof (Nat.mod_upper_bound n assoc ltac:(lia)) as Hm.
  destruct (decide ((n / assoc)%nat = s)) as [<-|Hne].
  - rewrite list_lookup_alter_eq in Hw. destruct (sets !! (n / assoc)%nat) as [ways0|] eqn:E; [|done].
    injection Hw as <-. destruct (Hs _ _ E) as [Hlen Hget]. split; [by rewrite length_insert|].
    intros w Hwa. destruct (decide ((n mod assoc)%nat = w)) as [<-|Hnw].
    + rewrite list_lookup_insert_eq by lia. rewrite decide_True by lia. do 2 f_equal. lia.
    + rewrite list_lookup_insert_ne, Hget by done. f_equal. repeat case_decide; try done; lia.
  - rewrite list_lookup_alter_ne in Hw by done. destruct (Hs _ _ Hw) as [Hlen Hget].
    split; [done|]. intros w Hwa. rewrite Hget by done. f_equal.
    repeat case_decide; try done; try lia.
    assert (s * assoc + w = n)%nat by lia. exfalso. apply Hne. subst n.
    rewrite Nat.div_add_l, Nat.div_small by lia. lia.
Qed.

Lemma seq_filled n k sets : filled k sets -> filled (k + n) (foldl (setEntry assoc) sets (seq k n)).
Proof.
  revert k sets. induction n as [|n IH]; intros k sets H; cbn [seq foldl].
  - by rewrite Nat.add_0_r.
  - replace (k + S n)%nat with (S k + n)%nat by lia. by apply IH, setEntry_filled.
Qed.

Lemma index_sets_filled : filled num_entries (index_sets num_entries assoc).
Proof.
  apply (seq_filled num_entries 0). split; [by rewrite length_replicate|].
  intros s ways [-> _]%lookup_replicate_1. split; [by rewrite length_replicate|].
  intros w Hw. by rewrite lookup_replicate_2.
Qed.

(** The candidates of a set are the entries whose index falls in it. *)
Lemma elem_of_set_entries set i :
  (num_entries mod assoc = 0)%nat -> 0 <= set < Z.of_nat (numSets num_entries assoc) ->
  i ∈ set_entries num_entries assoc set <-> (i < num_entries)%nat /\ Z.of_nat (i / assoc) = set.
Proof.
  intros Hmod Hset. unfold set_entries. destruct index_sets_filled as [Hl Hs].
  assert (Z.to_nat set < length (index_sets num_entries assoc))%nat as Hlt by lia.
  destruct (lookup_lt_is_Some_2 _ _ Hlt) as [ways Hw]. rewrite Hw. cbn.
  destruct (Hs _ _ Hw) as [Hlen Hget]. rewrite list_elem_of_omap. unfold numSets in Hset.
  pose proof (Nat.div_mod num_entries assoc ltac:(lia)) as Hn. split.
  - intros (o & Ho & Hi). cbn in Hi. subst o. apply list_elem_of_lookup in Ho as [w Ho].
    pose proof (lookup_lt_Some _ _ _ Ho). rewrite Hget in Ho by lia. case_decide; [|done].
    injection Ho as <-. split; [done|]. rewrite Nat.div_add_l, Nat.div_small by lia. lia.
  - intros [Hi Hd]. exists (Some i). split; [|done]. apply list_elem_of_lookup. exists (i mod assoc)%nat.
    pose proof (Nat.mod_upper_bound i assoc ltac:(lia)). pose proof (Nat.div_mod i assoc ltac:(lia)).
    rewrite Hget by done. replace (Z.to_nat set * assoc + i mod assoc)%nat with i by lia.
    by rewrite decide_True.
Qed.

(** Every entry is at one way of one set. *)
Lemma getEntry_index s w :
  (s < numSets num_entries assoc)%nat -> (w < assoc)%nat ->
  getEntry num_entries assoc s w = Some (s * assoc + w)%nat.
Proof.
  intros Hs Hw. unfold getEntry. destruct index_sets_filled as [Hl Hget].
  destruct (lookup_lt_is_Some_2 (index_sets num_entries assoc) s) as [ways E]; [lia|]. rewrite E.
  cbn. destruct (Hget _ _ E) as [Hlen Hg]. rewrite Hg by done. cbn.
  rewrite decide_True; [done|]. unfold numSets in Hs.
  pose proof (Nat.Div0.mul_div_le num_entries assoc). nia.
Qed.

Lemma set_entries_nonempty set :
  (num_entries mod assoc = 0)%nat -> 0 <= set < Z.of_nat (numSets num_entries assoc) ->
  set_entries num_entries assoc set <> [].
Proof.
  intros Hm Hset Hnil.
  assert ((Z.to_nat set * assoc)%nat ∈ set_entries num_entries assoc set) as Hin.
  { apply elem_of_set_entries; [done..|]. rewrite Nat.div_mul by lia. unfold numSets in Hset.
    pose proof (Nat.Div0.mul_div_le num_entries assoc). nia. }
  rewrite Hnil in Hin. by apply not_elem_of_nil in Hin.
Qed.
End IndexingFacts.

(** ** LRU *)

(** The victim is the first candidate with the least time of last touch. *)
Definition least_recent (l : list LRUReplData) (v : nat) : Prop :=
  exists d, l !! v = Some d /\
    (forall j d', l !! j = Some d' -> lastTouchTick d <= lastTouchTick d') /\
    (forall j d', (j < v)%nat -> l !! j = Some d' -> lastTouchTick d < lastTouchTick d').

Lemma lru_scan_least l pre v best :
  least_recent pre v -> pre !! v = Some best ->
  least_recent (pre ++ l) (lru_scan l (length pre) v best).
Proof.
  revert pre v best. induction l as [|d l IH]; intros pre v best Hv Hb; cbn [lru_scan].
  - by rewrite app_nil_r.
  - destruct Hv as (b & Hb' & Hmin & Hfst). rewrite Hb in Hb'. injection Hb' as <-.
    pose proof (lookup_lt_Some _ _ _ Hb) as Hlt.
    replace (pre ++ d :: l) with ((pre ++ [d]) ++ l) by by rewrite <- app_assoc.
    replace (S (length pre)) with (length (pre ++ [d])) by (rewrite length_app; cbn; lia).
    assert (forall j d', (pre ++ [d]) !! j = Some d' -> pre !! j = Some d' \/ j = length pre /\ d' = d) as Hcase.
    { intros j d' [H|[H1 H2]]%lookup_app_Some; [by left|]. apply list_lookup_singleton_Some in H2 as [? <-].
      right. split; [lia|done]. }
    destruct (_ <? _) eqn:E; bools.
    + apply IH; [|by rewrite lookup_app_r, Nat.sub_diag by lia]. exists d.
      split; [by rewrite lookup_app_r, Nat.sub_diag by lia|].
      split; intros j d'; [intros [H|[_ ->]]%Hcase|intros Hj [H|[-> ->]]%Hcase]; try lia;
        specialize (Hmin _ _ H); lia.
    + apply IH; [|by rewrite lookup_app_l]. exists best. split; [by rewrite lookup_app_l|].
      split; intros j d'; [intros [H|[_ ->]]%Hcase|intros Hj [H|[-> ->]]%Hcase]; try lia; eauto.
Qed.

Lemma lru_getVictim_least l : l <> [] -> least_recent l (lru_getVictim l).
Proof.
  destruct l as [|d l]; [done|]. intros _. cbn [lru_getVictim lru_scan]. rewrite Z.ltb_irrefl.
  apply (lru_scan_least l [d]); [|done]. exists d. split; [done|].
  split; intros j d'; [|lia]. intros [_ <-]%list_lookup_singleton_Some. lia.
Qed.

#[global] Instance LRU_ok : ReplacementPolicyOk LRUReplData.
Proof.
  intros l Hl. destruct (lru_getVictim_least l Hl) as (d & H & _). by eapply lookup_lt_Some.
Qed.

(** ** Tables *)

Section TableFacts.
Context {E K R : Type} {CE : CacheEntry E K} {RP : ReplacementPolicy R} {RPO : ReplacementPolicyOk R}.
Implicit Types (t : table E R) (f : E -> E) (g : R -> R).

Lemma length_on_entry i f t : length (on_entry i f t) = length t.
Proof. apply length_alter. Qed.

Lemma length_on_repl i g t : length (on_repl i g t) = length t.
Proof. apply length_alter. Qed.

Lemma entry_at_on_entry i j f t :
  entry_at (on_entry i f t) j = if decide (i = j) then f <$> entry_at t j else entry_at t j.
Proof.
  unfold entry_at, on_entry. case_decide as H.
  - subst j. rewrite list_lookup_alter_eq. by destruct (t !! i).
  - by rewrite list_lookup_alter_ne.
Qed.

Lemma entry_at_on_repl i j g t : entry_at (on_repl i g t) j = entry_at t j.
Proof.
  unfold entry_at, on_repl. destruct (decide (i = j)) as [<-|].
  - rewrite list_lookup_alter_eq. by destruct (t !! i).
  - by rewrite list_lookup_alter_ne.
Qed.

Lemma entry_at_is_Some t i : is_Some (entry_at t i) <-> (i < length t)%nat.
Proof. unfold entry_at. rewrite fmap_is_Some. apply lookup_lt_is_Some. Qed.

(** The victim is one of the candidates. *)
Lemma pick_victim_in candidates t :
  candidates <> [] -> (forall i, i ∈ candidates -> (i < length t)%nat) -> pick_victim candidates t ∈ candidates.
Proof.
  intros Hne Hin. unfold pick_victim.
  assert (length (omap (fun i => snd <$> t !! i) candidates) = length candidates) as Hl.
  { clear Hne. induction candidates as [|i l IH]; [done|]. cbn.
    destruct (lookup_lt_is_Some_2 t i) as [[e r] ->]; [apply Hin; by left|]. cbn. f_equal.
    apply IH. intros j Hj. apply Hin. by right. }
  apply list_elem_of_In, nth_In. rewrite <- Hl. apply rp_getVictim_in. intros Hnil.
  rewrite Hnil in Hl. by destruct candidates.
Qed.
End TableFacts.

Create Rewrite HintDb tables.
#[export] Hint Rewrite @length_on_entry @length_on_repl @entry_at_on_repl @entry_at_on_entry : tables.
