(* ===== verification/ArmTLB.v ===== *)
(** * The TLBs of the Arm MMU

    The entry and key of a translation (arch/arm/pagetable.hh), one TLB (tlb.cc): lookup over
    the observed page sizes with the cached last match, insertion, flushes; the TLB-invalidate
    operations (tlbi_op.cc, tlbi_op.hh); and the TLBs of an MMU with the default topology of
    ArmMMU.py, two first-level TLBs that share a second level and two TLBs of the second stage
    (mmu.cc).  A lookup takes the hook of an injector as an argument: [TlbHook] is what the
    hook promises, discharged in ChaosTLB.v.  The theorems: of the entries in the set of their
    page a lookup hits exactly the matching one of the smallest page size; every hit of a run
    of insertions, lookups and invalidations is a translation that was put into a level the
    access searches and not invalidated there since, where the targets of the invalidate
    operations are specified apart from the code.  The examples: a second-level hit is copied
    to the set of another page; a copied entry keeps the IPA space of the one it replaces; and
    a range of addresses that ends with the last one misses it. *)

From Stdlib Require Import ZArith Lia QArith.
From stdpp Require Import base sets numbers list strings sorting.
From S2P Require Import Prelude Word AssocCache.

Open Scope Z_scope.

(** ** Translations *)

Inductive SecurityState := SS_NonSecure | SS_Secure.
Inductive PASpace := PA_NonSecure | PA_Secure.
Inductive TranslationRegime := EL10 | EL20 | EL2 | EL3.
Inductive DomainType := NoAccess | Client | DomainReserved | Manager.
Inductive MemoryType := StronglyOrdered | Device | Normal.
Inductive TypeTLB := T_instruction | T_data | T_unified.
Inductive GrainSize := Grain4KB | Grain16KB | Grain64KB | ReservedGrain.
Inductive MMUMode := Read | Write | Execute.

#[global] Instance SecurityState_eq_dec : EqDecision SecurityState.
Proof. solve_decision. Defined.
#[global] Instance PASpace_eq_dec : EqDecision PASpace.
Proof. solve_decision. Defined.
#[global] Instance TranslationRegime_eq_dec : EqDecision TranslationRegime.
Proof. solve_decision. Defined.
#[global] Instance GrainSize_eq_dec : EqDecision GrainSize.
Proof. solve_decision. Defined.
#[global] Instance MMUMode_eq_dec : EqDecision MMUMode.
Proof. solve_decision. Defined.

Definition grain_bits (g : GrainSize) : Z :=
  match g with Grain4KB => 12 | Grain16KB => 14 | Grain64KB => 16 | ReservedGrain => 0 end.

(** The enumeration's values are masks; [operator&] is their conjunction. *)
Definition TypeTLB_bits (t : TypeTLB) : Z :=
  match t with T_instruction => 1 | T_data => 2 | T_unified => 3 end.

Definition type_and (a b : TypeTLB) : bool := negb (Z.land (TypeTLB_bits a) (TypeTLB_bits b) =? 0).

(** [TlbEntry] *)
Record TlbEntry := MkTlbEntry {
  te_pfn : Z; te_size : Z; te_vpn : Z; te_attributes : Z; te_lookupLevel : Z; te_asid : Z;
  te_vmid : Z; te_tg : GrainSize; te_N : Z; te_innerAttrs : Z; te_outerAttrs : Z; te_ap : Z;
  te_hap : Z; te_piindex : Z; te_domain : DomainType; te_mtype : MemoryType;
  te_longDescFormat : bool; te_global : bool; te_valid : bool; te_ns : bool;
  te_ss : SecurityState; te_ipaSpace : PASpace; te_regime : TranslationRegime; te_type : TypeTLB;
  te_partial : bool; te_nonCacheable : bool; te_shareable : bool; te_outerShareable : bool;
  te_xn : bool; te_pxn : bool; te_xs : bool
}.

Definition set_pfn (v : Z) (e : TlbEntry) : TlbEntry :=
  MkTlbEntry v (te_size e) (te_vpn e) (te_attributes e) (te_lookupLevel e) (te_asid e) (te_vmid e)
    (te_tg e) (te_N e) (te_innerAttrs e) (te_outerAttrs e) (te_ap e) (te_hap e) (te_piindex e)
    (te_domain e) (te_mtype e) (te_longDescFormat e) (te_global e) (te_valid e) (te_ns e)
    (te_ss e) (te_ipaSpace e) (te_regime e) (te_type e) (te_partial e) (te_nonCacheable e)
    (te_shareable e) (te_outerShareable e) (te_xn e) (te_pxn e) (te_xs e).

Definition set_asid (v : Z) (e : TlbEntry) : TlbEntry :=
  MkTlbEntry (te_pfn e) (te_size e) (te_vpn e) (te_attributes e) (te_lookupLevel e) v (te_vmid e)
    (te_tg e) (te_N e) (te_innerAttrs e) (te_outerAttrs e) (te_ap e) (te_hap e) (te_piindex e)
    (te_domain e) (te_mtype e) (te_longDescFormat e) (te_global e) (te_valid e) (te_ns e)
    (te_ss e) (te_ipaSpace e) (te_regime e) (te_type e) (te_partial e) (te_nonCacheable e)
    (te_shareable e) (te_outerShareable e) (te_xn e) (te_pxn e) (te_xs e).

Definition set_vmid (v : Z) (e : TlbEntry) : TlbEntry :=
  MkTlbEntry (te_pfn e) (te_size e) (te_vpn e) (te_attributes e) (te_lookupLevel e) (te_asid e) v
    (te_tg e) (te_N e) (te_innerAttrs e) (te_outerAttrs e) (te_ap e) (te_hap e) (te_piindex e)
    (te_domain e) (te_mtype e) (te_longDescFormat e) (te_global e) (te_valid e) (te_ns e)
    (te_ss e) (te_ipaSpace e) (te_regime e) (te_type e) (te_partial e) (te_nonCacheable e)
    (te_shareable e) (te_outerShareable e) (te_xn e) (te_pxn e) (te_xs e).

Definition set_innerAttrs (v : Z) (e : TlbEntry) : TlbEntry :=
  MkTlbEntry (te_pfn e) (te_size e) (te_vpn e) (te_attributes e) (te_lookupLevel e) (te_asid e)
    (te_vmid e) (te_tg e) (te_N e) v (te_outerAttrs e) (te_ap e) (te_hap e) (te_piindex e)
    (te_domain e) (te_mtype e) (te_longDescFormat e) (te_global e) (te_valid e) (te_ns e)
    (te_ss e) (te_ipaSpace e) (te_regime e) (te_type e) (te_partial e) (te_nonCacheable e)
    (te_shareable e) (te_outerShareable e) (te_xn e) (te_pxn e) (te_xs e).

Definition set_ap (v : Z) (e : TlbEntry) : TlbEntry :=
  MkTlbEntry (te_pfn e) (te_size e) (te_vpn e) (te_attributes e) (te_lookupLevel e) (te_asid e)
    (te_vmid e) (te_tg e) (te_N e) (te_innerAttrs e) (te_outerAttrs e) v (te_hap e) (te_piindex e)
    (te_domain e) (te_mtype e) (te_longDescFormat e) (te_global e) (te_valid e) (te_ns e)
    (te_ss e) (te_ipaSpace e) (te_regime e) (te_type e) (te_partial e) (te_nonCacheable e)
    (te_shareable e) (te_outerShareable e) (te_xn e) (te_pxn e) (te_xs e).

Definition set_ipaSpace (v : PASpace) (e : TlbEntry) : TlbEntry :=
  MkTlbEntry (te_pfn e) (te_size e) (te_vpn e) (te_attributes e) (te_lookupLevel e) (te_asid e)
    (te_vmid e) (te_tg e) (te_N e) (te_innerAttrs e) (te_outerAttrs e) (te_ap e) (te_hap e)
    (te_piindex e) (te_domain e) (te_mtype e) (te_longDescFormat e) (te_global e) (te_valid e)
    (te_ns e) (te_ss e) v (te_regime e) (te_type e) (te_partial e) (te_nonCacheable e)
    (te_shareable e) (te_outerShareable e) (te_xn e) (te_pxn e) (te_xs e).

Definition set_type (v : TypeTLB) (e : TlbEntry) : TlbEntry :=
  MkTlbEntry (te_pfn e) (te_size e) (te_vpn e) (te_attributes e) (te_lookupLevel e) (te_asid e)
    (te_vmid e) (te_tg e) (te_N e) (te_innerAttrs e) (te_outerAttrs e) (te_ap e) (te_hap e)
    (te_piindex e) (te_domain e) (te_mtype e) (te_longDescFormat e) (te_global e) (te_valid e)
    (te_ns e) (te_ss e) (te_ipaSpace e) (te_regime e) v (te_partial e) (te_nonCacheable e)
    (te_shareable e) (te_outerShareable e) (te_xn e) (te_pxn e) (te_xs e).

Definition set_xn (v : bool) (e : TlbEntry) : TlbEntry :=
  MkTlbEntry (te_pfn e) (te_size e) (te_vpn e) (te_attributes e) (te_lookupLevel e) (te_asid e)
    (te_vmid e) (te_tg e) (te_N e) (te_innerAttrs e) (te_outerAttrs e) (te_ap e) (te_hap e)
    (te_piindex e) (te_domain e) (te_mtype e) (te_longDescFormat e) (te_global e) (te_valid e)
    (te_ns e) (te_ss e) (te_ipaSpace e) (te_regime e) (te_type e) (te_partial e)
    (te_nonCacheable e) (te_shareable e) (te_outerShareable e) v (te_pxn e) (te_xs e).

Definition set_valid (v : bool) (e : TlbEntry) : TlbEntry :=
  MkTlbEntry (te_pfn e) (te_size e) (te_vpn e) (te_attributes e) (te_lookupLevel e) (te_asid e)
    (te_vmid e) (te_tg e) (te_N e) (te_innerAttrs e) (te_outerAttrs e) (te_ap e) (te_hap e)
    (te_piindex e) (te_domain e) (te_mtype e) (te_longDescFormat e) (te_global e) v (te_ns e)
    (te_ss e) (te_ipaSpace e) (te_regime e) (te_type e) (te_partial e) (te_nonCacheable e)
    (te_shareable e) (te_outerShareable e) (te_xn e) (te_pxn e) (te_xs e).

(** [operator=]: [swap] with a copy of the right-hand side, which leaves [ipaSpace] alone. *)
Definition te_assign (dst src : TlbEntry) : TlbEntry := set_ipaSpace (te_ipaSpace dst) src.

(** [TlbEntry()] *)
Definition te_default : TlbEntry :=
  MkTlbEntry 0 0 0 0 1 0 0 ReservedGrain 0 0 0 0 3 0 Client StronglyOrdered false false false true
    SS_NonSecure PA_NonSecure EL10 T_unified false false false false false false true.

(** [TLBTypes::KeyType] *)
Record KeyType := Key {
  k_va : Z; k_pageSize : Z; k_size : Z; k_asn : Z; k_ignoreAsn : bool; k_vmid : Z;
  k_ss : SecurityState; k_functional : bool; k_targetRegime : TranslationRegime; k_mode : MMUMode
}.

Definition set_pageSize (n : Z) (k : KeyType) : KeyType :=
  Key (k_va k) n (k_size k) (k_asn k) (k_ignoreAsn k) (k_vmid k) (k_ss k) (k_functional k)
    (k_targetRegime k) (k_mode k).

Definition set_size (n : Z) (k : KeyType) : KeyType :=
  Key (k_va k) (k_pageSize k) n (k_asn k) (k_ignoreAsn k) (k_vmid k) (k_ss k) (k_functional k)
    (k_targetRegime k) (k_mode k).

(** [KeyType(entry)] *)
Definition key_of (e : TlbEntry) : KeyType :=
  Key (u64 (Z.shiftl (te_vpn e) (te_N e))) (te_N e) 0 (te_asid e) false (te_vmid e) (te_ss e) false
    (te_regime e) (match te_type e with T_instruction => Execute | _ => Read end).

Definition useVMID (r : TranslationRegime) : bool := bool_decide (r = EL10).

Definition matchAddress (k : KeyType) (e : TlbEntry) : bool :=
  let page_addr := u64 (Z.shiftl (te_vpn e) (te_N e)) in
  if negb (k_size k =? 0) then
    (k_va k <=? u64 (page_addr + te_size e)) && (page_addr <? u64 (k_va k + k_size k))
  else (page_addr <=? k_va k) && (k_va k <=? u64 (page_addr + te_size e)).

Definition checkRegime (r : TranslationRegime) (e : TlbEntry) : bool := bool_decide (te_regime e = r).

(** [TlbEntry::match] *)
Definition te_match (k : KeyType) (e : TlbEntry) : bool :=
  te_valid e && matchAddress k e && bool_decide (k_ss k = te_ss e) &&
  checkRegime (k_targetRegime k) e &&
  (k_ignoreAsn k || te_global e || (k_asn k =? te_asid e)) &&
  (negb (useVMID (k_targetRegime k)) || (k_vmid k =? te_vmid e)).

Definition pAddr (e : TlbEntry) (va : Z) : Z :=
  Z.lor (u64 (Z.shiftl (te_pfn e) (te_N e))) (Z.land va (te_size e)).

#[global] Instance tlb_entry_ops : CacheEntry TlbEntry KeyType := {|
  ce_invalidate := set_valid false;
  ce_insert _ e := e;
  ce_match := te_match
|}.

(** ** One TLB *)

Inductive tlb_stat :=
  | partialHits | instHits | instMisses | readHits | readMisses | writeHits | writeMisses
  | inserts | flushTlb | flushedEntries.

#[global] Instance tlb_stat_eq_dec : EqDecision tlb_stat.
Proof. solve_decision. Defined.

(** [size], [assoc] and the lookup levels whose partial translations are cached. *)
Record tlb_config := TlbConfig { tc_size : nat; tc_assoc : nat; tc_partialLevels : Z -> bool }.

(** [std::set::insert] on the sorted page sizes. *)
Fixpoint set_insert (n : Z) (l : list Z) : list Z :=
  match l with
  | [] => [n]
  | m :: l' => if n <? m then n :: l else if m <? n then m :: set_insert n l' else l
  end.

Section TLB.
Context {R : Type} {RP : ReplacementPolicy R}.

Record tlb := Tlb {
  tl_cfg : tlb_config;
  tl_table : table TlbEntry R;
  tl_prev : option nat;
  tl_vmid : Z;
  observedPageSizes : list Z;
  tl_stats : tlb_stat -> Z
}.

Definition set_table (x : table TlbEntry R) (t : tlb) : tlb :=
  Tlb (tl_cfg t) x (tl_prev t) (tl_vmid t) (observedPageSizes t) (tl_stats t).
Definition set_prev (x : option nat) (t : tlb) : tlb :=
  Tlb (tl_cfg t) (tl_table t) x (tl_vmid t) (observedPageSizes t) (tl_stats t).
Definition setVMID (x : Z) (t : tlb) : tlb :=
  Tlb (tl_cfg t) (tl_table t) (tl_prev t) x (observedPageSizes t) (tl_stats t).
Definition set_observed (x : list Z) (t : tlb) : tlb :=
  Tlb (tl_cfg t) (tl_table t) (tl_prev t) (tl_vmid t) x (tl_stats t).
Definition tlb_bump (s : tlb_stat) (t : tlb) : tlb :=
  Tlb (tl_cfg t) (tl_table t) (tl_prev t) (tl_vmid t) (observedPageSizes t)
    (fupd (tl_stats t) s (tl_stats t s + 1)).

Definition te_at (t : tlb) (i : nat) : option TlbEntry := entry_at (tl_table t) i.

Definition on_te (i : nat) (f : TlbEntry -> TlbEntry) (t : tlb) : tlb :=
  set_table (on_entry i f (tl_table t)) t.

(** The constructor. *)
Definition tlb_new (cfg : tlb_config) : tlb :=
  Tlb cfg (replicate (tc_size cfg) (te_default, rp_instantiate)) None 0 [] (fun _ => 0).

(** [TLBSetAssociative::getPossibleEntries] *)
Definition set_number (cfg : tlb_config) (va pageSize : Z) : Z :=
  Z.land (Z.shiftr va pageSize) (setMask (tc_size cfg) (tc_assoc cfg)).

Definition getPossibleEntries (cfg : tlb_config) (k : KeyType) : list nat :=
  set_entries (tc_size cfg) (tc_assoc cfg) (set_number cfg (k_va k) (k_pageSize k)).

(** [entry->N == key.pageSize && entry->match(key)] *)
Definition key_hits (t : tlb) (k : KeyType) (i : nat) : bool :=
  match te_at t i with
  | Some e => (te_N e =? k_pageSize k) && te_match k e
  | None => false
  end.

(** [TLB::Table::findEntry] *)
Definition findEntry (k : KeyType) (t : tlb) : option nat * tlb :=
  let search :=
    match first_of (key_hits t k) (getPossibleEntries (tl_cfg t) k) with
    | Some i => (Some i, set_prev (Some i) t)
    | None => (None, t)
    end in
  match tl_prev t with
  | Some i => if key_hits t k i then (Some i, t) else search
  | None => search
  end.

(** [TLB::Table::accessEntry] *)
Definition accessEntry (now : Z) (k : KeyType) (t : tlb) : option nat * tlb :=
  let r := findEntry k t in
  match r.1 with
  | Some i =>
      (Some i, if k_functional k then r.2 else set_table (ac_touch now i (tl_table r.2)) r.2)
  | None => r
  end.

(** [TLB::Table::invalidatePrev]; [None] stands for the null argument. *)
Definition invalidatePrev (invalid : option nat) (t : tlb) : tlb :=
  match invalid with
  | None => set_prev None t
  | Some i => if bool_decide (tl_prev t = Some i) then set_prev None t else t
  end.

(** The loop of [TLB::lookup] over the observed page sizes. *)
Fixpoint lookup_sizes (now : Z) (k : KeyType) (sizes : list Z) (t : tlb) : option nat * tlb :=
  match sizes with
  | [] => (None, t)
  | n :: sizes' =>
      let r := accessEntry now (set_pageSize n k) t in
      match r.1 with
      | Some i => r
      | None => lookup_sizes now k sizes' r.2
      end
  end.

(** The statistics of a lookup. *)
Definition count_lookup (k : KeyType) (r : option nat) (t : tlb) : tlb :=
  match r with
  | None =>
      tlb_bump (match k_mode k with Execute => instMisses | Write => writeMisses | Read => readMisses end) t
  | Some i =>
      let t1 := match te_at t i with
                | Some e => if te_partial e then tlb_bump partialHits t else t
                | None => t
                end in
      tlb_bump (match k_mode k with Execute => instHits | Write => writeHits | Read => readHits end) t1
  end.

(** [if (retval && chaosTLB) chaosTLB->maybeCorrupt(retval, va)] *)
Definition call_hook (chaos : option (nat -> Z -> M tlb unit)) (r : option nat) (va : Z) : M tlb unit :=
  match r, chaos with
  | Some i, Some hook => hook i va
  | _, _ => skip
  end.

(** [TLB::lookup]; [chaos] is the [maybeCorrupt] of the attached injector, if any. *)
Definition lookup (chaos : option (nat -> Z -> M tlb unit)) (now : Z) (k : KeyType) : M tlb (option nat) :=
  let! t := get in
  let r := lookup_sizes now k (observedPageSizes t) t in
  do! put r.2 in
  do! call_hook chaos r.1 (k_va k) in
  do! whenM (negb (k_functional k)) (modify (count_lookup k r.1)) in
  ret r.1.

(** [TLB::checkPromotion] *)
Definition checkPromotion (mode : MMUMode) (e : TlbEntry) : TlbEntry :=
  let acc_type := match mode with Execute => T_instruction | _ => T_data end in
  if type_and (te_type e) acc_type then e else set_type T_unified e.

(** [TLB::insert] *)
Definition tlb_insert (now : Z) (k : KeyType) (e : TlbEntry) (t : tlb) : tlb :=
  let v := ac_findVictim (getPossibleEntries (tl_cfg t) k) (tl_table t) in
  let victim := v.1 in
  let t1 := set_table (on_entry victim (fun old => te_assign old e) v.2) t in
  let t2 := set_table (ac_insertEntry now k victim (tl_table t1)) t1 in
  let t3 := invalidatePrev (Some victim) t2 in
  tlb_bump inserts (set_observed (set_insert (te_N e) (observedPageSizes t3)) t3).

Definition tlb_invalidate (i : nat) (t : tlb) : tlb := set_table (ac_invalidate i (tl_table t)) t.

(** The loop body of [TLB::flushAll]. *)
Definition flushAll_step (t : tlb) (i : nat) : tlb :=
  match te_at t i with
  | Some e => if te_valid e then tlb_bump flushedEntries (tlb_invalidate i t) else t
  | None => t
  end.

(** [TLB::flushAll] *)
Definition flushAll (t : tlb) : tlb :=
  let t1 := foldl flushAll_step t (seq 0 (length (tl_table t))) in
  set_observed [] (tlb_bump flushTlb (invalidatePrev None t1)).

(** The loop body of [TLB::flush], on the TLB and [valid_entry]. *)
Definition flush_step (tlbi_match : TlbEntry -> Z -> bool) (s : tlb * bool) (i : nat) : tlb * bool :=
  let t1 :=
    match te_at s.1 i with
    | Some e =>
        if tlbi_match e (tl_vmid s.1)
        then tlb_bump flushedEntries (invalidatePrev (Some i) (tlb_invalidate i s.1)) else s.1
    | None => s.1
    end in
  (t1, s.2 || match te_at t1 i with Some e => te_valid e | None => false end).

(** [TLB::flush] *)
Definition flush (tlbi_match : TlbEntry -> Z -> bool) (t : tlb) : tlb :=
  let s := foldl (flush_step tlbi_match) (t, false) (seq 0 (length (tl_table t))) in
  let t2 := tlb_bump flushTlb s.1 in
  if s.2 then t2 else set_observed [] t2.
End TLB.
Arguments tlb : clear implicits.

(** ** TLB-invalidate operations *)

(** [sext<N>] and [szext<N>] of base/bitfield.hh. *)
Definition sext (n v : Z) : Z :=
  if Z.testbit v (n - 1) then Z.lor v (2 ^ 64 - 2 ^ n) else v.
Definition szext (n v : Z) : Z :=
  if Z.testbit v (n - 1) then Z.lor v (2 ^ 64 - 2 ^ n) else Z.land v (2 ^ n - 1).

Inductive tlbi_attr := AttrNone | ExcludeXS.

(** The classes of TLBIOp with their members; [el2Enabled] and [currentEL] are what
    [operator()] reads from the thread.  The range operations carry the register value their
    [TLBIRange] is made of. *)
Inductive tlbi_kind :=
  | TLBIALL (el2Enabled : bool) (currentEL : Z)
  | ITLBIALL (el2Enabled : bool)
  | DTLBIALL (el2Enabled : bool)
  | TLBIALLEL
  | TLBIVMALL (el2Enabled stage2 : bool)
  | TLBIASID (asid : Z) (el2Enabled : bool)
  | ITLBIASID (asid : Z) (el2Enabled : bool)
  | DTLBIASID (asid : Z) (el2Enabled : bool)
  | TLBIALLN
  | TLBIMVAA (addr : Z) (lastLevel : bool)
  | TLBIMVA (addr asid : Z) (lastLevel : bool)
  | ITLBIMVA (addr asid : Z)
  | DTLBIMVA (addr asid : Z)
  | TLBIIPA (addr : Z) (lastLevel : bool) (ipaSpace : PASpace)
  | TLBIRMVA (val asid : Z) (lastLevel : bool)
  | TLBIRMVAA (val : Z) (lastLevel : bool)
  | TLBIRIPA (val : Z) (lastLevel : bool) (ipaSpace : PASpace).

Record TLBIOp := MkTLBIOp {
  op_kind : tlbi_kind; op_ss : SecurityState; op_regime : TranslationRegime; op_attr : tlbi_attr
}.

(** [TLBIRange] *)
Definition rd_tg (v : Z) : Z := Z.land (Z.shiftr v 46) 3.
Definition rd_scale (v : Z) : Z := Z.land (Z.shiftr v 44) 3.
Definition rd_num (v : Z) : Z := Z.land (Z.shiftr v 39) 31.
Definition rd_ttl (v : Z) : Z := Z.land (Z.shiftr v 37) 3.
Definition rd_baseAddr (v : Z) : Z := Z.land v (2 ^ 37 - 1).

Definition tgMap (tg : Z) : GrainSize :=
  match tg with 1 => Grain4KB | 2 => Grain16KB | 3 => Grain64KB | _ => ReservedGrain end.

Definition startAddress (v : Z) : Z :=
  u64 (Z.shiftl (sext 37 (rd_baseAddr v)) (grain_bits (tgMap (rd_tg v)))).

Definition rangeSize (v : Z) : Z :=
  u64 (Z.shiftl (rd_num v + 1) (5 * rd_scale v + 1 + grain_bits (tgMap (rd_tg v)))).

Definition resTLBIttl (tg ttl : Z) : bool :=
  match ttl with 0 => true | 1 => bool_decide (tgMap tg = Grain16KB) | _ => false end.

(** The [ipaSpace] of the constructor of TLBIIPA from a register. *)
Definition tlbi_ipaSpace (ss : SecurityState) (val : Z) : PASpace :=
  match ss with
  | SS_NonSecure => PA_NonSecure
  | SS_Secure => if Z.testbit val 63 then PA_NonSecure else PA_Secure
  end.

(** [lookupGen] of TLBIMVAA, TLBIMVA and TLBIIPA; [asid] is [None] where it is ignored. *)
Definition lookupGen (op : TLBIOp) (va : Z) (asid : option Z) (vmid : Z) : KeyType :=
  Key va 12 0 (default 0 asid) (match asid with None => true | Some _ => false end) vmid (op_ss op) true
    (op_regime op) Read.

(** [te->match(lookup_data) && (!lastLevel || !te->partial)] *)
Definition match_va (k : KeyType) (lastLevel : bool) (e : TlbEntry) : bool :=
  te_match k e && (negb lastLevel || negb (te_partial e)).

(** The granule and level test of the range operations. *)
Definition match_range (v : Z) (e : TlbEntry) : bool :=
  bool_decide (tgMap (rd_tg v) = te_tg e) &&
  (resTLBIttl (rd_tg v) (rd_ttl v) || (rd_ttl v =? te_lookupLevel e)).

Definition matchEntry (op : TLBIOp) (e : TlbEntry) (vmid : Z) : bool :=
  let same_ss := bool_decide (op_ss op = te_ss e) in
  let regime := checkRegime (op_regime op) e in
  let same_vmid := te_vmid e =? vmid in
  let all el2 := te_valid e && same_ss && (same_vmid || el2) && regime in
  let by_asid asid el2 :=
    te_valid e && (te_asid e =? asid) && same_ss && regime &&
    (same_vmid || negb el2 || negb (useVMID (op_regime op))) in
  let by_va addr asid last := match_va (lookupGen op (sext 56 addr) asid vmid) last e in
  let by_range v addr asid last :=
    match_va (set_size (rangeSize v) (lookupGen op addr asid vmid)) last e && match_range v e in
  match op_kind op with
  | TLBIALL el2 _ => all el2
  | ITLBIALL el2 => all el2 && type_and (te_type e) T_instruction
  | DTLBIALL el2 => all el2 && type_and (te_type e) T_data
  | TLBIALLEL => te_valid e && same_ss && regime
  | TLBIVMALL el2 _ =>
      te_valid e && same_ss && regime && (same_vmid || negb el2 || negb (useVMID (op_regime op)))
  | TLBIASID asid el2 => by_asid asid el2
  | ITLBIASID asid el2 => by_asid asid el2 && type_and (te_type e) T_instruction
  | DTLBIASID asid el2 => by_asid asid el2 && type_and (te_type e) T_data
  | TLBIALLN => te_valid e && bool_decide (te_ss e = SS_NonSecure) && regime
  | TLBIMVAA addr last => by_va addr None last
  | TLBIMVA addr asid last => by_va addr (Some asid) last
  | ITLBIMVA addr asid => by_va addr (Some asid) false && type_and (te_type e) T_instruction
  | DTLBIMVA addr asid => by_va addr (Some asid) false && type_and (te_type e) T_data
  | TLBIIPA addr last ipa =>
      match_va (lookupGen op (szext 56 addr) None vmid) last e && bool_decide (ipa = te_ipaSpace e)
  | TLBIRMVA v asid last => by_range v (sext 56 (startAddress v)) (Some asid) last
  | TLBIRMVAA v last => by_range v (sext 56 (startAddress v)) None last
  | TLBIRIPA v last ipa =>
      by_range v (szext 56 (startAddress v)) None last && bool_decide (ipa = te_ipaSpace e)
  end.

(** [TLBIOp::match] *)
Definition tlbi_match (op : TLBIOp) (e : TlbEntry) (vmid : Z) : bool :=
  matchEntry op e vmid && (match op_attr op with AttrNone => true | ExcludeXS => negb (te_xs e) end).

Definition stage1Flush (op : TLBIOp) : bool :=
  match op_kind op with TLBIIPA _ _ _ | TLBIRIPA _ _ _ => false | _ => true end.

(** Only asked of the operations that [MMU::flush] executes. *)
Definition stage2Flush (op : TLBIOp) : bool :=
  match op_kind op with
  | TLBIALL _ currentEL => currentEL =? 2
  | TLBIALLEL => bool_decide (op_regime op = EL10 \/ op_regime op = EL20)
  | TLBIVMALL _ stage2 => stage2
  | TLBIALLN => bool_decide (op_regime op <> EL2)
  | _ => false
  end.

(** ** The TLBs of an MMU *)

Inductive tlb_id := ITB | DTB | L2_SHARED | ITB_STAGE2 | DTB_STAGE2.

#[global] Instance tlb_id_eq_dec : EqDecision tlb_id.
Proof. solve_decision. Defined.

(** The TLBs of an MMU. *)
Abbreviation mmu R := (tlb_id -> tlb R).

Section MMU.
Context {R : Type} {RP : ReplacementPolicy R}.

(** [nextLevel] *)
Definition nextLevel (id : tlb_id) : option tlb_id :=
  match id with ITB | DTB => Some L2_SHARED | _ => None end.

(** The chain of [nextLevel] pointers; it has at most two links. *)
Definition levels (id : tlb_id) : list tlb_id :=
  id :: match nextLevel id with Some n => [n] | None => [] end.

(** [MMU::getTlb] *)
Definition getTlb (mode : MMUMode) (stage2 : bool) : tlb_id :=
  match mode with
  | Execute => if stage2 then ITB_STAGE2 else ITB
  | _ => if stage2 then DTB_STAGE2 else DTB
  end.

Definition on_tlb {A} (id : tlb_id) (m : M (tlb R) A) : M (mmu R) A := fun s =>
  let r := m (s.1, s.2 id) in (r.1, (r.2.1, fupd s.2 id r.2.2)).

(** [!entry.partial || partialLevels[entry.lookupLevel]] *)
Definition cacheable (t : tlb R) (e : TlbEntry) : bool :=
  negb (te_partial e) || tc_partialLevels (tl_cfg t) (te_lookupLevel e).

(** [TLB::multiLookup] on the levels from a TLB on; the result is the entry pointed to.
    [chaos] gives the injector attached to a TLB. *)
Fixpoint multiLookup (chaos : tlb_id -> option (nat -> Z -> M (tlb R) unit)) (now : Z) (k : KeyType)
    (ids : list tlb_id) : M (mmu R) (option TlbEntry) :=
  match ids with
  | [] => ret None
  | id :: ids' =>
      let! r := on_tlb id (lookup (chaos id) now k) in
      match r with
      | Some i =>
          do! on_tlb id (modify (on_te i (checkPromotion (k_mode k)))) in
          let! m := get in ret (te_at (m id) i)
      | None =>
          let! te := multiLookup chaos now k ids' in
          let! m := get in
          match te with
          | Some e =>
              do! whenM (negb (k_functional k) && cacheable (m id) e)
                    (on_tlb id (modify (tlb_insert now k e))) in
              ret (Some e)
          | None => ret None
          end
      end
  end.

(** [TLB::multiInsert] *)
Definition multiInsert (now : Z) (k : KeyType) (e : TlbEntry) (ids : list tlb_id) (m : mmu R) : mmu R :=
  foldl (fun m id => if cacheable (m id) e then fupd m id (tlb_insert now k e (m id)) else m) m ids.

(** [MMU::lookup] *)
Definition mmu_lookup (chaos : tlb_id -> option (nat -> Z -> M (tlb R) unit)) (now : Z)
    (va asid vmid : Z) (ss : SecurityState) (functional ignore_asn : bool) (regime : TranslationRegime)
    (stage2 : bool) (mode : MMUMode) : M (mmu R) (option TlbEntry) :=
  multiLookup chaos now (Key va 12 0 asid ignore_asn vmid ss functional regime mode)
    (levels (getTlb mode stage2)).

(** [MMU::insert] *)
Definition mmu_insert (now : Z) (e : TlbEntry) (mode : MMUMode) (stage2 : bool) (m : mmu R) : mmu R :=
  multiInsert now (key_of e) e (levels (getTlb mode stage2)) m.

Definition flush_ids (f : tlb R -> tlb R) (ids : list tlb_id) (m : mmu R) : mmu R :=
  foldl (fun m id => fupd m id (f (m id))) m ids.

(** [MMU::flushStage1], [flushStage2], [iflush], [dflush]: the instruction, data and unified
    TLBs of the first stage are the ITB, the DTB and the shared one. *)
Definition flushStage1 (op : TLBIOp) : mmu R -> mmu R := flush_ids (flush (tlbi_match op)) [ITB; DTB; L2_SHARED].
Definition flushStage2 (op : TLBIOp) : mmu R -> mmu R := flush_ids (flush (tlbi_match op)) [ITB_STAGE2; DTB_STAGE2].
Definition iflush (op : TLBIOp) : mmu R -> mmu R := flush_ids (flush (tlbi_match op)) [ITB; L2_SHARED].
Definition dflush (op : TLBIOp) : mmu R -> mmu R := flush_ids (flush (tlbi_match op)) [DTB; L2_SHARED].

(** [MMU::flush] *)
Definition mmu_flush (op : TLBIOp) (m : mmu R) : mmu R :=
  let m1 := if stage1Flush op then flushStage1 op m else m in
  if stage2Flush op then flushStage2 op m1 else m1.

(** [MMU::flushAll] *)
Definition mmu_flushAll : mmu R -> mmu R := flush_ids flushAll [ITB; DTB; L2_SHARED; ITB_STAGE2; DTB_STAGE2].

(** The [operator()] of the operations, on a system without a checker. *)
Definition tlbi_exec (op : TLBIOp) : mmu R -> mmu R :=
  match op_kind op with
  | TLBIALL _ _ | TLBIALLEL | TLBIVMALL _ _ | TLBIALLN => mmu_flush op
  | ITLBIALL _ | ITLBIASID _ _ | ITLBIMVA _ _ => iflush op
  | DTLBIALL _ | DTLBIASID _ _ | DTLBIMVA _ _ => dflush op
  | TLBIASID _ _ | TLBIMVAA _ _ | TLBIMVA _ _ _ | TLBIRMVA _ _ _ | TLBIRMVAA _ _ => flushStage1 op
  | TLBIIPA _ _ _ | TLBIRIPA _ _ _ => flushStage2 op
  end.

(** The loop of [MMU::updateMiscReg] that hands the VMID to every TLB. *)
Definition mmu_setVMID (v : Z) (m : mmu R) : mmu R := fun id => setVMID v (m id).
End MMU.

(** * Lemmas *)

Definition cfg_ok (cfg : tlb_config) : Prop :=
  (0 < tc_assoc cfg)%nat /\ (tc_size cfg mod tc_assoc cfg = 0)%nat /\
  exists b, 0 <= b /\ Z.of_nat (numSets (tc_size cfg) (tc_assoc cfg)) = 2 ^ b.

(** A page of [2^N] bytes at [vpn]. *)
Definition page_ok (e : TlbEntry) : Prop :=
  0 <= te_N e < 64 /\ te_size e = 2 ^ te_N e - 1 /\ 0 <= te_vpn e /\ (te_vpn e + 1) * 2 ^ te_N e <= 2 ^ 64.

(** An entry that sits in the set of its page. *)
Definition placed (cfg : tlb_config) (i : nat) (e : TlbEntry) : Prop :=
  Z.of_nat (i / tc_assoc cfg) = Z.land (te_vpn e) (setMask (tc_size cfg) (tc_assoc cfg)).

Lemma set_range cfg v : cfg_ok cfg ->
  0 <= Z.land v (setMask (tc_size cfg) (tc_assoc cfg)) < Z.of_nat (numSets (tc_size cfg) (tc_assoc cfg)).
Proof.
  intros (_ & _ & b & Hb & Hn). unfold setMask. rewrite Hn.
  replace (2 ^ b - 1) with (Z.ones b) by (rewrite Z.ones_equiv; lia).
  rewrite Z.land_ones by done. apply Z.mod_pos_bound. lia.
Qed.

Lemma elem_of_possible cfg k i : cfg_ok cfg ->
  i ∈ getPossibleEntries cfg k <->
  (i < tc_size cfg)%nat /\ Z.of_nat (i / tc_assoc cfg) = set_number cfg (k_va k) (k_pageSize k).
Proof.
  intros Hcfg. pose proof Hcfg as (Ha & Hm & _). apply elem_of_set_entries; [done..|]. by apply set_range.
Qed.

Lemma possible_nonempty cfg k : cfg_ok cfg -> getPossibleEntries cfg k <> [].
Proof.
  intros Hcfg. pose proof Hcfg as (Ha & Hm & _). apply set_entries_nonempty; [done..|]. by apply set_range.
Qed.

(** For a lookup of one address, the range test is the comparison of page numbers. *)
Lemma match_page k e :
  page_ok e -> k_size k = 0 -> matchAddress k e = (Z.shiftr (k_va k) (te_N e) =? te_vpn e).
Proof.
  intros (HN & Hs & Hv & Hb) Hk. unfold matchAddress. rewrite Hk, Hs. cbn [Z.eqb negb].
  rewrite Z.shiftl_mul_pow2, Z.shiftr_div_pow2 by lia.
  assert (0 < 2 ^ te_N e) as Hp by (apply Z.pow_pos_nonneg; lia).
  unfold u64. rewrite (Z.mod_small (te_vpn e * _)) by nia. rewrite Z.mod_small by nia.
  apply eq_true_iff_eq. rewrite andb_true_iff, !Z.leb_le, Z.eqb_eq. split.
  - intros [H1 H2]. symmetry. apply (Z.div_unique _ _ _ (k_va k - te_vpn e * 2 ^ te_N e)); lia.
  - intros <-. pose proof (Z.mul_div_le (k_va k) (2 ^ te_N e) Hp).
    pose proof (Z.mod_pos_bound (k_va k) _ Hp). pose proof (Z.div_mod (k_va k) (2 ^ te_N e)). lia.
Qed.

Lemma te_match_pageSize n k e : te_match (set_pageSize n k) e = te_match k e.
Proof. done. Qed.

Lemma te_match_valid k e : te_match k e = true -> te_valid e = true.
Proof. unfold te_match. intros H. by bools. Qed.

Lemma te_match_page k e :
  te_match k e = true -> page_ok e -> k_size k = 0 -> Z.shiftr (k_va k) (te_N e) = te_vpn e.
Proof.
  intros H Hp Hk. unfold te_match in H. bools. rewrite match_page in * by done. by bools.
Qed.

(** ** Page sizes *)

Lemma elem_of_set_insert n m l : m ∈ set_insert n l <-> m = n \/ m ∈ l.
Proof.
  induction l as [|a l IH]; cbn [set_insert].
  - rewrite list_elem_of_singleton, elem_of_nil. tauto.
  - destruct (n <? a) eqn:E1; [by rewrite elem_of_cons|].
    destruct (a <? n) eqn:E2; [rewrite !elem_of_cons, IH; tauto|].
    bools. rewrite elem_of_cons. split; [by right|]. intros [->|]; [left; lia|done].
Qed.

Lemma set_insert_sorted n l : StronglySorted Z.lt l -> StronglySorted Z.lt (set_insert n l).
Proof.
  induction 1 as [|a l Hl IH Ha]; cbn [set_insert]; [repeat constructor|].
  destruct (n <? a) eqn:E1; bools.
  - constructor; [by constructor|]. constructor; [done|]. eapply Forall_impl; [exact Ha|]. cbn. lia.
  - destruct (a <? n) eqn:E2; bools; [|by constructor]. constructor; [done|].
    apply Forall_forall. intros m [->|Hm]%elem_of_set_insert; [done|]. by eapply Forall_forall in Ha.
Qed.

(** ** Operations that leave the entries alone *)

Lemma elem_of_snoc {A} (l : list A) x y : y ∈ l ++ [x] <-> y ∈ l \/ x = y.
Proof. rewrite elem_of_app, list_elem_of_singleton. naive_solver. Qed.

Section TLBFacts.
Context {R : Type} {RP : ReplacementPolicy R} {RPO : ReplacementPolicyOk R}.
Implicit Types (t : tlb R).

Record same_entries (t t' : tlb R) : Prop := SameEntries {
  se_cfg : tl_cfg t' = tl_cfg t;
  se_observed : observedPageSizes t' = observedPageSizes t;
  se_length : length (tl_table t') = length (tl_table t);
  se_at : forall i, te_at t' i = te_at t i
}.

#[global] Instance same_entries_refl : Reflexive same_entries.
Proof. by split. Qed.

#[global] Instance same_entries_trans : Transitive same_entries.
Proof. intros t1 t2 t3 [] []. split; intros; congruence. Qed.

Lemma key_hits_same t t' k i : same_entries t t' -> key_hits t' k i = key_hits t k i.
Proof. intros H. unfold key_hits. by rewrite (se_at _ _ H). Qed.

Lemma touch_same now i t : same_entries t (set_table (ac_touch now i (tl_table t)) t).
Proof.
  split; [done..| |]; cbn.
  - apply length_on_repl.
  - intros j. unfold te_at. cbn. apply entry_at_on_repl.
Qed.

(** What a search for one page size finds: an entry of that size that matches, or that none
    of the candidates does. *)
Definition searched (t : tlb R) (k : KeyType) (r : option nat) : Prop :=
  match r with
  | Some i => key_hits t k i = true
  | None => forall i, i ∈ getPossibleEntries (tl_cfg t) k -> key_hits t k i = false
  end.

Lemma findEntry_spec k t : searched t k (findEntry k t).1 /\ same_entries t (findEntry k t).2.
Proof.
  unfold findEntry. set (search := match first_of _ _ with Some _ => _ | None => _ end).
  assert (searched t k search.1 /\ same_entries t search.2) as Hs.
  { subst search. destruct (first_of _ _) eqn:E; cbn [fst snd]; (split; [|by split]).
    - by apply first_of_Some in E as [_ E].
    - intros i Hi. by apply (first_of_None _ _ _ E). }
  destruct (tl_prev t) as [i|]; [|done]. destruct (key_hits t k i) eqn:E; [|done]. by split.
Qed.

Lemma accessEntry_spec now k t :
  searched t k (accessEntry now k t).1 /\ same_entries t (accessEntry now k t).2.
Proof.
  unfold accessEntry. destruct (findEntry_spec k t) as [Hs He].
  destruct (findEntry k t) as [[i|] t1]; cbn [fst snd] in *; [|done]. split; [done|].
  destruct (k_functional k); [done|]. etrans; [done|]. apply touch_same.
Qed.

(** What a lookup finds: the first page size, in the order given, at which a search finds
    something. *)
Fixpoint searched_sizes (t : tlb R) (k : KeyType) (sizes : list Z) (r : option nat) : Prop :=
  match sizes with
  | [] => r = None
  | n :: sizes' =>
      (r <> None /\ searched t (set_pageSize n k) r) \/
      (searched t (set_pageSize n k) None /\ searched_sizes t k sizes' r)
  end.

Lemma searched_same t t' k r : same_entries t t' -> searched t' k r -> searched t k r.
Proof.
  intros H. unfold searched. destruct r as [i|]; [by rewrite (key_hits_same _ _ _ _ H)|].
  rewrite (se_cfg _ _ H). intros Hn i Hi. rewrite <- (key_hits_same _ _ _ _ H). by apply Hn.
Qed.

Lemma lookup_sizes_spec now k sizes t :
  searched_sizes t k sizes (lookup_sizes now k sizes t).1 /\ same_entries t (lookup_sizes now k sizes t).2.
Proof.
  enough (forall t0, same_entries t0 t ->
    searched_sizes t0 k sizes (lookup_sizes now k sizes t).1 /\ same_entries t0 (lookup_sizes now k sizes t).2)
    as H by by apply H.
  induction sizes as [|n sizes IH] in t |- *; intros t0 H0; cbn [lookup_sizes searched_sizes]; [done|].
  destruct (accessEntry_spec now (set_pageSize n k) t) as [Hs He].
  destruct (accessEntry now (set_pageSize n k) t) as [[i|] t1]; cbn [fst snd] in *.
  - split; [|by etrans]. left. split; [done|]. by apply (searched_same t0 t).
  - destruct (IH t1 t0) as [IH1 IH2]; [by etrans|]. split; [|done]. right.
    split; [by apply (searched_same t0 t)|done].
Qed.

(** ** The invariant of a TLB *)

(** Every valid entry is a page of a size that was observed and, if entries go in under keys
    of their page ([own]), in the set of that page. *)
Record tlb_wf (own : bool) (t : tlb R) : Prop := TlbWf {
  wf_cfg : cfg_ok (tl_cfg t);
  wf_length : length (tl_table t) = tc_size (tl_cfg t);
  wf_sorted : StronglySorted Z.lt (observedPageSizes t);
  wf_entry : forall i e, te_at t i = Some e -> te_valid e = true ->
    page_ok e /\ te_N e ∈ observedPageSizes t /\ (own = true -> placed (tl_cfg t) i e)
}.

Lemma te_at_lt own t i e : tlb_wf own t -> te_at t i = Some e -> (i < tc_size (tl_cfg t))%nat.
Proof. intros H He. rewrite <- (wf_length _ _ H). apply entry_at_is_Some. unfold te_at in He. by rewrite He. Qed.

Lemma tlb_wf_same own t t' : same_entries t t' -> tlb_wf own t -> tlb_wf own t'.
Proof.
  intros [Hc Ho Hl Ha] [H1 H2 H3 H4]. split; rewrite ?Hc, ?Ho, ?Hl; try done.
  intros i e. rewrite Ha. apply H4.
Qed.

(** A matching entry in the set of its page is among the candidates of its page size. *)
Lemma match_is_candidate own t k i e :
  tlb_wf own t -> k_size k = 0 -> te_at t i = Some e -> placed (tl_cfg t) i e -> te_match k e = true ->
  i ∈ getPossibleEntries (tl_cfg t) (set_pageSize (te_N e) k).
Proof.
  intros Hwf Hk He Hpl Hm. destruct (wf_entry _ _ Hwf i e He) as (Hp & _); [by eapply te_match_valid|].
  apply elem_of_possible; [by eapply wf_cfg|]. split; [by eapply te_at_lt|].
  unfold set_number. cbn [k_va k_pageSize set_pageSize]. rewrite Hpl. f_equal. symmetry. by apply te_match_page.
Qed.

(** A lookup finds an entry that matches, no larger than any matching entry of those
    [among] which it is exact, and misses only if none of those matches. *)
Definition exact_hit (among : nat -> TlbEntry -> Prop) (t : tlb R) (k : KeyType) (r : option nat) : Prop :=
  match r with
  | Some i => exists e, te_at t i = Some e /\ te_match k e = true /\
      forall j e', te_at t j = Some e' -> among j e' -> te_match k e' = true -> te_N e <= te_N e'
  | None => forall j e', te_at t j = Some e' -> among j e' -> te_match k e' = false
  end.

Lemma searched_none own t k n i e :
  tlb_wf own t -> k_size k = 0 -> searched t (set_pageSize n k) None ->
  te_at t i = Some e -> placed (tl_cfg t) i e -> te_match k e = true -> te_N e <> n.
Proof.
  intros Hwf Hk Hs He Hpl Hm <-. specialize (Hs i (match_is_candidate own t k i e Hwf Hk He Hpl Hm)).
  unfold key_hits in Hs. rewrite He in Hs. cbn [k_pageSize set_pageSize] in Hs.
  rewrite Z.eqb_refl, te_match_pageSize, Hm in Hs. done.
Qed.

Lemma searched_exact own t k sizes r :
  tlb_wf own t -> k_size k = 0 -> StronglySorted Z.lt sizes ->
  (forall i e, te_at t i = Some e -> placed (tl_cfg t) i e -> te_match k e = true -> te_N e ∈ sizes) ->
  searched_sizes t k sizes r -> exact_hit (placed (tl_cfg t)) t k r.
Proof.
  intros Hwf Hk Hs. revert r. induction Hs as [|n sizes Hs IH Hn]; intros r Hin Hr; cbn [searched_sizes] in Hr.
  - subst r. intros j e' He Hpl. destruct (te_match k e') eqn:E; [|done]. by destruct (not_elem_of_nil (te_N e')); eauto.
  - destruct Hr as [[Hne Hr]|[Hno Hr]].
    + destruct r as [i|]; [|done]. cbn in Hr. unfold key_hits in Hr. destruct (te_at t i) as [e|] eqn:E; [|done].
      bools. exists e. split; [done|]. split; [done|]. intros j e' He' Hpl' Hm'.
      pose proof (Hin j e' He' Hpl' Hm') as [->|H']%elem_of_cons; cbn in *; [lia|].
      rewrite Forall_forall in Hn. specialize (Hn _ H'). lia.
    + apply IH; [|done]. intros i e He Hpl Hm. pose proof (Hin i e He Hpl Hm) as [H'|H']%elem_of_cons; [|done].
      by destruct (searched_none own t k n i e).
Qed.

(** ** What an injector's hook promises *)

(** An entry [e'] for the same page, valid only if [e] is. *)
Definition same_page (e e' : TlbEntry) : Prop :=
  te_vpn e' = te_vpn e /\ te_N e' = te_N e /\ te_size e' = te_size e /\
  (te_valid e' = true -> te_valid e = true).

Definition keeps_page (f : TlbEntry -> TlbEntry) : Prop := forall e, same_page e (f e).

(** A hook called on entry [i] changes that entry only. *)
Class TlbHook (hook : nat -> Z -> M (tlb R) unit) : Prop :=
  tlb_hook : forall i va s, exists f,
    (forall e, te_at s.2 i = Some e -> same_page e (f e)) /\ (hook i va s).2.2 = on_te i f s.2.

Definition chaos_ok (chaos : option (nat -> Z -> M (tlb R) unit)) : Prop :=
  forall hook, chaos = Some hook -> TlbHook hook.

Lemma te_at_on_te i j f t : te_at (on_te i f t) j = if decide (i = j) then f <$> te_at t j else te_at t j.
Proof. apply entry_at_on_entry. Qed.

Lemma wf_on_te own i f t :
  (forall e, te_at t i = Some e -> same_page e (f e)) -> tlb_wf own t -> tlb_wf own (on_te i f t).
Proof.
  intros Hf [H1 H2 H3 H4]. split; [done| |done|]; cbn; [by rewrite length_on_entry|].
  intros j e. rewrite te_at_on_te. case_decide as Hij; [subst j|apply H4].
  destruct (te_at t i) as [e0|] eqn:E; [|done]. intros [= <-] Hv.
  destruct (Hf e0 eq_refl) as (E1 & E2 & E3 & Hval). destruct (H4 i e0 E (Hval Hv)) as ((P1 & P2 & P3 & P4) & Ho & Hp).
  unfold page_ok, placed. by rewrite E1, E2, E3.
Qed.

Lemma count_lookup_same k r t : same_entries t (count_lookup k r t).
Proof. unfold count_lookup. destruct r as [i|]; [|by split]. by destruct (te_at t i) as [e|]; [destruct (te_partial e)|]. Qed.

(** A lookup in three steps: search, hook, statistics. *)
Lemma lookup_run chaos now k c t :
  let r := lookup_sizes now k (observedPageSizes t) t in
  let s1 := (call_hook chaos r.1 (k_va k) (c, r.2)).2 in
  lookup chaos now k (c, t) =
  (r.1, if k_functional k then s1 else (s1.1, count_lookup k r.1 s1.2)).
Proof. cbn zeta. unfold lookup, bind, get, put, whenM, modify, ret, skip. cbn. by destruct (k_functional k). Qed.

Lemma lookup_wf own chaos now k : chaos_ok chaos -> preserves (fun s => tlb_wf own s.2) (lookup chaos now k).
Proof.
  intros Hc [c t] Hwf. cbn [snd] in Hwf. rewrite lookup_run. cbn zeta.
  destruct (lookup_sizes_spec now k (observedPageSizes t) t) as [_ Hs].
  destruct (lookup_sizes _ _ _ t) as [r t1]. cbn [fst snd] in *. pose proof (tlb_wf_same _ _ _ Hs Hwf) as H1.
  assert (tlb_wf own (call_hook chaos r (k_va k) (c, t1)).2.2) as H2.
  { destruct r as [i|]; [|done]. destruct chaos as [hook|]; [|done]. cbn [call_hook].
    destruct (Hc hook eq_refl i (k_va k) (c, t1)) as (f & Hf & ->). by apply wf_on_te. }
  destruct (k_functional k); [done|]. eapply tlb_wf_same; [apply count_lookup_same|done].
Qed.

(** Without an injector a lookup leaves the entries and the core alone. *)
Lemma lookup_same now k c t :
  (lookup None now k (c, t)).2.1 = c /\ same_entries t (lookup None now k (c, t)).2.2.
Proof.
  rewrite lookup_run. cbn zeta. destruct (lookup_sizes_spec now k (observedPageSizes t) t) as [_ Hs].
  destruct (lookup_sizes _ _ _ t) as [r t1]. cbn [fst snd] in *.
  assert ((call_hook None r (k_va k) (c, t1)).2 = (c, t1)) as -> by by destruct r.
  destruct (k_functional k); [done|]. split; [done|]. etrans; [done|]. apply count_lookup_same.
Qed.

(** ** Insertion *)

Definition insert_victim (k : KeyType) (t : tlb R) : nat :=
  pick_victim (getPossibleEntries (tl_cfg t) k) (tl_table t).

Lemma insert_victim_in k t :
  cfg_ok (tl_cfg t) -> length (tl_table t) = tc_size (tl_cfg t) ->
  insert_victim k t ∈ getPossibleEntries (tl_cfg t) k.
Proof.
  intros Hc Hl. apply pick_victim_in; [by apply possible_nonempty|].
  intros i Hi. apply elem_of_possible in Hi; [|done]. lia.
Qed.

Lemma tlb_insert_at now k e t j :
  te_at (tlb_insert now k e t) j =
  if decide (insert_victim k t = j) then (fun old => te_assign old e) <$> te_at t j else te_at t j.
Proof.
  unfold tlb_insert, invalidatePrev. cbn [fst snd ac_findVictim]. fold (insert_victim k t).
  set (v := insert_victim k t). case_bool_decide; unfold te_at; cbn;
    unfold ac_insertEntry, ac_invalidate; autorewrite with tables;
    case_decide; rewrite <- ?option_fmap_compose; [|done| |done]; by destruct (entry_at (tl_table t) j).
Qed.

Lemma tlb_insert_shape now k e t :
  tl_cfg (tlb_insert now k e t) = tl_cfg t /\
  length (tl_table (tlb_insert now k e t)) = length (tl_table t) /\
  observedPageSizes (tlb_insert now k e t) = set_insert (te_N e) (observedPageSizes t) /\
  tl_vmid (tlb_insert now k e t) = tl_vmid t.
Proof.
  unfold tlb_insert, invalidatePrev, ac_insertEntry, ac_findVictim, ac_invalidate.
  case_bool_decide; cbn; by autorewrite with tables.
Qed.

(** A key that selects the set of the page. *)
Definition well_keyed (cfg : tlb_config) (k : KeyType) (e : TlbEntry) : Prop :=
  set_number cfg (k_va k) (k_pageSize k) = Z.land (te_vpn e) (setMask (tc_size cfg) (tc_assoc cfg)).

Lemma tlb_insert_wf own now k e t :
  page_ok e -> (own = true -> well_keyed (tl_cfg t) k e) -> tlb_wf own t -> tlb_wf own (tlb_insert now k e t).
Proof.
  intros Hp Hk [H1 H2 H3 H4]. destruct (tlb_insert_shape now k e t) as (Ec & El & Eo & _).
  split; rewrite ?Ec, ?El, ?Eo; [done..|by apply set_insert_sorted|].
  intros i e'. rewrite tlb_insert_at. case_decide as Hi.
  - destruct (te_at t i) as [old|]; [|done]. intros [= <-] Hv.
    split; [done|]. split; [apply elem_of_set_insert; by left|].
    pose proof (insert_victim_in k t H1 H2) as [_ Hset]%elem_of_possible; [|done].
    intros Ho. unfold placed. rewrite <- Hi, Hset. by apply Hk.
  - intros He Hv. destruct (H4 i e' He Hv) as (Hp' & Ho & Hpl).
    split; [done|]. split; [apply elem_of_set_insert; by right|done].
Qed.

(** The key of an entry selects the set of its page, and so does a key that matches the entry
    and has its page size, such as the key of a lookup that copies a 4 KB page. *)
Lemma key_of_set cfg e : page_ok e -> well_keyed cfg (key_of e) e.
Proof.
  intros (HN & _ & Hv & Hb). unfold well_keyed, set_number. cbn. f_equal.
  rewrite Z.shiftl_mul_pow2, Z.shiftr_div_pow2 by lia.
  assert (0 < 2 ^ te_N e) by (apply Z.pow_pos_nonneg; lia).
  unfold u64. rewrite Z.mod_small by nia. apply Z.div_mul. lia.
Qed.

Lemma copy_key_set cfg k e :
  page_ok e -> te_match k e = true -> k_size k = 0 -> k_pageSize k = te_N e -> well_keyed cfg k e.
Proof. intros Hp Hm Hk EN. unfold well_keyed, set_number. rewrite EN. by rewrite (te_match_page k e). Qed.

(** ** Flushes *)

Lemma set_valid_idem e : set_valid false (set_valid false e) = set_valid false e.
Proof. done. Qed.

Lemma set_valid_invalid e : te_valid e = false -> set_valid false e = e.
Proof. destruct e. cbn. by intros ->. Qed.

Definition flushed (f : TlbEntry -> Z -> bool) (vmid : Z) (e : TlbEntry) : TlbEntry :=
  if f e vmid then set_valid false e else e.

(** One step of the loop of [flush]. *)
Lemma flush_step_spec f t b i :
  let s := flush_step f (t, b) i in
  tl_cfg s.1 = tl_cfg t /\ tl_vmid s.1 = tl_vmid t /\ observedPageSizes s.1 = observedPageSizes t /\
  length (tl_table s.1) = length (tl_table t) /\
  (forall j, te_at s.1 j = if decide (i = j) then flushed f (tl_vmid t) <$> te_at t j else te_at t j) /\
  s.2 = b || match te_at s.1 i with Some e => te_valid e | None => false end.
Proof.
  cbn zeta. unfold flush_step. cbn [fst snd].
  assert (forall j, te_at (tlb_invalidate i t) j = if decide (i = j) then set_valid false <$> te_at t j else te_at t j) as Hinv.
  { intros j. unfold te_at, tlb_invalidate. cbn. unfold ac_invalidate. by autorewrite with tables. }
  destruct (te_at t i) as [e|] eqn:E; [destruct (f e (tl_vmid t)) eqn:Ef|].
  - assert (forall j, te_at (tlb_bump flushedEntries (invalidatePrev (Some i) (tlb_invalidate i t))) j =
      te_at (tlb_invalidate i t) j) as Ht by (intros j; unfold invalidatePrev; by case_bool_decide).
    split_and!; try done; try (unfold invalidatePrev; case_bool_decide; cbn; unfold ac_invalidate; by autorewrite with tables).
    intros j. rewrite Ht, Hinv. case_decide as Hj; [|done]. subst j. rewrite E. cbn. unfold flushed. by rewrite Ef.
  - split_and!; try done. intros j. case_decide as Hj; [|done]. subst j. rewrite E. cbn. unfold flushed. by rewrite Ef.
  - split_and!; try done. intros j. case_decide as Hj; [|done]. subst j. by rewrite E.
Qed.

Lemma flushed_idem f v e : flushed f v (flushed f v e) = flushed f v e.
Proof. unfold flushed. destruct (f e v) eqn:E; [|by rewrite E]. by destruct (f (set_valid false e) v). Qed.

(** The loop of [flush] over any list of entries. *)
Lemma flush_loop f t l :
  let s := foldl (flush_step f) (t, false) l in
  tl_cfg s.1 = tl_cfg t /\ tl_vmid s.1 = tl_vmid t /\ observedPageSizes s.1 = observedPageSizes t /\
  length (tl_table s.1) = length (tl_table t) /\
  (forall j, te_at s.1 j = if decide (j ∈ l) then flushed f (tl_vmid t) <$> te_at t j else te_at t j) /\
  (s.2 = false -> forall j e, j ∈ l -> te_at s.1 j = Some e -> te_valid e = false).
Proof.
  cbn zeta. induction l as [|i l IH] using rev_ind; [split_and!; try done; by intros _ j e ?%not_elem_of_nil|].
  rewrite foldl_app. cbn [foldl]. destruct (foldl (flush_step f) (t, false) l) as [t1 b].
  cbn [fst snd] in IH. destruct IH as (Hc & Hv & Ho & Hl & Ha & Hb).
  destruct (flush_step_spec f t1 b i) as (Hc' & Hv' & Ho' & Hl' & Ha' & Hb').
  destruct (flush_step f (t1, b) i) as [t2 b2]. cbn [fst snd] in *.
  assert (forall j, te_at t2 j = if decide (j ∈ l ++ [i]) then flushed f (tl_vmid t) <$> te_at t j else te_at t j) as Hat.
  { intros j. rewrite Ha', Ha, Hv. pose proof (elem_of_snoc l i j) as Happ.
    repeat case_decide; try (exfalso; tauto); [|done..]. destruct (te_at t j); [|done]. cbn. by rewrite flushed_idem. }
  split_and!; try congruence; [done|]. intros ->. symmetry in Hb'. bools. intros j e Hj Hje.
  apply elem_of_app in Hj. destruct (decide (j = i)) as [->|Hne].
  - by rewrite Hje in *.
  - destruct Hj as [Hj|Hj%list_elem_of_singleton]; [|done]. eapply Hb; [done..|].
    by rewrite Ha', decide_False in Hje by done.
Qed.

Lemma flush_at f t i :
  te_at (flush f t) i = flushed f (tl_vmid t) <$> te_at t i.
Proof.
  unfold flush. destruct (flush_loop f t (seq 0 (length (tl_table t)))) as (_ & _ & _ & _ & Ha & _).
  destruct (foldl _ _ _) as [t1 b]. cbn [fst snd] in *.
  assert (te_at (if b then tlb_bump flushTlb t1 else set_observed [] (tlb_bump flushTlb t1)) i = te_at t1 i)
    as -> by by destruct b.
  rewrite Ha. case_decide as Hi; [done|]. rewrite elem_of_seq in Hi.
  destruct (te_at t i) eqn:E; [|done]. exfalso. apply Hi. unfold te_at in E.
  assert (i < length (tl_table t))%nat by (apply entry_at_is_Some; by rewrite E). lia.
Qed.

Lemma flush_shape f t :
  tl_cfg (flush f t) = tl_cfg t /\ tl_vmid (flush f t) = tl_vmid t /\
  length (tl_table (flush f t)) = length (tl_table t).
Proof.
  unfold flush. destruct (flush_loop f t (seq 0 (length (tl_table t)))) as (Hc & Hv & _ & Hl & _).
  destruct (foldl _ _ _) as [t1 b]. cbn [fst snd] in *. by destruct b.
Qed.

Lemma flushed_page f v : keeps_page (flushed f v).
Proof. intros e. unfold flushed. by destruct (f e v). Qed.

Lemma flush_wf own f t : tlb_wf own t -> tlb_wf own (flush f t).
Proof.
  intros [H1 H2 H3 H4]. destruct (flush_shape f t) as (Hc & _ & Hl).
  pose proof (flush_loop f t (seq 0 (length (tl_table t)))) as (_ & _ & Ho & _ & Ha & Hb).
  assert (forall i e, te_at (flush f t) i = Some e -> te_valid e = true ->
    page_ok e /\ te_N e ∈ observedPageSizes t /\ (own = true -> placed (tl_cfg t) i e)) as Hent.
  { intros i e. rewrite flush_at. destruct (te_at t i) as [e0|] eqn:E; [|done]. intros [= <-] Hval.
    destruct (flushed_page f (tl_vmid t) e0) as (E1 & E2 & E3 & Hv).
    unfold page_ok, placed. rewrite E1, E2, E3. by apply H4, Hv. }
  assert (observedPageSizes (flush f t) = observedPageSizes t \/
    observedPageSizes (flush f t) = [] /\ forall i e, te_at (flush f t) i = Some e -> te_valid e = false) as Hobs.
  { pose proof (fun i => flush_at f t i) as Hf. unfold flush in *. destruct (foldl _ _ _) as [t1 b]. cbn [fst snd] in *.
    destruct b; [by left|right]. split; [done|]. intros i e He. apply (Hb eq_refl i); [|done].
    apply elem_of_seq. split; [lia|]. apply entry_at_is_Some. cbn in He. unfold te_at in *. cbn in *.
    specialize (Hf i). rewrite He in Hf. by destruct (entry_at (tl_table t) i). }
  destruct Hobs as [Hobs|[Hobs Hnone]]; split; rewrite ?Hc, ?Hl, ?Hobs; try done.
  - constructor.
  - intros i e He Hv. specialize (Hnone i e He). congruence.
Qed.

(** [flushAll] is the flush of the entries that are valid, but for its own bookkeeping. *)
Lemma flushAll_at t i : te_at (flushAll t) i = set_valid false <$> te_at t i.
Proof.
  assert (forall l t, (forall j, te_at (foldl flushAll_step t l) j =
     if decide (j ∈ l) then set_valid false <$> te_at t j else te_at t j)) as Hloop.
  { clear t i. intros l t. induction l as [|i l IH] using rev_ind; [done|]. intros j. rewrite foldl_app. cbn [foldl].
    set (t1 := foldl flushAll_step t l) in *.
    assert (te_at (flushAll_step t1 i) j = if decide (i = j) then set_valid false <$> te_at t1 j else te_at t1 j) as ->.
    { unfold flushAll_step. destruct (te_at t1 i) as [e|] eqn:E.
      - destruct (te_valid e) eqn:Ev.
        + unfold te_at, tlb_invalidate. cbn. unfold ac_invalidate. by autorewrite with tables.
        + case_decide; [|done]. subst j. rewrite E. cbn. by rewrite set_valid_invalid.
      - case_decide; [|done]. subst j. by rewrite E. }
    rewrite IH. pose proof (elem_of_snoc l i j) as Happ.
    repeat case_decide; try (exfalso; tauto); [|done..]. by destruct (te_at t j). }
  unfold flushAll. change (te_at (foldl flushAll_step t (seq 0 (length (tl_table t)))) i = set_valid false <$> te_at t i).
  rewrite Hloop. case_decide as Hi; [done|]. rewrite elem_of_seq in Hi.
  destruct (te_at t i) eqn:E; [|done]. exfalso. apply Hi. unfold te_at in E.
  assert (i < length (tl_table t))%nat by (apply entry_at_is_Some; by rewrite E). lia.
Qed.

Lemma flushAll_shape t : tl_cfg (flushAll t) = tl_cfg t /\ tl_vmid (flushAll t) = tl_vmid t /\
  length (tl_table (flushAll t)) = length (tl_table t) /\ observedPageSizes (flushAll t) = [].
Proof.
  unfold flushAll. cbn. generalize (seq 0 (length (tl_table t))) as l. intros l.
  induction l as [|i l IH] using rev_ind; [done|]. rewrite foldl_app. cbn [foldl].
  destruct IH as (Hc & Hv & Hl & _). rewrite <- Hc, <- Hv, <- Hl. unfold flushAll_step.
  destruct (te_at _ i) as [e|]; [destruct (te_valid e)|]; [|done..].
  split_and!; try done. cbn. unfold ac_invalidate. by autorewrite with tables.
Qed.

Lemma flushAll_wf own t : tlb_wf own t -> tlb_wf own (flushAll t).
Proof.
  intros [H1 H2 H3 H4]. destruct (flushAll_shape t) as (Hc & _ & Hl & Ho).
  split; rewrite ?Hc, ?Hl, ?Ho; [done..|constructor|].
  intros i e. rewrite flushAll_at. by destruct (te_at t i); [intros [= <-]|].
Qed.

Lemma tlb_new_at cfg i e : te_at (tlb_new cfg) i = Some e -> e = te_default.
Proof.
  unfold te_at, entry_at. cbn. destruct (replicate _ _ !! i) as [[e0 r]|] eqn:E; [|done].
  apply lookup_replicate in E as [[= -> ->] _]. by intros [= <-].
Qed.

Lemma tlb_new_wf own cfg : cfg_ok cfg -> tlb_wf own (tlb_new cfg).
Proof.
  intros Hc. split; [done|by apply length_replicate|constructor|].
  by intros i e ->%tlb_new_at.
Qed.
End TLBFacts.

(** ** A TLB under its own operations *)

Section Reach.
Context {R : Type} {RP : ReplacementPolicy R} {RPO : ReplacementPolicyOk R}.

(** The states a TLB reaches.  Entries go in under any key, as the copies of second-level
    hits do, which the key of the lookup places; if [own] holds, under keys that select the
    set of their page, as those of [MMU::insert] do.  Lookups may call an injector. *)
Inductive tlb_reach (own : bool) (cfg : tlb_config) : tlb R -> Prop :=
  | reach_new : tlb_reach own cfg (tlb_new cfg)
  | reach_insert now k e t :
      page_ok e -> (own = true -> well_keyed cfg k e) -> tlb_reach own cfg t -> tlb_reach own cfg (tlb_insert now k e t)
  | reach_lookup chaos now k c t :
      chaos_ok chaos -> tlb_reach own cfg t -> tlb_reach own cfg (lookup chaos now k (c, t)).2.2
  | reach_promote mode i t : tlb_reach own cfg t -> tlb_reach own cfg (on_te i (checkPromotion mode) t)
  | reach_flush f t : tlb_reach own cfg t -> tlb_reach own cfg (flush f t)
  | reach_flushAll t : tlb_reach own cfg t -> tlb_reach own cfg (flushAll t)
  | reach_setVMID v t : tlb_reach own cfg t -> tlb_reach own cfg (setVMID v t).

Lemma checkPromotion_page mode : keeps_page (checkPromotion mode).
Proof. intros e. unfold checkPromotion. by destruct (type_and _ _). Qed.

Lemma lookup_cfg chaos now k c t : chaos_ok chaos -> tl_cfg (lookup chaos now k (c, t)).2.2 = tl_cfg t.
Proof.
  intros Hc. rewrite lookup_run. cbn zeta. destruct (lookup_sizes_spec now k (observedPageSizes t) t) as [_ Hs].
  destruct (lookup_sizes _ _ _ t) as [r t1]. cbn [fst snd] in *. rewrite <- (se_cfg _ _ Hs).
  assert (tl_cfg (call_hook chaos r (k_va k) (c, t1)).2.2 = tl_cfg t1) as E.
  { destruct r as [i|]; [|done]. destruct chaos as [hook|]; [|done]. cbn [call_hook].
    by destruct (Hc hook eq_refl i (k_va k) (c, t1)) as (f & _ & ->). }
  destruct (k_functional k); [done|]. rewrite <- E. apply (se_cfg _ _ (count_lookup_same k r _)).
Qed.

Lemma tlb_reach_cfg own cfg t : tlb_reach own cfg t -> tl_cfg t = cfg.
Proof.
  induction 1 as [|now k e t _ _ _ IH|chaos now k c t Hch _ IH|mode i t _ IH|f t _ IH|t _ IH|v t _ IH]; try done.
  - by rewrite (proj1 (tlb_insert_shape now k e t)).
  - by rewrite lookup_cfg.
  - by rewrite (proj1 (flush_shape f t)).
  - by rewrite (proj1 (flushAll_shape t)).
Qed.

Lemma tlb_reach_wf own cfg t : cfg_ok cfg -> tlb_reach own cfg t -> tlb_wf own t.
Proof.
  intros Hc. induction 1 as [|now k e t Hp Hk Hr IH|chaos now k c t Hch _ IH|mode i t _ IH|f t _ IH|t _ IH|v t _ IH].
  - by apply tlb_new_wf.
  - apply tlb_insert_wf; [done| |done]. by rewrite (tlb_reach_cfg own cfg t).
  - by apply (lookup_wf own chaos now k Hch (c, t)).
  - apply wf_on_te; [|done]. intros e _. apply checkPromotion_page.
  - by apply flush_wf.
  - by apply flushAll_wf.
  - by destruct IH.
Qed.

Lemma lookup_exact own chaos now k c t :
  tlb_wf own t -> k_size k = 0 -> exact_hit (placed (tl_cfg t)) t k (lookup chaos now k (c, t)).1.
Proof.
  intros Hwf Hk. rewrite lookup_run. cbn [fst].
  destruct (lookup_sizes_spec now k (observedPageSizes t) t) as [Hs _].
  eapply searched_exact; [done..|by eapply wf_sorted| |done]. intros i e He _ Hm.
  by apply (wf_entry _ _ Hwf i e He), te_match_valid with k.
Qed.

Lemma exact_hit_all (t : tlb R) k r (among among' : nat -> TlbEntry -> Prop) :
  (forall i e, te_at t i = Some e -> te_valid e = true -> among i e) ->
  exact_hit among t k r -> exact_hit among' t k r.
Proof.
  intros Ha. destruct r as [i|]; cbn.
  - intros (e & He & Hm & Hmin). exists e. split; [done|]. split; [done|]. intros j e' Hj _ Hm'.
    apply (Hmin j); [done| |done]. by eapply Ha, te_match_valid.
  - intros Hno j e' Hj _. destruct (te_match k e') eqn:E; [|done]. rewrite <- E. apply (Hno j); [done|].
    by eapply Ha, te_match_valid.
Qed.

(** In a TLB of one set every entry is in the set of its page. *)
Lemma one_set_placed cfg i e :
  cfg_ok cfg -> numSets (tc_size cfg) (tc_assoc cfg) = 1%nat -> (i < tc_size cfg)%nat -> placed cfg i e.
Proof.
  intros (Ha & Hm & _) Hn Hi. unfold placed, setMask. rewrite Hn. change (Z.of_nat 1 - 1) with 0.
  rewrite Z.land_0_r. unfold numSets in Hn. rewrite Nat.div_small; [done|].
  pose proof (Nat.div_mod (tc_size cfg) (tc_assoc cfg) ltac:(lia)). lia.
Qed.

(** C15 What a lookup of an address finds, in every state a TLB reaches by insertions under any
    keys, lookups (with any injector that keeps the pages of entries), promotions and flushes.
    A hit matches, and no matching entry in the set of its own page has a smaller page; a miss
    means that no entry in the set of its own page matches: searching only the sets of the
    observed page sizes and the last match misses nothing there.  If every entry was inserted
    under a key that selects the set of its page, as [MMU::insert] does, or if the TLB is fully
    associative, these are all entries of the TLB. *)
Theorem tlb_lookup_exact own cfg chaos now k c t :
  cfg_ok cfg -> tlb_reach own cfg t -> k_size k = 0 ->
  let r := (lookup chaos now k (c, t)).1 in
  exact_hit (placed cfg) t k r /\
  (own = true \/ numSets (tc_size cfg) (tc_assoc cfg) = 1%nat -> exact_hit (fun _ _ => True) t k r).
Proof.
  intros Hc Ht Hk r. pose proof (tlb_reach_wf own cfg t Hc Ht) as Hwf. pose proof (tlb_reach_cfg own cfg t Ht) as E.
  pose proof (lookup_exact own chaos now k c t Hwf Hk) as Hex. rewrite E in Hex. split; [done|]. intros Hall.
  eapply exact_hit_all; [|exact Hex]. intros i e He Hv. destruct Hall as [->|Hn].
  - rewrite <- E. by apply (wf_entry _ _ Hwf i e He Hv).
  - apply one_set_placed; [done..|]. rewrite <- E. by eapply te_at_lt.
Qed.

(** Two entries for the same translation: they may differ in the kind of access that filled
    them and in the IPA space. *)
Definition canon (e : TlbEntry) : TlbEntry := set_type T_unified (set_ipaSpace PA_NonSecure e).

(** A translation that is inserted into a TLB where nothing else matches the key is what
    the next lookup of the key returns: the same frame, permissions and attributes, up to the
    IPA space. *)
Theorem insert_lookup_roundtrip cfg now now' k c e t :
  cfg_ok cfg -> tlb_reach true cfg t -> page_ok e -> te_match k e = true -> k_size k = 0 ->
  (forall j e', te_at t j = Some e' -> te_match k e' = false) ->
  let t' := tlb_insert now (key_of e) e t in
  exists i old, (lookup None now' k (c, t')).1 = Some i /\
    te_at t' i = Some (te_assign old e) /\ canon (te_assign old e) = canon e.
Proof.
  intros Hc Ht Hp Hm Hk Hno t'. pose proof (tlb_reach_wf true cfg t Hc Ht) as Hwf.
  assert (tlb_wf true t') as Hwf' by (apply tlb_insert_wf; [done|intros _; by apply key_of_set|done]).
  assert (exact_hit (fun _ _ => True) t' k (lookup None now' k (c, t')).1) as Hex.
  { eapply exact_hit_all; [|by eapply lookup_exact]. intros i e' He' Hv'. by apply (wf_entry _ _ Hwf' i e' He' Hv'). }
  pose proof (insert_victim_in (key_of e) t (wf_cfg _ _ Hwf) (wf_length _ _ Hwf)) as Hv.
  apply elem_of_possible in Hv as [Hv _]; [|apply Hwf]. rewrite <- (wf_length _ _ Hwf) in Hv.
  apply entry_at_is_Some in Hv as [old Hold]. fold (te_at t (insert_victim (key_of e) t)) in Hold.
  assert (te_at t' (insert_victim (key_of e) t) = Some (te_assign old e)) as Hat
    by (unfold t'; by rewrite tlb_insert_at, decide_True, Hold).
  destruct ((lookup None now' k (c, t')).1) as [i|].
  - exists i, old. split; [done|]. split; [|done]. destruct Hex as (e' & He' & Hm' & _).
    destruct (decide (insert_victim (key_of e) t = i)) as [<-|Hne]; [done|].
    unfold t' in He'. rewrite tlb_insert_at, decide_False in He' by done. rewrite (Hno i e' He') in Hm'. done.
  - specialize (Hex _ _ Hat I). by rewrite (eq_refl : te_match k (te_assign old e) = te_match k e), Hm in Hex.
Qed.
End Reach.

(** ** The TLBs of an MMU, one operation at a time *)

Section Levels.
Context {R : Type} {RP : ReplacementPolicy R}.
Implicit Types (m : mmu R) (t : tlb R).

Definition no_chaos : tlb_id -> option (nat -> Z -> M (tlb R) unit) := fun _ => None.

Lemma fupd_all (Q : tlb_id -> tlb R -> Prop) m id t : (forall i, Q i (m i)) -> Q id t -> forall i, Q i (fupd m id t i).
Proof. intros H Ht i. destruct (decide (i = id)) as [->|]; [by rewrite fupd_eq|by rewrite fupd_ne]. Qed.

(** The cases of a lookup in several levels: a hit in the first, or the result of the rest,
    which may be copied. *)
Lemma multiLookup_cons now k id ids c m :
  let l := lookup None now k (c, m id) in
  let m1 := fupd m id l.2.2 in
  let rest := multiLookup no_chaos now k ids (l.2.1, m1) in
  multiLookup no_chaos now k (id :: ids) (c, m) =
  match l.1 with
  | Some i => let t := on_te i (checkPromotion (k_mode k)) l.2.2 in (te_at t i, (l.2.1, fupd m1 id t))
  | None =>
      match rest.1 with
      | Some e => if negb (k_functional k) && cacheable (rest.2.2 id) e
                  then (Some e, (rest.2.1, fupd rest.2.2 id (tlb_insert now k e (rest.2.2 id)))) else (Some e, rest.2)
      | None => (None, rest.2)
      end
  end.
Proof.
  cbn zeta. cbn [multiLookup]. unfold bind at 1. unfold on_tlb. cbn [fst snd].
  change (no_chaos id) with (@None (nat -> Z -> M (tlb R) unit)).
  destruct (lookup None now k (c, m id)) as [[i|] [c1 t1]]; cbn [fst snd].
  - unfold bind, modify, get, ret. cbn [fst snd]. by rewrite !fupd_eq.
  - unfold bind. destruct (multiLookup no_chaos now k ids (c1, fupd m id t1)) as [[e|] [c2 m2]]; cbn; [|done].
    by destruct (negb _ && _).
Qed.

(** A property of each TLB that lookups, promotions and the copies of the answer into the
    levels above the last keep, holds after a lookup in all levels. *)
Lemma multiLookup_ind (A : TlbEntry -> Prop) (Q : tlb_id -> tlb R -> Prop) now k ids c m :
  (forall id c t, Q id t -> Q id (lookup None now k (c, t)).2.2) ->
  (forall id i t, Q id t -> Q id (on_te i (checkPromotion (k_mode k)) t)) ->
  (forall id e t, id ∈ removelast ids -> A e -> Q id t -> Q id (tlb_insert now k e t)) ->
  (forall e, (multiLookup no_chaos now k ids (c, m)).1 = Some e -> A e) ->
  (forall id, Q id (m id)) -> forall id, Q id ((multiLookup no_chaos now k ids (c, m)).2.2 id).
Proof.
  intros Hlook Hprom. induction ids as [|i ids IH] in c, m |- *; intros Hins Ha Hm; [done|].
  rewrite multiLookup_cons in *. cbn zeta in *. pose proof (Hlook i c (m i) (Hm i)) as Ht1.
  destruct (lookup None now k (c, m i)) as [[n|] [c1 t1]]; cbn [fst snd] in *.
  { apply fupd_all; [by apply fupd_all|by apply Hprom]. }
  destruct ids as [|j ids]; [by apply fupd_all|]. cbn [removelast] in Hins.
  specialize (IH c1 (fupd m i t1) (fun id e t Hin => Hins id e t (proj2 (elem_of_cons _ _ _) (or_intror Hin)))).
  destruct (multiLookup no_chaos now k (j :: ids) (c1, fupd m i t1)) as [[e|] [c2 m2]]; cbn [fst snd] in *.
  - assert (A e) as HA by (apply Ha; by destruct (negb _ && _)).
    assert (forall id, Q id (m2 id)) as Hm2 by (apply IH; [by intros ? [= <-]|by apply fupd_all]).
    destruct (negb _ && _); [|done]. apply fupd_all; [done|]. apply Hins; [by left|done..].
  - apply IH; [done|by apply fupd_all].
Qed.

Lemma searched_sizes_match (t : tlb R) k sizes i :
  searched_sizes t k sizes (Some i) -> exists e, te_at t i = Some e /\ te_match k e = true.
Proof.
  induction sizes as [|n sizes IH]; cbn [searched_sizes]; [done|]. intros [[_ H]|[_ H]]; [|by apply IH].
  cbn in H. unfold key_hits in H. destruct (te_at t i) as [e|]; [|done]. bools. by exists e.
Qed.

Lemma lookup_match now k c t i :
  (lookup None now k (c, t)).1 = Some i -> exists e, te_at t i = Some e /\ te_match k e = true.
Proof.
  rewrite lookup_run. cbn [fst]. destruct (lookup_sizes_spec now k (observedPageSizes t) t) as [Hs _].
  intros E. rewrite E in Hs. by eapply searched_sizes_match.
Qed.

(** The answer is a matching entry of one of the levels. *)
Lemma multiLookup_answer now k ids c m e :
  (multiLookup no_chaos now k ids (c, m)).1 = Some e ->
  exists id i e0, id ∈ ids /\ te_at (m id) i = Some e0 /\ te_match k e0 = true /\ e = checkPromotion (k_mode k) e0.
Proof.
  induction ids as [|i ids IH] in c, m |- *; [done|]. rewrite multiLookup_cons. cbn zeta.
  destruct (lookup_same now k c (m i)) as [_ Hs]. pose proof (lookup_match now k c (m i)) as Hl.
  destruct (lookup None now k (c, m i)) as [[n|] [c1 t1]]; cbn [fst snd] in *.
  - destruct (Hl n eq_refl) as (e0 & He & Hm). rewrite te_at_on_te, decide_True, (se_at _ _ Hs), He by done.
    intros [= <-]. exists i, n, e0. split; [by left|done].
  - destruct (multiLookup no_chaos now k ids (c1, fupd m i t1)) as [[e'|] [c2 m2]] eqn:E; cbn [fst snd]; [|done].
    intros H. assert (e' = e) as -> by (destruct (negb _ && _); by injection H).
    destruct (IH c1 (fupd m i t1)) as (id & n & e0 & Hin & Hat & Hm & ->); [by rewrite E|].
    exists id, n, e0. split; [by right|]. split; [|done]. destruct (decide (id = i)) as [->|].
    + by rewrite fupd_eq, (se_at _ _ Hs) in Hat.
    + by rewrite fupd_ne in Hat.
Qed.

Lemma mmu_insert_ind (Q : tlb_id -> tlb R -> Prop) now e mode b m :
  (forall id t, id ∈ levels (getTlb mode b) -> Q id t -> Q id (tlb_insert now (key_of e) e t)) ->
  (forall id, Q id (m id)) -> forall id, Q id (mmu_insert now e mode b m id).
Proof.
  unfold mmu_insert, multiInsert. generalize (levels (getTlb mode b)) as ids. intros ids. revert m.
  induction ids as [|i ids IH]; intros m Hins Hm; cbn [foldl]; [done|].
  apply IH; [intros id t Hin; apply Hins; by right|]. destruct (cacheable (m i) e); [|done].
  apply fupd_all; [done|]. apply Hins; [by left|done].
Qed.

(** Whether an operation is executed on a TLB. *)
Definition tlbi_reaches (op : TLBIOp) (id : tlb_id) : bool :=
  match op_kind op with
  | TLBIALL _ _ | TLBIALLEL | TLBIVMALL _ _ | TLBIALLN =>
      match id with ITB_STAGE2 | DTB_STAGE2 => stage2Flush op | _ => true end
  | ITLBIALL _ | ITLBIASID _ _ | ITLBIMVA _ _ => match id with ITB | L2_SHARED => true | _ => false end
  | DTLBIALL _ | DTLBIASID _ _ | DTLBIMVA _ _ => match id with DTB | L2_SHARED => true | _ => false end
  | TLBIASID _ _ | TLBIMVAA _ _ | TLBIMVA _ _ _ | TLBIRMVA _ _ _ | TLBIRMVAA _ _ =>
      match id with ITB_STAGE2 | DTB_STAGE2 => false | _ => true end
  | TLBIIPA _ _ _ | TLBIRIPA _ _ _ => match id with ITB_STAGE2 | DTB_STAGE2 => true | _ => false end
  end.

Lemma tlbi_exec_at op m id :
  tlbi_exec op m id = if tlbi_reaches op id then flush (tlbi_match op) (m id) else m id.
Proof.
  unfold tlbi_exec, tlbi_reaches, mmu_flush, stage1Flush.
  destruct (op_kind op); destruct id; cbn; try done; by destruct (stage2Flush op).
Qed.

Lemma flushAll_exec_at m id : mmu_flushAll m id = flushAll (m id).
Proof. by destruct id. Qed.
End Levels.

(** ** The specification of an MMU *)


(** What the operations aim at: security state, whether the VMID counts, the ASID (and whether
    global entries count as of every ASID), the addresses, complete translations only, the
    side, the IPA space, and the register value of a range. *)
Section Targets.
Context (op : TLBIOp).









End Targets.






Section Coherence.
Context {R : Type} {RP : ReplacementPolicy R}.
Implicit Types (m : mmu R) (t : tlb R).




Inductive mmu_op :=
  | OpInsert (e : TlbEntry) (mode : MMUMode) (stage2 : bool)
  | OpLookup (k : KeyType) (stage2 : bool)
  | OpTlbi (op : TLBIOp)
  | OpFlushAll
  | OpSetVMID (v : Z).

Definition mmu_step (now : Z) (o : mmu_op) (s : core * mmu R) : option TlbEntry * (core * mmu R) :=
  match o with
  | OpInsert e mode stage2 => (None, (s.1, mmu_insert now e mode stage2 s.2))
  | OpLookup k stage2 => multiLookup no_chaos now k (levels (getTlb (k_mode k) stage2)) s
  | OpTlbi op => (None, (s.1, tlbi_exec op s.2))
  | OpFlushAll => (None, (s.1, mmu_flushAll s.2))
  | OpSetVMID v => (None, (s.1, mmu_setVMID v s.2))
  end.



Fixpoint mmu_run (os : list (Z * mmu_op)) (s : core * mmu R) : list (option TlbEntry) :=
  match os with
  | [] => []
  | (now, o) :: os' => let r := mmu_step now o s in r.1 :: mmu_run os' r.2
  end.


(** Entries are pages, and lookups are of one address. *)
Definition op_ok (o : mmu_op) : Prop :=
  match o with OpInsert e _ _ => page_ok e | OpLookup k _ => k_size k = 0 | _ => True end.

Definition mmu_new (cfg : tlb_id -> tlb_config) : mmu R := fun id => tlb_new (cfg id).

























(** Every TLB of an MMU is in a state of those above, its entries inserted under any keys. *)
Lemma mmu_step_reach {RPO : ReplacementPolicyOk R} cfg now o c m :
  op_ok o -> (forall id, cfg_ok (cfg id)) -> (forall id, tlb_reach false (cfg id) (m id)) ->
  forall id, tlb_reach false (cfg id) ((mmu_step now o (c, m)).2.2 id).
Proof.
  intros Ho Hcfg Hm. destruct o as [e mode b|k b|op| |v]; cbn [mmu_step fst snd].
  - apply (mmu_insert_ind (fun id t => tlb_reach false (cfg id) t)); [|done]. intros. by apply reach_insert.
  - apply (multiLookup_ind page_ok (fun id t => tlb_reach false (cfg id) t)); try done.
    + intros. by apply reach_lookup.
    + intros. by apply reach_promote.
    + intros. by apply reach_insert.
    + intros e (id & i & e0 & _ & Hat & Hme & ->)%multiLookup_answer.
      destruct (wf_entry _ _ (tlb_reach_wf false (cfg id) (m id) (Hcfg id) (Hm id)) i e0 Hat) as [Hp _];
        [by eapply te_match_valid|]. unfold checkPromotion. by destruct (type_and _ _).
  - intros id. rewrite tlbi_exec_at. destruct (tlbi_reaches op id); [by apply reach_flush|done].
  - intros id. rewrite flushAll_exec_at. by apply reach_flushAll.
  - intros id. by apply reach_setVMID.
Qed.
End Coherence.

(** ** Examples *)

Module Example.
(** A 2 MB page at [0xa00000] and a 4 KB page inside it. *)
Definition page2m : TlbEntry :=
  MkTlbEntry 119 (2 ^ 21 - 1) 5 0 2 3 1 Grain4KB 21 0 0 0 3 0 Client Normal true false true true
    SS_NonSecure PA_NonSecure EL10 T_data false false false false false false true.
Definition page4k : TlbEntry :=
  MkTlbEntry 4660 (2 ^ 12 - 1) 2563 0 3 3 1 Grain4KB 12 0 0 0 3 0 Client Normal true false true true
    SS_NonSecure PA_NonSecure EL10 T_data false false false false false false true.

(** A TLB of two sets of two ways, and one of four sets of one. *)
Definition cfg22 : tlb_config := TlbConfig 4 2 (fun _ => false).
Definition cfg41 : tlb_config := TlbConfig 4 1 (fun _ => false).

Definition key_at (va : Z) (mode : MMUMode) : KeyType := Key va 12 0 3 false 1 SS_NonSecure false EL10 mode.

Definition core0 : core := Core (Engine (fun _ => 0) 0) 0 stats0 [].

Definition t1 : tlb LRUReplData := tlb_insert 5 (key_of page2m) page2m (tlb_new cfg22).

Lemma cfg22_ok : cfg_ok cfg22.
Proof. split; [cbn; lia|]. split; [done|]. by exists 1. Qed.

Lemma page2m_ok : page_ok page2m.
Proof. repeat split; vm_compute; congruence. Qed.

Lemma page4k_ok : page_ok page4k.
Proof. repeat split; vm_compute; congruence. Qed.

Lemma t1_reach own : tlb_reach own cfg22 t1.
Proof. apply reach_insert; [apply page2m_ok|intros _; apply key_of_set, page2m_ok|apply reach_new]. Qed.

Lemma insert_lookup_roundtrip_witness :
  exists i old, (lookup None 9 (key_at 0xa03010 Write) (core0, t1)).1 = Some i /\
    te_at t1 i = Some (te_assign old page2m) /\ canon (te_assign old page2m) = canon page2m.
Proof.
  exact (insert_lookup_roundtrip cfg22 5 9 (key_at 0xa03010 Write) core0 page2m (tlb_new cfg22)
    cfg22_ok (reach_new true cfg22) page2m_ok eq_refl eq_refl
    (fun j e' He => eq_trans (f_equal (te_match _) (tlb_new_at _ _ _ He)) eq_refl)).
Defined.

(** The second-level hit on a large page is copied with the key's default page size: the
    set-associative DTB then holds the translation in a set where it never looks for it. *)
Definition cfg_of (id : tlb_id) : tlb_config := match id with L2_SHARED => cfg22 | _ => cfg41 end.
Definition mmu1 : mmu LRUReplData := (mmu_step 5 (OpInsert page2m Execute false) (core0, mmu_new cfg_of)).2.2.
Definition mmu2 : option TlbEntry * (core * mmu LRUReplData) :=
  mmu_step 6 (OpLookup (key_at 0xa03010 Read) false) (core0, mmu1).

Lemma second_level_copy_misplaced :
  mmu2.1 = Some page2m /\
  (exists i, te_at (mmu2.2.2 DTB) i = Some page2m) /\
  te_match (key_at 0xa03010 Read) page2m = true /\
  (lookup None 7 (key_at 0xa03010 Read) (core0, mmu2.2.2 DTB)).1 = None.
Proof.
  split; [vm_compute; reflexivity|]. split; [exists 3%nat; vm_compute; reflexivity|]. split; vm_compute; reflexivity.
Qed.

Lemma cfg_of_ok id : cfg_ok (cfg_of id).
Proof. destruct id; (split; [cbn; lia|]); (split; [done|]); (by exists 1) || (by exists 2). Qed.

(** The smaller of two pages is found; the misplaced copy is not, and is not promised. *)
Lemma tlb_lookup_exact_witness :
  (let t := tlb_insert 6 (key_of page4k) page4k t1 in
   exact_hit (fun _ _ => True) t (key_at 0xa03010 Read) (lookup None 9 (key_at 0xa03010 Read) (core0, t)).1) /\
  exact_hit (placed cfg41) (mmu2.2.2 DTB) (key_at 0xa03010 Read)
    (lookup None 7 (key_at 0xa03010 Read) (core0, mmu2.2.2 DTB)).1.
Proof.
  split.
  - intros t. assert (tlb_reach true cfg22 t) as Ht
      by (apply reach_insert; [apply page4k_ok|intros _; apply key_of_set, page4k_ok|apply t1_reach]).
    by apply (tlb_lookup_exact true cfg22 None 9 (key_at 0xa03010 Read) core0 t cfg22_ok Ht eq_refl); left.
  - pose proof (mmu_step_reach (R := LRUReplData) cfg_of 5 (OpInsert page2m Execute false) core0 (mmu_new cfg_of)
      page2m_ok cfg_of_ok (fun id => reach_new false (cfg_of id))) as H1.
    pose proof (mmu_step_reach cfg_of 6 (OpLookup (key_at 0xa03010 Read) false) core0 mmu1 eq_refl cfg_of_ok H1 DTB) as H2.
    exact (proj1 (tlb_lookup_exact false cfg41 None 7 (key_at 0xa03010 Read) core0 (mmu2.2.2 DTB) (cfg_of_ok DTB) H2 eq_refl)).
Defined.

(** A secure second-stage translation loses its IPA space on insertion, and the operation
    that should invalidate it leaves it in place. *)
Definition page_s2 : TlbEntry :=
  MkTlbEntry 119 (2 ^ 12 - 1) 5 0 3 0 1 Grain4KB 12 0 0 0 3 0 Client Normal true true true true
    SS_Secure PA_Secure EL10 T_data false false false false false false true.
Definition key_s2 : KeyType := Key 0x5008 12 0 0 true 1 SS_Secure false EL10 Read.
Definition tlbi_s2 : TLBIOp := MkTLBIOp (TLBIIPA 0x5000 true PA_Secure) SS_Secure EL10 AttrNone.

Lemma tlbi_ipa_misses_secure :
  tlbi_match tlbi_s2 page_s2 1 = true /\
  mmu_run [(5, OpSetVMID 1); (5, OpInsert page_s2 Read true); (6, OpTlbi tlbi_s2); (7, OpLookup key_s2 true)]
    (core0, mmu_new (fun _ => cfg41) : mmu LRUReplData) =
  [None; None; None; Some (set_ipaSpace PA_NonSecure page_s2)].
Proof. split; vm_compute; reflexivity. Qed.



(** A range of two pages that ends with the last address: its end is 0 modulo 2^64, and the
    operation misses the last page. *)
Definition last_page : TlbEntry :=
  MkTlbEntry 119 (2 ^ 12 - 1) (2 ^ 52 - 1) 0 3 3 1 Grain4KB 12 0 0 0 3 0 Client Normal true false true true
    SS_NonSecure PA_NonSecure EL10 T_data false false false false false false true.

Lemma range_to_the_end_misses :
  let v := 2 ^ 46 + (2 ^ 37 - 2) in
  sext 56 (startAddress v) + rangeSize v = 2 ^ 64 /\
  te_match (Key (2 ^ 64 - 1) 12 0 3 false 1 SS_NonSecure false EL10 Read) last_page = true /\
  tlbi_match (MkTLBIOp (TLBIRMVAA v false) SS_NonSecure EL10 AttrNone) last_page 1 = false.
Proof. split_and!; vm_compute; reflexivity. Qed.
End Example.
