(* ===== verification/ChaosTLB.v ===== *)
(** * CHAOSArmTLB

    The injector that [TLB::lookup] calls on a hit (arch/arm/CHAOSArmTLB): it corrupts the
    page frame, a permission, attribute or tag field of the entry that was hit, with a parity
    model that catches single-bit faults of the frame.  It implements the [TlbHook] interface
    of ArmTLB.v, so the TLB keeps its invariant under it.  The theorems: the exact effect of
    a call, and that under parity no lookup returns a frame with one wrong bit, so that a
    one-bit fault of the frame never changes a translation. *)

From Stdlib Require Import ZArith Lia QArith SpecFloat.
From stdpp Require Import base sets numbers list strings.
From S2P Require Import Prelude Word Random EventQueue AttackLoop HookGate AssocCache ArmTLB.

Open Scope Z_scope.

Record tlb_inj := TlbInj {
  ti_gate : gate_params;              (* probability, firstClock, lastClock as ticks, maxFaults *)
  ti_type : FaultType; ti_mask : Z; ti_bits : Z;
  ti_field : string; ti_offset : Z; ti_select : string;
  ti_parity : bool;                   (* protection_model == ParityInterleaved *)
  ti_log : bool
}.

(** The distribution of the constructors of the hook injectors: every fault type has a
    positive weight. *)
Definition hook_weights : list spec_float := [f32_0_9; f32_0_05; f32_0_05].

(** [protectionModel == "parity_interleaved"] *)
Definition parity_model (s : string) : bool := String.eqb s "parity_interleaved".

Section CHAOSArmTLB.
Context {R : Type} {RP : ReplacementPolicy R} (p : tlb_inj) (now : Z).

(** [fault_mask ? (fault_mask & wide) : (1u << d(rng))], [d] uniform up to [hi]. *)
Definition field_mask (wide hi : Z) (g : engine) : Z * engine :=
  if negb (ti_mask p =? 0) then (Z.land (ti_mask p) wide, g)
  else let r := uniform_int 0 hi g in (Z.shiftl 1 r.1, r.2).

Definition tlb_applyProtectionModel (i : nat) (old_pfn new_pfn : Z) : M (tlb R) bool :=
  if negb (ti_parity p) then ret true
  else
    let bits := popcount (Z.lxor old_pfn new_pfn) in
    if bits =? 1 then
      do! bump numParityDetectedInvalidated in
      do! log_if (ti_log p) (Entry "DetectedInvalidated" [("bits", 1)]) in
      do! modify (on_te i (set_pfn old_pfn)) in
      do! modify (on_te i (set_valid false)) in
      ret false
    else
      do! bump numParitySilentEscape in
      do! log_if (ti_log p) (Entry "SilentEscape" [("bits", bits)]) in
      ret true.

(** The frames of the other valid entries of the same page size, in table order. *)
Definition donors (t : tlb R) (self : nat) (self_size : Z) : list (Z * Z) :=
  omap (fun j => match te_at t j with
                 | Some e => if te_valid e && negb (Nat.eqb j self) && (te_size e =? self_size)
                             then Some (te_pfn e, te_size e) else None
                 | None => None
                 end) (seq 0 (length (tl_table t))).

Definition pickMappedPagePfn (self : nat) (self_size : Z) : M (tlb R) (option (Z * Z)) :=
  let! t := get in
  match donors t self self_size with
  | [] => ret None
  | l =>
      let! n := with_rng (uniform_int 0 (Z.of_nat (length l) - 1)) in
      ret (l !! Z.to_nat n)
  end.

(** The entry is changed, the fault counted and logged. *)
Definition field_fault (i : nat) (f : TlbEntry -> TlbEntry) (mode : string) (va : Z) : M (tlb R) unit :=
  do! modify (on_te i f) in
  do! bump numFaultsInjected in
  do! incr_count in
  log_if (ti_log p) (Entry mode [("tick", now); ("va", va)]).

(** A fault of the page frame, followed by the protection model. *)
Definition pfn_fault (i : nat) (old_pfn new_pfn : Z) (mode : string) (va : Z) : M (tlb R) unit :=
  do! field_fault i (set_pfn new_pfn) mode va in
  do! tlb_applyProtectionModel i old_pfn new_pfn in
  skip.

(** The part of [maybeCorrupt] after the gate, on the entry [e] at [i]. *)
Definition corrupt_entry (i : nat) (e : TlbEntry) (va : Z) : M (tlb R) unit :=
  if String.eqb (ti_select p) "mapped_page" && String.eqb (ti_field p) "pfn" then
    let! d := pickMappedPagePfn i (te_size e) in
    match d with
    | None => skip
    | Some donor => pfn_fault i (te_pfn e) donor.1 "pfn_to_mapped_page" va
    end
  else if negb (ti_offset p =? 0) && String.eqb (ti_field p) "pfn" then
    pfn_fault i (te_pfn e) (u64 (te_pfn e + ti_offset p)) "pfn_to_offset" va
  else if String.eqb (ti_field p) "ap" then
    let! m := with_rng (field_mask 0xff 2) in
    field_fault i (set_ap (Z.lxor (te_ap e) m)) "field_ap" va
  else if String.eqb (ti_field p) "xn" then
    field_fault i (set_xn (negb (te_xn e))) "field_xn" va
  else if String.eqb (ti_field p) "attridx" then
    let! m := with_rng (field_mask 0xff 7) in
    field_fault i (set_innerAttrs (Z.lxor (te_innerAttrs e) m)) "field_attridx" va
  else if String.eqb (ti_field p) "ng" then
    field_fault i (set_vmid (Z.lxor (te_vmid e) 1)) "field_ng" va
  else if String.eqb (ti_field p) "asid" then
    let! m := with_rng (field_mask 0xffff 15) in
    field_fault i (set_asid (Z.lxor (te_asid e) m)) "field_asid" va
  else
    let! chosen := with_rng (choose_fault (ti_type p) hook_weights) in
    let! mask := with_rng (mask_or (ti_mask p) (random_mask (ti_bits p) 0 63)) in
    if mask =? 0 then skip
    else
      do! (match fault_stat chosen with Some k => bump k | None => skip end) in
      pfn_fault i (te_pfn e) (apply_fault chosen mask (te_pfn e)) (faultTypeToString chosen) va.

(** [CHAOSArmTLB::maybeCorrupt] on the entry at index [i]. *)
Definition tlb_maybeCorrupt (i : nat) (va : Z) : M (tlb R) unit :=
  let! b := gate (ti_gate p) now in
  if b then
    let! t := get in
    match te_at t i with
    | Some e => corrupt_entry i e va
    | None => skip
    end
  else skip.
End CHAOSArmTLB.

(** * Lemmas *)

(** ** One-bit masks *)

Lemma one_bit z : popcount z = 1 -> exists b, 0 <= b /\ z = 2 ^ b.
Proof.
  destruct z as [|q|q]; try done. cbn [popcount]. induction q as [q IH|q IH|]; cbn [pos_popcount]; intros H.
  - pose proof (proj1 (popcount_0_iff (Zpos q) ltac:(lia))) as H0. cbn [popcount] in H0. lia.
  - destruct (IH H) as (b & Hb & E). exists (b + 1). split; [lia|]. rewrite Z.pow_add_r by lia. lia.
  - by exists 0.
Qed.

(** Two words are equal if they are at bit [b] and at every other bit. *)
Ltac bitwise b v :=
  apply Z.bits_inj'; intros n Hn;
  rewrite ?Z.lxor_spec, ?Z.land_spec, ?Z.lor_spec, ?Z.lnot_spec, ?Z.bits_0, ?Z.pow2_bits_eqb by lia;
  destruct (b =? n) eqn:En; bools; [subst n|];
  repeat match goal with H : Z.testbit v b = _ |- _ => rewrite H; clear H end;
  repeat destruct (Z.testbit v _); done.

(** A fault in one bit changes that bit or nothing. *)
Lemma one_bit_fault f b v : 0 <= b ->
  Z.lxor v (apply_fault f (2 ^ b) v) = 0 \/ Z.lxor v (apply_fault f (2 ^ b) v) = 2 ^ b.
Proof.
  intros Hb. destruct f; cbn [apply_fault].
  - right. bitwise b v.
  - destruct (Z.testbit v b) eqn:E; [right|left]; bitwise b v.
  - destruct (Z.testbit v b) eqn:E; [left|right]; bitwise b v.
  - left. apply Z.lxor_nilpotent.
Qed.

Section TLBInjector.
Context {R : Type} {RP : ReplacementPolicy R} (p : tlb_inj) (now : Z).
Implicit Types (t : tlb R) (e : TlbEntry) (c : core).

(** The entry after a frame fault: under parity, one wrong bit is restored and the entry
    invalidated. *)
Definition guarded_pfn (e : TlbEntry) (new_pfn : Z) : TlbEntry :=
  if ti_parity p && (popcount (Z.lxor (te_pfn e) new_pfn) =? 1) then set_valid false e else set_pfn new_pfn e.

Definition field_mask_ok (wide hi m : Z) : Prop :=
  (ti_mask p <> 0 /\ m = Z.land (ti_mask p) wide) \/
  (ti_mask p = 0 /\ exists b, 0 <= b <= hi /\ m = Z.shiftl 1 b).

Definition plain_pfn : Prop :=
  (ti_field p ∉ ["ap"; "xn"; "attridx"; "ng"; "asid"]) /\
  (ti_field p = "pfn" -> ti_select p <> "mapped_page" /\ ti_offset p = 0).

(** What a call can make of the entry [e] at [i]. *)
Inductive tlb_fault (t : tlb R) (i : nat) (e : TlbEntry) : TlbEntry -> Prop :=
  | fault_mapped j d :
      ti_select p = "mapped_page" -> ti_field p = "pfn" -> j <> i ->
      te_at t j = Some d -> te_valid d = true -> te_size d = te_size e ->
      tlb_fault t i e (guarded_pfn e (te_pfn d))
  | fault_offset :
      ti_select p <> "mapped_page" -> ti_field p = "pfn" -> ti_offset p <> 0 ->
      tlb_fault t i e (guarded_pfn e (u64 (te_pfn e + ti_offset p)))
  | fault_ap m : ti_field p = "ap" -> field_mask_ok 0xff 2 m -> tlb_fault t i e (set_ap (Z.lxor (te_ap e) m) e)
  | fault_xn : ti_field p = "xn" -> tlb_fault t i e (set_xn (negb (te_xn e)) e)
  | fault_attridx m :
      ti_field p = "attridx" -> field_mask_ok 0xff 7 m ->
      tlb_fault t i e (set_innerAttrs (Z.lxor (te_innerAttrs e) m) e)
  | fault_ng : ti_field p = "ng" -> tlb_fault t i e (set_vmid (Z.lxor (te_vmid e) 1) e)
  | fault_asid m :
      ti_field p = "asid" -> field_mask_ok 0xffff 15 m -> tlb_fault t i e (set_asid (Z.lxor (te_asid e) m) e)
  | fault_pfn f mask :
      plain_pfn -> f <> Random -> (ti_type p <> Random -> f = ti_type p) ->
      mask <> 0 -> (ti_mask p <> 0 -> mask = ti_mask p) ->
      (ti_mask p = 0 -> uint 64 mask /\ popcount mask <= ti_bits p) ->
      tlb_fault t i e (guarded_pfn e (apply_fault f mask (te_pfn e))).

(** The two reasons to decline after the gate: no other page to point to, no bit to change. *)
Definition declines (t : tlb R) (i : nat) (e : TlbEntry) : Prop :=
  (ti_select p = "mapped_page" /\ ti_field p = "pfn" /\
   forall j d, j <> i -> te_at t j = Some d -> te_valid d = true -> te_size d <> te_size e) \/
  (plain_pfn /\ ti_mask p = 0 /\ ti_bits p <= 0).

Definition tlb_effect (i : nat) (e : TlbEntry) (s : core * tlb R) (r : unit * (core * tlb R)) : Prop :=
  (r.2.2 = s.2 /\ count_of r.2 = count_of s /\
   ((gate (ti_gate p) now s).1 = true -> declines s.2 i e)) \/
  (exists e', tlb_fault s.2 i e e' /\ r.2.2 = on_te i (fun _ => e') s.2 /\
     count_of r.2 = count_succ (count_of s) /\ (gate (ti_gate p) now s).1 = true /\
     in_window (g_first (ti_gate p)) (g_last (ti_gate p)) now = true /\
     cap_reached (g_max (ti_gate p)) (count_of s) = false).

Lemma on_te_twice i f g t : on_te i f (on_te i g t) = on_te i (f ∘ g) t.
Proof. unfold on_te, set_table, on_entry. cbn. f_equal. by rewrite list_alter_alter_eq. Qed.

Lemma on_te_id i t : on_te i id t = t.
Proof.
  destruct t as [cf tb pr vm ob st]. unfold on_te, on_entry, set_table. cbn. f_equal. apply list_alter_id. by intros [].
Qed.

Lemma on_te_const i f e t : te_at t i = Some e -> on_te i f t = on_te i (fun _ => f e) t.
Proof.
  unfold te_at, entry_at. intros He. unfold on_te, on_entry. f_equal. apply list_alter_ext; [|done].
  intros x Hx. rewrite Hx in He. cbn in He. congruence.
Qed.

(** The runs of the two kinds of fault. *)
Definition ran (i : nat) (e' : TlbEntry) (n : Z) (t : tlb R) (r : unit * (core * tlb R)) : Prop :=
  r.2.2 = on_te i (fun _ => e') t /\ count_of r.2 = count_succ n.

Lemma field_fault_run i f mode va e c t :
  te_at t i = Some e -> ran i (f e) (faults_injected_count c) t (field_fault p now i f mode va (c, t)).
Proof.
  intros He. unfold field_fault. destruct c as [g n st lg]. exec. split; [by apply on_te_const|done].
Qed.

Lemma pfn_fault_run i new mode va e c t :
  te_at t i = Some e -> ran i (guarded_pfn e new) (faults_injected_count c) t (pfn_fault p now i (te_pfn e) new mode va (c, t)).
Proof.
  intros He. unfold pfn_fault, bind at 1.
  pose proof (field_fault_run i (set_pfn new) mode va e c t He) as [H1 H2].
  destruct (field_fault _ _ _ _ _ _ _) as [[] [[g n st lg] t1]]. cbn [fst snd] in *. subst t1.
  unfold count_of in H2. cbn in H2. subst n.
  unfold tlb_applyProtectionModel, guarded_pfn. destruct (ti_parity p); cbn [negb andb]; [|by split].
  destruct (_ =? 1) eqn:Eb.
  - exec. rewrite !on_te_twice. split; [|done]. cbn [snd]. by rewrite (on_te_const i _ e).
  - exec. by split.
Qed.

Lemma field_mask_spec wide hi g : 0 <= hi -> field_mask_ok wide hi (field_mask p wide hi g).1.
Proof.
  intros Hh. unfold field_mask, field_mask_ok. destruct (ti_mask p =? 0) eqn:E; bools; cbn [negb fst].
  - right. split; [done|]. eexists. split; [|done]. by apply uniform_int_range.
  - by left.
Qed.

Lemma donors_spec t i sz pf s :
  (pf, s) ∈ donors t i sz <->
  exists j d, j <> i /\ te_at t j = Some d /\ te_valid d = true /\ te_size d = sz /\ pf = te_pfn d /\ s = te_size d.
Proof.
  unfold donors. rewrite list_elem_of_omap. split.
  - intros (j & _ & Hj). destruct (te_at t j) as [d|] eqn:E; [|done].
    destruct (te_valid d && _ && _) eqn:Eb; [|done]. injection Hj as <- <-. bools. exists j, d.
    split_and!; try done. intros ->. by rewrite Nat.eqb_refl in *.
  - intros (j & d & Hne & Hd & Hv & Hs & -> & ->). exists j. split.
    + apply elem_of_seq. split; [lia|]. apply entry_at_is_Some. unfold te_at in Hd. by rewrite Hd.
    + rewrite Hd, Hv, Hs, Z.eqb_refl. apply Nat.eqb_neq in Hne. by rewrite Hne.
Qed.

Lemma plain_pfn_intro :
  String.eqb (ti_select p) "mapped_page" && String.eqb (ti_field p) "pfn" = false ->
  negb (ti_offset p =? 0) && String.eqb (ti_field p) "pfn" = false ->
  String.eqb (ti_field p) "ap" = false -> String.eqb (ti_field p) "xn" = false ->
  String.eqb (ti_field p) "attridx" = false -> String.eqb (ti_field p) "ng" = false ->
  String.eqb (ti_field p) "asid" = false -> plain_pfn.
Proof.
  intros H1 H2 H3 H4 H5 H6 H7. apply String.eqb_neq in H3, H4, H5, H6, H7. split; [set_solver|].
  intros Hf. rewrite Hf, String.eqb_refl, andb_true_r in H1, H2. apply String.eqb_neq in H1. by bools.
Qed.

Lemma hook_choose f g :
  (choose_fault f hook_weights g).1 <> Random /\ (f <> Random -> (choose_fault f hook_weights g).1 = f).
Proof.
  split; [|by destruct f]. 
  assert (hook_weights = fault_weights f32_0_9 f32_0_05 f32_0_05) as -> by by vm_compute.
  apply choose_fault_not_random.
Qed.

(** What a call does once the gate is open. *)
Definition after_gate (i : nat) (e : TlbEntry) (c : core) (t : tlb R) (r : unit * (core * tlb R)) : Prop :=
  (r.2.2 = t /\ count_of r.2 = faults_injected_count c /\ declines t i e) \/
  (exists e', tlb_fault t i e e' /\ ran i e' (faults_injected_count c) t r).

Lemma corrupt_mapped i e va c t :
  ti_select p = "mapped_page" -> ti_field p = "pfn" -> te_at t i = Some e ->
  after_gate i e c t ((let! d := pickMappedPagePfn i (te_size e) in
    match d with
    | None => skip
    | Some donor => pfn_fault p now i (te_pfn e) donor.1 "pfn_to_mapped_page" va
    end) (c, t)).
Proof.
  intros Hs Hf He. unfold pickMappedPagePfn, bind, get. cbn [fst snd].
  pose proof (donors_spec t i (te_size e)) as Hd. destruct (donors t i (te_size e)) as [|d0 ds] eqn:El.
  - left. split; [done|]. split; [done|]. left. split; [done|]. split; [done|]. intros j d Hj Hat Hv Hsz.
    assert ((te_pfn d, te_size d) ∈ ([] : list (Z * Z))) as Hin by (apply Hd; by exists j, d).
    by apply not_elem_of_nil in Hin.
  - right. destruct c as [g n st lg]. cbn [with_rng fst snd rng faults_injected_count the_stats the_log].
    pose proof (uniform_int_range 0 (Z.of_nat (length (d0 :: ds)) - 1) g ltac:(cbn; lia)) as Hr.
    destruct (uniform_int _ _ g) as [k g1]. cbn [fst snd] in *.
    destruct (lookup_lt_is_Some_2 (d0 :: ds) (Z.to_nat k)) as [[pf sz] Hk]; [lia|]. rewrite Hk. unfold ret. cbn [fst snd].
    apply list_elem_of_lookup_2, Hd in Hk as (j & d & Hj & Hat & Hv & Hsz & -> & ->).
    exists (guarded_pfn e (te_pfn d)). split; [by eapply fault_mapped|].
    apply (pfn_fault_run i (te_pfn d) "pfn_to_mapped_page" va e (Core g1 n st lg) t He).
Qed.

Lemma mask_or_zero g :
  (mask_or (ti_mask p) (random_mask (ti_bits p) 0 63) g).1 = 0 -> ti_mask p = 0 /\ ti_bits p <= 0.
Proof.
  unfold mask_or. destruct (ti_mask p =? 0) eqn:E; bools; cbn [negb fst]; [|done]. unfold random_mask. intros H.
  split; [done|]. destruct (Z.le_gt_cases (ti_bits p) 0); [done|].
  exfalso. revert H. apply or_random_bits_nonzero; lia.
Qed.

Lemma mask_or_drawn g :
  let m := (mask_or (ti_mask p) (random_mask (ti_bits p) 0 63) g).1 in
  m <> 0 -> ti_mask p = 0 -> uint 64 m /\ popcount m <= ti_bits p.
Proof.
  cbn zeta. intros Hm E. unfold mask_or in *. rewrite E in *. change (negb (0 =? 0)) with false in *. cbn iota in *.
  destruct (random_mask_range (ti_bits p) 0 63 g) as (H1 & _ & H3); [lia|]. split; [exact H1|].
  destruct (Z.le_gt_cases (ti_bits p) 0); [|lia]. exfalso. apply Hm. unfold random_mask. by rewrite Z2Nat.nonpos.
Qed.

Lemma corrupt_plain i e va c t :
  plain_pfn -> te_at t i = Some e ->
  after_gate i e c t ((let! chosen := with_rng (choose_fault (ti_type p) hook_weights) in
    let! mask := with_rng (mask_or (ti_mask p) (random_mask (ti_bits p) 0 63)) in
    if mask =? 0 then skip
    else
      do! (match fault_stat chosen with Some k => bump k | None => skip end) in
      pfn_fault p now i (te_pfn e) (apply_fault chosen mask (te_pfn e)) (faultTypeToString chosen) va) (c, t)).
Proof.
  intros Hp He. destruct c as [g n st lg]. unfold bind at 1 2.
  cbn [with_rng fst snd rng faults_injected_count the_stats the_log].
  destruct (hook_choose (ti_type p) g) as [Hf1 Hf2].
  destruct (choose_fault (ti_type p) hook_weights g) as [f g1]. cbn [fst snd rng] in *.
  pose proof (mask_or_zero g1) as Hz.
  assert (ti_mask p <> 0 -> (mask_or (ti_mask p) (random_mask (ti_bits p) 0 63) g1).1 = ti_mask p) as Hm.
  { intros H. unfold mask_or. apply Z.eqb_neq in H. by rewrite H. }
  pose proof (mask_or_drawn g1) as Hd. destruct (mask_or _ _ g1) as [mask g2]. cbn [fst snd] in *.
  destruct (mask =? 0) eqn:E; bools.
  - left. split; [done|]. split; [done|]. right. split; [done|]. by apply Hz.
  - right. exists (guarded_pfn e (apply_fault f mask (te_pfn e))). split; [apply fault_pfn; try done; by apply Hd|].
    unfold bind at 1. destruct f; try done; cbn [fault_stat bump fst snd];
      apply (pfn_fault_run i _ _ va e (Core g2 n _ lg) t He).
Qed.

Lemma corrupt_field i e e' f mode va c t :
  te_at t i = Some e -> tlb_fault t i e e' -> e' = f e -> after_gate i e c t (field_fault p now i f mode va (c, t)).
Proof. intros He Hf ->. right. exists (f e). split; [done|]. by apply field_fault_run. Qed.

Lemma corrupt_masked i e wide hi (f : Z -> TlbEntry -> TlbEntry) mode va c t :
  0 <= hi -> te_at t i = Some e -> (forall m, field_mask_ok wide hi m -> tlb_fault t i e (f m e)) ->
  after_gate i e c t ((let! m := with_rng (field_mask p wide hi) in field_fault p now i (f m) mode va) (c, t)).
Proof.
  intros Hh He Hf. destruct c as [g n st lg]. unfold bind. cbn [with_rng fst snd rng faults_injected_count the_stats the_log].
  pose proof (field_mask_spec wide hi g Hh) as Hm. destruct (field_mask p wide hi g) as [m g1]. cbn [fst snd] in *.
  right. exists (f m e). split; [by apply Hf|].
  apply (field_fault_run i (f m) mode va e (Core g1 n st lg) t He).
Qed.

Lemma corrupt_entry_effect i e va c t :
  te_at t i = Some e -> after_gate i e c t (corrupt_entry p now i e va (c, t)).
Proof.
  intros He. unfold corrupt_entry.
  destruct (String.eqb (ti_select p) "mapped_page" && String.eqb (ti_field p) "pfn") eqn:E1.
  { bools. apply corrupt_mapped; [by apply String.eqb_eq..|done]. }
  destruct (negb (ti_offset p =? 0) && String.eqb (ti_field p) "pfn") eqn:E2.
  { bools. match goal with H : String.eqb _ "pfn" = true |- _ => rewrite H, andb_true_r in E1; apply String.eqb_eq in H end.
    apply String.eqb_neq in E1. right. eexists. split; [by apply fault_offset|]. by apply pfn_fault_run. }
  destruct (String.eqb (ti_field p) "ap") eqn:E3.
  { apply corrupt_masked; [lia|done|]. intros m Hm. apply fault_ap; [by apply String.eqb_eq|done]. }
  destruct (String.eqb (ti_field p) "xn") eqn:E4.
  { eapply corrupt_field; [done|apply fault_xn; by apply String.eqb_eq|done]. }
  destruct (String.eqb (ti_field p) "attridx") eqn:E5.
  { apply corrupt_masked; [lia|done|]. intros m Hm. apply fault_attridx; [by apply String.eqb_eq|done]. }
  destruct (String.eqb (ti_field p) "ng") eqn:E6.
  { eapply corrupt_field; [done|apply fault_ng; by apply String.eqb_eq|done]. }
  destruct (String.eqb (ti_field p) "asid") eqn:E7.
  { apply corrupt_masked; [lia|done|]. intros m Hm. apply fault_asid; [by apply String.eqb_eq|done]. }
  apply corrupt_plain; [by apply plain_pfn_intro|done].
Qed.

Lemma tlb_maybeCorrupt_effect i va e s :
  te_at s.2 i = Some e -> tlb_effect i e s (tlb_maybeCorrupt p now i va s).
Proof.
  intros He. unfold tlb_maybeCorrupt, bind at 1.
  destruct (gate_spec (ti_gate p) now s) as (b & g & Hg & _ & Hb). rewrite Hg. unfold tlb_effect. rewrite Hg. cbn [fst snd].
  destruct b; [|left; by split]. destruct (Hb eq_refl) as [Hw Hcap]. unfold bind, get. cbn [fst snd]. rewrite He.
  destruct (corrupt_entry_effect i e va (Core g (count_of s) (the_stats s.1) (the_log s.1)) s.2 He)
    as [(H1 & H2 & H3)|(e' & Hf & H1 & H2)]; [by left|right]. by exists e'.
Qed.

(** The exact effect of a TLB fault on the entry of a hit: a call changes nothing and
    counts nothing unless its gate opens; once open, it injects unless there is no other
    mapped page to point to or no bit to change; an injection is counted once, inside the
    window and below the cap, and replaces exactly the entry of the hit by the one the
    configured field, mask and mode describe, with a single wrong frame bit restored and the
    entry invalidated under parity. *)
Theorem tlb_fault_effect i va e c t :
  te_at t i = Some e -> tlb_effect i e (c, t) (tlb_maybeCorrupt p now i va (c, t)).
Proof. intros He. by apply tlb_maybeCorrupt_effect. Qed.

Lemma guarded_pfn_page new e : same_page e (guarded_pfn e new).
Proof. unfold guarded_pfn. by destruct (_ && _). Qed.

Lemma tlb_fault_page t i e e' : tlb_fault t i e e' -> same_page e e'.
Proof. destruct 1; try done; apply guarded_pfn_page. Qed.

(** The hook keeps the promise the TLB asks for. *)
#[global] Instance tlb_maybeCorrupt_hook : TlbHook (R := R) (tlb_maybeCorrupt p now).
Proof.
  intros i va s. destruct (te_at s.2 i) as [e|] eqn:He.
  - destruct (tlb_maybeCorrupt_effect i va e s He) as [(H & _)|(e' & Hf & H & _)].
    + exists id. split; [done|]. by rewrite H, on_te_id.
    + exists (fun _ => e'). split; [|done]. intros e0 [= <-]. by eapply tlb_fault_page.
  - exists id. split; [done|]. unfold tlb_maybeCorrupt, bind at 1.
    destruct (gate_spec (ti_gate p) now s) as (b & g & -> & _). cbn [fst snd].
    rewrite on_te_id. destruct b; [|done]. unfold bind, get. cbn [fst snd]. by rewrite He.
Qed.

#[global] Instance tlb_maybeCorrupt_capped i va : CappedHook (X := tlb R) (g_max (ti_gate p)) (tlb_maybeCorrupt p now i va).
Proof.
  intros s. destruct (te_at s.2 i) as [e|] eqn:He.
  - destruct (tlb_maybeCorrupt_effect i va e s He) as [(_ & H & _)|(e' & _ & _ & H & _ & _ & Hc)]; [by left|by right].
  - left. unfold tlb_maybeCorrupt, bind at 1. destruct (gate_spec (ti_gate p) now s) as (b & g & -> & _). cbn [fst snd].
    destruct b; [|done]. unfold bind, get. cbn [fst snd]. by rewrite He.
Qed.

(** Under parity, a fault within one bit of the frame leaves the frame as it was. *)
Lemma guarded_pfn_one_bit f mask e :
  ti_parity p = true -> popcount mask = 1 ->
  te_pfn (guarded_pfn e (apply_fault f mask (te_pfn e))) = te_pfn e.
Proof.
  intros Hpar Hm. unfold guarded_pfn. rewrite Hpar. cbn [andb]. destruct (_ =? 1) eqn:E; [done|]. bools.
  cbn [te_pfn set_pfn].
  assert (Z.lxor (te_pfn e) (apply_fault f mask (te_pfn e)) = 0 \/
          Z.lxor (te_pfn e) (apply_fault f mask (te_pfn e)) = mask) as [H|H].
  { destruct (one_bit mask Hm) as (b & Hb & ->). by apply one_bit_fault. }
  - by apply Z.lxor_eq in H.
  - congruence.
Qed.

(** The bit fault of the frame is in one bit: the configured mask, or a draw of one. *)
Definition one_bit_mask : Prop := popcount (ti_mask p) = 1 \/ (ti_mask p = 0 /\ ti_bits p <= 1).

Lemma tlb_fault_one_bit t i e e' :
  ti_parity p = true -> (ti_field p = "pfn" -> ti_select p <> "mapped_page" /\ ti_offset p = 0) -> one_bit_mask ->
  tlb_fault t i e e' -> te_pfn e' = te_pfn e.
Proof.
  intros Hpar Hs Hm. destruct 1 as [| | | | | | |f mask _ _ _ Hne Hmask Hdraw]; try done.
  - exfalso. naive_solver.
  - exfalso. naive_solver.
  - apply guarded_pfn_one_bit; [done|]. destruct Hm as [Hm|[H0 Hb]].
    + rewrite Hmask; [done|]. intros H. by rewrite H in Hm.
    + destruct (Hdraw H0) as [[Hu _] Hp]. pose proof (popcount_nonneg mask).
      destruct (Z.eq_dec (popcount mask) 0) as [E|]; [|lia]. exfalso. apply Hne. by apply popcount_0_iff.
Qed.

(** In every mode, parity lets no frame with a single wrong bit pass. *)
Lemma tlb_fault_not_one t i e e' :
  ti_parity p = true -> tlb_fault t i e e' -> popcount (Z.lxor (te_pfn e) (te_pfn e')) <> 1.
Proof.
  intros Hpar Hf.
  assert (forall n, popcount (Z.lxor (te_pfn e) (te_pfn (guarded_pfn e n))) <> 1) as Hg.
  { intros n. unfold guarded_pfn. rewrite Hpar. cbn [andb]. destruct (_ =? 1) eqn:E; bools; [|done].
    cbn [te_pfn set_valid]. by rewrite Z.lxor_nilpotent. }
  destruct Hf; try apply Hg; cbn; by rewrite Z.lxor_nilpotent.
Qed.

(** C39 What parity hides.  With the parity model, in every mode of the injector and for
    every draw, the entry a lookup returns has the page it had before the lookup and a frame
    that does not differ from the one before in exactly one bit.  If the frame is not
    replaced by a mapped page or an offset (pfnSelectMode, pfnOffset), and the mask has one
    bit, configured or drawn with bitsToChange at most 1, the entry translates every address
    as before the lookup. *)
Theorem parity_hides_one_bit k c t i e :
  ti_parity p = true ->
  let r := lookup (Some (tlb_maybeCorrupt p now)) now k (c, t) in
  r.1 = Some i -> te_at t i = Some e ->
  exists e', te_at r.2.2 i = Some e' /\ same_page e e' /\ popcount (Z.lxor (te_pfn e) (te_pfn e')) <> 1 /\
    ((ti_field p = "pfn" -> ti_select p <> "mapped_page" /\ ti_offset p = 0) -> one_bit_mask ->
     forall va, pAddr e' va = pAddr e va).
Proof.
  intros Hpar r. unfold r. rewrite lookup_run. cbn [fst]. intros Hi He.
  destruct (lookup_sizes_spec now k (observedPageSizes t) t) as [_ Hs].
  destruct (lookup_sizes _ _ _ t) as [r0 t1]. cbn [fst snd] in *. subst r0. cbn [call_hook].
  rewrite <- (se_at _ _ Hs) in He. set (s2 := (tlb_maybeCorrupt p now i (k_va k) (c, t1)).2).
  assert (exists e', te_at s2.2 i = Some e' /\ (e' = e \/ tlb_fault t1 i e e')) as (e' & He' & Hf).
  { destruct (tlb_maybeCorrupt_effect i (k_va k) e (c, t1) He) as [(H & _)|(e' & Hf & H & _)]; unfold s2; rewrite H.
    - exists e. split; [done|by left].
    - exists e'. rewrite te_at_on_te, decide_True by done. cbn [snd]. rewrite He. split; [done|by right]. }
  exists e'. split.
  { destruct (k_functional k); [done|]. cbn [snd]. by rewrite (se_at _ _ (count_lookup_same k (Some i) s2.2)). }
  destruct Hf as [->|Hf]; [by rewrite Z.lxor_nilpotent|].
  split; [by eapply tlb_fault_page|]. split; [by eapply tlb_fault_not_one|]. intros Hmode Hm va.
  destruct (tlb_fault_page _ _ _ _ Hf) as (_ & HN & Hsz & _). unfold pAddr.
  by rewrite HN, Hsz, (tlb_fault_one_bit _ _ _ _ Hpar Hmode Hm Hf).
Qed.
End TLBInjector.

(** ** Examples *)

Module TlbExample.
Import ArmTLB.Example.

(** Every hit is hit, and bit 4 of the frame flipped. *)
Definition inj (mask : Z) (parity : bool) : tlb_inj :=
  TlbInj (GateParams 1 0 0 0) BitFlip mask 1 "pfn" 0 "bit_flip" parity true.

Lemma tlb_fault_effect_witness :
  tlb_effect (inj 16 true) 9 2 page2m (core0, t1) (tlb_maybeCorrupt (inj 16 true) 9 2 0xa03010 (core0, t1)).
Proof. apply tlb_fault_effect. vm_compute. reflexivity. Defined.

(** A lookup whose bit fault parity catches, and one whose offset fault of one bit it catches. *)
Lemma parity_hides_one_bit_witness :
  (exists e', te_at (lookup (Some (tlb_maybeCorrupt (inj 16 true) 9)) 9 (key_at 0xa03010 Read) (core0, t1)).2.2 2 = Some e' /\
    forall va, pAddr e' va = pAddr page2m va) /\
  let p := TlbInj (GateParams 1 0 0 0) BitFlip 0 1 "pfn" 8 "bit_flip" true true in
  exists e', te_at (lookup (Some (tlb_maybeCorrupt p 9)) 9 (key_at 0xa03010 Read) (core0, t1)).2.2 2 = Some e' /\
    popcount (Z.lxor (te_pfn page2m) (te_pfn e')) <> 1.
Proof.
  split.
  - destruct (parity_hides_one_bit (inj 16 true) 9 (key_at 0xa03010 Read) core0 t1 2 page2m eq_refl)
      as (e' & He & _ & _ & H); [vm_compute; reflexivity..|].
    exists e'. split; [exact He|]. by apply H; [|left].
  - intros p. destruct (parity_hides_one_bit p 9 (key_at 0xa03010 Read) core0 t1 2 page2m eq_refl)
      as (e' & He & _ & H & _); [vm_compute; reflexivity..|]. by exists e'.
Defined.

(** Two bits escape: the lookup returns the entry of another frame. *)
Lemma two_bits_escape :
  te_at (lookup (Some (tlb_maybeCorrupt (inj 48 true) 9)) 9 (key_at 0xa03010 Read) (core0, t1)).2.2 2 =
    Some (set_pfn 71 page2m).
Proof. vm_compute. reflexivity. Qed.

(** A stuck-at fault that changes no bit is counted as an escape. *)
Lemma no_change_counted_as_escape :
  let p := TlbInj (GateParams 1 0 0 0) StuckAtOne 16 1 "pfn" 0 "bit_flip" true true in
  let r := tlb_maybeCorrupt p 9 2 0xa03010 (core0, t1) in
  te_at r.2.2 2 = Some page2m /\ the_stats r.2.1 numParitySilentEscape = 1.
Proof. split; vm_compute; reflexivity. Qed.
End TlbExample.
