(* ===== verification/PageTable.v ===== *)
(** * Arm page tables

    The bit fields (base/bitfield.hh), the translation granules (arch/arm/pagetable.cc) and
    the long descriptors (arch/arm/table_walker.hh) that an AArch64 walk reads.  The lemmas
    give each field its arithmetic meaning: a level translates the [stride] bits from [lo] on,
    a leaf covers the [lo] bits below, and an address of a table entry is the base plus eight
    times the index. *)

From Stdlib Require Import ZArith Lia.
From stdpp Require Import base numbers list.
From S2P Require Import Prelude Word AssocCache ArmTLB.

Open Scope Z_scope.

(** ** Bit fields *)

(** [mask(n)], [bits(v, hi, lo)], [mbits(v, hi, lo)] of base/bitfield.hh. *)
Definition mask_bits (n : Z) : Z := Z.ones n.
Definition bits (v hi lo : Z) : Z := Z.land (Z.shiftr v lo) (mask_bits (hi - lo + 1)).
Definition bit (v i : Z) : bool := Z.testbit v i.
Definition mbits (v hi lo : Z) : Z := Z.land v (Z.land (mask_bits (hi + 1)) (Z.lnot (mask_bits lo))).

(** ** Translation granules: [PageTableOps] *)

Definition walkBits4k (level : Z) : Z :=
  if level =? 0 then 39 else if level =? 1 then 30 else if level =? 2 then 21 else 12.
Definition walkBits16k (level : Z) : Z :=
  if level =? 0 then 47 else if level =? 1 then 36 else if level =? 2 then 25 else 14.
Definition walkBits64k (level : Z) : Z :=
  if level =? 1 then 42 else if level =? 2 then 29 else 16.

(** [index], with the lowest bit of the field given by the cases of [walkBits]. *)
Definition index4k (va level tsz : Z) : Z :=
  let top := if level =? 0 then 47 else if level =? 1 then 38 else if level =? 2 then 29 else 20 in
  Z.shiftl (bits va (Z.min top (tsz - 1)) (walkBits4k level)) 3.
Definition index16k (va level tsz : Z) : Z :=
  let top := if level =? 0 then 47 else if level =? 1 then 46 else if level =? 2 then 35 else 24 in
  Z.shiftl (bits va (Z.min top (tsz - 1)) (walkBits16k level)) 3.
Definition index64k (va level tsz : Z) : Z :=
  let top := if level =? 1 then 47 else if level =? 2 then 41 else 28 in
  Z.shiftl (bits va (Z.min top (tsz - 1)) (walkBits64k level)) 3.

Definition within (a b txsz : Z) : bool := (a <=? txsz) && (txsz <=? b).

(** [None] is the panic on an unsupported size. *)
Definition firstLevel4k (txsz : Z) : option Z :=
  if within 16 24 txsz then Some 0 else if within 25 33 txsz then Some 1 else if within 34 39 txsz then Some 2 else None.
Definition firstLevel16k (txsz : Z) : option Z :=
  if txsz =? 16 then Some 0 else if within 17 27 txsz then Some 1 else if within 28 38 txsz then Some 2
  else if txsz =? 39 then Some 3 else None.
Definition firstLevel64k (txsz : Z) : option Z :=
  if within 12 21 txsz then Some 1 else if within 22 34 txsz then Some 2 else if within 35 39 txsz then Some 3 else None.

Definition firstS2Level4k (sl0 : Z) : option Z :=
  if sl0 =? 0 then Some 2 else if sl0 =? 1 then Some 1 else if sl0 =? 2 then Some 0
  else if sl0 =? 3 then Some 3 else None.
Definition firstS2Level16k (sl0 : Z) : option Z :=
  if sl0 =? 0 then Some 3 else if sl0 =? 1 then Some 2 else if sl0 =? 2 then Some 1 else None.
Definition firstS2Level64k (sl0 : Z) : option Z :=
  if sl0 =? 0 then Some 3 else if sl0 =? 1 then Some 2 else if sl0 =? 2 then Some 1 else None.

(** [getPageTableOps]: the operations of a granule; there are none for the reserved one. *)
Definition walkBits (g : GrainSize) : Z -> Z :=
  match g with Grain4KB => walkBits4k | Grain16KB => walkBits16k | _ => walkBits64k end.
Definition ops_index (g : GrainSize) : Z -> Z -> Z -> Z :=
  match g with Grain4KB => index4k | Grain16KB => index16k | _ => index64k end.
Definition firstLevel (g : GrainSize) : Z -> option Z :=
  match g with
  | Grain4KB => firstLevel4k | Grain16KB => firstLevel16k | Grain64KB => firstLevel64k | ReservedGrain => fun _ => None
  end.
Definition firstS2Level (g : GrainSize) : Z -> option Z :=
  match g with
  | Grain4KB => firstS2Level4k | Grain16KB => firstS2Level16k | Grain64KB => firstS2Level64k | ReservedGrain => fun _ => None
  end.

(** ** Long descriptors *)

Inductive EntryType := Invalid | Table | Block | Page.

(** The members of LongDescriptor that a walk sets once: granule and the physical address
    range of the system. *)
Record desc_format := DescFormat { df_grain : GrainSize; df_range : Z }.

Section LongDescriptor.
Context (df : desc_format).

Definition desc_type (data level : Z) : EntryType :=
  match bits data 1 0 with
  | 1 =>
      match df_grain df with
      | Grain4KB => if (level =? 0) || (level =? 3) then Invalid else Block
      | Grain16KB => if level =? 2 then Block else Invalid
      | Grain64KB => if ((level =? 1) && (df_range df =? 52)) || (level =? 2) then Block else Invalid
      | ReservedGrain => Invalid
      end
  | 3 => if level =? 3 then Page else Table
  | _ => Invalid
  end.

Definition offsetBits (data level : Z) : Z :=
  match desc_type data level with
  | Block =>
      match df_grain df with
      | Grain4KB => if level =? 1 then 30 else 21
      | Grain16KB => 25
      | _ => if level =? 1 then 42 else 29
      end
  | Page => grain_bits (df_grain df)
  | _ => walkBits (df_grain df) level
  end.

(** [physAddrRange == 52 && grainSize == Grain64KB] *)
Definition lpa : bool := (df_range df =? 52) && bool_decide (df_grain df = Grain64KB).

Definition high_bits (data : Z) : Z := if lpa then Z.shiftl (bits data 15 12) 48 else 0.

Definition desc_paddr (data level : Z) : Z := Z.lor (mbits data 47 (offsetBits data level)) (high_bits data).

Definition desc_pfn (data level : Z) : Z := Z.shiftr (desc_paddr data level) (offsetBits data level).

Definition nextTableAddr (data : Z) : Z := Z.lor (mbits data 47 (grain_bits (df_grain df))) (high_bits data).

Definition nextDescAddr (data level va : Z) : Z :=
  let stride := grain_bits (df_grain df) - 3 in
  let va_lo := stride * (3 - (level + 1)) + grain_bits (df_grain df) in
  let va_hi := va_lo + stride - 1 in
  Z.lor (nextTableAddr data) (Z.shiftl (bits va va_hi va_lo) 3).
End LongDescriptor.

Definition desc_xn (d : Z) : bool := bit d 54.
Definition desc_pxn (d : Z) : bool := bit d 53.
Definition desc_af (d : Z) : bool := bit d 10.
Definition desc_fnxs (d : Z) : bool := bit d 11.
Definition desc_sh (d : Z) : Z := bits d 9 8.
Definition desc_ap (d : Z) : Z := bits d 7 6.
Definition desc_piindex (d : Z) : Z :=
  Z.b2z (bit d 54) * 8 + Z.b2z (bit d 53) * 4 + Z.b2z (bit d 51) * 2 + Z.b2z (bit d 6).
Definition desc_attrIndx (d : Z) : Z := bits d 4 2.
Definition desc_memAttr (d : Z) : Z := bits d 5 2.
Definition desc_secureTable (d : Z) : bool := negb (bit d 63).
Definition desc_rwTable (d : Z) : bool := negb (bit d 62).
Definition desc_userTable (d : Z) : bool := negb (bit d 61).
Definition desc_xnTable (d : Z) : bool := bit d 60.
Definition desc_pxnTable (d : Z) : bool := bit d 59.

(** * Lemmas *)

(** The bits of an address that a level and the levels below it leave untranslated, and the
    number of bits that a level translates. *)
Definition stride (g : GrainSize) : Z := grain_bits g - 3.
Definition lo (g : GrainSize) (level : Z) : Z := grain_bits g + stride g * (3 - level).

(** A granule and a level that the walker can meet. *)
Definition level_ok (g : GrainSize) (level : Z) : Prop :=
  g <> ReservedGrain /\ 0 <= level <= 3 /\ (g = Grain64KB -> 1 <= level).

Lemma level_cases g level : level_ok g level -> level = 0 \/ level = 1 \/ level = 2 \/ level = 3.
Proof. intros (_ & H & _). lia. Qed.

Ltac each_level H :=
  let H' := fresh in
  pose proof (level_cases _ _ H) as H'; destruct H as (? & ? & ?);
  destruct H' as [->|[->|[->| ->]]].

Lemma walkBits_lo g level : level_ok g level -> walkBits g level = lo g level.
Proof. intros H. each_level H; destruct g; try done; exfalso; naive_solver lia. Qed.

Lemma lo_range g level : level_ok g level -> 12 <= lo g level <= 47.
Proof. intros H. each_level H; destruct g; unfold lo, stride; cbn; try done; try lia; exfalso; naive_solver lia. Qed.

Lemma bits_div v hi l : 0 <= l <= hi + 1 -> bits v hi l = (v / 2 ^ l) mod 2 ^ (hi - l + 1).
Proof. intros H. unfold bits, mask_bits. rewrite Z.land_ones, Z.shiftr_div_pow2 by lia. done. Qed.

Lemma mbits_div v hi l : 0 <= l <= hi + 1 -> mbits v hi l = (v / 2 ^ l) mod 2 ^ (hi + 1 - l) * 2 ^ l.
Proof.
  intros H. rewrite <- Z.shiftl_mul_pow2, <- Z.shiftr_div_pow2, <- Z.land_ones by lia.
  unfold mbits, mask_bits. apply Z.bits_inj'. intros n Hn.
  rewrite !Z.land_spec, Z.lnot_spec by done. rewrite !Z.testbit_ones_nonneg by lia.
  destruct (Z.ltb_spec n l) as [Hl|Hl].
  - rewrite Z.shiftl_spec_low by done. by rewrite andb_false_r, andb_false_r.
  - rewrite Z.shiftl_spec, Z.land_spec, Z.shiftr_spec, Z.testbit_ones_nonneg by lia.
    replace (n - l + l) with n by lia. rewrite andb_true_r. f_equal.
    destruct (Z.ltb_spec n (hi + 1)), (Z.ltb_spec (n - l) (hi + 1 - l)); lia || done.
Qed.

Lemma lor_add a b n : 0 <= n -> 0 <= b < 2 ^ n -> Z.lor (a * 2 ^ n) b = a * 2 ^ n + b.
Proof.
  intros Hn Hb. rewrite Z.add_nocarry_lxor, Z.lxor_lor; [done|..];
    (apply Z.bits_inj'; intros k Hk; rewrite Z.land_spec, Z.bits_0, <- Z.shiftl_mul_pow2 by done;
     destruct (Z.ltb_spec k n);
     [by rewrite Z.shiftl_spec_low|]; rewrite <- (Z.mod_small b (2 ^ n)), Z.mod_pow2_bits_high by lia;
     apply andb_false_r).
Qed.

Lemma lor_add' a b n : 0 <= n -> 0 <= b < 2 ^ n -> Z.lor b (a * 2 ^ n) = b + a * 2 ^ n.
Proof. intros. rewrite Z.lor_comm, lor_add by done. lia. Qed.

Section Fields.
Context (df : desc_format).

(** The address bits of a descriptor: those from [l] up to 47 and, with 52-bit addresses, four
    more. *)
Definition frame (l d : Z) : Z :=
  (d / 2 ^ l) mod 2 ^ (48 - l) * 2 ^ l + (if lpa df then (d / 2 ^ 12) mod 2 ^ 4 * 2 ^ 48 else 0).

(** The index of a level: [stride] bits, cut at the size of the address space. *)
Definition pt_index (tsz level va : Z) : Z :=
  (va / 2 ^ lo (df_grain df) level) mod 2 ^ Z.min (stride (df_grain df)) (tsz - lo (df_grain df) level).

Lemma frame_fields l d : 0 <= l <= 48 -> Z.lor (mbits d 47 l) (high_bits df d) = frame l d.
Proof.
  intros Hl. unfold high_bits, frame. rewrite mbits_div by lia. replace (47 + 1 - l) with (48 - l) by lia.
  destruct (lpa df); [|by rewrite Z.lor_0_r, Z.add_0_r].
  rewrite Z.shiftl_mul_pow2, bits_div by lia. rewrite lor_add'; [done|lia|].
  pose proof (Z.mod_pos_bound (d / 2 ^ l) (2 ^ (48 - l)) ltac:(lia)).
  assert (2 ^ 48 = 2 ^ (48 - l) * 2 ^ l) as E by (rewrite <- Z.pow_add_r by lia; f_equal; lia).
  assert (0 < 2 ^ l) by lia. split; [nia|]. rewrite E. nia.
Qed.

Lemma nextTableAddr_frame d : nextTableAddr df d = frame (grain_bits (df_grain df)) d.
Proof. apply frame_fields. destruct (df_grain df); cbn; lia. Qed.

Lemma offsetBits_lo d level :
  level_ok (df_grain df) level -> desc_type df d level <> Invalid -> offsetBits df d level = lo (df_grain df) level.
Proof.
  intros H Ht. pose proof (walkBits_lo _ _ H) as Hw. unfold offsetBits. unfold desc_type in *.
  destruct (bits d 1 0) as [|[[]|[]|]|]; try done; destruct (level =? 3) eqn:E3.
  - apply Z.eqb_eq in E3 as ->. unfold lo. lia.
  - done.
  - apply Z.eqb_eq in E3 as ->. by destruct (df_grain df); cbn in *.
  - each_level H; destruct (df_grain df); cbn in *; try done. by destruct (df_range df =? 52).
Qed.

Lemma desc_paddr_frame d level :
  level_ok (df_grain df) level -> desc_type df d level <> Invalid ->
  desc_paddr df d level = frame (lo (df_grain df) level) d.
Proof.
  intros H Ht. unfold desc_paddr. rewrite offsetBits_lo by done. apply frame_fields.
  pose proof (lo_range _ _ H). lia.
Qed.

Lemma ops_index_spec va level tsz :
  level_ok (df_grain df) level -> lo (df_grain df) level < tsz <= 48 ->
  ops_index (df_grain df) va level tsz = 8 * pt_index tsz level va.
Proof.
  intros H Ht. assert (9 <= stride (df_grain df)) by (destruct H as (? & _); by destruct (df_grain df)).
  pose proof (lo_range _ _ H).
  assert (ops_index (df_grain df) va level tsz =
    Z.shiftl (bits va (Z.min (lo (df_grain df) level + stride (df_grain df) - 1) (tsz - 1)) (lo (df_grain df) level)) 3) as ->.
  { rewrite <- (walkBits_lo _ _ H) in Ht |- *. unfold ops_index, index4k, index16k, index64k, walkBits in *.
    each_level H; destruct (df_grain df); unfold stride, grain_bits; cbn [Z.eqb Pos.eqb] in *; try done;
      cbn in *; try lia; do 2 f_equal; lia. }
  unfold pt_index. rewrite bits_div, Z.shiftl_mul_pow2 by lia. change (2 ^ 3) with 8. rewrite Z.mul_comm. do 3 f_equal. lia.
Qed.

Lemma nextDescAddr_spec tsz d level va :
  level_ok (df_grain df) level -> level < 3 -> lo (df_grain df) level < tsz ->
  nextDescAddr df d level va = nextTableAddr df d + 8 * pt_index tsz (level + 1) va.
Proof.
  intros H H3 Ht. unfold nextDescAddr. cbn zeta. set (g := df_grain df) in *.
  replace ((grain_bits g - 3) * (3 - (level + 1)) + grain_bits g) with (lo g (level + 1)) by (unfold lo, stride; lia).
  assert (lo g level = lo g (level + 1) + stride g) as El by (unfold lo; lia).
  assert (lo g level <= 47 /\ 9 <= stride g /\ 0 <= lo g (level + 1)) as (? & ? & ?).
  { pose proof (lo_range _ _ H). each_level H; destruct g; unfold lo, stride in *; cbn in *; try done; lia. }
  rewrite bits_div, Z.shiftl_mul_pow2 by (unfold stride in *; lia). unfold pt_index. fold g.
  rewrite Z.min_l by lia. rewrite nextTableAddr_frame. fold g.
  replace (_ - _ + 1) with (stride g) by (unfold stride; lia). rewrite (Z.mul_comm 8). change (2 ^ 3) with 8.
  pose proof (Z.mod_pos_bound (va / 2 ^ lo g (level + 1)) (2 ^ stride g) ltac:(lia)) as Hi.
  assert (2 ^ grain_bits g = 2 ^ stride g * 8) as Eg
    by (unfold stride in *; replace (grain_bits g) with (grain_bits g - 3 + 3) at 1 by lia; by rewrite Z.pow_add_r by lia).
  unfold frame. destruct (lpa df).
  - replace (2 ^ 48) with (2 ^ (48 - grain_bits g) * 2 ^ grain_bits g)
      by (rewrite <- Z.pow_add_r by (destruct g; cbn; lia); f_equal; lia).
    rewrite Z.mul_assoc, <- Z.mul_add_distr_r. apply lor_add; destruct g; cbn in *; lia.
  - rewrite Z.add_0_r. apply lor_add; destruct g; cbn in *; lia.
Qed.
End Fields.
