(* ===== verification/TableWalk.v ===== *)
(** * The AArch64 page-table walk

    The walk of arch/arm/table_walker.cc over long descriptors in AArch64, without a second
    stage behind it: from the base of the first table, or an entry of the walk cache
    (walkAddresses), through the levels (doLongDescriptor) to the TLB entries it inserts
    (insertTableEntry, insertPartialTableEntry), and the use that [MMU::getTE] makes of it.
    The choice of the table base from the system registers and the timing of the fetches are
    left out: physical memory is a function from addresses to 64-bit descriptors, the base and
    the size of the address space are given.  A walk takes the hook of an injector as an
    argument; CHAOSPTW is in ChaosPTW.v.

    The specification reads the tables with arithmetic on the address and collects the table
    descriptors on the way.  The theorems: the walk ends within four fetches with the specified
    fault or by inserting the specified leaf with the permissions of the whole path, from the
    base or from an entry of the walk cache; its entry translates every address it matches as
    the tables do; and [getTE], with the walk cache and both levels of TLBs, answers every
    translation as the tables do, from a reset MMU on.  They hold for the first stage and
    address spaces of at most 48 bits; what a walk that resumes forgets of the security of the
    skipped tables is part of the specification. *)

From Stdlib Require Import ZArith Lia QArith.
From stdpp Require Import base sets numbers list strings sorting.
From S2P Require Import Prelude Word AssocCache ArmTLB PageTable.

Open Scope Z_scope.

(** ** The state of a walk *)

(** The members of WalkerState that stay as they are while the levels are walked, with what
    processWalkAArch64 has read from the system registers ([ttbr], [tsz], [tg], the decoded
    [ps]), the members of the walker (physical address range, security extension) and whether
    the MMU has a walk cache. *)
Record walk_ctx := WalkCtx {
  wc_vaddr_tainted : Z; wc_vaddr : Z; wc_asid : Z; wc_vmid : Z; wc_ss : SecurityState;
  wc_regime : TranslationRegime; wc_mode : MMUMode; wc_isAtomic : bool; wc_isStage2 : bool;
  wc_ipaSpace : PASpace; wc_hpd : bool; wc_nsa : bool; wc_sl0 : Z;
  wc_ttbr : Z; wc_tsz : Z; wc_tg : GrainSize; wc_pa_range : Z;
  wc_sh : Z; wc_irgn : Z; wc_orgn : Z; wc_uncacheable : bool; wc_mair : Z;
  wc_physAddrRange : Z; wc_have_security : bool; wc_walkCache : bool
}.

(** A reserved granule is taken to be 4 KiB. *)
Definition ctx_grain (w : walk_ctx) : GrainSize :=
  match wc_tg w with ReservedGrain => Grain4KB | g => g end.

(** [curr_state->physAddrRange]: the output size clamped to what the system has. *)
Definition ctx_range (w : walk_ctx) : Z :=
  if wc_physAddrRange w <? wc_pa_range w then wc_physAddrRange w else wc_pa_range w.

Definition ctx_format (w : walk_ctx) : desc_format := DescFormat (ctx_grain w) (wc_physAddrRange w).

(** The members that the levels change: [secureLookup] and LongDescData. *)
Record walk_state := WalkState {
  ws_secureLookup : bool; ws_rwTable : bool; ws_userTable : bool; ws_xnTable : bool; ws_pxnTable : bool
}.

(** As [TableWalker::walk] initialises them. *)
Definition walk_state0 (w : walk_ctx) : walk_state :=
  WalkState (bool_decide (wc_ss w = SS_Secure)) true true false false.

Inductive fault_source := TranslationLL | AddressSizeLL | AccessFlagLL.

(** The abort of generateLongDescFault. *)
Record abort := Abort { ab_prefetch : bool; ab_write : bool; ab_vaddr : Z; ab_source : fault_source; ab_level : Z }.

Definition generateLongDescFault (w : walk_ctx) (src : fault_source) (level : Z) : abort :=
  if bool_decide (wc_mode w = Execute) then Abort true false (wc_vaddr_tainted w) src level
  else Abort false (if wc_isAtomic w then false else bool_decide (wc_mode w = Write)) (wc_vaddr_tainted w) src level.

Definition hasUnprivRegime (r : TranslationRegime) : bool :=
  match r with EL10 | EL20 => true | _ => false end.

Definition checkAddrSizeFaultAArch64 (w : walk_ctx) (addr : Z) : bool :=
  negb (ctx_range w =? wc_physAddrRange w) &&
  negb (bits addr (wc_physAddrRange w - 1) (ctx_range w) =? 0).

(** [LongDescriptor::secure] *)
Definition desc_secure (w : walk_ctx) (s : walk_state) (d level : Z) : bool :=
  match desc_type (ctx_format w) d level with
  | Block | Page =>
      if wc_isStage2 w then wc_have_security w && ws_secureLookup s && negb (wc_nsa w)
      else wc_have_security w && (ws_secureLookup s && negb (bit d 5))
  | _ => wc_have_security w && ws_secureLookup s
  end.

(** [LongDescriptor::global] in AArch64 *)
Definition desc_global (w : walk_ctx) (s : walk_state) (d : Z) : bool :=
  if negb (hasUnprivRegime (wc_regime w)) then true
  else if bool_decide (wc_ss w = SS_Secure) && negb (ws_secureLookup s) then false
  else negb (bit d 11).

(** ** Memory attributes *)

Definition uncacheableFromAttrs (attrs : Z) : bool := negb (bit attrs 2) || (attrs =? 4).

(** The fields of an entry that [memAttrsAArch64] and [memAttrsWalkAArch64] set. *)
Record mem_attrs := MemAttrs {
  ma_mtype : MemoryType; ma_outer : Z; ma_inner : Z; ma_nonCacheable : bool; ma_xs : bool;
  ma_shareable : bool; ma_outerShareable : bool; ma_attributes : Z
}.

(** Those of a new entry. *)
Definition default_attrs : mem_attrs :=
  MemAttrs (te_mtype te_default) (te_outerAttrs te_default) (te_innerAttrs te_default)
    (te_nonCacheable te_default) (te_xs te_default) (te_shareable te_default)
    (te_outerShareable te_default) (te_attributes te_default).

Definition memAttrsAArch64 (w : walk_ctx) (d : Z) (ns : bool) (te : mem_attrs) : mem_attrs :=
  let sh := desc_sh d in
  if wc_isStage2 w then
    let attr := desc_memAttr d in
    let attr_hi := Z.land (Z.shiftr attr 2) 3 in
    let attr_lo := Z.land attr 3 in
    if attr_hi =? 0 then
      MemAttrs (if attr_lo =? 0 then StronglyOrdered else Device) 0 (if attr_lo =? 0 then 1 else 3) true
        (ma_xs te) (ma_shareable te) (ma_outerShareable te) (ma_attributes te)
    else
      MemAttrs Normal (if attr_hi =? 1 then 0 else if attr_hi =? 2 then 2 else 1)
        (if attr_lo =? 1 then 0 else if attr_lo =? 2 then 6 else 5)
        ((attr_hi =? 1) || (attr_hi =? 2) || (attr_lo =? 1) || (attr_lo =? 2))
        (negb (desc_fnxs d)) (ma_shareable te) (ma_outerShareable te) (ma_attributes te)
  else
    let attr := bits (wc_mair w) (8 * desc_attrIndx d + 7) (8 * desc_attrIndx d) in
    let attr_lo := bits attr 3 0 in
    let attr_hi := bits attr 7 4 in
    let attributes :=
      Z.lor (Z.lor (Z.lor (Z.shiftl attr 56) (Z.shiftl 1 11)) (Z.shiftl (Z.b2z ns) 9)) (Z.shiftl sh 7) in
    let nc := uncacheableFromAttrs attr_hi || uncacheableFromAttrs attr_lo in
    let out mtype nonCacheable xs :=
      MemAttrs mtype (ma_outer te) (ma_inner te) nonCacheable xs (sh =? 2) (bit sh 1) attributes in
    if attr <=? 15 then out Device true (negb (bit attr 0))
    else if (attr =? 64) || (attr =? 160) then out Normal true false
    else out Normal nc nc.

(** [wc_uncacheable] is [uncacheableWalk]. *)
Definition memAttrsWalkAArch64 (w : walk_ctx) (te : mem_attrs) : mem_attrs :=
  if wc_uncacheable w then
    MemAttrs Normal 0 0 true true true (ma_outerShareable te) (ma_attributes te)
  else
    let nc := ((wc_orgn w =? 0) || (wc_orgn w =? 2)) && ((wc_irgn w =? 0) || (wc_irgn w =? 2)) in
    MemAttrs Normal (wc_orgn w) (wc_irgn w) nc nc (negb (wc_sh w =? 0)) (ma_outerShareable te)
      (ma_attributes te).

(** ** The entries a walk inserts *)

Section Walk.
Context {R : Type} {RP : ReplacementPolicy R}.
(** [overflow n] is what [1 << n] yields at type [int] for [n >= 31], which the language does
    not define; [mem] the descriptor at an address; [now] the tick of the walk; [ptw] the
    [corruptDescriptor] of an attached injector. *)
Context (overflow : Z -> Z) (mem : Z -> Z) (now : Z) (ptw : option (Z -> Z -> M (mmu R) Z)).

Definition int_shl (n : Z) : Z := if n <? 31 then 2 ^ n else overflow n.

(** The entry of insertTableEntry for a leaf [d]. *)
Definition leaf_entry (w : walk_ctx) (s : walk_state) (level d : Z) : TlbEntry :=
  let df := ctx_format w in
  let N := offsetBits df d level in
  let ns := negb (desc_secure w s d level) in
  let ap := if wc_isStage2 w then te_ap te_default
            else Z.lor (Z.shiftl (Z.b2z (negb (ws_rwTable s) || negb (Z.shiftr (desc_ap d) 1 =? 0))) 1)
                       (Z.b2z (ws_userTable s && negb (Z.land (desc_ap d) 1 =? 0))) in
  let hap := if wc_isStage2 w then desc_ap d else te_hap te_default in
  let piindex := if wc_isStage2 w then te_piindex te_default else desc_piindex d in
  let a := memAttrsAArch64 w d ns default_attrs in
  MkTlbEntry (desc_pfn df d level) (u64 (int_shl N - 1)) (Z.shiftr (wc_vaddr w) N) (ma_attributes a) level
    (wc_asid w) (wc_vmid w) (ctx_grain w) N (ma_inner a) (ma_outer a) ap hap piindex Client (ma_mtype a)
    true (desc_global w s d || wc_isStage2 w) true ns (wc_ss w) (wc_ipaSpace w) (wc_regime w)
    (if bool_decide (wc_mode w = Execute) then T_instruction else T_data) false
    (ma_nonCacheable a) (ma_shareable a) (ma_outerShareable a)
    (desc_xn d || ws_xnTable s) (ws_pxnTable s || desc_pxn d) (ma_xs a).

(** The entry of insertPartialTableEntry for a table descriptor [d]. *)
Definition partial_entry (w : walk_ctx) (s : walk_state) (level d : Z) : TlbEntry :=
  let df := ctx_format w in
  let N := offsetBits df d level in
  let a := memAttrsWalkAArch64 w default_attrs in
  MkTlbEntry (nextTableAddr df d) (2 ^ N - 1) (Z.shiftr (wc_vaddr w) N) (ma_attributes a) level
    (wc_asid w) (wc_vmid w) (ctx_grain w) N (ma_inner a) (ma_outer a)
    (Z.lor (Z.shiftl (Z.b2z (ws_rwTable s)) 1) (Z.b2z (ws_userTable s)))
    (te_hap te_default) (te_piindex te_default) Client (ma_mtype a)
    true (negb (hasUnprivRegime (wc_regime w))) true (negb (desc_secure w s d level)) (wc_ss w)
    (wc_ipaSpace w) (wc_regime w) T_unified true
    (ma_nonCacheable a) (ma_shareable a) (ma_outerShareable a) (ws_xnTable s) (ws_pxnTable s) (ma_xs a).

Definition insertEntry (w : walk_ctx) (e : TlbEntry) : M (mmu R) unit :=
  modify (mmu_insert now e (wc_mode w) (wc_isStage2 w)).

Definition insertTableEntry (w : walk_ctx) (s : walk_state) (level d : Z) : M (mmu R) unit :=
  insertEntry w (leaf_entry w s level d).

Definition insertPartialTableEntry (w : walk_ctx) (s : walk_state) (level d : Z) : M (mmu R) unit :=
  insertEntry w (partial_entry w s level d).

(** ** The levels *)

(** The hierarchical permissions of a table descriptor. *)
Definition table_flags (w : walk_ctx) (s : walk_state) (d : Z) : walk_state :=
  WalkState
    (if wc_isStage2 w then ws_secureLookup s else ws_secureLookup s && desc_secureTable d)
    (ws_rwTable s && (desc_rwTable d || wc_hpd w))
    (ws_userTable s && (desc_userTable d || wc_hpd w))
    (ws_xnTable s || (desc_xnTable d && negb (wc_hpd w)))
    (ws_pxnTable s || (desc_pxnTable d && negb (wc_hpd w))).

Inductive walk_result := Walked | Aborted (f : abort) | Panicked.

(** [fetchDescriptor] and [doLongDescriptor], which call each other level by level. *)
Fixpoint doLongDescriptor (fuel : nat) (w : walk_ctx) (s : walk_state) (level desc_addr : Z) :
    M (mmu R) walk_result :=
  match fuel with
  | O => ret Panicked
  | S fuel' =>
      let! data := match ptw with
                   | Some corruptDescriptor => corruptDescriptor (mem desc_addr) (wc_vaddr_tainted w)
                   | None => ret (mem desc_addr)
                   end in
      let df := ctx_format w in
      let raise src := ret (Aborted (generateLongDescFault w src level)) in
      match desc_type df data level with
      | Invalid => raise TranslationLL
      | Block | Page =>
          if checkAddrSizeFaultAArch64 w (desc_paddr df data level) then raise AddressSizeLL
          else if negb (desc_af data) then raise AccessFlagLL
          else do! insertTableEntry w s level data in ret Walked
      | Table =>
          let s' := table_flags w s data in
          let next_desc_addr := nextDescAddr df data level (wc_vaddr w) in
          if checkAddrSizeFaultAArch64 w next_desc_addr then raise AddressSizeLL
          else
            do! whenM (wc_walkCache w) (insertPartialTableEntry w s' level data) in
            if 3 <? level + 1 then ret Panicked
            else doLongDescriptor fuel' w s' (level + 1) next_desc_addr
      end
  end.

(** There are four levels. *)
Definition walk_fuel : nat := 4.

(** [walkAddresses]: table address, address of the first descriptor, first level, and the
    state after a hit in the walk cache has set the permissions; [None] for a panic. *)
Definition walkAddresses (w : walk_ctx) (s : walk_state) (walkEntry : TlbEntry) :
    option (Z * Z * Z * walk_state) :=
  let g := ctx_grain w in
  if te_valid walkEntry then
    let s' := WalkState (ws_secureLookup s) (bit (te_ap walkEntry) 1) (bit (te_ap walkEntry) 0)
                (te_xn walkEntry) (te_pxn walkEntry) in
    let table_addr := te_pfn walkEntry in
    let first_level := te_lookupLevel walkEntry + 1 in
    Some (table_addr, table_addr + ops_index g (wc_vaddr w) first_level (wc_tsz w), first_level, s')
  else
    match (if wc_isStage2 w then firstS2Level g (wc_sl0 w) else firstLevel g (64 - wc_tsz w)) with
    | None => None
    | Some first_level =>
        let str := grain_bits g - 3 in
        let base_addr_lo := 3 + wc_tsz w - str * (3 - first_level) - grain_bits g in
        let table_addr :=
          if wc_pa_range w =? 52 then
            let z := if base_addr_lo <? 6 then 6 else base_addr_lo in
            Z.lor (mbits (wc_ttbr w) 47 z) (Z.shiftl (bits (wc_ttbr w) 5 2) 48)
          else mbits (wc_ttbr w) 47 base_addr_lo in
        Some (table_addr, table_addr + ops_index g (wc_vaddr w) first_level (wc_tsz w), first_level, s)
    end.

(** [processWalkAArch64] once the registers are read. *)
Definition processWalkAArch64 (w : walk_ctx) (walkEntry : TlbEntry) : M (mmu R) walk_result :=
  match walkAddresses w (walk_state0 w) walkEntry with
  | None => ret Panicked
  | Some (table_addr, desc_addr, start_lookup_level, s) =>
      if checkAddrSizeFaultAArch64 w table_addr
      then ret (Aborted (generateLongDescFault w AddressSizeLL start_lookup_level))
      else doLongDescriptor walk_fuel w s start_lookup_level desc_addr
  end.

(** ** [MMU::getTE], in atomic mode and for a request that is no prefetch *)

Definition isCompleteTranslation (te : option TlbEntry) : bool :=
  match te with Some e => negb (te_partial e) | None => false end.

Inductive te_result := GotTE (e : TlbEntry) | TEFault (f : abort) | TEPanic.

(** [walkEntry] is assigned from the entry found, or is a new one. *)
Definition walk_entry_of (te : option TlbEntry) : TlbEntry :=
  match te with Some e => te_assign te_default e | None => te_default end.

Definition getTE (chaos : tlb_id -> option (nat -> Z -> M (tlb R) unit)) (w : walk_ctx) : M (mmu R) te_result :=
  let look functional :=
    mmu_lookup chaos now (wc_vaddr w) (wc_asid w) (wc_vmid w) (wc_ss w) functional false (wc_regime w)
      (wc_isStage2 w) (wc_mode w) in
  let! te := look false in
  if isCompleteTranslation te then
    ret (match te with Some e => GotTE e | None => TEPanic end)
  else
    let! r := processWalkAArch64 w (walk_entry_of te) in
    match r with
    | Aborted f => ret (TEFault f)
    | Panicked => ret TEPanic
    | Walked =>
        let! te := look true in
        ret (match te with Some e => GotTE e | None => TEPanic end)
    end.
End Walk.

(** ** The specification *)

Inductive pt_outcome := PtLeaf (d level : Z) | PtFault (src : fault_source) (level : Z).

Section Spec.
Context (mem : Z -> Z) (w : walk_ctx).

Abbreviation df := (ctx_format w).
Abbreviation g := (ctx_grain w).

(** An address that needs more bits than the output size allows. *)
Definition oversized (addr : Z) : bool :=
  negb (ctx_range w =? wc_physAddrRange w) &&
  negb ((addr / 2 ^ ctx_range w) mod 2 ^ (wc_physAddrRange w - ctx_range w) =? 0).

(** The table descriptors on the way and what is at its end. *)
Fixpoint pt_walk (n : nat) (table level va : Z) : list Z * pt_outcome :=
  match n with
  | O => ([], PtFault TranslationLL level)
  | S n' =>
      let d := mem (table + 8 * pt_index df (wc_tsz w) level va) in
      match desc_type df d level with
      | Invalid => ([], PtFault TranslationLL level)
      | Table =>
          let t := frame df (grain_bits g) d in
          if oversized t then ([], PtFault AddressSizeLL level)
          else let r := pt_walk n' t (level + 1) va in (d :: r.1, r.2)
      | _ =>
          if oversized (frame df (lo g level) d) then ([], PtFault AddressSizeLL level)
          else if negb (bit d 10) then ([], PtFault AccessFlagLL level)
          else ([], PtLeaf d level)
      end
  end.

(** The levels from [level] to 3. *)
Definition levels_from (level : Z) : nat := Z.to_nat (4 - level).

(** The base of the first table, aligned to its size. *)
Definition pt_base (level : Z) : Z :=
  let z := 3 + wc_tsz w - lo g level in
  let z := if wc_pa_range w =? 52 then Z.max 6 z else z in
  (wc_ttbr w / 2 ^ z) mod 2 ^ (48 - z) * 2 ^ z +
  (if wc_pa_range w =? 52 then (wc_ttbr w / 2 ^ 2) mod 2 ^ 4 * 2 ^ 48 else 0).

(** The translation of an address that starts at [level]. *)
Definition pt_translate (level va : Z) : list Z * pt_outcome :=
  if oversized (pt_base level) then ([], PtFault AddressSizeLL level)
  else pt_walk (levels_from level) (pt_base level) level va.






End Spec.

(** * Lemmas *)

(** A first-stage walk of an address space of at most 48 bits. *)
Record ctx_ok (w : walk_ctx) (first : Z) : Prop := CtxOk {
  cx_stage1 : wc_isStage2 w = false;
  cx_first : firstLevel (ctx_grain w) (64 - wc_tsz w) = Some first;
  cx_tsz : wc_tsz w <= 48;
  cx_range : 32 <= wc_pa_range w /\ 32 <= wc_physAddrRange w
}.

Lemma ctx_grain_ok w : ctx_grain w <> ReservedGrain.
Proof. unfold ctx_grain. by destruct (wc_tg w). Qed.

Lemma firstLevel_ok g tsz first :
  firstLevel g (64 - tsz) = Some first -> level_ok g first /\ lo g first < tsz.
Proof.
  unfold firstLevel, firstLevel4k, firstLevel16k, firstLevel64k, within. intros H. repeat case_match; simplify_eq; bools;
    unfold level_ok, lo, stride; cbn; repeat split; try done; lia.
Qed.

Section Tables.
Context (mem : Z -> Z) (w : walk_ctx) (first : Z) (Hok : ctx_ok w first).

Abbreviation df := (ctx_format w).
Abbreviation g := (ctx_grain w).

(** The levels of this walk. *)
Definition in_walk (level : Z) : Prop := first <= level <= 3.

Lemma in_walk_ok level : in_walk level -> level_ok g level /\ lo g level < wc_tsz w <= 48.
Proof.
  intros Hl. destruct (firstLevel_ok _ _ _ (cx_first _ _ Hok)) as [(Hg & Hf & H64) Ht].
  unfold in_walk in Hl. pose proof (cx_tsz _ _ Hok).
  split; [split; [done|]; split; [lia|intros E; specialize (H64 E); lia]|].
  assert (0 < stride g) by (unfold stride; by destruct g). unfold lo in *. nia.
Qed.

Lemma first_in_walk : in_walk first.
Proof. destruct (firstLevel_ok _ _ _ (cx_first _ _ Hok)) as [(_ & Hf & _) _]. unfold in_walk. lia. Qed.

Lemma lo_mono k l : k <= l -> lo g l <= lo g k.
Proof. assert (0 < stride g) by (pose proof (ctx_grain_ok w); unfold stride; by destruct g). unfold lo. nia. Qed.

Lemma lo_nonneg l : l <= 3 -> 0 < lo g l.
Proof.
  pose proof (ctx_grain_ok w). intros. unfold lo, stride, grain_bits. destruct (ctx_grain w); done || lia.
Qed.

Lemma ctx_range_ok : 32 <= ctx_range w <= wc_physAddrRange w.
Proof. destruct (cx_range _ _ Hok). unfold ctx_range. destruct (_ <? _) eqn:E; bools; lia. Qed.

Lemma oversized_check addr : checkAddrSizeFaultAArch64 w addr = oversized w addr.
Proof.
  unfold checkAddrSizeFaultAArch64, oversized. destruct (ctx_range w =? wc_physAddrRange w) eqn:E; [done|].
  apply Z.eqb_neq in E. pose proof ctx_range_ok.
  rewrite bits_div by lia. do 5 f_equal. lia.
Qed.

(** Adding an index to the base of a table does not change the bits that are tested. *)
Lemma pt_index_bound level va : in_walk level -> 0 <= 8 * pt_index df (wc_tsz w) level va < 2 ^ grain_bits g.
Proof.
  intros Hl. destruct (in_walk_ok _ Hl) as [Hlv Ht]. unfold pt_index. cbn [df_grain ctx_format].
  assert (0 < stride g) by (destruct Hlv as (? & _); unfold stride; by destruct g).
  set (b := Z.min (stride g) (wc_tsz w - lo g level)).
  pose proof (Z.mod_pos_bound (va / 2 ^ lo g level) (2 ^ b) ltac:(lia)).
  assert (2 ^ b <= 2 ^ stride g) by (apply Z.pow_le_mono_r; lia).
  assert (2 ^ grain_bits g = 8 * 2 ^ stride g) as ->
    by (destruct Hlv as (? & _); unfold stride; by destruct (ctx_grain w)).
  lia.
Qed.

(** Every table is aligned to its granule. *)
Lemma frame_aligned l d : 0 <= l <= 48 -> exists q, frame df l d = q * 2 ^ l.
Proof.
  intros Hl. unfold frame. destruct (lpa df); [|by eexists; rewrite Z.add_0_r].
  replace (2 ^ 48) with (2 ^ (48 - l) * 2 ^ l) by (rewrite <- Z.pow_add_r by lia; f_equal; lia).
  rewrite Z.mul_assoc, <- Z.mul_add_distr_r. by eexists.
Qed.

Lemma grain_range : 12 <= grain_bits g <= 16.
Proof. pose proof (ctx_grain_ok w). by destruct (ctx_grain w). Qed.

Lemma oversized_index d x : 0 <= x < 2 ^ grain_bits g ->
  oversized w (frame df (grain_bits g) d + x) = oversized w (frame df (grain_bits g) d).
Proof.
  intros Hx. pose proof grain_range. pose proof ctx_range_ok.
  destruct (frame_aligned (grain_bits g) d) as [q ->]; [lia|]. unfold oversized. do 4 f_equal.
  replace (2 ^ ctx_range w) with (2 ^ grain_bits g * 2 ^ (ctx_range w - grain_bits g))
    by (rewrite <- Z.pow_add_r by lia; f_equal; lia).
  rewrite <- !Z.div_div by lia. f_equal. rewrite Z.div_add_l, Z.div_mul, Z.div_small by lia. lia.
Qed.

(** ** Refinement of the levels *)

Definition leaf_state (s : walk_state) (path : list Z) : walk_state := foldl (table_flags w) s path.

(** The partial entries of a path. *)
Fixpoint partials (s : walk_state) (level : Z) (path : list Z) : list TlbEntry :=
  match path with
  | [] => []
  | d :: path' => let s' := table_flags w s d in partial_entry w s' level d :: partials s' (level + 1) path'
  end.

Section Refine.
Context {R : Type} {RP : ReplacementPolicy R} (overflow : Z -> Z) (now : Z).

Definition insert_all (es : list TlbEntry) (m : mmu R) : mmu R :=
  foldl (fun m e => mmu_insert now e (wc_mode w) (wc_isStage2 w) m) m es.

(** What the walk of a table makes of the MMU: the partial entries of the path, if there is a
    walk cache, then the leaf. *)
Definition walk_effect (s : walk_state) (level : Z) (r : list Z * pt_outcome) (m : mmu R) : walk_result * mmu R :=
  let m1 := insert_all (if wc_walkCache w then partials s level r.1 else []) m in
  match r.2 with
  | PtLeaf d l => (Walked, insert_all [leaf_entry overflow w (leaf_state s r.1) l d] m1)
  | PtFault src l => (Aborted (generateLongDescFault w src l), m1)
  end.

Lemma levels_from_S level : level <= 3 -> levels_from level = S (levels_from (level + 1)).
Proof. intros. unfold levels_from. lia. Qed.

Lemma walk_effect_push s level d r m :
  walk_effect s level (d :: r.1, r.2) m =
  walk_effect (table_flags w s d) (level + 1) r
    (insert_all (if wc_walkCache w then [partial_entry w (table_flags w s d) level d] else []) m).
Proof. destruct r as [path []]; unfold walk_effect; cbn; by destruct (wc_walkCache w). Qed.

Lemma walk_effect_end s level o m :
  walk_effect s level ([], o) m =
  match o with
  | PtLeaf d l => (Walked, mmu_insert now (leaf_entry overflow w s l d) (wc_mode w) (wc_isStage2 w) m)
  | PtFault src l => (Aborted (generateLongDescFault w src l), m)
  end.
Proof. unfold walk_effect. cbn. by destruct (wc_walkCache w), o. Qed.

Lemma doLongDescriptor_spec fuel s level table c m :
  in_walk level -> (levels_from level <= fuel)%nat ->
  let r := walk_effect s level (pt_walk mem w (levels_from level) table level (wc_vaddr w)) m in
  doLongDescriptor overflow mem now None fuel w s level (table + 8 * pt_index df (wc_tsz w) level (wc_vaddr w)) (c, m)
  = (r.1, (c, r.2)).
Proof.
  induction fuel as [|fuel IH] in s, level, table, m |- *; intros Hl Hf; cbn zeta.
  - unfold levels_from, in_walk in *. lia.
  - destruct (in_walk_ok _ Hl) as [Hlv Ht]. rewrite levels_from_S in * by (unfold in_walk in Hl; lia).
    cbn [pt_walk doLongDescriptor]. unfold bind at 1.
    set (d := mem _). change (ret d (c, m)) with (d, (c, m)). cbn [fst snd]. destruct (desc_type df d level) eqn:Ety; [by rewrite walk_effect_end| | |].
    + assert (level < 3) as H3.
      { unfold in_walk in Hl. unfold desc_type in Ety. destruct (Z.eqb_spec level 3); [|lia].
        subst level. by repeat case_match. }
      rewrite oversized_check, (nextDescAddr_spec df (wc_tsz w)), nextTableAddr_frame by (done || cbn; lia).
      cbn [df_grain ctx_format]. rewrite oversized_index by (apply pt_index_bound; unfold in_walk in *; lia).
      destruct (oversized w _); [by rewrite walk_effect_end|]. unfold bind at 1. rewrite walk_effect_push.
      destruct (Z.ltb_spec 3 (level + 1)); [lia|].
      destruct (wc_walkCache w) eqn:Ew; cbn [whenM insert_all foldl]; unfold skip, insertPartialTableEntry, insertEntry, modify, ret;
        cbn [fst snd]; rewrite IH; try done; (unfold in_walk in *; lia).
    + rewrite oversized_check, desc_paddr_frame by (exact Hlv || by rewrite Ety). cbn [df_grain ctx_format].
      change (desc_af d) with (bit d 10).
      destruct (oversized w _); [|destruct (bit d 10); cbn [negb]]; by rewrite walk_effect_end.
    + rewrite oversized_check, desc_paddr_frame by (exact Hlv || by rewrite Ety). cbn [df_grain ctx_format].
      change (desc_af d) with (bit d 10).
      destruct (oversized w _); [|destruct (bit d 10); cbn [negb]]; by rewrite walk_effect_end.
Qed.
End Refine.

(** ** The entry of a leaf *)

Lemma leaf_state_flags s path :
  leaf_state s path =
  WalkState (ws_secureLookup s && negb (existsb (fun t => bit t 63) path))
    (ws_rwTable s && (wc_hpd w || negb (existsb (fun t => bit t 62) path)))
    (ws_userTable s && (wc_hpd w || negb (existsb (fun t => bit t 61) path)))
    (ws_xnTable s || (negb (wc_hpd w) && existsb (fun t => bit t 60) path))
    (ws_pxnTable s || (negb (wc_hpd w) && existsb (fun t => bit t 59) path)).
Proof.
  unfold leaf_state. induction path as [|d path IH] in s |- *; cbn [foldl existsb].
  - destruct s as [[] [] [] [] []], (wc_hpd w); done.
  - rewrite IH. unfold table_flags, desc_secureTable, desc_rwTable, desc_userTable, desc_xnTable, desc_pxnTable.
    rewrite (cx_stage1 _ _ Hok). cbn [ws_secureLookup ws_rwTable ws_userTable ws_xnTable ws_pxnTable].
    f_equal; repeat (destruct (bit d _)); destruct (wc_hpd w); cbn;
      rewrite ?andb_true_r, ?andb_false_r, ?orb_true_r, ?orb_false_r; cbn; rewrite ?orb_true_r; done.
Qed.

(** The state of a walk that resumes behind [path]: the permissions of the path, but the
    security of the request. *)
Definition resume_state (path : list Z) : walk_state :=
  let s := leaf_state (walk_state0 w) path in
  WalkState (ws_secureLookup (walk_state0 w)) (ws_rwTable s) (ws_userTable s) (ws_xnTable s) (ws_pxnTable s).

Definition same_flags (s s' : walk_state) : Prop :=
  ws_rwTable s = ws_rwTable s' /\ ws_userTable s = ws_userTable s' /\
  ws_xnTable s = ws_xnTable s' /\ ws_pxnTable s = ws_pxnTable s'.

Lemma resume_state_nil : resume_state [] = walk_state0 w.
Proof. done. Qed.

Lemma leaf_resumed p q :
  same_flags (leaf_state (resume_state p) q) (leaf_state (walk_state0 w) (p ++ q)) /\
  ws_secureLookup (leaf_state (resume_state p) q) =
    bool_decide (wc_ss w = SS_Secure) && negb (existsb (fun t => bit t 63) q).
Proof.
  unfold resume_state, same_flags. rewrite !leaf_state_flags, !existsb_app.
  cbn [ws_secureLookup ws_rwTable ws_userTable ws_xnTable ws_pxnTable walk_state0 andb orb]. split; [|done].
  destruct (wc_hpd w); cbn [negb orb andb]; [done|]. rewrite !negb_orb. done.
Qed.





Definition same_page_as (level va va' : Z) : Prop := va / 2 ^ lo g level = va' / 2 ^ lo g level.

Lemma page_at level : in_walk level -> 0 <= wc_vaddr w < 2 ^ 64 -> forall e,
  te_N e = lo g level -> te_size e = 2 ^ lo g level - 1 -> te_vpn e = Z.shiftr (wc_vaddr w) (lo g level) -> page_ok e.
Proof.
  intros Hl Hva e EN Es Ev. destruct (in_walk_ok _ Hl) as [Hlv _]. pose proof (lo_range _ _ Hlv) as Hr.
  unfold page_ok. rewrite EN, Es, Ev, Z.shiftr_div_pow2 by lia.
  split; [lia|]. split; [done|]. split; [by apply Z.div_pos; lia|].
  pose proof (Z.div_lt_upper_bound (wc_vaddr w) (2 ^ lo g level) (2 ^ (64 - lo g level)) ltac:(lia)) as Hd.
  rewrite <- Z.pow_add_r in Hd by lia. replace (lo g level + (64 - lo g level)) with 64 in Hd by lia.
  specialize (Hd (proj2 Hva)). replace (2 ^ 64) with (2 ^ (64 - lo g level) * 2 ^ lo g level)
    by (rewrite <- Z.pow_add_r by lia; f_equal; lia). apply Z.mul_le_mono_nonneg_r; lia.
Qed.





(** ** Paths through the tables *)

(** Where a path of table descriptors leads to. *)
Fixpoint follows (path : list Z) (table level va : Z) : option Z :=
  match path with
  | [] => Some table
  | d :: path' =>
      let t := frame df (grain_bits g) d in
      if (mem (table + 8 * pt_index df (wc_tsz w) level va) =? d) &&
         match desc_type df d level with Table => true | _ => false end && negb (oversized w t)
      then follows path' t (level + 1) va else None
  end.

Lemma table_level d level : in_walk level -> desc_type df d level = Table -> in_walk (level + 1).
Proof.
  unfold in_walk. intros Hl Ht. destruct (Z.eq_dec level 3) as [->|]; [|lia].
  unfold desc_type in Ht. by repeat case_match.
Qed.

Lemma follows_cons d path table level va T :
  follows (d :: path) table level va = Some T ->
  mem (table + 8 * pt_index df (wc_tsz w) level va) = d /\ desc_type df d level = Table /\
  oversized w (frame df (grain_bits g) d) = false /\ follows path (frame df (grain_bits g) d) (level + 1) va = Some T.
Proof.
  cbn [follows]. destruct ((_ =? d) && _ && _) eqn:E; [|done]. intros H. bools.
  by destruct (desc_type df d level).
Qed.

Lemma follows_snoc path d table level va T :
  follows (path ++ [d]) table level va = Some T ->
  T = frame df (grain_bits g) d /\ oversized w T = false /\ desc_type df d (level + Z.of_nat (length path)) = Table.
Proof.
  induction path as [|d' path IH] in table, level |- *; intros H; apply follows_cons in H as (_ & Ht & Ho & H).
  - injection H as <-. by rewrite Z.add_0_r.
  - destruct (IH _ _ H) as (? & ? & E). cbn [length]. split; [done|]. split; [done|]. rewrite <- E. f_equal. lia.
Qed.

Lemma follows_level path table level va T :
  in_walk level -> follows path table level va = Some T -> in_walk (level + Z.of_nat (length path)).
Proof.
  induction path as [|d path IH] in table, level |- *; intros Hl H; [by rewrite Z.add_0_r|].
  apply follows_cons in H as (_ & Ht & _ & H). apply IH in H; [|by eapply table_level]. cbn [length].
  replace (level + _) with (level + 1 + Z.of_nat (length path)) by lia. done.
Qed.

Lemma follows_walk path table level va T :
  in_walk level -> follows path table level va = Some T ->
  let l := level + Z.of_nat (length path) in
  let r := pt_walk mem w (levels_from l) T l va in
  pt_walk mem w (levels_from level) table level va = (path ++ r.1, r.2).
Proof.
  induction path as [|d path IH] in table, level |- *; intros Hl H; cbn zeta.
  - injection H as <-. rewrite Z.add_0_r. by destruct (pt_walk _ _ _ _ _ _).
  - apply follows_cons in H as (Hd & Ht & Ho & H). rewrite levels_from_S by (unfold in_walk in Hl; lia).
    cbn [pt_walk]. rewrite Hd, Ht, Ho. rewrite (IH _ _ (table_level _ _ Hl Ht) H). cbn [fst snd length].
    replace (level + Z.of_nat (S (length path))) with (level + 1 + Z.of_nat (length path)) by lia. done.
Qed.

(** A walk follows its own path, and ends at a leaf of the level where it stops. *)
Lemma pt_walk_follows n table level va path o p1 p2 :
  pt_walk mem w n table level va = (path, o) -> path = p1 ++ p2 -> exists T, follows p1 table level va = Some T.
Proof.
  induction n as [|n IH] in table, level, path, p1 |- *; cbn [pt_walk].
  - intros [= <- _] E. symmetry in E. apply app_nil in E as [-> _]. by eexists.
  - set (d := mem _). intros H ->. destruct p1 as [|d' p1]; [by eexists|]. revert H.
    destruct (desc_type df d level) eqn:Et; [done| |by repeat case_match..].
    destruct (oversized w _) eqn:Eo; [done|]. cbn [app]. intros [= <- Hp Ho]. cbn [follows]. fold d.
    rewrite Z.eqb_refl, Et, Eo. cbn. apply (IH _ _ (p1 ++ p2)); [|done]. rewrite <- Hp, <- Ho. apply surjective_pairing.
Qed.


(** ** Addresses of one page are translated alike *)

Lemma same_page_up k l va va' : k <= l -> l <= 3 -> same_page_as l va va' -> same_page_as k va va'.
Proof.
  unfold same_page_as. intros Hk Hl H. pose proof (lo_mono k l Hk). pose proof (lo_nonneg l Hl).
  replace (2 ^ lo g k) with (2 ^ lo g l * 2 ^ (lo g k - lo g l)) by (rewrite <- Z.pow_add_r by lia; f_equal; lia).
  rewrite <- !Z.div_div by lia. by rewrite H.
Qed.

Lemma pt_index_same k l va va' :
  k <= l -> l <= 3 -> same_page_as l va va' -> pt_index df (wc_tsz w) k va = pt_index df (wc_tsz w) k va'.
Proof. intros Hk Hl H. unfold pt_index. cbn [df_grain ctx_format]. by rewrite (same_page_up k l va va' Hk Hl H). Qed.

Lemma follows_uniform path table level va va' T :
  level + Z.of_nat (length path) <= 4 -> same_page_as (level + Z.of_nat (length path) - 1) va va' ->
  follows path table level va = Some T -> follows path table level va' = Some T.
Proof.
  intros Hn Hs. remember (level + Z.of_nat (length path) - 1) as l eqn:El.
  induction path as [|d path IH] in table, level, Hn, El |- *; [done|]. cbn [length] in *. cbn [follows].
  rewrite (pt_index_same level l va va') by (done || lia).
  destruct (_ && _); [|done]. apply IH; lia.
Qed.




(** ** The walk cache *)

(** A partial entry from which the walk of [va] can resume. *)
Definition resumes (va : Z) (path : list Z) (e : TlbEntry) : Prop :=
  oversized w (pt_base w first) = false /\ path <> [] /\
  follows path (pt_base w first) first va = Some (te_pfn e) /\
  te_lookupLevel e = first + Z.of_nat (length path) - 1 /\ te_N e = lo g (te_lookupLevel e) /\
  WalkState (ws_secureLookup (walk_state0 w)) (bit (te_ap e) 1) (bit (te_ap e) 0) (te_xn e) (te_pxn e) =
  resume_state path.


Lemma partial_resumes s va va' p1 p2 d o :
  same_flags s (leaf_state (walk_state0 w) (p1 ++ [d])) -> wc_vaddr w = va -> 0 <= va < 2 ^ 64 ->
  pt_translate mem w first va = ((p1 ++ [d]) ++ p2, o) ->
  let level := first + Z.of_nat (length p1) in
  let e := partial_entry w s level d in
  page_ok e /\ te_N e = lo g level /\ in_walk level /\ (same_page_as level va va' -> resumes va' (p1 ++ [d]) e).
Proof.
  intros (Frw & Fu & Fxn & Fpxn) Ew Hva H level e. unfold pt_translate in H. destruct (oversized w _) eqn:Eo.
  { injection H as H _. by destruct p1. }
  destruct (pt_walk_follows _ _ _ _ _ _ _ _ H eq_refl) as [T HT].
  pose proof (follows_snoc _ _ _ _ _ _ HT) as (ET & HoT & Ety). fold level in Ety.
  pose proof (follows_level _ _ _ _ _ first_in_walk HT) as Hin. rewrite length_app in Hin. cbn [length] in Hin.
  assert (in_walk level) as Hl by (unfold in_walk, level in *; pose proof first_in_walk as Hf; unfold in_walk in Hf; lia).
  destruct (in_walk_ok _ Hl) as [Hlv _].
  assert (te_N e = lo g level) as EN by (cbn; apply offsetBits_lo; [done|by rewrite Ety]).
  split; [|split; [done|split; [done|]]].
  - eapply (page_at level); [done|by rewrite Ew|done|..]; cbn in *; by rewrite EN.
  - intros Hs. split; [done|]. split; [by destruct p1|]. rewrite length_app. cbn [length].
    split; [|split; [cbn; lia|split; [done|]]].
    + apply follows_uniform with va; rewrite ?length_app; cbn [length]; [unfold in_walk in Hin; lia| |].
      * replace (_ - 1) with level by lia. done.
      * rewrite HT. f_equal. cbn. by rewrite nextTableAddr_frame.
    + subst e. unfold partial_entry, resume_state. cbn [te_ap te_xn te_pxn]. rewrite Frw, Fu, Fxn, Fpxn.
      by destruct (leaf_state (walk_state0 w) (p1 ++ [d])) as [? [] [] ? ?].
Qed.

(** ** The whole walk *)

Lemma base_address :
  let z := 3 + wc_tsz w - (grain_bits g - 3) * (3 - first) - grain_bits g in
  (if wc_pa_range w =? 52 then
     Z.lor (mbits (wc_ttbr w) 47 (if z <? 6 then 6 else z)) (Z.shiftl (bits (wc_ttbr w) 5 2) 48)
   else mbits (wc_ttbr w) 47 z) = pt_base w first.
Proof.
  intros z. destruct (in_walk_ok _ first_in_walk) as [Hlv Ht]. pose proof (lo_range _ _ Hlv).
  unfold pt_base. cbn zeta. replace (3 + wc_tsz w - lo g first) with z by (unfold z, lo, stride; lia).
  assert (3 < z <= 39) by (unfold z, lo, stride in *; lia).
  destruct (wc_pa_range w =? 52).
  - replace (if z <? 6 then 6 else z) with (Z.max 6 z) by (destruct (Z.ltb_spec z 6); lia).
    rewrite mbits_div, bits_div, Z.shiftl_mul_pow2 by lia. replace (47 + 1 - Z.max 6 z) with (48 - Z.max 6 z) by lia.
    rewrite lor_add'; [done|lia|]. set (y := Z.max 6 z) in *.
    pose proof (Z.mod_pos_bound (wc_ttbr w / 2 ^ y) (2 ^ (48 - y)) ltac:(lia)).
    replace (2 ^ 48) with (2 ^ (48 - y) * 2 ^ y) by (rewrite <- Z.pow_add_r by lia; f_equal; lia). nia.
  - rewrite mbits_div by lia. replace (47 + 1 - z) with (48 - z) by lia. lia.
Qed.

Lemma walkAddresses_root s e :
  te_valid e = false ->
  walkAddresses w s e =
  Some (pt_base w first, pt_base w first + 8 * pt_index df (wc_tsz w) first (wc_vaddr w), first, s).
Proof.
  intros He. destruct (in_walk_ok _ first_in_walk) as [Hlv Ht]. unfold walkAddresses. cbn zeta.
  rewrite He, (cx_stage1 _ _ Hok), (cx_first _ _ Hok), base_address.
  by rewrite (ops_index_spec df) by done.
Qed.

(** The path that a walk need not fetch. *)
Definition skips (walkEntry : TlbEntry) (path : list Z) : Prop :=
  if te_valid walkEntry then resumes (wc_vaddr w) path walkEntry else path = [].

Lemma processWalk_spec {R} {RP : ReplacementPolicy R} overflow now we p1 c (m : mmu R) :
  skips we p1 ->
  exists p2 o, pt_translate mem w first (wc_vaddr w) = (p1 ++ p2, o) /\
    let r := walk_effect overflow now (resume_state p1) (first + Z.of_nat (length p1)) (p2, o) m in
    processWalkAArch64 overflow mem now None w we (c, m) = (r.1, (c, r.2)).
Proof.
  unfold skips. destruct (te_valid we) eqn:Ev.
  - intros (Ho & Hp & Hf & Hlv & HN & Hst).
    pose proof (follows_level _ _ _ _ _ first_in_walk Hf) as Hl.
    pose proof (follows_walk _ _ _ _ _ first_in_walk Hf) as Hw. cbn zeta in Hw.
    exists (pt_walk mem w (levels_from (first + Z.of_nat (length p1))) (te_pfn we) (first + Z.of_nat (length p1)) (wc_vaddr w)).1,
      (pt_walk mem w (levels_from (first + Z.of_nat (length p1))) (te_pfn we) (first + Z.of_nat (length p1)) (wc_vaddr w)).2.
    split; [unfold pt_translate; by rewrite Ho|]. cbn zeta. rewrite <- surjective_pairing.
    unfold processWalkAArch64, walkAddresses. cbn zeta. rewrite Ev.
    assert (oversized w (te_pfn we) = false) as HoT.
    { destruct p1 as [|d p1 _] using rev_ind; [done|]. by apply follows_snoc in Hf as (_ & ? & _). }
    rewrite oversized_check, HoT. replace (te_lookupLevel we + 1) with (first + Z.of_nat (length p1)) by lia.
    rewrite Hst. destruct (in_walk_ok _ Hl) as [Hlv' Ht].
    rewrite (ops_index_spec df) by done. apply doLongDescriptor_spec; [done|].
    unfold walk_fuel, levels_from. pose proof first_in_walk as Hf1. unfold in_walk in *.
    assert (0 <= first) by (destruct (in_walk_ok _ first_in_walk) as [(_ & ? & _) _]; lia). lia.
  - intros ->. cbn [app length]. rewrite Z.add_0_r, resume_state_nil.
    unfold processWalkAArch64. rewrite walkAddresses_root by done. rewrite oversized_check.
    unfold pt_translate. destruct (oversized w (pt_base w first)).
    + exists [], (PtFault AddressSizeLL first). split; [done|]. by rewrite walk_effect_end.
    + eexists _, _. split; [apply surjective_pairing|]. cbn zeta. rewrite <- surjective_pairing.
      apply doLongDescriptor_spec; [apply first_in_walk|].
      assert (0 <= first) by (destruct (in_walk_ok _ first_in_walk) as [(_ & ? & _) _]; lia).
      unfold walk_fuel, levels_from. lia.
Qed.
End Tables.

(** ** Requests *)

Record request := Request { rq_now : Z; rq_tainted : Z; rq_vaddr : Z; rq_mode : MMUMode; rq_isAtomic : bool }.

Definition with_request (rq : request) (w : walk_ctx) : walk_ctx :=
  WalkCtx (rq_tainted rq) (rq_vaddr rq) (wc_asid w) (wc_vmid w) (wc_ss w) (wc_regime w) (rq_mode rq)
    (rq_isAtomic rq) (wc_isStage2 w) (wc_ipaSpace w) (wc_hpd w) (wc_nsa w) (wc_sl0 w) (wc_ttbr w) (wc_tsz w)
    (wc_tg w) (wc_pa_range w) (wc_sh w) (wc_irgn w) (wc_orgn w) (wc_uncacheable w) (wc_mair w)
    (wc_physAddrRange w) (wc_have_security w) (wc_walkCache w).

Definition ctx_key (w : walk_ctx) (va : Z) (functional : bool) : KeyType :=
  Key va 12 0 (wc_asid w) false (wc_vmid w) (wc_ss w) functional (wc_regime w) (wc_mode w).

Lemma match_same_page w k e level :
  te_match k e = true -> page_ok e -> k_size k = 0 -> te_N e = lo (ctx_grain w) level -> level <= 3 ->
  te_vpn e = Z.shiftr (wc_vaddr w) (te_N e) -> same_page_as w level (wc_vaddr w) (k_va k).
Proof.
  intros Hm Hp Hk EN Hl Ev. pose proof (te_match_page k e Hm Hp Hk) as E. rewrite Ev, EN in E.
  pose proof (lo_nonneg w level Hl). unfold same_page_as.
  by rewrite !Z.shiftr_div_pow2 in E by lia.
Qed.

(** How a walk of the address of [w] may start, and the tables it then skips: from the base,
    or from an entry that matches the address and that an earlier walk of another address
    with the same registers, started in one of these ways, has inserted into the walk cache
    for the [n]-th of the tables it fetched. *)
Inductive walk_start (mem : Z -> Z) (first : Z) : walk_ctx -> TlbEntry -> list Z -> Prop :=
  | start_base w we : te_valid we = false -> walk_start mem first w we []
  | start_cached w rq we0 p0 p o n e we :
      walk_start mem first (with_request rq w) we0 p0 -> 0 <= rq_vaddr rq < 2 ^ 64 ->
      pt_translate mem w first (rq_vaddr rq) = (p0 ++ p, o) ->
      partials (with_request rq w) (resume_state w p0) (first + Z.of_nat (length p0)) p !! n = Some e ->
      canon we = canon e -> te_match (ctx_key w (wc_vaddr w) false) we = true ->
      walk_start mem first w we (p0 ++ take (S n) p).

Lemma partials_lookup w s level path n e :
  partials w s level path !! n = Some e ->
  exists p1 d p2, path = (p1 ++ [d]) ++ p2 /\ take (S n) path = p1 ++ [d] /\
    e = partial_entry w (leaf_state w s (p1 ++ [d])) (level + Z.of_nat (length p1)) d.
Proof.
  induction path as [|d path IH] in s, level, n |- *; cbn [partials]; [done|]. destruct n as [|n]; cbn [lookup list_lookup].
  - intros [= <-]. exists [], d, path. by rewrite Z.add_0_r.
  - intros H. destruct (IH _ _ _ H) as (p1 & d' & p2 & -> & Et & ->). exists (d :: p1), d', p2.
    split; [done|]. split; [exact (f_equal (cons d) Et)|]. cbn [length]. f_equal; lia || done.
Qed.

(** What makes an entry a place to resume from is the same for entries of one translation and
    for other requests. *)
Lemma resumes_canon mem w first va path e e' : canon e' = canon e -> resumes mem w first va path e -> resumes mem w first va path e'.
Proof.
  intros Hc. unfold resumes. assert (te_pfn e' = te_pfn e /\ te_lookupLevel e' = te_lookupLevel e /\ te_N e' = te_N e /\
    te_ap e' = te_ap e /\ te_xn e' = te_xn e /\ te_pxn e' = te_pxn e) as (-> & -> & -> & -> & -> & ->); [|done].
  destruct e, e'. cbn in *. injection Hc as ?; by subst.
Qed.

Lemma walk_start_skips mem first w we p1 : ctx_ok w first -> walk_start mem first w we p1 -> skips mem w first we p1.
Proof.
  intros Hok. destruct 1 as [w we Hv|w rq we0 p0 p o n e we _ Hrq Ht Hn Hc Hm]; unfold skips; [by rewrite Hv|].
  rewrite (te_match_valid _ _ Hm). destruct (partials_lookup _ _ _ _ _ _ Hn) as (q1 & d & q2 & -> & Et & ->). rewrite Et.
  clear Hn Et. set (w' := with_request rq w) in *. assert (ctx_ok w' first) as Hok' by (by destruct Hok).
  replace (first + Z.of_nat (length p0) + Z.of_nat (length q1)) with (first + Z.of_nat (length (p0 ++ q1))) in Hc
    by (rewrite length_app; lia).
  rewrite !app_assoc in *. rewrite <- (app_assoc p0 q1 [d]) in *.
  change (resume_state w p0) with (resume_state w' p0) in Hc. destruct (leaf_resumed w' first Hok' p0 (q1 ++ [d])) as [Hf _].
  rewrite app_assoc in *. destruct (partial_resumes mem w' first Hok' _ _ (wc_vaddr w) _ _ _ _ Hf eq_refl Hrq Ht) as (Hp & EN & Hl & Hr).
  eapply resumes_canon; [exact Hc|]. apply Hr.
  set (e := partial_entry _ _ _ _) in *. assert (te_match (ctx_key w (wc_vaddr w) false) e = true) as Hme.
  { rewrite <- Hm. clear -Hc. clearbody e. destruct e, we. cbn in *. injection Hc as ?; by subst. }
  apply (match_same_page w' _ e _ Hme); [done|done|done|unfold in_walk in Hl; lia|done].
Qed.

(** C17 The walk refines the reading of the tables.  For a first-stage walk of an address space
    of at most 48 bits, whatever the memory holds, started from the base or from an entry that
    an earlier walk of another address in that table's region has put into the walk cache: it
    ends after at most four fetches with what the arithmetic reading of the tables gives for
    its address, the fault of the level where the reading ends or the leaf, and inserts, with
    a walk cache, the partial entries of the tables it fetched, then the entry of the leaf,
    and nothing else.  The tables skipped are the first of the path of the address itself; the
    permissions in the entries are those of the whole path, while the security is that of the
    request and the tables fetched: a skipped table's NSTable bit is forgotten. *)
Theorem walk_refines_tables {R} {RP : ReplacementPolicy R} mem w first overflow now we p1 c (m : mmu R) :
  ctx_ok w first -> walk_start mem first w we p1 ->
  exists p2 o, pt_translate mem w first (wc_vaddr w) = (p1 ++ p2, o) /\
    (let r := walk_effect w overflow now (resume_state w p1) (first + Z.of_nat (length p1)) (p2, o) m in
     processWalkAArch64 overflow mem now None w we (c, m) = (r.1, (c, r.2))) /\
    forall q, same_flags (leaf_state w (resume_state w p1) q) (leaf_state w (walk_state0 w) (p1 ++ q)).
Proof.
  intros Hok Hs. destruct (processWalk_spec mem w first Hok overflow now we p1 c m (walk_start_skips _ _ _ _ _ Hok Hs))
    as (p2 & o & Ht & Hp). exists p2, o. split; [done|]. split; [done|]. intros q. by apply (leaf_resumed w first Hok).
Qed.

(** ** Lookups after an insertion *)

Section Shape.
Context {R : Type} {RP : ReplacementPolicy R} {RPO : ReplacementPolicyOk R}.








End Shape.

(** ** Translation *)

Section Translate.
Context {R : Type} {RP : ReplacementPolicy R} {RPO : ReplacementPolicyOk R}.
Context (overflow : Z -> Z) (mem : Z -> Z) (first : Z).














Section OneRequest.
Context (w : walk_ctx) (Hok : ctx_ok w first) (Hlpa : lpa (ctx_format w) = true -> overflow 42 = 2 ^ 42).
Context (Hva : 0 <= wc_vaddr w < 2 ^ 64).









End OneRequest.
End Translate.

(** ** Runs *)

Section Runs.
Context {R : Type} {RP : ReplacementPolicy R} {RPO : ReplacementPolicyOk R}.
Context (overflow : Z -> Z) (w : walk_ctx) (first : Z).

(** Translations, TLB-invalidate operations, and flushes of everything before which the
    tables may have been rewritten. *)
Inductive tr_op := Translate (rq : request) | Invalidate (op : TLBIOp) | FlushAll (mem' : Z -> Z).

Fixpoint tr_run (ops : list tr_op) (mem : Z -> Z) (s : core * mmu R) : list te_result :=
  match ops with
  | [] => []
  | Translate rq :: ops' =>
      let r := getTE overflow mem (rq_now rq) None no_chaos (with_request rq w) s in r.1 :: tr_run ops' mem r.2
  | Invalidate op :: ops' => tr_run ops' mem (s.1, tlbi_exec op s.2)
  | FlushAll mem' :: ops' => tr_run ops' mem' (s.1, mmu_flushAll s.2)
  end.










End Runs.

(** ** Examples *)

Module WalkExample.

Definition va0 : Z := 0x4020103abc.

(** Four tables that map the page of [va0]; the table at level 1 forbids execution, and its
    [NSTable] bit is [ns]. *)
Definition mem0 (ns : bool) (a : Z) : Z :=
  if a =? 0x10000 then 0x11003
  else if a =? 0x11000 + 8 * 256 then Z.lor (Z.b2z ns * 2 ^ 63) (2 ^ 60 + 0x12003)
  else if a =? 0x12000 + 8 * 256 then 0x13003
  else if a =? 0x13000 + 8 * 259 then 0xabcde443
  else if a =? 0x13000 + 8 * 260 then 0xabcdf443
  else 0.

Definition ctx0 (ss : SecurityState) : walk_ctx :=
  WalkCtx 0 0 3 1 ss EL10 Read false false PA_NonSecure false false 0 0x10000 48 Grain4KB 40
    0 1 1 false 0xff 48 true true.

Definition cfg0 (id : tlb_id) : tlb_config :=
  TlbConfig 4 2 (fun l => match id with L2_SHARED => l =? 2 | _ => false end).

Definition core0 : core := Core (Engine (fun _ => 0) 0) 0 stats0 [].

Definition ask (va : Z) (mode : MMUMode) : tr_op := Translate (Request 7 va va mode false).







Definition rq1 : request := Request 7 va0 va0 Read false.
Definition rq2 : request := Request 7 (va0 + 0x1000) (va0 + 0x1000) Read false.
Definition ctx1 : walk_ctx := with_request rq1 (ctx0 SS_NonSecure).
Definition ctx2 : walk_ctx := with_request rq2 (ctx0 SS_NonSecure).

(** The partial entry that the walk of [va0] has inserted for the table of level 2. *)
Definition cached2 : TlbEntry :=
  default te_default (partials ctx1 (walk_state0 ctx1) 0 [0x11003; 2 ^ 60 + 0x12003; 0x13003] !! 2%nat).

(** A walk from the base, and one of the next page that resumes behind three tables. *)
Lemma walk_refines_tables_witness :
  (exists p2 o, pt_translate (mem0 false) ctx1 0 va0 = ([] ++ p2, o) /\
    let r := walk_effect ctx1 (fun _ => 0) 7 (walk_state0 ctx1) 0 (p2, o) (mmu_new (RP := LRU) cfg0) in
    processWalkAArch64 (fun _ => 0) (mem0 false) 7 None ctx1 te_default (core0, mmu_new cfg0) = (r.1, (core0, r.2))) /\
  (exists p2 o, pt_translate (mem0 false) ctx2 0 (va0 + 0x1000) = ([0x11003; 2 ^ 60 + 0x12003; 0x13003] ++ p2, o) /\
    let r := walk_effect ctx2 (fun _ => 0) 7 (resume_state ctx2 [0x11003; 2 ^ 60 + 0x12003; 0x13003]) 3 (p2, o)
               (mmu_new (RP := LRU) cfg0) in
    processWalkAArch64 (fun _ => 0) (mem0 false) 7 None ctx2 cached2 (core0, mmu_new cfg0) = (r.1, (core0, r.2))).
Proof.
  assert (walk_start (mem0 false) 0 ctx1 te_default []) as H1 by by apply start_base.
  split.
  - destruct (walk_refines_tables (mem0 false) ctx1 0 (fun _ => 0) 7 te_default [] core0 (mmu_new cfg0)
      (CtxOk ctx1 0 eq_refl eq_refl ltac:(done) ltac:(done)) H1) as (p2 & o & Ht & Hp & _). eauto.
  - assert (walk_start (mem0 false) 0 ctx2 cached2 [0x11003; 2 ^ 60 + 0x12003; 0x13003]) as H2.
    { refine (start_cached (mem0 false) 0 ctx2 rq1 te_default [] [0x11003; 2 ^ 60 + 0x12003; 0x13003] (PtLeaf 0xabcde443 3) 2
        cached2 cached2 _ ltac:(done) _ eq_refl eq_refl _); [by apply start_base|vm_compute; reflexivity..]. }
    destruct (walk_refines_tables (mem0 false) ctx2 0 (fun _ => 0) 7 cached2 _ core0 (mmu_new cfg0)
      (CtxOk ctx2 0 eq_refl eq_refl ltac:(done) ltac:(done)) H2) as (p2 & o & Ht & Hp & _). eauto.
Defined.

(** A 4 TiB block with 64 KiB granules and 52-bit addresses, where [1 << 42] is taken modulo
    the width of an [int] as x86 does: the entry covers 1 KiB, and the lookup after the walk
    of an address beyond finds nothing. *)
Definition ctx52 : walk_ctx :=
  WalkCtx 0 0 3 1 SS_NonSecure EL10 Read false false PA_NonSecure false false 0 0x10000 48 Grain64KB 52
    0 1 1 false 0xff 52 true false.

Lemma four_tib_block_asserts :
  tr_run (RP := LRU) (fun n => 2 ^ (n mod 32)) ctx52 [ask 0x2000 Read] (fun _ => 0x401) (core0, mmu_new cfg0) =
  [TEPanic].
Proof. vm_compute. done. Qed.

(** With a 52-bit address space the index of the first level ignores bits 48 to 51. *)
Lemma index_ignores_high_bits : ops_index Grain64KB (2 ^ 48) 1 52 = ops_index Grain64KB 0 1 52.
Proof. done. Qed.
End WalkExample.
