(* ===== verification/WalkSetup.v ===== *)
(** * The registers of a walk

    The first half of processWalkAArch64 for the first stage: the tag bits of the address
    (arch/arm/utility.cc), the choice of table base, size, granule and attributes from TCR and
    TTBR by translation regime, and its faults (arch/arm/table_walker.cc).  The theorems: an
    address that passes lies in the low or the high range of the address space, and its walk
    never panics, whatever memory holds, unless the system has FEAT_TTST, the output size is
    reserved or the address space has more than 48 bits. *)

From Stdlib Require Import ZArith Lia QArith.
From stdpp Require Import base numbers list strings.
From S2P Require Import Prelude Word AssocCache ArmTLB PageTable TableWalk.

Open Scope Z_scope.

(** ** TCR *)

(** The bit fields of TCR. *)
Record TCR := MkTCR {
  tcr_t0sz : Z; tcr_epd0 : bool; tcr_irgn0 : Z; tcr_orgn0 : Z; tcr_sh0 : Z; tcr_tg0 : Z;
  tcr_ps : Z; tcr_tbi : bool; tcr_t1sz : Z; tcr_epd1 : bool; tcr_hpd : bool; tcr_irgn1 : Z;
  tcr_orgn1 : Z; tcr_sh1 : Z; tcr_tbid : bool; tcr_tg1 : Z; tcr_ips : Z; tcr_tbi0 : bool;
  tcr_tbi1 : bool; tcr_hpd0 : bool; tcr_hpd1 : bool; tcr_tbid0 : bool; tcr_tbid1 : bool
}.

Definition TCR_fields (t : Z) : TCR :=
  MkTCR (bits t 5 0) (bit t 7) (bits t 9 8) (bits t 11 10) (bits t 13 12) (bits t 15 14)
    (bits t 18 16) (bit t 20) (bits t 21 16) (bit t 23) (bit t 24) (bits t 25 24)
    (bits t 27 26) (bits t 29 28) (bit t 29) (bits t 31 30) (bits t 34 32) (bit t 37)
    (bit t 38) (bit t 41) (bit t 42) (bit t 51) (bit t 52).

Definition GrainMap_tg0 (tg : Z) : GrainSize :=
  if tg =? 0 then Grain4KB else if tg =? 1 then Grain64KB else if tg =? 2 then Grain16KB else ReservedGrain.
Definition GrainMap_tg1 (tg : Z) : GrainSize :=
  if tg =? 0 then ReservedGrain else if tg =? 1 then Grain16KB else if tg =? 2 then Grain4KB else Grain64KB.

(** [None] is the panic on a reserved encoding. *)
Definition decodePhysAddrRange64 (pa_enc : Z) : option Z :=
  match pa_enc with
  | 0 => Some 32 | 1 => Some 36 | 2 => Some 40 | 3 => Some 42 | 4 => Some 44 | 5 => Some 48 | 6 => Some 52
  | _ => None
  end.

(** What the walk reads of the thread: TCR, TTBR0, TTBR1 and MAIR of the regime, HCR_EL2.E2H,
    SCTLR.C; the extensions of the system and its physical address range. *)
Record walk_regs := WalkRegs {
  wr_tcr : TCR; wr_ttbr0 : Z; wr_ttbr1 : Z; wr_mair : Z; wr_e2h : bool; wr_sctlr_c : bool;
  wr_lva : bool; wr_ttst : bool; wr_security : bool; wr_physAddrRange : Z; wr_walkCache : bool
}.

(** ** Address tags *)

(** A regime that has two ranges of addresses. *)
Definition two_ranges (regime : TranslationRegime) : bool :=
  match regime with EL10 | EL20 => true | _ => false end.

Definition computeAddrTop (regime : TranslationRegime) (tcr : TCR) (selbit is_instr : bool) : Z :=
  let tbi := if two_ranges regime then (if selbit then tcr_tbi1 tcr else tcr_tbi0 tcr) else tcr_tbi tcr in
  let tbid := if two_ranges regime then (if selbit then tcr_tbid1 tcr else tcr_tbid0 tcr) else tcr_tbid tcr in
  if tbi && (negb tbid || negb is_instr) then 55 else 63.

Definition maskTaggedAddr (regime : TranslationRegime) (addr topbit : Z) : Z :=
  if topbit =? 63 then addr
  else if bit addr 55 && two_ranges regime then Z.lor addr (2 ^ 64 - 2 ^ topbit)
  else bits addr topbit 0.

Definition purifyTaggedAddr (regime : TranslationRegime) (tcr : TCR) (addr : Z) (is_instr : bool) : Z :=
  maskTaggedAddr regime addr (computeAddrTop regime tcr (bit addr 55) is_instr).

(** ** The choice of the tables *)

Section Setup.
Context (wr : walk_regs) (regime : TranslationRegime).

Definition s1MinTxSz (tg : GrainSize) : Z :=
  if wr_lva wr && bool_decide (tg = Grain64KB) then 12 else 16.

Definition maxTxSz (tg : GrainSize) : Z :=
  if wr_ttst wr then match tg with Grain64KB => 47 | _ => 48 end else 39.

Definition s1TxSzFault (tg : GrainSize) (tsz : Z) : bool :=
  (maxTxSz tg <? tsz) || (tsz <? s1MinTxSz tg).

Definition checkVAOutOfRange (vaddr top_bit tsz : Z) (low_range : bool) : bool :=
  if low_range then negb (bits vaddr top_bit tsz =? 0)
  else negb (bits vaddr top_bit tsz =? mask_bits (top_bit - tsz + 1)).

(** The local variables that the switch over the regimes sets. *)
Record selection := Selection {
  sl_fault : bool; sl_ttbr : Z; sl_tsz : Z; sl_tg : GrainSize; sl_hpd : bool;
  sl_sh : Z; sl_irgn : Z; sl_orgn : Z; sl_ps : Z
}.

Definition select0 (vaddr top_bit : Z) (hpd epd : bool) (ps : Z) : selection :=
  let t := wr_tcr wr in
  let tg := GrainMap_tg0 (tcr_tg0 t) in
  let tsz := 64 - tcr_t0sz t in
  let vaddr_fault := s1TxSzFault tg (tcr_t0sz t) || checkVAOutOfRange vaddr top_bit tsz true in
  Selection (vaddr_fault || epd) (wr_ttbr0 wr) tsz tg hpd (tcr_sh0 t) (tcr_irgn0 t) (tcr_orgn0 t) ps.

Definition select1 (vaddr top_bit : Z) (epd : bool) (ps : Z) : selection :=
  let t := wr_tcr wr in
  let tg := GrainMap_tg1 (tcr_tg1 t) in
  let tsz := 64 - tcr_t1sz t in
  let vaddr_fault := s1TxSzFault tg (tcr_t1sz t) || checkVAOutOfRange vaddr top_bit tsz false in
  Selection (vaddr_fault || epd) (wr_ttbr1 wr) tsz tg (tcr_hpd1 t) (tcr_sh1 t) (tcr_irgn1 t) (tcr_orgn1 t) ps.

(** The switch of processWalkAArch64 over the regimes of the first stage. *)
Definition select_tables (vaddr top_bit : Z) : selection :=
  let t := wr_tcr wr in
  let high := bit vaddr top_bit in
  match regime with
  | EL10 =>
      if high then select1 vaddr top_bit (tcr_epd1 t) (tcr_ips t)
      else select0 vaddr top_bit (tcr_hpd0 t) (tcr_epd0 t) (tcr_ips t)
  | EL2 | EL20 =>
      let ps := if wr_e2h wr then tcr_ips t else tcr_ps t in
      if high then select1 vaddr top_bit (negb (wr_e2h wr) || tcr_epd1 t) ps
      else select0 vaddr top_bit (if wr_e2h wr then tcr_hpd0 t else tcr_hpd t) (wr_e2h wr && tcr_epd0 t) ps
  | EL3 =>
      if high then Selection true 0 0 Grain4KB false 0 0 0 (tcr_ps t)
      else select0 vaddr top_bit (tcr_hpd t) false (tcr_ps t)
  end.

(** The request and the identifiers of the address space. *)
Record walk_req := WalkReq {
  wq_vaddr : Z; wq_mode : MMUMode; wq_isAtomic : bool; wq_asid : Z; wq_vmid : Z; wq_ss : SecurityState
}.

Definition req_vaddr (q : walk_req) : Z :=
  purifyTaggedAddr regime (wr_tcr wr) (wq_vaddr q) (bool_decide (wq_mode q = Execute)).

Definition req_top (q : walk_req) : Z :=
  computeAddrTop regime (wr_tcr wr) (bit (req_vaddr q) 55) (bool_decide (wq_mode q = Execute)).

(** The state of the walk once the registers are read; [isUncacheable] and the C bit decide
    [uncacheableWalk]. *)
Definition setup_ctx (q : walk_req) (sl : selection) (pa_range : Z) : walk_ctx :=
  WalkCtx (wq_vaddr q) (req_vaddr q) (wq_asid q) (wq_vmid q) (wq_ss q) regime (wq_mode q) (wq_isAtomic q)
    false PA_NonSecure (sl_hpd sl) false 0 (sl_ttbr sl) (sl_tsz sl) (sl_tg sl) pa_range
    (sl_sh sl) (sl_irgn sl) (sl_orgn sl) (negb (wr_sctlr_c wr) || ((sl_irgn sl =? 0) || (sl_orgn sl =? 0)))
    (wr_mair wr) (wr_physAddrRange wr) (wr_security wr) (wr_walkCache wr).

(** [TableWalker::walk] and [processWalkAArch64] for a first-stage walk. *)
Definition walk {R} {RP : ReplacementPolicy R} (overflow mem : Z -> Z) (now : Z)
    (ptw : option (Z -> Z -> M (mmu R) Z)) (q : walk_req) (walkEntry : TlbEntry) : M (mmu R) walk_result :=
  let sl := select_tables (req_vaddr q) (req_top q) in
  if sl_fault sl then ret (Aborted (generateLongDescFault (setup_ctx q sl 0) TranslationLL 0))
  else
    match decodePhysAddrRange64 (sl_ps sl) with
    | None => ret Panicked
    | Some pa_range => processWalkAArch64 overflow mem now ptw (setup_ctx q sl pa_range) walkEntry
    end.
End Setup.

(** * Lemmas *)

Lemma computeAddrTop_cases regime tcr selbit is_instr :
  computeAddrTop regime tcr selbit is_instr = 55 \/ computeAddrTop regime tcr selbit is_instr = 63.
Proof. unfold computeAddrTop. destruct (_ && _); [by left|by right]. Qed.

Lemma bits_mod v n l : 0 <= l <= n -> bits v (n - 1) l = v mod 2 ^ n / 2 ^ l.
Proof.
  intros Hl. rewrite bits_div by lia. rewrite <- Z.land_ones, <- Z.land_ones, <- !Z.shiftr_div_pow2 by lia.
  apply Z.bits_inj'. intros k Hk.
  rewrite Z.land_spec, !Z.shiftr_spec, Z.land_spec, !Z.testbit_ones_nonneg by lia. f_equal.
  destruct (Z.ltb_spec k (n - 1 - l + 1)), (Z.ltb_spec (k + l) n); lia || done.
Qed.

(** A field from bit [l] up to the top of [n] bits that is zero, or all ones. *)
Lemma bits_zero v n l : 0 <= l <= n -> bits v (n - 1) l = 0 -> v mod 2 ^ n < 2 ^ l.
Proof.
  intros Hl. rewrite bits_mod by done. pose proof (Z.mod_pos_bound v (2 ^ n) ltac:(lia)).
  intros H'. apply Z.div_small_iff in H'; lia.
Qed.

Lemma bits_ones v n l : 0 <= l <= n -> bits v (n - 1) l = Z.ones (n - l) -> 2 ^ n - 2 ^ l <= v mod 2 ^ n.
Proof.
  intros Hl. rewrite bits_mod by done. pose proof (Z.mul_div_le (v mod 2 ^ n) (2 ^ l) ltac:(lia)).
  intros E. rewrite E, Z.ones_equiv in *.
  assert (2 ^ n = 2 ^ l * 2 ^ (n - l)) by (rewrite <- Z.pow_add_r by lia; f_equal; lia). lia.
Qed.

Lemma tag_ones a : 0 <= a < 2 ^ 64 -> Z.lor a (2 ^ 64 - 2 ^ 55) = 511 * 2 ^ 55 + a mod 2 ^ 55.
Proof.
  intros Ha. rewrite <- lor_add by (lia || apply Z.mod_pos_bound; lia). change (2 ^ 64 - 2 ^ 55) with (511 * 2 ^ 55).
  apply Z.bits_inj'. intros k Hk. rewrite !Z.lor_spec.
  destruct (Z.ltb_spec k 55) as [H|H]; [rewrite Z.mod_pow2_bits_low by lia; apply orb_comm|].
  rewrite (Z.mod_pow2_bits_high a) by lia. rewrite orb_false_r.
  replace (511 * 2 ^ 55) with (Z.shiftl (Z.ones 9) 55) by done.
  rewrite Z.shiftl_spec, Z.testbit_ones_nonneg by lia. destruct (Z.ltb_spec (k - 55) 9); [apply orb_true_r|].
  rewrite orb_false_r. rewrite <- (Z.mod_small a (2 ^ 64)) by lia. apply Z.mod_pow2_bits_high. lia.
Qed.

(** The shapes of a purified address: untagged, or with tag bits that are clear or copies of a
    set bit 55. *)
Lemma purify_cases regime tcr a i :
  0 <= a < 2 ^ 64 -> let v := purifyTaggedAddr regime tcr a i in
  let top := computeAddrTop regime tcr (bit v 55) i in
  0 <= v < 2 ^ 64 /\
  (top = 63 \/ top = 55 /\ (v < 2 ^ 55 \/ v < 2 ^ 56 /\ two_ranges regime = false \/
     2 ^ 64 - 2 ^ 55 <= v)).
Proof.
  intros Ha v top. assert (bit v 55 = bit a 55) as Hb.
  { unfold v, purifyTaggedAddr, maskTaggedAddr, bit, bits, mask_bits.
    destruct (computeAddrTop_cases regime tcr (Z.testbit a 55) i) as [->| ->]; cbn [Z.eqb Pos.eqb]; [|done].
    destruct (Z.testbit a 55 && _) eqn:E; bools.
    - rewrite Z.lor_spec. by rewrite orb_true_r.
    - rewrite Z.shiftr_0_r, Z.land_ones by lia. by apply Z.mod_pow2_bits_low. }
  unfold top. rewrite Hb. unfold v, purifyTaggedAddr, maskTaggedAddr.
  destruct (computeAddrTop_cases regime tcr (bit a 55) i) as [->| ->]; cbn [Z.eqb Pos.eqb]; [|by split; [|left]].
  destruct (bit a 55 && two_ranges regime) eqn:E.
  - bools. rewrite tag_ones by done. pose proof (Z.mod_pos_bound a (2 ^ 55) ltac:(lia)) as Hm. split; [lia|].
    right. split; [done|]. do 2 right. lia.
  - rewrite bits_div by lia. change (2 ^ (55 - 0 + 1)) with (2 ^ 56). change (2 ^ 0) with 1. rewrite Z.div_1_r.
    pose proof (Z.mod_pos_bound a (2 ^ 56) ltac:(lia)). split; [lia|].
    right. split; [done|]. unfold bit in E. destruct (Z.testbit a 55) eqn:E55; [right; left; split; [lia|exact E]|left].
    apply Z.testbit_false in E55; [|done]. apply (bits_zero a 56 55); [lia|]. by rewrite bits_div by lia.
Qed.

Section SetupFacts.
Context (wr : walk_regs) (regime : TranslationRegime).
(** With HCR_EL2.E2H set, EL2 has the regime EL20. *)
Context (Hhost : regime = EL2 -> wr_e2h wr = false).

(** The size is legal and the address is in the low range, or in the high range of a regime
    that has one. *)
Definition selected (va top : Z) (sl : selection) : Prop :=
  s1MinTxSz wr (sl_tg sl) <= 64 - sl_tsz sl <= maxTxSz wr (sl_tg sl) /\
  (bit va top = false /\ bits va top (sl_tsz sl) = 0 \/
   two_ranges regime = true /\ bits va top (sl_tsz sl) = Z.ones (top - sl_tsz sl + 1)).

Lemma select0_ok va top hpd epd ps :
  bit va top = false -> sl_fault (select0 wr va top hpd epd ps) = false -> selected va top (select0 wr va top hpd epd ps).
Proof.
  intros Hb H. unfold select0, s1TxSzFault, checkVAOutOfRange in *. cbn [sl_fault sl_tsz sl_tg] in *. bools.
  split; cbn [sl_tsz sl_tg]; [lia|]. left. split; [done|lia].
Qed.

Lemma select1_ok va top epd ps :
  two_ranges regime = true -> sl_fault (select1 wr va top epd ps) = false -> selected va top (select1 wr va top epd ps).
Proof.
  intros Hb H. unfold select1, s1TxSzFault, checkVAOutOfRange, mask_bits in *. cbn [sl_fault sl_tsz sl_tg] in *. bools.
  split; cbn [sl_tsz sl_tg]; [lia|]. right. split; [done|lia].
Qed.

Lemma select_tables_ok va top :
  sl_fault (select_tables wr regime va top) = false -> selected va top (select_tables wr regime va top).
Proof.
  unfold select_tables. destruct (bit va top) eqn:Eb; destruct regime eqn:Er;
    try (by apply select0_ok); try (apply select1_ok; by rewrite Er); [|done].
  rewrite (Hhost eq_refl). unfold select1. cbn [sl_fault negb orb]. by rewrite orb_true_r.
Qed.

Lemma sizes_ok tg txsz : s1MinTxSz wr tg <= txsz <= maxTxSz wr tg -> 12 <= txsz <= 48.
Proof. unfold s1MinTxSz, maxTxSz. destruct (wr_lva wr && _), (wr_ttst wr), tg; lia. Qed.

Lemma select_range q sl :
  0 <= wq_vaddr q < 2 ^ 64 -> sl = select_tables wr regime (req_vaddr wr regime q) (req_top wr regime q) ->
  sl_fault sl = false ->
  let va := req_vaddr wr regime q in
  0 <= va < 2 ^ sl_tsz sl \/ two_ranges regime = true /\ 2 ^ 64 - 2 ^ sl_tsz sl <= va < 2 ^ 64.
Proof.
  intros Hq -> H va. destruct (select_tables_ok _ _ H) as [Hsz Hr]. apply sizes_ok in Hsz.
  set (sl := select_tables _ _ _ _) in *. fold va in Hr.
  destruct (purify_cases regime (wr_tcr wr) (wq_vaddr q) (bool_decide (wq_mode q = Execute)) Hq) as [Hv Hc].
  fold (req_vaddr wr regime q) in Hv, Hc. fold (req_top wr regime q) in Hc. fold va in Hv, Hc.
  assert (2 ^ sl_tsz sl <= 2 ^ 52) by (apply Z.pow_le_mono_r; lia).
  pose proof (Z.div_mod va (2 ^ 56) ltac:(lia)). pose proof (Z.mod_pos_bound va (2 ^ 56) ltac:(lia)).
  destruct Hc as [Et|[Et Hc]]; rewrite Et in Hr; destruct Hr as [[_ Hb]|[H2r Hb]].
  - apply (bits_zero va 64) in Hb; [|lia]. rewrite Z.mod_small in Hb by done. left. lia.
  - replace (63 - sl_tsz sl + 1) with (64 - sl_tsz sl) in Hb by lia.
    apply (bits_ones va 64) in Hb; [|lia]. rewrite Z.mod_small in Hb by done. right. split; [done|lia].
  - apply (bits_zero va 56) in Hb; [|lia]. left. nia.
  - replace (55 - sl_tsz sl + 1) with (56 - sl_tsz sl) in Hb by lia.
    apply (bits_ones va 56) in Hb; [|lia]. right. split; [done|].
    destruct Hc as [Hc|[[_ Hc]|Hc]]; [|congruence|]; nia.
Qed.

Lemma decode_range ps pa : decodePhysAddrRange64 ps = Some pa -> 32 <= pa.
Proof. unfold decodePhysAddrRange64. intros H. repeat case_match; simplify_eq; lia. Qed.

Lemma first_exists tg txsz :
  16 <= txsz <= 39 -> exists first, firstLevel (match tg with ReservedGrain => Grain4KB | g => g end) txsz = Some first.
Proof.
  intros H. unfold firstLevel, firstLevel4k, firstLevel16k, firstLevel64k, within. destruct tg;
    repeat (case_match; [by eexists|]); repeat case_match; try (by eexists); exfalso; bools; lia.
Qed.

Lemma setup_ctx_ok q sl pa :
  wr_ttst wr = false -> wr_lva wr = false -> 32 <= wr_physAddrRange wr ->
  s1MinTxSz wr (sl_tg sl) <= 64 - sl_tsz sl <= maxTxSz wr (sl_tg sl) -> decodePhysAddrRange64 (sl_ps sl) = Some pa ->
  exists first, ctx_ok (setup_ctx wr regime q sl pa) first.
Proof.
  intros Ht Hl Hp Hsz Hd. unfold s1MinTxSz, maxTxSz in Hsz. rewrite Ht, Hl in Hsz. cbn [andb] in Hsz.
  destruct (first_exists (sl_tg sl) (64 - sl_tsz sl) Hsz) as [first Hf]. exists first.
  split; [done|unfold ctx_grain; cbn [wc_tg wc_tsz setup_ctx]; by destruct (sl_tg sl)|cbn; lia|]. split; [by eapply decode_range|done].
Qed.

(** A walk that starts at a level of the tables ends at a leaf or a fault, whatever the
    memory and an injector make of the descriptors. *)
Lemma doLongDescriptor_ends {R} {RP : ReplacementPolicy R} overflow mem now ptw fuel w ws level addr (s : core * mmu R) :
  level <= 3 -> (levels_from level <= fuel)%nat ->
  (doLongDescriptor overflow mem now ptw fuel w ws level addr s).1 <> Panicked.
Proof.
  induction fuel as [|fuel IH] in ws, level, addr, s |- *; intros Hl Hf; [unfold levels_from in Hf; lia|].
  cbn [doLongDescriptor]. unfold bind at 1. set (f := match ptw with Some h => h _ _ | None => ret _ end).
  destruct (f s) as [d s1]. cbn [fst snd].
  destruct (desc_type (ctx_format w) d level) eqn:Et; [done| |by repeat case_match..].
  destruct (checkAddrSizeFaultAArch64 _ _); [done|]. unfold bind at 1.
  assert (level <> 3) as H3 by (intros ->; unfold desc_type in Et; by repeat case_match).
  destruct (Z.ltb_spec 3 (level + 1)); [lia|]. apply IH; [lia|]. unfold levels_from in *. lia.
Qed.
End SetupFacts.

(** C36 A first-stage walk is safe on a system without FEAT_TTST and FEAT_LVA whose TCR holds no
    reserved output size: whatever memory contains and whatever an injector does to the
    descriptors, it never panics; tables are only walked for an address in the low range or,
    in a regime that has one, the high range of the size that TCR gives, once its tag is
    removed; and such a walk satisfies the assumptions under which translations are
    correct. *)
Theorem walk_safe {R} {RP : ReplacementPolicy R} wr regime overflow mem now ptw q (s : core * mmu R) :
  (regime = EL2 -> wr_e2h wr = false) -> 0 <= wq_vaddr q < 2 ^ 64 ->
  wr_ttst wr = false -> wr_lva wr = false -> 32 <= wr_physAddrRange wr ->
  let sl := select_tables wr regime (req_vaddr wr regime q) (req_top wr regime q) in
  decodePhysAddrRange64 (sl_ps sl) <> None ->
  let va := req_vaddr wr regime q in
  (walk wr regime overflow mem now ptw q te_default s).1 <> Panicked /\
  (sl_fault sl = false ->
   (0 <= va < 2 ^ sl_tsz sl \/ two_ranges regime = true /\ 2 ^ 64 - 2 ^ sl_tsz sl <= va < 2 ^ 64) /\
   forall pa, decodePhysAddrRange64 (sl_ps sl) = Some pa -> exists first, ctx_ok (setup_ctx wr regime q sl pa) first).
Proof.
  intros Hhost Hq Ht Hl Hp sl Hd va. unfold walk. cbn zeta. fold sl.
  assert (sl_fault sl = false -> forall pa, decodePhysAddrRange64 (sl_ps sl) = Some pa ->
    exists first, ctx_ok (setup_ctx wr regime q sl pa) first) as Hctx.
  { intros Hf pa Hpa. apply setup_ctx_ok; [done..| |done]. by apply (select_tables_ok wr regime Hhost). }
  split; [|intros Hf; split; [by apply (select_range wr regime Hhost q sl)|by apply Hctx]].
  destruct (sl_fault sl) eqn:Ef; [done|]. destruct (decodePhysAddrRange64 (sl_ps sl)) as [pa|]; [|done].
  destruct (Hctx eq_refl pa eq_refl) as [first Hok]. unfold processWalkAArch64.
  rewrite (walkAddresses_root _ first Hok) by done.
  destruct (checkAddrSizeFaultAArch64 _ _); [done|].
  destruct (in_walk_ok _ _ Hok _ (first_in_walk _ _ Hok)) as [(_ & Hr & _) _].
  apply doLongDescriptor_ends; [lia|]. unfold levels_from, walk_fuel. lia.
Qed.

(** ** Examples *)

Module SetupExample.

(** TCR with two ranges of 48 bits, 4 KiB granules, 40-bit output and tags in the low range. *)
Definition tcr0 : Z := 2 ^ 37 + 2 * 2 ^ 32 + 2 * 2 ^ 30 + 16 * 2 ^ 16 + 16.

Definition regs0 (ttst : bool) (t0sz : Z) : walk_regs :=
  WalkRegs (TCR_fields (tcr0 - 16 + t0sz)) 0x10000 0x20000 0xff false true false ttst true 48 true.

Definition req0 (va : Z) : walk_req := WalkReq va Read false 3 1 SS_NonSecure.

Definition run0 (ttst : bool) (t0sz va : Z) : walk_result :=
  (walk (R := LRUReplData) (regs0 ttst t0sz) EL10 (fun _ => 0) (WalkExample.mem0 false) 7 None (req0 va) te_default
     (WalkExample.core0, mmu_new WalkExample.cfg0)).1.

Lemma walk_safe_witness :
  run0 false 16 (0xa5 * 2 ^ 56 + WalkExample.va0) <> Panicked /\
  run0 false 16 (0xa5 * 2 ^ 56 + WalkExample.va0) = Walked /\ run0 false 16 (2 ^ 54) <> Walked.
Proof.
  split; [|by vm_compute].
  refine (proj1 (walk_safe (regs0 false 16) EL10 (fun _ => 0) (WalkExample.mem0 false) 7 None
    (req0 (0xa5 * 2 ^ 56 + WalkExample.va0)) (WalkExample.core0, mmu_new WalkExample.cfg0) _ _ _ _ _ _));
    by vm_compute.
Defined.

(** With FEAT_TTST a 24-bit address space passes the check of TCR, and the walk panics for
    want of a first level. *)
Lemma ttst_panics : run0 true 40 0 = Panicked.
Proof. by vm_compute. Qed.
End SetupExample.
