(* ===== verification/ChaosPTW.v ===== *)
(** * CHAOSPTW

    The injector that doLongDescriptor calls between the fetch and the evaluation of a
    descriptor (arch/arm/CHAOSPTW): it clears the valid bits or flips bits of one byte, with a
    model of ECC that corrects single flips.  The theorems: the exact effect of a call, with
    the counters; that a walk whose first descriptor loses its valid bits ends in a
    translation fault and leaves the TLBs alone; and that under ECC, unless the valid bits are
    cleared, flips of one bit change no walk at all. *)

From Stdlib Require Import ZArith Lia QArith.
From stdpp Require Import base numbers list strings.
From S2P Require Import Prelude Word Random EventQueue AttackLoop HookGate AssocCache ArmTLB PageTable TableWalk.

Open Scope Z_scope.

Record ptw_inj := PtwInj {
  pi_gate : gate_params;              (* probability, firstClock, lastClock as ticks, maxFaults *)
  pi_bits : Z; pi_mask : Z; pi_offset : Z; pi_clear : bool; pi_ecc : bool; pi_log : bool
}.

Definition longDescInvalid (v : Z) : bool := Z.land v 3 =? 0.
Definition shortDescInvalid (v : Z) : bool := Z.land v 1 =? 0.

(** [(size == 8) ? longDescInvalid(corr) : shortDescInvalid((uint32_t)corr)] *)
Definition desc_invalid (size v : Z) : bool :=
  if size =? 8 then longDescInvalid v else shortDescInvalid (u32 v).

Section CHAOSPTW.
Context {X : Type} (p : ptw_inj) (now : Z).

(** The counters and the log of a fault that left [corr]. *)
Definition ptw_count (size orig corr desc_addr : Z) : M X unit :=
  let became_invalid := desc_invalid size corr in
  do! bump numFaultsInjected in
  do! incr_count in
  do! bump (if became_invalid then numSpuriousFaults else numBenignFlips) in
  log_if (pi_log p) (Entry "ptw_descriptor_read"
    [("tick", now); ("addr", desc_addr); ("orig", orig); ("corr", corr); ("invalid", Z.b2z became_invalid)]).

(** The byte to flip. *)
Definition ptw_offset (size : Z) (g : engine) : Z * engine :=
  let r := if pi_offset p <? 0 then uniform_int 0 (size - 1) g else (pi_offset p, g) in
  (if size <=? r.1 then size - 1 else r.1, r.2).

(** [CHAOSPTW::generateRandomMask] and the choice of the mask. *)
Definition ptw_mask (g : engine) : Z * engine :=
  if negb (pi_mask p =? 0) then (Z.land (pi_mask p) 0xff, g) else random_mask (pi_bits p) 0 7 g.

(** [CHAOSPTW::corruptDescriptor] on a little-endian descriptor of [size] bytes; the result is
    the descriptor left in the buffer. *)
Definition corruptDescriptor (size data desc_addr : Z) : M X Z :=
  let! b := gate (pi_gate p) now in
  if b then
    if size =? 0 then ret data
    else if pi_clear p then
      let new_val := Z.land data (Z.lnot (if size =? 8 then 3 else 1)) in
      do! ptw_count size data new_val desc_addr in
      ret new_val
    else
      let! off := with_rng (ptw_offset size) in
      let! mask := with_rng ptw_mask in
      if mask =? 0 then ret data
      else if pi_ecc p && (popcount mask <? 2) then
        do! bump numEccCorrected in
        do! log_if (pi_log p) (Entry "ECC-corrected single-bit flip" [("tick", now); ("mask", mask)]) in
        ret data
      else
        let corr := Z.lxor data (Z.shiftl mask (8 * off)) in
        do! ptw_count size data corr desc_addr in
        ret corr
  else ret data.
End CHAOSPTW.

(** The hook of doLongDescriptor. *)
Definition ptw_hook {R} (p : ptw_inj) (now : Z) : option (Z -> Z -> M (mmu R) Z) :=
  Some (fun data vaddr => corruptDescriptor p now 8 data vaddr).

(** * Lemmas *)

Section Effect.
Context {X : Type} (p : ptw_inj) (now : Z).

#[global] Instance corruptDescriptor_capped size data a :
  CappedHook (X := X) (g_max (pi_gate p)) (corruptDescriptor p now size data a).
Proof. unfold corruptDescriptor, ptw_count. counted. Qed.

(** What a call may do to a 64-bit descriptor: nothing, or one counted fault. *)
Definition ptw_effect (data : Z) (s : core * X) (r : Z * (core * X)) : Prop :=
  r.2.2 = s.2 /\
  ((r.1 = data /\ count_of r.2 = count_of s) \/
   (in_window (g_first (pi_gate p)) (g_last (pi_gate p)) now = true /\
    cap_reached (g_max (pi_gate p)) (count_of s) = false /\
    count_of r.2 = count_succ (count_of s) /\
    (forall k, the_stats r.2.1 k = the_stats s.1 k +
       (if decide (k = numFaultsInjected) then 1
        else if decide (k = (if r.1 mod 4 =? 0 then numSpuriousFaults else numBenignFlips)) then 1 else 0)) /\
    if pi_clear p then r.1 = data - data mod 4
    else exists off mask, 0 <= off < 8 /\ 0 < mask < 2 ^ 8 /\ (pi_ecc p = true -> 2 <= popcount mask) /\
         r.1 = Z.lxor data (mask * 2 ^ (8 * off)))).

Lemma invalid_mod v : longDescInvalid v = (v mod 4 =? 0).
Proof. unfold longDescInvalid. change 3 with (Z.ones 2). by rewrite Z.land_ones. Qed.

Lemma clear_valid v : Z.land v (Z.lnot 3) = v - v mod 4.
Proof.
  rewrite <- Z.ldiff_land. change 3 with (Z.ones 2). rewrite Z.ldiff_ones_r, Z.shiftr_div_pow2, Z.shiftl_mul_pow2 by lia.
  change (2 ^ 2) with 4. pose proof (Z.div_mod v 4). lia.
Qed.

Lemma ptw_offset_range g : 0 <= (ptw_offset p 8 g).1 < 8.
Proof.
  unfold ptw_offset. destruct (Z.ltb_spec (pi_offset p) 0) as [Ho|Ho]; cbn [fst snd].
  - unfold uniform_int. cbn [fst]. pose proof (Z.mod_pos_bound (next_raw g).1 (8 - 1 - 0 + 1) ltac:(lia)).
    destruct (Z.leb_spec 8 (0 + (next_raw g).1 mod (8 - 1 - 0 + 1))); lia.
  - destruct (Z.leb_spec 8 (pi_offset p)); lia.
Qed.

Lemma ptw_mask_range g : 0 <= (ptw_mask p g).1 < 2 ^ 8.
Proof.
  unfold ptw_mask. destruct (negb _); cbn [fst].
  - change 0xff with (Z.ones 8). rewrite Z.land_ones by lia. apply Z.mod_pos_bound. lia.
  - by apply (or_random_bits_uint 8).
Qed.

Lemma ptw_count_run data corr a (s : core * X) : exists lg,
  ptw_count p now 8 data corr a s =
  (tt, (Core (rng s.1) (count_succ (count_of s))
     (bump_stat (if corr mod 4 =? 0 then numSpuriousFaults else numBenignFlips)
        (bump_stat numFaultsInjected (the_stats s.1))) lg, s.2)).
Proof.
  destruct s as [[g c st lg] x]. unfold ptw_count, desc_invalid. cbn [Z.eqb Pos.eqb]. rewrite invalid_mod.
  unfold log_if. destruct (pi_log p); by eexists.
Qed.

Lemma two_stats k k' (st : stats) : k' <> numFaultsInjected ->
  bump_stat k' (bump_stat numFaultsInjected st) k =
  st k + (if decide (k = numFaultsInjected) then 1 else if decide (k = k') then 1 else 0).
Proof. intros H. unfold bump_stat. repeat case_decide; subst; done || lia. Qed.

Lemma ptw_counted data corr a (s s0 : core * X) :
  s.2 = s0.2 -> count_of s = count_of s0 -> the_stats s.1 = the_stats s0.1 ->
  in_window (g_first (pi_gate p)) (g_last (pi_gate p)) now = true ->
  cap_reached (g_max (pi_gate p)) (count_of s0) = false ->
  (if pi_clear p then corr = data - data mod 4
   else exists off mask, 0 <= off < 8 /\ 0 < mask < 2 ^ 8 /\ (pi_ecc p = true -> 2 <= popcount mask) /\
        corr = Z.lxor data (mask * 2 ^ (8 * off))) ->
  ptw_effect data s0 ((do! ptw_count p now 8 data corr a in ret corr) s).
Proof.
  intros E2 Ec Es Hw Hc Hcorr. unfold bind, ret. destruct (ptw_count_run data corr a s) as [lg ->].
  split; cbn [fst snd]; [done|]. right. split; [done|]. split; [done|]. split; [by rewrite <- Ec|].
  split; [|done]. intros k. cbn [the_stats]. rewrite two_stats by (by destruct (_ =? _)). by rewrite Es.
Qed.

Lemma corruptDescriptor_effect data a s : ptw_effect data s (corruptDescriptor p now 8 data a s).
Proof.
  unfold corruptDescriptor. unfold bind at 1.
  destruct (gate_spec (pi_gate p) now s) as (b & g & -> & _ & Hb). cbn [fst snd].
  destruct b; [|by split; [|left]]. destruct (Hb eq_refl) as [Hw Hc]. cbn [Z.eqb Pos.eqb].
  destruct (pi_clear p) eqn:Ecl.
  - apply ptw_counted; [done..|]. rewrite Ecl. apply clear_valid.
  - unfold bind at 1. cbn [with_rng rng faults_injected_count the_stats the_log].
    pose proof (ptw_offset_range g) as Ho. destruct (ptw_offset p 8 g) as [off g1]. cbn [fst snd] in *.
    unfold bind at 1. cbn [with_rng rng faults_injected_count the_stats the_log]. pose proof (ptw_mask_range g1) as Hm. destruct (ptw_mask p g1) as [mask g2]. cbn [fst snd] in *.
    destruct (Z.eqb_spec mask 0); [by split; [|left]|].
    destruct (pi_ecc p && (popcount mask <? 2)) eqn:Ee.
    + unfold log_if. destruct (pi_log p); (split; [done|left; by split]).
    + apply ptw_counted; [done..|]. rewrite Ecl. exists off, mask. split; [done|]. split; [lia|].
      split; [|by rewrite Z.shiftl_mul_pow2 by lia]. intros E. rewrite E in Ee. cbn [andb] in Ee.
      apply Z.ltb_ge in Ee. done.
Qed.
End Effect.

(** A call of CHAOSPTW on a 64-bit descriptor either leaves descriptor and counter alone or
    counts exactly one fault, inside the window and below the cap.  Then it has cleared the two
    valid bits, or flipped a mask of between one and eight bits of one byte, of at least two
    bits under ECC; and it is counted as spurious exactly if both valid bits are now clear, as
    benign otherwise.  The state of the MMU is never touched. *)
Theorem ptw_fault_effect {X} p now data a (s : core * X) : ptw_effect p now data s (corruptDescriptor p now 8 data a s).
Proof. apply corruptDescriptor_effect. Qed.

(** The mask of a bit flip has at most one bit: configured so, or drawn with at most one. *)
Definition at_most_one_bit (p : ptw_inj) : Prop :=
  (pi_mask p <> 0 /\ popcount (Z.land (pi_mask p) 0xff) <= 1) \/ (pi_mask p = 0 /\ pi_bits p <= 1).

Lemma ptw_mask_one p g : at_most_one_bit p -> popcount (ptw_mask p g).1 <= 1.
Proof.
  unfold ptw_mask. intros [[Hm Hp]|[-> Hb]].
  - destruct (Z.eqb_spec (pi_mask p) 0); [done|]. done.
  - change (negb (0 =? 0)) with false. destruct (random_mask_range (pi_bits p) 0 7 g) as (_ & _ & H); [lia|]. lia.
Qed.

Section Walks.
Context {R : Type} {RP : ReplacementPolicy R} (overflow mem : Z -> Z) (now : Z).

(** A hook that hands every descriptor back and counts no fault. *)
Definition harmless (h : Z -> Z -> M (mmu R) Z) : Prop :=
  forall d va s, (h d va s).1 = d /\ (h d va s).2.2 = s.2 /\ count_of (h d va s).2 = count_of s.

Lemma harmless_walk h fuel w ws level addr c c' (m : mmu R) :
  harmless h ->
  let r := doLongDescriptor overflow mem now (Some h) fuel w ws level addr (c, m) in
  let r' := doLongDescriptor overflow mem now None fuel w ws level addr (c', m) in
  r.1 = r'.1 /\ r.2.2 = r'.2.2 /\ faults_injected_count r.2.1 = faults_injected_count c.
Proof.
  intros Hh. cbn zeta. induction fuel as [|fuel IH] in ws, level, addr, c, c', m |- *; [done|].
  cbn [doLongDescriptor]. rewrite (bind_run (h _ _)), (bind_run (ret (mem addr))).
  change (ret (mem addr) (c', m)) with (mem addr, (c', m)).
  destruct (Hh (mem addr) (wc_vaddr_tainted w) (c, m)) as (H1 & H2 & H3).
  destruct (h _ _ _) as [d [c1 m1]]. unfold count_of in H3. cbn [fst snd] in *. subst d m1. rewrite <- H3.
  destruct (desc_type _ _ _); [done| |by repeat case_match..].
  destruct (checkAddrSizeFaultAArch64 _ _); [done|]. rewrite !bind_run.
  destruct (wc_walkCache w); cbn [whenM]; destruct (3 <? level + 1); try done; apply IH.
Qed.

Lemma ecc_harmless p :
  pi_clear p = false -> pi_ecc p = true -> at_most_one_bit p -> harmless (fun data va => corruptDescriptor p now 8 data va).
Proof.
  intros Hcl He Hm d va s. unfold corruptDescriptor. rewrite bind_run.
  destruct (gate_spec (pi_gate p) now s) as (b & g & -> & _). cbn [fst snd]. destruct b; [|done].
  rewrite Hcl, He. cbn [Z.eqb Pos.eqb]. rewrite bind_run. cbn [with_rng fst snd].
  rewrite bind_run. cbn [with_rng fst snd rng].
  pose proof (ptw_mask_one p (ptw_offset p 8 g).2 Hm) as Hp. destruct (ptw_mask p _) as [mask g2]. cbn [fst snd] in *.
  destruct (_ =? 0); [done|]. destruct (Z.ltb_spec (popcount mask) 2); [|lia]. unfold log_if. by destruct (pi_log p).
Qed.

Lemma cleared_type df level v : desc_type df (v - v mod 4) level = Invalid.
Proof.
  unfold desc_type. replace (bits (v - v mod 4) 1 0) with 0; [done|]. rewrite bits_div by lia.
  change (2 ^ 0) with 1. rewrite Z.div_1_r. change (2 ^ (1 - 0 + 1)) with 4.
  rewrite Zminus_mod_idemp_r, Z.sub_diag. done.
Qed.

Lemma clear_run p d va (s : core * mmu R) :
  pi_clear p = true -> (1 <= g_probability (pi_gate p))%Q ->
  in_window (g_first (pi_gate p)) (g_last (pi_gate p)) now = true ->
  cap_reached (g_max (pi_gate p)) (count_of s) = false ->
  let r := corruptDescriptor p now 8 d va s in
  r.1 = d - d mod 4 /\ r.2.2 = s.2 /\ count_of r.2 = count_succ (count_of s).
Proof.
  intros Hcl Hp Hw Hc. pose proof (gate_certain (pi_gate p) now s Hp Hw Hc) as Hg. cbn zeta. unfold corruptDescriptor.
  rewrite bind_run. destruct (gate_spec (pi_gate p) now s) as (b & g & E & _ & _). rewrite E in *. cbn [fst snd] in *.
  subst b. cbn [Z.eqb Pos.eqb]. rewrite Hcl. rewrite bind_run. destruct (ptw_count_run p now d (Z.land d (Z.lnot 3)) va
    (Core g (count_of s) (the_stats s.1) (the_log s.1), s.2)) as [lg ->].
  cbn [fst snd ret]. split; [apply clear_valid|done].
Qed.
End Walks.

(** C40 ECC hides single-bit faults from translation.  With the ECC model, without
    clearValidBit (which ECC does not see), and with flips of at most one bit, because the
    configured mask has at most one bit in its low byte or because bitsToChange is at most 1
    and no mask is configured, every walk, in whatever tables and from whatever walk-cache
    entry, ends as without the injector, leaves the same TLBs and counts no fault. *)
Theorem ptw_ecc_hides_one_bit {R} {RP : ReplacementPolicy R} p overflow mem now w we c (m : mmu R) :
  pi_clear p = false -> pi_ecc p = true -> at_most_one_bit p ->
  let r := processWalkAArch64 overflow mem now (ptw_hook p now) w we (c, m) in
  let r' := processWalkAArch64 overflow mem now None w we (c, m) in
  r.1 = r'.1 /\ r.2.2 = r'.2.2 /\ faults_injected_count r.2.1 = faults_injected_count c.
Proof.
  intros Hcl He Hm. unfold processWalkAArch64. destruct (walkAddresses _ _ _) as [[[[t a] l] ws]|]; [|done].
  destruct (checkAddrSizeFaultAArch64 _ _); [done|]. by apply harmless_walk, ecc_harmless.
Qed.

(** Spurious faults are manufactured reliably.  With clearValidBit, probability 1, an open
    window and the cap not reached, a walk that gets as far as fetching its first descriptor
    ends in a translation fault of that level, whatever the tables hold; it inserts nothing
    into the TLBs and one fault is counted. *)
Theorem ptw_clear_faults {R} {RP : ReplacementPolicy R} p overflow mem now w we c (m : mmu R) table addr level ws :
  pi_clear p = true -> (1 <= g_probability (pi_gate p))%Q ->
  in_window (g_first (pi_gate p)) (g_last (pi_gate p)) now = true ->
  cap_reached (g_max (pi_gate p)) (faults_injected_count c) = false ->
  walkAddresses w (walk_state0 w) we = Some (table, addr, level, ws) ->
  checkAddrSizeFaultAArch64 w table = false ->
  let r := processWalkAArch64 overflow mem now (ptw_hook p now) w we (c, m) in
  r.1 = Aborted (generateLongDescFault w TranslationLL level) /\ r.2.2 = m /\
  faults_injected_count r.2.1 = count_succ (faults_injected_count c).
Proof.
  intros Hcl Hp Hw Hc Ha Hs. unfold processWalkAArch64. rewrite Ha, Hs. cbn zeta. unfold walk_fuel.
  cbn [doLongDescriptor]. unfold ptw_hook. rewrite bind_run.
  destruct (clear_run now p (mem addr) (wc_vaddr_tainted w) (c, m) Hcl Hp Hw Hc) as (E1 & E2 & E3).
  destruct (corruptDescriptor _ _ _ _ _ _) as [d [c1 m1]]. cbn [fst snd] in *. subst d m1.
  rewrite cleared_type. cbn [ret fst snd]. done.
Qed.

(** ** Examples *)

Module PtwExample.
Import WalkExample.

Definition gate1 : gate_params := GateParams 1 0 0 0.
Definition flip (mask off : Z) (ecc : bool) : ptw_inj := PtwInj gate1 1 mask off false ecc false.
Definition clear : ptw_inj := PtwInj gate1 1 0 0 true false false.

(** Four corrected flips: of a configured bit, and of drawn ones. *)
Lemma ptw_ecc_hides_one_bit_witness :
  let r mask := processWalkAArch64 (RP := LRU) (fun _ => 0) (mem0 false) 7 (ptw_hook (flip mask 0 true) 7) ctx1 te_default
             (core0, mmu_new cfg0) in
  let r' := processWalkAArch64 (fun _ => 0) (mem0 false) 7 None ctx1 te_default (core0, mmu_new cfg0) in
  ((r 2).1 = r'.1 /\ the_stats (r 2).2.1 numEccCorrected = 4) /\ ((r 0).1 = r'.1 /\ the_stats (r 0).2.1 numEccCorrected = 4).
Proof.
  split; (split; [|vm_compute; reflexivity]).
  - apply (ptw_ecc_hides_one_bit (flip 2 0 true) (fun _ => 0) (mem0 false) 7 ctx1 te_default core0 (mmu_new cfg0)
      eq_refl eq_refl). by left.
  - apply (ptw_ecc_hides_one_bit (flip 0 0 true) (fun _ => 0) (mem0 false) 7 ctx1 te_default core0 (mmu_new cfg0)
      eq_refl eq_refl). by right.
Defined.

Lemma ptw_clear_faults_witness :
  let r := processWalkAArch64 (RP := LRU) (fun _ => 0) (mem0 false) 7 (ptw_hook clear 7) ctx1 te_default
             (core0, mmu_new cfg0) in
  r.1 = Aborted (generateLongDescFault ctx1 TranslationLL 0) /\ r.2.2 = mmu_new cfg0 /\
  faults_injected_count r.2.1 = 1.
Proof.
  exact (ptw_clear_faults clear (fun _ => 0) (mem0 false) 7 ctx1 te_default core0 (mmu_new cfg0) 0x10000 0x10000 0
    (walk_state0 ctx1) eq_refl ltac:(done) eq_refl eq_refl eq_refl eq_refl).
Defined.

(** A flip of the low valid bit of a table descriptor is counted as benign, and the walk
    ends in a translation fault. *)
Lemma benign_flip_faults :
  let r := processWalkAArch64 (RP := LRU) (fun _ => 0) (mem0 false) 7 (ptw_hook (flip 1 0 false) 7) ctx1 te_default
             (core0, mmu_new cfg0) in
  r.1 = Aborted (generateLongDescFault ctx1 TranslationLL 0) /\
  the_stats r.2.1 numBenignFlips = 1 /\ the_stats r.2.1 numSpuriousFaults = 0.
Proof. vm_compute. done. Qed.
End PtwExample.
