(* ===== verification/ChaosSysReg.v ===== *)
(** * CHAOSArmSysReg

    The injector behind [ISA::readMiscRegNoEffect] (arch/arm/CHAOSArmSysReg): the whitelist of
    register names it is configured with, the corruption of the value that a read of a
    whitelisted register returns, and the read itself (arch/arm/isa.cc).  The tables of the
    ISA (names, masks and mappings of the registers) are arguments.  The theorems: parsing a
    rendered list of names gives back their registers; the exact effect of a read, which never
    changes a register; and what the mode "value_to_legal" does to a translation table base,
    which composes with the walk of TableWalk.v. *)

From Stdlib Require Import ZArith Lia QArith SpecFloat Ascii.
From stdpp Require Import base sets gmap numbers list strings.
From S2P Require Import Prelude Word Random EventQueue AttackLoop HookGate AssocCache ArmTLB PageTable TableWalk ChaosTLB.

Open Scope Z_scope.

(** ** The whitelist *)

Definition is_blank (c : ascii) : bool := Ascii.eqb c " " || Ascii.eqb c "009".

Fixpoint skip_blanks (l : list ascii) : list ascii :=
  match l with
  | [] => []
  | c :: l' => if is_blank c then skip_blanks l' else l
  end.

(** [tok.erase(0, tok.find_first_not_of(" \t")); tok.erase(tok.find_last_not_of(" \t") + 1);] *)
Definition trim (tok : list ascii) : list ascii := reverse (skip_blanks (reverse (skip_blanks tok))).

(** The tokens of [std::getline(ss, tok, ',')]; an empty last one, which [getline] does not
    deliver, is skipped like every empty token. *)
Fixpoint split_on (sep : ascii) (l : list ascii) : list (list ascii) :=
  match l with
  | [] => [[]]
  | c :: l' =>
      if Ascii.eqb c sep then [] :: split_on sep l'
      else match split_on sep l' with h :: t => (c :: h) :: t | [] => [[c]] end
  end.

(** The loop over [miscRegName]: the first register of that name. *)
Fixpoint find_reg (names : list (option (list ascii))) (tok : list ascii) (i : nat) : option nat :=
  match names with
  | [] => None
  | n :: names' => if bool_decide (n = Some tok) then Some i else find_reg names' tok (S i)
  end.

Definition parseWhitelist (names : list (option (list ascii))) (s : list ascii) : gset nat :=
  foldl (fun wl tok =>
    let tok := trim tok in
    match tok with
    | [] => wl
    | _ => match find_reg names tok 0 with Some i => {[ i ]} ∪ wl | None => wl end
    end) ∅ (split_on "," s).

(** ** The injector *)

(** [CHAOSArmSysReg::FaultType]: the four of the other injectors and one more. *)
Inductive sys_fault := Plain (f : FaultType) | ValueToLegal.

Definition sys_stringToFaultType (s : string) : sys_fault :=
  if String.eqb s "bit_flip" then Plain BitFlip
  else if String.eqb s "stuck_at_zero" then Plain StuckAtZero
  else if String.eqb s "stuck_at_one" then Plain StuckAtOne
  else if String.eqb s "value_to_legal" then ValueToLegal
  else Plain Random.

Definition sys_faultTypeToString (f : sys_fault) : string :=
  match f with Plain f => faultTypeToString f | ValueToLegal => "value_to_legal" end.

Record sys_inj := SysInj {
  sy_gate : gate_params;              (* probability, firstClock, lastClock as ticks, maxFaults *)
  sy_type : sys_fault; sy_mask : Z; sy_bits : Z; sy_whitelist : gset nat; sy_log : bool
}.

(** [strstr(reg_name, "ttbr0") || strstr(reg_name, "ttbr1")] *)
Fixpoint has_prefix (p l : list ascii) : bool :=
  match p, l with
  | [], _ => true
  | a :: p', b :: l' => Ascii.eqb a b && has_prefix p' l'
  | _, [] => false
  end.

Fixpoint has_substring (p l : list ascii) : bool :=
  has_prefix p l || match l with [] => false | _ :: l' => has_substring p l' end.

Definition is_ttbr (name : option (list ascii)) : bool :=
  match name with
  | Some n => has_substring (String.list_ascii_of_string "ttbr0") n || has_substring (String.list_ascii_of_string "ttbr1") n
  | None => false
  end.

Definition legal_mask (name : option (list ascii)) : Z :=
  if is_ttbr name then 2 ^ 64 - 2 ^ 12 else 2 ^ 64 - 2 ^ 32.

Section CHAOSArmSysReg.
Context {X : Type} (p : sys_inj) (now : Z).

Definition sys_choose (g : engine) : sys_fault * engine :=
  match sy_type p with
  | Plain Random => let r := discrete hook_weights g in (Plain (FaultType_of_index r.1), r.2)
  | f => (f, g)
  end.

(** The gate of [maybeCorrupt], in its own order: probability and whitelist, cap, window,
    trial. *)
Definition sys_gate (idx : nat) : M X bool :=
  if Qle_bool (g_probability (sy_gate p)) 0 || negb (bool_decide (idx ∈ sy_whitelist p)) then ret false
  else
    let! c := get_count in
    if cap_reached (g_max (sy_gate p)) c then ret false
    else if negb (in_window (g_first (sy_gate p)) (g_last (sy_gate p)) now) then ret false
    else bernoulli (g_probability (sy_gate p)).

(** The fault is counted and logged. *)
Definition sys_count (idx : nat) (old val mask : Z) (f : sys_fault) : M X unit :=
  do! bump numFaultsInjected in
  do! incr_count in
  log_if (sy_log p) (Entry (sys_faultTypeToString f)
    [("tick", now); ("idx", Z.of_nat idx); ("old", old); ("new", val); ("mask", mask)]).

(** [CHAOSArmSysReg::maybeCorrupt]; the result is the value that the read returns. *)
Definition sys_maybeCorrupt (idx : nat) (name : option (list ascii)) (val : Z) : M X Z :=
  let! b := sys_gate idx in
  if b then
    let! chosen := with_rng sys_choose in
    let! mask := with_rng (mask_or (sy_mask p) (random_mask (sy_bits p) 0 63)) in
    if mask =? 0 then ret val
    else
      match chosen with
      | ValueToLegal =>
          let val' := Z.land val (legal_mask name) in
          if val' =? val then ret val
          else do! sys_count idx val val' mask chosen in ret val'
      | Plain f =>
          let val' := apply_fault f mask val in
          do! (match fault_stat f with Some k => bump k | None => skip end) in
          do! sys_count idx val val' mask chosen in
          ret val'
      end
  else ret val.
End CHAOSArmSysReg.

(** ** Reading a register *)

(** The parts of an entry of [lookUpMiscReg] that a read uses. *)
Record misc_info := MiscInfo { mi_lower : nat; mi_upper : nat; mi_raz : Z; mi_rao : Z; mi_banked_child : bool }.

Section Read.
Context (lut : nat -> misc_info) (flattenMiscIndex : nat -> nat) (highestELIs64 inSecureState : bool).

Definition getMiscIndices (misc_reg : nat) : nat * nat :=
  let flat_idx := flattenMiscIndex misc_reg in
  if Nat.eqb (mi_lower (lut flat_idx)) 0 then (flat_idx, 0%nat)
  else
    let S := negb highestELIs64 && inSecureState in
    let lower := mi_lower (lut flat_idx) in
    let upper := mi_upper (lut flat_idx) in
    ((lower + if S && mi_banked_child (lut lower) then 1 else 0)%nat,
     (upper + if S && mi_banked_child (lut upper) then 1 else 0)%nat).

(** The value of a register before an injector sees it. *)
Definition misc_value (miscRegs : nat -> Z) (idx : nat) : Z :=
  let '(lower, upper) := getMiscIndices idx in
  let val := if Nat.eqb upper 0 then miscRegs lower
             else Z.lor (Z.land (miscRegs lower) (2 ^ 32 - 1)) (u64 (Z.shiftl (miscRegs upper) 32)) in
  Z.lor (Z.land val (2 ^ 64 - 1 - mi_raz (lut idx))) (mi_rao (lut idx)).

(** [ISA::readMiscRegNoEffect]; the state is the register file. *)
Definition readMiscRegNoEffect (chaos : option (nat -> option (list ascii) -> Z -> M (nat -> Z) Z))
    (names : list (option (list ascii))) (idx : nat) : M (nat -> Z) Z :=
  let! regs := get in
  let val := misc_value regs idx in
  match chaos with
  | Some maybeCorrupt => maybeCorrupt idx (default None (names !! idx)) val
  | None => ret val
  end.
End Read.

(** * Lemmas *)

(** ** Parsing *)

Fixpoint join (sep : ascii) (toks : list (list ascii)) : list ascii :=
  match toks with
  | [] => []
  | [t] => t
  | t :: toks' => t ++ sep :: join sep toks'
  end.

Lemma split_on_app sep t l : sep ∉ t -> split_on sep (t ++ sep :: l) = t :: split_on sep l.
Proof.
  induction t as [|c t IH]; intros Hn; cbn [app split_on]; [by rewrite Ascii.eqb_refl|].
  apply not_elem_of_cons in Hn as [Hc Ht]. destruct (Ascii.eqb_spec c sep); [congruence|]. by rewrite IH.
Qed.

Lemma split_on_word sep t : sep ∉ t -> split_on sep t = [t].
Proof.
  induction t as [|c t IH]; intros Hn; cbn [split_on]; [done|].
  apply not_elem_of_cons in Hn as [Hc Ht]. destruct (Ascii.eqb_spec c sep); [congruence|]. by rewrite IH.
Qed.

Lemma split_join sep toks : Forall (fun t => sep ∉ t) toks -> toks <> [] -> split_on sep (join sep toks) = toks.
Proof.
  induction 1 as [|t toks Ht Hts IH]; intros Hne; [done|]. destruct toks as [|t' toks]; [by apply split_on_word|].
  cbn [join]. rewrite split_on_app by done. f_equal. by apply IH.
Qed.

Definition blanks (l : list ascii) : Prop := Forall (fun c => is_blank c = true) l.

Lemma blanks_comma l : blanks l -> ","%char ∉ l.
Proof. intros H Hin. by apply (proj1 (Forall_forall _ _) H) in Hin. Qed.

(** A name without blanks at its ends and without a comma. *)
Definition word (l : list ascii) : Prop :=
  (","%char ∉ l) /\ (exists c l', l = c :: l' /\ is_blank c = false) /\ (exists c l', l = l' ++ [c] /\ is_blank c = false).

Lemma skip_blanks_app a l : blanks a -> skip_blanks (a ++ l) = skip_blanks l.
Proof. induction 1 as [|c a Hc _ IH]; cbn; [done|]. by rewrite Hc. Qed.

Lemma skip_blanks_word c l : is_blank c = false -> skip_blanks (c :: l) = c :: l.
Proof. intros H. cbn. by rewrite H. Qed.

Lemma trim_padded a x b : blanks a -> blanks b -> word x -> trim (a ++ x ++ b) = x.
Proof.
  intros Ha Hb (_ & (c & l & -> & Hc) & (d & l' & E & Hd)). unfold trim.
  rewrite skip_blanks_app by done. cbn [app]. rewrite skip_blanks_word by done.
  change (c :: l ++ b) with ((c :: l) ++ b). rewrite E, reverse_app.
  rewrite skip_blanks_app by by apply Forall_reverse. rewrite reverse_snoc, skip_blanks_word by done.
  by rewrite <- reverse_snoc, reverse_involutive.
Qed.

(** [find_reg] finds the first register of a name. *)
Lemma find_reg_spec names x k i :
  find_reg names x k = Some i <->
  exists j, i = (k + j)%nat /\ names !! j = Some (Some x) /\ forall j', (j' < j)%nat -> names !! j' <> Some (Some x).
Proof.
  induction names as [|n names IH] in k |- *; cbn [find_reg].
  { split; [done|]. by intros (j & _ & ? & _). }
  case_bool_decide as Hn.
  - split.
    + intros [= <-]. exists 0%nat. subst n. split; [lia|]. split; [done|lia].
    + intros ([|j] & -> & Hj & Hlt); [by rewrite Nat.add_0_r|]. exfalso. apply (Hlt 0%nat); [lia|]. cbn. by subst n.
  - rewrite IH. split.
    + intros (j & -> & Hj & Hlt). exists (S j). split; [lia|]. split; [done|]. intros [|j'] H'; cbn; [congruence|].
      apply Hlt. lia.
    + intros ([|j] & -> & Hj & Hlt); [cbn in Hj; congruence|]. exists j. split; [lia|]. split; [done|].
      intros j' H'. apply (Hlt (S j')). lia.
Qed.

Lemma elem_of_parse names s i :
  i ∈ parseWhitelist names s <-> exists tok, tok ∈ split_on "," s /\ trim tok <> [] /\ find_reg names (trim tok) 0 = Some i.
Proof.
  unfold parseWhitelist. generalize (split_on "," s) as toks. intros toks.
  induction toks as [|t toks IH] using rev_ind; cbn [foldl].
  { split; [set_solver|]. by intros (t & ?%not_elem_of_nil & _). }
  rewrite foldl_app. cbn [foldl]. set (wl := foldl _ ∅ toks) in *. setoid_rewrite elem_of_app.
  setoid_rewrite list_elem_of_singleton.
  destruct (trim t) as [|c l] eqn:Et; [|destruct (find_reg names (c :: l) 0) as [i0|] eqn:Ef].
  - rewrite IH. split; [naive_solver|]. intros (tok & [H|H] & Hne & Hf); [by exists tok|congruence].
  - rewrite elem_of_union, elem_of_singleton, IH. split.
    + intros [->|(tok & H & Hr)]; [exists t; rewrite Et; auto|exists tok; auto].
    + intros (tok & [H|H] & Hne & Hf); [right; by exists tok|]. subst tok. left. congruence.
  - rewrite IH. split; [naive_solver|]. intros (tok & [H|H] & Hne & Hf); [by exists tok|congruence].
Qed.

(** C37 The whitelist round-trips: for a list of register names, rendered with commas between
    them and any blanks around them, parsing yields exactly the registers that are the first
    of one of those names; names that no register has are skipped. *)
Theorem whitelist_roundtrip names (toks : list (list ascii * list ascii * list ascii)) i :
  Forall (fun t => blanks t.1.1 /\ word t.1.2 /\ blanks t.2) toks ->
  i ∈ parseWhitelist names (join "," ((fun t => t.1.1 ++ t.1.2 ++ t.2) <$> toks)) <->
  exists x, x ∈ (snd ∘ fst <$> toks) /\ names !! i = Some (Some x) /\ forall j, (j < i)%nat -> names !! j <> Some (Some x).
Proof.
  intros Ht. rewrite elem_of_parse.
  assert (forall x, (exists tok, tok ∈ split_on "," (join "," ((fun t => t.1.1 ++ t.1.2 ++ t.2) <$> toks)) /\
    trim tok = x /\ x <> []) <-> x ∈ (snd ∘ fst <$> toks)) as Hx.
  { intros x. destruct toks as [|t0 toks0] eqn:E.
    - cbn. split; [|by intros ?%not_elem_of_nil]. by intros (tok & ->%list_elem_of_singleton & <- & ?).
    - rewrite <- E in *. rewrite split_join; [|apply Forall_fmap; eapply Forall_impl; [exact Ht|]|by rewrite E].
      + rewrite list_elem_of_fmap. setoid_rewrite list_elem_of_fmap. rewrite Forall_forall in Ht. split.
        * intros (tok & (t & -> & Hin) & <- & _). exists t. split; [|done]. destruct (Ht t Hin) as (? & ? & ?).
          by rewrite trim_padded.
        * intros (t & -> & Hin). exists (t.1.1 ++ t.1.2 ++ t.2). destruct (Ht t Hin) as (Ha & Hw & Hb).
          split; [by exists t|]. rewrite trim_padded by done. split; [done|].
          destruct Hw as (_ & (c & l & Ew & _) & _). cbn. by rewrite Ew.
      + intros t (Ha & Hw & Hb). cbn. rewrite !not_elem_of_app. split; [by apply blanks_comma|]. split; [apply Hw|by apply blanks_comma]. }
  setoid_rewrite <- Hx. clear Hx. split.
  - intros (tok & Hin & Hne & Hf). exists (trim tok). split; [by exists tok|].
    apply find_reg_spec in Hf as (j & -> & Hj). done.
  - intros (x & (tok & Hin & <- & Hne) & Hi & Hlt). exists tok. split; [done|]. split; [done|].
    apply find_reg_spec. by exists i.
Qed.

(** ** The effect of a read *)

Section Effect.
Context {X : Type} (p : sys_inj) (now : Z).

(** The value a fault may leave. *)
Definition sys_faulty (name : option (list ascii)) (val val' : Z) : Prop :=
  match sy_type p with
  | ValueToLegal => val' = Z.land val (legal_mask name) /\ val' <> val
  | Plain f => exists g mask, mask <> 0 /\ (sy_mask p <> 0 -> mask = sy_mask p) /\
                 (f <> Random -> g = f) /\ g <> Random /\ val' = apply_fault g mask val
  end.

Definition sys_effect (idx : nat) (name : option (list ascii)) (val : Z) (s : core * X) (r : Z * (core * X)) : Prop :=
  r.2.2 = s.2 /\
  ((r.1 = val /\ count_of r.2 = count_of s) \/
   (idx ∈ sy_whitelist p /\ in_window (g_first (sy_gate p)) (g_last (sy_gate p)) now = true /\
    cap_reached (g_max (sy_gate p)) (count_of s) = false /\ count_of r.2 = count_succ (count_of s) /\
    sys_faulty name val r.1)).

Lemma sys_gate_spec idx (s : core * X) : exists b g,
  sys_gate p now idx s = (b, (Core g (count_of s) (the_stats s.1) (the_log s.1), s.2)) /\
  (b = true -> idx ∈ sy_whitelist p /\ in_window (g_first (sy_gate p)) (g_last (sy_gate p)) now = true /\
     cap_reached (g_max (sy_gate p)) (count_of s) = false).
Proof.
  destruct s as [[g c st lg] x]. unfold sys_gate, count_of. cbn [fst snd faults_injected_count the_stats the_log].
  case_bool_decide as Hin; cbn [negb]; [|rewrite orb_true_r; by exists false, g].
  destruct (Qle_bool _ 0); cbn [orb]; [by exists false, g|].
  unfold bind at 1, get_count. cbn [fst snd faults_injected_count].
  destruct (cap_reached _ c) eqn:Ec; [by exists false, g|].
  destruct (in_window _ _ now) eqn:Ew; cbn [negb]; [|by exists false, g].
  destruct (bernoulli_run (g_probability (sy_gate p)) (Core g c st lg, x)) as (b & g' & -> & _). by eexists b, g'.
Qed.

Lemma sys_choose_spec g :
  match (sys_choose p g).1 with
  | ValueToLegal => sy_type p = ValueToLegal
  | Plain f' => f' <> Random /\ exists f, sy_type p = Plain f /\ (f <> Random -> f' = f)
  end.
Proof.
  unfold sys_choose. destruct (sy_type p) as [[]|]; cbn [fst]; try (split; [done|by eexists]); [|done].
  split; [|by exists Random].
  apply (hook_choose Random g).
Qed.

Lemma sys_count_run idx old val mask f (s : core * X) : exists lg,
  sys_count p now idx old val mask f s =
  (tt, (Core (rng s.1) (count_succ (count_of s)) (bump_stat numFaultsInjected (the_stats s.1)) lg, s.2)).
Proof. destruct s as [[g c st lg] x]. unfold sys_count, log_if. destruct (sy_log p); by eexists. Qed.

Lemma sys_maybeCorrupt_effect idx name val s : sys_effect idx name val s (sys_maybeCorrupt p now idx name val s).
Proof.
  unfold sys_maybeCorrupt. rewrite bind_run. destruct (sys_gate_spec idx s) as (b & g & -> & Hb). cbn [fst snd].
  destruct b; [|by split; [|left]]. destruct (Hb eq_refl) as (Hwl & Hw & Hc).
  rewrite bind_run. cbn [with_rng rng fst snd faults_injected_count the_stats the_log].
  pose proof (sys_choose_spec g) as Hf. destruct (sys_choose p g) as [chosen g1]. cbn [fst snd] in *.
  rewrite bind_run. cbn [with_rng rng fst snd faults_injected_count the_stats the_log].
  assert (sy_mask p <> 0 -> (mask_or (sy_mask p) (random_mask (sy_bits p) 0 63) g1).1 = sy_mask p) as Hm.
  { intros H. unfold mask_or. by destruct (Z.eqb_spec (sy_mask p) 0). }
  destruct (mask_or _ _ g1) as [mask g2]. cbn [fst snd] in *. destruct (Z.eqb_spec mask 0); [by split; [|left]|].
  destruct chosen as [f|].
  - destruct Hf as (Hnr & f0 & Ef0 & Hf0). rewrite !bind_run.
    set (s1 := (Core g2 _ _ _, _)). assert (exists st, ((match fault_stat f with Some k => bump k | None => skip end) s1).2 =
      (Core g2 (count_of s) st (the_log s.1), s.2)) as [st ->] by (destruct (fault_stat f); by eexists).
    destruct (sys_count_run idx val (apply_fault f mask val) mask (Plain f) (Core g2 (count_of s) st (the_log s.1), s.2)) as [lg ->].
    split; [done|]. right. split; [done|]. split; [done|]. split; [done|]. split; [done|].
    unfold sys_faulty. rewrite Ef0. by exists f, mask.
  - destruct (Z.eqb_spec (Z.land val (legal_mask name)) val); [by split; [|left]|]. rewrite bind_run.
    destruct (sys_count_run idx val (Z.land val (legal_mask name)) mask ValueToLegal
      (Core g2 (count_of s) (the_stats s.1) (the_log s.1), s.2)) as [lg ->].
    split; [done|]. right. split; [done|]. split; [done|]. split; [done|]. split; [done|].
    unfold sys_faulty. by rewrite Hf.
Qed.

#[global] Instance sys_maybeCorrupt_capped idx name val :
  CappedHook (X := X) (g_max (sy_gate p)) (sys_maybeCorrupt p now idx name val).
Proof. intros s. destruct (sys_maybeCorrupt_effect idx name val s) as [_ [[_ H]|(_ & _ & Hc & H & _)]]; [by left|by right]. Qed.
End Effect.

(** A read of a system register through the injector returns the register's value with the
    architectural masks applied, or a faulty one, and then the register is on the whitelist,
    the time in the window, the cap not reached, and exactly one fault is counted.  The faulty
    value is the fault type applied with a non-empty mask, or for value_to_legal the legal
    form of a value that did not have it.  No register changes: the fault is gone at the next
    read. *)
Theorem sysreg_read_effect lut flat h64 sec p now names idx (s : core * (nat -> Z)) :
  sys_effect p now idx (default None (names !! idx)) (misc_value lut flat h64 sec s.2 idx) s
    (readMiscRegNoEffect lut flat h64 sec (Some (sys_maybeCorrupt p now)) names idx s).
Proof.
  unfold readMiscRegNoEffect. rewrite bind_run. destruct s as [c regs]. cbn [get fst snd]. apply sys_maybeCorrupt_effect.
Qed.

(** ** A translation table base *)

Definition with_ttbr (v : Z) (w : walk_ctx) : walk_ctx :=
  WalkCtx (wc_vaddr_tainted w) (wc_vaddr w) (wc_asid w) (wc_vmid w) (wc_ss w) (wc_regime w) (wc_mode w)
    (wc_isAtomic w) (wc_isStage2 w) (wc_ipaSpace w) (wc_hpd w) (wc_nsa w) (wc_sl0 w) v (wc_tsz w)
    (wc_tg w) (wc_pa_range w) (wc_sh w) (wc_irgn w) (wc_orgn w) (wc_uncacheable w) (wc_mair w)
    (wc_physAddrRange w) (wc_have_security w) (wc_walkCache w).

Lemma doLongDescriptor_ttbr {R} {RP : ReplacementPolicy R} overflow mem now ptw fuel w v ws level addr (s : core * mmu R) :
  doLongDescriptor overflow mem now ptw fuel (with_ttbr v w) ws level addr s =
  doLongDescriptor overflow mem now ptw fuel w ws level addr s.
Proof.
  induction fuel as [|fuel IH] in ws, level, addr, s |- *; [done|]. cbn [doLongDescriptor].
  change (wc_vaddr_tainted (with_ttbr v w)) with (wc_vaddr_tainted w).
  change (ctx_format (with_ttbr v w)) with (ctx_format w). rewrite !bind_run.
  set (r := match ptw with Some h => h _ _ | None => ret _ end s). destruct r as [d s1]. cbn [fst snd].
  destruct (desc_type (ctx_format w) d level); [done| |done..].
  change (checkAddrSizeFaultAArch64 (with_ttbr v w)) with (checkAddrSizeFaultAArch64 w).
  change (wc_vaddr (with_ttbr v w)) with (wc_vaddr w). destruct (checkAddrSizeFaultAArch64 w _); [done|].
  rewrite !bind_run. destruct (3 <? level + 1); [done|]. by rewrite IH.
Qed.

Lemma mbits_legal v z : 0 <= v < 2 ^ 64 -> 12 <= z <= 48 -> mbits (Z.land v (2 ^ 64 - 2 ^ 12)) 47 z = mbits v 47 z.
Proof.
  intros Hv Hz. unfold mbits, mask_bits. apply Z.bits_inj'. intros n Hn.
  rewrite !Z.land_spec, Z.lnot_spec, !Z.testbit_ones_nonneg by lia.
  destruct (Z.ltb_spec n z); cbn [negb]; [by rewrite !andb_false_r|].
  destruct (Z.ltb_spec n (47 + 1)); [|by rewrite !andb_false_r].
  change (2 ^ 64 - 2 ^ 12) with (Z.shiftl (Z.ones 52) 12). rewrite Z.shiftl_spec, Z.testbit_ones_nonneg by lia.
  destruct (Z.ltb_spec (n - 12) 52); [|lia]. by rewrite !andb_true_r.
Qed.

(** The mode value_to_legal never misdirects a walk whose first table is at least a page:
    with fewer than 52 output bits and a first level that translates nine or more bits, as with
    4 KiB granules and 48-bit addresses, a translation table base in which the mode has
    cleared the low twelve bits gives the same walk, step by step, as the original. *)
Theorem value_to_legal_keeps_walk {R} {RP : ReplacementPolicy R} overflow mem now ptw w first we name (s : core * mmu R) :
  ctx_ok w first -> is_ttbr name = true -> wc_pa_range w <> 52 -> lo (ctx_grain w) first + 9 <= wc_tsz w ->
  0 <= wc_ttbr w < 2 ^ 64 ->
  processWalkAArch64 overflow mem now ptw (with_ttbr (Z.land (wc_ttbr w) (legal_mask name)) w) we s =
  processWalkAArch64 overflow mem now ptw w we s.
Proof.
  intros Hok Hn Hpa Hz Hv. unfold legal_mask. rewrite Hn. set (v := Z.land _ _). unfold processWalkAArch64.
  assert (walkAddresses (with_ttbr v w) (walk_state0 (with_ttbr v w)) we = walkAddresses w (walk_state0 w) we) as ->.
  { unfold walkAddresses. cbn [with_ttbr wc_vaddr wc_tsz wc_isStage2 wc_sl0 wc_pa_range wc_ttbr].
    change (ctx_grain (with_ttbr v w)) with (ctx_grain w).
    change (walk_state0 (with_ttbr v w)) with (walk_state0 w). destruct (te_valid we); [done|].
    rewrite (cx_stage1 _ _ Hok), (cx_first _ _ Hok). destruct (Z.eqb_spec (wc_pa_range w) 52); [done|].
    destruct (in_walk_ok _ _ Hok _ (first_in_walk _ _ Hok)) as [Hlv Ht]. pose proof (lo_range _ _ Hlv).
    unfold v. rewrite mbits_legal; [done|done|]. unfold lo, stride in *. lia. }
  destruct (walkAddresses w _ we) as [[[[t a] l] ws]|]; [|done].
  change (checkAddrSizeFaultAArch64 (with_ttbr v w) t) with (checkAddrSizeFaultAArch64 w t).
  destruct (checkAddrSizeFaultAArch64 w t); [done|]. by rewrite doLongDescriptor_ttbr.
Qed.

(** ** Examples *)

Module SysRegExample.

Definition str (s : string) : list ascii := String.list_ascii_of_string s.

Definition names0 : list (option (list ascii)) := [Some (str "cpsr"); None; Some (str "ttbr0_el1"); Some (str "sctlr_el1")].

Definition toks0 : list (list ascii * list ascii * list ascii) :=
  [(str " ", str "sctlr_el1", str "  "); ([], str "no_such_reg", []); ([], str "ttbr0_el1", [])].

Lemma toks0_ok : Forall (fun t => blanks t.1.1 /\ word t.1.2 /\ blanks t.2) toks0.
Proof.
  assert (forall c l d l', c :: l = l' ++ [d] -> is_blank c = false -> is_blank d = false ->
    (","%char ∉ c :: l) -> word (c :: l)) as Hw.
  { intros c l d l' E Hc Hd Hn. split; [done|]. split; [by exists c, l|by exists d, l']. }
  repeat (constructor; [split; [repeat constructor|split; [|repeat constructor]]|]); [..|constructor].
  - apply (Hw _ _ "1"%char (str "sctlr_el")); [done..|]. apply (bool_decide_eq_true_1 (_ ∉ _)). by vm_compute.
  - apply (Hw _ _ "g"%char (str "no_such_re")); [done..|]. apply (bool_decide_eq_true_1 (_ ∉ _)). by vm_compute.
  - apply (Hw _ _ "1"%char (str "ttbr0_el")); [done..|]. apply (bool_decide_eq_true_1 (_ ∉ _)). by vm_compute.
Qed.

Lemma whitelist_roundtrip_witness :
  (3%nat ∈ parseWhitelist names0 (str " sctlr_el1  ,no_such_reg,ttbr0_el1")) /\
  parseWhitelist names0 (str " sctlr_el1  ,no_such_reg,ttbr0_el1") = {[ 2%nat; 3%nat ]}.
Proof.
  split; [|by vm_compute].
  refine (proj2 (whitelist_roundtrip names0 toks0 3 toks0_ok) _). exists (str "sctlr_el1").
  split; [by left|]. split; [done|]. intros [|[|[|j]]] H; try done. exfalso. lia.
Defined.

Definition ctx2 : walk_ctx := with_ttbr 0x10001 WalkExample.ctx1.

Lemma value_to_legal_keeps_walk_witness :
  Z.land 0x10001 (legal_mask (Some (str "ttbr0_el1"))) <> 0x10001 /\
  processWalkAArch64 (RP := LRU) (fun _ => 0) (WalkExample.mem0 false) 7 None
    (with_ttbr (Z.land 0x10001 (legal_mask (Some (str "ttbr0_el1")))) ctx2) te_default
    (WalkExample.core0, mmu_new WalkExample.cfg0) =
  processWalkAArch64 (fun _ => 0) (WalkExample.mem0 false) 7 None ctx2 te_default
    (WalkExample.core0, mmu_new WalkExample.cfg0).
Proof.
  split; [by vm_compute|].
  exact (value_to_legal_keeps_walk (fun _ => 0) (WalkExample.mem0 false) 7 None ctx2 0 te_default
    (Some (str "ttbr0_el1")) (WalkExample.core0, mmu_new WalkExample.cfg0)
    (CtxOk ctx2 0 eq_refl eq_refl ltac:(done) ltac:(done)) eq_refl ltac:(done) ltac:(done) ltac:(done)).
Defined.
End SysRegExample.
