(* ===== verification/ChaosCommit.v ===== *)
(** * CHAOSRAS and CHAOSBPU

    Two injectors at the ends of the pipeline.  CHAOSRAS (cpu/o3/CHAOSRAS) polls the heads of
    the reorder buffer and clears the fault of one that is about to raise an exception, so
    that the error is never reported.  CHAOSBPU (cpu/o3/CHAOSBPU) is called by [BAC::predict]
    and replaces the predicted target by the fall-through, or flips the direction.  The
    theorem on CHAOSRAS: an attack round clears exactly the heads it counts, each of an active
    thread, in the window, with a fault that is no system call, and leaves every other head
    alone. *)

From Stdlib Require Import ZArith Lia QArith.
From stdpp Require Import base numbers list strings.
From S2P Require Import Prelude Word Random EventQueue AttackLoop HookGate.

Open Scope Z_scope.

(** ** CHAOSRAS *)

(** The head of a thread's reorder buffer: its sequence number and the name of its fault. *)
Record head_inst := HeadInst { hi_seq : Z; hi_fault : option string }.

Record ras_params := RasParams {
  ra_probability : Q; ra_first : Z; ra_last : Z; ra_max : Z; ra_log : bool
}.

Record ras_state := RasState {
  ra_heads : Z -> option head_inst;    (* robAccess().readHeadInst(tid) *)
  ra_active : Z -> bool;               (* getContext(tid) exists and is not halted *)
  ra_threads : Z;
  ra_attack : evt
}.

Definition ra_set_head (tid : Z) (h : head_inst) (s : ras_state) : ras_state :=
  RasState (fupd (ra_heads s) tid (Some h)) (ra_active s) (ra_threads s) (ra_attack s).
Definition ra_on_attack (f : evt -> evt) (s : ras_state) : ras_state :=
  RasState (ra_heads s) (ra_active s) (ra_threads s) (f (ra_attack s)).

Section CHAOSRAS.
Context (p : ras_params).

Definition ras_processFault (now tid : Z) : M ras_state unit :=
  let! c := get_count in
  if cap_reached (ra_max p) c then skip
  else
    let! s := get in
    match ra_heads s tid with
    | None => bump numSkippedNoFault
    | Some head =>
        match hi_fault head with
        | None => bump numSkippedNoFault
        | Some fname =>
            if String.eqb fname "Supervisor Call" || String.eqb fname "System Call" then bump numSkippedNoFault
            else if negb (in_window (ra_first p) (ra_last p) now) then skip
            else
              let! b := bernoulli (ra_probability p) in
              if b then
                do! modify (ra_set_head tid (HeadInst (hi_seq head) None)) in
                do! bump numFaultsInjected in
                do! bump numRasRecordMisses in
                do! incr_count in
                log_if (ra_log p) (Entry fname [("cycle", now); ("thread", tid); ("seq", hi_seq head)])
              else skip
        end
    end.

Definition ras_loop : loop_params := LoopParams (ra_probability p) (ra_first p) (ra_last p) (ra_max p) true.
End CHAOSRAS.

#[global] Instance ras_attack_state : AttackState ras_state := {|
  attack_of := ra_attack;
  on_attack := ra_on_attack;
  thread_count := ra_threads;
  thread_active := ra_active
|}.

#[global] Instance ras_attack_ok : AttackStateOk ras_state.
Proof. by constructor. Qed.

Definition ras_attackCheck (p : ras_params) (now : Z) : M ras_state unit :=
  attackLoop (ras_loop p) (ras_processFault p) now.

Definition ras_startup (p : ras_params) (now : Z) : M ras_state unit := attackStartup (ras_loop p) now.

(** ** CHAOSBPU *)

Inductive BpuMode := TargetSub | DirectionFlip.

Definition stringToBpuMode (s : string) : BpuMode :=
  if String.eqb s "direction_flip" then DirectionFlip else TargetSub.

Record bpu_params := BpuParams { bp_gate : gate_params; bp_mode : BpuMode; bp_log : bool }.

(** The parts of a [PCStateWithNext] that the injector uses. *)
Record pc_state := PCState { ps_pc : Z; ps_npc : Z }.

(** [CHAOSBPU::maybeSubstituteTarget]; the result is the direction. *)
Definition maybeSubstituteTarget (p : bpu_params) (now : Z) (taken : bool) : M pc_state bool :=
  let! b := gate (bp_gate p) now in
  if b then
    match bp_mode p with
    | TargetSub =>
        let! pc := get in
        do! put (PCState (ps_pc pc) (u64 (ps_pc pc + 4))) in
        do! bump numTargetSub in
        do! log_if (bp_log p) (Entry "target_sub" [("cycle", now); ("pc", ps_pc pc); ("old", ps_npc pc)]) in
        do! bump numFaultsInjected in
        do! incr_count in
        ret taken
    | DirectionFlip =>
        do! bump numDirectionFlip in
        do! log_if (bp_log p) (Entry "direction_flip" [("cycle", now)]) in
        do! bump numFaultsInjected in
        do! incr_count in
        ret (negb taken)
    end
  else ret taken.

(** The part of [BAC::predict] after [bpu->predict], which has left its target in the state. *)
Definition bac_predict (chaosBpu : option (bool -> M pc_state bool)) (taken : bool) : M pc_state bool :=
  match chaosBpu with
  | Some hook => hook taken
  | None => ret taken
  end.

(** * Lemmas *)

Section RasEffect.
Context (p : ras_params) (now : Z).

(** A fault whose report can be suppressed. *)
Definition reportable (h : option head_inst) : Prop :=
  exists seq f, h = Some (HeadInst seq (Some f)) /\ f <> "Supervisor Call" /\ f <> "System Call".

Definition silenced (h : option head_inst) : option head_inst :=
  match h with Some i => Some (HeadInst (hi_seq i) None) | None => None end.

(** The heads after the faults of the threads [L] are cleared. *)
Definition clear_heads (L : list Z) (heads : Z -> option head_inst) : Z -> option head_inst :=
  fun t => if decide (t ∈ L) then silenced (heads t) else heads t.

(** A thread whose head the injector may silence. *)
Definition eligible (s : ras_state) (t : Z) : Prop := ra_active s t = true /\ reportable (ra_heads s t).

(** What attempts on [tids] that cleared the heads of the threads [L] have done to a state. *)
Record ras_did (tids L : list Z) (s s' : core * ras_state) : Prop := RasDid {
  did_threads : L `sublist_of` tids;
  did_eligible : Forall (eligible s.2) L;
  did_window : L <> [] -> in_window (ra_first p) (ra_last p) now = true;
  did_all : (1 <= ra_probability p)%Q -> ra_max p = 0 -> in_window (ra_first p) (ra_last p) now = true ->
    forall t, t ∈ tids -> eligible s.2 t -> t ∈ L;
  did_heads : forall t, ra_heads s'.2 t = clear_heads L (ra_heads s.2) t;
  did_active : ra_active s'.2 = ra_active s.2 /\ ra_threads s'.2 = ra_threads s.2;
  did_count : u64 (faults_injected_count s'.1) = u64 (faults_injected_count s.1 + Z.of_nat (length L));
  did_stats : forall k, k = numRasRecordMisses \/ k = numFaultsInjected ->
    the_stats s'.1 k = the_stats s.1 k + Z.of_nat (length L)
}.

Lemma not_reportable_no_fault seq : ~ reportable (Some (HeadInst seq None)).
Proof. by intros (? & ? & ? & _). Qed.
Lemma not_reportable_none : ~ reportable None.
Proof. by intros (? & ? & ? & _). Qed.
Lemma not_reportable_call seq f :
  f = "Supervisor Call" \/ f = "System Call" -> ~ reportable (Some (HeadInst seq (Some f))).
Proof. intros Hf (? & f' & [= <- <-] & ? & ?). by destruct Hf. Qed.

Lemma did_nothing tids s s' :
  s'.2 = s.2 -> faults_injected_count s'.1 = faults_injected_count s.1 ->
  (forall k, k <> numSkippedNoFault -> the_stats s'.1 k = the_stats s.1 k) ->
  (forall t, t ∈ tids -> eligible s.2 t -> (1 <= ra_probability p)%Q -> ra_max p = 0 ->
     in_window (ra_first p) (ra_last p) now = true -> False) ->
  ras_did tids [] s s'.
Proof.
  intros E Ec Hs Hno. split; cbn [length Z.of_nat]; rewrite ?E, ?Ec, ?Z.add_0_r; try done.
  - apply sublist_nil_l.
  - intros; exfalso; eauto.
  - intros k [-> | ->]; rewrite Hs by done; lia.
Qed.

(** The attempt whose trial succeeds. *)
Lemma did_clear tid s s' seq f g lg :
  ra_active s.2 tid = true -> ra_heads s.2 tid = Some (HeadInst seq (Some f)) ->
  f <> "Supervisor Call" -> f <> "System Call" -> in_window (ra_first p) (ra_last p) now = true ->
  s' = (Core g (count_succ (faults_injected_count s.1))
          (bump_stat numRasRecordMisses (bump_stat numFaultsInjected (the_stats s.1))) lg,
        ra_set_head tid (HeadInst seq None) s.2) ->
  ras_did [tid] [tid] s s'.
Proof.
  intros Ha Eh Hf1 Hf2 Ew ->. split; cbn [fst snd faults_injected_count the_stats length]; try done.
  - constructor; [|constructor]. split; [done|]. by exists seq, f.
  - intros t. unfold clear_heads, ra_set_head. cbn [ra_heads]. destruct (decide (t = tid)) as [->|Hne].
    + rewrite fupd_eq, decide_True by (by left). by rewrite Eh.
    + rewrite fupd_ne, decide_False by (done || by rewrite list_elem_of_singleton). done.
  - unfold count_succ, u64. by rewrite Z.mod_mod.
  - by intros k [-> | ->].
Qed.

(** The attempt that skips a head: its thread is not eligible, or a gate is closed. *)
Lemma did_skip tid x g c st lg g' :
  (eligible x tid -> (1 <= ra_probability p)%Q -> ra_max p = 0 ->
   in_window (ra_first p) (ra_last p) now = true -> False) ->
  ras_did [tid] [] (Core g c st lg, x) (Core g' c st lg, x) /\
  ras_did [tid] [] (Core g c st lg, x) (Core g' c (bump_stat numSkippedNoFault st) lg, x).
Proof.
  intros Hno. assert (forall t, t ∈ [tid] -> eligible x t -> (1 <= ra_probability p)%Q -> ra_max p = 0 ->
    in_window (ra_first p) (ra_last p) now = true -> False) by (by intros t ->%list_elem_of_singleton).
  split; apply did_nothing; try done. intros k Hk. by apply bump_stat_ne.
Qed.

Lemma processFault_did tid s :
  ra_active s.2 tid = true -> exists L, ras_did [tid] L s (ras_processFault p now tid s).2.
Proof.
  intros Ha. destruct s as [[g c st lg] x]. unfold ras_processFault. rewrite bind_run.
  cbn [get_count fst snd faults_injected_count] in *.
  destruct (cap_reached (ra_max p) c) eqn:Ec.
  { exists []. apply did_skip. intros _ _ H0. by rewrite H0 in Ec. }
  rewrite bind_run. cbn [get fst snd].
  destruct (ra_heads x tid) as [[seq [f|]]|] eqn:Eh; cbn [hi_fault hi_seq];
    [|exists []; apply did_skip; intros [_ H]; rewrite Eh in H; by apply not_reportable_no_fault in H
     |exists []; apply did_skip; intros [_ H]; rewrite Eh in H; by apply not_reportable_none in H].
  destruct (_ || _)%bool eqn:Ef.
  { exists []. apply did_skip. intros [_ H]. rewrite Eh in H. apply not_reportable_call in H; [done|].
    by rewrite orb_true_iff, !String.eqb_eq in Ef. }
  apply orb_false_iff in Ef as [Ef1%String.eqb_neq Ef2%String.eqb_neq].
  destruct (in_window (ra_first p) (ra_last p) now) eqn:Ew; cbn [negb];
    [|exists []; apply did_skip; intros _ _ _ H; by rewrite Ew in H].
  rewrite bind_run. destruct (bernoulli_run (ra_probability p) (Core g c st lg, x)) as (b & g' & -> & _ & Hb).
  cbn [fst snd faults_injected_count the_stats the_log].
  destruct b; [|exists []; apply did_skip; intros _ H; by apply Hb in H].
  exists [tid]. unfold log_if. destruct (ra_log p); by eapply did_clear.
Qed.

Lemma attack_one_did tid s : exists L, ras_did [tid] L s (attack_one (ras_processFault p) now tid s).2.
Proof.
  unfold attack_one. rewrite bind_run. cbn [get fst snd]. destruct (thread_active s.2 tid) eqn:E.
  - by apply processFault_did.
  - exists []. destruct s as [[g c st lg] x]. apply did_skip. intros [H _]. cbn in E. congruence.
Qed.

Lemma silenced_not_reportable h : ~ reportable (silenced h).
Proof. intros (seq & f & E & _). by destruct h as [[]|]. Qed.

Lemma eligible_after L s s' t tids :
  ras_did tids L s s' -> eligible s'.2 t <-> eligible s.2 t /\ t ∉ L.
Proof.
  intros [_ _ _ _ Hh [Ha _] _ _]. unfold eligible. rewrite Ha, Hh. unfold clear_heads.
  case_decide; [|tauto]. pose proof (silenced_not_reportable (ra_heads s.2 t)). tauto.
Qed.

Lemma did_trans t l L1 L2 s s1 s2 :
  ras_did [t] L1 s s1 -> ras_did l L2 s1 s2 -> ras_did (t :: l) (L1 ++ L2) s s2.
Proof.
  intros D1 D2. pose proof (fun t' => eligible_after L1 s s1 t' [t] D1) as He.
  destruct D1 as [Hs1 Hr1 Hw1 Hl1 Hh1 [Ha1 Ht1] Hc1 Hf1], D2 as [Hs2 Hr2 Hw2 Hl2 Hh2 [Ha2 Ht2] Hc2 Hf2]. split.
  - by apply (sublist_app L1 [t] L2 l).
  - apply Forall_app. split; [done|]. eapply Forall_impl; [done|]. intros t' H. by apply He.
  - intros Hne. destruct L1; [destruct L2; [done|by apply Hw2]|by apply Hw1].
  - intros Hp Hm Hw t' Ht' Hel. apply elem_of_app. destruct (decide (t' ∈ L1)) as [|Hn]; [by left|]. right.
    apply elem_of_cons in Ht' as [->|Ht']; [|by apply Hl2, He].
    destruct Hn. apply Hl1; try done. by apply list_elem_of_singleton.
  - intros t'. rewrite Hh2. unfold clear_heads. rewrite Hh1. unfold clear_heads.
    pose proof (elem_of_app L1 L2 t'). repeat case_decide; try tauto; by destruct (ra_heads s.2 t').
  - split; congruence.
  - rewrite Hc2, length_app, Nat2Z.inj_add, Z.add_assoc. unfold u64 in *.
    rewrite <- Z.add_mod_idemp_l, Hc1, Z.add_mod_idemp_l by lia. done.
  - intros k Hk. rewrite Hf2, Hf1, length_app by done. lia.
Qed.

Lemma loop_did l s : exists L, ras_did l L s (for_each l (attack_one (ras_processFault p) now) s).2.
Proof.
  induction l as [|t l IH] in s |- *; cbn [for_each].
  { exists []. apply did_nothing; try done. by intros t ?%not_elem_of_nil. }
  rewrite bind_run. destruct (attack_one_did t s) as [L1 H1].
  destruct (IH (attack_one (ras_processFault p) now t s).2) as [L2 H2]. exists (L1 ++ L2). by eapply did_trans.
Qed.
End RasEffect.

#[global] Instance ras_capped p : CappedFault (ra_max p) (ras_processFault p).
Proof.
  assert (forall now tid, CappedHook (ra_max p) (ras_processFault p now tid)) as H
    by (intros; unfold ras_processFault; counted).
  intros now tid s _. apply H.
Qed.

(** ** CHAOSBPU *)

Section BpuEffect.
Context (p : bpu_params) (now : Z).

#[global] Instance bpu_capped taken : CappedHook (g_max (bp_gate p)) (maybeSubstituteTarget p now taken).
Proof. unfold maybeSubstituteTarget. apply gate_capped. destruct (bp_mode p); counted. Qed.

(** Either the prediction stands, or it is replaced as the mode says and counted. *)
Lemma bpu_effect taken s :
  let r := maybeSubstituteTarget p now taken s in
  (r.1 = taken /\ r.2.2 = s.2 /\ the_stats r.2.1 = the_stats s.1) \/
  (in_window (g_first (bp_gate p)) (g_last (bp_gate p)) now = true /\
   the_stats r.2.1 numFaultsInjected = the_stats s.1 numFaultsInjected + 1 /\
   match bp_mode p with
   | TargetSub => r.1 = taken /\ r.2.2 = PCState (ps_pc s.2) (u64 (ps_pc s.2 + 4))
   | DirectionFlip => r.1 = negb taken /\ r.2.2 = s.2
   end).
Proof.
  intros r. subst r. unfold maybeSubstituteTarget. rewrite bind_run.
  destruct (gate_spec (bp_gate p) now s) as (b & g & -> & _ & Hb). cbn [fst snd].
  destruct b; [|by left]. right. split; [by apply Hb|].
  destruct (bp_mode p); unfold log_if; destruct (bp_log p); by exec.
Qed.

(** A substituted target of an instruction that was predicted to fall through is the target
    it had: only a taken branch is redirected. *)
Lemma fall_through_kept taken s :
  bp_mode p = TargetSub -> ps_npc s.2 = u64 (ps_pc s.2 + 4) ->
  (maybeSubstituteTarget p now taken s).2.2 = s.2 /\ (maybeSubstituteTarget p now taken s).1 = taken.
Proof.
  intros Hm Hn. destruct (bpu_effect taken s) as [(? & ? & _)|(_ & _ & H)]; [done|]. rewrite Hm in H.
  destruct H as [-> ->]. rewrite <- Hn. by destruct s as [? []].
Qed.
End BpuEffect.

(** * Properties *)

(** A round of CHAOSRAS ([attackCheck] over the threads of the CPU) clears the fault of the
    reorder-buffer heads of a set of threads [L] and of no other head.  Every thread of [L] is
    active, its head had a fault that is no system call, and the round lies in the window; the
    record misses, the injected faults and the counter of the cap grow by the size of [L], and
    the cap is respected.  With probability 1 and no cap, [L] is every eligible thread. *)
Theorem ras_round_exact p now s :
  0 <= ra_max p < 2 ^ 64 -> within_cap (ra_max p) s ->
  let s' := (ras_attackCheck p now s).2 in
  within_cap (ra_max p) s' /\ exists L, ras_did p now (thread_ids s.2) L s s'.
Proof.
  intros Hmax Hcap s'. split.
  { by apply (within_cap_loop (HC := ras_capped p) (ras_loop p) (ras_processFault p)). }
  subst s'.
  unfold ras_attackCheck, attackLoop. cbn [ras_loop lp_probability lp_max lp_last lp_backoff].
  destruct (Qeq_bool _ 0) eqn:E0.
  { exists []. apply did_nothing; try done. intros t _ _ Hp. apply Qeq_bool_iff in E0. by rewrite E0 in Hp. }
  rewrite bind_run. cbn [get_count fst snd]. rewrite bind_run. cbn [get fst snd]. rewrite bind_run.
  destruct (loop_did p now (thread_ids s.2) s) as [L HL]. exists L.
  destruct (for_each _ _ s) as [u [[g c st lg] x]]. cbn [fst snd] in *. rewrite bind_run. cbn [get_count fst snd faults_injected_count].
  destruct (_ || _); [|done]. rewrite bind_run. unfold whenM. destruct (_ || _); by destruct HL.
Qed.

(** ** Examples *)

Module RasExample.
(** Three threads: a data abort, a system call and a halted thread with an abort. *)
Definition heads0 (t : Z) : option head_inst :=
  if t =? 0 then Some (HeadInst 17 (Some "Data Abort"))
  else if t =? 1 then Some (HeadInst 40 (Some "Supervisor Call"))
  else Some (HeadInst 52 (Some "Prefetch Abort")).
Definition ras0 : ras_state := RasState heads0 (fun t => t <? 2) 3 evt0.
Definition params0 : ras_params := RasParams 1 0 0 4 false.
Definition core0 : core := Core (Engine (fun _ => 0) 0) 0 stats0 [].

Lemma ras_round_exact_witness :
  let s' := (ras_attackCheck params0 10 (core0, ras0)).2 in
  within_cap 4 s' /\ exists L, ras_did params0 10 [0; 1; 2] L (core0, ras0) s'.
Proof.
  apply (ras_round_exact params0 10 (core0, ras0)); [by vm_compute|]. by vm_compute.
Defined.

(** The abort is silenced; the system call and the halted thread are left alone. *)
Example only_the_abort :
  let s' := (ras_attackCheck params0 10 (core0, ras0)).2 in
  (map (ra_heads s'.2) [0; 1; 2], the_stats s'.1 numRasRecordMisses) =
  ([Some (HeadInst 17 None); heads0 1; heads0 2], 1).
Proof. by vm_compute. Qed.
End RasExample.
