(* ===== verification/TagStore.v ===== *)
(** * Cache blocks and the tag store

    The blocks of a cache (mem/cache/cache_blk.hh, mem/cache/tags/tagged_entry.hh) and the
    set-associative tag store over them (BaseTags and BaseSetAssoc in mem/cache/tags, with
    the TaggedSetAssociative indexing policy).  [findBlock] has the hook of CHAOSCache: an
    injector may divert a lookup to another way of the set.  The lemmas: the address of a
    block regenerates from its tag and set; a lookup finds exactly the block that was inserted
    for the address; insertion and invalidation change one block. *)

From Stdlib Require Import ZArith Lia QArith.
From stdpp Require Import base sets numbers list strings.
From S2P Require Import Prelude Word AssocCache.

Open Scope Z_scope.

(** ** Blocks *)

Definition WritableBit : Z := 0x02.
Definition ReadableBit : Z := 0x04.
Definition DirtyBit : Z := 0x08.
Definition AllBits : Z := 0x0E.

Definition MaxAddr : Z := 2 ^ 64 - 1.

Record cache_blk := CacheBlk {
  blk_valid : bool; blk_secure : bool; blk_tag : Z;
  coherence : Z;
  blk_data : list Z
}.

Definition set_coherence (v : Z) (b : cache_blk) : cache_blk :=
  CacheBlk (blk_valid b) (blk_secure b) (blk_tag b) v (blk_data b).

Definition set_data (d : list Z) (b : cache_blk) : cache_blk :=
  CacheBlk (blk_valid b) (blk_secure b) (blk_tag b) (coherence b) d.

(** [setCoherenceBits]; its assertion is with the callers. *)
Definition setCoherenceBits (bits : Z) (b : cache_blk) : cache_blk := set_coherence (Z.lor (coherence b) bits) b.

Definition clearCoherenceBits (bits : Z) (b : cache_blk) : cache_blk := set_coherence (Z.ldiff (coherence b) bits) b.

Definition isSet (bits : Z) (b : cache_blk) : bool := blk_valid b && negb (Z.land (coherence b) bits =? 0).

(** [CacheBlk::invalidate] over [TaggedEntry::invalidate]; the data stay in place. *)
Definition blk_invalidate (b : cache_blk) : cache_blk :=
  CacheBlk false false MaxAddr (Z.ldiff (coherence b) AllBits) (blk_data b).

(** ** The tag store *)

Record tags_cfg := TagsCfg { blkSize : Z; num_blks : nat; tags_assoc : nat }.

(** The address and security state of a lookup ([TaggedTypes::KeyType]). *)
Abbreviation key := (Z * bool)%type.

(** What CHAOSCache does for the tag store and the cache: [divertFindBlock] is given the set
    and way of the block a lookup matched, the entries of the set, and which of them are
    valid; [corruptWriteback] the tick, the address and the payload of a writeback. *)
Class CacheHooks (H : Type) := {
  divertFindBlock : H -> nat -> nat -> list nat -> (nat -> bool) -> option nat;
  corruptWriteback : Z -> Z -> list Z -> H -> list Z * H
}.

(** No injector. *)
#[global] Instance no_hooks : CacheHooks unit := {|
  divertFindBlock _ _ _ _ _ := None;
  corruptWriteback _ _ d h := (d, h)
|}.

Section TagStore.
Context (g : tags_cfg).

Definition numBlkSets : nat := numSets (num_blks g) (tags_assoc g).
Definition setShift : Z := Z.log2 (blkSize g).
Definition tagShift : Z := setShift + Z.log2 (Z.of_nat numBlkSets).

Definition extractTag (addr : Z) : Z := Z.shiftr addr tagShift.

Definition extractSet (addr : Z) : Z :=
  Z.land (Z.shiftr addr setShift) (setMask (num_blks g) (tags_assoc g)).

(** [regenerateAddr]; the set is shifted as a [uint32_t]. *)
Definition regenerateAddr (tag : Z) (set : nat) : Z :=
  Z.lor (u64 (Z.shiftl tag tagShift)) (Z.shiftl (Z.of_nat set) setShift mod 2 ^ 32).

(** [TaggedEntry::insert]; the assertion that the block is invalid is with the callers. *)
Definition blk_insert (k : key) (b : cache_blk) : cache_blk :=
  CacheBlk true (k.2 || blk_secure b) (extractTag k.1) (coherence b) (blk_data b).

Definition blk_match (k : key) (b : cache_blk) : bool :=
  blk_valid b && (blk_tag b =? extractTag k.1) && Bool.eqb (blk_secure b) k.2.

#[local] Instance blk_entry : CacheEntry cache_blk key := {|
  ce_invalidate := blk_invalidate;
  ce_insert := blk_insert;
  ce_match := blk_match
|}.

Definition blk_set (i : nat) : nat := (i / tags_assoc g)%nat.
Definition blk_way (i : nat) : nat := (i mod tags_assoc g)%nat.

Definition possibleEntries (k : key) : list nat := set_entries (num_blks g) (tags_assoc g) (extractSet k.1).

Section Operations.
Context {R H : Type} {RP : ReplacementPolicy R} {CH : CacheHooks H}.
Implicit Types (t : table cache_blk R) (h : H).

Definition valid_at t (i : nat) : bool :=
  match entry_at t i with Some b => blk_valid b | None => false end.

Definition findBlock h (k : key) t : option nat :=
  match ac_findEntry (possibleEntries k) k t with
  | Some i =>
      match divertFindBlock h (blk_set i) (blk_way i) (possibleEntries k) (valid_at t) with
      | Some j => Some j
      | None => Some i
      end
  | None => None
  end.

(** [BaseSetAssoc::accessBlock], without the counters. *)
Definition accessBlock h (now : Z) (k : key) t : option nat * table cache_blk R :=
  match findBlock h k t with
  | Some i => (Some i, ac_touch now i t)
  | None => (None, t)
  end.

(** [BaseSetAssoc::findVictim], without partitions. *)
Definition findVictim (k : key) t : option nat :=
  match possibleEntries k with [] => None | entries => Some (pick_victim entries t) end.

(** [BaseSetAssoc::insertBlock]; [None] is the assertion that the block is invalid. *)
Definition insertBlock (now : Z) (k : key) (i : nat) t : option (table cache_blk R) :=
  if valid_at t i then None else Some (ac_insertEntry now k i t).

(** [BaseSetAssoc::invalidate]; [None] is the assertion that the block is valid. *)
Definition tags_invalidate (i : nat) t : option (table cache_blk R) :=
  if valid_at t i then Some (ac_invalidate i t) else None.

Definition regenerateBlkAddr (i : nat) (b : cache_blk) : Z := regenerateAddr (blk_tag b) (blk_set i).
End Operations.

(** [tagsInit]: every block is invalid. *)
Definition tagsInit {R : Type} {RP : ReplacementPolicy R} : table cache_blk R :=
  replicate (num_blks g) (CacheBlk false false MaxAddr 0 (replicate (Z.to_nat (blkSize g)) 0), rp_instantiate).
End TagStore.

(** * Lemmas *)

(** ** Addresses *)

(** The checks of the constructors: block size and number of sets are powers of two, every
    set is full; and the sets span at most 4 GiB. *)
Record tags_ok (g : tags_cfg) : Prop := TagsOk {
  to_blk : blkSize g = 2 ^ setShift g;
  to_sets : Z.of_nat (numBlkSets g) = 2 ^ (tagShift g - setShift g);
  to_assoc : (0 < tags_assoc g)%nat;
  to_full : (num_blks g mod tags_assoc g = 0)%nat;
  to_span : tagShift g <= 32
}.

(** An address at which a block can start. *)
Definition line_addr (g : tags_cfg) (a : Z) : Prop := 0 <= a < 2 ^ 64 /\ a mod blkSize g = 0.

Section Addresses.
Context (g : tags_cfg) (OK : tags_ok g).

Lemma shifts : 0 <= setShift g /\ setShift g <= tagShift g.
Proof.
  unfold tagShift, setShift. pose proof (Z.log2_nonneg (blkSize g)).
  pose proof (Z.log2_nonneg (Z.of_nat (numBlkSets g))). lia.
Qed.

Lemma extractTag_div a : extractTag g a = a / 2 ^ tagShift g.
Proof. unfold extractTag. pose proof shifts. by rewrite Z.shiftr_div_pow2 by lia. Qed.

Lemma extractSet_mod a : extractSet g a = (a / 2 ^ setShift g) mod 2 ^ (tagShift g - setShift g).
Proof.
  unfold extractSet, setMask. pose proof shifts. rewrite Z.shiftr_div_pow2 by lia.
  change (numSets _ _) with (numBlkSets g). rewrite (to_sets g OK).
  replace (2 ^ (tagShift g - setShift g) - 1) with (Z.ones (tagShift g - setShift g))
    by (rewrite Z.ones_equiv; lia).
  apply Z.land_ones. lia.
Qed.

Lemma extractSet_range a : 0 <= extractSet g a < Z.of_nat (numBlkSets g).
Proof. rewrite extractSet_mod, (to_sets g OK). pose proof shifts. apply Z.mod_pos_bound. lia. Qed.

(** Tag and set of an address give the address of its block. *)
Lemma regenerate_extract a s :
  line_addr g a -> extractSet g a = Z.of_nat s -> regenerateAddr g (extractTag g a) s = a.
Proof.
  intros [Ha Hal] Hs. pose proof shifts as [H0 H1]. pose proof (to_span g OK).
  assert (2 ^ tagShift g = 2 ^ (tagShift g - setShift g) * 2 ^ setShift g) as Hp
    by (rewrite <- Z.pow_add_r by lia; f_equal; lia).
  assert (2 ^ tagShift g <= 2 ^ 32) as Hle by (apply Z.pow_le_mono_r; lia).
  pose proof (extractSet_range a) as Hr. rewrite Hs, (to_sets g OK) in Hr.
  assert (0 < 2 ^ setShift g) by lia.
  unfold regenerateAddr. rewrite extractTag_div, !Z.shiftl_mul_pow2 by lia.
  rewrite (Z.mod_small (Z.of_nat s * _)) by (split; [nia|]; nia).
  assert (0 < 2 ^ tagShift g) by lia.
  pose proof (Z.div_mod a (2 ^ tagShift g) ltac:(lia)) as Hdm.
  pose proof (Z.mod_pos_bound a (2 ^ tagShift g) ltac:(lia)) as Hm.
  pose proof (Z.div_pos a (2 ^ tagShift g) ltac:(lia) ltac:(lia)).
  unfold u64. rewrite (Z.mod_small (a / _ * _)) by (split; [nia|lia]).
  rewrite Z.lor_comm, <- (Z.shiftl_mul_pow2 (a / _)) by lia. rewrite lor_shiftl_add; [|lia|unfold uint; split; nia].
  rewrite <- Hs, extractSet_mod. rewrite (to_blk g OK) in Hal.
  assert (a / 2 ^ tagShift g = a / 2 ^ setShift g / 2 ^ (tagShift g - setShift g)) as ->
    by (rewrite Hp, (Z.mul_comm (2 ^ _)), Z.div_div by lia; done).
  pose proof (Z.div_mod a (2 ^ setShift g) ltac:(lia)).
  pose proof (Z.div_mod (a / 2 ^ setShift g) (2 ^ (tagShift g - setShift g)) ltac:(lia)).
  rewrite Hp. nia.
Qed.

(** The block of an address. *)
Definition line_of (a : Z) : Z := Z.ldiff a (blkSize g - 1).

Lemma line_of_sub a : line_of a = a - a mod blkSize g.
Proof.
  unfold line_of. pose proof shifts. rewrite (to_blk g OK).
  replace (2 ^ setShift g - 1) with (Z.ones (setShift g)) by (rewrite Z.ones_equiv; lia).
  rewrite Z.ldiff_ones_r, Z.shiftl_mul_pow2, Z.shiftr_div_pow2 by lia.
  pose proof (Z.div_mod a (2 ^ setShift g) ltac:(lia)). lia.
Qed.

Lemma line_of_div a : line_of a / 2 ^ setShift g = a / 2 ^ setShift g.
Proof.
  rewrite line_of_sub, (to_blk g OK). pose proof shifts.
  pose proof (Z.div_mod a (2 ^ setShift g) ltac:(lia)).
  replace (a - a mod 2 ^ setShift g) with (a / 2 ^ setShift g * 2 ^ setShift g) by lia.
  by rewrite Z.div_mul by lia.
Qed.

Lemma extract_line a : extractTag g (line_of a) = extractTag g a /\ extractSet g (line_of a) = extractSet g a.
Proof.
  pose proof shifts. rewrite !extractTag_div, !extractSet_mod, line_of_div. split; [|done].
  replace (2 ^ tagShift g) with (2 ^ setShift g * 2 ^ (tagShift g - setShift g))
    by (rewrite <- Z.pow_add_r by lia; f_equal; lia).
  by rewrite <- !Z.div_div, line_of_div by lia.
Qed.

Lemma line_of_line a : line_addr g a -> line_of a = a.
Proof. intros [_ H]. rewrite line_of_sub, H. lia. Qed.
End Addresses.

(** ** Blocks *)

Lemma first_of_ext f f' l : (forall i, f i = f' i) -> first_of f l = first_of f' l.
Proof. intros E. induction l as [|i l IH]; [done|]. cbn. rewrite E. by destruct (f' i). Qed.

(** Only bits of [AllBits] are ever set. *)
Definition coh_ok (b : cache_blk) : Prop := Z.ldiff (coherence b) AllBits = 0.

(** An update that keeps the identity of a block. *)
Definition keeps (b b' : cache_blk) : Prop :=
  blk_valid b' = blk_valid b /\ blk_secure b' = blk_secure b /\ blk_tag b' = blk_tag b /\
  length (blk_data b') = length (blk_data b) /\ (coh_ok b -> coh_ok b').

(** ** What the store holds *)

(** Injectors that leave lookups and writebacks alone. *)
Class InertHooks (H : Type) {CH : CacheHooks H} : Prop := {
  inert_divert : forall h s w l v, divertFindBlock h s w l v = None;
  inert_writeback : forall now a d h, corruptWriteback now a d h = (d, h)
}.

#[global] Instance no_hooks_inert : InertHooks unit.
Proof. by constructor. Qed.

Section Lines.
Context (g : tags_cfg) (OK : tags_ok g) (w : bool) (dom : Z -> Prop) (Hdom : forall a, dom a -> line_addr g a).
Context {R H : Type} {RP : ReplacementPolicy R} {CH : CacheHooks H} {IH : InertHooks H}.
#[local] Instance the_entry : CacheEntry cache_blk key := blk_entry g.
Implicit Types (t : table cache_blk R) (b : cache_blk) (a : Z) (i : nat).

(** Block [i] of the store is [b] and holds the line at [a]. *)
Definition holds t i a b : Prop :=
  entry_at t i = Some b /\ blk_valid b = true /\ blk_secure b = w /\ blk_tag b = extractTag g a /\
  Z.of_nat (blk_set g i) = extractSet g a.

Record tags_wf t : Prop := TagsWf {
  twf_len : length t = num_blks g;
  twf_blk : forall i b, entry_at t i = Some b ->
    length (blk_data b) = Z.to_nat (blkSize g) /\ coh_ok b /\
    (blk_valid b = false -> blk_secure b = false /\ coherence b = 0);
  twf_line : forall i b, entry_at t i = Some b -> blk_valid b = true -> exists a, dom a /\ holds t i a b;
  twf_uniq : forall i j a b b', dom a -> holds t i a b -> holds t j a b' -> i = j
}.

Definition find t a : option nat := ac_findEntry (possibleEntries g (a, w)) (a, w) t.

Definition line t a : option cache_blk := match find t a with Some i => entry_at t i | None => None end.

Lemma possible_in a i : i ∈ possibleEntries g (a, w) <-> (i < num_blks g)%nat /\ Z.of_nat (blk_set g i) = extractSet g a.
Proof.
  unfold possibleEntries, blk_set. cbn [fst]. rewrite elem_of_set_entries; [done|apply OK|apply OK|].
  apply (extractSet_range g OK).
Qed.

Lemma find_holds t a i : find t a = Some i -> exists b, holds t i a b.
Proof.
  intros [Hi Hm]%first_of_Some. apply possible_in in Hi as [_ Hs].
  destruct (entry_at t i) as [b|] eqn:E; [|done]. exists b. cbn in Hm. unfold blk_match in Hm. cbn in Hm.
  bools. split_and!; try done. by apply eqb_prop.
Qed.

Lemma holds_match t i a b : holds t i a b -> (i < length t)%nat /\ blk_match g (a, w) b = true.
Proof.
  intros (He & Hv & Hw & Ht & Hs). split; [by apply entry_at_is_Some; exists b|].
  unfold blk_match. cbn. by rewrite Hv, Ht, Z.eqb_refl, Hw, eqb_reflx.
Qed.

Lemma holds_find t a i b : tags_wf t -> dom a -> holds t i a b -> find t a = Some i.
Proof.
  intros W Ha Hb. destruct (holds_match _ _ _ _ Hb) as [Hi Hm].
  assert (i ∈ possibleEntries g (a, w)) as Hin by (apply possible_in; rewrite <- (twf_len t W); split; [done|apply Hb]).
  destruct (find t a) as [j|] eqn:E.
  - destruct (find_holds _ _ _ E) as [b' Hj]. f_equal. symmetry. by eapply (twf_uniq t W).
  - pose proof (first_of_None _ _ _ E Hin) as Hn. cbn in Hn. destruct Hb as (He & _). rewrite He in Hn. congruence.
Qed.

Lemma find_spec t a i : tags_wf t -> dom a -> find t a = Some i <-> exists b, holds t i a b.
Proof. intros W Ha. split; [apply find_holds|]. intros [b Hb]. by eapply holds_find. Qed.

Lemma find_ext t t' a :
  tags_wf t -> tags_wf t' -> dom a -> (forall i, (exists b, holds t i a b) <-> exists b, holds t' i a b) ->
  find t a = find t' a.
Proof.
  intros W W' Ha E. apply option_eq. intros i. by rewrite !find_spec, E.
Qed.

Lemma line_Some t a b : tags_wf t -> dom a -> line t a = Some b <-> exists i, find t a = Some i /\ holds t i a b.
Proof.
  intros W Ha. unfold line. split.
  - destruct (find t a) as [i|] eqn:E; [|done]. intros He. exists i. split; [done|].
    destruct (find_holds _ _ _ E) as [b' Hb]. destruct Hb as (He' & Hb). by rewrite He in He'; injection He' as ->.
  - intros (i & -> & Hb). apply Hb.
Qed.

(** Lines of different addresses are in different blocks. *)
Lemma holds_addr t i a a' b b' : dom a -> dom a' -> holds t i a b -> holds t i a' b' -> a = a'.
Proof.
  intros Ha Ha' (He & _ & _ & Ht & Hs) (He' & _ & _ & Ht' & Hs'). rewrite He in He'. injection He' as <-.
  rewrite <- (regenerate_extract g OK a (blk_set g i)), <- (regenerate_extract g OK a' (blk_set g i)); auto.
  by rewrite <- Ht, <- Ht'.
Qed.

Lemma find_inj t i a a' : dom a -> dom a' -> find t a = Some i -> find t a' = Some i -> a = a'.
Proof. intros Ha Ha' [b Hb]%find_holds [b' Hb']%find_holds. by eapply holds_addr. Qed.

Lemma holds_regenerate t i a b : dom a -> holds t i a b -> regenerateBlkAddr g i b = a.
Proof.
  intros Ha (_ & _ & _ & Ht & Hs). unfold regenerateBlkAddr. rewrite Ht. apply regenerate_extract; auto.
Qed.

(** With inert hooks [findBlock] is the search of the set, for any address of the line. *)
Lemma find_line_of t a : find t (line_of g a) = find t a.
Proof.
  destruct (extract_line g OK a) as [Ht Hs]. unfold find, possibleEntries, ac_findEntry. cbn. unfold blk_match. cbn.
  by rewrite Ht, Hs.
Qed.

Lemma findBlock_find h a t : findBlock g h (a, w) t = find t (line_of g a).
Proof. rewrite find_line_of. unfold findBlock, find. destruct (ac_findEntry _ _ t); [|done]. by rewrite inert_divert. Qed.

(** ** Updates *)

(** Replacement data do not matter. *)
Lemma holds_entries t t' i a b : (forall j, entry_at t' j = entry_at t j) -> holds t' i a b <-> holds t i a b.
Proof. intros E. unfold holds. by rewrite E. Qed.

Lemma wf_entries t t' : length t' = length t -> (forall j, entry_at t' j = entry_at t j) -> tags_wf t -> tags_wf t'.
Proof.
  intros Hl E W. split.
  - by rewrite Hl; apply W.
  - intros i b. rewrite E. apply W.
  - intros i b. rewrite E. intros He Hv. destruct (twf_line t W i b He Hv) as (a & Ha & Hh). exists a. by rewrite holds_entries.
  - intros i j a b b' Ha. rewrite !(holds_entries t t') by done. by apply W.
Qed.

Lemma line_entries t t' a : (forall j, entry_at t' j = entry_at t j) -> find t' a = find t a /\ line t' a = line t a.
Proof.
  intros E. assert (find t' a = find t a) as Hf.
  { apply first_of_ext. intros j. by rewrite E. }
  split; [done|]. unfold line. rewrite Hf. by destruct (find t a).
Qed.

(** A change of block [i] alone; [b'] is what it becomes. *)
Definition one_change t t' i b' : Prop :=
  length t' = length t /\ (i < length t)%nat /\
  forall j, entry_at t' j = if decide (j = i) then Some b' else entry_at t j.

Lemma holds_other t t' i b' j a b : one_change t t' i b' -> j <> i -> holds t' j a b <-> holds t j a b.
Proof. intros (_ & _ & E) Hj. unfold holds. by rewrite E, decide_False. Qed.

Lemma find_other t t' i b' a a' :
  one_change t t' i b' -> tags_wf t -> tags_wf t' -> dom a -> dom a' -> a' <> a ->
  (forall b, holds t i a' b -> False) -> (forall b, holds t' i a' b -> False) ->
  find t' a' = find t a' /\ line t' a' = line t a'.
Proof.
  intros Hc W W' Ha Ha' Hne Hno Hno'. assert (find t' a' = find t a') as Hf.
  { apply find_ext; try done. intros j. destruct (decide (j = i)) as [->|Hj].
    - split; intros [b Hb]; exfalso; eauto.
    - by setoid_rewrite (holds_other t t' i b' j). }
  split; [done|]. unfold line. rewrite Hf. destruct (find t a') as [j|] eqn:E; [|done].
  destruct Hc as (_ & _ & ->). rewrite decide_False; [done|]. intros ->.
  destruct (find_holds _ _ _ E) as [b Hb]. eauto.
Qed.

(** An update that keeps the block's identity. *)
Lemma update_spec t a i b b' t' :
  tags_wf t -> dom a -> holds t i a b -> keeps b b' -> one_change t t' i b' ->
  tags_wf t' /\ find t' a = Some i /\ line t' a = Some b' /\
  forall a', dom a' -> a' <> a -> find t' a' = find t a' /\ line t' a' = line t a'.
Proof.
  intros W Ha Hb (K1 & K2 & K3 & K4 & K5) Hc. pose proof Hc as (Hl & Hi & E).
  assert (forall j a0, (exists b0, holds t' j a0 b0) <-> exists b0, holds t j a0 b0) as Hh.
  { intros j a0. destruct (decide (j = i)) as [->|Hj]; [|by setoid_rewrite (holds_other t t' i b' j)].
    destruct Hb as (He & Hv & Hw & _). unfold holds. rewrite E, decide_True, He by done.
    split; intros (? & [= <-] & ?); [exists b|exists b']; split; try done; by rewrite ?K1, ?K2, ?K3 in *. }
  assert (tags_wf t') as W'.
  { split.
    - rewrite Hl. apply W.
    - intros j b0. rewrite E. case_decide; [|apply W]. intros [= <-].
      destruct (twf_blk t W i b ltac:(apply Hb)) as (? & ? & ?). destruct Hb as (_ & Hv & _).
      split; [by rewrite K4|]. split; [by apply K5|]. by rewrite K1, Hv.
    - intros j b0 He Hv. destruct (decide (j = i)) as [->|Hj].
      + exists a. split; [done|]. rewrite E, decide_True in He by done. injection He as <-.
        split; [by rewrite E, decide_True|]. split; [done|]. rewrite K2, K3. apply Hb.
      + rewrite E, decide_False in He by done. destruct (twf_line t W j b0 He Hv) as (a0 & Ha0 & Hh0).
        exists a0. by rewrite (holds_other t t' i b' j).
    - intros j k a0 b1 b2 Ha0 H1 H2.
      destruct (proj1 (Hh j a0) (ex_intro _ _ H1)) as [b3 H3]. destruct (proj1 (Hh k a0) (ex_intro _ _ H2)) as [b4 H4].
      by apply (twf_uniq t W j k a0 b3 b4). }
  assert (find t' a = Some i) as Hf by (apply find_spec, Hh; [done..|]; by exists b).
  split; [done|]. split; [done|]. split; [unfold line; by rewrite Hf, E, decide_True|].
  intros a' Ha' Hne. assert (forall b0, holds t i a' b0 -> False) as Hno
    by (intros b0 H0; apply Hne; by eapply holds_addr).
  apply (find_other t t' i b' a); try done. intros b0 H0.
  destruct (proj1 (Hh i a') (ex_intro _ _ H0)) as [b3 H3]. eauto.
Qed.

(** A block becomes invalid. *)
Lemma drop_spec t a i b b' t' :
  tags_wf t -> dom a -> holds t i a b -> one_change t t' i b' ->
  blk_valid b' = false -> blk_secure b' = false -> coherence b' = 0 -> length (blk_data b') = length (blk_data b) ->
  tags_wf t' /\ find t' a = None /\ line t' a = None /\
  forall a', dom a' -> a' <> a -> find t' a' = find t a' /\ line t' a' = line t a'.
Proof.
  intros W Ha Hb Hc Hv Hs Hco Hlen. pose proof Hc as (Hl & Hi & E).
  assert (forall j a0 b0, holds t' j a0 b0 -> j <> i /\ holds t j a0 b0) as Hh.
  { intros j a0 b0 H0. assert (j <> i) as Hj.
    { intros ->. destruct H0 as (He & Hv0 & _). rewrite E, decide_True in He by done. congruence. }
    split; [done|]. by apply (holds_other t t' i b'). }
  assert (tags_wf t') as W'.
  { split.
    - rewrite Hl. apply W.
    - intros j b0. rewrite E. case_decide; [|apply W]. intros [= <-]. rewrite Hlen.
      split; [by eapply W, Hb|]. split; [unfold coh_ok; by rewrite Hco|done].
    - intros j b0 He Hv0. destruct (decide (j = i)) as [->|Hj]; rewrite E in He; [rewrite decide_True in He by done; congruence|].
      rewrite decide_False in He by done. destruct (twf_line t W j b0 He Hv0) as (a0 & Ha0 & Hh0).
      exists a0. by rewrite (holds_other t t' i b' j).
    - intros j k a0 b1 b2 Ha0 [_ H1]%Hh [_ H2]%Hh. by apply (twf_uniq t W j k a0 b1 b2). }
  assert (find t' a = None) as Hf.
  { destruct (find t' a) as [j|] eqn:Ef; [|done]. destruct (find_holds _ _ _ Ef) as [b0 [Hj H0]%Hh].
    destruct Hj. by apply (twf_uniq t W j i a b0 b). }
  split; [done|]. split; [done|]. split; [unfold line; by rewrite Hf|].
  intros a' Ha' Hne. apply (find_other t t' i b' a); try done.
  - intros b0 H0. apply Hne. by eapply holds_addr.
  - intros b0 [Hj _]%Hh. done.
Qed.

(** An invalid block of the set of [a] becomes the line at [a]. *)
Lemma fill_spec t a i b b' t' :
  tags_wf t -> dom a -> entry_at t i = Some b -> blk_valid b = false -> i ∈ possibleEntries g (a, w) ->
  find t a = None -> one_change t t' i b' ->
  blk_valid b' = true -> blk_secure b' = w -> blk_tag b' = extractTag g a -> coherence b' = 0 ->
  length (blk_data b') = length (blk_data b) ->
  tags_wf t' /\ holds t' i a b' /\ find t' a = Some i /\ line t' a = Some b' /\
  forall a', dom a' -> a' <> a -> find t' a' = find t a' /\ line t' a' = line t a'.
Proof.
  intros W Ha He Hvi Hin Hf Hc Hv Hs Ht Hco Hlen. pose proof Hc as (Hl & Hi & E).
  apply possible_in in Hin as [_ Hset].
  assert (holds t' i a b') as Hb' by (split; [by rewrite E, decide_True|done]).
  assert (forall a0 b0, holds t i a0 b0 -> False) as Hno by (intros a0 b0 (He0 & Hv0 & _); congruence).
  assert (forall j a0 b0, dom a0 -> holds t' j a0 b0 -> j = i /\ a0 = a \/ j <> i /\ holds t j a0 b0) as Hh.
  { intros j a0 b0 Ha0 H0. destruct (decide (j = i)) as [->|Hj].
    - left. split; [done|]. by apply (holds_addr t' i a0 a b0 b').
    - right. split; [done|]. by apply (holds_other t t' i b'). }
  assert (forall j b0, holds t j a b0 -> False) as Hnone.
  { intros j b0 H0. pose proof (holds_find t a j b0 W Ha H0). congruence. }
  assert (tags_wf t') as W'.
  { split.
    - rewrite Hl. apply W.
    - intros j b0. rewrite E. case_decide; [|apply W]. intros [= <-]. rewrite Hlen.
      split; [by eapply W|]. split; [unfold coh_ok; by rewrite Hco|congruence].
    - intros j b0 Hej Hv0. destruct (decide (j = i)) as [->|Hj].
      + exists a. split; [done|]. rewrite E, decide_True in Hej by done. by injection Hej as <-.
      + rewrite E, decide_False in Hej by done. destruct (twf_line t W j b0 Hej Hv0) as (a0 & Ha0 & Hh0).
        exists a0. by rewrite (holds_other t t' i b' j).
    - intros j k a0 b1 b2 Ha0 H1 H2.
      destruct (Hh j a0 b1 Ha0 H1) as [[-> ->]|[_ H1']], (Hh k _ b2 Ha0 H2) as [[-> ?]|[_ H2']]; subst; try done;
        try by exfalso; eauto.
      by apply (twf_uniq t W j k a0 b1 b2). }
  assert (find t' a = Some i) as Hf' by by eapply holds_find.
  split; [done|]. split; [done|]. split; [done|]. split; [unfold line; by rewrite Hf', E, decide_True|].
  intros a' Ha' Hne. apply (find_other t t' i b' a); try done; [by intros b0 ?%Hno|].
  intros b0 H0. apply Hne. by apply (holds_addr t' i a' a b0 b').
Qed.

(** The operations are such changes. *)
Lemma on_entry_change t i f b : entry_at t i = Some b -> one_change t (on_entry i f t) i (f b).
Proof.
  intros He. split; [apply length_on_entry|]. split; [by apply entry_at_is_Some; exists b|].
  intros j. rewrite entry_at_on_entry. destruct (decide (i = j)) as [<-|Hj]; [by rewrite decide_True, He|].
  by rewrite decide_False.
Qed.

Lemma change_on_repl t t' i b' j f : one_change t t' i b' -> one_change t (on_repl j f t') i b'.
Proof. intros (Hl & Hi & E). split; [by rewrite length_on_repl|]. split; [done|]. intros k. by rewrite entry_at_on_repl. Qed.

Lemma change_trans t t1 t2 i b1 b2 : one_change t t1 i b1 -> one_change t1 t2 i b2 -> one_change t t2 i b2.
Proof.
  intros (Hl1 & Hi & E1) (Hl2 & _ & E2). split; [congruence|]. split; [done|]. intros j. rewrite E2, E1. by case_decide.
Qed.

Lemma change_entry t t' i b' : one_change t t' i b' -> entry_at t' i = Some b'.
Proof. intros (_ & _ & ->). by rewrite decide_True. Qed.

Lemma findVictim_in {RPO : ReplacementPolicyOk R} a t : tags_wf t -> exists i b,
  findVictim g (a, w) t = Some i /\ i ∈ possibleEntries g (a, w) /\ entry_at t i = Some b.
Proof.
  intros W. unfold findVictim.
  assert (possibleEntries g (a, w) <> []) as Hne.
  { apply set_entries_nonempty; [apply OK..|]. apply (extractSet_range g OK). }
  assert (forall i, i ∈ possibleEntries g (a, w) -> (i < length t)%nat) as Hlt
    by (intros i [Hi _]%possible_in; by rewrite (twf_len t W)).
  pose proof (pick_victim_in _ t Hne Hlt) as Hin.
  destruct (possibleEntries g (a, w)) as [|e l]; [done|].
  eexists _. destruct (proj2 (entry_at_is_Some t (pick_victim (e :: l) t))) as [b Hb]; [by apply Hlt|].
  by exists b.
Qed.

Lemma tagsInit_wf : 0 <= blkSize g -> tags_wf (tagsInit g).
Proof.
  intros Hb. assert (forall i b, entry_at (tagsInit (R := R) g) i = Some b ->
    b = CacheBlk false false MaxAddr 0 (replicate (Z.to_nat (blkSize g)) 0)) as E.
  { intros i b. unfold entry_at, tagsInit. intros ([b' r] & [E _]%lookup_replicate & ->)%fmap_Some. by injection E. }
  split.
  - apply length_replicate.
  - intros i b ->%E. cbn. by rewrite length_replicate.
  - intros i b ->%E. done.
  - intros i j a b b' _ (->%E & Hv & _). done.
Qed.

Lemma tagsInit_line a : line (tagsInit g) a = None.
Proof.
  unfold line. destruct (find (tagsInit g) a) as [i|] eqn:Ef; [|done].
  destruct (find_holds _ _ _ Ef) as (b & He & Hv & _). unfold entry_at, tagsInit in He.
  apply fmap_Some in He as ([b' r] & [E _]%lookup_replicate & ->). by injection E as -> ->.
Qed.
End Lines.
