(* ===== verification/Cache.v ===== *)
(** * Caches in atomic mode

    Packets (mem/packet.hh) and the cache that serves them in atomic mode (BaseCache in
    mem/cache/base.cc, Cache in mem/cache/cache.cc): lookup, fill, write permission,
    eviction, and what the cache sends to the device below it.  A [Device] is anything that
    receives packets, the memory of Memory.v or another cache, so that caches stack.  In
    atomic mode there are no outstanding misses and no write buffer.  Cache maintenance,
    locked accesses, prefetches, compression and partitions are left out.  An assertion that
    fails is [None]. *)

From Stdlib Require Import ZArith Lia QArith.
From stdpp Require Import base sets numbers list strings.
From S2P Require Import Prelude Word Memory AssocCache TagStore.

Open Scope Z_scope.

(** ** Packets *)

Inductive MemCmd :=
  | ReadReq | ReadResp | WriteReq | WriteResp | WritebackDirty | WritebackClean | CleanEvict
  | WriteLineReq | UpgradeReq | UpgradeResp | ReadExReq | ReadExResp | ReadCleanReq | ReadSharedReq
  | InvalidateReq | InvalidateResp.

#[global] Instance MemCmd_eq_dec : EqDecision MemCmd.
Proof. solve_decision. Defined.

(** The attributes of [MemCmd::commandInfo]. *)
Inductive CmdAttr :=
  | IsRead | IsWrite | NeedsWritable | IsInvalidate | IsUpgrade | IsEviction | FromCache
  | IsRequest | IsResponse | NeedsResponse | HasData.

#[global] Instance CmdAttr_eq_dec : EqDecision CmdAttr.
Proof. solve_decision. Defined.

Definition commandInfo (c : MemCmd) : list CmdAttr * option MemCmd :=
  match c with
  | ReadReq => ([IsRead; IsRequest; NeedsResponse], Some ReadResp)
  | ReadResp => ([IsRead; IsResponse; HasData], None)
  | WriteReq => ([IsWrite; NeedsWritable; IsRequest; NeedsResponse; HasData], Some WriteResp)
  | WriteResp => ([IsWrite; IsResponse], None)
  | WritebackDirty => ([IsWrite; IsRequest; IsEviction; HasData; FromCache], None)
  | WritebackClean => ([IsWrite; IsRequest; IsEviction; HasData; FromCache], None)
  | CleanEvict => ([IsRequest; IsEviction; FromCache], None)
  | WriteLineReq => ([IsWrite; NeedsWritable; IsRequest; NeedsResponse; HasData], Some WriteResp)
  | UpgradeReq => ([IsInvalidate; NeedsWritable; IsUpgrade; IsRequest; NeedsResponse; FromCache], Some UpgradeResp)
  | UpgradeResp => ([IsUpgrade; IsResponse], None)
  | ReadExReq => ([IsRead; NeedsWritable; IsInvalidate; IsRequest; NeedsResponse; FromCache], Some ReadExResp)
  | ReadExResp => ([IsRead; IsResponse; HasData], None)
  | ReadCleanReq => ([IsRead; IsRequest; NeedsResponse; FromCache], Some ReadResp)
  | ReadSharedReq => ([IsRead; IsRequest; NeedsResponse; FromCache], Some ReadResp)
  | InvalidateReq => ([IsInvalidate; IsRequest; NeedsWritable; NeedsResponse; FromCache], Some InvalidateResp)
  | InvalidateResp => ([IsInvalidate; IsResponse], None)
  end.

Record pkt := Pkt {
  p_cmd : MemCmd; p_addr : Z; p_size : Z; p_secure : bool;
  p_data : list Z;
  hasSharers : bool; cacheResponding : bool
}.

Definition testCmdAttrib (a : CmdAttr) (p : pkt) : bool := bool_decide (a ∈ (commandInfo (p_cmd p)).1).

Definition p_key (p : pkt) : key := (p_addr p, p_secure p).

Definition with_cmd (c : MemCmd) (p : pkt) : pkt :=
  Pkt c (p_addr p) (p_size p) (p_secure p) (p_data p) (hasSharers p) (cacheResponding p).
Definition with_data (d : list Z) (p : pkt) : pkt :=
  Pkt (p_cmd p) (p_addr p) (p_size p) (p_secure p) d (hasSharers p) (cacheResponding p).
Definition setHasSharers (p : pkt) : pkt :=
  Pkt (p_cmd p) (p_addr p) (p_size p) (p_secure p) (p_data p) true (cacheResponding p).

(** The assertions of [setCacheResponding] and [makeResponse] fail with [None]. *)
Definition setCacheResponding (p : pkt) : option pkt :=
  if testCmdAttrib IsRequest p && negb (cacheResponding p)
  then Some (Pkt (p_cmd p) (p_addr p) (p_size p) (p_secure p) (p_data p) (hasSharers p) true) else None.

Definition makeResponse (p : pkt) : option pkt :=
  if testCmdAttrib NeedsResponse p && testCmdAttrib IsRequest p
  then match (commandInfo (p_cmd p)).2 with Some c => Some (with_cmd c p) | None => None end else None.

Definition getOffset (blk : Z) (p : pkt) : Z := Z.land (p_addr p) (blk - 1).
Definition getBlockAddr (blk : Z) (p : pkt) : Z := Z.ldiff (p_addr p) (blk - 1).

Definition isWholeLineWrite (blk : Z) (p : pkt) : bool :=
  (bool_decide (p_cmd p = WriteReq) || bool_decide (p_cmd p = WriteLineReq)) &&
  (getOffset blk p =? 0) && (p_size p =? blk).

Definition isWriteback (p : pkt) : bool :=
  testCmdAttrib IsEviction p && testCmdAttrib HasData p.

(** [setDataFromBlock] and [writeDataToBlock] copy [p_size] bytes at the offset. *)
Definition setDataFromBlock (blk : Z) (d : list Z) (p : pkt) : pkt :=
  with_data (take (Z.to_nat (p_size p)) (drop (Z.to_nat (getOffset blk p)) d)) p.

Definition writeDataToBlock (blk : Z) (p : pkt) (d : list Z) : list Z :=
  take (Z.to_nat (getOffset blk p)) d ++ take (Z.to_nat (p_size p)) (p_data p) ++
  drop (Z.to_nat (getOffset blk p + p_size p)) d.

(** ** Devices *)

(** The current tick, and the answer of the caches above to a snoop for a block
    ([isCachedAbove]), go with every packet. *)
Class Device (B : Type) := recvAtomic : Z -> (key -> bool) -> pkt -> B -> option (pkt * B).

(** [AbstractMemory::access] on the packets of a cache. *)
#[global] Instance memory_device : Device memory := fun _ _ p m =>
  if cacheResponding p then Some (p, m)
  else if bool_decide (p_cmd p = CleanEvict) || bool_decide (p_cmd p = WritebackClean) then Some (p, m)
  else if negb (in_range m (p_addr p) (Z.to_nat (p_size p))) then None
  else
    let respond (r : pkt) (m' : memory) :=
      if testCmdAttrib NeedsResponse r
      then match makeResponse r with Some r' => Some (r', m') | None => None end else Some (r, m') in
    if testCmdAttrib IsRead p
    then respond (with_data (load_bytes (pmem m) (p_addr p) (Z.to_nat (p_size p))) p) m
    else if testCmdAttrib IsInvalidate p then respond p m
    else if testCmdAttrib IsWrite p
    then respond p (write_access m None false (p_addr p) (take (Z.to_nat (p_size p)) (p_data p))).2
    else None.

(** ** Handlers that may fail *)

Definition E (S A : Type) : Type := S -> option (A * S).

Section ErrorMonad.
Context {S : Type}.

Definition eret {A} (a : A) : E S A := fun s => Some (a, s).
Definition ebind {A A'} (m : E S A) (k : A -> E S A') : E S A' :=
  fun s => match m s with Some (a, s') => k a s' | None => None end.
Definition eassert (b : bool) : E S unit := fun s => if b then Some (tt, s) else None.
Definition elift {A} (o : option A) : E S A := fun s => match o with Some a => Some (a, s) | None => None end.
Definition eget : E S S := fun s => Some (s, s).
Definition emodify (f : S -> S) : E S unit := fun s => Some (tt, f s).
Definition ewhen (b : bool) (m : E S unit) : E S unit := if b then m else eret tt.
End ErrorMonad.

Declare Scope cache_scope.
Notation "'let?' x ':=' m 'in' k" := (ebind m (fun x => k))
  (at level 10, x name, m at level 100, k at level 200,
   format "'[v' 'let?'  x  ':='  m  'in' '//' k ']'") : cache_scope.
Notation "'do?' m 'in' k" := (ebind m (fun _ => k))
  (at level 10, m at level 100, k at level 200,
   format "'[v' 'do?'  m  'in' '//' k ']'") : cache_scope.
Open Scope cache_scope.

(** ** The cache *)

Record cache_cfg := CacheCfg {
  cc_tags : tags_cfg;
  mostly_excl : bool;                 (* clusivity *)
  isReadOnly : bool;
  writebackClean : bool;
  write_allocate : bool               (* no write allocator, or it allocates *)
}.

(** [c_writebacks] is the list that [recvAtomic] hands to its callees. *)
Record cache (B R H : Type) := MkCache {
  c_tags : table cache_blk R;
  tempBlock : cache_blk; temp_addr : Z;
  tempBlockWriteback : option pkt;
  c_writebacks : list pkt;
  c_hooks : H;
  c_below : B
}.
Arguments MkCache {B R H}.
Arguments c_tags {B R H}.
Arguments tempBlock {B R H}.
Arguments temp_addr {B R H}.
Arguments tempBlockWriteback {B R H}.
Arguments c_writebacks {B R H}.
Arguments c_hooks {B R H}.
Arguments c_below {B R H}.

(** A [CacheBlk*]: a block of the tag store, or the temporary block. *)
Inductive bref := InTags (i : nat) | Temp.

#[global] Instance bref_eq_dec : EqDecision bref.
Proof. solve_decision. Defined.

Section Cache.
Context {B R H : Type} {D : Device B} {RP : ReplacementPolicy R} {CH : CacheHooks H}.
Context (cfg : cache_cfg) (now : Z).
Abbreviation st := (cache B R H).
Abbreviation g := (cc_tags cfg).
Abbreviation blk_size := (blkSize (cc_tags cfg)).
Implicit Types (c : st) (p : pkt) (r : bref) (bl : option bref).

Definition with_tags (t : table cache_blk R) c : st :=
  MkCache t (tempBlock c) (temp_addr c) (tempBlockWriteback c) (c_writebacks c) (c_hooks c) (c_below c).
Definition with_temp (b : cache_blk) (a : Z) c : st :=
  MkCache (c_tags c) b a (tempBlockWriteback c) (c_writebacks c) (c_hooks c) (c_below c).
Definition with_tempwb (o : option pkt) c : st :=
  MkCache (c_tags c) (tempBlock c) (temp_addr c) o (c_writebacks c) (c_hooks c) (c_below c).
Definition with_writebacks (l : list pkt) c : st :=
  MkCache (c_tags c) (tempBlock c) (temp_addr c) (tempBlockWriteback c) l (c_hooks c) (c_below c).
Definition with_hooks (h : H) c : st :=
  MkCache (c_tags c) (tempBlock c) (temp_addr c) (tempBlockWriteback c) (c_writebacks c) h (c_below c).
Definition with_below (b : B) c : st :=
  MkCache (c_tags c) (tempBlock c) (temp_addr c) (tempBlockWriteback c) (c_writebacks c) (c_hooks c) b.

Definition get_blk r c : option cache_blk :=
  match r with InTags i => entry_at (c_tags c) i | Temp => Some (tempBlock c) end.

Definition upd_blk r (f : cache_blk -> cache_blk) c : st :=
  match r with
  | InTags i => with_tags (on_entry i f (c_tags c)) c
  | Temp => with_temp (f (tempBlock c)) (temp_addr c) c
  end.

(** The block behind a pointer; a pointer always points to one. *)
Definition deref r : E st cache_blk := fun c => match get_blk r c with Some b => Some (b, c) | None => None end.

(** [blk->setCoherenceBits(bits)] with its assertion. *)
Definition set_bits r (bits : Z) : E st unit :=
  let? b := deref r in
  do? eassert (blk_valid b) in
  emodify (upd_blk r (setCoherenceBits bits)).

Definition clear_bits r (bits : Z) : E st unit := emodify (upd_blk r (clearCoherenceBits bits)).

(** [BaseCache::regenerateBlkAddr] *)
Definition blk_addr r : E st Z :=
  let? b := deref r in
  let? c := eget in
  eret (match r with InTags i => regenerateBlkAddr g i b | Temp => temp_addr c end).

(** [updateBlockData(blk, cpkt, ...)], without the probes. *)
Definition updateBlockData r p : E st unit :=
  emodify (upd_blk r (fun b => set_data (writeDataToBlock blk_size p (blk_data b)) b)).

(** [BaseCache::invalidateBlock] *)
Definition invalidateBlock r : E st unit :=
  match r with
  | InTags i =>
      let? c := eget in
      let? t := elift (tags_invalidate g i (c_tags c)) in
      emodify (with_tags t)
  | Temp => emodify (fun c => with_temp (blk_invalidate (tempBlock c)) MaxAddr c)
  end.

(** [BaseCache::writebackBlk] *)
Definition writebackBlk r : E st pkt :=
  let? b := deref r in
  do? eassert (negb (isReadOnly cfg) || writebackClean cfg) in
  do? eassert (blk_valid b && (isSet DirtyBit b || writebackClean cfg)) in
  let? a := blk_addr r in
  let cmd := if isSet DirtyBit b then WritebackDirty else WritebackClean in
  do? ewhen (isSet WritableBit b) (clear_bits r WritableBit) in
  do? clear_bits r DirtyBit in
  let? c := eget in
  let d := corruptWriteback now a (take (Z.to_nat blk_size) (blk_data b)) (c_hooks c) in
  do? emodify (with_hooks d.2) in
  eret (Pkt cmd a blk_size (blk_secure b) d.1 (negb (isSet WritableBit b)) false).

(** [Cache::cleanEvictBlk] *)
Definition cleanEvictBlk r : E st pkt :=
  do? eassert (negb (writebackClean cfg)) in
  let? b := deref r in
  do? eassert (blk_valid b && negb (isSet DirtyBit b)) in
  let? a := blk_addr r in
  eret (Pkt CleanEvict a blk_size (blk_secure b) [] false false).

(** [Cache::evictBlock] *)
Definition evictBlock r : E st pkt :=
  let? b := deref r in
  let? p := (if isSet DirtyBit b || writebackClean cfg then writebackBlk r else cleanEvictBlk r) in
  do? invalidateBlock r in
  eret p.

(** [handleEvictions] on the one victim of a set-associative store. *)
Definition handleEvictions (i : nat) : E st unit :=
  let? b := deref (InTags i) in
  if blk_valid b then
    let? p := evictBlock (InTags i) in
    emodify (fun c => with_writebacks (c_writebacks c ++ [p]) c)
  else eret tt.

(** [BaseCache::allocateBlock] *)
Definition allocateBlock p : E st (option bref) :=
  let? c := eget in
  match findVictim g (p_key p) (c_tags c) with
  | None => eret None
  | Some i =>
      do? handleEvictions i in
      let? c := eget in
      let? t := elift (insertBlock g now (p_key p) i (c_tags c)) in
      do? emodify (with_tags t) in
      eret (Some (InTags i))
  end.

(** The block [handleFill] works on: the given one, a new one, or the temporary one. *)
Definition fill_target p bl (allocate : bool) : E st bref :=
  match bl with
  | Some r => eret r
  | None =>
      let? o := (if allocate then allocateBlock p else eret None) in
      match o with
      | Some r => eret r
      | None =>
          let? b := deref Temp in
          do? eassert (negb (blk_valid b)) in
          do? emodify (fun c => with_temp (blk_insert g (p_key p) (tempBlock c)) (p_addr p) c) in
          eret Temp
      end
  end.

(** [BaseCache::handleFill] *)
Definition handleFill p bl (allocate : bool) : E st bref :=
  do? eassert (testCmdAttrib IsResponse p) in
  do? eassert (p_addr p =? getBlockAddr blk_size p) in
  do? (match bl with
       | Some _ => eret tt
       | None => eassert (testCmdAttrib HasData p || bool_decide (p_cmd p = InvalidateResp))
       end) in
  let? r := fill_target p bl allocate in
  let? b := deref r in
  let? a := blk_addr r in
  do? eassert (blk_valid b) in
  do? eassert (Bool.eqb (blk_secure b) (p_secure p)) in
  do? eassert (a =? p_addr p) in
  do? set_bits r ReadableBit in
  do? eassert (negb (bool_decide (p_cmd p = InvalidateResp)) || negb (hasSharers p)) in
  do? ewhen (negb (hasSharers p))
        (do? set_bits r WritableBit in
         ewhen (cacheResponding p) (do? set_bits r DirtyBit in eassert (negb (isReadOnly cfg)))) in
  do? ewhen (testCmdAttrib IsRead p)
        (do? eassert (testCmdAttrib HasData p) in
         do? eassert (p_size p =? blk_size) in
         updateBlockData r p) in
  eret r.

(** [BaseCache::satisfyRequest] *)
Definition base_satisfyRequest p r : E st pkt :=
  do? eassert (testCmdAttrib IsRequest p) in
  let? b := deref r in
  do? eassert (blk_valid b) in
  do? eassert (getOffset blk_size p + p_size p <=? blk_size) in
  if testCmdAttrib IsWrite p then
    do? eassert (isSet WritableBit b) in
    do? updateBlockData r p in
    do? set_bits r DirtyBit in
    eret p
  else if testCmdAttrib IsRead p then eret (setDataFromBlock blk_size (blk_data b) p)
  else if testCmdAttrib IsUpgrade p then
    do? eassert (negb (hasSharers p)) in
    if isSet DirtyBit b then
      let? p' := elift (setCacheResponding p) in
      do? clear_bits r DirtyBit in
      eret p'
    else eret p
  else
    do? eassert (testCmdAttrib IsInvalidate p) in
    do? invalidateBlock r in
    eret p.

(** [Cache::satisfyRequest], neither deferred nor with a pending downgrade. *)
Definition satisfyRequest p r : E st pkt :=
  let? p := base_satisfyRequest p r in
  if testCmdAttrib IsRead p && testCmdAttrib FromCache p then
    do? eassert (p_size p =? blk_size) in
    let? b := deref r in
    if testCmdAttrib NeedsWritable p then
      do? eassert (bool_decide (p_cmd p = ReadExReq)) in
      do? eassert (negb (hasSharers p)) in
      if isSet DirtyBit b then
        let? p' := elift (setCacheResponding p) in
        do? clear_bits r DirtyBit in
        eret p'
      else eret p
    else if isSet WritableBit b && negb (hasSharers p) && negb (bool_decide (p_cmd p = ReadCleanReq)) then
      if isSet DirtyBit b then
        let? p' := elift (setCacheResponding p) in
        do? clear_bits r DirtyBit in
        eret p'
      else eret p
    else eret (setHasSharers p)
  else eret p.

(** [BaseCache::maintainClusivity] *)
Definition maintainClusivity (from_cache : bool) bl : E st unit :=
  match bl with
  | Some r =>
      let? b := deref r in
      ewhen (from_cache && blk_valid b && negb (isSet DirtyBit b) && mostly_excl cfg) (invalidateBlock r)
  | None => eret tt
  end.

(** A writeback from above: [BaseCache::access], the case [isWriteback]. *)
Definition access_writeback p bl : E st (bool * option bref) :=
  do? eassert (blk_size =? p_size p) in
  let? o := (match bl with
             | Some r => eret (Some r)
             | None =>
                 let? o := allocateBlock p in
                 match o with
                 | Some r => do? set_bits r ReadableBit in eret (Some r)
                 | None => eret None
                 end
             end) in
  match o with
  | None => eret (false, None)
  | Some r =>
      do? ewhen (bool_decide (p_cmd p = WritebackDirty)) (set_bits r DirtyBit) in
      do? ewhen (negb (hasSharers p)) (set_bits r WritableBit) in
      do? eassert (negb (testCmdAttrib NeedsResponse p)) in
      do? updateBlockData r p in
      eret (true, Some r)
  end.

(** [BaseCache::access]: whether the request is satisfied, the block, and the packet. *)
Definition base_access p : E st (bool * option bref * pkt) :=
  do? eassert (testCmdAttrib IsRequest p) in
  do? eassert (negb (isReadOnly cfg && testCmdAttrib IsWrite p)) in
  let? c := eget in
  let f := accessBlock g (c_hooks c) now (p_key p) (c_tags c) in
  do? emodify (with_tags f.2) in
  let bl := InTags <$> f.1 in
  if isWriteback p then
    let? x := access_writeback p bl in
    eret (x.1, x.2, p)
  else if bool_decide (p_cmd p = CleanEvict) then eret (bool_decide (is_Some bl), bl, p)
  else
    let? hit := (match bl with
                 | Some r =>
                     let? b := deref r in
                     eret (isSet (if testCmdAttrib NeedsWritable p then WritableBit else ReadableBit) b)
                 | None => eret false
                 end) in
    match bl with
    | Some r =>
        if hit then
          let? p' := satisfyRequest p r in
          do? maintainClusivity (testCmdAttrib FromCache p') bl in
          eret (true, bl, p')
        else eret (false, bl, p)
    | None => eret (false, bl, p)
    end.

(** [isCachedAbove]: what a snoop into this cache and those above it answers. *)
Definition snoop_above (above : key -> bool) c : key -> bool :=
  fun k => above k || match findBlock g (c_hooks c) k (c_tags c) with
                      | Some i => valid_at (c_tags c) i
                      | None => false
                      end.

(** [memSidePort.sendAtomic(pkt)] *)
Definition sendAtomic (above : key -> bool) p : E st pkt :=
  let? c := eget in
  let? r := elift (recvAtomic now (snoop_above above c) p (c_below c)) in
  do? emodify (with_below r.2) in
  eret r.1.

(** [Cache::doWritebacksAtomic]; the writebacks of the list. *)
Fixpoint doWritebacks (above : key -> bool) (l : list pkt) : E st unit :=
  match l with
  | [] => eret tt
  | wb :: l' =>
      do? (if above (p_key wb)
           then if bool_decide (p_cmd wb = WritebackDirty) then do? sendAtomic above wb in eret tt else eret tt
           else do? sendAtomic above wb in eret tt) in
      doWritebacks above l'
  end.

Definition doWritebacksAtomic (above : key -> bool) : E st unit :=
  let? c := eget in
  do? emodify (with_writebacks []) in
  doWritebacks above (c_writebacks c).

(** [Cache::createMissPacket]; [None] forwards the packet as it is. *)
Definition createMissPacket p bl : E st (option pkt) :=
  do? eassert (negb (testCmdAttrib IsEviction p)) in
  let? ob := (match bl with Some r => let? b := deref r in eret (Some b) | None => eret None end) in
  let blkValid := match ob with Some b => blk_valid b | None => false end in
  let writable := match ob with Some b => isSet WritableBit b | None => false end in
  let whole := isWholeLineWrite blk_size p in
  if (negb blkValid && testCmdAttrib IsUpgrade p) || bool_decide (p_cmd p = InvalidateReq) then eret None
  else
    do? eassert (testCmdAttrib NeedsResponse p) in
    do? eassert (negb (bool_decide (p_cmd p = WriteLineReq)) || whole) in
    let? cmd :=
      (if whole then do? eassert (negb blkValid || negb writable) in eret InvalidateReq
       else if blkValid then
         do? eassert (testCmdAttrib NeedsWritable p) in
         do? eassert (negb writable) in
         eret UpgradeReq
       else if testCmdAttrib NeedsWritable p then eret ReadExReq
       else eret (if isReadOnly cfg || mostly_excl cfg then ReadCleanReq else ReadSharedReq)) in
    eret (Some (Pkt cmd (getBlockAddr blk_size p) blk_size (p_secure p) []
                  (hasSharers p && negb (testCmdAttrib NeedsWritable p)) false)).

Definition allocOnFill (cmd : MemCmd) : bool :=
  negb (mostly_excl cfg) || bool_decide (cmd = WriteLineReq) || bool_decide (cmd = ReadReq) ||
  bool_decide (cmd = WriteReq).

(** The response to a miss packet of this cache: fill and serve the request. *)
Definition miss_response p bl (bus : pkt) : E st (option bref * pkt * bool) :=
  do? eassert (testCmdAttrib IsResponse bus) in
  if isWholeLineWrite blk_size p then
    let? r := handleFill bus bl (allocOnFill (p_cmd p) && write_allocate cfg) in
    let? p' := satisfyRequest p r in
    eret (Some r, p', false)
  else if testCmdAttrib IsRead bus || bool_decide (p_cmd bus = UpgradeResp) then
    let? r := handleFill bus bl (allocOnFill (p_cmd p)) in
    let? p' := satisfyRequest p r in
    do? maintainClusivity (testCmdAttrib FromCache p') (Some r) in
    eret (Some r, p', testCmdAttrib IsInvalidate bus)
  else
    let? p' := elift (makeResponse p) in
    eret (bl, p', testCmdAttrib IsInvalidate bus).

(** [Cache::handleAtomicReqMiss] *)
Definition handleAtomicReqMiss (above : key -> bool) p bl : E st (option bref * pkt) :=
  if testCmdAttrib IsEviction p then
    let? p' := sendAtomic above p in
    eret (bl, p')
  else
    let? o := createMissPacket p bl in
    let? x := (match o with
               | None => let? p' := sendAtomic above p in eret (bl, p', testCmdAttrib IsInvalidate p')
               | Some bus => let? bus' := sendAtomic above bus in miss_response p bl bus'
               end) in
    let '(bl', p', is_invalidate) := x in
    do? (if is_invalidate then
           match bl' with
           | Some r => let? b := deref r in ewhen (blk_valid b) (invalidateBlock r)
           | None => eret tt
           end
         else eret tt) in
    eret (bl', p').

(** [writebackTempBlockAtomic] *)
Definition writebackTempBlockAtomic (above : key -> bool) : E st unit :=
  let? c := eget in
  match tempBlockWriteback c with
  | None => eassert false
  | Some wb => do? doWritebacks above [wb] in emodify (with_tempwb None)
  end.

(** The end of [BaseCache::recvAtomic]: a temporary block that is still valid is written back
    later. *)
Definition retire_temp (above : key -> bool) bl : E st unit :=
  let? b := deref Temp in
  ewhen (bool_decide (bl = Some Temp) && blk_valid b)
    (let? c := eget in
     do? ewhen (bool_decide (is_Some (tempBlockWriteback c))) (writebackTempBlockAtomic above) in
     let? p := evictBlock Temp in
     emodify (with_tempwb (Some p))).

(** [BaseCache::recvAtomic] *)
Definition base_recvAtomic (above : key -> bool) p : E st pkt :=
  let? x := base_access p in
  let '(satisfied, bl, p1) := x in
  do? doWritebacksAtomic above in
  let? y := (if satisfied then eret (bl, p1) else handleAtomicReqMiss above p1 bl) in
  let '(bl', p2) := y in
  do? doWritebacksAtomic above in
  do? retire_temp above bl' in
  if testCmdAttrib NeedsResponse p2 then elift (makeResponse p2) else eret p2.

(** [promoteWholeLineWrites] *)
Definition promoteWholeLineWrites p : pkt :=
  if bool_decide (p_cmd p = WriteReq) && (p_size p =? blk_size) && (getOffset blk_size p =? 0)
  then with_cmd WriteLineReq p else p.

(** [Cache::recvAtomic] *)
Definition cache_recvAtomic (above : key -> bool) p : E st pkt :=
  let p := promoteWholeLineWrites p in
  if cacheResponding p then
    do? eassert (testCmdAttrib NeedsWritable p) in
    sendAtomic above p
  else base_recvAtomic above p.

(** The event [writebackTempBlockAtomicEvent]. *)
Definition fire_temp_writeback (above : key -> bool) : E st unit :=
  let? c := eget in
  ewhen (bool_decide (is_Some (tempBlockWriteback c))) (writebackTempBlockAtomic above).

(** An empty cache. *)
Definition mk_cache (h : H) (b : B) : st :=
  MkCache (tagsInit g) (CacheBlk false false MaxAddr 0 (replicate (Z.to_nat blk_size) 0)) MaxAddr None [] h b.
End Cache.

(** A cache is a device. *)
Definition cache_device {B R H : Type} {D : Device B} {RP : ReplacementPolicy R} {CH : CacheHooks H}
    (cfg : cache_cfg) : Device (cache B R H) :=
  fun now above p c => cache_recvAtomic cfg now above p c.
