(* ===== verification/DeviceSpec.v ===== *)
(** * What a memory device promises

    The promise of a device to the cache above it ([DeviceOk]) and that the memory keeps it.
    The device represents a memory of lines, except at the lines that the cache above holds
    modified.  With it the rules to run handlers that may fail ([wp]: the handler does not
    fail and ends in a result and a state that satisfy a predicate), and the coherence bits
    of a block as flags. *)

From Stdlib Require Import ZArith Lia QArith.
From stdpp Require Import base sets numbers list strings.
From S2P Require Import Prelude Word Memory AssocCache TagStore Cache.

Open Scope Z_scope.

(** ** The promise of a device *)

Definition add (O : Z -> Prop) (a : Z) : Z -> Prop := fun x => O x \/ x = a.
Definition del (O : Z -> Prop) (a : Z) : Z -> Prop := fun x => O x /\ x <> a.

Section Contract.
Context (blk : Z) (w : bool) (dom : Z -> Prop).

(** A packet of a cache for the line at [a]. *)
Record line_req (p : pkt) (a : Z) : Prop := LineReq {
  lr_addr : p_addr p = a; lr_size : p_size p = blk; lr_secure : p_secure p = w;
  lr_flag : cacheResponding p = false
}.

(** [p'] is a response to [p]. *)
Record response (p p' : pkt) : Prop := Response {
  rs_cmd : (commandInfo (p_cmd p)).2 = Some (p_cmd p');
  rs_addr : p_addr p' = p_addr p; rs_size : p_size p' = p_size p; rs_secure : p_secure p' = p_secure p
}.

Definition read_cmd (c : MemCmd) : Prop := c = ReadSharedReq \/ c = ReadCleanReq \/ c = ReadExReq.

(** [Rep b m O]: the device in state [b] represents the lines [m], except for the lines [O],
    of which the cache above has the only current copy. *)
Class DeviceOk (B : Type) {D : Device B} := {
  Rep : B -> (Z -> list Z) -> (Z -> Prop) -> Prop;
  rep_len : forall b m O a, Rep b m O -> dom a -> ~ O a -> length (m a) = Z.to_nat blk;
  rep_forget : forall b m O a, Rep b m O -> Rep b m (add O a);
  rep_read : forall now above p b m O a,
    Rep b m O -> dom a -> ~ O a -> line_req p a -> hasSharers p = false -> read_cmd (p_cmd p) ->
    exists p' b', recvAtomic now above p b = Some (p', b') /\ response p p' /\ p_data p' = m a /\
      (p_cmd p = ReadExReq -> hasSharers p' = false) /\
      (p_cmd p = ReadCleanReq -> cacheResponding p' = false) /\
      (cacheResponding p' = true -> hasSharers p' = false) /\
      Rep b' m (if cacheResponding p' then add O a else O);
  rep_upgrade : forall now above p b m O a,
    Rep b m O -> dom a -> ~ O a -> line_req p a -> hasSharers p = false -> p_cmd p = UpgradeReq ->
    exists p' b', recvAtomic now above p b = Some (p', b') /\ response p p' /\ hasSharers p' = false /\
      Rep b' m (if cacheResponding p' then add O a else O);
  rep_invalidate : forall now above p b m O a,
    Rep b m O -> dom a -> ~ O a -> line_req p a -> hasSharers p = false -> p_cmd p = InvalidateReq ->
    exists p' b', recvAtomic now above p b = Some (p', b') /\ response p p' /\
      hasSharers p' = false /\ cacheResponding p' = false /\ Rep b' m (add O a);
  rep_writeback : forall now above p b m O a,
    Rep b m O -> dom a -> line_req p a -> hasSharers p = false -> p_cmd p = WritebackDirty ->
    length (p_data p) = Z.to_nat blk ->
    exists p' b', recvAtomic now above p b = Some (p', b') /\ Rep b' (fupd m a (p_data p)) (del O a);
  rep_clean : forall now above p b m O a,
    Rep b m O -> dom a -> line_req p a -> p_cmd p = WritebackClean -> length (p_data p) = Z.to_nat blk ->
    O a \/ p_data p = m a ->
    exists p' b', recvAtomic now above p b = Some (p', b') /\ Rep b' m O;
  rep_evict : forall now above p b m O a,
    Rep b m O -> dom a -> line_req p a -> p_cmd p = CleanEvict ->
    exists p' b', recvAtomic now above p b = Some (p', b') /\ testCmdAttrib NeedsResponse p' = false /\ Rep b' m O
}.
End Contract.

Arguments rep_len {blk w dom B D _}.
Arguments rep_forget {blk w dom B D _}.
Arguments rep_read {blk w dom B D _}.
Arguments rep_upgrade {blk w dom B D _}.
Arguments rep_invalidate {blk w dom B D _}.
Arguments rep_writeback {blk w dom B D _}.
Arguments rep_clean {blk w dom B D _}.
Arguments rep_evict {blk w dom B D _}.

(** ** Running a handler *)

(** [m] does not fail from [c] and ends in a state and with a result that satisfy [Q]. *)
Definition wp {S A} (m : E S A) (c : S) (Q : A -> S -> Prop) : Prop :=
  match m c with Some (x, c') => Q x c' | None => False end.

Section Wp.
Context {S : Type}.
Implicit Types (c : S).

Lemma wp_bind {A A'} (m : E S A) (k : A -> E S A') c Q :
  wp m c (fun x c' => wp (k x) c' Q) -> wp (ebind m k) c Q.
Proof. unfold wp, ebind. by destruct (m c) as [[x c']|]. Qed.

Lemma wp_ret {A} (x : A) c (Q : A -> S -> Prop) : Q x c -> wp (eret x) c Q.
Proof. done. Qed.

Lemma wp_assert b c (Q : unit -> S -> Prop) : b = true -> Q tt c -> wp (eassert b) c Q.
Proof. by intros ->. Qed.

Lemma wp_get c (Q : S -> S -> Prop) : Q c c -> wp eget c Q.
Proof. done. Qed.

Lemma wp_modify f c (Q : unit -> S -> Prop) : Q tt (f c) -> wp (emodify f) c Q.
Proof. done. Qed.

Lemma wp_lift {A} (o : option A) x c (Q : A -> S -> Prop) : o = Some x -> Q x c -> wp (elift o) c Q.
Proof. by intros ->. Qed.

Lemma wp_when b m c (Q : unit -> S -> Prop) :
  (b = true -> wp m c Q) -> (b = false -> Q tt c) -> wp (ewhen b m) c Q.
Proof. destruct b; [by intros H _; apply H|by intros _ H; apply H]. Qed.

Lemma wp_mono {A} (m : E S A) c (Q Q' : A -> S -> Prop) : (forall x c', Q x c' -> Q' x c') -> wp m c Q -> wp m c Q'.
Proof. unfold wp. destruct (m c) as [[x c']|]; auto. Qed.

Lemma wp_run {A} (m : E S A) c Q : wp m c Q -> exists x c', m c = Some (x, c') /\ Q x c'.
Proof. unfold wp. destruct (m c) as [[x c']|]; [|done]. by exists x, c'. Qed.
End Wp.

(** ** Commands *)

Definition attr (a : CmdAttr) (c : MemCmd) : bool := bool_decide (a ∈ (commandInfo c).1).

Lemma test_attr a p : testCmdAttrib a p = attr a (p_cmd p).
Proof. done. Qed.

(** Evaluates the tests of a packet with command [H : p_cmd p = c]. *)
Ltac attrs H :=
  repeat first
    [ progress rewrite ?test_attr
    | progress cbn [p_cmd with_data with_cmd setHasSharers]
    | rewrite H
    | match goal with
      | |- context [attr ?a ?c] => let v := eval vm_compute in (attr a c) in change (attr a c) with v
      | |- context [@bool_decide (?c = ?c') ?d] =>
          let v := eval vm_compute in (@bool_decide (c = c') d) in change (@bool_decide (c = c') d) with v
      end ];
  cbn [negb orb andb].

(** ** The memory keeps the promise *)

Section MemoryDevice.
Context (blk : Z) (w : bool) (dom : Z -> Prop) (lo hi : Z).
Context (blk_pos : 0 < blk) (dom_line : forall a, dom a -> a mod blk = 0 /\ lo <= a /\ a + blk <= hi).

Lemma lines_disjoint a a' x : dom a -> dom a' -> a <> a' -> a <= x < a + blk -> a' <= x < a' + blk -> False.
Proof.
  intros [Ha _]%dom_line [Ha' _]%dom_line Hne Hx Hx'.
  apply Z.div_exact in Ha, Ha'; try lia. set (q := a / blk) in *. set (q' := a' / blk) in *.
  destruct (Z.lt_trichotomy q q') as [?|[?|?]]; [assert (blk * (q + 1) <= blk * q') by nia; lia|congruence|].
  assert (blk * (q' + 1) <= blk * q) by nia. lia.
Qed.

Lemma load_store f a a' d :
  dom a -> dom a' -> length d = Z.to_nat blk ->
  load_bytes (store_bytes f a d) a' (Z.to_nat blk) = if decide (a' = a) then d else load_bytes f a' (Z.to_nat blk).
Proof.
  intros Ha Ha' Hd. apply list_eq. intros i. unfold load_bytes.
  destruct (decide (i < Z.to_nat blk)%nat) as [Hi|Hi].
  - rewrite list_lookup_fmap, lookup_seq_lt by done. cbn. unfold store_bytes. case_decide as Haa.
    + subst a'. replace (_ && _) with true by (symmetry; apply andb_true_iff; rewrite Z.leb_le, Z.ltb_lt; lia).
      replace (Z.to_nat _) with i by lia. symmetry. apply list_lookup_lookup_total_lt. lia.
    + rewrite list_lookup_fmap, lookup_seq_lt by done. cbn. destruct (_ && _) eqn:E; [|done].
      bools. exfalso. apply (lines_disjoint a a' (a' + Z.of_nat i)); try done; lia.
  - rewrite (lookup_ge_None_2 (map _ _)) by (rewrite length_map, length_seq; lia).
    symmetry. apply lookup_ge_None_2. case_decide; [lia|]. rewrite length_map, length_seq. lia.
Qed.

Definition mem_rep (m : memory) (M : Z -> list Z) (O : Z -> Prop) : Prop :=
  range_start m = lo /\ range_start m + range_size m = hi /\ writeable m = true /\
  forall a, dom a -> ~ O a -> M a = load_bytes (pmem m) a (Z.to_nat blk).

Lemma mem_in_range m M O a : mem_rep m M O -> dom a -> in_range m a (Z.to_nat blk) = true.
Proof.
  intros (E1 & E2 & _) (_ & ? & ?)%dom_line. unfold in_range. rewrite E1 in *.
  apply andb_true_iff. rewrite !Z.leb_le. lia.
Qed.

Lemma write_access_pmem m a d : writeable m = true ->
  exists m', (write_access m None false a d).2 = m' /\ pmem m' = store_bytes (pmem m) a d /\
    range_start m' = range_start m /\ range_size m' = range_size m /\ writeable m' = true.
Proof.
  intros Hw. unfold write_access, writeOK. rewrite Hw. cbn [negb]. eexists. split; [done|].
  by destruct (lockedAddrList m).
Qed.

#[local] Existing Instance memory_device.

Program Definition memory_ok : DeviceOk blk w dom memory := {| Rep := mem_rep |}.
Next Obligation.
  intros b m O a (_ & _ & _ & H) Ha Ho. rewrite H by done. unfold load_bytes. by rewrite length_map, length_seq.
Qed.
Next Obligation.
  intros b m O a (E1 & E2 & E3 & H). split_and!; try done. intros a' Ha' Hn. apply H; [done|].
  intros Ho. apply Hn. by left.
Qed.
Next Obligation.
  intros now above p b m O a Hr Ha Ho [L1 L2 L3 L4] Hs Hc. pose proof (mem_in_range b m O a Hr Ha) as Hin.
  destruct Hr as (E1 & E2 & E3 & H).
  unfold recvAtomic, memory_device. rewrite L4, L1, L2, Hin.
  destruct Hc as [Hc|[Hc|Hc]]; attrs Hc; unfold makeResponse; attrs Hc; cbn [commandInfo snd];
    (eexists _, _; split; [done|]; cbn [with_cmd with_data p_cmd p_addr p_size p_secure p_data hasSharers cacheResponding];
     split; [split; cbn; by rewrite ?Hc|]; rewrite L4; split_and!; try done; by rewrite H).
Qed.
Next Obligation.
  intros now above p b m O a Hr Ha Ho [L1 L2 L3 L4] Hs Hc. pose proof (mem_in_range b m O a Hr Ha) as Hin.
  unfold recvAtomic, memory_device. rewrite L4, L1, L2, Hin. attrs Hc. unfold makeResponse. attrs Hc. cbn [commandInfo snd].
  eexists _, _. split; [done|]. cbn. rewrite L4. split; [split; cbn; by rewrite ?Hc|]. done.
Qed.
Next Obligation.
  intros now above p b m O a Hr Ha Ho [L1 L2 L3 L4] Hs Hc. pose proof (mem_in_range b m O a Hr Ha) as Hin.
  unfold recvAtomic, memory_device. rewrite L4, L1, L2, Hin. attrs Hc. unfold makeResponse. attrs Hc. cbn [commandInfo snd].
  eexists _, _. split; [done|]. cbn. split; [split; cbn; by rewrite ?Hc|]. split_and!; try done.
  destruct Hr as (E1 & E2 & E3 & H). split_and!; try done. intros a' Ha' Hn. apply H; [done|].
  intros Ho'. apply Hn. by left.
Qed.
Next Obligation.
  intros now above p b m O a Hr Ha [L1 L2 L3 L4] Hs Hc Hd. pose proof (mem_in_range b m O a Hr Ha) as Hin.
  destruct Hr as (E1 & E2 & E3 & H).
  unfold recvAtomic, memory_device. rewrite L4, L1, L2, Hin. attrs Hc.
  eexists _, _. split; [done|]. rewrite take_ge by lia.
  destruct (write_access_pmem b a (p_data p) E3) as (m' & -> & F1 & F2 & F3 & F4).
  split; [by rewrite F2|]. split; [by rewrite F2, F3|]. split; [done|]. intros a' Ha' Hn.
  rewrite F1, load_store by done. unfold fupd. case_decide; [done|]. apply H; [done|]. intros Ho. apply Hn. by split.
Qed.
Next Obligation.
  intros now above p b m O a Hr Ha [L1 L2 L3 L4] Hc _ _. unfold recvAtomic, memory_device. rewrite L4. attrs Hc.
  by eexists _, _.
Qed.
Next Obligation.
  intros now above p b m O a Hr Ha [L1 L2 L3 L4] Hc. unfold recvAtomic, memory_device. rewrite L4. attrs Hc.
  eexists _, _. split; [done|]. by attrs Hc.
Qed.
End MemoryDevice.

(** ** Coherence bits *)

Definition flag (n : Z) (b : cache_blk) : bool := blk_valid b && Z.testbit (coherence b) n.

Lemma land_bit c n : 0 <= n -> negb (Z.land c (2 ^ n) =? 0) = Z.testbit c n.
Proof.
  intros Hn. destruct (Z.testbit c n) eqn:E.
  - apply negb_true_iff, Z.eqb_neq. intros E0. pose proof (f_equal (fun z => Z.testbit z n) E0) as E1. cbn beta in E1.
    by rewrite Z.land_spec, E, Z.pow2_bits_true, Z.bits_0 in E1.
  - apply negb_false_iff, Z.eqb_eq, Z.bits_inj'. intros k Hk. rewrite Z.land_spec, Z.bits_0.
    destruct (decide (k = n)) as [->|]; [by rewrite E|]. rewrite Z.pow2_bits_false by done. apply andb_false_r.
Qed.

Lemma isSet_W b : isSet WritableBit b = flag 1 b.
Proof. unfold isSet, flag. by rewrite <- (land_bit _ 1). Qed.
Lemma isSet_R b : isSet ReadableBit b = flag 2 b.
Proof. unfold isSet, flag. by rewrite <- (land_bit _ 2). Qed.
Lemma isSet_D b : isSet DirtyBit b = flag 3 b.
Proof. unfold isSet, flag. by rewrite <- (land_bit _ 3). Qed.

Lemma flag_set n k b : flag n (setCoherenceBits k b) = flag n b || (blk_valid b && Z.testbit k n).
Proof. unfold flag, setCoherenceBits. cbn. rewrite Z.lor_spec. by destruct (blk_valid b). Qed.
Lemma flag_clear n k b : 0 <= n -> flag n (clearCoherenceBits k b) = flag n b && negb (Z.testbit k n).
Proof. intros Hn. unfold flag, clearCoherenceBits. cbn. rewrite Z.ldiff_spec by done. by destruct (blk_valid b). Qed.
Lemma flag_data n d b : flag n (set_data d b) = flag n b.
Proof. done. Qed.

Lemma keeps_set k b : Z.ldiff k AllBits = 0 -> keeps b (setCoherenceBits k b).
Proof.
  intros Hk. split_and!; try done. unfold coh_ok, setCoherenceBits. cbn. intros Hc.
  apply Z.bits_inj'. intros n Hn. pose proof (f_equal (fun z => Z.testbit z n) Hk) as H1.
  pose proof (f_equal (fun z => Z.testbit z n) Hc) as H2. cbn beta in *.
  rewrite Z.ldiff_spec, Z.bits_0 in * by done. rewrite Z.lor_spec.
  by destruct (Z.testbit (coherence b) n), (Z.testbit k n), (Z.testbit AllBits n).
Qed.
Lemma keeps_clear k b : keeps b (clearCoherenceBits k b).
Proof.
  split_and!; try done. unfold coh_ok, clearCoherenceBits. cbn. intros Hc.
  apply Z.bits_inj'. intros n Hn. pose proof (f_equal (fun z => Z.testbit z n) Hc) as H2. cbn beta in *.
  rewrite !Z.ldiff_spec, Z.bits_0 in * by done.
  by destruct (Z.testbit (coherence b) n), (Z.testbit k n), (Z.testbit AllBits n).
Qed.
Lemma keeps_data d b : length d = length (blk_data b) -> keeps b (set_data d b).
Proof. by intros. Qed.

Create HintDb coh discriminated.
#[export] Hint Resolve keeps_clear keeps_data : coh.
#[export] Hint Extern 1 (keeps _ (setCoherenceBits _ _)) => apply keeps_set; reflexivity : coh.

(** Computes the flags of an updated block. *)
Ltac flags :=
  rewrite ?isSet_W, ?isSet_R, ?isSet_D in *;
  repeat first [rewrite flag_set in * | rewrite flag_clear in * by lia | rewrite flag_data in *];
  cbn [Z.testbit WritableBit ReadableBit DirtyBit] in *.

(** ** No writebacks to do *)

Lemma wp_no_writebacks {B R H} {D : Device B} {CH : CacheHooks H} cfg now above (c : cache B R H) Q :
  c_writebacks c = [] -> Q tt c -> wp (doWritebacksAtomic cfg now above) c Q.
Proof.
  intros E HQ. unfold doWritebacksAtomic. apply wp_bind, wp_get, wp_bind, wp_modify. rewrite E. apply wp_ret.
  by replace (with_writebacks [] c) with c by (destruct c; cbn in *; by subst).
Qed.
