(* ===== verification/CacheStack.v ===== *)
(** * A cache over a device is a device

    A cache over a device that keeps the promise of DeviceSpec.v keeps it too ([cache_ok]),
    so that caches can be stacked, and reads and writes of the processor act on the lines
    that the cache represents ([wp_cpu_read], [wp_cpu_write]).  The invariant [cinv] relates
    every line of the memory to the block that holds it and to the device below; [work] and
    [bare] are its forms while a request works on one line. *)

From Stdlib Require Import ZArith Lia QArith.
From stdpp Require Import base sets numbers list strings.
From S2P Require Import Prelude Word Memory AssocCache TagStore Cache DeviceSpec.

Open Scope Z_scope.

(** ** A cache *)

Section CacheDevice.
Context (blk : Z) (w : bool) (dom : Z -> Prop).
Context {B R H : Type} {D : Device B} {BOK : DeviceOk blk w dom B}.
Context {RP : ReplacementPolicy R} {RPO : ReplacementPolicyOk R} {CH : CacheHooks H} {IH : InertHooks H}.
Context (cfg : cache_cfg) (OK : tags_ok (cc_tags cfg)) (Hblk : blkSize (cc_tags cfg) = blk).
Context (dom_line : forall a, dom a -> line_addr (cc_tags cfg) a) (Hwa : write_allocate cfg = true).
Abbreviation g := (cc_tags cfg).
Abbreviation st := (cache B R H).
Implicit Types (c : st) (a : Z) (b : cache_blk) (p : pkt) (r : bref) (m M : Z -> list Z) (O : Z -> Prop).

Abbreviation c_line c a := (line g w (c_tags c) a).
Abbreviation c_find c a := (find g w (c_tags c) a).

(** What is known of the line at [a]: [M] and [O] are the lines this cache represents, [m]
    and [O2] those of the device below. *)
Definition line_ok M m O O2 a (ob : option cache_blk) : Prop :=
  match ob with
  | Some b =>
      isSet ReadableBit b = true /\ (isSet DirtyBit b = true -> isSet WritableBit b = true /\ isReadOnly cfg = false) /\
      (O a \/ (blk_data b = M a /\ (isSet DirtyBit b = true \/ (m a = M a /\ ~ O2 a))))
  | None => O a \/ (m a = M a /\ ~ O2 a)
  end.

(** A packet that waits in the list of writebacks. *)
Definition wb_ok M m O O2 c p : Prop :=
  dom (p_addr p) /\ line_req blk w p (p_addr p) /\ c_line c (p_addr p) = None /\
  ((p_cmd p = WritebackDirty /\ hasSharers p = false /\ length (p_data p) = Z.to_nat blk /\
    (O (p_addr p) \/ p_data p = M (p_addr p))) \/
   ((p_cmd p = WritebackClean /\ length (p_data p) = Z.to_nat blk /\
     (O (p_addr p) \/ p_data p = m (p_addr p)) \/ p_cmd p = CleanEvict) /\
    line_ok M m O O2 (p_addr p) None)).

Definition waiting c a : Prop := exists p, p ∈ c_writebacks c /\ p_cmd p = WritebackDirty /\ p_addr p = a.

Definition blk_ok b : Prop :=
  length (blk_data b) = Z.to_nat blk /\ coh_ok b /\ (blk_valid b = false -> blk_secure b = false /\ coherence b = 0).

(** The invariant, except for the line [X] that a request is working on. *)
Record cinv (X : Z -> Prop) M m O O2 c : Prop := CInv {
  ci_tags : tags_wf g w dom (c_tags c);
  ci_below : Rep blk w dom (c_below c) m O2;
  ci_temp : blk_ok (tempBlock c);
  ci_tempwb : tempBlockWriteback c = None;
  ci_one : (length (c_writebacks c) <= 1)%nat;
  ci_wbs : forall p, p ∈ c_writebacks c -> wb_ok M m O O2 c p;
  ci_lines : forall a, dom a -> ~ X a -> ~ waiting c a -> line_ok M m O O2 a (c_line c a)
}.

(** Between requests. *)
Definition crep c M O : Prop := exists m O2,
  cinv (fun _ => False) M m O O2 c /\ blk_valid (tempBlock c) = false /\ c_writebacks c = [].

(** The block a request works on. *)
Definition cur r a b c : Prop :=
  get_blk r c = Some b /\ blk_valid b = true /\ blk_secure b = w /\ blk_ok b /\
  match r with
  | InTags i => holds g w (c_tags c) i a b
  | Temp => temp_addr c = a /\ c_line c a = None
  end.

(** Everything outside the blocks. *)
Definition same_frame c c' : Prop :=
  c_below c' = c_below c /\ c_hooks c' = c_hooks c /\ tempBlockWriteback c' = tempBlockWriteback c /\
  c_writebacks c' = c_writebacks c.

Lemma blk_pos : 0 < blk.
Proof. rewrite <- Hblk, (to_blk g OK). pose proof (shifts g). lia. Qed.

Lemma cur_addr r a b c : dom a -> cur r a b c -> forall Q, Q a c -> wp (blk_addr cfg r) c Q.
Proof.
  intros Ha (Hg & _ & _ & _ & Hr) Q HQ. unfold wp, blk_addr, ebind, deref. rewrite Hg. cbn. destruct r as [i|].
  - by rewrite (holds_regenerate g OK w dom dom_line (c_tags c) i a b).
  - destruct Hr as [-> _]. done.
Qed.

Lemma cur_deref r a b c : cur r a b c -> forall Q, Q b c -> wp (deref r) c Q.
Proof. intros (Hg & _) Q HQ. unfold wp, deref. by rewrite Hg. Qed.

(** An update of the current block. *)
Lemma cur_upd X M m O O2 c r a b f :
  cinv X M m O O2 c -> X a -> dom a -> cur r a b c -> keeps b (f b) -> (forall x, x ∈ c_writebacks c -> p_addr x <> a) ->
  cinv X M m O O2 (upd_blk r f c) /\ cur r a (f b) (upd_blk r f c) /\ same_frame c (upd_blk r f c) /\
  tempBlock (upd_blk r f c) = match r with Temp => f b | InTags _ => tempBlock c end.
Proof.
  intros CI Xa Ha Hc K Hwb. pose proof K as (K1 & K2 & K3 & K4 & K5).
  destruct Hc as (Hg & Hv & Hw & (Hb1 & Hb2 & Hb3) & Hr).
  assert (blk_ok (f b)) as Hfb by (split; [by rewrite K4|]; split; [by apply K5|]; by rewrite K1, Hv).
  destruct r as [i|]; cbn [upd_blk get_blk] in *.
  - pose proof (on_entry_change (c_tags c) i f b Hg) as Hone.
    destruct (update_spec g OK w dom dom_line _ a i b (f b) _ (ci_tags _ _ _ _ _ _ CI) Ha Hr K Hone) as (W & Hf & Hl & Hot).
    split; [|split; [|done]].
    + split; cbn; try apply CI; try done.
      * intros p Hp. destruct (ci_wbs _ _ _ _ _ _ CI p Hp) as (P1 & P2 & P3 & P4).
        split; [done|]. split; [done|]. split; [|done]. cbn. rewrite (proj2 (Hot _ P1 (Hwb p Hp))). done.
      * intros a' Ha' Hx Hwt. rewrite (proj2 (Hot a' Ha' ltac:(congruence))). by apply CI.
    + split; [cbn; rewrite entry_at_on_entry, decide_True, Hg; done|]. rewrite K1, K2. split_and!; try done.
      destruct (find_holds g OK w _ _ _ Hf) as [b' Hb']. cbn.
      assert (b' = f b) as ->; [|done]. destruct Hb' as (He & _). rewrite entry_at_on_entry, decide_True, Hg in He by done.
      by injection He.
  - injection Hg as <-. destruct Hr as [Hta Hln].
    split; [|split; [|done]].
    + split; try apply CI; done.
    + split; [done|]. rewrite K1, K2. split_and!; try done.
Qed.

Lemma waiting_off c a a' : (forall x, x ∈ c_writebacks c -> p_addr x <> a) -> waiting c a' -> a' <> a.
Proof. intros Hw (p & Hp & _ & <-). by apply Hw. Qed.

(** A request works on block [r] for the line at [a]. *)
Record work M m O O2 a r b c : Prop := Work {
  wk_inv : cinv (eq a) M m O O2 c;
  wk_dom : dom a;
  wk_cur : cur r a b c;
  wk_wbs : forall x, x ∈ c_writebacks c -> p_addr x <> a;
  wk_temp : r <> Temp -> blk_valid (tempBlock c) = false
}.

(** ... or on the line at [a] without a block. *)
Record bare M m O O2 a c : Prop := Bare {
  br_inv : cinv (eq a) M m O O2 c;
  br_dom : dom a;
  br_line : c_line c a = None;
  br_wbs : forall x, x ∈ c_writebacks c -> p_addr x <> a;
  br_temp : blk_valid (tempBlock c) = false
}.

Lemma work_upd M m O O2 a r b c f Q :
  work M m O O2 a r b c -> keeps b (f b) ->
  (forall c', work M m O O2 a r (f b) c' -> c_writebacks c' = c_writebacks c -> Q tt c') ->
  wp (emodify (upd_blk r f)) c Q.
Proof.
  intros [CI Ha Hc Hw Ht] K HQ. apply wp_modify.
  destruct (cur_upd (eq a) M m O O2 c r a b f CI eq_refl Ha Hc K Hw) as (CI' & Hc' & (F1 & F2 & F3 & F4) & Ft).
  apply HQ; [|done]. split; try done; [by rewrite F4|]. intros Hr. rewrite Ft. destruct r; [by apply Ht|done].
Qed.

Lemma wp_set_bits M m O O2 a r b c k Q :
  work M m O O2 a r b c -> Z.ldiff k AllBits = 0 ->
  (forall c', work M m O O2 a r (setCoherenceBits k b) c' -> c_writebacks c' = c_writebacks c -> Q tt c') ->
  wp (set_bits r k) c Q.
Proof.
  intros W Hk HQ. unfold set_bits. apply wp_bind, (cur_deref r a b); [apply W|].
  apply wp_bind, wp_assert; [by apply (wk_cur _ _ _ _ _ _ _ _ W)|]. eapply work_upd; eauto using keeps_set.
Qed.

Lemma wp_clear_bits M m O O2 a r b c k Q :
  work M m O O2 a r b c ->
  (forall c', work M m O O2 a r (clearCoherenceBits k b) c' -> c_writebacks c' = c_writebacks c -> Q tt c') ->
  wp (clear_bits r k) c Q.
Proof. intros W HQ. eapply work_upd; eauto using keeps_clear. Qed.

(** What the request may change at its own line. *)
Lemma cinv_off M m O O2 a c M' m' O' O2' (b' : B) :
  cinv (eq a) M m O O2 c -> (forall x, x ∈ c_writebacks c -> p_addr x <> a) ->
  Rep blk w dom b' m' O2' ->
  (forall x, x <> a -> M' x = M x /\ m' x = m x /\ (O' x <-> O x) /\ (O2' x <-> O2 x)) ->
  cinv (eq a) M' m' O' O2' (with_below b' c).
Proof.
  intros CI Hw Hr Hoff. split; cbn; try apply CI; try done.
  - intros p Hp. destruct (ci_wbs _ _ _ _ _ _ CI p Hp) as (P1 & P2 & P3 & P4).
    destruct (Hoff (p_addr p) (Hw p Hp)) as (E1 & E2 & E3 & E4). unfold wb_ok, line_ok in *. cbn.
    by rewrite E1, E2, E3, E4.
  - intros x Hx Hne Hwt. destruct (Hoff x ltac:(congruence)) as (E1 & E2 & E3 & E4).
    pose proof (ci_lines _ _ _ _ _ _ CI x Hx Hne Hwt) as L. unfold line_ok in *. cbn.
    destruct (line g w (c_tags c) x); by rewrite E1, E2, E3, E4.
Qed.

Lemma cinv_start M m O O2 a c :
  cinv (fun _ => False) M m O O2 c -> cinv (eq a) M m O O2 c.
Proof. intros CI. split; try apply CI. intros x Hx _ Hw. apply CI; auto. Qed.

Lemma cinv_end M m O O2 a c :
  cinv (eq a) M m O O2 c -> line_ok M m O O2 a (c_line c a) -> cinv (fun _ => False) M m O O2 c.
Proof.
  intros CI L. split; try apply CI. intros x Hx _ Hw. destruct (decide (a = x)) as [<-|]; [done|]. by apply CI.
Qed.

Lemma work_line M m O O2 a i b c : work M m O O2 a (InTags i) b c -> c_line c a = Some b.
Proof.
  intros [CI Ha (_ & _ & _ & _ & Hh) _ _]. apply (line_Some g OK w dom); [apply CI|done|].
  exists i. split; [|done]. apply (holds_find g OK w dom _ _ _ b); try done. apply CI.
Qed.

Lemma work_end M m O O2 a i b c :
  work M m O O2 a (InTags i) b c -> line_ok M m O O2 a (Some b) ->
  cinv (fun _ => False) M m O O2 c /\ blk_valid (tempBlock c) = false.
Proof.
  intros W L. split; [|by apply W]. apply (cinv_end _ _ _ _ a); [apply W|]. by rewrite (work_line _ _ _ _ _ _ _ _ W).
Qed.

Lemma bare_end M m O O2 a c :
  bare M m O O2 a c -> line_ok M m O O2 a None -> cinv (fun _ => False) M m O O2 c /\ blk_valid (tempBlock c) = false.
Proof. intros [CI Ha Hl Hw Ht] L. split; [|done]. apply (cinv_end _ _ _ _ a); [done|]. by rewrite Hl. Qed.

(** ** Dropping a block *)

(** What [invalidate] leaves. *)
Definition dropped b b' : Prop :=
  blk_valid b' = false /\ blk_secure b' = false /\ coherence b' = 0 /\ length (blk_data b') = length (blk_data b).

Lemma invalidate_dropped b b0 : coh_ok b -> length (blk_data b) = length (blk_data b0) -> dropped b0 (blk_invalidate b).
Proof. intros Hc Hl. by split_and!. Qed.

Lemma wp_invalidate_tags i b c Q :
  entry_at (c_tags c) i = Some b -> blk_valid b = true ->
  (forall t', one_change (c_tags c) t' i (blk_invalidate b) -> Q tt (with_tags t' c)) ->
  wp (invalidateBlock cfg (InTags i)) c Q.
Proof.
  intros He Hv HQ. unfold invalidateBlock. apply wp_bind, wp_get, wp_bind.
  unfold tags_invalidate, valid_at. rewrite He, Hv. apply (wp_lift _ _ _ _ eq_refl), wp_modify.
  apply HQ. apply change_on_repl. by apply on_entry_change.
Qed.

Lemma cinv_drop X M m O O2 c i a b b' t' :
  cinv X M m O O2 c -> dom a -> holds g w (c_tags c) i a b -> one_change (c_tags c) t' i b' -> dropped b b' ->
  (forall x, x ∈ c_writebacks c -> p_addr x <> a) ->
  cinv (fun x => X x \/ x = a) M m O O2 (with_tags t' c) /\ c_line (with_tags t' c) a = None /\
  (forall x, dom x -> x <> a -> c_line (with_tags t' c) x = c_line c x).
Proof.
  intros CI Ha Hh Hone (D1 & D2 & D3 & D4) Hwb.
  destruct (drop_spec g OK w dom dom_line _ a i b b' t' (ci_tags _ _ _ _ _ _ CI) Ha Hh Hone D1 D2 D3 D4) as (W & Hf & Hl & Hot).
  split; [|split; [done|]; intros x Hx Hne; by apply Hot]. split; cbn; try apply CI; try done.
  - intros p Hp. destruct (ci_wbs _ _ _ _ _ _ CI p Hp) as (P1 & P2 & P3 & P4).
    split; [done|]. split; [done|]. split; [|done]. cbn. rewrite (proj2 (Hot _ P1 (Hwb p Hp))). done.
  - intros x Hx Hn Hwt. rewrite (proj2 (Hot x Hx ltac:(tauto))). apply CI; try done. tauto.
Qed.

Lemma cinv_weaken (X Y : Z -> Prop) M m O O2 c :
  cinv X M m O O2 c -> (forall x, X x -> Y x) -> cinv Y M m O O2 c.
Proof. intros CI HX. split; try apply CI. intros x Hx Hn Hw. apply CI; auto. Qed.

Definition is_dropped r c : Prop := exists b, get_blk r c = Some b /\ blk_valid b = false.

Lemma wp_invalidate M m O O2 a r b c Q :
  work M m O O2 a r b c ->
  (forall c', bare M m O O2 a c' -> is_dropped r c' -> Q tt c') ->
  wp (invalidateBlock cfg r) c Q.
Proof.
  intros [CI Ha (Hg & Hv & Hs & (Hl & Hco & _) & Hr) Hw Ht] HQ. destruct r as [i|].
  - eapply wp_invalidate_tags; [done..|]. intros t' Hone. apply HQ; [|by exists (blk_invalidate b); split; [apply (change_entry _ _ _ _ Hone)|]].
    destruct (cinv_drop (eq a) M m O O2 c i a b (blk_invalidate b) t' CI Ha Hr Hone (invalidate_dropped b b Hco eq_refl) Hw)
      as (CI' & Hn & _).
    split; try done; [|by apply Ht]. apply (cinv_weaken _ _ _ _ _ _ _ CI'). by intros x [|].
  - unfold invalidateBlock. apply wp_modify, HQ; [|by eexists]. destruct Hr as [_ Hn]. injection Hg as <-.
    split; try done. split; try apply CI. split; [done|]. unfold coh_ok in *. cbn. by rewrite Hco.
Qed.

(** ** Eviction *)

Lemma take_data b : length (blk_data b) = Z.to_nat blk -> take (Z.to_nat (blkSize g)) (blk_data b) = blk_data b.
Proof. intros Hl. rewrite Hblk. apply take_ge. lia. Qed.

(** The packet that replaces an evicted block. *)
Definition evict_pkt a b : pkt :=
  if isSet DirtyBit b || writebackClean cfg
  then Pkt (if isSet DirtyBit b then WritebackDirty else WritebackClean) a blk w (blk_data b) (negb (isSet WritableBit b)) false
  else Pkt CleanEvict a blk w [] false false.

Lemma wp_deref_tags i b c Q : entry_at (c_tags c) i = Some b -> Q b c -> wp (deref (InTags i)) c Q.
Proof. intros He HQ. unfold wp, deref. cbn. by rewrite He. Qed.

Lemma wp_evict now i a b c Q :
  dom a -> holds g w (c_tags c) i a b -> blk_ok b -> (isSet DirtyBit b = true -> isReadOnly cfg = false) ->
  (forall t' b', one_change (c_tags c) t' i b' -> dropped b b' -> Q (evict_pkt a b) (with_tags t' c)) ->
  wp (evictBlock cfg now (InTags i)) c Q.
Proof.
  intros Ha Hh (Hl & Hco & _) Hro HQ. pose proof Hh as (He & Hv & Hs & _).
  pose proof (holds_regenerate g OK w dom dom_line _ _ _ _ Ha Hh) as Hreg.
  unfold evictBlock. apply wp_bind, (wp_deref_tags i b); [done|]. apply wp_bind. unfold evict_pkt in HQ.
  destruct (isSet DirtyBit b || writebackClean cfg) eqn:Ewb.
  - unfold writebackBlk. apply wp_bind, (wp_deref_tags i b); [done|].
    apply wp_bind, wp_assert.
    { destruct (isReadOnly cfg); [|done]. destruct (isSet DirtyBit b); [by specialize (Hro eq_refl)|done]. }
    apply wp_bind, wp_assert; [by rewrite Hv|].
    apply wp_bind. unfold blk_addr. apply wp_bind, (wp_deref_tags i b); [done|]. apply wp_bind, wp_get, wp_ret. rewrite Hreg.
    set (b1 := if isSet WritableBit b then clearCoherenceBits WritableBit b else b).
    apply wp_bind. apply (wp_mono _ _ (fun _ c' => exists t1, c' = with_tags t1 c /\ one_change (c_tags c) t1 i b1)).
    2:{ apply wp_when; intros E; unfold b1; rewrite E.
        - apply wp_modify. eexists. split; [done|]. by apply on_entry_change.
        - exists (c_tags c). split; [by destruct c|]. split; [done|]. split; [by apply entry_at_is_Some; exists b|].
          intros j. by case_decide; subst. }
    intros _ c' (t1 & -> & H1). apply wp_bind, wp_modify.
    pose proof (on_entry_change t1 i (clearCoherenceBits DirtyBit) b1 (change_entry _ _ _ _ H1)) as H2.
    apply wp_bind, wp_get. rewrite inert_writeback, take_data by done. cbn [fst snd].
    apply wp_bind, wp_modify, wp_ret, wp_bind. set (b2 := clearCoherenceBits DirtyBit b1) in *.
    assert (blk_valid b2 = true /\ coh_ok b2 /\ blk_data b2 = blk_data b) as (V2 & C2 & D2).
    { unfold b2, b1. destruct (isSet WritableBit b); split_and!; try done;
        repeat first [apply (proj2 (proj2 (proj2 (proj2 (keeps_clear _ _)))))]; done. }
    apply (wp_invalidate_tags i b2); [by apply (change_entry _ _ _ _ H2)|done|]. cbn. intros t' H3.
    apply wp_ret. rewrite Hblk, Hs.
    apply (HQ t' (blk_invalidate b2)); [|by apply invalidate_dropped; rewrite ?D2].
    by apply (change_trans _ _ _ _ _ _ (change_trans _ _ _ _ _ _ H1 H2)).
  - apply orb_false_iff in Ewb as [Ed Ec]. unfold cleanEvictBlk. apply wp_bind, wp_assert; [by rewrite Ec|].
    apply wp_bind, (wp_deref_tags i b); [done|]. apply wp_bind, wp_assert; [by rewrite Hv, Ed|].
    apply wp_bind. unfold blk_addr. apply wp_bind, (wp_deref_tags i b); [done|]. apply wp_bind, wp_get, wp_ret, wp_ret, wp_bind.
    apply (wp_invalidate_tags i b); [done..|]. intros t' H3. apply wp_ret. rewrite Hreg, Hblk, Hs.
    apply (HQ t' (blk_invalidate b)); [done|]. by apply invalidate_dropped.
Qed.

(** The packet of an evicted block stands for its line. *)
Lemma evict_pkt_ok M m O O2 c a b :
  dom a -> blk_ok b -> line_ok M m O O2 a (Some b) -> c_line c a = None ->
  wb_ok M m O O2 c (evict_pkt a b) /\ p_addr (evict_pkt a b) = a /\
  (p_cmd (evict_pkt a b) <> WritebackDirty -> line_ok M m O O2 a None).
Proof.
  intros Ha (Hl & _) (Hr & Hd & Hm) Hn. unfold evict_pkt, wb_ok, line_ok.
  destruct (isSet DirtyBit b) eqn:Ed; cbn [orb].
  - destruct (Hd eq_refl) as [-> _]. cbn. split; [|by split]. split_and!; try done. left. tauto.
  - assert (O a \/ blk_data b = M a /\ m a = M a /\ ~ O2 a) as Hm' by naive_solver.
    destruct (writebackClean cfg); cbn; (split; [|split; [done|]; tauto]); (split_and!; try done);
      right; (split; [|tauto]); [left|by right].
    split_and!; try done. destruct Hm' as [?|(-> & -> & _)]; [by left|by right].
Qed.

Lemma cinv_insert M m O O2 a c i b0 now :
  bare M m O O2 a c -> i ∈ possibleEntries g (a, w) -> entry_at (c_tags c) i = Some b0 -> blk_valid b0 = false ->
  exists b, work M m O O2 a (InTags i) b
    (with_tags (@ac_insertEntry _ _ _ (blk_entry g) RP now (a, w) i (c_tags c)) c) /\ coherence b = 0.
Proof.
  intros [CI Ha Hl Hw Ht] Hin He Hv. destruct (twf_blk g w dom _ (ci_tags _ _ _ _ _ _ CI) i b0 He) as (L1 & L2 & L3).
  destruct (L3 Hv) as [Hs0 Hc0]. exists (blk_insert g (a, w) b0). split; [|done].
  assert (one_change (c_tags c) (@ac_insertEntry _ _ _ (blk_entry g) RP now (a, w) i (c_tags c)) i (blk_insert g (a, w) b0)) as Hone.
  { apply change_on_repl. by apply (on_entry_change (c_tags c) i (blk_insert g (a, w)) b0). }
  assert (c_find c a = None) as Hf.
  { destruct (c_find c a) as [j|] eqn:Ej; [|done]. destruct (find_holds g OK w _ _ _ Ej) as [b' (Hj & _)].
    unfold line in Hl. by rewrite Ej, Hj in Hl. }
  destruct (fill_spec g OK w dom dom_line _ a i b0 _ _ (ci_tags _ _ _ _ _ _ CI) Ha He Hv Hin Hf Hone) as (W & Hh & Hfi & Hli & Hot);
    try done; [cbn; by rewrite Hs0, orb_false_r|]. cbn.
  split; try done.
  - split; cbn; try apply CI; try done.
    + intros p Hp. destruct (ci_wbs _ _ _ _ _ _ CI p Hp) as (P1 & P2 & P3 & P4).
      split; [done|]. split; [done|]. split; [|done]. cbn. rewrite (proj2 (Hot _ P1 (Hw p Hp))). done.
    + intros x Hx Hn Hwt. rewrite (proj2 (Hot x Hx ltac:(congruence))). apply CI; done.
  - split; [apply Hh|]. split; [done|]. split; [apply Hh|]. split; [|done]. unfold blk_ok. rewrite <- Hblk. by split_and!.
Qed.

Lemma wp_alloc now M m O O2 a c p Q :
  bare M m O O2 a c -> c_writebacks c = [] -> p_key p = (a, w) ->
  (forall c' i b, work M m O O2 a (InTags i) b c' -> coherence b = 0 -> Q (Some (InTags i)) c') ->
  wp (allocateBlock cfg now p) c Q.
Proof.
  intros Hb Hnil Hk HQ. pose proof Hb as [CI Ha Hl Hw Ht]. unfold allocateBlock. apply wp_bind, wp_get. rewrite Hk.
  destruct (findVictim_in g OK w dom a _ (ci_tags _ _ _ _ _ _ CI)) as (i & b0 & -> & Hin & He).
  assert (forall c1 b1, bare M m O O2 a c1 -> entry_at (c_tags c1) i = Some b1 -> blk_valid b1 = false ->
    wp (let? c := eget in let? t := elift (insertBlock g now (a, w) i (c_tags c)) in
        do? emodify (with_tags t) in eret (Some (InTags i))) c1 Q) as Hins.
  { intros c1 b1 Hb1 He1 Hv1. destruct (cinv_insert M m O O2 a c1 i b1 now Hb1 Hin He1 Hv1) as (b & Hwk & Hco).
    apply wp_bind, wp_get, wp_bind. unfold insertBlock, valid_at. rewrite He1, Hv1.
    apply (wp_lift _ _ _ _ eq_refl), wp_bind, wp_modify, wp_ret. by eapply HQ. }
  apply wp_bind. unfold handleEvictions. apply wp_bind, (wp_deref_tags i b0); [done|].
  destruct (blk_valid b0) eqn:Hv; [|by apply wp_ret, (Hins c b0)].
  destruct (twf_line g w dom _ (ci_tags _ _ _ _ _ _ CI) i b0 He Hv) as (av & Hav & Hhv).
  assert (c_line c av = Some b0) as Hlv.
  { apply (line_Some g OK w dom); [apply CI|done|]. exists i. split; [|done]. apply (holds_find g OK w dom _ _ _ b0); try done. apply CI. }
  assert (av <> a) as Hne by congruence.
  assert (line_ok M m O O2 av (Some b0)) as Hok.
  { rewrite <- Hlv. apply CI; [done|congruence|]. intros (x & Hx & _). by rewrite Hnil in Hx; apply not_elem_of_nil in Hx. }
  pose proof (twf_blk g w dom _ (ci_tags _ _ _ _ _ _ CI) i b0 He) as Hbo. rewrite Hblk in Hbo.
  apply wp_bind, (wp_evict now i av b0); [done..|by intros ?; apply Hok|]. intros t' b' Hone Hd. apply wp_modify.
  destruct (cinv_drop _ _ _ _ _ _ i av b0 b' t' CI Hav Hhv Hone Hd) as (CI1 & Hn1 & Hot).
  { intros x Hx. by rewrite Hnil in Hx; apply not_elem_of_nil in Hx. }
  destruct (evict_pkt_ok M m O O2 (with_tags t' c) av b0 Hav Hbo Hok Hn1) as (Wp & Ea & Hcl).
  apply (Hins _ b'); [|by apply (change_entry _ _ _ _ Hone)|by apply Hd].
  cbn [c_writebacks with_tags]. rewrite Hnil. cbn [app].
  assert (forall x, x ∈ [evict_pkt av b0] -> p_addr x <> a) as Hwb by (intros x ->%list_elem_of_singleton; congruence).
  split; try done; [|cbn; by rewrite Hot].
  split; try apply CI1; cbn; [lia|by intros x ->%list_elem_of_singleton|].
  intros x Hx Hn Hwt. destruct (decide (x = av)) as [->|Hxa].
  - cbn in Hn1. rewrite Hn1. apply Hcl. intros Hc. apply Hwt. exists (evict_pkt av b0).
    split; [by apply list_elem_of_singleton|done].
  - apply CI1; [done|naive_solver|]. intros (y & Hy & _). cbn in Hy. by rewrite Hnil in Hy; apply not_elem_of_nil in Hy.
Qed.

(** ** Writebacks *)

Lemma wp_send now above p c p' (b' : B) Q :
  recvAtomic now (snoop_above cfg above c) p (c_below c) = Some (p', b') -> Q p' (with_below b' c) ->
  wp (sendAtomic cfg now above p) c Q.
Proof.
  intros E HQ. unfold sendAtomic. apply wp_bind, wp_get, wp_bind. rewrite E.
  apply (wp_lift _ _ _ _ eq_refl), wp_bind, wp_modify, wp_ret. done.
Qed.

(** The list is emptied and the device below told. *)
Lemma cinv_flush M m O O2 c m' O2' (b' : B) :
  cinv (fun _ => False) M m O O2 c -> Rep blk w dom b' m' O2' ->
  (forall a, dom a -> line_ok M m O O2 a (c_line c a) -> ~ waiting c a -> line_ok M m' O O2' a (c_line c a)) ->
  (forall a, dom a -> waiting c a -> line_ok M m' O O2' a None) ->
  cinv (fun _ => False) M m' O O2' (with_below b' (with_writebacks [] c)).
Proof.
  intros CI Hr Hk Hw. split; cbn; try apply CI; try done; [lia|by intros p ?%not_elem_of_nil|].
  intros a Ha _ _. destruct (decide (Exists (fun p => p_cmd p = WritebackDirty /\ p_addr p = a) (c_writebacks c))) as [Hx|Hx].
  - assert (waiting c a) as Hwt by (apply Exists_exists in Hx as (p & Hp & ?); by exists p).
    destruct Hwt as (p & Hp & Hc & <-). destruct (ci_wbs _ _ _ _ _ _ CI p Hp) as (_ & _ & -> & _).
    apply Hw; [done|]. by exists p.
  - assert (~ waiting c a) as Hwt by (intros (p & Hp & ?); apply Hx, Exists_exists; by exists p).
    apply Hk; try done. apply CI; auto.
Qed.

Definition wb_done c c' : Prop := c_writebacks c' = [] /\ c_tags c' = c_tags c /\ tempBlock c' = tempBlock c.

Lemma wp_writebacks now above M m O O2 c Q :
  cinv (fun _ => False) M m O O2 c ->
  (forall c' m' O2', cinv (fun _ => False) M m' O O2' c' -> wb_done c c' -> Q tt c') ->
  wp (doWritebacksAtomic cfg now above) c Q.
Proof.
  intros CI HQ. unfold doWritebacksAtomic. apply wp_bind, wp_get, wp_bind, wp_modify.
  pose proof (ci_below _ _ _ _ _ _ CI) as Hrep. pose proof (ci_one _ _ _ _ _ _ CI) as H1.
  destruct (c_writebacks c) as [|p [|? ?]] eqn:El; [|clear H1|cbn in H1; lia]; cbn [doWritebacks].
  { apply wp_ret, (HQ _ m O2); [|done].
    replace (with_writebacks [] c) with (with_below (c_below c) (with_writebacks [] c)) by (by destruct c).
    apply (cinv_flush M m O O2); try done. intros a Ha (q & Hq & _). rewrite El in Hq. by apply not_elem_of_nil in Hq. }
  assert (p ∈ c_writebacks c) as Hp by (rewrite El; by left).
  destruct (ci_wbs _ _ _ _ _ _ CI p Hp) as (P1 & P2 & P3 & P4).
  assert (forall a, waiting c a -> p_cmd p = WritebackDirty /\ a = p_addr p) as Hwt.
  { intros a (q & Hq & Hc & <-). rewrite El in Hq. apply list_elem_of_singleton in Hq as ->. done. }
  assert (with_writebacks [] c = with_below (c_below c) (with_writebacks [] c)) as Hid by (by destruct c).
  apply wp_bind. destruct P4 as [(Hc & Hs & Hl & Hd)|(Hc & L)].
  - destruct (rep_writeback now (snoop_above cfg above (with_writebacks [] c)) p (c_below c) m O2 (p_addr p)) as (p' & b' & E & Hb'); try done.
    attrs Hc. assert (wp (do? sendAtomic cfg now above p in eret tt) (with_writebacks [] c) (fun _ c' => wp (eret tt) c' Q)) as Hgo.
    2:{ by destruct (above (p_key p)). }
    apply wp_bind. eapply wp_send; [exact E|]. apply wp_ret, wp_ret, (HQ _ (fupd m (p_addr p) (p_data p)) (del O2 (p_addr p))); [|done].
    apply (cinv_flush M m O O2); try done.
    + intros a Ha Hok Hnw. assert (a <> p_addr p) as Hne by (intros ->; apply Hnw; by exists p).
      unfold line_ok, del in *. rewrite fupd_ne by done. destruct (c_line c a); naive_solver.
    + intros a Ha [_ ->]%Hwt. unfold line_ok. rewrite fupd_eq. destruct Hd as [Hd|Hd]; [by left|right]. split; [done|].
      by intros [_ ?].
  - assert (p_cmd p <> WritebackDirty) as Hnd by (destruct Hc as [(-> & _)| ->]; done).
    assert (exists O2', Rep blk w dom (c_below c) m O2' /\ (O2' (p_addr p) \/ p_cmd p = CleanEvict \/ p_data p = m (p_addr p)) /\
      (forall x, O x \/ (O2' x <-> O2 x))) as (O2' & Hb2 & Hcl & Hoff).
    { destruct Hc as [(Hc & _ & [Ho|Hd])|Hc]; [|exists O2; tauto..]. exists (add O2 (p_addr p)).
      split; [by apply rep_forget|]. split; [left; by right|]. intros x. unfold add.
      destruct (decide (x = p_addr p)) as [->|]; [by left|right; tauto]. }
    assert (forall b' : B, Rep blk w dom b' m O2' -> wp (eret tt) (with_below b' (with_writebacks [] c)) Q) as Hfin.
    { intros b' Hb'. apply wp_ret, (HQ _ m O2'); [|done]. apply (cinv_flush M m O O2); try done; [|by intros a _ [? _]%Hwt].
      intros a Ha Hok _. unfold line_ok in *. destruct (c_line c a), (Hoff a) as [Ho|Ho]; rewrite ?Ho; tauto. }
    assert (wp (do? sendAtomic cfg now above p in eret tt) (with_writebacks [] c) (fun _ c' => wp (eret tt) c' Q)) as Hgo.
    { apply wp_bind. destruct Hc as [(Hc & Hl & _)|Hc].
      - destruct (rep_clean now (snoop_above cfg above (with_writebacks [] c)) p (c_below c) m O2' (p_addr p)) as (p' & b' & E & Hb'); try done;
          [rewrite Hc in Hcl; naive_solver|].
        eapply wp_send; [exact E|]. apply wp_ret. by apply Hfin.
      - destruct (rep_evict now (snoop_above cfg above (with_writebacks [] c)) p (c_below c) m O2' (p_addr p)) as (p' & b' & E & _ & Hb'); try done.
        eapply wp_send; [exact E|]. apply wp_ret. by apply Hfin. }
    destruct (above (p_key p)); [|done]. rewrite bool_decide_eq_false_2 by done. apply wp_ret. rewrite Hid. by apply Hfin.
Qed.

(** ** Filling a block *)

Lemma getBlockAddr_line a p : dom a -> p_addr p = a -> getBlockAddr (blkSize g) p = a.
Proof. intros Ha <-. apply (line_of_line g OK), dom_line. done. Qed.

Lemma getOffset_mod p : getOffset (blkSize g) p = p_addr p mod blk.
Proof.
  unfold getOffset. pose proof (shifts g). rewrite <- Hblk, (to_blk g OK).
  replace (2 ^ setShift g - 1) with (Z.ones (setShift g)) by (rewrite Z.ones_equiv; lia). apply Z.land_ones. lia.
Qed.

Lemma getOffset_line a p : dom a -> p_addr p = a -> getOffset (blkSize g) p = 0.
Proof. intros Ha <-. rewrite getOffset_mod, <- Hblk. apply (dom_line _ Ha). Qed.

Lemma length_writeData p d :
  length d = Z.to_nat blk -> length (p_data p) = Z.to_nat (p_size p) -> 0 <= p_size p ->
  getOffset (blkSize g) p + p_size p <= blk -> length (writeDataToBlock (blkSize g) p d) = Z.to_nat blk.
Proof.
  intros Hd Hp Hs Ho. unfold writeDataToBlock. rewrite !length_app, !length_take, length_drop, Hd, Hp.
  rewrite getOffset_mod in *. pose proof (Z.mod_pos_bound (p_addr p) blk blk_pos). lia.
Qed.

(** A packet of line size replaces the data. *)
Lemma writeData_line a p d :
  dom a -> p_addr p = a -> p_size p = blk -> length (p_data p) = Z.to_nat blk -> length d = Z.to_nat blk ->
  writeDataToBlock (blkSize g) p d = p_data p.
Proof.
  intros Ha E Hs Hp Hd. unfold writeDataToBlock. rewrite (getOffset_line a), Hs by done.
  rewrite (take_ge (p_data p)), drop_ge by lia. cbn. by rewrite app_nil_r.
Qed.

(** The permissions that [q] gives, and the block after a fill by [q]. *)
Definition granted (q : pkt) b : cache_blk :=
  if hasSharers q then b
  else if cacheResponding q then setCoherenceBits DirtyBit (setCoherenceBits WritableBit b)
  else setCoherenceBits WritableBit b.

Definition filled (q : pkt) b : cache_blk :=
  let b' := granted q (setCoherenceBits ReadableBit b) in
  if testCmdAttrib IsRead q then set_data (p_data q) b' else b'.

Record fill_pkt (q : pkt) a : Prop := FillPkt {
  fp_resp : testCmdAttrib IsResponse q = true;
  fp_addr : p_addr q = a; fp_size : p_size q = blk; fp_secure : p_secure q = w;
  fp_inv : p_cmd q = InvalidateResp -> hasSharers q = false;
  fp_ro : hasSharers q = false -> cacheResponding q = true -> isReadOnly cfg = false;
  fp_read : testCmdAttrib IsRead q = true -> testCmdAttrib HasData q = true /\ length (p_data q) = Z.to_nat blk
}.

Lemma wp_handleFill now M m O O2 a q bl alloc c P Q :
  fill_pkt q a -> dom a ->
  (bl = None -> testCmdAttrib HasData q = true \/ p_cmd q = InvalidateResp) ->
  wp (fill_target cfg now q bl alloc) c (fun r c' => exists b, work M m O O2 a r b c' /\ P r b) ->
  (forall r b c', work M m O O2 a r (filled q b) c' -> P r b -> blk_ok b -> Q r c') ->
  wp (handleFill cfg now q bl alloc) c Q.
Proof.
  intros [F1 F2 F3 F4 F5 F6 F7] Ha Hn Hft HQ. unfold handleFill.
  apply wp_bind, wp_assert; [done|]. apply wp_bind, wp_assert; [rewrite (getBlockAddr_line a), F2 by done; apply Z.eqb_refl|].
  apply wp_bind. apply (wp_mono _ _ (fun _ c' => c' = c)).
  2:{ destruct bl; [done|]. apply wp_assert; [|done]. destruct (Hn eq_refl) as [->|Hi]; [done|].
      rewrite bool_decide_eq_true_2 by done. apply orb_true_r. }
  intros _ ? ->. apply wp_bind. eapply wp_mono; [|exact Hft]. intros r c1 (b & W & HP). clear Hft Hn.
  pose proof (wk_cur _ _ _ _ _ _ _ _ W) as Hc. pose proof Hc as (_ & Hv & Hs & Hbo & _).
  apply wp_bind, (cur_deref r a b); [done|]. apply wp_bind, (cur_addr r a b); [done..|].
  apply wp_bind, wp_assert; [done|]. apply wp_bind, wp_assert; [rewrite Hs, F4; apply eqb_reflx|].
  apply wp_bind, wp_assert; [rewrite F2; apply Z.eqb_refl|].
  apply wp_bind. eapply wp_set_bits; [exact W|done|]. intros c2 W2 _. clear c1 W Hc.
  apply wp_bind, wp_assert.
  { case_bool_decide as Hi; [by rewrite (F5 Hi)|done]. }
  specialize (HQ r b). unfold filled in HQ. set (b1 := setCoherenceBits ReadableBit b) in *.
  set (b2 := granted q b1) in *.
  apply wp_bind, (wp_mono _ _ (fun _ c' => work M m O O2 a r b2 c')).
  2:{ unfold b2, granted. destruct (hasSharers q); [done|]. cbn [negb ewhen]. apply wp_bind.
      eapply wp_set_bits; [exact W2|done|]. intros c3 W3 _. destruct (cacheResponding q) eqn:Er; [|done]. cbn [ewhen].
      apply wp_bind. eapply wp_set_bits; [exact W3|done|]. intros c4 W4 _. apply wp_assert; [by rewrite F6|done]. }
  clear c2 W2. intros _ c1 W. apply wp_bind, (wp_mono _ _ (fun _ c' =>
    work M m O O2 a r (if testCmdAttrib IsRead q then set_data (p_data q) b2 else b2) c')).
  - intros _ c2 W2. apply wp_ret. by eapply HQ.
  - destruct (testCmdAttrib IsRead q) eqn:Er; [|done]. cbn [ewhen]. destruct (F7 eq_refl) as [Fd Fl].
    apply wp_bind, wp_assert; [done|]. apply wp_bind, wp_assert; [rewrite F3, Hblk; apply Z.eqb_refl|].
    assert (length (blk_data b2) = Z.to_nat blk) as Hl2.
    { pose proof (wk_cur _ _ _ _ _ _ _ _ W) as (_ & _ & _ & (Hl2 & _) & _). done. }
    eapply work_upd; [exact W|apply keeps_data; by rewrite (writeData_line a), Hl2|].
    intros c2 W2 _. rewrite (writeData_line a) in W2 by done. done.
Qed.

(** The flags after a fill. *)
Lemma filled_flags q b : blk_valid b = true ->
  blk_valid (filled q b) = true /\ flag 2 (filled q b) = true /\
  flag 1 (filled q b) = flag 1 b || negb (hasSharers q) /\
  flag 3 (filled q b) = flag 3 b || (negb (hasSharers q) && cacheResponding q) /\
  blk_data (filled q b) = if testCmdAttrib IsRead q then p_data q else blk_data b.
Proof.
  intros Hv. unfold filled, granted. destruct (testCmdAttrib IsRead q), (hasSharers q), (cacheResponding q);
    rewrite ?flag_data, ?flag_set; cbn [blk_valid setCoherenceBits set_coherence set_data blk_data negb andb Z.testbit ReadableBit WritableBit DirtyBit];
    rewrite ?Hv; cbn; rewrite ?orb_true_r, ?orb_false_r; done.
Qed.

(** ** Where a fill goes *)

Lemma fresh_flags b : coherence b = 0 -> flag 1 b = false /\ flag 3 b = false.
Proof. intros E. unfold flag. rewrite E, !Z.bits_0, andb_false_r. done. Qed.

Lemma wp_fill_target now M m O O2 a q alloc c :
  bare M m O O2 a c -> c_writebacks c = [] -> p_addr q = a -> p_secure q = w ->
  wp (fill_target cfg now q None alloc) c (fun r c' => exists b, work M m O O2 a r b c' /\
    (flag 1 b = false /\ flag 3 b = false /\ (r = Temp -> alloc = false))).
Proof.
  intros Hb Hnil E1 E2. assert (p_key q = (a, w)) as Hk by (unfold p_key; by rewrite E1, E2).
  unfold fill_target. apply wp_bind. destruct alloc.
  - eapply wp_alloc; [done..|]. intros c' i b W Hco. apply wp_ret. exists b. split; [done|].
    by destruct (fresh_flags b Hco).
  - apply wp_ret. apply wp_bind. unfold wp at 1, deref. cbn. destruct Hb as [CI Ha Hl Hw Ht].
    apply wp_bind, wp_assert; [by rewrite Ht|]. apply wp_bind, wp_modify, wp_ret. rewrite Hk, E1.
    pose proof (ci_temp _ _ _ _ _ _ CI) as (T1 & T2 & T3). destruct (T3 Ht) as [T4 T5].
    exists (blk_insert g (a, w) (tempBlock c)). split; [|by destruct (fresh_flags (blk_insert g (a, w) (tempBlock c)) T5)].
    assert (blk_ok (blk_insert g (a, w) (tempBlock c))) as Hbo by by split_and!.
    split; try done.
    + split; try apply CI; try done.
    + split; [done|]. split; [done|]. split; [cbn; by rewrite T4, orb_false_r|]. done.
Qed.

(** ** Serving a request *)

Definition write_cmd (x : MemCmd) : Prop := x = WriteReq \/ x = WriteLineReq.

(** A request of the processor inside the line at [a]. *)
Record cpu_req (p : pkt) a : Prop := CpuReq {
  cr_line : line_of g (p_addr p) = a; cr_secure : p_secure p = w;
  cr_size : 0 <= p_size p; cr_fits : getOffset (blkSize g) p + p_size p <= blk;
  cr_flag : cacheResponding p = false; cr_sharers : hasSharers p = false
}.

Lemma wp_satisfy_head M m O O2 a r b c p Q :
  work M m O O2 a r b c -> testCmdAttrib IsRequest p = true -> getOffset (blkSize g) p + p_size p <= blk ->
  wp (if testCmdAttrib IsWrite p then
        do? eassert (isSet WritableBit b) in
        do? updateBlockData cfg r p in
        do? set_bits r DirtyBit in
        eret p
      else if testCmdAttrib IsRead p then eret (setDataFromBlock (blkSize g) (blk_data b) p)
      else if testCmdAttrib IsUpgrade p then
        do? eassert (negb (hasSharers p)) in
        if isSet DirtyBit b then
          let? p' := elift (setCacheResponding p) in
          do? clear_bits r DirtyBit in
          eret p'
        else eret p
      else
        do? eassert (testCmdAttrib IsInvalidate p) in
        do? invalidateBlock cfg r in
        eret p) c Q ->
  wp (base_satisfyRequest cfg p r) c Q.
Proof.
  intros W Hr Ho HQ. unfold base_satisfyRequest. apply wp_bind, wp_assert; [done|].
  apply wp_bind, (cur_deref r a b); [apply W|]. apply wp_bind, wp_assert; [by apply (wk_cur _ _ _ _ _ _ _ _ W)|].
  apply wp_bind, wp_assert; [by apply Z.leb_le; rewrite Hblk in *|]. done.
Qed.

Lemma wp_serve_read M m O O2 a r b c p Q :
  work M m O O2 a r b c -> cpu_req p a -> p_cmd p = ReadReq ->
  Q (setDataFromBlock (blkSize g) (blk_data b) p) c -> wp (satisfyRequest cfg p r) c Q.
Proof.
  intros W [C1 C2 C3 C4 C5 C6] Hc HQ. unfold satisfyRequest. apply wp_bind. eapply wp_satisfy_head; [done|by attrs Hc|done|].
  attrs Hc. apply wp_ret. unfold setDataFromBlock. attrs Hc. done.
Qed.

Lemma wp_serve_write M m O O2 a r b c p Q :
  work M m O O2 a r b c -> cpu_req p a -> write_cmd (p_cmd p) -> length (p_data p) = Z.to_nat (p_size p) ->
  isSet WritableBit b = true ->
  (forall c', work M m O O2 a r (setCoherenceBits DirtyBit (set_data (writeDataToBlock (blkSize g) p (blk_data b)) b)) c' -> Q p c') ->
  wp (satisfyRequest cfg p r) c Q.
Proof.
  intros W [C1 C2 C3 C4 C5 C6] Hc Hd Hw HQ.
  assert (length (blk_data b) = Z.to_nat blk) as Hl by apply (wk_cur _ _ _ _ _ _ _ _ W).
  assert (wp (base_satisfyRequest cfg p r) c (fun p' c' => p' = p /\ Q p c')) as Hb.
  { eapply wp_satisfy_head; [done|destruct Hc as [Hc|Hc]; by attrs Hc|done|].
    assert (testCmdAttrib IsWrite p = true) as -> by (destruct Hc as [Hc|Hc]; by attrs Hc).
    apply wp_bind, wp_assert; [done|]. apply wp_bind. eapply work_upd; [exact W|apply keeps_data; by rewrite length_writeData|].
    intros c1 W1 _. apply wp_bind. eapply wp_set_bits; [exact W1|done|]. intros c2 W2 _. apply wp_ret. split; [done|]. by apply HQ. }
  unfold satisfyRequest. apply wp_bind. eapply wp_mono; [|exact Hb]. intros ? c' [-> HQ'].
  destruct Hc as [Hc|Hc]; by attrs Hc.
Qed.

(** The answer to a cache above: [b'] is what the block becomes. *)
Record answered (p p' : pkt) b b' : Prop := Answered {
  an_cmd : p_cmd p' = p_cmd p; an_addr : p_addr p' = p_addr p; an_size : p_size p' = p_size p;
  an_secure : p_secure p' = p_secure p;
  an_give : cacheResponding p' = true -> flag 3 b = true /\ b' = clearCoherenceBits DirtyBit b /\ hasSharers p' = false;
  an_keep : cacheResponding p' = false -> b' = b
}.

Lemma wp_give M m O O2 a r b c p Q :
  work M m O O2 a r b c -> cacheResponding p = false -> testCmdAttrib IsRequest p = true -> hasSharers p = false ->
  (forall p' b' c', work M m O O2 a r b' c' -> answered p p' b b' -> p_data p' = p_data p -> hasSharers p' = false ->
     flag 3 b' = false -> cacheResponding p' = flag 3 b -> Q p' c') ->
  wp (if isSet DirtyBit b then
        let? p' := elift (setCacheResponding p) in
        do? clear_bits r DirtyBit in
        eret p'
      else eret p) c Q.
Proof.
  intros W Hr Hq Hs HQ. rewrite isSet_D. destruct (flag 3 b) eqn:Ef.
  - apply wp_bind. unfold setCacheResponding. rewrite Hq, Hr. cbn [negb andb]. apply (wp_lift _ _ _ _ eq_refl).
    apply wp_bind. eapply wp_clear_bits; [exact W|]. intros c' W' _. apply wp_ret.
    apply (HQ _ (clearCoherenceBits DirtyBit b)); try done. rewrite flag_clear by lia. apply andb_false_r.
  - apply wp_ret, (HQ p b); try done. by split; rewrite ?Hr.
Qed.

Lemma wp_serve_above M m O O2 a r b c p Q :
  work M m O O2 a r b c -> line_req blk w p a -> hasSharers p = false -> read_cmd (p_cmd p) ->
  (forall p' b' c', work M m O O2 a r b' c' -> answered p p' b b' -> p_data p' = blk_data b ->
     (p_cmd p = ReadExReq -> hasSharers p' = false /\ flag 3 b' = false) ->
     (p_cmd p = ReadCleanReq -> cacheResponding p' = false) -> Q p' c') ->
  wp (satisfyRequest cfg p r) c Q.
Proof.
  intros W [L1 L2 L3 L4] Hs Hc HQ. pose proof (wk_dom _ _ _ _ _ _ _ _ W) as Ha. pose proof blk_pos.
  assert (length (blk_data b) = Z.to_nat blk) as Hl by apply (wk_cur _ _ _ _ _ _ _ _ W).
  unfold satisfyRequest. apply wp_bind. eapply wp_satisfy_head; [done|destruct Hc as [Hc|[Hc|Hc]]; by attrs Hc|rewrite (getOffset_line a) by done; lia|].
  assert (setDataFromBlock (blkSize g) (blk_data b) p = with_data (blk_data b) p) as ->.
  { unfold setDataFromBlock. rewrite (getOffset_line a) by done. rewrite drop_0, take_ge by lia. done. }
  destruct Hc as [Hc|[Hc|Hc]]; attrs Hc; apply wp_ret; attrs Hc;
    (apply wp_bind, wp_assert; [cbn; rewrite L2, Hblk; apply Z.eqb_refl|]; apply wp_bind, (cur_deref r a b); [apply W|]).
  - destruct (isSet WritableBit b && negb _ && true) eqn:Ew.
    + eapply wp_give; [exact W|done|by attrs Hc|done|]. intros p' b' c' W' [A1 A2 A3 A4 A5 A6] Hd Hs' Hf Hr.
      apply (HQ p' b'); try done. intros E; by rewrite Hc in E.
    + apply wp_ret, (HQ _ b); try done; try (intros E; by rewrite Hc in E). split; cbn; try done; by rewrite L4.
  - rewrite andb_false_r. apply wp_ret, (HQ _ b); try done; try (intros E; by rewrite Hc in E). split; cbn; try done; by rewrite L4.
  - apply wp_bind, wp_assert; [done|]. apply wp_bind, wp_assert; [cbn; by rewrite Hs|].
    eapply wp_give; [exact W|done|by attrs Hc|done|]. intros p' b' c' W' [A1 A2 A3 A4 A5 A6] Hd Hs' Hf Hr.
    apply (HQ p' b'); try done. intros E; by rewrite Hc in E.
Qed.

Lemma wp_serve_upgrade M m O O2 a r b c p Q :
  work M m O O2 a r b c -> line_req blk w p a -> hasSharers p = false -> p_cmd p = UpgradeReq ->
  (forall p' b' c', work M m O O2 a r b' c' -> answered p p' b b' -> hasSharers p' = false -> flag 3 b' = false -> Q p' c') ->
  wp (satisfyRequest cfg p r) c Q.
Proof.
  intros W [L1 L2 L3 L4] Hs Hc HQ. pose proof (wk_dom _ _ _ _ _ _ _ _ W) as Ha. pose proof blk_pos.
  assert (wp (base_satisfyRequest cfg p r) c (fun p' c' => p_cmd p' = UpgradeReq /\ Q p' c')) as Hb.
  { eapply wp_satisfy_head; [done|by attrs Hc|rewrite (getOffset_line a) by done; lia|]. attrs Hc.
    apply wp_bind, wp_assert; [by rewrite Hs|]. eapply wp_give; [exact W|done|by attrs Hc|done|].
    intros p' b' c' W' A Hd Hs' Hf _. split; [by rewrite (an_cmd _ _ _ _ A)|]. by eapply HQ. }
  unfold satisfyRequest. apply wp_bind. eapply wp_mono; [|exact Hb]. intros p' c' [Hc' HQ']. by attrs Hc'.
Qed.

Lemma wp_serve_invalidate M m O O2 a r b c p Q :
  work M m O O2 a r b c -> line_req blk w p a -> p_cmd p = InvalidateReq ->
  (forall c', bare M m O O2 a c' -> is_dropped r c' -> Q p c') ->
  wp (satisfyRequest cfg p r) c Q.
Proof.
  intros W [L1 L2 L3 L4] Hc HQ. pose proof (wk_dom _ _ _ _ _ _ _ _ W) as Ha. pose proof blk_pos.
  unfold satisfyRequest. apply wp_bind. eapply wp_satisfy_head; [done|by attrs Hc|rewrite (getOffset_line a) by done; lia|].
  attrs Hc. apply wp_bind, wp_assert; [done|]. apply wp_bind. eapply wp_invalidate; [exact W|].
  intros c' Hb Hw. apply wp_ret. attrs Hc. by apply HQ.
Qed.

Lemma wp_clusivity M m O O2 a r b c from Q :
  work M m O O2 a r b c ->
  (from = true -> flag 3 b = false -> mostly_excl cfg = true -> forall c', bare M m O O2 a c' -> Q tt c') ->
  (from = false \/ flag 3 b = true \/ mostly_excl cfg = false -> Q tt c) ->
  wp (maintainClusivity cfg from (Some r)) c Q.
Proof.
  intros W H1 H2. unfold maintainClusivity. apply wp_bind, (cur_deref r a b); [apply W|]. rewrite isSet_D.
  pose proof (wk_cur _ _ _ _ _ _ _ _ W) as (_ & Hv & _). rewrite Hv.
  destruct from; cbn [andb]; [|by apply H2; left].
  destruct (flag 3 b) eqn:Ed; cbn [andb negb]; [by apply H2; right; left|].
  destruct (mostly_excl cfg) eqn:Em; cbn [ewhen]; [|by apply H2; right; right].
  eapply wp_invalidate; [exact W|]. intros c' Hb _. by apply H1.
Qed.

(** ** The end of a request *)

Lemma with_below_id c : with_below (c_below c) c = c.
Proof. by destruct c. Qed.

Lemma work_below M m O O2 a r b c M' m' O' O2' (b' : B) :
  work M m O O2 a r b c -> Rep blk w dom b' m' O2' ->
  (forall x, x <> a -> M' x = M x /\ m' x = m x /\ (O' x <-> O x) /\ (O2' x <-> O2 x)) ->
  work M' m' O' O2' a r b (with_below b' c).
Proof. intros [CI Ha Hc Hw Ht] Hr Hoff. split; try done. by apply (cinv_off M m O O2). Qed.

Lemma work_off M m O O2 a r b c M' m' O' O2' :
  work M m O O2 a r b c -> Rep blk w dom (c_below c) m' O2' ->
  (forall x, x <> a -> M' x = M x /\ m' x = m x /\ (O' x <-> O x) /\ (O2' x <-> O2 x)) ->
  work M' m' O' O2' a r b c.
Proof. intros W Hr Hoff. rewrite <- (with_below_id c). by apply (work_below M m O O2). Qed.

Lemma bare_off M m O O2 a c M' m' O' O2' (b' : B) :
  bare M m O O2 a c -> Rep blk w dom b' m' O2' ->
  (forall x, x <> a -> M' x = M x /\ m' x = m x /\ (O' x <-> O x) /\ (O2' x <-> O2 x)) ->
  bare M' m' O' O2' a (with_below b' c).
Proof. intros [CI Ha Hl Hw Ht] Hr Hoff. split; try done. by apply (cinv_off M m O O2). Qed.

(** All lines are accounted for; a packet may wait in the list of writebacks. *)
Definition settled M O c : Prop := exists m O2,
  cinv (fun _ => False) M m O O2 c /\ blk_valid (tempBlock c) = false.

Lemma work_settled M m O O2 a i b c :
  work M m O O2 a (InTags i) b c -> line_ok M m O O2 a (Some b) -> settled M O c.
Proof. intros W L. exists m, O2. by eapply work_end. Qed.

Lemma bare_settled M m O O2 a c : bare M m O O2 a c -> line_ok M m O O2 a None -> settled M O c.
Proof. intros W L. exists m, O2. by eapply bare_end. Qed.

(** A block that holds the line and may be served. *)
Definition ready M m O2 a b : Prop :=
  flag 2 b = true /\ (flag 3 b = true -> flag 1 b = true /\ isReadOnly cfg = false) /\
  blk_data b = M a /\ (flag 3 b = true \/ (m a = M a /\ ~ O2 a)).

Lemma ready_line M m O O2 a b : ready M m O2 a b -> line_ok M m O O2 a (Some b).
Proof. intros (R1 & R2 & R3 & R4). unfold line_ok. rewrite isSet_R, isSet_D, isSet_W. auto. Qed.

Lemma line_ready M m O O2 a b : line_ok M m O O2 a (Some b) -> ~ O a -> ready M m O2 a b.
Proof. unfold line_ok, ready. rewrite isSet_R, isSet_D, isSet_W. naive_solver. Qed.

(** After an answer to a cache above, the block keeps the line or the cache above has it. *)
Lemma settle_answer M m O O2 a r b b' c p p' :
  work M m O O2 a r b' c -> ready M m O2 a b -> answered p p' b b' ->
  (r = Temp -> mostly_excl cfg = true /\ flag 3 b' = false) ->
  wp (maintainClusivity cfg true (Some r)) c (fun _ c' => settled M (if cacheResponding p' then add O a else O) c').
Proof.
  intros W Hrd [_ _ _ _ Hg Hk] Ht. pose proof Hrd as (R1 & R2 & R3 & R4).
  set (O' := if cacheResponding p' then add O a else O).
  assert (exists O2', work M m O' O2' a r b' c /\ line_ok M m O' O2' a (Some b') /\
    (flag 3 b' = false -> line_ok M m O' O2' a None)) as (O2' & W' & L & L0).
  { unfold O'. destruct (cacheResponding p').
    - destruct (Hg eq_refl) as (Hd & -> & _). exists (add O2 a). split.
      + eapply work_off; [exact W|apply rep_forget, W|]. intros x Hx. unfold add. naive_solver.
      + unfold line_ok. flags. rewrite R1. cbn. rewrite andb_false_r. split; [|intros _; left; by right].
        split; [done|]. split; [done|]. left. by right.
    - rewrite (Hk eq_refl) in *. exists O2. split; [done|]. split; [by apply ready_line|].
      intros E. right. destruct R4 as [R4|R4]; [congruence|done]. }
  eapply wp_clusivity; [exact W'|..].
  - intros _ E _ c' Hb. eapply bare_settled; [exact Hb|]. by apply L0.
  - intros E. destruct r as [i|]; [by eapply work_settled|]. destruct (Ht eq_refl) as [E1 E2].
    destruct E as [E|[E|E]]; congruence.
Qed.

Lemma wp_answer_read M m O O2 a r b c p Q :
  work M m O O2 a r b c -> ready M m O2 a b -> line_req blk w p a -> hasSharers p = false -> read_cmd (p_cmd p) ->
  (r = Temp -> mostly_excl cfg = true /\ (p_cmd p = ReadExReq \/ flag 3 b = false)) ->
  (forall p' c', settled M (if cacheResponding p' then add O a else O) c' ->
     p_cmd p' = p_cmd p /\ p_addr p' = p_addr p /\ p_size p' = p_size p /\ p_secure p' = p_secure p ->
     p_data p' = M a -> (p_cmd p = ReadExReq -> hasSharers p' = false) ->
     (p_cmd p = ReadCleanReq -> cacheResponding p' = false) -> (cacheResponding p' = true -> hasSharers p' = false) ->
     Q p' c') ->
  wp (let? p' := satisfyRequest cfg p r in
      do? maintainClusivity cfg (testCmdAttrib FromCache p') (Some r) in
      eret p') c Q.
Proof.
  intros W Hrd L Hs Hc Ht HQ. apply wp_bind. eapply wp_serve_above; [done..|]. intros p' b' c' W' A Hd Hex Hcl.
  assert (testCmdAttrib FromCache p' = true) as ->
    by (rewrite test_attr, (an_cmd _ _ _ _ A); destruct Hc as [-> | [-> | ->]]; by vm_compute).
  apply wp_bind. eapply wp_mono; [|eapply settle_answer; [exact W'|done..|]].
  - intros [] c2 S. apply wp_ret, HQ; try done.
    + by destruct A.
    + rewrite Hd. apply Hrd.
    + intros E. by destruct (Hex E).
    + intros E. by apply A.
  - intros Hr. destruct (Ht Hr) as [E1 E2]. split; [done|]. destruct E2 as [E2|E2]; [by apply Hex|].
    destruct (cacheResponding p') eqn:Ep; [destruct (an_give _ _ _ _ A Ep); congruence|]. by rewrite (an_keep _ _ _ _ A Ep).
Qed.

Lemma wp_answer_upgrade M m O O2 a i b c p Q :
  work M m O O2 a (InTags i) b c -> ready M m O2 a b -> line_req blk w p a -> hasSharers p = false -> p_cmd p = UpgradeReq ->
  (forall p' c', settled M (if cacheResponding p' then add O a else O) c' ->
     p_cmd p' = p_cmd p /\ p_addr p' = p_addr p /\ p_size p' = p_size p /\ p_secure p' = p_secure p ->
     hasSharers p' = false -> Q p' c') ->
  wp (let? p' := satisfyRequest cfg p (InTags i) in
      do? maintainClusivity cfg (testCmdAttrib FromCache p') (Some (InTags i)) in
      eret p') c Q.
Proof.
  intros W Hrd L Hs Hc HQ. apply wp_bind. eapply wp_serve_upgrade; [done..|]. intros p' b' c' W' A Hs' Hf.
  assert (testCmdAttrib FromCache p' = true) as -> by (rewrite test_attr, (an_cmd _ _ _ _ A), Hc; by vm_compute).
  apply wp_bind. eapply wp_mono; [|by eapply settle_answer].
  intros [] c2 S. apply wp_ret, HQ; try done. by destruct A.
Qed.

(** ** Looking up a line *)

Lemma cinv_touch X M m O O2 c t' :
  cinv X M m O O2 c -> length t' = length (c_tags c) -> (forall j, entry_at t' j = entry_at (c_tags c) j) ->
  cinv X M m O O2 (with_tags t' c) /\ forall a, c_find (with_tags t' c) a = c_find c a /\ c_line (with_tags t' c) a = c_line c a.
Proof.
  intros CI Hl E. assert (forall a, c_find (with_tags t' c) a = c_find c a /\ c_line (with_tags t' c) a = c_line c a) as Hf
    by (intros a; by apply line_entries).
  split; [|done]. split; cbn; try apply CI.
  - by apply (wf_entries g w dom (c_tags c)), CI.
  - intros p Hp. destruct (ci_wbs _ _ _ _ _ _ CI p Hp) as (P1 & P2 & P3 & P4).
    split; [done|]. split; [done|]. split; [|done]. by rewrite (proj2 (Hf (p_addr p))).
  - intros a Ha Hx Hw. cbn in Hf. rewrite (proj2 (Hf a)). by apply CI.
Qed.

(** The state after [accessBlock]. *)
Lemma lookup_start now M m O O2 c a x :
  cinv (fun _ => False) M m O O2 c -> blk_valid (tempBlock c) = false -> c_writebacks c = [] -> dom a -> line_of g x = a ->
  let f := accessBlock g (c_hooks c) now (x, w) (c_tags c) in
  let c1 := with_tags f.2 c in
  c_writebacks c1 = [] /\
  ((f.1 = None /\ bare M m O O2 a c1 /\ line_ok M m O O2 a None) \/
   exists i b, f.1 = Some i /\ work M m O O2 a (InTags i) b c1 /\ line_ok M m O O2 a (Some b)).
Proof.
  intros CI Ht Hnil Ha Hx f c1. split; [done|].
  assert (line_ok M m O O2 a (c_line c a)) as L.
  { apply CI; [done|auto|]. intros (p & Hp & _). by rewrite Hnil in Hp; apply not_elem_of_nil in Hp. }
  subst f c1. unfold accessBlock. rewrite (findBlock_find g OK w), Hx.
  destruct (c_find c a) as [i|] eqn:Ef; cbn [fst snd].
  - right. destruct (find_holds g OK w _ _ _ Ef) as [b Hb]. exists i, b. split; [done|].
    destruct (cinv_touch _ _ _ _ _ c (ac_touch now i (c_tags c)) CI) as [CI' Hf].
    { apply length_on_repl. } { intros j. apply entry_at_on_repl. }
    assert (c_line c a = Some b) as El by (unfold line; rewrite Ef; apply Hb).
    rewrite El in L. split; [|done].
    assert (holds g w (ac_touch now i (c_tags c)) i a b) as Hb'.
    { apply (holds_entries g w (c_tags c)); [|done]. intros j. apply entry_at_on_repl. }
    split; try done.
    + by apply cinv_start.
    + split; [apply Hb'|]. split; [apply Hb|]. split; [apply Hb|]. split; [|done].
      pose proof (twf_blk g w dom _ (ci_tags _ _ _ _ _ _ CI) i b (proj1 Hb)) as Hbo. unfold blk_ok. by rewrite <- Hblk.
    + intros p Hp. cbn in Hp. by rewrite Hnil in Hp; apply not_elem_of_nil in Hp.
  - left. split; [done|]. assert (c_line c a = None) as El by (unfold line; by rewrite Ef). rewrite El in L. split; [|done].
    replace (with_tags (c_tags c) c) with c by (by destruct c). split; try done; [by apply cinv_start|].
    intros p Hp. by rewrite Hnil in Hp; apply not_elem_of_nil in Hp.
Qed.

(** ** A whole request *)

(** What [makeAtomicResponse] at the end of a request does to [p]. *)
Definition finished (p p' : pkt) : Prop :=
  if testCmdAttrib NeedsResponse p then makeResponse p = Some p' else p' = p.

Lemma wp_request now above M (F : pkt -> Z -> Prop) c p P Q :
  wp (base_access cfg now p) c (fun x c1 =>
    if x.1.1 then settled M (F x.2) c1 /\ P x.2
    else c_writebacks c1 = [] /\ wp (handleAtomicReqMiss cfg now above x.2 x.1.2) c1 (fun y c2 => settled M (F y.2) c2 /\ P y.2)) ->
  (forall p', P p' -> testCmdAttrib NeedsResponse p' = true -> is_Some (makeResponse p')) ->
  (forall p' p'' c', P p' -> finished p' p'' -> crep c' M (F p') -> Q p'' c') ->
  wp (base_recvAtomic cfg now above p) c Q.
Proof.
  intros Hacc Hresp HQ. unfold base_recvAtomic. apply wp_bind. eapply wp_mono; [|exact Hacc].
  intros [[sat bl] p1] c1 Hx. cbn [fst snd] in Hx.
  assert (forall bl' p2 c2, settled M (F p2) c2 -> P p2 ->
    wp (do? doWritebacksAtomic cfg now above in
        do? retire_temp cfg now above bl' in
        if testCmdAttrib NeedsResponse p2 then elift (makeResponse p2) else eret p2) c2 Q) as Htail.
  { intros bl' p2 c2 (m2 & O2 & CI & Ht) HP. apply wp_bind. eapply wp_writebacks; [exact CI|].
    intros c3 m3 O3 CI3 (E1 & E2 & E3). apply wp_bind. unfold retire_temp.
    apply wp_bind. unfold wp at 1, deref. cbn. rewrite E3, Ht, andb_false_r. apply wp_ret.
    assert (crep c3 M (F p2)) as Hrep by (exists m3, O3; by rewrite E3).
    destruct (testCmdAttrib NeedsResponse p2) eqn:En.
    - destruct (Hresp p2 HP En) as [p3 E]. apply (wp_lift _ _ _ _ E). apply (HQ p2); try done. unfold finished. by rewrite En.
    - apply wp_ret, (HQ p2); try done. unfold finished. by rewrite En. }
  destruct sat.
  - destruct Hx as [(m1 & O1 & CI & Ht) HP]. apply wp_bind. eapply wp_writebacks; [exact CI|].
    intros c2 m2 O2 CI2 (E1 & E2 & E3). apply wp_bind, wp_ret. apply Htail; [|done]. exists m2, O2. by rewrite E3.
  - destruct Hx as [Hnil Hmiss]. apply wp_bind, wp_no_writebacks; [done|]. apply wp_bind. eapply wp_mono; [|exact Hmiss].
    intros [bl' p2] c2 [S HP]. by apply Htail.
Qed.

(** ** Access and miss *)

Lemma wp_tail {A A'} (n : E st A) (k : A -> E st unit) (f : A -> A') c (Q : A' -> st -> Prop) :
  wp (let? x := n in do? k x in eret x) c (fun x c' => Q (f x) c') ->
  wp (let? x := n in do? k x in eret (f x)) c Q.
Proof. unfold wp, ebind. destruct (n c) as [[x c']|]; [|done]. by destruct (k x c') as [[[] c'']|]. Qed.

(** Serving a block and dropping it where this cache is exclusive. *)
Definition serve p r : E st pkt :=
  let? p' := satisfyRequest cfg p r in
  do? maintainClusivity cfg (testCmdAttrib FromCache p') (Some r) in
  eret p'.

Definition perm (p : pkt) : Z := if testCmdAttrib NeedsWritable p then 1 else 2.

Lemma isSet_perm p b : isSet (if testCmdAttrib NeedsWritable p then WritableBit else ReadableBit) b = flag (perm p) b.
Proof. unfold perm. destruct (testCmdAttrib NeedsWritable p); [apply isSet_W|apply isSet_R]. Qed.

Lemma wp_access now M m O O2 a c p Q :
  cinv (fun _ => False) M m O O2 c -> blk_valid (tempBlock c) = false -> c_writebacks c = [] -> dom a ->
  line_of g (p_addr p) = a -> p_secure p = w ->
  testCmdAttrib IsRequest p = true -> testCmdAttrib IsEviction p = false ->
  (isReadOnly cfg = true -> testCmdAttrib IsWrite p = false) ->
  (forall c1, bare M m O O2 a c1 -> line_ok M m O O2 a None -> c_writebacks c1 = [] -> Q (false, None, p) c1) ->
  (forall c1 i b, work M m O O2 a (InTags i) b c1 -> line_ok M m O O2 a (Some b) -> c_writebacks c1 = [] ->
     if flag (perm p) b then wp (serve p (InTags i)) c1 (fun p' c2 => Q (true, Some (InTags i), p') c2)
     else Q (false, Some (InTags i), p) c1) ->
  wp (base_access cfg now p) c Q.
Proof.
  intros CI Ht Hnil Ha Hx Hw Hq He Hro Hnone Hsome. unfold base_access.
  apply wp_bind, wp_assert; [done|]. apply wp_bind, wp_assert.
  { destruct (isReadOnly cfg); [by rewrite Hro|done]. }
  apply wp_bind, wp_get, wp_bind, wp_modify. unfold p_key. rewrite Hw.
  assert (isWriteback p = false) as -> by (unfold isWriteback; by rewrite He).
  rewrite bool_decide_eq_false_2 by (intros E; rewrite test_attr, E in He; by vm_compute in He).
  destruct (lookup_start now M m O O2 c a (p_addr p) CI Ht Hnil Ha Hx) as [Hn [(E & Hb & L)|(i & b & E & W & L)]];
    rewrite E; cbn [fmap option_fmap option_map].
  - apply wp_bind, wp_ret, wp_ret. by apply Hnone.
  - specialize (Hsome _ i b W L Hn). apply wp_bind, wp_bind, (cur_deref (InTags i) a b); [apply W|]. apply wp_ret.
    rewrite isSet_perm. destruct (flag (perm p) b); [|by apply wp_ret].
    apply (wp_tail _ (fun p' => maintainClusivity cfg (testCmdAttrib FromCache p') (Some (InTags i)))
             (fun p' => (true, Some (InTags i), p'))). done.
Qed.

(** [createMissPacket] for a request that is served here. *)
Definition miss_pkt (cmd : MemCmd) a : pkt := Pkt cmd a blk w [] false false.

Definition fetch_cmd (p : pkt) : MemCmd :=
  if testCmdAttrib NeedsWritable p then ReadExReq
  else if isReadOnly cfg || mostly_excl cfg then ReadCleanReq else ReadSharedReq.

Lemma wp_createMiss a bl ob c p cmd Q :
  match bl, ob with Some r, Some b => get_blk r c = Some b /\ blk_valid b = true | None, None => True | _, _ => False end ->
  line_of g (p_addr p) = a -> p_secure p = w -> hasSharers p = false ->
  testCmdAttrib IsEviction p = false -> testCmdAttrib NeedsResponse p = true ->
  (testCmdAttrib IsUpgrade p = true -> is_Some ob) -> p_cmd p <> InvalidateReq ->
  (p_cmd p = WriteLineReq -> isWholeLineWrite (blkSize g) p = true) ->
  (forall b, ob = Some b -> flag 1 b = false /\ testCmdAttrib NeedsWritable p = true) ->
  cmd = (if isWholeLineWrite (blkSize g) p then InvalidateReq else match ob with Some _ => UpgradeReq | None => fetch_cmd p end) ->
  Q (Some (miss_pkt cmd a)) c -> wp (createMissPacket cfg p bl) c Q.
Proof.
  intros Hbl Hx Hw Hs He Hr Hu Hi Hl Hb Hcmd HQ. unfold createMissPacket.
  apply wp_bind, wp_assert; [by rewrite He|]. apply wp_bind, (wp_mono _ _ (fun o c' => o = ob /\ c' = c)).
  2:{ destruct bl as [r|], ob as [b|]; try done. apply wp_bind. unfold wp at 1, deref. by rewrite (proj1 Hbl). }
  intros ? ? [-> ->]. set (v := match ob with Some b => blk_valid b | None => false end).
  assert (v = match ob with Some _ => true | None => false end) as Hv.
  { unfold v. destruct bl, ob; try done. apply Hbl. }
  rewrite bool_decide_eq_false_2 by done.
  assert (negb v && testCmdAttrib IsUpgrade p || false = false) as ->.
  { rewrite Hv, orb_false_r. destruct ob; [done|]. destruct (testCmdAttrib IsUpgrade p); [|done]. by destruct (Hu eq_refl). }
  apply wp_bind, wp_assert; [done|]. apply wp_bind, wp_assert.
  { case_bool_decide as E; [by rewrite Hl|done]. }
  assert (getBlockAddr (blkSize g) p = a) as Hg by (rewrite <- Hx; done).
  rewrite Hg, Hw, Hs, Hblk in *. cbn [andb]. apply wp_bind.
  apply (wp_mono _ _ (fun x c' => x = cmd /\ c' = c)); [by intros ? ? [-> ->]; apply wp_ret|].
  destruct (isWholeLineWrite blk p).
  - apply wp_bind, wp_assert; [|by apply wp_ret]. rewrite Hv. destruct ob as [b|]; [|done].
    rewrite isSet_W. by rewrite (proj1 (Hb b eq_refl)).
  - rewrite Hv. destruct ob as [b|].
    + apply wp_bind, wp_assert; [by apply (Hb b)|]. apply wp_bind, wp_assert; [|by apply wp_ret].
      rewrite isSet_W. by rewrite (proj1 (Hb b eq_refl)).
    + unfold fetch_cmd in Hcmd. destruct (testCmdAttrib NeedsWritable p); by apply wp_ret.
Qed.

(** The commands of a fetch and the responses they get. *)
Lemma fetch_cmd_read p : read_cmd (fetch_cmd p) /\
  (testCmdAttrib NeedsWritable p = true -> fetch_cmd p = ReadExReq) /\
  (testCmdAttrib NeedsWritable p = false -> isReadOnly cfg = true \/ mostly_excl cfg = true -> fetch_cmd p = ReadCleanReq).
Proof.
  unfold fetch_cmd, read_cmd. destruct (testCmdAttrib NeedsWritable p), (isReadOnly cfg), (mostly_excl cfg); naive_solver.
Qed.

Lemma read_response q q' : read_cmd (p_cmd q) -> response q q' ->
  testCmdAttrib IsResponse q' = true /\ testCmdAttrib IsRead q' = true /\ testCmdAttrib HasData q' = true /\
  testCmdAttrib IsInvalidate q' = false /\ p_cmd q' <> InvalidateResp.
Proof.
  intros Hc [E _ _ _]. rewrite !test_attr.
  destruct Hc as [Hc|[Hc|Hc]]; rewrite Hc in E; injection E as <-; by vm_compute.
Qed.

(** A miss without a block: the line is fetched, filled in and served. *)
Lemma wp_miss_fetch now above M m O O2 a c p Q :
  bare M m O O2 a c -> line_ok M m O O2 a None -> ~ O a -> c_writebacks c = [] ->
  line_of g (p_addr p) = a -> p_secure p = w -> hasSharers p = false ->
  testCmdAttrib IsEviction p = false -> testCmdAttrib NeedsResponse p = true -> testCmdAttrib IsUpgrade p = false ->
  p_cmd p <> InvalidateReq -> p_cmd p <> WriteLineReq -> isWholeLineWrite (blkSize g) p = false ->
  (testCmdAttrib NeedsWritable p = true -> isReadOnly cfg = false) ->
  (forall r b c1 O2', work M m O O2' a r b c1 -> ready M m O2' a b -> flag (perm p) b = true ->
     (r = Temp -> allocOnFill cfg (p_cmd p) = false /\ (testCmdAttrib NeedsWritable p = true \/ flag 3 b = false)) ->
     wp (serve p r) c1 (fun p' c2 => Q (Some r, p') c2)) ->
  wp (handleAtomicReqMiss cfg now above p None) c Q.
Proof.
  intros Hb L Ho Hnil Hx Hw Hs He Hr Hu Hi Hl Hwh Hro HQ. destruct L as [|[Em Ho2]]; [done|].
  pose proof (br_dom _ _ _ _ _ _ Hb) as Ha. destruct (fetch_cmd_read p) as (Hrd & Hex & Hcl).
  unfold handleAtomicReqMiss. rewrite He. apply wp_bind.
  apply (wp_createMiss a None None _ p (fetch_cmd p)); try done; [by rewrite Hu|by rewrite Hwh|].
  apply wp_bind, wp_bind.
  destruct (rep_read now (snoop_above cfg above c) (miss_pkt (fetch_cmd p) a) (c_below c) m O2 a) as
    (q & b' & Er & Hresp & Hd & Hqx & Hqc & Hqs & Hrep); try done; [apply Hb|].
  eapply wp_send; [exact Er|]. destruct (read_response (miss_pkt (fetch_cmd p) a) q Hrd Hresp) as (A1 & A2 & A3 & A4 & A5).
  destruct Hresp as [_ Ea Es Ew]. cbn in Ea, Es, Ew.
  set (O2' := if cacheResponding q then add O2 a else O2) in *.
  assert (bare M m O O2' a (with_below b' c)) as Hb'.
  { eapply bare_off; [exact Hb|done|]. intros x Hne. unfold O2', add. destruct (cacheResponding q); naive_solver. }
  unfold miss_response. apply wp_bind, wp_assert; [done|]. rewrite Hwh, A2. cbn [orb]. apply wp_bind.
  assert (isReadOnly cfg = true -> cacheResponding q = false) as Hroq.
  { intros E. apply Hqc. destruct (testCmdAttrib NeedsWritable p) eqn:En; [by rewrite Hro in E|]. apply Hcl; auto. }
  eapply (wp_handleFill now M m O O2' a q None); [|done|by left|by apply wp_fill_target|].
  { split; try done; [|split; [done|]; rewrite Hd; by eapply rep_len; [apply Hb|..]].
    intros _ E. destruct (isReadOnly cfg); [by rewrite Hroq in E|done]. }
  intros r b c1 W (F1 & F3 & Ft) Hbo.
  assert (blk_valid b = true) as Hv by (pose proof (wk_cur _ _ _ _ _ _ _ _ W) as (_ & V & _);
    unfold filled, granted in V; destruct (testCmdAttrib IsRead q), (hasSharers q), (cacheResponding q); done).
  destruct (filled_flags q b Hv) as (V & G2 & G1 & G3 & Gd). rewrite A2, Hd in Gd. rewrite F1 in G1. rewrite F3 in G3. cbn [orb] in G1, G3.
  rewrite A4. apply (wp_tail _ (fun p' => maintainClusivity cfg (testCmdAttrib FromCache p') (Some r)) (fun p' => (Some r, p', false))).
  apply (HQ r (filled q b) c1 O2' W).
  - split; [done|]. rewrite G1, G3, Gd. unfold O2'. destruct (cacheResponding q) eqn:Eq.
    + rewrite (Hqs eq_refl). cbn. split; [|auto]. split; [done|]. destruct (isReadOnly cfg); [by specialize (Hroq eq_refl)|done].
    + rewrite andb_false_r. split; [done|auto].
  - unfold perm. destruct (testCmdAttrib NeedsWritable p); [|done]. rewrite G1. by rewrite Hqx by (by apply Hex).
  - intros Er'. specialize (Ft Er'). split; [done|]. destruct (testCmdAttrib NeedsWritable p) eqn:En; [by left|right].
    rewrite G3, Hqc; [apply andb_false_r|]. apply Hcl; [done|]. right. unfold allocOnFill in Ft. destruct (mostly_excl cfg); done.
Qed.

(** A miss on a block without write permission: the permission is fetched. *)
Lemma wp_miss_upgrade now above M m O O2 a i b c p Q :
  work M m O O2 a (InTags i) b c -> line_ok M m O O2 a (Some b) -> ~ O a -> flag 1 b = false ->
  line_of g (p_addr p) = a -> p_secure p = w -> hasSharers p = false ->
  testCmdAttrib IsEviction p = false -> testCmdAttrib NeedsResponse p = true -> testCmdAttrib NeedsWritable p = true ->
  p_cmd p <> InvalidateReq -> p_cmd p <> WriteLineReq -> isWholeLineWrite (blkSize g) p = false -> isReadOnly cfg = false ->
  (forall b' c1 O2', work M m O O2' a (InTags i) b' c1 -> ready M m O2' a b' -> flag 1 b' = true ->
     wp (serve p (InTags i)) c1 (fun p' c2 => Q (Some (InTags i), p') c2)) ->
  wp (handleAtomicReqMiss cfg now above p (Some (InTags i))) c Q.
Proof.
  intros W L Ho Hf1 Hx Hw Hs He Hr Hn Hi Hl Hwh Hro HQ. pose proof (wk_dom _ _ _ _ _ _ _ _ W) as Ha.
  destruct (line_ready M m O O2 a b L Ho) as (R2 & R3 & Rd & R4).
  assert (flag 3 b = false) as Hf3 by (destruct (flag 3 b); [destruct (R3 eq_refl); congruence|done]).
  destruct R4 as [|[Em Ho2]]; [congruence|].
  unfold handleAtomicReqMiss. rewrite He. apply wp_bind.
  apply (wp_createMiss a (Some (InTags i)) (Some b) _ p UpgradeReq); try done.
  { pose proof (wk_cur _ _ _ _ _ _ _ _ W) as (? & ? & _). done. }
  { by intros b0 [= <-]. } { by rewrite Hwh. }
  apply wp_bind, wp_bind.
  destruct (rep_upgrade now (snoop_above cfg above c) (miss_pkt UpgradeReq a) (c_below c) m O2 a) as
    (q & b' & Er & [Ec Ea Es Ew] & Hqs & Hrep); try done; [apply W|].
  eapply wp_send; [exact Er|]. cbn in Ec, Ea, Es, Ew. injection Ec as Ec. symmetry in Ec.
  set (O2' := if cacheResponding q then add O2 a else O2) in *.
  assert (work M m O O2' a (InTags i) b (with_below b' c)) as W'.
  { eapply work_below; [exact W|done|]. intros x Hne. unfold O2', add. destruct (cacheResponding q); naive_solver. }
  unfold miss_response. apply wp_bind, wp_assert; [by attrs Ec|]. rewrite Hwh. attrs Ec. apply wp_bind.
  eapply (wp_handleFill now M m O O2' a q (Some (InTags i)) _ _ (fun r b0 => r = InTags i /\ b0 = b));
    [|done|done|apply wp_ret; by exists b|].
  { split; try done; rewrite ?test_attr, Ec; try done; by intros ? ?. }
  intros r b0 c1 W1 [-> ->] _. destruct (filled_flags q b ltac:(apply (wk_cur _ _ _ _ _ _ _ _ W))) as (V & G2 & G1 & G3 & Gd).
  rewrite test_attr, Ec in Gd. change (attr IsRead UpgradeResp) with false in Gd. rewrite Hqs, Hf1, Hf3 in *. cbn [negb orb andb] in G1, G3.
  apply (wp_tail _ (fun p' => maintainClusivity cfg (testCmdAttrib FromCache p') (Some (InTags i))) (fun p' => (Some (InTags i), p', false))).
  apply (HQ (filled q b) c1 O2' W1); [|done]. split; [done|]. split; [done|]. rewrite Gd, G3. split; [done|].
  unfold O2'. destruct (cacheResponding q); auto.
Qed.

(** ** Served requests *)

(** What a request that is served from a block asks of the cache. *)
Record servable (p : pkt) a : Prop := Servable {
  sv_line : line_of g (p_addr p) = a; sv_secure : p_secure p = w; sv_sharers : hasSharers p = false;
  sv_request : testCmdAttrib IsRequest p = true; sv_evict : testCmdAttrib IsEviction p = false;
  sv_resp : testCmdAttrib NeedsResponse p = true;
  sv_inv : p_cmd p <> InvalidateReq; sv_linereq : p_cmd p <> WriteLineReq;
  sv_whole : isWholeLineWrite (blkSize g) p = false;
  sv_write : testCmdAttrib NeedsWritable p = true -> isReadOnly cfg = false;
  sv_iswrite : testCmdAttrib IsWrite p = true -> testCmdAttrib NeedsWritable p = true
}.

(** A block is there: it is served, after an upgrade where the permission is missing. *)
Lemma wp_block now above M m O O2 a i b c p M' (F : pkt -> Z -> Prop) P :
  work M m O O2 a (InTags i) b c -> line_ok M m O O2 a (Some b) -> ~ O a -> c_writebacks c = [] -> servable p a ->
  (forall b' c1 O2', work M m O O2' a (InTags i) b' c1 -> ready M m O2' a b' -> flag (perm p) b' = true ->
     wp (serve p (InTags i)) c1 (fun p' c2 => settled M' (F p') c2 /\ P p')) ->
  if flag (perm p) b then wp (serve p (InTags i)) c (fun p' c2 => settled M' (F p') c2 /\ P p')
  else c_writebacks c = [] /\
    wp (handleAtomicReqMiss cfg now above p (Some (InTags i))) c (fun y c2 => settled M' (F y.2) c2 /\ P y.2).
Proof.
  intros W L Ho Hnil [S1 S2 S3 S4 S5 S6 S7 S8 S9 S10 S11] Hs. pose proof (line_ready M m O O2 a b L Ho) as Rd.
  destruct (flag (perm p) b) eqn:Ef; [by eapply Hs|]. split; [done|].
  unfold perm in *. destruct (testCmdAttrib NeedsWritable p) eqn:En; [|by rewrite (proj1 Rd) in Ef].
  eapply wp_miss_upgrade; try done; by apply S10.
Qed.

Lemma wp_served now above M O a c p M' (F : pkt -> Z -> Prop) P Q :
  crep c M O -> dom a -> ~ O a -> servable p a -> testCmdAttrib IsUpgrade p = false ->
  (forall m r b c1 O2, work M m O O2 a r b c1 -> ready M m O2 a b -> flag (perm p) b = true ->
     (r = Temp -> allocOnFill cfg (p_cmd p) = false /\ (testCmdAttrib NeedsWritable p = true \/ flag 3 b = false)) ->
     wp (serve p r) c1 (fun p' c2 => settled M' (F p') c2 /\ P p')) ->
  (forall p', P p' -> testCmdAttrib NeedsResponse p' = true -> is_Some (makeResponse p')) ->
  (forall p' p'' c', P p' -> finished p' p'' -> crep c' M' (F p') -> Q p'' c') ->
  wp (base_recvAtomic cfg now above p) c Q.
Proof.
  intros (m & O2 & CI & Ht & Hnil) Ha Ho Sv Hu Hs Hr HQ. pose proof Sv as [S1 S2 S3 S4 S5 S6 S7 S8 S9 S10 S11].
  eapply wp_request; [|exact Hr|exact HQ]. eapply wp_access; try done.
  - intros E. destruct (testCmdAttrib IsWrite p); [|done]. by rewrite S10 in E by auto.
  - intros c1 Hb L Hn. split; [done|]. eapply wp_miss_fetch; try done. intros r b c2 O2' W Rd Fl T. by eapply Hs.
  - intros c1 i b W L Hn. cbn [fst snd]. eapply wp_block; try done. intros b' c2 O2' W' Rd Fl. by eapply Hs.
Qed.

(** ** The promise to the cache above *)

Definition handed O a (p : pkt) : Z -> Prop := if cacheResponding p then add O a else O.

Definition same_req (p p1 : pkt) : Prop :=
  p_cmd p1 = p_cmd p /\ p_addr p1 = p_addr p /\ p_size p1 = p_size p /\ p_secure p1 = p_secure p.

(** At the end the request is turned into its response, unless the device below did so. *)
Lemma finished_response p p1 p2 :
  testCmdAttrib NeedsResponse p = true -> testCmdAttrib IsRequest p = true -> is_Some (commandInfo (p_cmd p)).2 ->
  same_req p p1 \/ response p p1 ->
  (testCmdAttrib NeedsResponse p1 = true -> is_Some (makeResponse p1)) /\
  (finished p1 p2 -> response p p2 /\ p_data p2 = p_data p1 /\ hasSharers p2 = hasSharers p1 /\ cacheResponding p2 = cacheResponding p1).
Proof.
  intros Hr Hq [x Hx] [(E1 & E2 & E3 & E4)|Hp]; unfold finished, makeResponse.
  - rewrite !test_attr, E1 in *. rewrite Hr, Hq, Hx. cbn [andb]. split; [done|]. intros [= <-]. by split.
  - assert (testCmdAttrib NeedsResponse p1 = false) as ->; [|split; [done|]; by intros ->].
    pose proof (rs_cmd _ _ Hp) as E. rewrite test_attr. clear Hr Hq Hx. destruct (p_cmd p); try done; injection E as <-; by vm_compute.
Qed.

Lemma read_servable p a : dom a -> line_req blk w p a -> hasSharers p = false -> read_cmd (p_cmd p) -> isReadOnly cfg = false ->
  servable p a /\ testCmdAttrib IsUpgrade p = false /\ is_Some (commandInfo (p_cmd p)).2 /\
  (testCmdAttrib NeedsWritable p = true -> p_cmd p = ReadExReq) /\ (allocOnFill cfg (p_cmd p) = false -> mostly_excl cfg = true).
Proof.
  intros Ha [L1 L2 L3 L4] Hs Hc Hro. unfold allocOnFill, isWholeLineWrite.
  assert (line_of g (p_addr p) = a) as Hl by (rewrite L1; by apply (line_of_line g OK), dom_line).
  destruct Hc as [Hc|[Hc|Hc]]; attrs Hc; (split; [split; unfold isWholeLineWrite; attrs Hc; by rewrite ?Hc|]);
    rewrite ?Hc; (split_and!; try done); by destruct (mostly_excl cfg).
Qed.

Lemma wp_recv_read now above M O a c p :
  crep c M O -> dom a -> ~ O a -> line_req blk w p a -> hasSharers p = false -> read_cmd (p_cmd p) -> isReadOnly cfg = false ->
  wp (base_recvAtomic cfg now above p) c (fun p' c' => response p p' /\ p_data p' = M a /\
    (p_cmd p = ReadExReq -> hasSharers p' = false) /\ (p_cmd p = ReadCleanReq -> cacheResponding p' = false) /\
    (cacheResponding p' = true -> hasSharers p' = false) /\ crep c' M (handed O a p')).
Proof.
  intros Hc Ha Ho L Hs Hcmd Hro. destruct (read_servable p a Ha L Hs Hcmd Hro) as (Sv & Hu & Hx & Hex & Hal).
  pose proof (sv_resp _ _ Sv) as Hr. pose proof (sv_request _ _ Sv) as Hq.
  set (P := fun p1 : pkt => same_req p p1 /\
    p_data p1 = M a /\ (p_cmd p = ReadExReq -> hasSharers p1 = false) /\ (p_cmd p = ReadCleanReq -> cacheResponding p1 = false) /\
    (cacheResponding p1 = true -> hasSharers p1 = false)).
  apply (wp_served now above M O a c p M (handed O a) P); try done.
  - intros m r b c1 O2 W Rd F T. eapply wp_answer_read; try done.
    { intros E. destruct (T E) as [T1 T2]. split; [by apply Hal|]. destruct T2; auto. }
  - intros p1 (E & _). by apply (finished_response p p1 p1 Hr Hq Hx (or_introl E)).
  - intros p1 p2 c' (E & E1 & E2 & E3 & E4) Fi Hrep. destruct (finished_response p p1 p2 Hr Hq Hx (or_introl E)) as [_ Hf].
    destruct (Hf Fi) as (Rs & -> & -> & G). unfold handed in *. rewrite G. by split_and!.
Qed.

(** A request that is passed on to the device below. *)
Lemma wp_forward now above c p bl p' (b' : B) Q :
  testCmdAttrib IsEviction p = false -> 
  (p_cmd p = InvalidateReq \/ (testCmdAttrib IsUpgrade p = true /\ bl = None)) ->
  match bl with Some r => is_Some (get_blk r c) | None => True end ->
  recvAtomic now (snoop_above cfg above c) p (c_below c) = Some (p', b') ->
  wp (do? (if testCmdAttrib IsInvalidate p' then
             match bl with
             | Some r => let? b := deref r in ewhen (blk_valid b) (invalidateBlock cfg r)
             | None => eret tt
             end
           else eret tt) in eret (bl, p')) (with_below b' c) Q ->
  wp (handleAtomicReqMiss cfg now above p bl) c Q.
Proof.
  intros He Hf Hbl Er HQ. unfold handleAtomicReqMiss. rewrite He. apply wp_bind. unfold createMissPacket.
  apply wp_bind, wp_assert; [by rewrite He|]. apply wp_bind.
  apply (wp_mono _ _ (fun ob c' => c' = c /\ (bl = None -> ob = None))).
  2:{ destruct bl as [r|]; [|done]. destruct Hbl as [b Hb]. apply wp_bind. unfold wp, deref. by rewrite Hb. }
  intros ob ? [-> Hob].
  assert ((negb (match ob with Some b => blk_valid b | None => false end) && testCmdAttrib IsUpgrade p)
    || bool_decide (p_cmd p = InvalidateReq) = true) as ->.
  { destruct Hf as [Hf|[-> Hf]]; [rewrite bool_decide_eq_true_2 by done; apply orb_true_r|]. by rewrite (Hob Hf). }
  apply wp_ret, wp_bind, wp_bind. eapply wp_send; [exact Er|]. by apply wp_ret.
Qed.

Lemma wp_recv_upgrade now above M O a c p :
  crep c M O -> dom a -> ~ O a -> line_req blk w p a -> hasSharers p = false -> p_cmd p = UpgradeReq -> isReadOnly cfg = false ->
  wp (base_recvAtomic cfg now above p) c (fun p' c' => response p p' /\ hasSharers p' = false /\ crep c' M (handed O a p')).
Proof.
  intros (m & O2 & CI & Ht & Hnil) Ha Ho L Hs Hc Hro. pose proof L as [L1 L2 L3 L4].
  assert (line_of g (p_addr p) = a) as Hl by (rewrite L1; by apply (line_of_line g OK), dom_line).
  assert (testCmdAttrib NeedsResponse p = true) as Hr by by attrs Hc. assert (testCmdAttrib IsRequest p = true) as Hq by by attrs Hc.
  assert (is_Some (commandInfo (p_cmd p)).2) as Hx by by rewrite Hc.
  apply (wp_request now above M (handed O a) c p (fun p1 => (same_req p p1 \/ response p p1) /\ hasSharers p1 = false)).
  2:{ intros p1 (E & _). by apply (finished_response p p1 p1 Hr Hq Hx E). }
  2:{ intros p1 p2 c' (E & Es) Fi Hrep. destruct (finished_response p p1 p2 Hr Hq Hx E) as [_ Hf].
      destruct (Hf Fi) as (Rs & _ & -> & G). unfold handed in *. rewrite G. by split_and!. }
  eapply wp_access; try done; try (by attrs Hc).
  - intros c1 Hb [|[Em Ho2]] Hn; [done|]. split; [done|].
    destruct (rep_upgrade now (snoop_above cfg above c1) p (c_below c1) m O2 a) as (q & b' & Er & Rs & Hqs & Hrep);
      try done; [apply Hb|].
    cbn [fst snd]. eapply wp_forward; [by attrs Hc|right; by attrs Hc|done|exact Er|]. apply wp_bind.
    apply (wp_mono _ _ (fun _ c' => c' = with_below b' c1)); [|by destruct (testCmdAttrib IsInvalidate q)].
    intros _ ? ->. apply wp_ret. split; [|by auto]. unfold handed. cbn [snd].
    apply (bare_settled M m _ (if cacheResponding q then add O2 a else O2) a).
    + eapply bare_off; [exact Hb|done|]. intros x Hne. unfold add. destruct (cacheResponding q); naive_solver.
    + unfold line_ok, add. destruct (cacheResponding q); [left; by right|by right].
  - intros c1 i b W Lk Hn. cbn [fst snd]. eapply wp_block; try done.
    { split; unfold isWholeLineWrite; attrs Hc; try done; by rewrite Hc. }
    intros b' c2 O2' W' Rd F. eapply wp_answer_upgrade; try done. intros p' c' S E E'. split; [done|]. split; [by left|done].
Qed.

(** After an invalidation the cache above has the line. *)
Lemma dropped_settled M m O O2 a c : bare M m O O2 a c -> settled M (add O a) c.
Proof.
  intros Hb. apply (bare_settled M m _ O2 a); [|left; by right]. rewrite <- (with_below_id c).
  eapply bare_off; [exact Hb|apply Hb|]. intros x Hne. unfold add. naive_solver.
Qed.

Lemma wp_recv_invalidate now above M O a c p :
  crep c M O -> dom a -> ~ O a -> line_req blk w p a -> hasSharers p = false -> p_cmd p = InvalidateReq ->
  wp (base_recvAtomic cfg now above p) c (fun p' c' => response p p' /\ hasSharers p' = false /\
    cacheResponding p' = false /\ crep c' M (add O a)).
Proof.
  intros (m & O2 & CI & Ht & Hnil) Ha Ho L Hs Hc. pose proof L as [L1 L2 L3 L4].
  assert (line_of g (p_addr p) = a) as Hl by (rewrite L1; by apply (line_of_line g OK), dom_line).
  assert (testCmdAttrib NeedsResponse p = true) as Hr by by attrs Hc. assert (testCmdAttrib IsRequest p = true) as Hq by by attrs Hc.
  assert (is_Some (commandInfo (p_cmd p)).2) as Hx by by rewrite Hc.
  apply (wp_request now above M (fun _ => add O a) c p
    (fun p1 => (same_req p p1 \/ response p p1) /\ hasSharers p1 = false /\ cacheResponding p1 = false)).
  2:{ intros p1 (E & _). by apply (finished_response p p1 p1 Hr Hq Hx E). }
  2:{ intros p1 p2 c' (E & Es & Er) Fi Hrep. destruct (finished_response p p1 p2 Hr Hq Hx E) as [_ Hf].
      destruct (Hf Fi) as (Rs & _ & -> & ->). by split_and!. }
  assert (forall c1 bl, Rep blk w dom (c_below c1) m O2 -> ~ O2 a ->
    match bl with Some r => exists b, work M m O O2 a r b c1 | None => bare M m O O2 a c1 end ->
    wp (handleAtomicReqMiss cfg now above p bl) c1 (fun y c2 => settled M (add O a) c2 /\
      (same_req p y.2 \/ response p y.2) /\ hasSharers y.2 = false /\ cacheResponding y.2 = false)) as Hmiss.
  { intros c1 bl Hb Ho2 Hbl.
    destruct (rep_invalidate now (snoop_above cfg above c1) p (c_below c1) m O2 a) as (q & b' & Er & Rs & Hqs & Hqr & Hrep); try done.
    assert (forall x, x <> a -> M x = M x /\ m x = m x /\ (O x <-> O x) /\ (add O2 a x <-> O2 x)) as Hoff by (unfold add; naive_solver).
    eapply wp_forward; [by attrs Hc|by left| |exact Er|].
    { destruct bl as [r|]; [|done]. destruct Hbl as [b Wb]. exists b. apply Wb. }
    pose proof (rs_cmd _ _ Rs) as Eq. rewrite Hc in Eq. injection Eq as Eq. symmetry in Eq. attrs Eq. apply wp_bind.
    destruct bl as [r|].
    - destruct Hbl as [b Wb]. pose proof (work_below _ _ _ _ _ _ _ _ _ _ _ _ _ Wb Hrep Hoff) as Wb'.
      apply wp_bind, (cur_deref r a b); [apply Wb'|]. pose proof (wk_cur _ _ _ _ _ _ _ _ Wb') as (_ & -> & _). cbn [ewhen].
      eapply wp_invalidate; [exact Wb'|]. intros c2 Hb2 _. apply wp_ret. split; [by eapply dropped_settled|by auto].
    - apply wp_ret, wp_ret. split; [|by auto]. eapply dropped_settled, bare_off; [exact Hbl|exact Hrep|exact Hoff]. }
  eapply wp_access; try done; try (by attrs Hc).
  - intros c1 Hb [|[Em Ho2]] Hn; [done|]. split; [done|]. apply Hmiss; [apply Hb|done..].
  - intros c1 i b W Lk Hn. cbn [fst snd]. destruct (line_ready _ _ _ _ _ _ Lk Ho) as (R1 & R2 & R3 & R4).
    unfold perm. attrs Hc. destruct (flag 1 b) eqn:E1.
    + apply wp_bind. eapply wp_serve_invalidate; [done..|]. intros c2 Hb2 (b0 & Hb0 & Hv0). apply wp_bind.
      unfold maintainClusivity. apply wp_bind. unfold wp at 1, deref. rewrite Hb0, Hv0, andb_false_r. apply wp_ret, wp_ret.
      split; [by eapply dropped_settled|]. split; [by left|done].
    + split; [done|]. apply Hmiss; [apply W| |by exists b]. destruct R4 as [R4|[_ ?]]; [|done]. destruct (R2 R4). congruence.
Qed.

(** A writeback from above. *)
Lemma wp_write_block M m O O2 a i b c p Q :
  work M m O O2 a (InTags i) b c -> flag 2 b = true -> line_req blk w p a -> length (p_data p) = Z.to_nat blk ->
  testCmdAttrib NeedsResponse p = false ->
  (forall b' c', work M m O O2 a (InTags i) b' c' -> blk_data b' = p_data p -> flag 2 b' = true ->
     flag 1 b' = flag 1 b || negb (hasSharers p) -> flag 3 b' = flag 3 b || bool_decide (p_cmd p = WritebackDirty) ->
     Q (true, Some (InTags i)) c') ->
  wp (do? ewhen (bool_decide (p_cmd p = WritebackDirty)) (set_bits (InTags i) DirtyBit) in
      do? ewhen (negb (hasSharers p)) (set_bits (InTags i) WritableBit) in
      do? eassert (negb (testCmdAttrib NeedsResponse p)) in
      do? updateBlockData cfg (InTags i) p in
      eret (true, Some (InTags i))) c Q.
Proof.
  intros W F2 [L1 L2 L3 L4] Hd Hn HQ.
  assert (forall P k (d : bool) b0 c0, work M m O O2 a (InTags i) b0 c0 -> Z.ldiff k AllBits = 0 ->
    (forall c', work M m O O2 a (InTags i) (if d then setCoherenceBits k b0 else b0) c' -> P tt c') ->
    wp (ewhen d (set_bits (InTags i) k)) c0 P) as Hset.
  { intros P k d b0 c0 W0 Hk HP. destruct d; cbn [ewhen]; [|by apply wp_ret, HP].
    eapply wp_set_bits; [exact W0|done|]. intros c' W' _. by apply HP. }
  apply wp_bind. eapply Hset; [exact W|done|]. intros c1 W1. apply wp_bind. eapply Hset; [exact W1|done|]. intros c2 W2.
  apply wp_bind, wp_assert; [by rewrite Hn|]. apply wp_bind.
  pose proof (wk_cur _ _ _ _ _ _ _ _ W2) as (_ & _ & _ & (Hl & _) & _). pose proof (wk_dom _ _ _ _ _ _ _ _ W) as Ha.
  pose proof (wk_cur _ _ _ _ _ _ _ _ W) as (_ & Hv & _).
  eapply work_upd; [exact W2|apply keeps_data; rewrite (writeData_line a); by rewrite ?Hd, ?Hl|]. intros c3 W3 _. apply wp_ret.
  eapply HQ; [exact W3|..]; [apply (writeData_line a); by rewrite ?Hl|..]; rewrite flag_data;
    destruct (hasSharers p); cbn [negb]; case_bool_decide; rewrite ?flag_set; unfold flag in *;
    cbn [blk_valid setCoherenceBits set_coherence coherence andb Z.testbit WritableBit DirtyBit]; rewrite ?Hv in *;
    cbn in *; rewrite ?F2, ?orb_true_r, ?orb_false_r; done.
Qed.

(** What the cache represents after a writeback. *)
Record written M O a (p : pkt) M' (O' : Z -> Prop) : Prop := Written {
  wr_off : forall x, x <> a -> M' x = M x /\ (O' x <-> O x);
  wr_line : p_cmd p = WritebackDirty /\ hasSharers p = false /\ M' a = p_data p \/
    p_cmd p = WritebackClean /\ M' a = M a /\ (O' a <-> O a) /\ (O a \/ p_data p = M a)
}.

Lemma wp_write_settle M m O O2 a i b c p M' (O' : Z -> Prop) :
  work M m O O2 a (InTags i) b c -> flag 2 b = true -> (flag 3 b = true -> flag 1 b = true) -> isReadOnly cfg = false ->
  line_req blk w p a -> length (p_data p) = Z.to_nat blk -> testCmdAttrib NeedsResponse p = false ->
  written M O a p M' O' -> O a \/ flag 3 b = true \/ m a = M a /\ ~ O2 a \/ p_cmd p = WritebackDirty ->
  wp (do? ewhen (bool_decide (p_cmd p = WritebackDirty)) (set_bits (InTags i) DirtyBit) in
      do? ewhen (negb (hasSharers p)) (set_bits (InTags i) WritableBit) in
      do? eassert (negb (testCmdAttrib NeedsResponse p)) in
      do? updateBlockData cfg (InTags i) p in
      eret (true, Some (InTags i))) c (fun x c2 => x = (true, Some (InTags i)) /\ settled M' O' c2).
Proof.
  intros W F2 F31 Hro L Hd Hnr [Hoff Hk] F4. eapply wp_write_block; try done. intros b' c' W' E E2 E1 E3. split; [done|].
  apply (work_settled M' m O' O2 a i b').
  - eapply work_off; [exact W'|apply W'|]. intros x Hx. by destruct (Hoff x Hx).
  - unfold line_ok. rewrite isSet_R, isSet_D, isSet_W, E1, E2, E3. split; [done|].
    destruct Hk as [(Hc & Hs & Hm)|(Hc & Hm & Hm2 & Hm3)]; rewrite Hc in *.
    + rewrite Hs. cbn. rewrite !orb_true_r. split; [done|]. right. by rewrite E, Hm; auto.
    + cbn. rewrite orb_false_r, Hm, E, Hm2. split; [intros Ef; by rewrite F31|].
      destruct Hm3 as [Hm3|Hm3]; [by left|]. destruct F4 as [F4|[F4|[F4|F4]]]; auto; done.
Qed.

Lemma wp_recv_writeback now above M O a c p M' (O' : Z -> Prop) :
  crep c M O -> dom a -> line_req blk w p a -> length (p_data p) = Z.to_nat blk -> isReadOnly cfg = false ->
  written M O a p M' O' ->
  wp (base_recvAtomic cfg now above p) c (fun _ c' => crep c' M' O').
Proof.
  intros (m & O2 & CI & Ht & Hnil) Ha L Hd Hro Hwr. pose proof L as [L1 L2 L3 L4].
  assert (forall (X : CmdAttr) v, attr X WritebackDirty = v -> attr X WritebackClean = v -> testCmdAttrib X p = v) as Hat.
  { intros X v E1 E2. rewrite test_attr. by destruct (wr_line _ _ _ _ _ _ Hwr) as [[-> _]|[-> _]]. }
  assert (testCmdAttrib NeedsResponse p = false) as Hnr by (by apply Hat; vm_compute).
  apply (wp_request now above M' (fun _ => O') c p (fun p1 => p1 = p)).
  2:{ intros p1 -> E. congruence. } 2:{ intros p1 p2 c' -> _ Hrep. done. }
  unfold base_access. apply wp_bind, wp_assert; [by apply Hat; vm_compute|]. apply wp_bind, wp_assert; [by rewrite Hro|].
  apply wp_bind, wp_get, wp_bind, wp_modify. unfold p_key, isWriteback. rewrite L3.
  assert (testCmdAttrib IsEviction p = true) as -> by (by apply Hat; vm_compute).
  assert (testCmdAttrib HasData p = true) as -> by (by apply Hat; vm_compute). cbn [andb].
  apply wp_bind, (wp_mono _ _ (fun x c2 => x.1 = true /\ settled M' O' c2)).
  { intros [x1 x2] c2 [Hx S]. cbn in Hx. subst x1. by apply wp_ret. }
  unfold access_writeback. apply wp_bind, wp_assert; [rewrite L2, Hblk; apply Z.eqb_refl|]. apply wp_bind.
  destruct (lookup_start now M m O O2 c a (p_addr p) CI Ht Hnil Ha) as [Hn [(E & Hb & Lk)|(i & b & E & W & Lk)]];
    [by rewrite L1; apply (line_of_line g OK), dom_line|rewrite E; cbn [fmap option_fmap option_map]..].
  - apply wp_bind. eapply wp_alloc; [exact Hb|done|by unfold p_key; rewrite L1, L3|]. intros c1 i b W Hco.
    apply wp_bind. eapply wp_set_bits; [exact W|done|]. intros c2 W2 _. apply wp_ret.
    destruct (fresh_flags b Hco) as [G1 G3]. pose proof (wk_cur _ _ _ _ _ _ _ _ W) as (_ & Hv & _).
    eapply wp_mono; [|eapply wp_write_settle; [exact W2|..]; try done]; [by intros ? ? [-> ?]|..]; rewrite ?flag_set, ?Hv, ?G1, ?G3; cbn.
    + by rewrite orb_true_r.
    + done.
    + destruct Lk as [?|?]; auto.
  - apply wp_ret. destruct Lk as (R1 & R2 & R3). rewrite isSet_R, isSet_D, isSet_W in *.
    eapply wp_mono; [|eapply wp_write_settle; [exact W|..]; try done]; [by intros ? ? [-> ?]|..].
    + intros E3. by apply R2.
    + destruct R3 as [|(_ & [|])]; auto.
Qed.

Lemma wp_recv_evict now above M O a c p :
  crep c M O -> dom a -> line_req blk w p a -> p_cmd p = CleanEvict ->
  wp (base_recvAtomic cfg now above p) c (fun p' c' => testCmdAttrib NeedsResponse p' = false /\ crep c' M O).
Proof.
  intros (m & O2 & CI & Ht & Hnil) Ha L Hc. pose proof L as [L1 L2 L3 L4].
  apply (wp_request now above M (fun _ => O) c p (fun p1 => testCmdAttrib NeedsResponse p1 = false)).
  2:{ intros p1 E1 E2. congruence. } 2:{ intros p1 p2 c' E Fi Hrep. unfold finished in Fi. rewrite E in Fi. by subst p2. }
  unfold base_access, isWriteback. attrs Hc. apply wp_bind, wp_assert; [done|]. apply wp_bind, wp_assert; [by rewrite andb_false_r|].
  apply wp_bind, wp_get, wp_bind, wp_modify. unfold p_key. rewrite L3.
  destruct (lookup_start now M m O O2 c a (p_addr p) CI Ht Hnil Ha) as [Hn [(E & Hb & Lk)|(i & b & E & W & Lk)]];
    [by rewrite L1; apply (line_of_line g OK), dom_line|rewrite E; cbn [fmap option_fmap option_map]..].
  - apply wp_ret. cbn [fst snd]. rewrite bool_decide_eq_false_2 by (by intros [? ?]). split; [done|].
    unfold handleAtomicReqMiss. attrs Hc. apply wp_bind.
    destruct (rep_evict now (snoop_above cfg above (with_tags (accessBlock g (c_hooks c) now (p_addr p, w) (c_tags c)).2 c)) p
      (c_below c) m O2 a) as (q & b' & Er & Hnr & Hrep); try done; [apply CI|].
    eapply wp_send; [exact Er|]. apply wp_ret. split; [|done]. apply (bare_settled M m _ O2 a); [|done].
    by eapply bare_off; [exact Hb|..].
  - apply wp_ret. cbn [fst snd]. rewrite bool_decide_eq_true_2 by done. split; [by eapply work_settled|by attrs Hc].
Qed.

Lemma crep_forget c M O a : crep c M O -> crep c M (add O a).
Proof.
  intros (m & O2 & CI & Ht & Hnil). exists m, O2. split; [|done]. split; try apply CI.
  - intros p Hp. by rewrite Hnil in Hp; apply not_elem_of_nil in Hp.
  - intros x Hx Hn Hw. pose proof (ci_lines _ _ _ _ _ _ CI x Hx Hn Hw) as Lk. unfold line_ok, add in *.
    destruct (c_line c x); naive_solver.
Qed.

Lemma crep_ext c M M' O : crep c M O -> (forall a, dom a -> M' a = M a) -> crep c M' O.
Proof.
  intros (m & O2 & CI & Ht & Hnil) Hm. exists m, O2. split; [|done]. split; try apply CI.
  - intros p Hp. by rewrite Hnil in Hp; apply not_elem_of_nil in Hp.
  - intros a Ha Hx Hw. pose proof (ci_lines _ _ _ _ _ _ CI a Ha Hx Hw) as Lk. unfold line_ok in *. by rewrite (Hm a Ha).
Qed.

Lemma crep_len c M O a : crep c M O -> dom a -> ~ O a -> length (M a) = Z.to_nat blk.
Proof.
  intros (m & O2 & CI & Ht & Hnil) Ha Ho. assert (line_ok M m O O2 a (c_line c a)) as Lk.
  { apply CI; [done|auto|]. intros (p & Hp & _). by rewrite Hnil in Hp; apply not_elem_of_nil in Hp. }
  destruct (c_line c a) as [b|] eqn:E.
  - destruct Lk as (_ & _ & [?|[<- _]]); [done|]. apply (line_Some g OK w dom) in E as (i & _ & Hh); [|apply CI|done].
    rewrite <- Hblk. apply (twf_blk g w dom _ (ci_tags _ _ _ _ _ _ CI) i b), Hh.
  - destruct Lk as [?|[<- Ho2]]; [done|]. eapply rep_len; [apply CI|done..].
Qed.

(** The packet a cache above sends is handled by [BaseCache::recvAtomic] as it is. *)
Lemma recv_base now above p c : p_cmd p <> WriteReq -> cacheResponding p = false ->
  recvAtomic (Device := cache_device cfg) now above p c = base_recvAtomic cfg now above p c.
Proof.
  intros Hc Hr. unfold recvAtomic, cache_device, cache_recvAtomic, promoteWholeLineWrites.
  rewrite bool_decide_eq_false_2 by done. cbn [andb]. by rewrite Hr.
Qed.

(** A cache that is not read-only keeps the promise over a device that does. *)
Program Definition cache_ok (Hro : isReadOnly cfg = false) : @DeviceOk blk w dom st (cache_device cfg) :=
  {| Rep := crep |}.
Next Obligation. intros _. apply crep_len. Qed.
Next Obligation. intros _. apply crep_forget. Qed.
Next Obligation.
  intros Hro now above p c M O a Hr Ha Ho L Hs Hc. rewrite recv_base; [|by destruct Hc as [-> | [-> | ->]]|apply L].
  apply wp_run. by apply wp_recv_read.
Qed.
Next Obligation.
  intros Hro now above p c M O a Hr Ha Ho L Hs Hc. rewrite recv_base; [|by rewrite Hc|apply L].
  apply wp_run. by apply wp_recv_upgrade.
Qed.
Next Obligation.
  intros Hro now above p c M O a Hr Ha Ho L Hs Hc. rewrite recv_base; [|by rewrite Hc|apply L].
  apply wp_run. by apply wp_recv_invalidate.
Qed.
Next Obligation.
  intros Hro now above p c M O a Hr Ha L Hs Hc Hd. rewrite recv_base; [|by rewrite Hc|apply L].
  apply wp_run, (wp_recv_writeback now above M O a); try done. split.
  - intros x Hx. unfold fupd, del. rewrite decide_False by done. tauto.
  - left. unfold fupd. by rewrite decide_True.
Qed.
Next Obligation.
  intros Hro now above p c M O a Hr Ha L Hc Hd Hm. rewrite recv_base; [|by rewrite Hc|apply L].
  apply wp_run, (wp_recv_writeback now above M O a); try done. split; [done|]. by right.
Qed.
Next Obligation.
  intros Hro now above p c M O a Hr Ha L Hc. rewrite recv_base; [|by rewrite Hc|apply L].
  apply wp_run. by eapply wp_recv_evict.
Qed.

(** ** Requests of the processor *)

(** A write makes the block the only copy of the line. *)
Lemma wp_write_served M m O O2 a i b c p :
  work M m O O2 a (InTags i) b c -> flag 2 b = true -> flag 1 b = true -> isReadOnly cfg = false ->
  cpu_req p a -> write_cmd (p_cmd p) -> length (p_data p) = Z.to_nat (p_size p) ->
  wp (satisfyRequest cfg p (InTags i)) c (fun p' c' => p' = p /\ exists b', work M m O O2 a (InTags i) b' c' /\ flag 3 b' = true /\
    settled (fupd M a (writeDataToBlock (blkSize g) p (blk_data b))) O c').
Proof.
  intros W F2 F1 Hro Hp Hc Hd. eapply wp_serve_write; try done; [by rewrite isSet_W|]. intros c' W'. split; [done|].
  eexists. split; [exact W'|]. pose proof (wk_cur _ _ _ _ _ _ _ _ W) as (_ & Hv & _).
  assert (flag 3 (setCoherenceBits DirtyBit (set_data (writeDataToBlock (blkSize g) p (blk_data b)) b)) = true) as F3
    by (rewrite flag_set, flag_data; cbn; rewrite Hv; apply orb_true_r).
  split; [done|]. eapply (work_settled _ m O O2 a i).
  - eapply work_off; [exact W'|apply W'|]. intros x Hx. unfold fupd. by rewrite decide_False.
  - unfold line_ok. rewrite isSet_R, isSet_D, isSet_W, F3, !flag_set, !flag_data, F1, F2. cbn [orb].
    split; [done|]. split; [done|]. right. unfold fupd. rewrite decide_True by done. auto.
Qed.

Lemma no_clusivity M m O O2 a r b c from Q :
  work M m O O2 a r b c -> from = false -> Q tt c -> wp (maintainClusivity cfg from (Some r)) c Q.
Proof. intros W -> HQ. by eapply wp_clusivity; [exact W|..]. Qed.

Lemma cpu_servable p a : cpu_req p a -> p_cmd p = ReadReq \/ p_cmd p = WriteReq /\ isReadOnly cfg = false ->
  isWholeLineWrite (blkSize g) p = false ->
  servable p a /\ testCmdAttrib IsUpgrade p = false /\ is_Some (commandInfo (p_cmd p)).2 /\ allocOnFill cfg (p_cmd p) = true.
Proof.
  intros [C1 C2 C3 C4 C5 C6] Hc Hwh. unfold allocOnFill.
  destruct Hc as [Hc|[Hc ?]]; (split; [split; attrs Hc; by rewrite ?Hc|]); attrs Hc; rewrite ?Hc, ?orb_true_r; by split_and!.
Qed.

(** Reads: the bytes of the line. *)
Lemma wp_cpu_read now above M O a c p :
  crep c M O -> dom a -> ~ O a -> cpu_req p a -> p_cmd p = ReadReq ->
  wp (cache_recvAtomic cfg now above p) c (fun p' c' =>
    p_cmd p' = ReadResp /\ p_data p' = p_data (setDataFromBlock (blkSize g) (M a) p) /\ crep c' M O).
Proof.
  intros Hr Ha Ho Hp Hc. unfold cache_recvAtomic, promoteWholeLineWrites. attrs Hc. rewrite (cr_flag _ _ Hp).
  assert (isWholeLineWrite (blkSize g) p = false) as Hwh by (unfold isWholeLineWrite; by attrs Hc).
  destruct (cpu_servable p a Hp (or_introl Hc) Hwh) as (Sv & Hu & Hx & Hal).
  apply (wp_served now above M O a c p M (fun _ => O) (fun p1 => p1 = setDataFromBlock (blkSize g) (M a) p)); try done.
  - intros m r b c1 O2 W Rd F T. apply wp_bind. eapply wp_serve_read; [exact W|done..|]. apply wp_bind.
    eapply no_clusivity; [exact W|by unfold setDataFromBlock; attrs Hc|]. apply wp_ret.
    destruct r as [i|]; [|destruct (T eq_refl); congruence]. split; [|by rewrite (proj1 (proj2 (proj2 Rd)))].
    by eapply work_settled, ready_line.
  - intros p1 -> _. unfold makeResponse, setDataFromBlock. attrs Hc. by eexists.
  - intros p1 p2 c' -> Fi Hrep. revert Fi. unfold finished, makeResponse, setDataFromBlock. attrs Hc. cbn [commandInfo snd].
    by intros [= <-].
Qed.

Definition line_write p M a : Z -> list Z := fupd M a (writeDataToBlock (blkSize g) p (M a)).

(** Serving a write and keeping the block. *)
Lemma wp_write_kept M m O O2 a i b c p :
  work M m O O2 a (InTags i) b c -> ready M m O2 a b -> flag 1 b = true -> isReadOnly cfg = false ->
  cpu_req p a -> write_cmd (p_cmd p) -> length (p_data p) = Z.to_nat (p_size p) ->
  wp (serve p (InTags i)) c (fun p' c' => settled (line_write p M a) O c' /\ p' = p).
Proof.
  intros W (F2 & _ & Hd & _) F1 Hro Hp Hc Hl. apply wp_bind. eapply wp_mono; [|by eapply wp_write_served].
  intros p' c' (-> & b' & W' & F3 & S). rewrite Hd in S. apply wp_bind. eapply no_clusivity; [exact W'| |by apply wp_ret].
  destruct Hc as [Hc|Hc]; by attrs Hc.
Qed.

Lemma finished_write p p2 : write_cmd (p_cmd p) ->
  is_Some (makeResponse p) /\ (finished p p2 -> p_cmd p2 = WriteResp).
Proof.
  unfold finished, makeResponse. intros [Hc|Hc]; attrs Hc; cbn [commandInfo snd]; (split; [done|]); by intros [= <-].
Qed.

(** A write of part of a line. *)
Lemma wp_cpu_partial now above M O a c p :
  crep c M O -> dom a -> ~ O a -> cpu_req p a -> p_cmd p = WriteReq -> isReadOnly cfg = false ->
  length (p_data p) = Z.to_nat (p_size p) -> isWholeLineWrite (blkSize g) p = false ->
  wp (base_recvAtomic cfg now above p) c (fun p' c' => p_cmd p' = WriteResp /\ crep c' (line_write p M a) O).
Proof.
  intros Hr Ha Ho Hp Hc Hro Hd Hwh. destruct (cpu_servable p a Hp (or_intror (conj Hc Hro)) Hwh) as (Sv & Hu & Hx & Hal).
  assert (write_cmd (p_cmd p)) as Hw by by left.
  apply (wp_served now above M O a c p (line_write p M a) (fun _ => O) (fun p1 => p1 = p)); try done.
  - intros m r b c1 O2 W Rd F T. destruct r as [i|]; [|destruct (T eq_refl); congruence].
    eapply wp_write_kept; try done. revert F. unfold perm. by attrs Hc.
  - intros p1 -> _. by apply (finished_write p p).
  - intros p1 p2 c' -> Fi Hrep. split; [by apply (finished_write p p2)|done].
Qed.

Lemma whole_data p d : isWholeLineWrite (blkSize g) p = true -> length (p_data p) = Z.to_nat (p_size p) ->
  length d = Z.to_nat blk -> writeDataToBlock (blkSize g) p d = p_data p.
Proof.
  unfold isWholeLineWrite, writeDataToBlock. intros [[_ ->%Z.eqb_eq]%andb_true_iff ->%Z.eqb_eq]%andb_true_iff Hd Hl.
  rewrite (take_ge (p_data p)), drop_ge by (rewrite ?Hblk; lia). cbn. by rewrite app_nil_r.
Qed.

(** The state in which a whole line is about to be written: no permission here. *)
Definition unowned M m O O2 a bl c : Prop :=
  match bl with
  | Some r => r <> Temp /\ exists b, work M m O O2 a r b c /\ line_ok M m O O2 a (Some b) /\ flag 1 b = false
  | None => bare M m O O2 a c /\ line_ok M m O O2 a None /\ c_writebacks c = []
  end.

Lemma unowned_below M m O O2 a bl c : unowned M m O O2 a bl c -> ~ O a -> ~ O2 a /\ Rep blk w dom (c_below c) m O2 /\ dom a.
Proof.
  unfold unowned. intros Hbl Ho. destruct bl as [r|].
  - destruct Hbl as (_ & b & W & L & F). split; [|split; apply W]. destruct (line_ready _ _ _ _ _ _ L Ho) as (_ & R2 & _ & [R4|[_ R4]]); [|done].
    destruct (R2 R4). congruence.
  - destruct Hbl as (Hb & [?|[_ ?]] & _); [done|]. split; [done|]. split; apply Hb.
Qed.

Lemma wp_whole_target now M m O O2 a bl c q (b' : B) :
  unowned M m O O2 a bl c -> Rep blk w dom b' m (add O2 a) -> p_addr q = a -> p_secure q = w ->
  wp (fill_target cfg now q bl true) (with_below b' c) (fun r c' => exists b, work M m O (add O2 a) a r b c' /\ r <> Temp).
Proof.
  intros Hbl Hrep Ea Es.
  assert (forall x, x <> a -> M x = M x /\ m x = m x /\ (O x <-> O x) /\ (add O2 a x <-> O2 x)) as Hoff by (unfold add; naive_solver).
  destruct bl as [r|].
  - destruct Hbl as (Hr & b & W & _). apply wp_ret. exists b. split; [|done]. by eapply work_below; [exact W|..].
  - destruct Hbl as (Hb & _ & Hnil). eapply wp_mono; [|apply (wp_fill_target now M m O (add O2 a) a); try done; by eapply bare_off; [exact Hb|..]].
    intros r c' (b & W & _ & _ & Ht). exists b. split; [done|]. intros E. by specialize (Ht E).
Qed.

(** A write of a whole line that misses, or hits a block without permission: nothing is fetched. *)
Lemma wp_miss_whole now above M m O O2 a c p bl :
  unowned M m O O2 a bl c -> ~ O a -> length (M a) = Z.to_nat blk ->
  cpu_req p a -> p_cmd p = WriteLineReq -> length (p_data p) = Z.to_nat (p_size p) -> isReadOnly cfg = false ->
  isWholeLineWrite (blkSize g) p = true ->
  wp (handleAtomicReqMiss cfg now above p bl) c (fun y c' => settled (line_write p M a) O c' /\ y.2 = p).
Proof.
  intros Hbl Ho HM Hp Hc Hd Hro Hwh. pose proof Hp as [C1 C2 C3 C4 C5 C6]. destruct (unowned_below _ _ _ _ _ _ _ Hbl Ho) as (Ho2 & Hrep & Ha).
  unfold handleAtomicReqMiss. attrs Hc. apply wp_bind.
  assert (exists ob, match bl, ob with Some r, Some b => get_blk r c = Some b /\ blk_valid b = true | None, None => True | _, _ => False end /\
    forall b, ob = Some b -> flag 1 b = false) as (ob & Hob & Hf).
  { destruct bl as [r|]; [|by exists None]. destruct Hbl as (_ & b & W & _ & F). exists (Some b).
    pose proof (wk_cur _ _ _ _ _ _ _ _ W) as (? & ? & _). split; [done|]. by intros ? [= <-]. }
  apply (wp_createMiss a bl ob _ p InvalidateReq); try done; try (by attrs Hc); [by intros b ?%Hf; attrs Hc|by rewrite Hwh|].
  apply wp_bind, wp_bind.
  destruct (rep_invalidate now (snoop_above cfg above c) (miss_pkt InvalidateReq a) (c_below c) m O2 a) as
    (q & b' & Er & [Ec Ea Es Ew] & Hqs & Hqr & Hrep'); try done.
  eapply wp_send; [exact Er|]. cbn in Ec, Ea, Es, Ew. injection Ec as Ec. symmetry in Ec.
  unfold miss_response. apply wp_bind, wp_assert; [by attrs Ec|]. rewrite Hwh.
  assert (allocOnFill cfg (p_cmd p) && write_allocate cfg = true) as ->
    by (unfold allocOnFill; attrs Hc; by rewrite Hwa, orb_true_r).
  apply wp_bind. eapply (wp_handleFill now M m O (add O2 a) a q bl true _ (fun r _ => r <> Temp)); [|done|by right|by apply wp_whole_target|].
  { split; try done; rewrite ?test_attr, Ec; try done; by rewrite Hqr. }
  intros r b c1 W Hr Hbo. destruct r as [i|]; [clear Hr|done].
  assert (blk_valid b = true) as Hv. { pose proof (wk_cur _ _ _ _ _ _ _ _ W) as (_ & V & _). revert V. unfold filled, granted.
    by destruct (testCmdAttrib IsRead q), (hasSharers q), (cacheResponding q). }
  destruct (filled_flags q b Hv) as (V & G2 & G1 & G3 & Gd). rewrite Hqs, orb_true_r in G1.
  assert (length (blk_data (filled q b)) = Z.to_nat blk) as Hfl by apply (wk_cur _ _ _ _ _ _ _ _ W).
  apply wp_bind. eapply wp_mono; [|eapply wp_write_served; try done; by right].
  intros p' c' (-> & b2 & _ & _ & S). apply wp_ret, wp_bind, wp_ret, wp_ret. split; [|done].
  unfold line_write. by rewrite whole_data in * by done.
Qed.

Lemma wp_cpu_whole now above M O a c p :
  crep c M O -> dom a -> ~ O a -> cpu_req p a -> p_cmd p = WriteLineReq -> isReadOnly cfg = false ->
  length (p_data p) = Z.to_nat (p_size p) -> isWholeLineWrite (blkSize g) p = true ->
  wp (base_recvAtomic cfg now above p) c (fun p' c' => p_cmd p' = WriteResp /\ crep c' (line_write p M a) O).
Proof.
  intros Hrep Ha Ho Hp Hc Hro Hd Hwh. pose proof (crep_len _ _ _ _ Hrep Ha Ho) as Hlen.
  destruct Hrep as (m & O2 & CI & Ht & Hnil). assert (write_cmd (p_cmd p)) as Hw by by right.
  apply (wp_request now above (line_write p M a) (fun _ => O) c p (fun p1 => p1 = p)).
  2:{ intros p1 -> _. by apply (finished_write p p). }
  2:{ intros p1 p2 c' -> Fi Hrep. split; [by apply (finished_write p p2)|done]. }
  eapply wp_access; [exact CI|done..|apply Hp|apply Hp|by attrs Hc|by attrs Hc|by rewrite Hro| |].
  - intros c1 Hb L Hn. split; [done|]. by eapply wp_miss_whole.
  - intros c1 i b W L Hn. cbn [fst snd]. unfold perm. attrs Hc. destruct (flag 1 b) eqn:F1.
    + eapply wp_write_kept; try done. by eapply line_ready.
    + split; [done|]. eapply wp_miss_whole; try done. split; [done|]. by exists b.
Qed.

(** Writes: the line with the bytes of the packet. *)
Lemma wp_cpu_write now above M O a c p :
  crep c M O -> dom a -> ~ O a -> cpu_req p a -> p_cmd p = WriteReq -> isReadOnly cfg = false ->
  length (p_data p) = Z.to_nat (p_size p) ->
  wp (cache_recvAtomic cfg now above p) c (fun p' c' => p_cmd p' = WriteResp /\ crep c' (line_write p M a) O).
Proof.
  intros Hrep Ha Ho Hp Hc Hro Hd. pose proof Hp as [C1 C2 C3 C4 C5 C6]. unfold cache_recvAtomic, promoteWholeLineWrites. attrs Hc.
  destruct ((p_size p =? blkSize g) && (getOffset (blkSize g) p =? 0)) eqn:E.
  - cbn [cacheResponding with_cmd]. rewrite C5. apply (wp_cpu_whole now above M O a c (with_cmd WriteLineReq p)); try done.
    apply andb_true_iff in E as [E1 E2]. unfold isWholeLineWrite, getOffset in *. cbn. by rewrite E1, E2.
  - rewrite C5. apply wp_cpu_partial; try done. unfold isWholeLineWrite. attrs Hc. by rewrite andb_comm.
Qed.

(** An empty cache represents what the device below does. *)
Lemma crep_init h (b : B) M : Rep blk w dom b M (fun _ => False) -> crep (mk_cache cfg h b) M (fun _ => False).
Proof.
  intros Hb. exists M, (fun _ => False). split; [|done].
  split; cbn; try done; [|by unfold blk_ok; cbn; rewrite length_replicate, Hblk|lia|by intros p ?%not_elem_of_nil|].
  - apply tagsInit_wf. rewrite Hblk. pose proof blk_pos. lia.
  - intros a Ha _ _. rewrite (tagsInit_line g OK). right. split; [done|]. by intros [].
Qed.
End CacheDevice.
