(* ===== verification/Hierarchy.v ===== *)
(** * A stack of caches is a memory

    Any number of caches over a memory, and a processor that loads and stores through the
    first of them in atomic mode: the loads return what a flat memory of bytes returns, and
    no assertion of the caches fails. *)

From Stdlib Require Import ZArith Lia QArith.
From stdpp Require Import base sets numbers list strings.
From S2P Require Import Prelude Word Memory AssocCache TagStore Cache DeviceSpec CacheStack.

Open Scope Z_scope.

(** ** The processor *)

Inductive cpu_op := Load (addr size : Z) | Store (addr : Z) (data : list Z).

Definition op_addr (o : cpu_op) : Z := match o with Load a _ => a | Store a _ => a end.
Definition op_size (o : cpu_op) : Z := match o with Load _ n => n | Store _ d => Z.of_nat (length d) end.

Definition cpu_pkt (w : bool) (o : cpu_op) : pkt :=
  match o with
  | Load a n => Pkt ReadReq a n w [] false false
  | Store a d => Pkt WriteReq a (Z.of_nat (length d)) w d false false
  end.

(** What the processor sees of a response. *)
Definition loaded (o : cpu_op) (p : pkt) : list (list Z) := match o with Load _ _ => [p_data p] | Store _ _ => [] end.

(** Accesses, each at its tick, through a device; there is no cache above the first one. *)
Fixpoint cpu_run {B} {D : Device B} (w : bool) (l : list (Z * cpu_op)) (b : B) : option (list (list Z) * B) :=
  match l with
  | [] => Some ([], b)
  | (now, o) :: l' =>
      match recvAtomic now (fun _ => false) (cpu_pkt w o) b with
      | Some (p, b') => match cpu_run w l' b' with Some (out, b'') => Some (loaded o p ++ out, b'') | None => None end
      | None => None
      end
  end.

(** The same accesses to a flat memory. *)
Fixpoint flat_run (l : list (Z * cpu_op)) (f : Z -> Z) : list (list Z) :=
  match l with
  | [] => []
  | (_, Load a n) :: l' => load_bytes f a (Z.to_nat n) :: flat_run l' f
  | (_, Store a d) :: l' => flat_run l' (store_bytes f a d)
  end.

(** ** The stack *)

Section Stack.
Context {R : Type} {RP : ReplacementPolicy R}.

Fixpoint stack (l : list cache_cfg) : Type :=
  match l with [] => memory | _ :: l' => cache (stack l') R unit end.

Fixpoint stack_device (l : list cache_cfg) : Device (stack l) :=
  match l with
  | [] => memory_device
  | cfg :: l' => cache_device (D := stack_device l') cfg
  end.

Fixpoint stack_init (l : list cache_cfg) (m : memory) : stack l :=
  match l with
  | [] => m
  | cfg :: l' => mk_cache cfg tt (stack_init l' m)
  end.
End Stack.

(** A level of the stack: all have the same line size. *)
Record level_ok (blk : Z) (cfg : cache_cfg) : Prop := LevelOk {
  lo_tags : tags_ok (cc_tags cfg); lo_blk : blkSize (cc_tags cfg) = blk; lo_alloc : write_allocate cfg = true
}.

(** An access that stays in a line of the memory; a read-only cache gets no stores. *)
Definition op_fits (blk : Z) (m : memory) (cfg : cache_cfg) (o : cpu_op) : bool :=
  let a := op_addr o - op_addr o mod blk in
  (range_start m <=? a) && (a + blk <=? range_start m + range_size m) &&
  (0 <=? op_size o) && (op_addr o mod blk + op_size o <=? blk) &&
  match o with Load _ _ => true | Store _ _ => negb (isReadOnly cfg) end.

(** ** Bytes and lines *)

Lemma lookup_load f a n i : load_bytes f a n !! i = if decide (i < n)%nat then Some (f (a + Z.of_nat i)) else None.
Proof.
  unfold load_bytes. rewrite list_lookup_fmap. case_decide.
  - by rewrite lookup_seq_lt.
  - by rewrite lookup_seq_ge by lia.
Qed.

Lemma length_load f a n : length (load_bytes f a n) = n.
Proof. unfold load_bytes. by rewrite length_map, length_seq. Qed.

Lemma load_slice f a n off k : (off + k <= n)%nat ->
  take k (drop off (load_bytes f a n)) = load_bytes f (a + Z.of_nat off) k.
Proof.
  intros Hn. apply list_eq. intros i. rewrite lookup_load. case_decide.
  - rewrite lookup_take_lt, lookup_drop, lookup_load, decide_True by lia. do 2 f_equal. lia.
  - apply lookup_take_ge. lia.
Qed.

Lemma load_splice f a n off d : (off + length d <= n)%nat ->
  load_bytes (store_bytes f (a + Z.of_nat off) d) a n =
  take off (load_bytes f a n) ++ d ++ drop (off + length d) (load_bytes f a n).
Proof.
  intros Hn. apply list_eq. intros i. rewrite lookup_load. unfold store_bytes.
  destruct (decide (i < off)%nat) as [H1|H1].
  - rewrite lookup_app_l, lookup_take_lt, lookup_load by (rewrite ?length_take, ?length_load; lia).
    rewrite !decide_True by lia. replace (_ && _) with false by (symmetry; apply andb_false_iff; rewrite Z.leb_gt; lia). done.
  - rewrite lookup_app_r by (rewrite length_take, length_load; lia). rewrite length_take, length_load, Nat.min_l by lia.
    destruct (decide (i < off + length d)%nat) as [H2|H2].
    + rewrite lookup_app_l, decide_True by lia.
      replace (_ && _) with true by (symmetry; apply andb_true_iff; rewrite Z.leb_le, Z.ltb_lt; lia).
      replace (Z.to_nat _) with (i - off)%nat by lia. symmetry. apply list_lookup_lookup_total_lt. lia.
    + rewrite lookup_app_r, lookup_drop, lookup_load by lia. replace (off + length d + (i - off - length d))%nat with i by lia.
      case_decide; [|done]. by replace (_ && _) with false by (symmetry; apply andb_false_iff; rewrite Z.leb_gt, Z.ltb_ge; lia).
Qed.

Lemma load_apart f a n x d : a + Z.of_nat n <= x \/ x + Z.of_nat (length d) <= a ->
  load_bytes (store_bytes f x d) a n = load_bytes f a n.
Proof.
  intros Hx. apply list_eq. intros i. rewrite !lookup_load. case_decide; [|done]. unfold store_bytes.
  by replace (_ && _) with false by (symmetry; apply andb_false_iff; rewrite Z.leb_gt, Z.ltb_ge; lia).
Qed.

(** ** The stack keeps the promise *)

Section Transparent.
Context {R : Type} {RP : ReplacementPolicy R} {RPO : ReplacementPolicyOk R}.
Context (blk lo hi : Z) (w : bool) (blk_pos : 0 < blk) (lo_pos : 0 <= lo) (hi_top : hi <= 2 ^ 64).

Definition line_in (a : Z) : Prop := a mod blk = 0 /\ lo <= a /\ a + blk <= hi.
Definition lines (f : Z -> Z) (a : Z) : list Z := load_bytes f a (Z.to_nat blk).

Lemma line_in_addr cfg a : level_ok blk cfg -> line_in a -> line_addr (cc_tags cfg) a.
Proof. intros [_ E _] (H1 & H2 & H3). split; [lia|]. by rewrite E. Qed.

Lemma stack_keeps l m :
  Forall (fun cfg => level_ok blk cfg /\ isReadOnly cfg = false) l ->
  range_start m = lo -> range_start m + range_size m = hi -> writeable m = true ->
  exists ok : @DeviceOk blk w line_in (stack (R := R) l) (stack_device l),
    Rep blk w line_in (DeviceOk := ok) (stack_init l m) (lines (pmem m)) (fun _ => False).
Proof.
  intros Hl E1 E2 E3. induction Hl as [|cfg l [Hc Hro] Hl (ok & IH)].
  - unshelve eexists (memory_ok blk w line_in lo hi blk_pos _); [by intros a|]. by split_and!.
  - pose proof Hc as [K1 K2 K3].
    exists (@cache_ok blk w line_in _ R unit _ ok RP RPO _ _ cfg K1 K2 (fun a => line_in_addr cfg a Hc) Hro).
    by apply (crep_init blk w line_in).
Qed.

(** One access. *)
Context {B : Type} {D : Device B} {BOK : DeviceOk blk w line_in B}.
Context (m : memory) (cfg : cache_cfg) (Hc : level_ok blk cfg) (E1 : range_start m = lo) (E2 : range_start m + range_size m = hi).

Abbreviation rep := (crep (R := R) (H := unit) blk w line_in cfg).

Lemma op_request o : op_fits blk m cfg o = true ->
  line_in (op_addr o - op_addr o mod blk) /\ cpu_req blk w cfg (cpu_pkt w o) (op_addr o - op_addr o mod blk) /\
  op_addr o mod blk + op_size o <= blk /\ 0 <= op_size o /\ match o with Load _ _ => True | Store _ _ => isReadOnly cfg = false end.
Proof.
  destruct Hc as [K1 K2 K3]. unfold op_fits. intros Ho. apply andb_true_iff in Ho as [Ho Hro].
  rewrite !andb_true_iff, !Z.leb_le, E2, E1 in Ho. pose proof (Z.mod_pos_bound (op_addr o) blk blk_pos).
  split; [split; [|lia]|].
  { rewrite Zminus_mod_idemp_r, Z.sub_diag. by apply Z.mod_0_l; lia. }
  assert (p_addr (cpu_pkt w o) = op_addr o /\ p_size (cpu_pkt w o) = op_size o) as [Ha Hs] by by destruct o.
  split; [|split; [lia|split; [lia|]]; destruct o; [done|by apply negb_true_iff in Hro]].
  split; rewrite ?Hs, ?(getOffset_mod blk cfg K1 K2), ?Ha; try lia; try (by destruct o).
  by rewrite (line_of_sub _ K1), K2.
Qed.

Lemma store_lines f x d a : line_in a -> x mod blk + Z.of_nat (length d) <= blk ->
  lines (store_bytes f x d) a = line_write cfg (cpu_pkt w (Store x d)) (lines f) (x - x mod blk) a.
Proof.
  intros (Ha & _) Hn. destruct Hc as [K1 K2 K3]. pose proof (Z.mod_pos_bound x blk blk_pos).
  unfold line_write, lines, fupd, writeDataToBlock. rewrite (getOffset_mod blk cfg K1 K2). cbn [p_addr p_size p_data cpu_pkt].
  case_decide as E.
  - subst a. rewrite (take_ge d) by lia. replace (Z.to_nat (x mod blk + Z.of_nat (length d))) with (Z.to_nat (x mod blk) + length d)%nat by lia.
    rewrite <- load_splice by lia. f_equal. f_equal. lia.
  - apply load_apart. rewrite !Z2Nat.id by lia. apply Z.div_exact in Ha; [|lia]. pose proof (Z.div_mod x blk ltac:(lia)).
    set (q := a / blk) in *. set (q' := x / blk) in *. destruct (Z.lt_trichotomy q q') as [?|[Hq|?]].
    + left. assert (blk * (q + 1) <= blk * q') by nia. lia.
    + exfalso. apply E. rewrite Ha, Hq. lia.
    + right. assert (blk * (q' + 1) <= blk * q) by nia. lia.
Qed.

Lemma load_line f x n : x mod blk + n <= blk -> 0 <= n ->
  p_data (setDataFromBlock (blkSize (cc_tags cfg)) (lines f (x - x mod blk)) (cpu_pkt w (Load x n))) = load_bytes f x (Z.to_nat n).
Proof.
  intros Hn H0. destruct Hc as [K1 K2 K3]. pose proof (Z.mod_pos_bound x blk blk_pos).
  unfold setDataFromBlock. rewrite (getOffset_mod blk cfg K1 K2). cbn [p_addr p_size p_data cpu_pkt with_data]. unfold lines.
  rewrite load_slice by lia. f_equal. lia.
Qed.

Lemma op_step now o c f : op_fits blk m cfg o = true -> rep c (lines f) (fun _ => False) ->
  exists p c', recvAtomic (Device := cache_device cfg) now (fun _ => false) (cpu_pkt w o) c = Some (p, c') /\
    rep c' (lines (match o with Load _ _ => f | Store x d => store_bytes f x d end)) (fun _ => False) /\
    loaded o p = match o with Load x n => [load_bytes f x (Z.to_nat n)] | Store _ _ => [] end.
Proof.
  intros Ho Hrep. destruct (op_request o Ho) as (Ha & Hp & Hn & Hn0 & Hro).
  pose proof Hc as [K1 K2 K3]. pose proof (fun a => line_in_addr cfg a Hc) as Hdom.
  destruct o as [x n|x d]; cbn [op_addr op_size] in *.
  - destruct (wp_run _ _ _ (wp_cpu_read blk w line_in cfg K1 K2 Hdom now (fun _ => false) _ _ _ c _ Hrep Ha ltac:(tauto) Hp eq_refl))
      as (p & c' & E & _ & Hd & Hc').
    exists p, c'. split; [done|]. split; [done|]. cbn [loaded]. by rewrite Hd, load_line.
  - destruct (wp_run _ _ _ (wp_cpu_write blk w line_in cfg K1 K2 Hdom K3 now (fun _ => false) _ _ _ c _ Hrep Ha ltac:(tauto) Hp eq_refl
      Hro ltac:(cbn; lia))) as (p & c' & E & _ & Hc').
    exists p, c'. split; [done|]. split; [|done]. eapply crep_ext; [exact Hc'|]. intros a Hl. by apply store_lines.
Qed.

Lemma run_flat ops c f : Forall (fun x => op_fits blk m cfg x.2 = true) ops -> rep c (lines f) (fun _ => False) ->
  exists c', cpu_run (D := cache_device cfg) w ops c = Some (flat_run ops f, c').
Proof.
  intros Hops. revert c f. induction Hops as [|[now o] ops Ho Hops IH]; intros c f Hrep; [by exists c|].
  destruct (op_step now o c f Ho Hrep) as (p & c' & E & Hrep' & Hl). destruct (IH c' _ Hrep') as [c'' IH'].
  exists c''. cbn [cpu_run flat_run]. rewrite E, IH', Hl. by destruct o.
Qed.
End Transparent.

(** C1 Caches are transparent.  Take any number of caches stacked over a memory, of any
    geometry with one line size and with any replacement policy, starting empty.  Any sequence
    of loads and stores of the processor through the first cache in atomic mode, each within
    a line, completes without a failing assertion, and every load returns the bytes that the
    same accesses to a flat memory return. *)
Theorem hierarchy_transparent {R} {RP : ReplacementPolicy R} {RPO : ReplacementPolicyOk R} blk w cfg l m ops :
  0 < blk -> 0 <= range_start m -> range_start m + range_size m <= 2 ^ 64 -> writeable m = true ->
  level_ok blk cfg -> Forall (fun cfg' => level_ok blk cfg' /\ isReadOnly cfg' = false) l ->
  Forall (fun x => op_fits blk m cfg x.2 = true) ops ->
  exists s, cpu_run (D := stack_device (R := R) (cfg :: l)) w ops (stack_init (cfg :: l) m) = Some (flat_run ops (pmem m), s).
Proof.
  intros Hb H0 H1 Hwr Hc Hl Hops.
  destruct (stack_keeps (R := R) blk (range_start m) (range_start m + range_size m) w Hb H0 H1 l m Hl eq_refl eq_refl Hwr) as [ok Hrep].
  apply (run_flat blk _ _ w Hb H0 H1 (BOK := ok) m cfg Hc eq_refl eq_refl); [done|].
  pose proof Hc as [K1 K2 _]. by eapply crep_init.
Qed.

(** Two levels with two and four sets of two ways over 4 KiB of memory: stores, evictions and
    loads of the written bytes. *)
Definition demo_l1 : cache_cfg := CacheCfg (TagsCfg 16 4 2) false false false true.
Definition demo_l2 : cache_cfg := CacheCfg (TagsCfg 16 8 2) false false true true.
Definition demo_memory : memory := Memory 0 4096 (fun a => a mod 256) true [] [].
Definition demo_ops : list (Z * cpu_op) :=
  [(1, Load 4 4); (2, Store 5 [1; 2]); (3, Load 4 4); (4, Store 64 (replicate 16 7)); (5, Load 36 2);
   (6, Load 100 1); (7, Load 132 1); (8, Load 164 1); (9, Load 196 1); (10, Load 66 3); (11, Load 4 4)].

Lemma demo_level cfg : cfg = demo_l1 \/ cfg = demo_l2 -> level_ok 16 cfg /\ isReadOnly cfg = false.
Proof. by intros [-> | ->]; (split; [split; [split|..]|]; first [by vm_compute | cbn; lia]). Qed.

Lemma hierarchy_transparent_witness :
  (exists s, cpu_run (D := stack_device (R := LRUReplData) [demo_l1; demo_l2]) false demo_ops (stack_init [demo_l1; demo_l2] demo_memory) =
    Some (flat_run demo_ops (pmem demo_memory), s)) /\
  flat_run demo_ops (pmem demo_memory) = [[4; 5; 6; 7]; [4; 1; 2; 7]; [36; 37]; [100]; [132]; [164]; [196]; [7; 7; 7]; [4; 1; 2; 7]].
Proof.
  split; [|by vm_compute]. apply (hierarchy_transparent 16); try done.
  - apply demo_level. by left.
  - constructor; [|constructor]. apply demo_level. by right.
  - by repeat (constructor; [vm_compute; reflexivity|]).
Defined.
