(* ===== verification/ChaosCache.v ===== *)
(** * CHAOSCache

    The injector on a cache (mem/cache/CHAOSCache): attacks on the data bytes of a valid
    block, with a protection model, on instruction fields, and on the metadata of the block
    (tag, valid, dirty, replacement, coherence); a hook that diverts lookups after a tag
    fault and a hook that corrupts writebacks.  The injector is an instance of the hooks of
    the cache model, so that the theorems state what a faulty cache does to the accesses of
    Cache.v. *)

From Stdlib Require Import ZArith Lia QArith.
From Stdlib Require Import Floats.SpecFloat.
From stdpp Require Import base sets numbers list strings.
From S2P Require Import Prelude Word Random EventQueue AttackLoop HookGate Memory ChaosMem AssocCache TagStore Cache DeviceSpec.

Open Scope Z_scope.

(** ** Parameters and state *)

Inductive ProtectionModel := NoProtection | SED | SECDED | SECDEDPoison | ParityInterleaved.

#[global] Instance ProtectionModel_eq_dec : EqDecision ProtectionModel.
Proof. solve_decision. Defined.

Definition stringToProtectionModel (s : string) : ProtectionModel :=
  if String.eqb s "sed" then SED
  else if String.eqb s "secded" then SECDED
  else if String.eqb s "secded_poison" then SECDEDPoison
  else if String.eqb s "parity_interleaved" then ParityInterleaved
  else NoProtection.

(** The parameters as configured. *)
Record ck_config := CkConfig {
  kf_probability : Q; kf_bits : Z; kf_corruption : Z; kf_first_clock : Z; kf_last_clock : Z;
  kf_type : FaultType; kf_mask : Z; kf_ratio : Z;
  kf_flip : spec_float; kf_zero : spec_float; kf_one : spec_float;
  kf_check_cycles : Z; kf_log : bool; kf_block : Z; kf_byte : Z; kf_paired : bool;
  kf_field : string; kf_protection : string; kf_max : Z
}.

(** The members after construction. *)
Record ck_params := CkParams {
  ck_probability : Q; ck_bits : Z; corruption_size : Z; first_tick : Z; last_tick : Z;
  ck_type : FaultType; ck_weights : list spec_float; ck_fault_mask : Z; ck_ratio : Z; ck_log : bool;
  target_block_addr : Z; target_byte_offset : Z; paired_sector : bool;
  target_field : string; protection_model : ProtectionModel; ck_max : Z
}.

(** [fault_mask] is an unsigned char. *)
Definition ck_mask (p : ck_params) : Z := u8 (ck_fault_mask p).

(** The members that change, beside the random engine and the counters. *)
Record ck_inj := CkInj {
  tag_alias_set : nat; victim_way : nat; alias_way : nat; tag_alias_valid : bool;
  ck_attack : evt; ck_periodic : evt;
  ck_permanent : list ((Z * Z) * PermanentFault)
}.

Definition set_alias (s v a : nat) (i : ck_inj) : ck_inj :=
  CkInj s v a true (ck_attack i) (ck_periodic i) (ck_permanent i).
Definition ck_on_attack (f : evt -> evt) (i : ck_inj) : ck_inj :=
  CkInj (tag_alias_set i) (victim_way i) (alias_way i) (tag_alias_valid i) (f (ck_attack i)) (ck_periodic i) (ck_permanent i).
Definition ck_on_periodic (f : evt -> evt) (i : ck_inj) : ck_inj :=
  CkInj (tag_alias_set i) (victim_way i) (alias_way i) (tag_alias_valid i) (ck_attack i) (f (ck_periodic i)) (ck_permanent i).
Definition ck_record (k : Z * Z) (f : PermanentFault) (i : ck_inj) : ck_inj :=
  CkInj (tag_alias_set i) (victim_way i) (alias_way i) (tag_alias_valid i) (ck_attack i) (ck_periodic i)
    (map_assign k f (ck_permanent i)).

Definition is_tag_field (s : string) : bool := String.eqb s "tag" || String.eqb s "tag_to_legal".
Definition is_metadata (s : string) : bool :=
  is_tag_field s || String.eqb s "valid" || String.eqb s "dirty" || String.eqb s "repl" || String.eqb s "coh".

(** ** The hooks *)

Section Hooks.
Context (p : ck_params).

(** [chaosDivertFindBlock] *)
Definition chaosDivertFindBlock (way_of : nat -> nat) (j : ck_inj) (set way : nat) (entries : list nat) (valid : nat -> bool) : option nat :=
  if negb (tag_alias_valid j) || negb (set =? tag_alias_set j)%nat || negb (way =? victim_way j)%nat then None
  else first_of (fun i => (way_of i =? alias_way j)%nat && valid i) entries.

(** The mask of a fault: the configured one or random bits. *)
Definition ck_draw_mask (bits : Z) (g : engine) : Z * engine := mask_or (ck_mask p) (random_mask8 bits 0 7) g.

(** [chaosCorruptWriteback] on the payload [d] of a writeback to address [a]. *)
Definition chaosCorruptWriteback (now a : Z) (d : list Z) : M ck_inj (list Z) :=
  if negb (String.eqb (target_field p) "victim") then ret d
  else if negb (in_window (first_tick p) (last_tick p) now) then ret d
  else
    let! c := get_count in
    if cap_reached (ck_max p) c then ret d
    else
      let! hit := bernoulli (ck_probability p) in
      let size := Z.of_nat (length d) in
      if negb hit || (size =? 0) then ret d
      else
        let! offset := with_rng (uniform_int 0 (size - 1)) in
        let! mask := with_rng (ck_draw_mask (if 0 <? ck_bits p then ck_bits p else 1)) in
        if mask =? 0 then ret d
        else
          let old := d !!! Z.to_nat offset in
          let new := u8 (Z.lxor old mask) in
          do! count_fault numVictimFaults in
          do! log_if (ck_log p) (Entry "victim" [("tick", now); ("addr", a); ("offset", offset); ("old", old); ("new", new); ("mask", mask)]) in
          ret (<[Z.to_nat offset := new]> d).
End Hooks.

(** A cache with the injector attached. *)
Definition ck_hooks (p : ck_params) (g : tags_cfg) : CacheHooks (core * ck_inj) := {|
  divertFindBlock h := chaosDivertFindBlock (blk_way g) h.2;
  corruptWriteback now a d h := chaosCorruptWriteback p now a d h
|}.

(** ** The attack *)

Record ck_state (R : Type) := CkState { ck_tags : table cache_blk R; ck_inj_of : ck_inj }.
Arguments CkState {R}.
Arguments ck_tags {R}.
Arguments ck_inj_of {R}.

Section CHAOSCache.
Context {R : Type} {RP : ReplacementPolicy R} (p : ck_params) (g : tags_cfg).
Abbreviation MK := (M (ck_state R)).
Implicit Types (t : table cache_blk R) (i : nat).

Definition on_tags (f : table cache_blk R -> table cache_blk R) (s : ck_state R) : ck_state R :=
  CkState (f (ck_tags s)) (ck_inj_of s).
Definition on_inj (f : ck_inj -> ck_inj) (s : ck_state R) : ck_state R := CkState (ck_tags s) (f (ck_inj_of s)).
Definition on_blk i (f : cache_blk -> cache_blk) : MK unit := modify (on_tags (on_entry i f)).

(** [forEachBlk] over the valid blocks. *)
Definition valid_blocks t : list nat := filter (fun i => valid_at t i = true) (seq 0 (length t)).

Definition addr_at t i : Z := match entry_at t i with Some b => regenerateBlkAddr g i b | None => 0 end.
Definition blk_at t i : cache_blk :=
  match entry_at t i with Some b => b | None => CacheBlk false false MaxAddr 0 [] end.

(** [applyProtectionModel]: the byte it leaves. *)
Definition applyProtectionModel (orig new mask : Z) : MK Z :=
  if bool_decide (protection_model p = NoProtection) then
    do! bump numRawEscaped in
    do! log_if (ck_log p) (Entry "raw escape" [("mask", mask)]) in
    ret new
  else
    let bits := popcount mask in
    if bits =? 1 then
      do! bump numEccCorrected in
      do! log_if (ck_log p) (Entry "EccCorrected" [("bits", bits); ("mask", mask)]) in
      ret orig
    else if bits =? 2 then
      if bool_decide (protection_model p = SED) || bool_decide (protection_model p = ParityInterleaved) then
        do! bump numLatent in
        do! log_if (ck_log p) (Entry "Latent" [("bits", bits); ("mask", mask)]) in
        ret new
      else
        do! bump numDetectedContained in
        do! log_if (ck_log p) (Entry "Poisoned: DetectedContained" [("bits", bits); ("mask", mask)]) in
        ret new
    else
      do! bump numLatent in
      do! log_if (ck_log p) (Entry "Latent" [("bits", bits); ("mask", mask)]) in
      ret new.

(** [pickSameSetAliasWay]; [None] is -1. *)
Definition alias_candidates t i : list nat :=
  map (blk_way g) (filter (fun j => blk_set g j = blk_set g i /\ blk_way g j <> blk_way g i) (valid_blocks t)).

Definition pickSameSetAliasWay i : MK (option nat) :=
  let! s := get in
  match alias_candidates (ck_tags s) i with
  | [] => ret None
  | l =>
      let! k := with_rng (uniform_int 0 (Z.of_nat (length l) - 1)) in
      ret (Some (l !!! Z.to_nat k))
  end.

(** The fields tag and tag_to_legal: register a false hit. *)
Definition inject_alias (now : Z) i (k : stat) : MK bool :=
  let! o := pickSameSetAliasWay i in
  match o with
  | None => do! log_if (ck_log p) (Entry "tag SKIPPED" [("tick", now); ("set", Z.of_nat (blk_set g i))]) in ret false
  | Some a =>
      do! modify (on_inj (set_alias (blk_set g i) (blk_way g i) a)) in
      do! count_fault k in
      do! log_if (ck_log p) (Entry "tag" [("tick", now); ("victim", Z.of_nat (blk_way g i)); ("alias", Z.of_nat a)]) in
      ret true
  end.

(** The field coh: clear one of the permission bits that are set. *)
Definition inject_coh (now blockAddr : Z) i : MK bool :=
  let! coin := with_rng (uniform_int 0 1) in
  let! s := get in
  let b := blk_at (ck_tags s) i in
  let bit := if negb (coin =? 0) then WritableBit else ReadableBit in
  let bit := if isSet bit b then bit else if bit =? WritableBit then ReadableBit else WritableBit in
  if negb (isSet bit b) then
    do! log_if (ck_log p) (Entry "coh SKIPPED" [("tick", now)]) in ret false
  else
    do! on_blk i (clearCoherenceBits bit) in
    do! count_fault numCohFaults in
    do! log_if (ck_log p) (Entry "coh" [("tick", now); ("addr", blockAddr); ("bit", bit)]) in
    ret true.

Definition injectMetadataFault (now blockAddr : Z) i : MK bool :=
  if String.eqb (target_field p) "tag" then inject_alias now i numTagFaults
  else if String.eqb (target_field p) "tag_to_legal" then inject_alias now i numTagToLegalFaults
  else if String.eqb (target_field p) "valid" then
    do! on_blk i blk_invalidate in
    do! count_fault numValidFaults in
    do! log_if (ck_log p) (Entry "valid" [("tick", now); ("addr", blockAddr)]) in
    ret true
  else if String.eqb (target_field p) "dirty" then
    do! on_blk i (fun b => if isSet DirtyBit b then clearCoherenceBits DirtyBit b else setCoherenceBits DirtyBit b) in
    do! count_fault numDirtyFaults in
    do! log_if (ck_log p) (Entry "dirty" [("tick", now); ("addr", blockAddr)]) in
    ret true
  else if String.eqb (target_field p) "repl" then
    do! modify (on_tags (on_repl i rp_invalidate)) in
    do! count_fault numReplFaults in
    do! log_if (ck_log p) (Entry "repl" [("tick", now); ("addr", blockAddr)]) in
    ret true
  else if String.eqb (target_field p) "coh" then inject_coh now blockAddr i
  else ret false.

(** [data[offset] = f(data[offset])] of block [i]. *)
Definition on_byte i (offset : Z) (f : Z -> Z) : MK unit :=
  on_blk i (fun b => set_data (alter f (Z.to_nat offset) (blk_data b)) b).

Definition byte_of t i (offset : Z) : Z := blk_data (blk_at t i) !!! Z.to_nat offset.

(** The instruction field in a 32-bit word: position and width. *)
Definition field_pos (s : string) : Z * Z :=
  if String.eqb s "rd" then (0, 5)
  else if String.eqb s "rn" then (5, 5)
  else if String.eqb s "rm" then (16, 5)
  else (23, 6).

(** The bits of the mask inside the field, at the position of the field. *)
Definition inword_mask (s : string) (mask : Z) : Z :=
  Z.shiftl (Z.land mask (Z.ones (field_pos s).2)) (field_pos s).1.

(** The path for the fields of an instruction. *)
Definition corrupt_word (now blockAddr : Z) i (byteOffset mask : Z) : MK unit :=
  let off := Z.ldiff byteOffset 3 in
  let inword := inword_mask (target_field p) mask in
  do! for_each [0; 1; 2; 3] (fun b =>
        let fm := Z.land (Z.shiftr inword (8 * b)) 255 in
        whenM (negb (fm =? 0)) (on_byte i (off + b) (fun v => u8 (Z.lxor v fm)))) in
  do! bump numFaultsInjected in
  do! incr_count in
  log_if (ck_log p) (Entry (target_field p) [("tick", now); ("addr", blockAddr); ("inword", inword)]).

(** The [switch] on the fault type: statistics and record of a stuck fault. *)
Definition ck_count (a offset : Z) (f : FaultType) (mask : Z) : MK unit :=
  match f with
  | StuckAtZero =>
      do! bump numStuckAtZero in do! bump numPermanentFaults in modify (on_inj (ck_record (a, offset) (mkPF f mask true)))
  | StuckAtOne =>
      do! bump numStuckAtOne in do! bump numPermanentFaults in modify (on_inj (ck_record (a, offset) (mkPF f mask true)))
  | BitFlip => bump numBitFlips
  | Random => skip
  end.

(** The path for data bytes. *)
Definition corrupt_data (now blockAddr : Z) i (f : FaultType) (byteOffset mask : Z) : MK unit :=
  let! s := get in
  let orig := byte_of (ck_tags s) i byteOffset in
  do! ck_count blockAddr byteOffset f mask in
  let! v := applyProtectionModel orig (u8 (apply_fault f mask orig)) mask in
  do! on_byte i byteOffset (fun _ => v) in
  do! bump numFaultsInjected in
  log_if (ck_log p) (Entry "data" [("tick", now); ("addr", blockAddr); ("offset", byteOffset); ("mask", mask)]).

(** The paired sector gets the same fault, without protection. *)
Definition corrupt_partner (now partnerAddr : Z) (partner : option nat) (f : FaultType) (byteOffset mask : Z) : MK unit :=
  match partner with
  | Some j =>
      do! on_byte j byteOffset (fun v => u8 (apply_fault f mask v)) in
      do! whenM (is_stuck f) (modify (on_inj (ck_record (partnerAddr, byteOffset) (mkPF f mask true)))) in
      do! bump numFaultsInjected in
      log_if (ck_log p) (Entry "PAIRED" [("tick", now); ("addr", partnerAddr); ("offset", byteOffset); ("mask", mask)])
  | None => skip
  end.

(** An iteration of the byte loop. *)
Definition corrupt_byte (now blockAddr : Z) i (partnerAddr : Z) (partner : option nat) (f : FaultType) : MK unit :=
  let! mask := with_rng (ck_draw_mask p (ck_bits p)) in
  let! byteOffset :=
    if (0 <=? target_byte_offset p) && (target_byte_offset p <? blkSize g) then ret (target_byte_offset p)
    else with_rng (uniform_int 0 (blkSize g - 1)) in
  if mask =? 0 then skip
  else if negb (String.eqb (target_field p) "data") then corrupt_word now blockAddr i byteOffset mask
  else
    do! corrupt_data now blockAddr i f byteOffset mask in
    corrupt_partner now partnerAddr partner f byteOffset mask.

(** The block an attack hits: the configured one if it is resident, a random one otherwise. *)
Definition pick_block (now : Z) (l : list nat) : MK nat :=
  let! s := get in
  let want := Z.ldiff (target_block_addr p) (blkSize g - 1) in
  let directed := if target_block_addr p =? 0 then None
                  else first_of (fun i => addr_at (ck_tags s) i =? want) l in
  match directed with
  | Some i => ret i
  | None =>
      do! log_if (ck_log p && negb (target_block_addr p =? 0)) (Entry "NOT resident" [("tick", now)]) in
      let! k := with_rng (uniform_int 0 (Z.of_nat (length l) - 1)) in
      ret (l !!! Z.to_nat k)
  end.

(** The other sector of the pair, if it is resident. *)
Definition pick_partner (now blockAddr : Z) (l : list nat) : MK (option nat) :=
  if paired_sector p then
    let! s := get in
    let o := first_of (fun i => addr_at (ck_tags s) i =? Z.lxor blockAddr (blkSize g)) l in
    do! log_if (ck_log p && bool_decide (o = None)) (Entry "PAIRED-SECTOR WARN" [("tick", now)]) in
    ret o
  else ret None.

(** The end of [injectFault]: the next attack. *)
Definition ck_next (now : Z) : MK unit :=
  do! add_count (corruption_size p) in
  let! n := get_count in
  if cap_reached (ck_max p) n then skip
  else
    let! d := with_rng (geometric (ck_probability p)) in
    let next := u64 (now + u32 (Z.max d 1 * ck_ratio p)) in
    whenM ((next <=? last_tick p) || (last_tick p =? 0)) (modify (on_inj (ck_on_attack (schedule_tick next)))).

Definition injectFault (now : Z) : MK unit :=
  let! s := get in
  do! match valid_blocks (ck_tags s) with
      | [] => skip
      | l =>
          let! i := pick_block now l in
          let blockAddr := addr_at (ck_tags s) i in
          let! partner := pick_partner now blockAddr l in
          let! f := with_rng (choose_fault (ck_type p) (ck_weights p)) in
          if is_metadata (target_field p) then
            let! _ := injectMetadataFault now blockAddr i in skip
          else if String.eqb (target_field p) "victim" then skip
          else for_each (seq 0 (Z.to_nat (corruption_size p)))
                 (fun _ => corrupt_byte now blockAddr i (Z.lxor blockAddr (blkSize g)) partner f)
      end in
  ck_next now.

(** An iteration of [checkPermanent]: the last valid block at the address. *)
Definition last_at t (a : Z) : option nat :=
  last (filter (fun i => addr_at t i = a) (valid_blocks t)).

Definition ck_recheck (e : (Z * Z) * PermanentFault) : MK unit :=
  let! s := get in
  if negb (pf_update e.2) then skip
  else match last_at (ck_tags s) e.1.1 with
       | None => skip
       | Some i => on_byte i e.1.2 (fun v => u8 (reapply_fault (pf_type e.2) (u8 (pf_mask e.2)) v))
       end.

Definition ck_checkPermanent (now : Z) : MK unit :=
  let! s := get in
  for_each (ck_permanent (ck_inj_of s)) ck_recheck.

(** The queue reaches one of the two events. *)
Definition fire_ck_attack (now : Z) : MK unit :=
  let! s := get in
  let e := ck_attack (ck_inj_of s) in
  if negb (scheduled e) then skip
  else do! modify (on_inj (ck_on_attack (fun e => (service_evt e).2))) in whenM (service_evt e).1 (injectFault now).

Definition fire_ck_periodic (now : Z) : MK unit :=
  let! s := get in
  let e := ck_periodic (ck_inj_of s) in
  if negb (scheduled e) then skip
  else do! modify (on_inj (ck_on_periodic (fun e => (service_evt e).2))) in whenM (service_evt e).1 (ck_checkPermanent now).
End CHAOSCache.

(** The constructor, with a probability that is not zero.  The number of bits is drawn
    before the engine is seeded. *)
Definition ck_init (c : ck_config) : M ck_inj ck_params :=
  let! bits := if kf_bits c =? -1 then with_rng (uniform_int 1 8) else ret (kf_bits c) in
  let first := u64 (kf_first_clock c * kf_ratio c) in
  let! _ := if negb (String.eqb (kf_field c) "victim") then
              let! d := with_rng (geometric (kf_probability c)) in
              modify (ck_on_attack (schedule_tick (u64 (first + u32 (d * kf_ratio c)))))
            else skip in
  do! modify (ck_on_periodic (schedule_tick (u64 (first + u64 (kf_check_cycles c * kf_ratio c))))) in
  ret (CkParams (kf_probability c) bits (kf_corruption c) first (u64 (kf_last_clock c * kf_ratio c))
         (kf_type c) (fault_weights (kf_flip c) (kf_zero c) (kf_one c)) (kf_mask c) (kf_ratio c) (kf_log c)
         (kf_block c) (kf_byte c) (kf_paired c) (kf_field c) (stringToProtectionModel (kf_protection c)) (kf_max c)).

(** An event of the injector on the cache it is attached to. *)
Definition on_cache {B R} (m : M (ck_state R) unit) (c : cache B R (core * ck_inj)) : cache B R (core * ck_inj) :=
  let r := (m ((c_hooks c).1, CkState (c_tags c) (c_hooks c).2)).2 in
  with_hooks (r.1, ck_inj_of r.2) (with_tags (ck_tags r.2) c).

(** What happens to the injector and its cache: one of its events fires, the program changes
    the cache, or a block is written back. *)
Inductive ck_action (R : Type) :=
  | FireCkAttack (now : Z) | FireCkPeriodic (now : Z) | CacheUse (f : table cache_blk R -> table cache_blk R)
  | WriteBack (now a : Z) (d : list Z).
Arguments FireCkAttack {R}.
Arguments FireCkPeriodic {R}.
Arguments CacheUse {R}.
Arguments WriteBack {R}.

Definition ck_act {R} {RP : ReplacementPolicy R} (p : ck_params) (g : tags_cfg) (x : ck_action R) : M (ck_state R) unit :=
  match x with
  | FireCkAttack now => fire_ck_attack p g now
  | FireCkPeriodic now => fire_ck_periodic g now
  | CacheUse f => modify (on_tags f)
  | WriteBack now a d => fun cs =>
      let r := (chaosCorruptWriteback p now a d (cs.1, ck_inj_of cs.2)).2 in (tt, (r.1, CkState (ck_tags cs.2) r.2))
  end.

(** * Lemmas *)

(** ** Writebacks *)

(** The payload [d'] is [d] with one byte XORed with a mask. *)
Definition one_byte_flip (d d' : list Z) : Prop :=
  exists (k : nat) (mask : Z), (k < length d)%nat /\ 0 < mask < 2 ^ 8 /\ d' = <[k := u8 (Z.lxor (d !!! k) mask)]> d.

(** When the hook may and when it must corrupt. *)
Definition wb_armed (p : ck_params) (now : Z) (h : core * ck_inj) : bool :=
  String.eqb (target_field p) "victim" && in_window (first_tick p) (last_tick p) now && negb (cap_reached (ck_max p) (count_of h)).

Definition wb_certain (p : ck_params) : Prop := (1 <= ck_probability p)%Q /\ ck_mask p <> 0.

Lemma ck_draw_mask_spec p bits g :
  let m := (ck_draw_mask p bits g).1 in
  0 <= m < 2 ^ 8 /\ (ck_mask p <> 0 -> m = ck_mask p) /\
  (ck_mask p = 0 -> popcount m <= Z.max 0 bits) /\ (0 < bits -> m <> 0).
Proof.
  cbn zeta. unfold ck_draw_mask, mask_or. destruct (Z.eqb_spec (ck_mask p) 0) as [E|E]; cbn [negb fst].
  - destruct (random_mask8_bounds bits 0 7 g) as (H1 & H2 & H3); [lia|lia|]. split; [exact H1|]. split; [done|]. split; [done|exact H3].
  - split_and!; try done; apply Z.mod_pos_bound; lia.
Qed.

Lemma chaosCorruptWriteback_spec p now a d h :
  let r := chaosCorruptWriteback p now a d h in
  r.2.2 = h.2 /\
  ((r.1 = d /\ count_of r.2 = count_of h /\ ~ (wb_armed p now h = true /\ wb_certain p /\ d <> [])) \/
   (one_byte_flip d r.1 /\ count_of r.2 = count_succ (count_of h) /\ wb_armed p now h = true)).
Proof.
  cbn zeta. unfold chaosCorruptWriteback, wb_armed.
  destruct (String.eqb (target_field p) "victim"); cbn [negb andb]; [|split; [done|left; split_and!; try done; naive_solver]].
  destruct (in_window (first_tick p) (last_tick p) now); cbn [negb andb]; [|split; [done|left; split_and!; try done; naive_solver]].
  destruct h as [[g n st lg] j]. rewrite bind_run. cbn [get_count fst snd faults_injected_count count_of].
  unfold count_of. cbn [fst faults_injected_count].
  destruct (cap_reached (ck_max p) n); cbn [negb]; [split; [done|left; split_and!; try done; naive_solver]|].
  rewrite bind_run. destruct (bernoulli_run (ck_probability p) (Core g n st lg, j)) as (b & g' & -> & _ & Hb).
  cbn [fst snd faults_injected_count the_stats the_log].
  destruct (negb b || (Z.of_nat (length d) =? 0)) eqn:E.
  { split; [done|]. left. split_and!; try done. intros (_ & [Hp _] & Hd). rewrite (Hb Hp) in E. by destruct d. }
  apply orb_false_iff in E as [_ E]. apply Z.eqb_neq in E.
  run. set (k := (uniform_int 0 (Z.of_nat (length d) - 1) g').1).
  assert (0 <= k <= Z.of_nat (length d) - 1) as Hk by (apply uniform_int_range; lia).
  set (mask := (ck_draw_mask p _ _).1). destruct (mask =? 0) eqn:Em.
  { split; [done|]. left. split_and!; try done. intros (_ & [_ Hm] & _). apply Z.eqb_eq in Em. revert Em. unfold mask, ck_draw_mask, mask_or.
    by rewrite (proj2 (Z.eqb_neq _ _) Hm). }
  unfold count_fault. exec. split; [done|]. right. split; [|done].
  exists (Z.to_nat k), mask. apply Z.eqb_neq in Em. split; [lia|]. split; [|done].
  match goal with mask := (ck_draw_mask p ?b ?e).1 |- _ => pose proof (proj1 (ck_draw_mask_spec p b e)) end. fold mask in H. lia.
Qed.

Section Faulty.
Context {B R : Type} {D : Device B} {RP : ReplacementPolicy R} (p : ck_params) (cfg : cache_cfg).
Abbreviation g := (cc_tags cfg).
Abbreviation st := (cache B R (core * ck_inj)).
#[local] Instance the_hooks : CacheHooks (core * ck_inj) := ck_hooks p g.
Implicit Types (c : st) (b : cache_blk) (q : pkt).

(** A writeback of a block that may be written back: the packet has the block's data as the
    hook leaves them, and the block keeps its data. *)
Lemma wp_writeback now i b c :
  entry_at (c_tags c) i = Some b -> blk_valid b = true -> isSet DirtyBit b || writebackClean cfg = true ->
  negb (isReadOnly cfg) || writebackClean cfg = true -> length (blk_data b) = Z.to_nat (blkSize g) ->
  wp (writebackBlk cfg now (InTags i)) c (fun q c' =>
    (exists b', entry_at (c_tags c') i = Some b' /\ blk_data b' = blk_data b) /\
    p_addr q = regenerateBlkAddr g i b /\ p_cmd q = (if isSet DirtyBit b then WritebackDirty else WritebackClean) /\
    (p_data q, c_hooks c') = chaosCorruptWriteback p now (regenerateBlkAddr g i b) (blk_data b) (c_hooks c)).
Proof.
  intros He Hv Hd Hro Hl. unfold writebackBlk, blk_addr, deref, set_bits, clear_bits. cbn [get_blk].
  unfold wp, ebind, eassert, eget, emodify, eret, ewhen. cbn [get_blk]. rewrite He, Hro, Hv, Hd. cbn [andb]. rewrite He.
  rewrite take_ge by lia. cbn [corruptWriteback ck_hooks the_hooks].
  destruct (isSet WritableBit b); cbn [upd_blk c_tags with_tags with_hooks c_hooks p_addr p_cmd p_data];
    (split; [|split; [done|split; [done|]]; cbn; by rewrite <- surjective_pairing]);
    cbn; rewrite !entry_at_on_entry, !decide_True by done; rewrite He; cbn; by eexists.
Qed.
(** ** Hits *)

(** A request of the processor that hits block [j]. *)
Lemma wp_hit now above q j b t' c Q :
  accessBlock g (c_hooks c) now (p_key q) (c_tags c) = (Some j, t') -> entry_at t' j = Some b ->
  p_cmd q = ReadReq \/ p_cmd q = WriteReq \/ p_cmd q = WriteLineReq -> c_writebacks c = [] -> isReadOnly cfg && testCmdAttrib IsWrite q = false ->
  isSet (if testCmdAttrib NeedsWritable q then WritableBit else ReadableBit) b = true ->
  wp (satisfyRequest cfg q (InTags j)) (with_tags t' c) (fun q' c' =>
    p_cmd q' = p_cmd q /\ is_Some (get_blk (InTags j) c') /\ c_writebacks c' = [] /\
    forall q'', makeResponse q' = Some q'' -> Q q'' c') ->
  wp (base_recvAtomic cfg now above q) c Q.
Proof.
  intros Ha He Hc Hnil Hro Hs Hsat. unfold base_recvAtomic, base_access.
  apply wp_bind, wp_bind, wp_assert; [by rewrite test_attr; destruct Hc as [-> | [-> | ->]]|].
  apply wp_bind, wp_assert; [by rewrite Hro|]. apply wp_bind, wp_get, wp_bind, wp_modify. rewrite Ha. cbn [fst snd].
  assert (isWriteback q = false) as -> by (unfold isWriteback; destruct Hc as [Hc|[Hc|Hc]]; by attrs Hc).
  rewrite bool_decide_eq_false_2 by (destruct Hc as [-> | [-> | ->]]; done). cbn [fmap option_fmap option_map].
  apply wp_bind, wp_bind. unfold wp at 1, deref. cbn [get_blk c_tags with_tags]. rewrite He. apply wp_ret. rewrite Hs.
  apply wp_bind. eapply wp_mono; [|exact Hsat]. intros q' c' (Hq & [b' Hb'] & Hn & HQ).
  assert (testCmdAttrib FromCache q' = false) as -> by (rewrite test_attr, Hq; destruct Hc as [-> | [-> | ->]]; by vm_compute).
  apply wp_bind. unfold maintainClusivity. apply wp_bind. unfold wp at 1, deref. rewrite Hb'. cbn [andb ewhen]. apply wp_ret, wp_ret.
  apply wp_bind, wp_no_writebacks; [done|]. apply wp_bind, wp_ret, wp_bind, wp_no_writebacks; [done|].
  apply wp_bind. unfold retire_temp. apply wp_bind. unfold wp at 1, deref. cbn [get_blk].
  rewrite bool_decide_eq_false_2 by done. cbn [andb ewhen]. apply wp_ret.
  assert (exists q'', makeResponse q' = Some q'') as [q'' Hq''].
  { unfold makeResponse. destruct Hc as [Hc|[Hc|Hc]]; rewrite Hc in Hq; attrs Hq; cbn; by eexists. }
  assert (testCmdAttrib NeedsResponse q' = true) as -> by (rewrite test_attr, Hq; destruct Hc as [-> | [-> | ->]]; by vm_compute).
  apply (wp_lift _ _ _ _ Hq''). by apply HQ.
Qed.

Lemma wp_sat_read q j b c Q :
  entry_at (c_tags c) j = Some b -> blk_valid b = true -> p_cmd q = ReadReq ->
  getOffset (blkSize g) q + p_size q <= blkSize g -> Q (setDataFromBlock (blkSize g) (blk_data b) q) c ->
  wp (satisfyRequest cfg q (InTags j)) c Q.
Proof.
  intros He Hv Hc Ho HQ. unfold satisfyRequest, base_satisfyRequest. attrs Hc. apply wp_bind, wp_bind, wp_assert; [done|].
  apply wp_bind. unfold wp at 1, deref. cbn [get_blk]. rewrite He. apply wp_bind, wp_assert; [done|].
  apply wp_bind, wp_assert; [by apply Z.leb_le|]. attrs Hc. apply wp_ret. unfold setDataFromBlock. attrs Hc. done.
Qed.

Lemma wp_sat_write q j b c Q :
  entry_at (c_tags c) j = Some b -> p_cmd q = WriteReq \/ p_cmd q = WriteLineReq -> isSet WritableBit b = true ->
  getOffset (blkSize g) q + p_size q <= blkSize g ->
  (forall t', one_change (c_tags c) t' j (setCoherenceBits DirtyBit (set_data (writeDataToBlock (blkSize g) q (blk_data b)) b)) ->
     Q q (with_tags t' c)) ->
  wp (satisfyRequest cfg q (InTags j)) c Q.
Proof.
  intros He Hc Hw Ho HQ. assert (blk_valid b = true) as Hv by (unfold isSet in Hw; by destruct (blk_valid b)).
  assert (testCmdAttrib IsRequest q = true /\ testCmdAttrib IsWrite q = true /\ testCmdAttrib IsRead q = false) as (A1 & A2 & A3)
    by (rewrite !test_attr; destruct Hc as [-> | ->]; by vm_compute).
  unfold satisfyRequest, base_satisfyRequest. rewrite A1, A2. apply wp_bind, wp_bind, wp_assert; [done|].
  apply wp_bind. unfold wp at 1, deref. cbn [get_blk]. rewrite He. apply wp_bind, wp_assert; [done|].
  apply wp_bind, wp_assert; [by apply Z.leb_le|]. apply wp_bind, wp_assert; [done|].
  apply wp_bind, wp_modify. cbn [upd_blk]. set (b1 := set_data (writeDataToBlock (blkSize g) q (blk_data b)) b) in *.
  set (t1 := on_entry j _ (c_tags c)).
  assert (one_change (c_tags c) t1 j b1) as H1 by (by apply (on_entry_change (c_tags c) j (fun b => set_data (writeDataToBlock (blkSize g) q (blk_data b)) b) b)).
  pose proof (change_entry _ _ _ _ H1) as He1. apply wp_bind. unfold set_bits. apply wp_bind. unfold wp at 1, deref. cbn [get_blk c_tags with_tags].
  rewrite He1. apply wp_bind, wp_assert; [done|]. apply wp_modify, wp_ret. rewrite A3. cbn [upd_blk andb c_tags with_tags].
  apply wp_ret. apply (HQ (on_entry j (setCoherenceBits DirtyBit) t1)). eapply change_trans; [exact H1|]. by apply on_entry_change.
Qed.

(** A store of a whole line is promoted; that changes its command only. *)
Lemma promoted q : p_cmd q = WriteReq ->
  let q1 := promoteWholeLineWrites cfg q in
  (p_cmd q1 = WriteReq \/ p_cmd q1 = WriteLineReq) /\ p_key q1 = p_key q /\ cacheResponding q1 = cacheResponding q /\
  getOffset (blkSize g) q1 + p_size q1 = getOffset (blkSize g) q + p_size q /\
  (forall d, writeDataToBlock (blkSize g) q1 d = writeDataToBlock (blkSize g) q d).
Proof. intros Hc. unfold promoteWholeLineWrites. destruct (_ && _); cbn; split_and!; try done; auto. Qed.

(** Loads and stores that hit. *)
Lemma hit_load tick above q j b t' c :
  accessBlock g (c_hooks c) tick (p_key q) (c_tags c) = (Some j, t') -> entry_at t' j = Some b -> c_writebacks c = [] ->
  getOffset (blkSize g) q + p_size q <= blkSize g -> cacheResponding q = false ->
  p_cmd q = ReadReq -> isSet ReadableBit b = true ->
  exists q' c', cache_recvAtomic cfg tick above q c = Some (q', c') /\
    p_data q' = p_data (setDataFromBlock (blkSize g) (blk_data b) q).
Proof.
  intros Ha He Hnil Ho Hr Hc Hs. apply wp_run. unfold cache_recvAtomic, promoteWholeLineWrites. attrs Hc. rewrite Hr.
  assert (blk_valid b = true) as Hv by (unfold isSet in Hs; by destruct (blk_valid b)).
  eapply wp_hit; [exact Ha|exact He|by left|done|by attrs Hc; rewrite andb_false_r|by attrs Hc|].
  eapply wp_sat_read; [exact He|done..|]. split; [done|]. split; [by exists b|]. split; [done|].
  intros q''. unfold makeResponse, setDataFromBlock. attrs Hc. cbn. by intros [= <-].
Qed.

Lemma hit_store tick above q j b t' c :
  accessBlock g (c_hooks c) tick (p_key q) (c_tags c) = (Some j, t') -> entry_at t' j = Some b -> c_writebacks c = [] ->
  getOffset (blkSize g) q + p_size q <= blkSize g -> cacheResponding q = false ->
  p_cmd q = WriteReq -> isSet WritableBit b = true -> isReadOnly cfg = false ->
  exists q' c', cache_recvAtomic cfg tick above q c = Some (q', c') /\
    one_change t' (c_tags c') j (setCoherenceBits DirtyBit (set_data (writeDataToBlock (blkSize g) q (blk_data b)) b)).
Proof.
  intros Ha He Hnil Ho Hr Hc Hs Hro. apply wp_run. unfold cache_recvAtomic.
  destruct (promoted q Hc) as (Hc' & Ek & Er & Eo & Ew). set (q1 := promoteWholeLineWrites cfg q) in *.
  rewrite Er, Hr. rewrite <- Ek in Ha. rewrite <- (Ew (blk_data b)).
  eapply wp_hit; [exact Ha|exact He|by right|done|by rewrite Hro| |].
  { rewrite test_attr. by destruct Hc' as [-> | ->]. }
  eapply wp_sat_write; [exact He|done|done|by rewrite Eo|]. intros t'' H1. split; [done|].
  split; [by eexists; apply (change_entry _ _ _ _ H1)|]. split; [done|]. done.
Qed.
End Faulty.

(** ** False hits *)

Lemma in_valid_blocks {R} (t : table cache_blk R) i : i ∈ valid_blocks t <-> exists b, entry_at t i = Some b /\ blk_valid b = true.
Proof.
  unfold valid_blocks. rewrite list_elem_of_filter, elem_of_seq. unfold valid_at. split.
  - intros [Hv _]. destruct (entry_at t i) as [b|]; [|done]. by exists b.
  - intros (b & He & Hv). rewrite He. split; [done|]. unfold entry_at in He.
    apply fmap_Some in He as (x & Hx & _). apply lookup_lt_Some in Hx. lia.
Qed.

Section Alias.
Context {R : Type} {RP : ReplacementPolicy R} (p : ck_params) (g : tags_cfg) (OK : tags_ok g).
Implicit Types (t : table cache_blk R).

Lemma set_way_inj i j : blk_set g i = blk_set g j -> blk_way g i = blk_way g j -> i = j.
Proof.
  unfold blk_set, blk_way. intros Hs Hw. pose proof (to_assoc g OK).
  rewrite (Nat.div_mod i (tags_assoc g)), (Nat.div_mod j (tags_assoc g)) by lia. by rewrite Hs, Hw.
Qed.

(** With the alias registered, the lookups that match the victim get the alias. *)
Lemma findBlock_diverted h k t i j b :
  ac_findEntry (CE := blk_entry g) (possibleEntries g k) k t = Some i ->
  tag_alias_valid h.2 = true -> tag_alias_set h.2 = blk_set g i -> victim_way h.2 = blk_way g i -> alias_way h.2 = blk_way g j ->
  blk_set g j = blk_set g i -> (j < num_blks g)%nat -> entry_at t j = Some b -> blk_valid b = true ->
  findBlock (CH := ck_hooks p g) g h k t = Some j.
Proof.
  intros Hf A1 A2 A3 A4 Hs Hj He Hv. unfold findBlock. rewrite Hf. cbn [divertFindBlock ck_hooks]. unfold chaosDivertFindBlock.
  rewrite A1, A2, A3, !Nat.eqb_refl. cbn [negb orb].
  assert (valid_at t j = true) as Hvj by (unfold valid_at; by rewrite He).
  apply first_of_Some in Hf as [Hi _]. destruct k as [x w]. apply (possible_in g OK w) in Hi as [_ Hi].
  assert (j ∈ possibleEntries g (x, w)) as Hin by (apply (possible_in g OK w); split; [done|by rewrite Hs]).
  destruct (first_of _ _) as [j'|] eqn:Ef.
  - apply first_of_Some in Ef as [Hj' Ht]. apply (possible_in g OK w) in Hj' as [_ Hj']. apply andb_true_iff in Ht as [Hw _].
    apply Nat.eqb_eq in Hw. f_equal. apply set_way_inj; [|congruence]. rewrite Hs. apply Nat2Z.inj. congruence.
  - pose proof (first_of_None _ _ _ Ef Hin) as Hn. cbn beta in Hn. by rewrite A4, Nat.eqb_refl, Hvj in Hn.
Qed.

(** The attack on a tag: registers another valid way of the set, if there is one. *)
Lemma inject_alias_spec now i k c (s : ck_state R) :
  let r := inject_alias p g now i k (c, s) in
  ck_tags r.2.2 = ck_tags s /\
  if bool_decide (alias_candidates g (ck_tags s) i = []) then r.1 = false /\ ck_inj_of r.2.2 = ck_inj_of s
  else r.1 = true /\ exists j b, entry_at (ck_tags s) j = Some b /\ blk_valid b = true /\
    blk_set g j = blk_set g i /\ blk_way g j <> blk_way g i /\
    ck_inj_of r.2.2 = set_alias (blk_set g i) (blk_way g i) (blk_way g j) (ck_inj_of s).
Proof.
  cbn zeta. unfold inject_alias, pickSameSetAliasWay. destruct c as [gn n st lg]. run.
  destruct (alias_candidates g (ck_tags s) i) as [|w l] eqn:El.
  - rewrite bool_decide_eq_true_2 by done. exec. done.
  - rewrite bool_decide_eq_false_2 by done. unfold count_fault. exec. split; [done|]. split; [done|].
    set (L := w :: l) in *. pose proof (uniform_int_range 0 (Z.of_nat (length L) - 1) gn ltac:(cbn; lia)) as Hk.
    set (v := (uniform_int 0 (Z.of_nat (length L) - 1) gn).1) in *.
    assert (L !!! Z.to_nat v ∈ L) as Hin by (apply list_elem_of_lookup_total_2; lia).
    rewrite <- El in Hin at 2. unfold alias_candidates in Hin. apply list_elem_of_fmap in Hin as (j & Hw & Hj).
    apply list_elem_of_filter in Hj as ((Hs & Hne) & (b & He & Hv)%in_valid_blocks). exists j, b. by rewrite Hw.
Qed.
End Alias.

(** ** Permission faults *)

(** A load that matches a valid block without read permission fails. *)
Lemma unreadable_fails {B R} {D : Device B} {RP : ReplacementPolicy R} {H} {CH : CacheHooks H} cfg tick above q i b t' (c : cache B R H) :
  accessBlock (cc_tags cfg) (c_hooks c) tick (p_key q) (c_tags c) = (Some i, t') -> entry_at t' i = Some b ->
  blk_valid b = true -> isSet ReadableBit b = false -> p_cmd q = ReadReq -> cacheResponding q = false -> c_writebacks c = [] ->
  cache_recvAtomic cfg tick above q c = None.
Proof.
  intros Ha He Hv Hs Hc Hr Hnil. unfold cache_recvAtomic, promoteWholeLineWrites. attrs Hc. rewrite Hr.
  unfold base_recvAtomic, base_access, isWriteback. attrs Hc. rewrite andb_false_r. unfold ebind, eassert, eget, emodify. cbn [negb].
  rewrite Ha. cbn [fst snd fmap option_fmap option_map]. unfold deref. cbn [get_blk c_tags with_tags]. rewrite He, Hs. unfold eret.
  unfold doWritebacksAtomic, ebind, eget, emodify. cbn [c_writebacks with_tags]. rewrite Hnil. cbn [doWritebacks]. unfold eret.
  unfold handleAtomicReqMiss, createMissPacket, isWholeLineWrite. attrs Hc. unfold ebind, eassert, deref, eret.
  cbn [get_blk c_tags with_tags with_writebacks]. by rewrite He, Hv.
Qed.

(** A device that answers a request for permission answers at the address it was asked for. *)
Definition permits_in_place {B} (D : Device B) : Prop := forall tick above x m x' m',
  recvAtomic tick above x m = Some (x', m') -> cacheResponding x = false -> p_cmd x = UpgradeReq \/ p_cmd x = InvalidateReq ->
  p_addr x' = p_addr x /\ (p_cmd x = UpgradeReq -> p_cmd x' = UpgradeResp).

Lemma memory_permits : permits_in_place memory_device.
Proof.
  intros tick above x m x' m' Hx Hr Hc. revert Hx. unfold recvAtomic, memory_device. rewrite Hr.
  destruct Hc as [Hc|Hc]; attrs Hc; destruct (in_range _ _ _); cbn [negb]; try done;
    unfold makeResponse; attrs Hc; cbn; intros [= <- _]; (split; [done|]); rewrite ?Hc; done.
Qed.

(** A store that matches a valid block without write permission asks for it; if the block
    holds another line than the packet is for, the fill fails. *)
Lemma fill_wrong_line {B R} {RP : ReplacementPolicy R} {H} {CH : CacheHooks H} cfg tick x j b alloc (c : cache B R H) :
  entry_at (c_tags c) j = Some b -> regenerateBlkAddr (cc_tags cfg) j b <> p_addr x ->
  handleFill cfg tick x (Some (InTags j)) alloc c = None.
Proof.
  intros He Hne. unfold handleFill, fill_target, blk_addr, deref, ebind, eassert, eget, eret. cbn [get_blk].
  destruct (testCmdAttrib IsResponse x); [|done]. destruct (p_addr x =? _); [|done]. rewrite He.
  rewrite He. destruct (blk_valid b); [|done]. destruct (Bool.eqb _ _); [|done]. by rewrite (proj2 (Z.eqb_neq _ _) Hne).
Qed.

Lemma unwritable_fails {B R} {D : Device B} {RP : ReplacementPolicy R} {H} {CH : CacheHooks H} cfg tick above q j b t' (c : cache B R H) :
  accessBlock (cc_tags cfg) (c_hooks c) tick (p_key q) (c_tags c) = (Some j, t') -> entry_at t' j = Some b ->
  blk_valid b = true -> isSet WritableBit b = false -> p_cmd q = WriteReq -> cacheResponding q = false -> c_writebacks c = [] ->
  permits_in_place D -> regenerateBlkAddr (cc_tags cfg) j b <> getBlockAddr (blkSize (cc_tags cfg)) q ->
  cache_recvAtomic cfg tick above q c = None.
Proof.
  intros Ha He Hv Hs Hc Hr Hnil HD Hne. unfold cache_recvAtomic.
  assert (let q1 := promoteWholeLineWrites cfg q in (p_cmd q1 = WriteReq \/ p_cmd q1 = WriteLineReq) /\ p_key q1 = p_key q /\
    cacheResponding q1 = false /\ getBlockAddr (blkSize (cc_tags cfg)) q1 = getBlockAddr (blkSize (cc_tags cfg)) q) as (Hc' & Ek & Er & Eb)
    by (unfold promoteWholeLineWrites; destruct (_ && _); cbn; split_and!; auto).
  set (q1 := promoteWholeLineWrites cfg q) in *. rewrite Er, <- Ek, <- Eb in *. clearbody q1. clear Hc Hr Ek Eb.
  unfold base_recvAtomic, base_access, isWriteback.
  assert (testCmdAttrib IsRequest q1 = true /\ testCmdAttrib IsEviction q1 = false /\ testCmdAttrib NeedsWritable q1 = true /\
    testCmdAttrib NeedsResponse q1 = true /\ testCmdAttrib IsUpgrade q1 = false /\ bool_decide (p_cmd q1 = CleanEvict) = false /\
    bool_decide (p_cmd q1 = InvalidateReq) = false)
    as (A1 & A2 & A3 & A4 & A5 & A6 & A7) by (rewrite !test_attr; destruct Hc' as [-> | ->]; by vm_compute).
  rewrite A1, A2, A3, A6. cbn [andb]. unfold ebind, eassert, eget, emodify. destruct (negb _); [|done].
  rewrite Ha. cbn [fst snd fmap option_fmap option_map]. unfold deref. cbn [get_blk c_tags with_tags]. rewrite He, Hs. unfold eret.
  unfold doWritebacksAtomic, ebind, eget, emodify. cbn [c_writebacks with_tags]. rewrite Hnil. cbn [doWritebacks]. unfold eret.
  unfold handleAtomicReqMiss, createMissPacket. rewrite A2, A3, A4, A5, A7. cbn [negb andb orb]. unfold ebind, eassert, deref, eret, sendAtomic, elift.
  cbn [get_blk c_tags with_tags with_writebacks]. rewrite He, Hv, Hs. cbn [negb andb orb]. unfold ebind, eassert, eret, eget, emodify.
  destruct (negb _ || _); [|done].
  assert (forall x' m' bus, recvAtomic tick (snoop_above cfg above (with_writebacks [] (with_tags t' c))) bus (c_below c) = Some (x', m') ->
    p_addr bus = getBlockAddr (blkSize (cc_tags cfg)) q1 -> cacheResponding bus = false ->
    p_cmd bus = (if isWholeLineWrite (blkSize (cc_tags cfg)) q1 then InvalidateReq else UpgradeReq) ->
    miss_response cfg tick q1 (Some (InTags j)) x' (with_below m' (with_writebacks [] (with_tags t' c))) = None) as Hmiss.
  { intros x' m' bus Hx Hb Hbr Hcmd. destruct (HD _ _ _ _ _ _ Hx Hbr) as [Hadr Hup]; [rewrite Hcmd; case_match; auto|].
    unfold miss_response, ebind, eassert. destruct (testCmdAttrib IsResponse x'); [|done].
    destruct (isWholeLineWrite _ q1); [|rewrite (Hup Hcmd), orb_true_r]; by rewrite (fill_wrong_line _ _ _ _ b); rewrite ?Hadr, ?Hb. }
  destruct (isWholeLineWrite _ q1); cbn [c_below with_writebacks with_tags];
    (match goal with |- context [recvAtomic ?t ?a ?b ?m] => destruct (recvAtomic t a b m) as [[x' m']|] eqn:Ex end; [|done]);
    cbn [fst snd]; by rewrite (Hmiss _ _ _ Ex).
Qed.

(** The lookup of a key is not changed by a change of permissions. *)
Lemma find_clear {R} g k bits i (t : table cache_blk R) l :
  ac_findEntry (CE := blk_entry g) l k (on_entry i (clearCoherenceBits bits) t) = ac_findEntry (CE := blk_entry g) l k t.
Proof.
  apply first_of_ext. intros j. rewrite entry_at_on_entry. case_decide as E; [subst j|done]. by destruct (entry_at t i).
Qed.

(** A coherence attack on a block that is readable but not writable. *)
Lemma inject_coh_read {R} {RP : ReplacementPolicy R} p now a i b c (s : ck_state R) :
  entry_at (ck_tags s) i = Some b -> isSet ReadableBit b = true -> isSet WritableBit b = false ->
  let r := inject_coh p now a i (c, s) in
  ck_tags r.2.2 = on_entry i (clearCoherenceBits ReadableBit) (ck_tags s) /\ ck_inj_of r.2.2 = ck_inj_of s.
Proof.
  intros He Hr Hw. cbn zeta. unfold inject_coh. destruct c as [gn n st lg]. run. unfold blk_at. rewrite He.
  destruct (negb (_ =? 0)); cbn [negb]; rewrite ?Hw, ?Hr; cbn; rewrite ?Hr; cbn [negb]; unfold on_blk, count_fault; exec; done.
Qed.

(** ** Data faults *)

(** The protection model takes the fault back. *)
Definition ck_corrected (p : ck_params) (mask : Z) : bool :=
  negb (bool_decide (protection_model p = NoProtection)) && (popcount mask =? 1).

Section Attack.
Context {R : Type} {RP : ReplacementPolicy R} (p : ck_params) (g : tags_cfg).
Implicit Types (s : ck_state R) (c : core).

Lemma applyProtectionModel_spec orig new mask c s : exists c',
  applyProtectionModel p orig new mask (c, s) = (if ck_corrected p mask then orig else new, (c', s)) /\
  faults_injected_count c' = faults_injected_count c.
Proof.
  destruct c as [gn n st lg]. unfold applyProtectionModel, ck_corrected.
  destruct (bool_decide (protection_model p = NoProtection)); cbn [negb andb]; [exec; by eexists|].
  destruct (popcount mask =? 1); [exec; by eexists|]. destruct (popcount mask =? 2); [|exec; by eexists].
  destruct (_ || _); exec; by eexists.
Qed.

(** The configured block if it is resident, some block of the list otherwise. *)
Lemma pick_block_spec now l c s : l <> [] ->
  exists i c', pick_block p g now l (c, s) = (i, (c', s)) /\ i ∈ l /\ faults_injected_count c' = faults_injected_count c /\
    (target_block_addr p <> 0 -> forall j, j ∈ l -> addr_at g (ck_tags s) j = Z.ldiff (target_block_addr p) (blkSize g - 1) ->
     addr_at g (ck_tags s) i = Z.ldiff (target_block_addr p) (blkSize g - 1)).
Proof.
  intros Hl. destruct c as [gn n st lg]. unfold pick_block. run. set (want := Z.ldiff _ _).
  set (dir := if target_block_addr p =? 0 then None else _).
  assert (forall j, dir = None -> target_block_addr p <> 0 -> j ∈ l -> addr_at g (ck_tags s) j <> want) as Hnone.
  { intros j Hd Ht Hj Ha. unfold dir in Hd. rewrite (proj2 (Z.eqb_neq _ _) Ht) in Hd.
    pose proof (first_of_None _ _ _ Hd Hj) as Hn. cbn in Hn. by apply Z.eqb_neq in Hn. }
  destruct dir as [i|] eqn:Ed.
  - exists i. eexists. split; [done|]. unfold dir in Ed. destruct (target_block_addr p =? 0); [done|].
    apply first_of_Some in Ed as [Hi Ha]. split; [done|]. split; [done|]. intros _ j _ _. by apply Z.eqb_eq.
  - logs. eexists _, _. split; [done|]. split; [|split; [done|]].
    + apply list_elem_of_lookup_total_2. assert (0 < length l)%nat by (destruct l; [done|cbn; lia]).
      pose proof (uniform_int_range 0 (Z.of_nat (length l) - 1) gn ltac:(lia)). lia.
    + intros Ht j Hj Ha. by destruct (Hnone j eq_refl Ht Hj).
Qed.

(** Byte [o] of block [i], the line at [a], is attacked: what becomes of the cache and of the
    record of stuck faults. *)
Definition attacked_tags i (o : Z) (f : FaultType) (mask : Z) (t : table cache_blk R) : table cache_blk R :=
  let old := byte_of t i o in
  on_entry i (fun b => set_data (alter (fun _ => if ck_corrected p mask then old else u8 (apply_fault f mask old))
                                   (Z.to_nat o) (blk_data b)) b) t.

Definition attacked_inj (a o : Z) (f : FaultType) (mask : Z) (j : ck_inj) : ck_inj :=
  if is_stuck f then ck_record (a, o) (mkPF f mask true) j else j.

Lemma corrupt_data_spec now a i f o mask c s : exists c',
  corrupt_data p now a i f o mask (c, s) =
    (tt, (c', CkState (attacked_tags i o f mask (ck_tags s)) (attacked_inj a o f mask (ck_inj_of s)))) /\
  faults_injected_count c' = faults_injected_count c.
Proof.
  unfold corrupt_data, attacked_tags, attacked_inj. rewrite !bind_run. cbn [get fst snd].
  set (old := byte_of (ck_tags s) i o). set (new := u8 _).
  assert (exists c1, ck_count a o f mask (c, s) = (tt, (c1, CkState (ck_tags s) (if is_stuck f then ck_record (a, o) (mkPF f mask true) (ck_inj_of s) else ck_inj_of s))) /\
    faults_injected_count c1 = faults_injected_count c) as (c1 & -> & H1).
  { destruct c as [gn n st lg], s as [t j]. unfold ck_count. destruct f; exec; by eexists. }
  rewrite ?bind_run. cbn [fst snd]. destruct (applyProtectionModel_spec old new mask c1
    (CkState (ck_tags s) (if is_stuck f then ck_record (a, o) (mkPF f mask true) (ck_inj_of s) else ck_inj_of s))) as (c2 & -> & H2).
  destruct c2 as [gn n st lg]. cbn [fst snd faults_injected_count] in *. rewrite ?bind_run. unfold on_byte, on_blk. exec. eexists. split; [done|].
  cbn. congruence.
Qed.

(** The paired sector [k], the line at [pa], gets the fault past the protection model. *)
Definition partner_tags k (o : Z) (f : FaultType) (mask : Z) (t : table cache_blk R) : table cache_blk R :=
  on_entry k (fun b => set_data (alter (fun v => u8 (apply_fault f mask v)) (Z.to_nat o) (blk_data b)) b) t.

Definition partner_of (a : Z) s : option nat :=
  if paired_sector p then first_of (fun k => addr_at g (ck_tags s) k =? Z.lxor a (blkSize g)) (valid_blocks (ck_tags s)) else None.

(** A byte offset and a mask as an attack may draw them. *)
Definition hit_ok (h : Z * Z) : Prop :=
  0 <= h.1 < blkSize g /\ (0 <= target_byte_offset p < blkSize g -> h.1 = target_byte_offset p) /\
  0 <= h.2 < 2 ^ 8 /\ (ck_mask p <> 0 -> h.2 = ck_mask p) /\
  (ck_mask p = 0 -> popcount h.2 <= Z.max 0 (ck_bits p)) /\ (0 < ck_bits p -> h.2 <> 0).

(** What such a byte does to block [i], its partner and the record of stuck faults. *)
Definition hit_state (a : Z) i (partner : option nat) (f : FaultType) s (h : Z * Z) : ck_state R :=
  if h.2 =? 0 then s
  else
    let t := attacked_tags i h.1 f h.2 (ck_tags s) in
    let j := attacked_inj a h.1 f h.2 (ck_inj_of s) in
    match partner with
    | Some k => CkState (partner_tags k h.1 f h.2 t) (attacked_inj (Z.lxor a (blkSize g)) h.1 f h.2 j)
    | None => CkState t j
    end.

Lemma corrupt_partner_spec now pa partner f o mask c t j : exists c',
  corrupt_partner p now pa partner f o mask (c, CkState t j) =
    (tt, (c', match partner with
              | Some k => CkState (partner_tags k o f mask t) (attacked_inj pa o f mask j)
              | None => CkState t j end)) /\
  faults_injected_count c' = faults_injected_count c.
Proof.
  destruct c as [gn n st lg]. unfold corrupt_partner. destruct partner as [k|]; [|by eexists].
  unfold on_byte, on_blk, attacked_inj. destruct f; cbn [is_stuck whenM]; exec; by eexists.
Qed.

Definition set_rng (e : engine) (c : core) : core := Core e (faults_injected_count c) (the_stats c) (the_log c).

Lemma with_rng_run {A} (f : engine -> A * engine) (c : core) s : with_rng f (c, s) = ((f (rng c)).1, (set_rng (f (rng c)).2 c, s)).
Proof. unfold with_rng, set_rng. by destruct (f (rng c)). Qed.

Lemma byte_offset_spec (c : core) s : 0 < blkSize g -> exists o c',
  (if (0 <=? target_byte_offset p) && (target_byte_offset p <? blkSize g) then ret (target_byte_offset p)
   else with_rng (uniform_int 0 (blkSize g - 1))) (c, s) = (o, (c', s)) /\
  faults_injected_count c' = faults_injected_count c /\
  0 <= o < blkSize g /\ (0 <= target_byte_offset p < blkSize g -> o = target_byte_offset p).
Proof.
  intros Hb. destruct ((0 <=? target_byte_offset p) && (target_byte_offset p <? blkSize g)) eqn:E.
  - apply andb_true_iff in E as [E1%Z.leb_le E2%Z.ltb_lt]. by exists (target_byte_offset p), c.
  - rewrite with_rng_run. pose proof (uniform_int_range 0 (blkSize g - 1) (rng c) ltac:(lia)). eexists _, _.
    split; [done|]. split; [done|]. split; [lia|]. intros [H1 H2]. apply andb_false_iff in E as [E%Z.leb_gt|E%Z.ltb_ge]; lia.
Qed.

Lemma corrupt_byte_spec now a i partner f c s :
  target_field p = "data" -> 0 < blkSize g ->
  exists h c', corrupt_byte p g now a i (Z.lxor a (blkSize g)) partner f (c, s) = (tt, (c', hit_state a i partner f s h)) /\
    faults_injected_count c' = faults_injected_count c /\ hit_ok h.
Proof.
  intros Hf Hb. unfold corrupt_byte. rewrite bind_run.
  pose proof (ck_draw_mask_spec p (ck_bits p) (rng c)) as Hm. cbn zeta in Hm. rewrite with_rng_run. cbn [fst snd].
  set (mask := (ck_draw_mask p (ck_bits p) (rng c)).1) in *. rewrite bind_run, Hf. change (String.eqb "data" "data") with true. cbn [negb].
  destruct (byte_offset_spec (set_rng (ck_draw_mask p (ck_bits p) (rng c)).2 c) s Hb) as (o & c1 & -> & N1 & Ho & Hdir). cbn [fst snd].
  exists (o, mask). unfold hit_ok, hit_state. cbn [fst snd]. destruct (mask =? 0); [by exists c1|].
  rewrite bind_run. destruct (corrupt_data_spec now a i f o mask c1 s) as (c2 & -> & N2). cbn [fst snd].
  destruct (corrupt_partner_spec now (Z.lxor a (blkSize g)) partner f o mask c2 (attacked_tags i o f mask (ck_tags s))
    (attacked_inj a o f mask (ck_inj_of s))) as (c3 & -> & N3).
  exists c3. split; [done|]. split; [by rewrite N3, N2, N1|done].
Qed.

Lemma corrupt_bytes_spec now a i partner f l : target_field p = "data" -> 0 < blkSize g -> forall c s,
  exists hits c', for_each l (fun _ : nat => corrupt_byte p g now a i (Z.lxor a (blkSize g)) partner f) (c, s) =
      (tt, (c', foldl (hit_state a i partner f) s hits)) /\
    length hits = length l /\ Forall hit_ok hits /\ faults_injected_count c' = faults_injected_count c.
Proof.
  intros Hf Hb. induction l as [|x l IH]; intros c s; cbn [for_each]; [by exists [], c|]. rewrite bind_run.
  destruct (corrupt_byte_spec now a i partner f c s Hf Hb) as (h & c1 & -> & N1 & Hh). cbn [fst snd].
  destruct (IH c1 (hit_state a i partner f s h)) as (hits & c2 & -> & Hl & Hok & N2).
  exists (h :: hits), c2. split; [done|]. split; [cbn; by rewrite Hl|]. split; [by constructor|congruence].
Qed.

Lemma pick_partner_spec now a c s : exists c',
  pick_partner p g now a (valid_blocks (ck_tags s)) (c, s) = (partner_of a s, (c', s)) /\
  faults_injected_count c' = faults_injected_count c.
Proof.
  destruct c as [gn n st lg]. unfold pick_partner, partner_of. destruct (paired_sector p); [|by eexists]. exec. by eexists.
Qed.

Lemma ck_next_spec now c s :
  let r := ck_next p now (c, s) in
  ck_tags r.2.2 = ck_tags s /\ ck_permanent (ck_inj_of r.2.2) = ck_permanent (ck_inj_of s) /\
  faults_injected_count r.2.1 = (faults_injected_count c + corruption_size p) mod 2 ^ 64 /\
  (cap_reached (ck_max p) (faults_injected_count r.2.1) = true -> ck_inj_of r.2.2 = ck_inj_of s).
Proof.
  cbn zeta. destruct c as [gn n st lg], s as [t j]. unfold ck_next. run.
  destruct (cap_reached (ck_max p) _) eqn:E; [done|]. run. unfold whenM. destruct (_ || _); cbn; split_and!; try done; by rewrite E.
Qed.
End Attack.

(** C28 A fault in the writeback path.  When a cache with the injector attached writes a block
    back, the block itself keeps its data, and the packet that goes down carries the data of
    the block, or those data with exactly one byte XORed with a non-zero mask.  The second
    happens only for targetField victim, inside the window and below the cap, counts one
    fault, and is certain there if the probability is 1 and a mask is configured. *)
Theorem victim_fault_in_flight {B R} {RP : ReplacementPolicy R} p cfg now i b (c : cache B R (core * ck_inj)) :
  entry_at (c_tags c) i = Some b -> blk_valid b = true -> isSet DirtyBit b || writebackClean cfg = true ->
  negb (isReadOnly cfg) || writebackClean cfg = true -> length (blk_data b) = Z.to_nat (blkSize (cc_tags cfg)) ->
  exists q c' b', writebackBlk (CH := ck_hooks p (cc_tags cfg)) cfg now (InTags i) c = Some (q, c') /\
    entry_at (c_tags c') i = Some b' /\ blk_data b' = blk_data b /\
    ((p_data q = blk_data b /\ count_of (c_hooks c') = count_of (c_hooks c) /\
      ~ (wb_armed p now (c_hooks c) = true /\ wb_certain p /\ blk_data b <> [])) \/
     (one_byte_flip (blk_data b) (p_data q) /\ count_of (c_hooks c') = count_succ (count_of (c_hooks c)) /\
      wb_armed p now (c_hooks c) = true)).
Proof.
  intros He Hv Hd Hro Hl.
  destruct (wp_run _ _ _ (wp_writeback p cfg now i b c He Hv Hd Hro Hl)) as (q & c' & E & (b' & Hb' & Hd') & _ & _ & Hq).
  exists q, c', b'. split; [done|]. split; [done|]. split; [done|].
  pose proof (chaosCorruptWriteback_spec p now (regenerateBlkAddr (cc_tags cfg) i b) (blk_data b) (c_hooks c)) as [_ Hs].
  rewrite <- Hq in Hs. exact Hs.
Qed.

(** C16 A tag fault is a false hit.  After an attack on the tag of block [i], whose set has
    another valid block, the accesses of the processor that match block [i] go to another
    valid block [j] of the set.  A load returns the bytes of [j] if [j] may be read, and fails
    an assertion otherwise.  A store to a cache that is not read-only goes to [j], leaving
    block [i] as it was, if [j] may be written; otherwise, [j] holding another line and the
    device below answering requests for permission at their own address, it fails an
    assertion: the fill finds the wrong line in the block. *)
Theorem tag_fault_false_hit {B R} {D : Device B} {RP : ReplacementPolicy R} p cfg now a i (c : cache B R (core * ck_inj)) :
  let g := cc_tags cfg in
  let c1 := on_cache (let! _ := injectMetadataFault p g now a i in skip) c in
  tags_ok g -> length (c_tags c) = num_blks g -> c_writebacks c = [] -> is_tag_field (target_field p) = true ->
  alias_candidates g (c_tags c) i <> [] ->
  exists j b, j <> i /\ blk_set g j = blk_set g i /\ entry_at (c_tags c) j = Some b /\ blk_valid b = true /\
  forall tick above q, ac_findEntry (CE := blk_entry g) (possibleEntries g (p_key q)) (p_key q) (c_tags c) = Some i ->
    getOffset (blkSize g) q + p_size q <= blkSize g -> cacheResponding q = false ->
    let r := cache_recvAtomic (CH := ck_hooks p g) cfg tick above q c1 in
    (p_cmd q = ReadReq ->
     if isSet ReadableBit b
     then exists q' c', r = Some (q', c') /\ p_data q' = p_data (setDataFromBlock (blkSize g) (blk_data b) q)
     else r = None) /\
    (p_cmd q = WriteReq -> isReadOnly cfg = false ->
     if isSet WritableBit b
     then exists q' c', r = Some (q', c') /\
       forall x, entry_at (c_tags c') x =
         if decide (x = j) then Some (setCoherenceBits DirtyBit (set_data (writeDataToBlock (blkSize g) q (blk_data b)) b))
         else entry_at (c_tags c) x
     else permits_in_place D -> regenerateBlkAddr g j b <> getBlockAddr (blkSize g) q -> r = None).
Proof.
  intros g c1 OK Hlen Hnil Hfield Hcand.
  assert (exists k, injectMetadataFault (RP := RP) p g now a i = inject_alias p g now i k) as [k Hk].
  { unfold injectMetadataFault, is_tag_field in *. destruct (String.eqb (target_field p) "tag"); [by eexists|].
    cbn in Hfield. rewrite Hfield. by eexists. }
  pose proof (inject_alias_spec p g now i k (c_hooks c).1 (CkState (c_tags c) (c_hooks c).2)) as [Ht Hs].
  rewrite bool_decide_eq_false_2 in Hs by done. destruct Hs as (_ & j & b & He & Hv & Hset & Hway & Hinj).
  assert (c_tags c1 = c_tags c /\ c_writebacks c1 = [] /\ (c_hooks c1).2 = set_alias (blk_set g i) (blk_way g i) (blk_way g j) (c_hooks c).2)
    as (E1 & E2 & E3) by (subst c1; unfold on_cache; rewrite Hk, bind_run; by split_and!).
  exists j, b. split; [by intros ->|]. do 3 (split; [done|]). intros tick above q Hf Ho Hr r.
  assert (j < num_blks g)%nat as Hj by (rewrite <- Hlen; cbn in He; unfold entry_at in He;
    apply fmap_Some in He as (? & Hx & _); by eapply lookup_lt_Some).
  assert (accessBlock (CH := ck_hooks p g) g (c_hooks c1) tick (p_key q) (c_tags c1) = (Some j, ac_touch tick j (c_tags c))) as Hacc.
  { unfold accessBlock. rewrite (findBlock_diverted p g OK (c_hooks c1) _ _ i j b); rewrite ?E1, ?E3; done. }
  assert (entry_at (ac_touch tick j (c_tags c)) j = Some b) as Het by (unfold ac_touch; by rewrite entry_at_on_repl).
  split.
  - intros Hc. destruct (isSet ReadableBit b) eqn:Hs; [by eapply hit_load|by eapply unreadable_fails].
  - intros Hc Hro. destruct (isSet WritableBit b) eqn:Hs; [|intros HD Hne; by eapply unwritable_fails].
    destruct (hit_store p cfg tick above q j b _ c1 Hacc Het E2 Ho Hr Hc Hs Hro) as (q' & c' & Eq & _ & _ & Hx).
    exists q', c'. split; [done|]. intros x. rewrite Hx. unfold ac_touch. by rewrite entry_at_on_repl.
Qed.

(** C30 A permission fault fails the next load.  After an attack on the coherence bits of a
    valid block that is readable and not writable, whatever the random draws, the next load
    of the processor that matches the block fails an assertion of the cache: the miss it
    turns into asks for write permission that it does not need. *)
Theorem coh_fault_fails_load {B R} {D : Device B} {RP : ReplacementPolicy R} p cfg now a i b tick above q (c : cache B R (core * ck_inj)) :
  let g := cc_tags cfg in
  let c1 := on_cache (let! _ := injectMetadataFault p g now a i in skip) c in
  target_field p = "coh" -> tag_alias_valid (c_hooks c).2 = false -> c_writebacks c = [] ->
  entry_at (c_tags c) i = Some b -> isSet ReadableBit b = true -> isSet WritableBit b = false ->
  ac_findEntry (CE := blk_entry g) (possibleEntries g (p_key q)) (p_key q) (c_tags c) = Some i ->
  p_cmd q = ReadReq -> cacheResponding q = false ->
  cache_recvAtomic (CH := ck_hooks p g) cfg tick above q c1 = None.
Proof.
  intros g c1 Hfield Hal Hnil He Hr Hw Hf Hc Hq.
  destruct (inject_coh_read p now a i b (c_hooks c).1 (CkState (c_tags c) (c_hooks c).2) He Hr Hw) as [Ht Hj].
  assert (c_tags c1 = on_entry i (clearCoherenceBits ReadableBit) (c_tags c) /\ (c_hooks c1).2 = (c_hooks c).2) as [E1 E2].
  { subst c1. unfold on_cache, injectMetadataFault. rewrite Hfield, bind_run. cbn. by split. }
  eapply (unreadable_fails (CH := ck_hooks p g) _ _ _ _ i (clearCoherenceBits ReadableBit b)); try done.
  - unfold accessBlock, findBlock. fold g. rewrite E1, find_clear, Hf. cbn [divertFindBlock ck_hooks]. unfold chaosDivertFindBlock.
    rewrite E2, Hal. cbn [negb orb]. done.
  - unfold ac_touch. rewrite entry_at_on_repl, entry_at_on_entry, decide_True, He by done. done.
  - unfold isSet in Hr. cbn. by destruct (blk_valid b).
  - rewrite isSet_R, flag_clear by lia. apply andb_false_r.
Qed.

(** C21 The effect of an attack on cache data.  With targetField data, an attack on a cache
    with a valid block picks one valid block, the configured one if it is resident, and hits
    corruptionSize bytes of it, each at the configured offset if there is one, with the
    configured mask or, if none is configured, a drawn mask of at most bitsToChange bits.  A
    byte hit by a mask that is not zero becomes what the fault makes of it, unless the
    protection model corrects it, and a stuck fault is recorded; with pairedSector, the same
    byte of the partner, if it is resident, gets the fault without protection.  All other
    blocks and bytes stay, and corruptionSize is added to the count of faults. *)
Theorem cache_attack_exact {R} {RP : ReplacementPolicy R} p g now c (s : ck_state R) :
  target_field p = "data" -> 0 < blkSize g -> valid_blocks (ck_tags s) <> [] ->
  let r := injectFault p g now (c, s) in
  exists i f hits,
    let a := addr_at g (ck_tags s) i in
    let s' := foldl (hit_state p g a i (partner_of p g a s) f) s hits in
    i ∈ valid_blocks (ck_tags s) /\ (ck_type p <> Random -> f = ck_type p) /\
    (target_block_addr p <> 0 -> forall j, j ∈ valid_blocks (ck_tags s) ->
     addr_at g (ck_tags s) j = Z.ldiff (target_block_addr p) (blkSize g - 1) ->
     a = Z.ldiff (target_block_addr p) (blkSize g - 1)) /\
    length hits = Z.to_nat (corruption_size p) /\ Forall (hit_ok p g) hits /\
    ck_tags r.2.2 = ck_tags s' /\ ck_permanent (ck_inj_of r.2.2) = ck_permanent (ck_inj_of s') /\
    faults_injected_count r.2.1 = (faults_injected_count c + corruption_size p) mod 2 ^ 64.
Proof.
  intros Hf Hb Hv. cbn zeta. unfold injectFault. rewrite bind_run. cbn [get fst snd].
  destruct (valid_blocks (ck_tags s)) as [|v l] eqn:El; [done|]. rewrite <- El in *. clear v l El. rewrite !bind_run.
  destruct (pick_block_spec p g now (valid_blocks (ck_tags s)) c s Hv) as (i & c1 & -> & Hi & N1 & Hd). cbn [fst snd].
  set (a := addr_at g (ck_tags s) i) in *. rewrite ?bind_run.
  destruct (pick_partner_spec p g now a c1 s) as (c2 & -> & N2). cbn [fst snd]. rewrite ?bind_run.
  destruct c2 as [gn n st lg]. unfold with_rng. cbn [fst snd rng faults_injected_count the_stats the_log].
  assert (ck_type p <> Random -> (choose_fault (ck_type p) (ck_weights p) gn).1 = ck_type p) as Ht by (by destruct (ck_type p)).
  destruct (choose_fault (ck_type p) (ck_weights p) gn) as [f gn']. cbn [fst snd] in *. rewrite Hf.
  change (is_metadata "data") with false. change (String.eqb "data" "victim") with false. cbn iota.
  destruct (corrupt_bytes_spec p g now a i (partner_of p g a s) f (seq 0 (Z.to_nat (corruption_size p))) Hf Hb (Core gn' n st lg) s)
    as (hits & c3 & -> & Hlen & Hok & N3). cbn [fst snd].
  match goal with |- context [ck_next p now (c3, ?x)] => destruct (ck_next_spec p now c3 x) as (E1 & E2 & E3 & _) end.
  exists i, f, hits. fold a. rewrite length_seq in Hlen. split_and!; try done. rewrite E3, N3. cbn [faults_injected_count] in *. by rewrite <- N1, <- N2.
Qed.

(** An attack on an empty cache uses up the budget.  If no block is valid when the attack
    event fires, nothing is injected, yet corruptionSize is added to the fault count; where
    that reaches maxFaults, the injector schedules no other attack. *)
Theorem cache_empty_attack_spends_budget {R} {RP : ReplacementPolicy R} p g now c (s : ck_state R) :
  valid_blocks (ck_tags s) = [] -> 0 <= faults_injected_count c -> 0 < corruption_size p ->
  0 < ck_max p <= faults_injected_count c + corruption_size p -> faults_injected_count c + corruption_size p < 2 ^ 64 ->
  let r := injectFault p g now (c, s) in
  ck_tags r.2.2 = ck_tags s /\ ck_inj_of r.2.2 = ck_inj_of s /\
  faults_injected_count r.2.1 = faults_injected_count c + corruption_size p.
Proof.
  intros Hv H0 Hs Hm Hw. cbn zeta. unfold injectFault. rewrite bind_run. cbn [get fst snd]. rewrite Hv, bind_run. cbn [skip ret fst snd].
  destruct (ck_next_spec p now c s) as (E1 & _ & E3 & E4). rewrite Z.mod_small in E3 by lia.
  split; [done|]. split; [|done]. apply E4. rewrite E3. apply cap_reached_spec. lia.
Qed.

(** ** The periodic check *)

Definition check_dead {R} (cs : core * ck_state R) : Prop := scheduled (ck_periodic (ck_inj_of cs.2)) = false.

(** A call that leaves the periodic event alone. *)
Definition keeps_check {R A} (m : M (ck_state R) A) : Prop :=
  forall cs, ck_periodic (ck_inj_of (m cs).2.2) = ck_periodic (ck_inj_of cs.2).

Section CheckOnce.
Context {R : Type} {RP : ReplacementPolicy R} (p : ck_params) (g : tags_cfg).

Lemma keeps_check_bind {A A'} (m : M (ck_state R) A) (k : A -> M (ck_state R) A') :
  keeps_check m -> (forall x, keeps_check (k x)) -> keeps_check (bind m k).
Proof. intros Hm Hk cs. unfold bind. by rewrite Hk. Qed.

(** Calls that change the core or other members. *)
Lemma keeps_check_core {A} (m : M (ck_state R) A) : (forall cs, (m cs).2.2 = cs.2) -> keeps_check m.
Proof. intros Hm cs. by rewrite Hm. Qed.

Lemma keeps_check_modify f : (forall s, ck_periodic (ck_inj_of (f s)) = ck_periodic (ck_inj_of s)) -> keeps_check (R := R) (modify f).
Proof. intros Hf cs. apply Hf. Qed.

Lemma keeps_check_log w e : keeps_check (R := R) (log_if w e).
Proof. apply keeps_check_core. intros cs. by destruct (log_if_spec w e cs) as [lg ->]. Qed.

Lemma keeps_check_each {A} (l : list A) body : (forall x, keeps_check (body x)) -> keeps_check (R := R) (for_each l body).
Proof. intros Hb. induction l as [|x l IH]; [by intros ?|]. apply keeps_check_bind; [apply Hb|]. intros _. apply IH. Qed.

Ltac keeps_check_tac :=
  lazymatch goal with
  | |- forall _, _ => intros ?; keeps_check_tac
  | |- keeps_check (bind _ _) => apply keeps_check_bind; [keeps_check_tac|keeps_check_tac]
  | |- keeps_check (for_each _ _) => apply keeps_check_each; keeps_check_tac
  | |- keeps_check (whenM ?b _) => destruct b; cbn [whenM]; keeps_check_tac
  | |- keeps_check (log_if _ _) => apply keeps_check_log
  | |- keeps_check (modify _) => apply keeps_check_modify; by intros [? ?]
  | |- keeps_check (match ?x with _ => _ end) => destruct x; keeps_check_tac
  | |- keeps_check ?m =>
      first [apply keeps_check_core; by intros [? ?] | let h := get_head m in progress unfold h; cbv beta zeta; keeps_check_tac]
  end.

Lemma injectFault_keeps_check now : keeps_check (R := R) (injectFault p g now).
Proof. keeps_check_tac. Qed.

Lemma checkPermanent_keeps_check now : keeps_check (R := R) (ck_checkPermanent g now).
Proof. keeps_check_tac. Qed.

Lemma check_stays_dead x : preserves check_dead (ck_act p g x).
Proof.
  intros cs Hd. unfold check_dead in *. destruct x as [now|now|f|now a d]; cbn [ck_act].
  - unfold fire_ck_attack. rewrite bind_run. cbn [get fst snd]. destruct (negb _); [done|]. rewrite bind_run. cbn [modify fst snd].
    unfold whenM. destruct (service_evt _).1; [|done]. rewrite injectFault_keeps_check. done.
  - unfold fire_ck_periodic. rewrite bind_run. cbn [get fst snd]. by rewrite Hd.
  - done.
  - pose proof (chaosCorruptWriteback_spec p now a d (cs.1, ck_inj_of cs.2)) as [E _]. cbn [fst snd] in *. cbn [ck_inj_of]. by rewrite E.
Qed.
End CheckOnce.

(** C32 Stuck faults are checked once.  After the first firing of the periodic check, whatever
    attacks, cache accesses and writebacks follow, the check never fires again: a stuck-at
    fault is not enforced from then on. *)
Theorem cache_check_fires_once {R} {RP : ReplacementPolicy R} p g now l now' (cs : core * ck_state R) :
  let cs1 := (fire_ck_periodic g now cs).2 in
  let cs2 := (for_each l (ck_act p g) cs1).2 in
  fire_ck_periodic g now' cs2 = (tt, cs2).
Proof.
  intros cs1 cs2. assert (check_dead cs2) as Hd.
  { apply preserves_for_each; [intros; apply check_stays_dead|]. subst cs1. unfold check_dead, fire_ck_periodic. rewrite bind_run.
    cbn [get fst snd]. destruct (negb _) eqn:E; [by apply negb_true_iff in E|]. rewrite bind_run. cbn [modify fst snd].
    unfold whenM. destruct (service_evt _).1; [|done]. by rewrite checkPermanent_keeps_check. }
  unfold fire_ck_periodic. rewrite bind_run. cbn [get fst snd]. by rewrite Hd.
Qed.

(** ** Lost stores *)

Section LostStore.
Context {R : Type} {RP : ReplacementPolicy R} (p : ck_params) (cfg : cache_cfg).
Abbreviation g := (cc_tags cfg).
Abbreviation st := (cache memory R (core * ck_inj)).
#[local] Instance lost_hooks : CacheHooks (core * ck_inj) := ck_hooks p g.
Implicit Types (c : st).

(** A block that is not dirty is dropped with a packet that the memory ignores. *)
Lemma wp_evict_clean now i b c :
  entry_at (c_tags c) i = Some b -> blk_valid b = true -> isSet DirtyBit b = false ->
  negb (isReadOnly cfg) || writebackClean cfg = true -> length (blk_data b) = Z.to_nat (blkSize g) ->
  wp (evictBlock cfg now (InTags i)) c (fun q c' =>
    (p_cmd q = CleanEvict \/ p_cmd q = WritebackClean) /\ cacheResponding q = false /\
    c_below c' = c_below c /\ c_writebacks c' = c_writebacks c /\ valid_at (c_tags c') i = false).
Proof.
  intros He Hv Hd Hro Hl. unfold evictBlock. apply wp_bind. unfold wp at 1, deref. cbn [get_blk]. rewrite He, Hd. cbn [orb].
  assert (forall q c1 b1, entry_at (c_tags c1) i = Some b1 -> blk_valid b1 = true -> c_below c1 = c_below c -> c_writebacks c1 = c_writebacks c ->
    (p_cmd q = CleanEvict \/ p_cmd q = WritebackClean) -> cacheResponding q = false ->
    wp (do? invalidateBlock cfg (InTags i) in eret q) c1 (fun q c' => (p_cmd q = CleanEvict \/ p_cmd q = WritebackClean) /\
      cacheResponding q = false /\ c_below c' = c_below c /\ c_writebacks c' = c_writebacks c /\ valid_at (c_tags c') i = false)) as Hinv.
  { intros q c1 b1 He1 Hv1 Hb1 Hw1 Hq Hr. apply wp_bind. unfold invalidateBlock, tags_invalidate. apply wp_bind, wp_get, wp_bind.
    unfold valid_at at 1. rewrite He1, Hv1. apply (wp_lift _ _ _ _ eq_refl), wp_modify, wp_ret. split_and!; try done.
    cbn. unfold valid_at, ac_invalidate. rewrite entry_at_on_repl, entry_at_on_entry, decide_True by done. by rewrite He1. }
  apply wp_bind. destruct (writebackClean cfg) eqn:Ewc.
  - unfold writebackBlk, blk_addr, deref, clear_bits. unfold wp, ebind, eassert, eget, emodify, eret, ewhen. cbn [get_blk].
    rewrite He, Ewc, !orb_true_r, Hv. cbn [andb]. rewrite He, Hd.
    destruct (isSet WritableBit b);
      (eapply Hinv; [cbn; rewrite !entry_at_on_entry, !decide_True by done; by rewrite He|done|done|done|by right|done]).
  - unfold cleanEvictBlk. apply wp_bind, wp_assert; [by rewrite Ewc|]. apply wp_bind. unfold wp at 1, deref. cbn [get_blk]. rewrite He.
    apply wp_bind, wp_assert; [by rewrite Hv, Hd|]. apply wp_bind. unfold blk_addr. apply wp_bind. unfold wp at 1, deref. cbn [get_blk]. rewrite He.
    apply wp_bind, wp_get, wp_ret, wp_ret. eapply Hinv; [exact He|done..|by left|done].
Qed.

(** Evicting such a block and doing the writebacks leaves the memory as it was. *)
Lemma wp_drop_clean now above i b c :
  entry_at (c_tags c) i = Some b -> blk_valid b = true -> isSet DirtyBit b = false ->
  negb (isReadOnly cfg) || writebackClean cfg = true -> length (blk_data b) = Z.to_nat (blkSize g) -> c_writebacks c = [] ->
  wp (do? handleEvictions cfg now i in doWritebacksAtomic cfg now above) c (fun _ c' =>
    c_below c' = c_below c /\ valid_at (c_tags c') i = false).
Proof.
  intros He Hv Hd Hro Hl Hnil. apply wp_bind. unfold handleEvictions. apply wp_bind. unfold wp at 1, deref. cbn [get_blk]. rewrite He, Hv.
  apply wp_bind. eapply wp_mono; [|by apply (wp_evict_clean now i b)]. intros q c1 (Hq & Hr & Hb & Hw & Hi). apply wp_modify.
  rewrite Hw, Hnil. cbn [app]. unfold doWritebacksAtomic. apply wp_bind, wp_get, wp_bind, wp_modify. cbn [c_writebacks with_writebacks doWritebacks].
  assert (wp (do? sendAtomic cfg now above q in eret tt) (with_writebacks [] (with_writebacks [q] c1))
    (fun _ c' => c_below c' = c_below c /\ valid_at (c_tags c') i = false)) as Hsend.
  { apply wp_bind. unfold sendAtomic. apply wp_bind, wp_get, wp_bind.
    assert (forall ab m, recvAtomic (Device := memory_device) now ab q m = Some (q, m)) as Hm.
    { intros ab m. unfold recvAtomic, memory_device. rewrite Hr. by destruct Hq as [-> | ->]. }
    rewrite Hm. apply (wp_lift _ _ _ _ eq_refl), wp_bind, wp_modify, wp_ret, wp_ret. done. }
  apply wp_bind. destruct (above (p_key q)).
  - rewrite bool_decide_eq_false_2 by (destruct Hq as [-> | ->]; done). by apply wp_ret, wp_ret.
  - eapply wp_mono; [|exact Hsend]. intros [] c' ?. by apply wp_ret.
Qed.
End LostStore.

(** C26 A dirty-bit fault loses the store.  After an attack on the dirty bit of a modified block
    of a cache over a memory, evicting the block completes without writing the memory: the
    memory keeps the bytes it had, and the stores to the block are gone. *)
Theorem dirty_fault_loses_store {R} {RP : ReplacementPolicy R} p cfg now a i b tick above (c : cache memory R (core * ck_inj)) :
  let g := cc_tags cfg in
  let c1 := on_cache (let! _ := injectMetadataFault p g now a i in skip) c in
  target_field p = "dirty" -> entry_at (c_tags c) i = Some b -> isSet DirtyBit b = true ->
  isReadOnly cfg = false -> length (blk_data b) = Z.to_nat (blkSize g) -> c_writebacks c = [] ->
  exists c', (do? handleEvictions (CH := ck_hooks p g) cfg tick i in doWritebacksAtomic (CH := ck_hooks p g) cfg tick above) c1 = Some (tt, c') /\
    c_below c' = c_below c /\ valid_at (c_tags c') i = false.
Proof.
  intros g c1 Hf He Hd Hro Hl Hnil.
  assert (c_tags c1 = on_entry i (fun b => if isSet DirtyBit b then clearCoherenceBits DirtyBit b else setCoherenceBits DirtyBit b) (c_tags c) /\
    c_writebacks c1 = [] /\ c_below c1 = c_below c) as (E1 & E2 & E3).
  { subst c1. unfold on_cache, injectMetadataFault. rewrite Hf, bind_run. destruct (c_hooks c) as [[gn n st lg] j]. cbn [String.eqb Ascii.eqb Bool.eqb].
    unfold on_blk, count_fault. exec. by split_and!. }
  assert (blk_valid b = true) as Hv by (unfold isSet in Hd; by destruct (blk_valid b)).
  destruct (wp_run _ _ _ (wp_drop_clean p cfg tick above i (clearCoherenceBits DirtyBit b) c1 ltac:(by rewrite E1, entry_at_on_entry, decide_True, He; cbn; rewrite ?Hd)
    Hv ltac:(rewrite isSet_D, flag_clear by lia; apply andb_false_r) ltac:(by rewrite Hro) Hl E2)) as ([] & c' & E & Hb & Hi).
  exists c'. by rewrite <- E3.
Qed.

(** ** An example cache

    Two sets of two ways with 16-byte blocks; set 0 holds the lines at 0 and 32, both
    writable, the first one dirty. *)
Definition ex_cfg : cache_cfg := CacheCfg (TagsCfg 16 4 2) false false false true.
Definition ex_blk (tag bits v : Z) : cache_blk := CacheBlk true false tag bits (replicate 16 v).
Definition ex_empty : cache_blk := CacheBlk false false MaxAddr 0 (replicate 16 0).
Definition ex_params (field : string) (mask : Z) : ck_params :=
  CkParams 1 1 1 0 0 BitFlip [] mask 1000 false 0 5 false field NoProtection 0.
Definition ex_inj : ck_inj := CkInj 0 0 0 false (Evt false false 0) (Evt false false 0) [].
Definition ex_core : core := Core (Engine (fun _ => 0) 0) 0 stats0 [].
Definition ex_memory : memory := Memory 0 4096 (fun a => a mod 256) true [] [].
Definition ex_cache : cache memory LRUReplData (core * ck_inj) :=
  MkCache [(ex_blk 0 14 1, LRUData 1); (ex_blk 1 6 2, LRUData 2); (ex_empty, LRUData 0); (ex_empty, LRUData 0)]
    ex_empty MaxAddr None [] (ex_core, ex_inj) ex_memory.

(** The same cache with a second block that is only readable. *)
Definition ex_alias_shared : cache memory LRUReplData (core * ck_inj) :=
  with_tags (<[1%nat := (ex_blk 1 4 2, LRUData 2)]> (c_tags ex_cache)) ex_cache.

(** A load of the first line returns bytes of the second; a store to the first line, where
    the second is only readable, fails. *)
Lemma tag_fault_false_hit_witness :
  let attack := on_cache (let! _ := injectMetadataFault (ex_params "tag" 1) (cc_tags ex_cfg) 7 0 0 in skip) in
  let access := cache_recvAtomic (CH := ck_hooks (ex_params "tag" 1) (cc_tags ex_cfg)) ex_cfg 8 (fun _ => false) in
  (exists q' c', access (Pkt ReadReq 4 2 false [] false false) (attack ex_cache) = Some (q', c') /\ p_data q' = [2; 2]) /\
  access (Pkt WriteReq 4 2 false [9; 9] false false) (attack ex_alias_shared) = None.
Proof.
  split.
  - destruct (tag_fault_false_hit (ex_params "tag" 1) ex_cfg 7 0 0 ex_cache) as (j & b & Hj & Hs & He & Hv & H);
      [split; first [by vm_compute | cbn; lia]|done|done|done|by vm_compute|].
    destruct j as [|[|[|[|j]]]]; try done. injection He as <-.
    by apply (H 8 (fun _ => false) (Pkt ReadReq 4 2 false [] false false)).
  - destruct (tag_fault_false_hit (ex_params "tag" 1) ex_cfg 7 0 0 ex_alias_shared) as (j & b & Hj & Hs & He & Hv & H);
      [split; first [by vm_compute | cbn; lia]|done|done|done|by vm_compute|].
    assert (j = 1%nat) as -> by (by destruct j as [|[|[|[|j]]]]). injection He as <-.
    destruct (H 8 (fun _ => false) (Pkt WriteReq 4 2 false [9; 9] false false) eq_refl ltac:(done) eq_refl) as [_ Hst].
    exact (Hst eq_refl eq_refl memory_permits ltac:(done)).
Defined.

Lemma victim_fault_in_flight_witness :
  exists q c' b', writebackBlk (CH := ck_hooks (ex_params "victim" 1) (cc_tags ex_cfg)) ex_cfg 9 (InTags 0) ex_cache = Some (q, c') /\
    entry_at (c_tags c') 0 = Some b' /\ blk_data b' = replicate 16 1 /\
    one_byte_flip (replicate 16 1) (p_data q) /\ count_of (c_hooks c') = 1.
Proof.
  destruct (victim_fault_in_flight (ex_params "victim" 1) ex_cfg 9 0 (ex_blk 0 14 1) ex_cache) as (q & c' & b' & E & Hb & Hd & [(_ & _ & Hn)|(Hf & Hc & _)]);
    try done.
  - exfalso. apply Hn. by split_and!.
  - by exists q, c', b'.
Defined.

(** The attack flips bit 0 of byte 5 of one of the two valid blocks. *)
Lemma cache_attack_exact_witness :
  let s := CkState (c_tags ex_cache) ex_inj in
  let r := injectFault (ex_params "data" 1) (cc_tags ex_cfg) 7 (ex_core, s) in
  exists i, ck_tags r.2.2 = attacked_tags (ex_params "data" 1) i 5 BitFlip 1 (ck_tags s) /\ faults_injected_count r.2.1 = 1.
Proof.
  destruct (cache_attack_exact (ex_params "data" 1) (cc_tags ex_cfg) 7 ex_core (CkState (c_tags ex_cache) ex_inj))
    as (i & f & hits & _ & Hf & _ & Hl & Hok & Ht & _ & Hn); try done.
  exists i. rewrite Ht, Hn, Hf by done. destruct hits as [|[o m] [|]]; try done.
  apply Forall_cons in Hok as [(_ & Ho & _ & Hm & _) _]. cbn [fst snd] in *. rewrite Ho, Hm by done. done.
Defined.

Lemma cache_empty_attack_spends_budget_witness :
  let p := CkParams 1 1 1 0 0 BitFlip [] 1 1000 false 0 5 false "data" NoProtection 1 in
  let s := CkState (tagsInit (R := LRUReplData) (cc_tags ex_cfg)) ex_inj in
  let r := injectFault p (cc_tags ex_cfg) 7 (ex_core, s) in
  ck_inj_of r.2.2 = ck_inj_of s /\ faults_injected_count r.2.1 = 1.
Proof.
  destruct (cache_empty_attack_spends_budget (CkParams 1 1 1 0 0 BitFlip [] 1 1000 false 0 5 false "data" NoProtection 1) (cc_tags ex_cfg) 7 ex_core
    (CkState (tagsInit (R := LRUReplData) (cc_tags ex_cfg)) ex_inj)) as (_ & Hi & Hn); by vm_compute.
Defined.

(** The same cache with a first block that is only readable. *)
Definition ex_shared : cache memory LRUReplData (core * ck_inj) :=
  with_tags ((ex_blk 0 4 1, LRUData 1) :: drop 1 (c_tags ex_cache)) ex_cache.

Lemma coh_fault_fails_load_witness :
  cache_recvAtomic (CH := ck_hooks (ex_params "coh" 1) (cc_tags ex_cfg)) ex_cfg 8 (fun _ => false) (Pkt ReadReq 4 2 false [] false false)
    (on_cache (let! _ := injectMetadataFault (ex_params "coh" 1) (cc_tags ex_cfg) 7 0 0 in skip) ex_shared) = None.
Proof. by apply (coh_fault_fails_load (ex_params "coh" 1) ex_cfg 7 0 0 (ex_blk 0 4 1)). Defined.

Lemma dirty_fault_loses_store_witness :
  let p := ex_params "dirty" 1 in
  exists c', (do? handleEvictions (CH := ck_hooks p (cc_tags ex_cfg)) ex_cfg 8 0 in
              doWritebacksAtomic (CH := ck_hooks p (cc_tags ex_cfg)) ex_cfg 8 (fun _ => false))
      (on_cache (let! _ := injectMetadataFault p (cc_tags ex_cfg) 7 0 0 in skip) ex_cache) = Some (tt, c') /\
    load_bytes (pmem (c_below c')) 0 4 = [0; 1; 2; 3].
Proof.
  destruct (dirty_fault_loses_store (ex_params "dirty" 1) ex_cfg 7 0 0 (ex_blk 0 14 1) 8 (fun _ => false) ex_cache) as (c' & E & Hb & _); try done.
  exists c'. split; [done|]. by rewrite Hb.
Defined.
